(* ===== verification/_CoqProject ===== *)
-Q . S2P
Prelude.v
LamportClock.v
Entry.v
Log.v
LogTraverse.v
LogCrdt.v
LogWrite.v
LogJoin.v
LogTruncate.v
StoreIndex.v
EventLogStore.v
BaseStore.v
BaseStoreInv.v
Codec.v
Scenario.v
Lock.v
LockInv.v
LockProperties.v
BTree.v
Json.v
OdmSchema.v
OdmQuery.v
OdmUpdate.v
OdmUpdateInv.v
OdmIndex.v
OdmIndexInv.v
OdmCollection.v
OdmCollectionInv.v
OdmProperties.v
LogProperties.v
StoreProperties.v
OrdMap.v
Utf8.v
RustString.v
RustFloat.v
FloatExact.v
SqlTypes.v
Fts.v
FtsInv.v
SqlValue.v
SqlTyping.v
SqlConvert.v
SqlStorage.v
SqlCatalog.v
TableStore.v
TableStoreInv.v
RelStorage.v
SqlExec.v
SqlTrigger.v
ForeignKeys.v
Dml.v
ForeignKeysInv.v
ForeignKeyActions.v
ForeignKeyLoop.v
DmlInv.v
WriteLog.v
SqlEngine.v
SqlEngineInv.v
StoredTables.v
FkRipple.v
EngineTables.v
EngineViews.v
EngineStatements.v
EngineConsistency.v
SqlInstance.v
EngineInstance.v
EngineProperties.v
SqlProperties.v
Ledger.v
TaskEngine.v
TaskEngineInv.v
Scheduler.v
SchedulerInv.v
ComputeProperties.v
AccessControl.v
AccessControlInv.v
AccessProperties.v
SqlExt.v
SqlExtInv.v
ExtProperties.v
