(* ===== verification/Prelude.v ===== *)
(** * A verification library of GuardianDB

    GuardianDB is a peer-to-peer database: every store is a replicated log of
    operations with an index computed from it; on top of the stores there are a
    document mapper and a relational layer with PostgreSQL's locks.  This
    library models the parts that carry its consistency promises and proves
    those promises.  Paths below are relative to the crate's [src] directory.

    ** Parts and how they interact

    - The log ([log/mod.rs], [log/entry.rs], [log/lamport_clock.rs]).  A writer
      appends entries that name the current heads as parents; replicas exchange
      entries with [add_entry] or merge whole logs with [join]; [values] lists the
      entries in the order of a comparison function.
    - The stores ([stores/base_store], [stores/event_log_store], the indexes of all
      stores, [stores/operation]).  A base store holds a log, an index over it and
      a cache.  Writing appends to the log, updates the index and saves the log in
      the cache; [sync] takes entries from peers; [load] restores the log from the
      cache.  The event log store answers queries through the index when it can.
    - The lock manager ([sql/lock.rs]).  Sessions take table, row and advisory locks
      in PostgreSQL's modes, wait for conflicting holders, and are refused when
      waiting would close a cycle.
    - The document mapper ([odm]).  A collection validates documents against a
      schema, keeps unique and secondary indexes, answers queries through them and
      applies update operators.  It re-reads its storage before every operation.
    - The relational layer ([relational], [sql]).  Typed values with a stored, a
      textual and an index form; a catalog of schemas, tables, indexes, sequences,
      views and functions; a storage of JSON documents; tables that are loaded from
      the documents with their indexes; INSERT, UPDATE and DELETE with defaults,
      checks, conflicts, foreign keys, triggers and row security; an engine with
      sessions that load tables through a shared cache, take locks, stage the
      writes of a transaction and apply them at COMMIT.  Functions of extensions
      ([sql/ext]) are called from expressions.
    - The compute layer ([compute]).  Rules turn replication events into tasks of a
      ledger; workers claim them with a compare-and-swap and hand them to a scheduler,
      which ranks the nodes of a directory, delegates with failover, by auction, in
      parallel or redundantly, and keeps a reputation; a periodic pass requeues what
      was left.
    - Access control ([access_control]).  A store asks its controller whether an entry
      may be appended.  There are three: permissions in memory, a fixed list kept in
      the network, and a key-value store of permissions, which can itself be a log.

    ** Files

    - [Prelude]: results with their [let?] notation, machine integers, comparison
      functions and sorting, lemmas on lists.
    - [LamportClock], [Entry], [Log]: one definition per function of the log
      directory; a log is a record, a fallible or panicking function returns an
      option.  The Iroh client is not state: the content hash of a new entry is an
      argument of [append].
    - [LogTraverse], [LogCrdt], [LogWrite], [LogJoin], [LogTruncate]: the theory of
      the log: the invariant [wf], the replicas that satisfy it, and what
      traversal, writing, merging and truncation do.
    - [StoreIndex]: operations, the [StoreIndex] trait as a type class and its five
      implementations.  [EventLogStore]: queries, written against the class;
      [EntryIndex] is what an index promises to them.
    - [BaseStore]: the store over the classes [StoreIndex] and [Datastore].
      [BaseStoreInv]: the class [LogIndex] (an index reflects a list of entries),
      the store invariant, the step relation of the store and that every step
      keeps the invariant.
    - [Codec], [Scenario]: concrete instances of the parameters and
      concrete replicas, for the examples.
    - [Lock], [LockInv]: the lock manager and its step relation.  A blocking
      acquire is a loop of critical sections with waits in between; the steps are
      those critical sections, so the theorems hold for every interleaving.
    - [BTree], [Json]: ordered maps and sets, and JSON values with 64-bit integers and
      binary64 floats, as the document mapper uses them.
    - [OdmSchema], [OdmQuery], [OdmUpdate], [OdmIndex], [OdmCollection]: one file
      per source file of the document mapper; [OdmUpdateInv], [OdmIndexInv],
      [OdmCollectionInv] hold their theory.
    - [OrdMap], [Utf8], [RustString], [RustFloat], [FloatExact]: ordered maps over
      any key, and the parts of Rust's strings and of binary64 arithmetic that the
      relational layer uses, with their laws.
    - [SqlTypes], [Fts], [SqlValue]: types and errors, text search values, values with
      encoding, parsing, casts, comparison and index keys ([relational/types.rs],
      [error.rs], [fts.rs], [value.rs]).  [FtsInv], [SqlTyping], [SqlConvert],
      [SqlStorage]: what parsing, casting and storing do.
    - [SqlCatalog]: the catalog ([relational/catalog.rs]).
    - [TableStore]: indexes and loaded tables ([relational/index.rs], [sql/store.rs]);
      [TableStoreInv]: that the indexes are those of the rows.
    - [RelStorage]: the storage trait as a class with its contract, and the memory
      storage ([relational/storage.rs]).
    - [SqlExec]: the execution context, row checks and row security ([sql/exec.rs],
      [sql/rls.rs]).  [SqlTrigger]: the firing of triggers ([sql/trigger.rs]).
      [ForeignKeys]: checks, referential actions as a work list, deferred checks
      ([sql/fk.rs]).  [Dml]: INSERT, UPDATE and DELETE ([sql/dml.rs]).
    - [ForeignKeysInv], [ForeignKeyActions], [ForeignKeyLoop], [DmlInv]: that checks and
      actions keep the references, statement by statement.  [WriteLog]: that the
      recorded writes are those done to the tables in memory.
    - [SqlEngine]: the engine ([sql/engine.rs]); [SqlEngineInv]: what its handlers do to
      storage, session and locks.  [StoredTables]: tables that are written and built
      again.  [FkRipple]: that the tables which a statement loads are enough for its
      foreign keys.  [EngineTables], [EngineViews], [EngineStatements],
      [EngineConsistency]: the invariant of the engine, from the cache through the
      view of a session and the statements to whole runs.
    - [SqlExt]: helpers for arguments ([sql/ext/mod.rs]), paths and path patterns
      ([ltree.rs]), Levenshtein distance and soundex ([fuzzystrmatch.rs]).  [SqlExtInv]:
      what a pattern matches, edit scripts, and that the band of columns which the
      distance computes is wide enough.
    - [Ledger], [TaskEngine]: records and states of tasks, the ledger over a class of
      stores, and the rules, workers and requeue pass as processes whose steps lie
      between two calls of the store ([compute/ledger.rs], [compute/triggers.rs]).
      [TaskEngineInv]: the invariant of every interleaving.
    - [Scheduler]: directory, scores, reputation and every form of delegation
      ([compute/scheduler.rs]); [SchedulerInv]: what they return.
    - [AccessControl]: the trait as a class, its three implementations, the key-value
      store over a log and the creation of controllers ([access_control]).
      [AccessControlInv]: the laws of the trait and that each implementation has them.
    - [SqlInstance], [EngineInstance]: concrete values for the parameters of the
      relational layer, and a schema with two tables.
    - [LogProperties], [StoreProperties], [LockProperties], [OdmProperties],
      [SqlProperties], [EngineProperties], [ExtProperties], [ComputeProperties],
      [AccessProperties]: the theorems about the program, each with a concrete
      instance where it has hypotheses.

    ** What is shown

    - Log: replicas that merge converge to the same list of values, whatever the
      order and grouping of the merges and of the deliveries; the values are a
      linearisation in which parents precede children; appending puts the new
      entry last; a size limit keeps the newest entries; the loops terminate.
    - Stores: in every reachable store the index shows the values of the log, so a
      query through it equals the query over the log; a write is read back by its
      hash and survives a restart; [sync] takes exactly the entries that pass its
      checks.
    - Locks: conflicting locks are never held by different sessions; the deadlock
      search is exact; the wait-for relation is acyclic in every reachable state;
      when the sessions that can run end, every blocked one is served;
      every request and release has the documented outcome.
    - Document mapper: in every reachable collection the documents satisfy the
      schema and the unique constraints, and the indexes are those of the
      documents; a query through an index equals the scan; batches are atomic;
      updates touch one document and never an immutable field.
    - Values: every conversion yields a value of the target type; what is stored is
      read back; casts to integers are exact or refused; text search values are
      read back from their text.
    - Tables and statements: the indexes are those of the rows after every change,
      the unique check through an index equals the scan, a table that is written
      and built again is the same; successful statements keep the constraints, and
      at the end of a transaction every foreign key has its parent.
    - Engine: whatever is run on a fresh database, the stored documents satisfy all
      declared constraints; a session sees what its statements wrote; the cache
      never shows; a transaction is all or nothing and lost after an error.  These
      theorems are about sessions that run one after the other, tables without
      triggers and views, rows that can be read back, a storage that does not fail,
      and statements without ON CONFLICT DO UPDATE.
    - Extensions: the distance of two strings is the cost of the cheapest edit script,
      or one more than the bound when that cost exceeds it, whatever band of the matrix
      is computed; the pattern operator decides a declarative match of paths.
    - Compute: in every interleaving of workers and requeue passes in which no worker is
      overtaken by the deadline of its task, a task has one worker at a time, is
      dispatched a bounded number of times and is not changed once finished; a rule
      fires once per event; the end of a dispatch is what the reply of an eligible node
      says; delegation goes along the ranked candidates and stops at the first that
      decides; a redundant run returns the output of the majority.
    - Access control: every entry that a guarded store takes is by an author who was
      granted a permission; the permissions are a set of pairs of a capability and a
      key after any sequence of operations; the key-value store over a log is a map.
    - Nine theorems record places where the code does something else than its
      comments say or than it means to: [default_order_tie], [find_children_chain],
      [load_more_foreign_entry], [negative_zero_missed], [upsert_destroys_row],
      [late_worker_revives], [full_bid_discounted_twice], [iroh_takes_forged],
      [guardian_revoke_kept].

    ** Modelling choices

    - [u64] values are [N] with explicit wrap-around; theorems that need a clock not
      to wrap say so.  Integers of documents are [Z] or [N] with the range of the
      machine type checked where the code checks it.
    - [sort_by] is a stable insertion sort.  With a comparison that is not an order
      Rust leaves the result open; the theorems about values assume the store's
      comparison, which is an order, and those about heads are up to permutation.
    - Iteration over hash maps never determines a result that a theorem mentions;
      where the code's result depends on it ([find_tails]) the iteration order is a
      parameter.
    - Fuel: a traversal gets one unit per root and per stored entry, [diff] one per
      head and per named parent, the deadlock search one per edge of the wait-for
      graph; the work list of referential actions has the code's own bound of steps.
      [traverse_terminates], [diff_is_difference] and
      [deadlock_search_exact] show that it never runs out.
    - Honesty: a set of entries in which a hash determines its entry and clocks
      increase from parent to child stands for collision resistance and for
      writers that run this code.
    - Concurrency: the tasks of the compute layer and the sessions of the lock manager
      are interleaved at every step; a call of a store or a critical section is atomic.
    - Distances: the two rows are lists of integers, the inner loops have one unit of
      fuel per column, and costs up to 2^50 keep every sum in the range of [i64].
    - Parameters: the content hash, the access controller's decision in the theorems
      about logs and stores, the verification of identities, the digest of task keys,
      the replies of other nodes ([ComputeNetwork]), the stores of the ledger and of
      permissions ([LedgerStore], [KvStore]) with their laws, the binary
      and base64 codecs, the cache, the clock, the generator of identifiers and the
      JSON text; for the relational layer decimals, dates, UUIDs and
      Unicode tables ([Foreign] and its laws), the parser's syntax trees ([SqlSyntax],
      [EngineSyntax]), the evaluation of expressions and function bodies
      ([Evaluator]), and serde's form of the catalog ([CatalogCodec]).  Their laws are stated where they are used, and each has a
      concrete instance.

    ** What is not modelled

    Network, persistence engines, cryptography, event buses and tracing, which are
    third-party code or plumbing around it.  Of the relational layer: SELECT, DDL, the
    evaluation of expressions, the PL/pgSQL interpreter and statements on views, which
    work on the syntax trees of a third-party parser that would have to be made up; the
    vector index, an approximation over floating-point distances with random levels; the
    extensions over cryptography, vectors and external servers, and the spelling tables
    of metaphone.  Of the compute layer: the WebAssembly runtime, model servers and the
    wire protocol.  Of the document mapper: storage in a document store, which belongs to
    an external service.  The embedding, gateway and command-line programs, which are
    input and output around the modelled parts. *)

From stdpp Require Export base gmap strings list numbers sorting pretty.
From Stdlib Require Export Ascii ZArith NArith Lia.
From Stdlib Require String.

Set Default Goal Selector "!".

(** Facts about sorted maps and sets. *)
Create HintDb sorted discriminated.

(** ** Results: Rust's [Result<A, E>] *)

Inductive result (E A : Type) : Type :=
| Ok (a : A)
| Err (e : E).
Arguments Ok {E A} a.
Arguments Err {E A} e.

Declare Scope result_scope.
Delimit Scope result_scope with result.

(** [let? x := m in k] is Rust's [let x = m?; k]. *)
Notation "'let?' x ':=' m 'in' k" :=
  (match m with Ok x => k | Err e => Err e end)
  (at level 10, x pattern, m at level 100, k at level 200) : result_scope.
Open Scope result_scope.

(** [is_ok r] is [r.is_ok()]. *)
Definition is_ok {E A} (r : result E A) : bool :=
  match r with Ok _ => true | Err _ => false end.

#[global] Instance result_eq_dec {E A} `{EqDecision E} `{EqDecision A} : EqDecision (result E A).
Proof. solve_decision. Defined.

(** ** Machine integers *)

(** [u64] values are kept as [N]; arithmetic that may leave the range wraps,
    as it does in a release build. *)
Definition u64_modulus : N := (2 ^ 64)%N.
Definition wrap_u64 (n : N) : N := (n `mod` u64_modulus)%N.
Definition in_u64 (n : N) : Prop := (n < u64_modulus)%N.

Lemma wrap_u64_small n : in_u64 n -> wrap_u64 n = n.
Proof. unfold in_u64, wrap_u64. intros. by apply N.mod_small. Qed.

Lemma wrap_u64_bound n : in_u64 (wrap_u64 n).
Proof. apply N.mod_lt. done. Qed.

(** ** Comparison functions *)

(** Rust's [Ordering] is [comparison]; [then_with] chains two of them. *)
Definition then_with (c d : comparison) : comparison :=
  match c with Eq => d | _ => c end.

(** [TotalOn cmp D]: on the elements of [D], [cmp] is a strict total order with
    [Eq] meaning equality. *)
Record TotalOn {A} (cmp : A -> A -> comparison) (D : A -> Prop) : Prop := {
  total_antisym : forall x y, D x -> D y -> cmp x y = CompOpp (cmp y x);
  total_eq : forall x y, D x -> D y -> cmp x y = Eq -> x = y;
  total_trans : forall x y z, D x -> D y -> D z ->
    cmp x y = Lt -> cmp y z = Lt -> cmp x z = Lt
}.

Lemma total_on_weaken {A} (cmp : A -> A -> comparison) (D D' : A -> Prop) :
  (forall x, D' x -> D x) -> TotalOn cmp D -> TotalOn cmp D'.
Proof.
  intros HD [Ha He Ht]. split; intros; [by apply Ha; auto|by apply He; auto|].
  eapply (Ht x y z); auto.
Qed.

Lemma total_on_ext {A} (c c' : A -> A -> comparison) (D : A -> Prop) :
  (forall x y, D x -> D y -> c x y = c' x y) -> TotalOn c D -> TotalOn c' D.
Proof.
  intros Hext [Ha He Ht]. split; intros *.
  - intros. rewrite <- !Hext by done. by apply Ha.
  - intros. apply He; [done..|]. by rewrite Hext.
  - intros. rewrite <- Hext by done. eapply (Ht x y z); rewrite ?Hext; done.
Qed.

Lemma total_refl {A} (cmp : A -> A -> comparison) D x :
  TotalOn cmp D -> D x -> cmp x x = Eq.
Proof.
  intros [Ha _ _] Hx. specialize (Ha x x Hx Hx). by destruct (cmp x x).
Qed.

(** Total order on the whole type. *)
Definition Total {A} (cmp : A -> A -> comparison) : Prop := TotalOn cmp (fun _ => True).

Lemma N_compare_total : Total N.compare.
Proof.
  split; intros x y **.
  - by rewrite N.compare_antisym.
  - by apply N.compare_eq.
  - rewrite N.compare_lt_iff in *. lia.
Qed.

Lemma ascii_compare_total : Total Ascii.compare.
Proof.
  split; intros x y **.
  - apply Ascii.compare_antisym.
  - by apply Ascii.compare_eq_iff.
  - unfold Ascii.compare in *. rewrite N.compare_lt_iff in *. lia.
Qed.

(** Byte strings are compared lexicographically, as [str::cmp] and the slice
    comparison of hashes do. *)
Lemma string_compare_cons a s b t :
  String.compare (String.String a s) (String.String b t) =
  then_with (Ascii.compare a b) (String.compare s t).
Proof. simpl. by destruct (Ascii.compare a b). Qed.

Lemma string_compare_total : Total String.compare.
Proof.
  split; intros x y **.
  - apply String.compare_antisym.
  - by apply String.compare_eq_iff.
  - rename select string into z.
    rename select (String.compare x y = Lt) into Hxy.
    rename select (String.compare y z = Lt) into Hyz.
    revert y z Hxy Hyz. induction x as [|a x IH]; intros [|b y] [|c z]; try done.
    rewrite !string_compare_cons. pose proof ascii_compare_total as [Hs He Ht].
    destruct (Ascii.compare a b) eqn:Hab, (Ascii.compare b c) eqn:Hbc; try done; simpl; intros.
    + apply He in Hab as ->, Hbc as ->; [|done..].
      rewrite (total_refl _ _ _ ascii_compare_total I). by eapply IH.
    + apply He in Hab as ->; [|done..]. by rewrite Hbc.
    + apply He in Hbc as ->; [|done..]. by rewrite Hab.
    + by rewrite (Ht a b c).
Qed.

(** ** [slice::sort_by] *)

(** Rust's stable sort inserts each element into the sorted prefix on its left,
    moving it past every element it is [Less] than: this is the insertion sort
    the standard library runs on slices of up to twenty elements, and on longer
    slices any stable sort returns the same list when the comparison is a total
    order.  The prefix is kept reversed, its last element first. *)
Section sort.
Context {A : Type} (cmp : A -> A -> comparison).

Definition is_less (a b : A) : bool :=
  match cmp a b with Lt => true | _ => false end.

Fixpoint insert_tail (x : A) (prefix : list A) : list A :=
  match prefix with
  | [] => [x]
  | y :: ys => if is_less x y then y :: insert_tail x ys else x :: prefix
  end.

Definition sort_rev (l : list A) : list A := foldl (fun acc x => insert_tail x acc) [] l.

Definition sort_by (l : list A) : list A := reverse (sort_rev l).

Lemma insert_tail_perm x l : insert_tail x l ≡ₚ x :: l.
Proof.
  induction l as [|y l IH]; simpl; [done|].
  destruct (is_less x y); [|done]. rewrite IH. apply Permutation_swap.
Qed.

Lemma sort_rev_acc_perm l acc : foldl (fun acc x => insert_tail x acc) acc l ≡ₚ l ++ acc.
Proof.
  revert acc. induction l as [|x l IH]; intros acc; simpl; [done|].
  rewrite IH, insert_tail_perm. by rewrite Permutation_middle.
Qed.

Lemma sort_rev_perm l : sort_rev l ≡ₚ l.
Proof. unfold sort_rev. by rewrite sort_rev_acc_perm, app_nil_r. Qed.

Lemma sort_by_perm l : sort_by l ≡ₚ l.
Proof. unfold sort_by. by rewrite reverse_Permutation, sort_rev_perm. Qed.

(** The order in which the reversed prefix is kept: no element is [Less] than
    one that follows it in the reversed list. *)
Definition desc (a b : A) : Prop := cmp a b <> Lt.

Lemma desc_trans D x y z :
  TotalOn cmp D -> D x -> D y -> D z -> desc x y -> desc y z -> desc x z.
Proof.
  unfold desc. intros [Ha He Ht] Dx Dy Dz Hxy Hyz Hxz.
  destruct (cmp z y) eqn:Hzy.
  - apply He in Hzy as ->; done.
  - apply Hxy. by eapply (Ht x z y).
  - rewrite (Ha y z), Hzy in Hyz by done. done.
Qed.

Lemma insert_tail_sorted D x l :
  TotalOn cmp D -> D x -> Forall D l ->
  StronglySorted desc l -> StronglySorted desc (insert_tail x l).
Proof.
  intros HT Dx. induction l as [|y l IH]; intros HD Hs; simpl.
  { repeat constructor. }
  inversion HD as [|?? Dy Dl]; inversion Hs as [|?? Hs' Hy]; subst.
  unfold is_less. destruct (cmp x y) eqn:Hxy.
  2:{ constructor; [by apply IH|]. rewrite insert_tail_perm. constructor; [|done].
      unfold desc. rewrite (total_antisym _ _ HT) by done. by rewrite Hxy. }
  all: assert (desc x y) by (unfold desc; by rewrite Hxy).
  all: constructor; [done|constructor; [done|]].
  all: rewrite Forall_forall in Hy, Dl |- *; intros z Hz.
  all: eapply (desc_trans D x y z); eauto.
Qed.

Lemma sort_rev_sorted D l :
  TotalOn cmp D -> Forall D l -> StronglySorted desc (sort_rev l).
Proof.
  intros HT HD. unfold sort_rev.
  assert (Hacc : StronglySorted desc ([] : list A)) by constructor.
  assert (Dacc : Forall D ([] : list A)) by constructor.
  revert Hacc Dacc. generalize ([] : list A) as acc.
  induction HD as [|x l Dx Dl IH]; intros acc Hs Dacc; simpl; [done|].
  apply IH; [by eapply insert_tail_sorted|]. rewrite insert_tail_perm. by constructor.
Qed.

(** Two permutations of the same elements sort to the same list when the
    comparison is a total order on them. *)
Lemma sort_rev_canonical D l1 l2 :
  TotalOn cmp D -> Forall D l1 -> l1 ≡ₚ l2 -> sort_rev l1 = sort_rev l2.
Proof.
  intros HT H1 Hp. assert (H2 : Forall D l2) by by rewrite <- Hp.
  eapply StronglySorted_unique_strong.
  2,3: by eapply sort_rev_sorted.
  2: by rewrite !sort_rev_perm.
  intros x y Hx Hy Hxy Hyx. rewrite sort_rev_perm in Hx, Hy.
  rewrite Forall_forall in H1, H2. unfold desc in *.
  apply (total_eq _ _ HT); [by apply H1|by apply H2|].
  rewrite (total_antisym _ _ HT y x) in Hyx by eauto.
  by destruct (cmp x y).
Qed.
End sort.

(** [v.sort_by(f); v.reverse()], as the log code writes it everywhere. *)
Lemma reverse_sort_by {A} (cmp : A -> A -> comparison) l :
  reverse (sort_by cmp l) = sort_rev cmp l.
Proof. unfold sort_by. apply reverse_involutive. Qed.

(** ** Lexicographic and keyed comparisons *)

Definition pair_compare {A B} (c : A -> A -> comparison) (d : B -> B -> comparison)
    (x y : A * B) : comparison :=
  then_with (c x.1 y.1) (d x.2 y.2).

Lemma pair_compare_total {A B} (c : A -> A -> comparison) (d : B -> B -> comparison) :
  Total c -> Total d -> Total (pair_compare c d).
Proof.
  intros Hc Hd. pose proof (total_refl c (fun _ => True)) as Hr.
  destruct Hc as [ca ce ct] eqn:E, Hd as [da de dt]. unfold pair_compare.
  split; intros [x1 x2] [y1 y2]; simpl.
  - intros _ _. rewrite (ca x1 y1), (da x2 y2) by done.
    by destruct (c y1 x1), (d y2 x2).
  - intros _ _. destruct (c x1 y1) eqn:H; simpl; [|done..].
    intros H'. apply ce in H as ->; [|done..]. by apply de in H' as ->.
  - intros [z1 z2] _ _ _. simpl.
    destruct (c x1 y1) eqn:H1; simpl; [|intros _|done].
    + apply ce in H1 as ->; [|done..]. destruct (c y1 z1); simpl; [|done..].
      intros. by eapply dt.
    + destruct (c y1 z1) eqn:H2; simpl; [|intros _|done].
      * apply ce in H2 as ->; [|done..]. by rewrite H1.
      * by rewrite (ct x1 y1 z1).
Qed.

(** Comparing by a key is a total order on a set where the key is injective. *)
Lemma key_compare_total {A K} (c : K -> K -> comparison) (key : A -> K) (D : A -> Prop) :
  Total c ->
  (forall x y, D x -> D y -> key x = key y -> x = y) ->
  TotalOn (fun x y => c (key x) (key y)) D.
Proof.
  intros [Ha He Ht] Hinj. split; intros.
  - by apply Ha.
  - apply Hinj; [done..|]. by apply He.
  - by eapply (Ht _ (key y)).
Qed.

(** ** Lists *)

(** Filtering by a stronger predicate that drops an element makes the list
    shorter. *)
Lemma filter_length_lt {A} (P Q : A -> Prop) `{!forall x, Decision (P x)}
    `{!forall x, Decision (Q x)} (l : list A) x :
  x ∈ l -> Q x -> ~ P x -> (forall y, P y -> Q y) ->
  length (filter P l) < length (filter Q l).
Proof.
  intros Hx HQ HP HPQ. induction l as [|y l IH]; [by apply not_elem_of_nil in Hx|].
  assert (Hle : forall l, length (filter P l) <= length (filter Q l)).
  { clear -HPQ. induction l as [|z l IH]; [done|]. rewrite !filter_cons.
    repeat case_decide; simpl; try lia. naive_solver. }
  rewrite !filter_cons. apply elem_of_cons in Hx as [->|Hx].
  - rewrite decide_False, decide_True by done. simpl. specialize (Hle l). lia.
  - specialize (IH Hx). repeat case_decide; simpl; try lia. naive_solver.
Qed.

Lemma size_list_to_set_le `{Countable A} (l : list A) :
  size (list_to_set l : gset A) <= length l.
Proof.
  induction l as [|x l IH]; [by rewrite list_to_set_nil, size_empty|].
  rewrite list_to_set_cons, length_cons, size_union_alt, size_singleton.
  assert (size (list_to_set l ∖ {[x]} : gset A) <= size (list_to_set l : gset A)); [|lia].
  apply subseteq_size. set_solver.
Qed.

(** A strictly ascending list is determined by its elements. *)
Lemma strictly_sorted_unique {A} (cmp : A -> A -> comparison) (l1 l2 : list A) :
  TotalOn cmp (fun x => x ∈ l1) ->
  StronglySorted (fun x y => cmp x y = Lt) l1 -> StronglySorted (fun x y => cmp x y = Lt) l2 ->
  l1 ≡ₚ l2 -> l1 = l2.
Proof.
  intros HT Hs1. revert l2 HT. induction Hs1 as [|x l1 Hs1 IH Hx]; intros [|y l2] HT Hs2 Hp;
    [done|by apply Permutation_nil_l in Hp|by apply Permutation_nil_r in Hp|].
  apply StronglySorted_inv in Hs2 as [Hs2 Hy]. rewrite Forall_forall in Hx, Hy.
  assert (x = y) as ->.
  { assert (Hyin : y ∈ x :: l1) by (rewrite Hp; by left).
    assert (Hxin : x ∈ y :: l2) by (rewrite <- Hp; by left).
    apply elem_of_cons in Hyin as [->|Hyin]; [done|].
    apply elem_of_cons in Hxin as [->|Hxin]; [done|].
    specialize (Hx _ Hyin). specialize (Hy _ Hxin).
    rewrite (total_antisym _ _ HT), Hy in Hx; [done|by left|by right]. }
  f_equal. apply IH; [|done|by apply Permutation_cons_inv in Hp].
  eapply total_on_weaken; [|exact HT]. intros; by right.
Qed.

(** Taking from the end. *)
Lemma reverse_take_reverse {A} (es : list A) n : reverse (take n (reverse es)) = drop (length es - n) es.
Proof.
  rewrite <- (take_drop (length es - n) es) at 1. rewrite reverse_app.
  destruct (decide (n <= length es)) as [Hn|Hn].
  - rewrite take_app_length' by (rewrite length_reverse, length_drop; lia).
    by rewrite reverse_involutive.
  - replace (length es - n) with 0 by lia. rewrite take_0, drop_0, reverse_nil, app_nil_r.
    rewrite take_ge by (rewrite length_reverse; lia). by rewrite reverse_involutive.
Qed.

Lemma strongly_sorted_weaken {A} (R R' : A -> A -> Prop) (l : list A) :
  (forall x y, R x y -> R' x y) -> StronglySorted R l -> StronglySorted R' l.
Proof. intros HR Hs. induction Hs; constructor; eauto using Forall_impl. Qed.

Lemma sum_filter_le {A} (f : A -> nat) (P Q : A -> Prop) `{!forall x, Decision (P x)}
    `{!forall x, Decision (Q x)} (l : list A) :
  (forall x, P x -> Q x) -> sum_list (f <$> filter P l) <= sum_list (f <$> filter Q l).
Proof.
  intros HPQ. induction l as [|x l IH]; [done|]. rewrite !filter_cons.
  destruct (decide (P x)) as [HP|HP], (decide (Q x)) as [HQ|HQ]; csimpl; try lia.
  by destruct HQ; apply HPQ.
Qed.
