(* ===== verification/LamportClock.v ===== *)
(** * Lamport clocks: src/log/lamport_clock.rs

    The clock record, its operations, and the order that the log uses to
    arrange entries: logical time first, the writer's identifier second. *)

From S2P Require Import Prelude.

Module LamportClock.

Record t := mk { id : string; time : N }.

#[global] Instance eq_dec : EqDecision t.
Proof. solve_decision. Defined.

Definition new (id : string) : t := {| id := id; time := 0%N |}.

Definition set_time (self : t) (time : N) : t := {| id := id self; time := time |}.

(** [self.time += 1] on a [u64]. *)
Definition tick (self : t) : t :=
  {| id := id self; time := wrap_u64 (time self + 1) |}.

Definition merge (self o : t) : t :=
  if decide (time self < time o)%N then {| id := id self; time := time o |} else self.

Definition eqb (self other : t) : bool :=
  bool_decide (time self = time other) && bool_decide (id self = id other).

Definition cmp (self other : t) : comparison :=
  then_with (N.compare (time self) (time other)) (String.compare (id self) (id other)).

(** ** Order *)

Lemma cmp_pair a b :
  cmp a b = pair_compare N.compare String.compare (time a, id a) (time b, id b).
Proof. reflexivity. Qed.

Lemma cmp_total : Total cmp.
Proof.
  apply (key_compare_total (pair_compare N.compare String.compare) (fun c => (time c, id c))).
  - apply pair_compare_total; [apply N_compare_total|apply string_compare_total].
  - by intros [] [] _ _ [= -> ->].
Qed.

Lemma eqb_cmp a b : eqb a b = true <-> cmp a b = Eq.
Proof.
  unfold eqb. rewrite andb_true_iff, !bool_decide_eq_true. split.
  - destruct a, b. simpl. intros [-> ->]. by apply (total_refl cmp (fun _ => True)); [apply cmp_total|].
  - intros H. by apply (total_eq _ _ cmp_total) in H as ->.
Qed.

Lemma merge_time a b : time (merge a b) = N.max (time a) (time b).
Proof. unfold merge. case_decide; simpl; lia. Qed.

Lemma merge_id a b : id (merge a b) = id a.
Proof. unfold merge. by case_decide. Qed.

Lemma set_time_time c n : time (set_time c n) = n.
Proof. reflexivity. Qed.

Lemma cmp_time_lt a b : (time a < time b)%N -> cmp a b = Lt.
Proof. unfold cmp. intros H%N.compare_lt_iff. by rewrite H. Qed.

End LamportClock.
