(* ===== verification/Entry.v ===== *)
(** * Log entries: src/log/entry.rs and the identity data of src/log/identity.rs

    The entry record, its constructors, the parent relation and the comparison
    functions a log can be sorted with.  Byte vectors and UTF-8 strings are
    [string]s; a BLAKE3 hash is the [string] of its bytes. *)

From S2P Require Import Prelude LamportClock.

Abbreviation Hash := string (only parsing).

(** [Hash::from([0u8; 32])] *)
Definition zero_hash : Hash := String.string_of_list_ascii (replicate 32 Ascii.zero).

Module Signatures.
Record t := new { id : string; pub_key : string }.
#[global] Instance eq_dec : EqDecision t.
Proof. solve_decision. Defined.
End Signatures.

Module Identity.
Record t := new { id : string; pub_key : string; signatures : Signatures.t }.
#[global] Instance eq_dec : EqDecision t.
Proof. solve_decision. Defined.

Definition cmp (self other : t) : comparison := String.compare (id self) (id other).
End Identity.

Module Entry.

Record t := mk {
  hash : Hash;
  id : string;
  payload : string;
  next : list Hash;
  v : N;
  clock : LamportClock.t;
  identity : option Identity.t
}.

#[global] Instance eq_dec : EqDecision t.
Proof. solve_decision. Defined.

Inductive EntryOrHash :=
| OfEntry (e : t)
| OfHash (h : Hash).

Definition empty : t :=
  {| hash := zero_hash; id := "0000"; payload := "0000"; next := []; v := 0;
     clock := LamportClock.new "0000"; identity := None |}.

Definition entry_or_hash (n : EntryOrHash) : Hash :=
  match n with OfEntry e => hash e | OfHash h => h end.

Definition new (ident : Identity.t) (log_id : string) (data : string)
    (nexts : list EntryOrHash) (clk : option LamportClock.t) : t :=
  {| hash := zero_hash;
     id := log_id;
     payload := data;
     next := entry_or_hash <$> nexts;
     v := 1;
     clock := default (LamportClock.new (Identity.pub_key ident)) clk;
     identity := Some ident |}.

Definition set_hash (self : t) (h : Hash) : t :=
  {| hash := h; id := id self; payload := payload self; next := next self;
     v := v self; clock := clock self; identity := identity self |}.

(** The [LogEntry] view: an entry that carries no identity reports the
    process-wide default one. *)
Definition get_identity (self : t) : Identity.t :=
  match identity self with
  | Some i => i
  | None => Identity.new "unknown" "unknown" (Signatures.new "" "")
  end.

Definition is_parent (e1 e2 : t) : bool :=
  existsb (fun x => bool_decide (x = hash e1)) (next e2).

(** The loop of [find_children]: follow, from [entry], the first entry of the
    list that names the current one as a parent.  [None] is running out of
    fuel. *)
Fixpoint children_chain (fuel : nat) (entry : t) (entries : list t) : option (list t) :=
  match List.find (is_parent entry) entries with
  | None => Some []
  | Some p =>
      match fuel with
      | O => None
      | S fuel => cons p <$> children_chain fuel p entries
      end
  end.

Definition find_children (fuel : nat) (entry : t) (entries : list t) : option (list t) :=
  sort_by (fun a b => N.compare (LamportClock.time (clock a)) (LamportClock.time (clock b)))
    <$> children_chain fuel entry entries.

(** ** Comparison functions *)

Definition sort_by_clocks (resolve : t -> t -> comparison) (a b : t) : comparison :=
  match LamportClock.cmp (clock a) (clock b) with
  | Eq => resolve a b
  | diff => diff
  end.

Definition sort_by_clock_ids (resolve : t -> t -> comparison) (a b : t) : comparison :=
  match String.compare (LamportClock.id (clock a)) (LamportClock.id (clock b)) with
  | Eq => resolve a b
  | diff => diff
  end.

Definition sort_step_by_step (resolve : t -> t -> comparison) : t -> t -> comparison :=
  sort_by_clocks (sort_by_clock_ids resolve).

Definition last_write_wins (a b : t) : comparison :=
  sort_step_by_step (fun _ _ => Lt) a b.

Definition sort_by_entry_hash (a b : t) : comparison :=
  sort_step_by_step (fun a b => String.compare (hash a) (hash b)) a b.

Definition no_zeroes (sort_fn : t -> t -> comparison) (a b : t) : comparison :=
  if decide (hash a = hash b) then Eq
  else match sort_fn a b with
       | Eq => String.compare (hash a) (hash b)
       | diff => diff
       end.

(** [PartialEq] and [Ord] of entries. *)
Definition eqb (self other : t) : bool := bool_decide (hash self = hash other).

Definition cmp (self other : t) : comparison :=
  match LamportClock.cmp (clock self) (clock other) with
  | Eq => String.compare (LamportClock.id (clock self)) (LamportClock.id (clock other))
  | diff => diff
  end.

(** ** Theory of the comparison functions *)

Definition time (e : t) : N := LamportClock.time (clock e).

(** A set of entries is coherent when hashes identify them, which content
    addressing gives. *)
Definition coherent (D : t -> Prop) : Prop :=
  forall x y, D x -> D y -> hash x = hash y -> x = y.

Definition distinct_clocks (D : t -> Prop) : Prop :=
  forall x y, D x -> D y -> clock x = clock y -> x = y.

Lemma clock_cmp_eq a b : LamportClock.cmp (clock a) (clock b) = Eq -> clock a = clock b.
Proof. by apply (total_eq _ _ LamportClock.cmp_total). Qed.

Lemma last_write_wins_clock a b :
  clock a <> clock b -> last_write_wins a b = LamportClock.cmp (clock a) (clock b).
Proof.
  intros Hne. unfold last_write_wins, sort_step_by_step, sort_by_clocks.
  destruct (LamportClock.cmp _ _) eqn:E; [|done..]. by apply clock_cmp_eq in E.
Qed.

Lemma last_write_wins_tie a b : clock a = clock b -> last_write_wins a b = Lt.
Proof.
  intros Heq. unfold last_write_wins, sort_step_by_step, sort_by_clocks, sort_by_clock_ids.
  rewrite Heq, !(total_refl _ _ _ LamportClock.cmp_total I).
  by rewrite !(total_refl _ _ _ string_compare_total I).
Qed.

Lemma sort_by_entry_hash_key a b :
  sort_by_entry_hash a b =
  pair_compare LamportClock.cmp String.compare (clock a, hash a) (clock b, hash b).
Proof.
  unfold sort_by_entry_hash, sort_step_by_step, sort_by_clocks, sort_by_clock_ids, pair_compare.
  simpl. destruct (LamportClock.cmp _ _) eqn:E; [|done..]. apply clock_cmp_eq in E.
  by rewrite E, (total_refl _ _ _ string_compare_total I).
Qed.

Lemma sort_by_entry_hash_total D : coherent D -> TotalOn sort_by_entry_hash D.
Proof.
  intros HD. eapply total_on_ext; [intros; symmetry; apply sort_by_entry_hash_key|].
  apply (key_compare_total _ (fun e => (clock e, hash e))).
  - apply pair_compare_total; [apply LamportClock.cmp_total|apply string_compare_total].
  - intros x y Hx Hy [= _ Hh]. by apply HD.
Qed.

Lemma last_write_wins_agrees x y :
  x = y \/ clock x <> clock y ->
  no_zeroes last_write_wins x y =
    if decide (hash x = hash y) then Eq else LamportClock.cmp (clock x) (clock y).
Proof.
  intros Hxy. unfold no_zeroes. case_decide as Hh; [done|].
  destruct Hxy as [->|Hc]; [done|]. rewrite last_write_wins_clock by done.
  destruct (LamportClock.cmp _ _) eqn:E; [|done..]. by apply clock_cmp_eq in E.
Qed.

Lemma no_zeroes_total sort_fn D :
  coherent D -> TotalOn sort_fn D -> TotalOn (no_zeroes sort_fn) D.
Proof.
  intros HD HT. eapply total_on_ext; [|exact HT]. intros x y Hx Hy.
  unfold no_zeroes. case_decide as Hh.
  - apply HD in Hh as ->; [|done..]. by apply (total_refl _ D).
  - destruct (sort_fn x y) eqn:E; [|done..].
    apply (total_eq _ _ HT) in E as ->; done.
Qed.

Lemma no_zeroes_lww_total D :
  coherent D -> distinct_clocks D -> TotalOn (no_zeroes last_write_wins) D.
Proof.
  intros HD Hc. eapply (total_on_ext (fun x y => LamportClock.cmp (clock x) (clock y))).
  - intros x y Hx Hy. destruct (decide (x = y)) as [->|Hne].
    + unfold no_zeroes. rewrite decide_True by done.
      by rewrite (total_refl _ _ _ LamportClock.cmp_total I).
    + assert (clock x <> clock y) by (intros ?; by apply Hne, Hc).
      rewrite last_write_wins_agrees by auto. case_decide; [|done].
      by destruct Hne; apply HD.
  - apply (key_compare_total _ clock); [apply LamportClock.cmp_total|done].
Qed.

(** ** [find_children] terminates on causally ordered entries *)

Definition causal (D : t -> Prop) : Prop :=
  forall e p, D e -> D p -> hash p ∈ next e -> (time p < time e)%N.

Lemma is_parent_spec e1 e2 : is_parent e1 e2 = true <-> hash e1 ∈ next e2.
Proof.
  unfold is_parent. rewrite existsb_exists, list_elem_of_In. split.
  - intros (x & Hx & ->%bool_decide_eq_true). done.
  - intros H. exists (hash e1). split; [done|]. by apply bool_decide_eq_true.
Qed.

Lemma children_chain_measure entries bound fuel e :
  causal (fun x => x ∈ e :: entries) ->
  length (filter (fun x => (time e < time x)%N) entries) <= bound ->
  bound <= fuel ->
  is_Some (children_chain fuel e entries).
Proof.
  revert fuel e. induction bound as [|bound IH]; intros fuel e Hc Hb Hf.
  all: destruct (List.find (is_parent e) entries) as [p|] eqn:Hfind;
    [|destruct fuel; simpl; rewrite Hfind; eauto].
  all: apply find_some in Hfind as Hp; destruct Hp as [Hin%list_elem_of_In Hpar%is_parent_spec].
  all: assert (Hlt : (time e < time p)%N) by (apply (Hc p e); set_solver).
  - assert (p ∈ filter (fun x => (time e < time x)%N) entries) by by apply list_elem_of_filter.
    destruct (filter _ entries); [set_solver|simpl in Hb; lia].
  - destruct fuel as [|fuel]; [lia|]. simpl. rewrite Hfind.
    assert (length (filter (fun x => (time p < time x)%N) entries) <
            length (filter (fun x => (time e < time x)%N) entries)).
    { eapply (filter_length_lt _ _ _ p); [done|done|lia|]. intros; lia. }
    assert (is_Some (children_chain fuel p entries)) as [l ->]; [|by eexists].
    apply IH; [|lia..]. intros x y ???. apply Hc; set_solver.
Qed.

End Entry.
