(* ===== verification/Log.v ===== *)
(** * The operation log: src/log/mod.rs

    The log record and one definition per operation: construction, append,
    [add_entry], [join] with its [diff], [traverse] and the accessors built on
    it, head and tail computation, and the clock updates.  The Iroh client is
    not part of the state: the one value the log needs from it, the hash of a
    freshly created entry, is an argument of [append]. *)

From S2P Require Import Prelude LamportClock Entry.

(** [LogOptions], with the defaults of its [Default] instance. *)
Module LogOptions.
Record t := mk {
  id : option string;
  entries : list Entry.t;
  heads : list Entry.t;
  clock : option LamportClock.t;
  sort_fn : option (Entry.t -> Entry.t -> comparison)
}.

Definition new : t :=
  {| id := None; entries := []; heads := []; clock := None; sort_fn := None |}.
End LogOptions.

Module Log.

Record t := mk {
  id : string;
  identity : Identity.t;
  entries : gmap Hash Entry.t;
  length : nat;
  heads : list Entry.t;
  nexts : gset Hash;
  sort_fn : Entry.t -> Entry.t -> comparison;
  clock : LamportClock.t
}.

(** ** Helpers *)

Fixpoint dedup_from (seen : gset Hash) (v : list Entry.t) : list Entry.t :=
  match v with
  | [] => []
  | x :: v =>
      if decide (Entry.hash x ∈ seen) then dedup_from seen v
      else x :: dedup_from ({[Entry.hash x]} ∪ seen) v
  end.

Definition dedup (v : list Entry.t) : list Entry.t := dedup_from ∅ v.

(** [for h in hs { t_max = max(t_max, h.clock().time()) }] *)
Definition max_time (t_max : N) (hs : list Entry.t) : N :=
  foldl (fun t h => N.max t (LamportClock.time (Entry.clock h))) t_max hs.

(** [for e in es { for n in e.next() { set.insert(n) } }] *)
Definition insert_nexts (set : gset Hash) (es : list Entry.t) : gset Hash :=
  foldl (fun s e => foldl (fun s n => {[n]} ∪ s) s (Entry.next e)) set es.

Definition insert_entries (m : gmap Hash Entry.t) (es : list Entry.t) : gmap Hash Entry.t :=
  foldl (fun m e => <[Entry.hash e := e]> m) m es.

(** The comparison [find_heads] sorts with: by clock identifier, ties [Less]. *)
Definition head_order (a b : Entry.t) : comparison :=
  match String.compare (LamportClock.id (Entry.clock a)) (LamportClock.id (Entry.clock b)) with
  | Eq => Lt
  | diff => diff
  end.

Definition parents_of (es : list Entry.t) : gmap Hash Hash :=
  foldl (fun m e => foldl (fun m n => <[n := Entry.hash e]> m) m (Entry.next e)) ∅ es.

Definition find_heads (es : list Entry.t) : list Entry.t :=
  let parents := parents_of es in
  sort_by head_order (filter (fun e => parents !! Entry.hash e = None) es).

(** The tails of [es]: the entries with no parent, and for every parent
    missing from [es] the last entry that names it.  [iter] is the iteration
    order of the [HashSet] of parents. *)
Definition find_tails (iter : gset Hash -> list Hash) (es : list Entry.t) : list Entry.t :=
  let no_nexts := filter (fun e => Entry.next e = []) es in
  let reverses : gmap Hash Entry.t :=
    foldl (fun m e => foldl (fun m n => <[n := e]> m) m (Entry.next e)) ∅ es in
  let nexts := insert_nexts ∅ es in
  let hashes : gset Hash := list_to_set (Entry.hash <$> es) in
  sort_by Entry.cmp
    (dedup (omap (fun x => reverses !! x) (filter (fun x => x ∉ hashes) (iter nexts))
            ++ no_nexts)).

Definition find_tail_hashes (es : list Entry.t) : list Hash :=
  let hashes : gset Hash := list_to_set (Entry.hash <$> es) in
  reverse (es ≫= fun e => filter (fun n => n ∉ hashes) (reverse (Entry.next e))).

(** ** Construction *)

(** [now] is the decimal rendering of the current time in milliseconds, the
    identifier of a log that is given none. *)
Definition new (now : string) (identity : Identity.t) (opts : LogOptions.t) : t :=
  let es := LogOptions.entries opts in
  let heads := dedup (match LogOptions.heads opts with
                      | [] => find_heads es
                      | hs => hs
                      end) in
  let t_max := match LogOptions.clock opts with
               | Some c => LamportClock.time c
               | None => 0%N
               end in
  {| id := default now (LogOptions.id opts);
     identity := identity;
     entries := insert_entries ∅ es;
     length := List.length es;
     heads := heads;
     nexts := insert_nexts ∅ es;
     sort_fn := Entry.no_zeroes (default Entry.last_write_wins (LogOptions.sort_fn opts));
     clock := LamportClock.set_time (LamportClock.new (Identity.pub_key identity))
                (max_time t_max heads) |}.

(** ** Accessors *)

Definition has (self : t) (h : Hash) : bool := bool_decide (is_Some (entries self !! h)).

Definition get (self : t) (h : Hash) : option Entry.t := entries self !! h.

Definition len (self : t) : nat := length self.

Definition is_empty (self : t) : bool := bool_decide (length self = 0).

(** ** Traversal *)

(** [stack.sort_by(sort_fn); stack.reverse()] *)
Definition resort (self : t) (stack : list Entry.t) : list Entry.t :=
  reverse (sort_by (sort_fn self) stack).

(** The inner loop over the parents of the entry just popped. *)
Fixpoint push_nexts (self : t) (ns : list Hash) (stack : list Entry.t)
    (traversed : gset Hash) : list Entry.t * gset Hash :=
  match ns with
  | [] => (stack, traversed)
  | h :: ns =>
      match get self h with
      | Some e =>
          if decide (Entry.hash e ∈ traversed) then push_nexts self ns stack traversed
          else push_nexts self ns (resort self (e :: stack)) ({[Entry.hash e]} ∪ traversed)
      | None => push_nexts self ns stack traversed
      end
  end.

(** The outer loop; [None] is running out of fuel. *)
Fixpoint traverse_loop (fuel : nat) (self : t) (stack : list Entry.t) (traversed : gset Hash)
    (count : nat) (amount : option nat) (end_hash : option Hash) : option (list Entry.t) :=
  match stack with
  | [] => Some []
  | e :: stack =>
      if decide (amount = None \/ count < default 0 amount) then
        match fuel with
        | O => None
        | S fuel =>
            let '(stack', traversed') := push_nexts self (Entry.next e) stack traversed in
            if decide (end_hash = Some (Entry.hash e)) then Some [e]
            else cons e <$> traverse_loop fuel self stack' traversed' (S count) amount end_hash
        end
      else Some []
  end.

(** Every iteration pops one entry and every entry of the log is pushed at
    most once. *)
Definition traverse_fuel (self : t) (roots : list Entry.t) : nat :=
  List.length (dedup roots) + size (entries self).

Definition traverse (self : t) (roots : list Entry.t) (amount : option nat)
    (end_hash : option Hash) : list Entry.t :=
  default [] (traverse_loop (traverse_fuel self roots) self (resort self (dedup roots)) ∅ 0
                amount end_hash).

Definition values (self : t) : list Entry.t := reverse (traverse self (heads self) None None).

(** [Log::heads()] *)
Definition get_heads (self : t) : list Entry.t := resort self (dedup (heads self)).

Definition tails (iter : gset Hash -> list Hash) (self : t) : list Entry.t :=
  find_tails iter (values self).

Definition tail_hashes (self : t) : list Hash := find_tail_hashes (values self).

(** ** Updates *)

(** [append]: [hash_entry] is the content hash the client returns for the new
    entry; a failing client makes the append panic, [None]. *)
Definition append (hash_entry : Entry.t -> option Hash) (self : t) (data : string)
    (n_ptr : option nat) : option (t * Entry.t) :=
  let t_new := wrap_u64 (max_time (LamportClock.time (clock self)) (heads self) + 1) in
  let clock' := LamportClock.set_time (LamportClock.new (LamportClock.id (clock self))) t_new in
  let refs := traverse self (heads self)
                (Some (Nat.max (default 1 n_ptr) (List.length (heads self)))) None in
  let heads' := dedup (reverse (heads self)) ++ refs in
  let entry := Entry.new (identity self) (id self) data
                 ((fun x => Entry.OfHash (Entry.hash x)) <$> heads') (Some clock') in
  match hash_entry entry with
  | None => None
  | Some h =>
      let entry := Entry.set_hash entry h in
      Some ({| id := id self;
               identity := identity self;
               entries := <[Entry.hash entry := entry]> (entries self);
               length := length self + 1;
               heads := [entry];
               nexts := foldl (fun s x => {[Entry.hash x]} ∪ s) (nexts self) heads';
               sort_fn := sort_fn self;
               clock := clock' |}, entry)
  end.

Definition add_entry (self : t) (entry : Entry.t) : t * bool :=
  let hash := Entry.hash entry in
  if has self hash then (self, false)
  else
    let nexts' := insert_nexts (nexts self) [entry] in
    let heads' := filter (fun h => Entry.hash h ∉ Entry.next entry) (heads self) in
    ({| id := id self;
        identity := identity self;
        entries := <[hash := entry]> (entries self);
        length := length self + 1;
        heads := if decide (hash ∈ nexts') then heads' else heads' ++ [entry];
        nexts := nexts';
        sort_fn := sort_fn self;
        clock := clock self |}, true).

(** ** Difference *)

(** The loop over the parents of an entry that goes into the difference. *)
Fixpoint diff_push (other : t) (ns : list Hash) (stack : list Hash) (traversed : gset Hash)
    : list Hash * gset Hash :=
  match ns with
  | [] => (stack, traversed)
  | n :: ns =>
      if decide ((n ∉ traversed) /\ (get other n = None))
      then diff_push other ns (stack ++ [n]) ({[n]} ∪ traversed)
      else diff_push other ns stack traversed
  end.

Fixpoint diff_loop (fuel : nat) (self other : t) (stack : list Hash) (traversed : gset Hash)
    (diff : gmap Hash Entry.t) : option (gmap Hash Entry.t) :=
  match stack with
  | [] => Some diff
  | hash :: stack =>
      match fuel with
      | O => None
      | S fuel =>
          match get self hash, get other hash with
          | Some entry_a, None =>
              if decide (Entry.id entry_a = id other) then
                let '(stack', traversed') :=
                  diff_push other (Entry.next entry_a) stack traversed in
                diff_loop fuel self other stack' ({[Entry.hash entry_a]} ∪ traversed')
                  (<[Entry.hash entry_a := entry_a]> diff)
              else diff_loop fuel self other stack traversed diff
          | _, _ => diff_loop fuel self other stack traversed diff
          end
      end
  end.

(** The hashes that can be pushed: the parents named by some entry. *)
Definition all_nexts (self : t) : gset Hash :=
  insert_nexts ∅ (snd <$> map_to_list (entries self)).

Definition diff_fuel (self : t) : nat := List.length (heads self) + size (all_nexts self).

Definition diff (self other : t) : gmap Hash Entry.t :=
  default ∅ (diff_loop (diff_fuel self) self other (Entry.hash <$> heads self) ∅ ∅).

(** ** Join *)

(** Clock of a log whose heads have just been recomputed. *)
Definition clock_from_heads (self_clock : LamportClock.t) (hs : list Entry.t) : LamportClock.t :=
  LamportClock.set_time (LamportClock.new (LamportClock.id self_clock)) (max_time 0 hs).

Definition merge_items (self other : t) : t :=
  let new_items := diff other self in
  let new_list := snd <$> map_to_list new_items in
  let nexts' := insert_nexts (nexts self) new_list in
  let nexts_from_new_items := insert_nexts ∅ new_list in
  let all_heads := find_heads (heads self ++ heads other) in
  let merged_heads :=
    filter (fun x => Entry.hash x ∉ nexts')
      (filter (fun x => Entry.hash x ∉ nexts_from_new_items) all_heads) in
  {| id := id self;
     identity := identity self;
     entries := new_items ∪ entries self;
     length := length self +
       size (filter (fun kv : Hash * Entry.t => entries self !! kv.1 = None) new_items);
     heads := dedup merged_heads;
     nexts := nexts';
     sort_fn := sort_fn self;
     clock := clock self |}.

Definition truncate (self : t) (n : nat) : t :=
  let vs := take n (reverse (values self)) in
  let entries' := insert_entries ∅ vs in
  {| id := id self;
     identity := identity self;
     entries := entries';
     length := size entries';
     heads := find_heads (dedup vs);
     nexts := nexts self;
     sort_fn := sort_fn self;
     clock := clock self |}.

Definition set_clock (self : t) (c : LamportClock.t) : t :=
  {| id := id self; identity := identity self; entries := entries self; length := length self;
     heads := heads self; nexts := nexts self; sort_fn := sort_fn self; clock := c |}.

Definition join (self other : t) (sz : option nat) : option t :=
  if decide (id self <> id other) then None
  else
    let merged := merge_items self other in
    let cut := match sz with Some n => truncate merged n | None => merged end in
    Some (set_clock cut (clock_from_heads (clock cut) (heads cut))).

(** ** Identity and clock *)

Definition set_identity (self : t) (ident : Identity.t) : t :=
  {| id := id self; identity := ident; entries := entries self; length := length self;
     heads := heads self; nexts := nexts self; sort_fn := sort_fn self;
     clock := LamportClock.set_time (LamportClock.new (Identity.pub_key ident))
                (max_time 0 (heads self)) |}.

Definition sync_clock_from_heads (self : t) : t :=
  set_clock self
    (LamportClock.set_time (LamportClock.new (LamportClock.id (clock self)))
       (max_time (LamportClock.time (clock self)) (heads self))).

End Log.
