(* ===== verification/LogTraverse.v ===== *)
(** * Theory of the log traversal

    [Log.traverse] always finishes within its fuel; from the heads of a
    well-formed log it visits every stored entry exactly once, in descending
    order of the sort function, so [Log.values] lists every entry after its
    parents and depends only on the set of entries. *)

From S2P Require Import Prelude LamportClock Entry Log.

(** ** [dedup] keeps a list without repeated hashes *)

Lemma dedup_from_spec seen v :
  NoDup (Entry.hash <$> v) -> (forall e, e ∈ v -> Entry.hash e ∉ seen) ->
  Log.dedup_from seen v = v.
Proof.
  revert seen. induction v as [|x v IH]; intros seen; simpl; [done|].
  intros [Hx Hnd]%NoDup_cons Hseen. rewrite decide_False by set_solver. f_equal.
  apply IH; [done|]. intros y Hy. apply not_elem_of_union. split; [|set_solver].
  apply not_elem_of_singleton. intros Heq. apply Hx, list_elem_of_fmap. eauto.
Qed.

Lemma dedup_nodup v : NoDup (Entry.hash <$> v) -> Log.dedup v = v.
Proof. intros H. apply dedup_from_spec; set_solver. Qed.

Section traverse.
Context (self : Log.t).
Implicit Types (e p : Entry.t) (h n : Hash) (s out : list Entry.t) (T : gset Hash).

(** [e] is in the log under its own hash. *)
Definition stored e : Prop := Log.entries self !! Entry.hash e = Some e.

Definition keyed : Prop := forall h e, Log.entries self !! h = Some e -> Entry.hash e = h.

Lemma keyed_stored h e : keyed -> Log.entries self !! h = Some e -> stored e.
Proof. intros Hk He. unfold stored. by rewrite (Hk _ _ He). Qed.

Lemma stored_coherent : Entry.coherent stored.
Proof. unfold stored. intros x y Hx Hy Hh. rewrite Hh in Hx. congruence. Qed.

Lemma resort_perm s : Log.resort self s ≡ₚ s.
Proof. unfold Log.resort. by rewrite reverse_Permutation, sort_by_perm. Qed.

(** ** What one round of pushing does *)

Definition pushed_from (ns : list Hash) T (new : list Entry.t) : Prop :=
  NoDup (Entry.hash <$> new) /\
  (forall e, e ∈ new -> (Entry.hash e ∉ T) /\ exists h, h ∈ ns /\ Log.get self h = Some e).

Lemma push_nexts_spec ns s T s' T' :
  Log.push_nexts self ns s T = (s', T') ->
  exists new, s' ≡ₚ new ++ s /\ T' = list_to_set (Entry.hash <$> new) ∪ T /\
    pushed_from ns T new /\
    (forall h e, h ∈ ns -> Log.get self h = Some e -> Entry.hash e ∈ T').
Proof.
  revert s T. induction ns as [|h ns IH]; intros s T; simpl.
  { intros [= <- <-]. exists []. split_and!; [done|set_solver|split; set_solver by constructor|set_solver]. }
  destruct (Log.get self h) as [e|] eqn:Hget; [case_decide as HT|].
  - intros (new & Hs & -> & [Hnd Hnew] & Hall)%IH. exists new. split_and!; [done..| |].
    + split; [done|]. intros x [? (k & ? & ?)]%Hnew. split; [done|]. exists k. set_solver.
    + intros k x [->|?]%elem_of_cons ?; [|eauto]. simplify_eq. set_solver.
  - intros (new & Hs & -> & [Hnd Hnew] & Hall)%IH. exists (new ++ [e]). split_and!.
    + rewrite Hs, resort_perm. by rewrite <- app_assoc.
    + rewrite fmap_app, list_to_set_app_L. set_solver.
    + split.
      * rewrite fmap_app. apply NoDup_app. split_and!; [done| |apply NoDup_singleton].
        intros x (y & -> & [Hy _]%Hnew)%list_elem_of_fmap. set_solver.
      * intros x [Hx| ->%list_elem_of_singleton]%elem_of_app.
        -- apply Hnew in Hx as [? (k & ? & ?)]. split; [set_solver|]. exists k. set_solver.
        -- split; [done|]. exists h. set_solver.
    + intros k x [->|?]%elem_of_cons ?; [simplify_eq; set_solver|].
      specialize (Hall k x). set_solver.
  - intros (new & Hs & -> & [Hnd Hnew] & Hall)%IH. exists new. split_and!; [done..| |].
    + split; [done|]. intros x [? (k & ? & ?)]%Hnew. split; [done|]. exists k. set_solver.
    + intros k x [->|?]%elem_of_cons ?; [congruence|eauto].
Qed.

(** ** Termination *)

Definition entry_hashes : gset Hash :=
  list_to_set (Entry.hash <$> (snd <$> map_to_list (Log.entries self))).

Lemma entry_hashes_get h e : Log.get self h = Some e -> Entry.hash e ∈ entry_hashes.
Proof.
  intros H. apply elem_of_list_to_set. rewrite !list_elem_of_fmap. exists e. split; [done|].
  apply list_elem_of_fmap. exists (h, e). split; [done|]. by apply elem_of_map_to_list.
Qed.

Lemma entry_hashes_size : size entry_hashes <= size (Log.entries self).
Proof.
  etransitivity; [apply size_list_to_set_le|]. rewrite !length_fmap.
  by rewrite length_map_to_list.
Qed.

(** A pop removes one entry from the stack and pushes only unseen hashes. *)
Lemma push_nexts_measure ns s T s' T' :
  Log.push_nexts self ns s T = (s', T') ->
  length s' + size (entry_hashes ∖ T') = length s + size (entry_hashes ∖ T).
Proof.
  intros (new & Hs & -> & [Hnd Hnew] & _)%push_nexts_spec.
  rewrite Hs, length_app.
  assert (Hsplit : entry_hashes ∖ T =
    list_to_set (Entry.hash <$> new) ∪ entry_hashes ∖ (list_to_set (Entry.hash <$> new) ∪ T)).
  { apply set_eq. intros x. destruct (decide (x ∈ Entry.hash <$> new)) as [Hx|]; [|set_solver].
    pose proof Hx as (e & -> & He)%list_elem_of_fmap.
    apply Hnew in He as [? (h & _ & ?%entry_hashes_get)]. set_solver. }
  rewrite Hsplit, (size_union (list_to_set (Entry.hash <$> new))) by set_solver.
  rewrite (size_list_to_set (Entry.hash <$> new)), length_fmap by done. lia.
Qed.

Lemma traverse_loop_total fuel s T count amount end_hash :
  length s + size (entry_hashes ∖ T) <= fuel ->
  is_Some (Log.traverse_loop fuel self s T count amount end_hash).
Proof.
  revert s T count. induction fuel as [|fuel IH]; intros [|e s] T count Hf; simpl in *;
    try (by eexists); try lia; case_decide; try (by eexists).
  destruct (Log.push_nexts self (Entry.next e) s T) as [s' T'] eqn:Hp.
  case_decide; [by eexists|].
  destruct (IH s' T' (S count)) as [r ->]; [|by eexists].
  apply push_nexts_measure in Hp. lia.
Qed.

Lemma traverse_eq roots amount end_hash :
  Log.traverse_loop (Log.traverse_fuel self roots) self (Log.resort self (Log.dedup roots)) ∅ 0
    amount end_hash = Some (Log.traverse self roots amount end_hash).
Proof.
  unfold Log.traverse.
  destruct (traverse_loop_total (Log.traverse_fuel self roots)
    (Log.resort self (Log.dedup roots)) ∅ 0 amount end_hash) as [r Hr]; [|by rewrite Hr].
  rewrite resort_perm, difference_empty_L. unfold Log.traverse_fuel.
  pose proof entry_hashes_size. lia.
Qed.

(** ** Invariants of the full traversal *)

(** An invariant of the loop that relates the output so far, the stack and
    the set of seen hashes holds of the whole output at the end. *)
Lemma traverse_loop_ind (I : list Entry.t -> list Entry.t -> gset Hash -> Prop)
    fuel out s T count r :
  (forall out e s T s' T', I out (e :: s) T ->
    Log.push_nexts self (Entry.next e) s T = (s', T') -> I (out ++ [e]) s' T') ->
  I out s T ->
  Log.traverse_loop fuel self s T count None None = Some r ->
  exists T', I (out ++ r) [] T'.
Proof.
  intros Hstep. revert out s T count r.
  induction fuel as [|fuel IH]; intros out [|e s] T count r HI; cbn [Log.traverse_loop].
  1,3: intros [= <-]; rewrite app_nil_r; eauto.
  all: rewrite decide_True by auto. 1: done.
  destruct (Log.push_nexts self (Entry.next e) s T) as [s' T'] eqn:Hp.
  rewrite decide_False by done.
  intros (r' & Hr & ->)%fmap_Some_1.
  replace (out ++ e :: r') with ((out ++ [e]) ++ r') by by rewrite <- app_assoc.
  eapply IH; [|done]. by eapply Hstep.
Qed.

(** Reachability from a set of roots through the parents the log has. *)
Inductive reach (roots : list Entry.t) : Entry.t -> Prop :=
| reach_root e : e ∈ roots -> reach roots e
| reach_next e h p :
    reach roots e -> h ∈ Entry.next e -> Log.get self h = Some p -> reach roots p.

Section full.
Context (roots : list Entry.t).
Hypothesis Hkeyed : keyed.
Hypothesis Hstored : forall e, e ∈ roots -> stored e.
(** The roots are not parents of anything stored. *)
Hypothesis Hfree : forall r e, r ∈ roots -> stored e -> Entry.hash r ∉ Entry.next e.

Definition visit_inv out s T : Prop :=
  (forall e, e ∈ out ++ s -> stored e /\ reach roots e /\ (e ∈ roots \/ Entry.hash e ∈ T)) /\
  (forall e h p, e ∈ out -> h ∈ Entry.next e -> Log.get self h = Some p -> Entry.hash p ∈ T) /\
  (forall h, h ∈ T -> h ∈ Entry.hash <$> (out ++ s)) /\
  (forall e, e ∈ roots -> e ∈ out ++ s) /\
  NoDup (Entry.hash <$> (out ++ s)).

Lemma visit_inv_step out e s T s' T' :
  visit_inv out (e :: s) T ->
  Log.push_nexts self (Entry.next e) s T = (s', T') ->
  visit_inv (out ++ [e]) s' T'.
Proof.
  intros (Hval & Hcl & HT & Hroots & Hnd) (new & Hs & -> & [Hndn Hnew] & Hall)%push_nexts_spec.
  assert (Hperm : (out ++ [e]) ++ s' ≡ₚ new ++ (out ++ e :: s)).
  { rewrite Hs, <- app_assoc. simpl. rewrite Permutation_middle.
    apply Permutation_app_swap_app. }
  destruct (Hval e) as (He & Hre & _); [set_solver|].
  split_and!.
  - intros x. rewrite Hperm. intros [Hx|Hx]%elem_of_app.
    + pose proof Hx as [_ (h & Hh & Hg)]%Hnew. split_and!.
      * by eapply keyed_stored.
      * by eapply reach_next.
      * right. set_solver.
    + apply Hval in Hx as (? & ? & [?|?]); split_and!; set_solver.
  - intros x h p [Hx| ->%list_elem_of_singleton]%elem_of_app Hh Hp; [|by eapply Hall].
    specialize (Hcl x h p). set_solver.
  - intros h Hh. rewrite Hperm, fmap_app. set_solver.
  - intros x Hx. rewrite Hperm. set_solver.
  - rewrite Hperm, fmap_app. apply NoDup_app. split_and!; [done| |done].
    intros h (x & -> & Hx)%list_elem_of_fmap (y & Hxy & Hy)%list_elem_of_fmap.
    apply Hnew in Hx as [HxT (k & Hk & Hg)].
    apply Hval in Hy as (_ & _ & [Hyr|HyT]); [|by rewrite <- Hxy in HyT].
    apply (Hfree y e Hyr He). rewrite <- Hxy. by rewrite (Hkeyed _ _ Hg).
Qed.

Hypothesis Hnodup : NoDup (Entry.hash <$> roots).

Lemma traverse_visit : exists T, visit_inv (Log.traverse self roots None None) [] T.
Proof.
  pose proof (traverse_eq roots None None) as Heq. rewrite dedup_nodup in Heq by done.
  apply (traverse_loop_ind visit_inv _ [] _ _ _ _ visit_inv_step) in Heq; [done|].
  unfold visit_inv. setoid_rewrite app_nil_l. setoid_rewrite resort_perm.
  split_and!; [|set_solver..|done]. intros e He.
  split_and!; [by apply Hstored|by apply reach_root|by left].
Qed.

(** The traversal visits exactly the reachable entries, each once. *)
Lemma traverse_reach e : e ∈ Log.traverse self roots None None <-> reach roots e.
Proof.
  destruct traverse_visit as (T & Hval & Hcl & HT & Hroots & _).
  rewrite app_nil_r in *. split; [intros H; by apply Hval|].
  induction 1 as [x Hx|x h p _ IH Hh Hp]; [auto|].
  apply (Hcl x h p) in Hp as HhT; [|done..].
  apply HT, list_elem_of_fmap in HhT as (y & Hy & Hin).
  replace p with y; [done|]. apply stored_coherent; [by apply Hval|by eapply keyed_stored|done].
Qed.

Lemma traverse_nodup : NoDup (Entry.hash <$> Log.traverse self roots None None).
Proof. destruct traverse_visit as (T & _ & _ & _ & _ & Hnd). by rewrite app_nil_r in Hnd. Qed.

(** ** Order *)

Abbreviation sf := (Log.sort_fn self).
Hypothesis Htotal : TotalOn sf stored.
(** Parents sort before their children. *)
Hypothesis Hparent : forall e p, stored e -> stored p ->
  Entry.hash p ∈ Entry.next e -> sf p e = Lt.

Definition order_inv out s T : Prop :=
  Forall stored (out ++ s) /\ StronglySorted (desc sf) (out ++ s).

Lemma resort_sorted s : Forall stored s -> StronglySorted (desc sf) (Log.resort self s).
Proof. intros Hs. unfold Log.resort. rewrite reverse_sort_by. by eapply sort_rev_sorted. Qed.

Lemma push_nexts_sorted ns s T s' T' :
  Log.push_nexts self ns s T = (s', T') ->
  Forall stored s -> StronglySorted (desc sf) s ->
  Forall stored s' /\ StronglySorted (desc sf) s'.
Proof.
  revert s T. induction ns as [|h ns IH]; intros s T; simpl; [by intros [= <- <-]|].
  destruct (Log.get self h) as [e|] eqn:Hget; [case_decide|]; eauto.
  intros Hp Hst Hs. eapply IH; [done|..].
  - rewrite resort_perm. constructor; [by eapply keyed_stored|done].
  - apply resort_sorted. constructor; [by eapply keyed_stored|done].
Qed.

Lemma order_inv_step out e s T s' T' :
  order_inv out (e :: s) T ->
  Log.push_nexts self (Entry.next e) s T = (s', T') ->
  order_inv (out ++ [e]) s' T'.
Proof.
  intros [Hst Hso] Hp.
  apply Forall_app in Hst as [Hout [He Hs]%Forall_cons].
  apply StronglySorted_app in Hso as (Hos & Hso & Hes).
  apply StronglySorted_inv in Hes as [Hss Hle].
  pose proof Hp as [Hs' Hss']%push_nexts_sorted; [|done..].
  apply push_nexts_spec in Hp as (new & Hperm & -> & [_ Hnew] & _).
  assert (Hbelow : forall x, x ∈ s' -> desc sf e x).
  { intros x. rewrite Hperm. intros [[_ (h & Hh & Hg)]%Hnew|Hx]%elem_of_app.
    - assert (stored x) by by eapply keyed_stored.
      unfold desc. rewrite (total_antisym _ _ Htotal) by done.
      rewrite (Hparent e x); [done..|]. by rewrite (Hkeyed _ _ Hg).
    - by eapply Forall_forall in Hle. }
  split.
  - rewrite !Forall_app. auto using Forall_cons, Forall_nil.
  - rewrite <- app_assoc. apply StronglySorted_app. split_and!; [|done|].
    + intros x y Hx [->|Hy]%elem_of_cons; [apply Hos; set_solver|].
      rewrite Forall_forall in Hout, Hs'.
      eapply (desc_trans sf stored x e y); eauto. apply Hos; set_solver.
    + constructor; [done|]. by apply Forall_forall.
Qed.

Lemma traverse_sorted : StronglySorted (desc sf) (Log.traverse self roots None None).
Proof.
  pose proof (traverse_eq roots None None) as Heq. rewrite dedup_nodup in Heq by done.
  apply (traverse_loop_ind order_inv _ [] _ _ _ _ order_inv_step) in Heq as (T & _ & Hs);
    [by rewrite app_nil_r in Hs|].
  split; simpl.
  - rewrite resort_perm. by apply Forall_forall.
  - apply resort_sorted. by apply Forall_forall.
Qed.
End full.
End traverse.
