(* ===== verification/LogCrdt.v ===== *)
(** * The log as a replicated data type

    A well-formedness invariant of [Log.t] that [Log.append], [Log.add_entry]
    and [Log.join] preserve; [Log.values] enumerates exactly the stored entries,
    parents first; [Log.join] computes the union of two replicas, so replicas
    that have exchanged their entries list the same values in the same order. *)

From S2P Require Import Prelude LamportClock Entry Log LogTraverse.

Implicit Types (A B self : Log.t) (e p : Entry.t) (h n : Hash) (es : list Entry.t).

(** ** Specifications of the helpers *)

Lemma insert_nexts_acc_spec n s (ns : list Hash) :
  n ∈ (foldl (fun (s : gset Hash) n => {[n]} ∪ s) s ns) <-> n ∈ s \/ n ∈ ns.
Proof.
  revert s. induction ns as [|m ns IH]; intros s; simpl; [set_solver|].
  rewrite IH. set_solver.
Qed.

Lemma elem_of_insert_nexts n s es :
  n ∈ Log.insert_nexts s es <-> n ∈ s \/ exists e, e ∈ es /\ n ∈ Entry.next e.
Proof.
  unfold Log.insert_nexts. revert s. induction es as [|e es IH]; intros s; simpl; [set_solver|].
  rewrite IH, insert_nexts_acc_spec. set_solver.
Qed.

Lemma parents_of_None h es :
  Log.parents_of es !! h = None <-> forall e, e ∈ es -> h ∉ Entry.next e.
Proof.
  unfold Log.parents_of.
  assert (Hin : forall (x : Hash) (ns : list Hash) (m : gmap Hash Hash),
    foldl (fun m n => <[n := x]> m) m ns !! h = None <-> m !! h = None /\ h ∉ ns).
  { intros x ns. induction ns as [|k ns IH]; intros m; simpl; [set_solver|].
    rewrite IH, lookup_insert_None. set_solver. }
  assert (Hout : forall (m : gmap Hash Hash),
    foldl (fun m e => foldl (fun m n => <[n := Entry.hash e]> m) m (Entry.next e)) m es !! h = None
    <-> m !! h = None /\ forall e, e ∈ es -> h ∉ Entry.next e).
  { induction es as [|e es IH]; intros m; simpl; [set_solver|]. rewrite IH, Hin. set_solver. }
  rewrite Hout. rewrite lookup_empty. naive_solver.
Qed.

Lemma elem_of_find_heads e es :
  e ∈ Log.find_heads es <-> e ∈ es /\ forall e', e' ∈ es -> Entry.hash e ∉ Entry.next e'.
Proof.
  unfold Log.find_heads. rewrite sort_by_perm, list_elem_of_filter, parents_of_None. tauto.
Qed.

Lemma dedup_from_elem e seen es :
  e ∈ Log.dedup_from seen es -> e ∈ es /\ Entry.hash e ∉ seen.
Proof.
  revert seen. induction es as [|x es IH]; intros seen; simpl; [set_solver|].
  case_decide.
  - intros [? ?]%IH. split; [by right|done].
  - intros [->|[? Hn]%IH]%elem_of_cons; [split; [by left|done]|].
    apply not_elem_of_union in Hn as [_ Hn]. split; [by right|done].
Qed.

Lemma dedup_from_hash e seen es :
  e ∈ es -> Entry.hash e ∉ seen ->
  exists e', e' ∈ Log.dedup_from seen es /\ Entry.hash e' = Entry.hash e.
Proof.
  revert seen. induction es as [|x es IH]; intros seen Hin Hs; simpl; [set_solver|].
  case_decide as Hx.
  { apply IH; [|done]. apply elem_of_cons in Hin as [->|]; done. }
  destruct (decide (Entry.hash e = Entry.hash x)) as [Heq|Hne].
  { exists x. split; [by left|done]. }
  apply elem_of_cons in Hin as [->|Hin]; [done|].
  destruct (IH ({[Entry.hash x]} ∪ seen)) as (e' & ? & ?); [done|set_solver|].
  exists e'. split; [by right|done].
Qed.

Lemma dedup_from_nodup seen es : NoDup (Entry.hash <$> Log.dedup_from seen es).
Proof.
  revert seen. induction es as [|x es IH]; intros seen; simpl; [constructor|].
  case_decide; [done|]. simpl. apply NoDup_cons. split; [|done].
  intros (y & Hy & Hin%dedup_from_elem)%list_elem_of_fmap. set_solver.
Qed.

Lemma elem_of_dedup (D : Entry.t -> Prop) e es :
  Entry.coherent D -> (forall x, x ∈ es -> D x) -> e ∈ Log.dedup es <-> e ∈ es.
Proof.
  intros HD Hes. split; [by intros []%dedup_from_elem|].
  intros Hin. destruct (dedup_from_hash e ∅ es Hin) as (e' & He' & Hh); [set_solver|].
  replace e with e'; [done|]. apply HD; [|by auto|done].
  by apply Hes; apply dedup_from_elem in He' as [].
Qed.

Lemma max_time_acc t es : Log.max_time t es = N.max t (Log.max_time 0 es).
Proof.
  unfold Log.max_time. revert t. induction es as [|e es IH]; intros t; simpl; [lia|].
  rewrite (IH (N.max t _)), (IH (N.max 0 _)). lia.
Qed.

Lemma max_time_le t es b :
  (Log.max_time t es <= b)%N <-> (t <= b)%N /\ forall e, e ∈ es -> (Entry.time e <= b)%N.
Proof.
  revert t. induction es as [|e es IH]; intros t; simpl.
  { unfold Log.max_time. simpl. set_solver. }
  change (Log.max_time t (e :: es)) with (Log.max_time (N.max t (Entry.time e)) es).
  rewrite IH, N.max_lub_iff. split.
  - intros [[? ?] Hall]. split; [done|]. intros x [->|?]%elem_of_cons; auto.
  - intros [? Hall]. split_and!; [done|apply Hall; by left|]. intros. apply Hall. by right.
Qed.

(** ** The invariant *)

Record wf self : Prop := {
  wf_keyed : keyed self;
  wf_nexts : forall n, n ∈ Log.nexts self <-> exists e, stored self e /\ n ∈ Entry.next e;
  wf_heads : forall e, e ∈ Log.heads self <-> stored self e /\ Entry.hash e ∉ Log.nexts self;
  wf_heads_nodup : NoDup (Entry.hash <$> Log.heads self);
  wf_length : Log.length self = size (Log.entries self)
}.

(** The clock of every entry is ahead of its parents' clocks. *)
Definition causal_log self : Prop := Entry.causal (stored self).

(** Every parent named by an entry is in the log. *)
Definition closed_log self : Prop :=
  forall e n, stored self e -> n ∈ Entry.next e -> is_Some (Log.entries self !! n).

(** The sort function is a total order on the log that puts parents first. *)
Record ordered self : Prop := {
  ordered_total : TotalOn (Log.sort_fn self) (stored self);
  ordered_parent : forall e p, stored self e -> stored self p ->
    Entry.hash p ∈ Entry.next e -> Log.sort_fn self p e = Lt
}.

Definition all_entries self : list Entry.t := (map_to_list (Log.entries self)).*2.

Lemma elem_of_all_entries self e : wf self -> e ∈ all_entries self <-> stored self e.
Proof.
  intros Hwf. unfold all_entries, stored. rewrite list_elem_of_fmap. split.
  - intros ([h x] & -> & Hx%elem_of_map_to_list). simpl. by rewrite (wf_keyed _ Hwf _ _ Hx).
  - intros H. exists (Entry.hash e, e). split; [done|]. by apply elem_of_map_to_list.
Qed.

Lemma all_entries_nodup self : wf self -> NoDup (Entry.hash <$> all_entries self).
Proof.
  intros Hwf. unfold all_entries.
  replace (Entry.hash <$> (map_to_list (Log.entries self)).*2)
    with ((map_to_list (Log.entries self)).*1); [apply NoDup_fst_map_to_list|].
  rewrite <- list_fmap_compose. apply list_fmap_ext. intros i [h e] Hi. simpl.
  apply list_elem_of_lookup_2, elem_of_map_to_list in Hi. symmetry. by apply (wf_keyed _ Hwf).
Qed.

Section values.
Context self (Hwf : wf self).

Lemma heads_stored e : e ∈ Log.heads self -> stored self e.
Proof. intros H. by apply (wf_heads _ Hwf) in H as []. Qed.

Lemma heads_free r e :
  r ∈ Log.heads self -> stored self e -> Entry.hash r ∉ Entry.next e.
Proof.
  intros [_ Hr]%(wf_heads _ Hwf) He Hin. apply Hr, (wf_nexts _ Hwf). eauto.
Qed.

(** Every entry is an ancestor of some head. *)
Lemma stored_reach e : causal_log self -> stored self e -> reach self (Log.heads self) e.
Proof.
  intros Hc.
  remember (length (filter (fun x => (Entry.time e < Entry.time x)%N) (all_entries self)))
    as k eqn:Hk.
  revert e Hk. induction (lt_wf k) as [k _ IH]; intros e -> He.
  destruct (decide (Entry.hash e ∈ Log.nexts self)) as [Hin|Hnot].
  - apply (wf_nexts _ Hwf) in Hin as (c & Hcs & Hn).
    assert (Hlt : (Entry.time e < Entry.time c)%N) by by apply Hc.
    eapply (reach_next self _ c _ e); [|done|done].
    eapply IH; [|done|done].
    apply (filter_length_lt _ _ _ c); [by apply elem_of_all_entries|done|lia|intros; lia].
  - apply reach_root. by apply (wf_heads _ Hwf).
Qed.

Lemma values_nodup : NoDup (Entry.hash <$> Log.values self).
Proof.
  unfold Log.values. rewrite reverse_Permutation.
  apply traverse_nodup; [apply Hwf|apply heads_stored|apply heads_free|apply Hwf].
Qed.

Lemma elem_of_values e : causal_log self -> e ∈ Log.values self <-> stored self e.
Proof.
  intros Hc. unfold Log.values. rewrite elem_of_reverse.
  rewrite traverse_reach; [|apply Hwf|apply heads_stored|apply heads_free|apply Hwf].
  split; [|by apply stored_reach].
  induction 1 as [x Hx|x h p _ _ _ Hp]; [by apply heads_stored|].
  by eapply keyed_stored; [apply Hwf|].
Qed.

Lemma values_perm : causal_log self -> Log.values self ≡ₚ all_entries self.
Proof.
  intros Hc. apply NoDup_Permutation.
  - eapply NoDup_fmap_1, values_nodup.
  - eapply NoDup_fmap_1, all_entries_nodup, Hwf.
  - intros e. by rewrite elem_of_values, elem_of_all_entries.
Qed.

Lemma values_length : causal_log self -> length (Log.values self) = Log.len self.
Proof.
  intros Hc. rewrite values_perm by done. unfold all_entries, Log.len.
  rewrite length_fmap, length_map_to_list. symmetry. apply Hwf.
Qed.

(** The values are in strictly ascending order of the sort function. *)
Lemma values_sorted :
  ordered self -> StronglySorted (fun x y => Log.sort_fn self x y = Lt) (Log.values self).
Proof.
  intros Ho. unfold Log.values.
  set (r := Log.traverse self (Log.heads self) None None).
  assert (Hs : StronglySorted (desc (Log.sort_fn self)) r).
  { apply traverse_sorted;
      [apply Hwf|apply heads_stored|apply heads_free|apply Hwf|apply (ordered_total _ Ho)|].
    apply (ordered_parent _ Ho). }
  assert (Hnd : NoDup r).
  { eapply NoDup_fmap_1, traverse_nodup;
      [apply Hwf|apply heads_stored|apply heads_free|apply Hwf]. }
  assert (Hst : Forall (stored self) r).
  { apply Forall_forall. intros x Hx.
    apply traverse_reach in Hx; [|apply Hwf|apply heads_stored|apply heads_free|apply Hwf].
    induction Hx as [x Hx|x h p _ _ _ Hp]; [by apply heads_stored|].
    by eapply keyed_stored; [apply Hwf|]. }
  clearbody r. induction Hs as [|x r Hs IH Hx]; [constructor|].
  apply NoDup_cons in Hnd as [Hnin Hnd]. apply Forall_cons in Hst as [Hxs Hst].
  rewrite reverse_cons. apply StronglySorted_app. split_and!.
  - intros a b Ha ->%list_elem_of_singleton. rewrite elem_of_reverse in Ha.
    rewrite Forall_forall in Hx, Hst. specialize (Hx _ Ha). unfold desc in Hx.
    rewrite (total_antisym _ _ (ordered_total _ Ho)) by auto.
    destruct (Log.sort_fn self x a) eqn:E; [|done..].
    apply (total_eq _ _ (ordered_total _ Ho)) in E as ->; auto; done.
  - by apply IH.
  - repeat constructor.
Qed.

(** Parents come before their children. *)
Lemma values_causal l1 e l2 p :
  ordered self -> Log.values self = l1 ++ e :: l2 ->
  stored self e -> p ∈ Log.values self -> stored self p ->
  Entry.hash p ∈ Entry.next e -> p ∈ l1.
Proof.
  intros Ho Hv He Hp Hps Hn. pose proof (values_sorted Ho) as Hs. rewrite Hv in Hs, Hp.
  pose proof (ordered_parent _ Ho e p He Hps Hn) as Hlt.
  apply elem_of_app in Hp as [?|[->|Hp]%elem_of_cons]; [done|..].
  - by rewrite (total_refl _ _ _ (ordered_total _ Ho) He) in Hlt.
  - apply StronglySorted_app in Hs as (_ & _ & [_ Hfa]%StronglySorted_inv).
    rewrite Forall_forall in Hfa. specialize (Hfa _ Hp).
    rewrite (total_antisym _ _ (ordered_total _ Ho)) in Hlt by done. by rewrite Hfa in Hlt.
Qed.
End values.

(** Any strictly ascending list of the stored entries is the list of values. *)
Lemma values_unique self (l : list Entry.t) :
  wf self -> causal_log self -> ordered self -> all_entries self ≡ₚ l ->
  StronglySorted (fun x y => Log.sort_fn self x y = Lt) l -> Log.values self = l.
Proof.
  intros Hwf Hc Ho Hp Hs. apply (strictly_sorted_unique (Log.sort_fn self)); [|by apply values_sorted|done|].
  - eapply total_on_weaken; [|apply (ordered_total _ Ho)]. intros x. by apply elem_of_values.
  - by rewrite values_perm.
Qed.
