(* ===== verification/LogWrite.v ===== *)
(** * Writing to the log

    [Log.add_entry] and [Log.append] preserve the log invariant and causality;
    the values of a log depend only on its set of entries, so entries can be
    delivered in any order. *)

From S2P Require Import Prelude LamportClock Entry Log LogTraverse LogCrdt.

Implicit Types (A B self : Log.t) (e p : Entry.t) (h n : Hash) (es : list Entry.t).

(** ** [values] depends only on the entries *)

Lemma wf_nexts_eq A B :
  wf A -> wf B -> Log.entries A = Log.entries B -> Log.nexts A = Log.nexts B.
Proof.
  intros HA HB He. apply set_eq. intros n.
  rewrite (wf_nexts _ HA), (wf_nexts _ HB). unfold stored. by rewrite He.
Qed.

Lemma wf_heads_perm A B :
  wf A -> wf B -> Log.entries A = Log.entries B -> Log.heads A ≡ₚ Log.heads B.
Proof.
  intros HA HB He. pose proof (wf_nexts_eq _ _ HA HB He) as Hn. apply NoDup_Permutation.
  - eapply NoDup_fmap_1, HA.
  - eapply NoDup_fmap_1, HB.
  - intros e. rewrite (wf_heads _ HA), (wf_heads _ HB), Hn. unfold stored. by rewrite He.
Qed.

Section same_entries.
Context A B (He : Log.entries A = Log.entries B) (Hs : Log.sort_fn A = Log.sort_fn B).

Lemma push_nexts_same (ns : list Hash) s T :
  Log.push_nexts A ns s T = Log.push_nexts B ns s T.
Proof.
  revert s T. induction ns as [|h ns IH]; intros s T; simpl; [done|].
  unfold Log.get, Log.resort. rewrite He, Hs. repeat case_match; auto.
Qed.

Lemma traverse_loop_same fuel s T c a eh :
  Log.traverse_loop fuel A s T c a eh = Log.traverse_loop fuel B s T c a eh.
Proof.
  revert s T c. induction fuel as [|fuel IH]; intros [|e s] T c; simpl; [done..|].
  rewrite push_nexts_same. repeat case_match; try done. by rewrite IH.
Qed.

Lemma values_same : wf A -> wf B -> TotalOn (Log.sort_fn A) (stored A) ->
  Log.values A = Log.values B.
Proof.
  intros HA HB HT. unfold Log.values. f_equal. unfold Log.traverse. f_equal.
  rewrite traverse_loop_same.
  pose proof (wf_heads_perm _ _ HA HB He) as Hp.
  assert (Hr : Log.resort A (Log.heads A) = Log.resort B (Log.heads B)).
  { unfold Log.resort. rewrite !reverse_sort_by, <- Hs.
    apply (sort_rev_canonical _ (stored A)); [done| |done].
    apply Forall_forall. intros e. by apply heads_stored. }
  unfold Log.traverse_fuel. rewrite !dedup_nodup by (apply HA || apply HB).
  by rewrite Hr, (Permutation_length Hp), He.
Qed.
End same_entries.

(** ** [add_entry] *)

Lemma stored_insert self e x h' (m := <[Entry.hash e := e]> (Log.entries self)) :
  Log.entries self !! Entry.hash e = None ->
  h' = Entry.hash x ->
  m !! h' = Some x <-> x = e \/ stored self x.
Proof.
  intros Hnone ->. unfold m, stored. rewrite lookup_insert_Some. split.
  - intros [[_ ->]|[_ ?]]; auto.
  - intros [->|H]; [by left|]. right. split; [|done]. intros Heq. congruence.
Qed.

Lemma has_false self h : Log.has self h = false <-> Log.entries self !! h = None.
Proof.
  unfold Log.has. rewrite bool_decide_eq_false, <- eq_None_not_Some. done.
Qed.

Section add_entry.
Context self (Hwf : wf self) (entry : Entry.t).
Hypothesis Hnew : Log.entries self !! Entry.hash entry = None.

Lemma add_entry_stored x :
  stored (Log.add_entry self entry).1 x <-> x = entry \/ stored self x.
Proof.
  unfold Log.add_entry. rewrite (proj2 (has_false _ _)) by done.
  by apply stored_insert.
Qed.

Abbreviation self' := (Log.add_entry self entry).1.
Abbreviation kept := (filter (fun x => Entry.hash x ∉ Entry.next entry) (Log.heads self)).

Lemma add_entry_fields :
  Log.entries self' = <[Entry.hash entry := entry]> (Log.entries self) /\
  Log.nexts self' = Log.insert_nexts (Log.nexts self) [entry] /\
  Log.heads self' =
    (if decide (Entry.hash entry ∈ Log.nexts self') then kept else kept ++ [entry]) /\
  Log.length self' = Log.length self + 1.
Proof. unfold Log.add_entry. by rewrite (proj2 (has_false _ _)) by done. Qed.

Lemma add_entry_nexts n :
  n ∈ Log.nexts self' <-> n ∈ Log.nexts self \/ n ∈ Entry.next entry.
Proof.
  destruct add_entry_fields as (_ & -> & _).
  rewrite elem_of_insert_nexts. setoid_rewrite list_elem_of_singleton. naive_solver.
Qed.

Lemma old_head_not_new e : e ∈ Log.heads self -> Entry.hash e <> Entry.hash entry.
Proof. intros He%(heads_stored _ Hwf). unfold stored in He. congruence. Qed.

Lemma add_entry_new_wf : wf self'.
Proof.
  destruct add_entry_fields as (Hen & _ & Hhe & Hle). split.
  - intros h e. rewrite Hen, lookup_insert_Some. intros [[<- <-]|[_ He]]; [done|].
    by apply (wf_keyed _ Hwf).
  - intros n. rewrite add_entry_nexts, (wf_nexts _ Hwf). setoid_rewrite add_entry_stored.
    naive_solver.
  - intros e. rewrite Hhe, add_entry_stored.
    pose proof (wf_heads _ Hwf e) as Hh. pose proof (old_head_not_new e) as Hne.
    case_decide as Hd; rewrite add_entry_nexts in Hd |- *;
      rewrite ?elem_of_app, ?list_elem_of_singleton, list_elem_of_filter; naive_solver.
  - assert (Hf : NoDup (Entry.hash <$> kept)).
    { eapply sublist_NoDup; [apply (wf_heads_nodup _ Hwf)|apply fmap_sublist, sublist_filter]. }
    rewrite Hhe. case_decide; [done|].
    rewrite fmap_app. apply NoDup_app. split_and!; [done| |apply NoDup_singleton].
    intros h (e & -> & [_ He%old_head_not_new]%list_elem_of_filter)%list_elem_of_fmap.
    set_solver.
  - rewrite Hle, Hen, map_size_insert_None by done. rewrite (wf_length _ Hwf). lia.
Qed.
End add_entry.

Lemma add_entry_wf self entry : wf self -> wf (Log.add_entry self entry).1.
Proof.
  intros Hwf. destruct (Log.has self (Entry.hash entry)) eqn:Hh.
  - unfold Log.add_entry. by rewrite Hh.
  - by apply add_entry_new_wf, has_false.
Qed.

Lemma add_entry_entries self entry :
  Log.entries (Log.add_entry self entry).1 =
    (if Log.has self (Entry.hash entry) then Log.entries self
     else <[Entry.hash entry := entry]> (Log.entries self)).
Proof. unfold Log.add_entry. by destruct (Log.has _ _). Qed.

(** Adding a list of entries one by one, as replication and loading do. *)
Definition add_entries self es : Log.t := foldl (fun l e => (Log.add_entry l e).1) self es.

Lemma add_entries_wf self es : wf self -> wf (add_entries self es).
Proof.
  unfold add_entries. revert self. induction es as [|e es IH]; intros self Hwf; simpl; [done|].
  by apply IH, add_entry_wf.
Qed.

Lemma add_entries_sort_fn self es : Log.sort_fn (add_entries self es) = Log.sort_fn self.
Proof.
  unfold add_entries. revert self. induction es as [|e es IH]; intros self; simpl; [done|].
  rewrite IH. unfold Log.add_entry. by destruct (Log.has _ _).
Qed.

Lemma add_entries_lookup self es h :
  Entry.coherent (fun e => e ∈ es \/ stored self e) -> wf self ->
  forall x, Log.entries (add_entries self es) !! h = Some x <->
    Log.entries self !! h = Some x \/ (x ∈ es /\ Entry.hash x = h).
Proof.
  unfold add_entries. revert self. induction es as [|e es IH]; intros self Hc Hwf x; simpl.
  { set_solver. }
  assert (Hst : forall y, stored (Log.add_entry self e).1 y <-> y = e \/ stored self y).
  { intros y. destruct (Log.has self (Entry.hash e)) eqn:Hh.
    - unfold Log.add_entry. rewrite Hh. simpl. split; [auto|]. intros [->|]; [|done].
      unfold Log.has in Hh. apply bool_decide_eq_true in Hh as [z Hz].
      assert (z = e) as ->; [|done]. pose proof (wf_keyed _ Hwf _ _ Hz) as Hk.
      apply Hc; [right; unfold stored; by rewrite Hk|left; by left|done].
    - by apply add_entry_stored, has_false. }
  rewrite IH; [| |by apply add_entry_wf].
  2:{ intros y z Hy Hz. apply Hc; rewrite Hst in *; set_solver. }
  assert (Hk : forall l y, wf l -> Log.entries l !! h = Some y <-> stored l y /\ Entry.hash y = h).
  { intros l y Hl. split.
    - intros Hy. pose proof (wf_keyed _ Hl _ _ Hy) as <-. done.
    - by intros [? <-]. }
  rewrite !Hk by (try apply add_entry_wf; done). rewrite Hst. set_solver.
Qed.

Lemma add_entries_delivery_order self es1 es2 :
  wf self -> es1 ≡ₚ es2 -> Entry.coherent (fun e => e ∈ es1 \/ stored self e) ->
  Log.entries (add_entries self es1) = Log.entries (add_entries self es2).
Proof.
  intros Hwf Hp Hc. apply map_eq. intros h. apply option_eq. intros x.
  assert (Hc2 : Entry.coherent (fun e => e ∈ es2 \/ stored self e)).
  { intros y z. rewrite <- !Hp. apply Hc. }
  rewrite !add_entries_lookup by done. by rewrite Hp.
Qed.

(** ** Bounded traversals are prefixes of the full one *)

Lemma traverse_loop_take self fuel s T c k r :
  Log.traverse_loop fuel self s T c None None = Some r ->
  Log.traverse_loop fuel self s T c (Some k) None = Some (take (k - c) r).
Proof.
  revert s T c r. induction fuel as [|fuel IH]; intros [|e s] T c r; cbn [Log.traverse_loop].
  1,3: intros [= <-]; by rewrite take_nil.
  all: rewrite (decide_True (P := None = None \/ _)) by auto. 1: done.
  destruct (Log.push_nexts self (Entry.next e) s T) as [s' T'].
  rewrite !(decide_False (P := None = Some _)) by done.
  intros (r' & Hr & ->)%fmap_Some_1.
  case_decide as Hd; simpl in Hd.
  - destruct Hd as [|Hd]; [done|]. rewrite (IH _ _ _ _ Hr). simpl.
    replace (k - c) with (S (k - S c)) by lia. done.
  - replace (k - c) with 0 by (destruct (decide (c < k)); [tauto|lia]). done.
Qed.

Lemma traverse_take self roots k :
  Log.traverse self roots (Some k) None = take k (Log.traverse self roots None None).
Proof.
  pose proof (traverse_eq self roots None None) as H.
  apply (traverse_loop_take _ _ _ _ _ k) in H. rewrite traverse_eq in H.
  injection H as ->. by rewrite Nat.sub_0_r.
Qed.

(** ** The heads bound every clock *)

Lemma stored_time_le self e :
  wf self -> causal_log self -> stored self e ->
  (Entry.time e <= Log.max_time 0 (Log.heads self))%N.
Proof.
  intros Hwf Hc He. pose proof (stored_reach _ Hwf e Hc He) as Hr.
  assert (Hs : forall x, reach self (Log.heads self) x -> stored self x).
  { induction 1; [by apply heads_stored|]. by eapply keyed_stored; [apply Hwf|]. }
  clear He. induction Hr as [x Hx|x h p Hx IH Hh Hp].
  - apply (proj1 (max_time_le 0 (Log.heads self) _)); [lia|done].
  - pose proof (Hc x p) as Hlt. rewrite (wf_keyed _ Hwf _ _ Hp) in Hlt.
    specialize (Hlt (Hs _ Hx)). specialize (Hlt ltac:(by eapply keyed_stored; [apply Hwf|]) Hh). lia.
Qed.

(** ** [append] *)

Section append.
Context (hash_entry : Entry.t -> option Hash) self (data : string) (n_ptr : option nat).
Context (self' : Log.t) (entry : Entry.t).
Hypothesis Hwf : wf self.
Hypothesis Hcausal : causal_log self.
Hypothesis Happend : Log.append hash_entry self data n_ptr = Some (self', entry).
(** The content hash of the new entry is a new one. *)
Hypothesis Hfresh : Log.entries self !! Entry.hash entry = None.
Hypothesis Hfresh_next : Entry.hash entry ∉ Log.nexts self.

Definition append_refs : list Entry.t :=
  Log.dedup (reverse (Log.heads self)) ++
  take (Nat.max (default 1 n_ptr) (length (Log.heads self)))
    (Log.traverse self (Log.heads self) None None).

Lemma append_fields :
  Log.entries self' = <[Entry.hash entry := entry]> (Log.entries self) /\
  Log.nexts self' = foldl (fun s x => {[Entry.hash x]} ∪ s) (Log.nexts self) append_refs /\
  Log.heads self' = [entry] /\
  Log.length self' = Log.length self + 1 /\
  Entry.next entry = Entry.hash <$> append_refs /\
  Log.clock self' = Entry.clock entry /\
  Entry.time entry =
    wrap_u64 (Log.max_time (LamportClock.time (Log.clock self)) (Log.heads self) + 1) /\
  Log.id self' = Log.id self /\ Entry.id entry = Log.id self /\ Entry.payload entry = data /\
  Log.sort_fn self' = Log.sort_fn self.
Proof using Happend.
  clear Hfresh Hfresh_next Hwf Hcausal. unfold Log.append in Happend. rewrite traverse_take in Happend. fold append_refs in Happend.
  destruct (hash_entry _) as [h|]; [|done]. injection Happend as <- <-. simpl.
  split_and!; try done. unfold Entry.set_hash, Entry.new. simpl.
  rewrite <- list_fmap_compose. by apply list_fmap_ext.
Qed.

Lemma append_refs_stored x : x ∈ append_refs -> stored self x.
Proof.
  unfold append_refs. intros [Hx|Hx]%elem_of_app.
  - apply dedup_from_elem in Hx as [Hx _]. rewrite elem_of_reverse in Hx. by apply heads_stored.
  - apply elem_of_take in Hx as (i & Hi & _). apply list_elem_of_lookup_2 in Hi.
    apply elem_of_reverse in Hi. by apply (elem_of_values _ Hwf) in Hi.
Qed.

Lemma append_refs_heads x : x ∈ Log.heads self -> x ∈ append_refs.
Proof.
  intros Hx. unfold append_refs. apply elem_of_app. left.
  rewrite dedup_nodup; [by rewrite elem_of_reverse|].
  rewrite fmap_reverse, reverse_Permutation. apply (wf_heads_nodup _ Hwf).
Qed.

Lemma append_stored x : stored self' x <-> x = entry \/ stored self x.
Proof.
  destruct append_fields as (He & _). unfold stored at 1. rewrite He. by apply stored_insert.
Qed.

Lemma append_nexts n : n ∈ Log.nexts self' <-> n ∈ Log.nexts self \/ n ∈ Entry.next entry.
Proof.
  destruct append_fields as (_ & -> & _ & _ & -> & _).
  rewrite <- insert_nexts_acc_spec. by rewrite foldl_fmap.
Qed.

Lemma append_preserves_wf : wf self'.
Proof.
  destruct append_fields as (He & _ & Hh & Hl & Hn & _). split.
  - intros h x. rewrite He, lookup_insert_Some. intros [[<- <-]|[_ Hx]]; [done|].
    by apply (wf_keyed _ Hwf).
  - intros n. rewrite append_nexts, (wf_nexts _ Hwf). setoid_rewrite append_stored. naive_solver.
  - intros x. rewrite Hh, list_elem_of_singleton, append_stored, append_nexts, Hn. split.
    + intros ->. split; [by left|]. intros [?|(y & Hy & Hin%append_refs_stored)%list_elem_of_fmap];
        [done|]. unfold stored in Hin. congruence.
    + intros [[->|Hx] Hnot]; [done|]. destruct Hnot. destruct (decide (Entry.hash x ∈ Log.nexts self));
        [by left|]. right. apply list_elem_of_fmap. exists x. split; [done|].
      by apply append_refs_heads, (wf_heads _ Hwf).
  - rewrite Hh. apply NoDup_singleton.
  - rewrite Hl, He, map_size_insert_None by done. rewrite (wf_length _ Hwf). lia.
Qed.

Hypothesis Hbound :
  in_u64 (Log.max_time (LamportClock.time (Log.clock self)) (Log.heads self) + 1).

Lemma append_time_gt x : stored self x -> (Entry.time x < Entry.time entry)%N.
Proof using Hwf Hcausal Happend Hbound.
  clear Hfresh Hfresh_next.
  intros Hx. destruct append_fields as (_ & _ & _ & _ & _ & _ & -> & _).
  rewrite wrap_u64_small by done. rewrite max_time_acc.
  pose proof (stored_time_le _ _ Hwf Hcausal Hx). lia.
Qed.

Lemma append_preserves_causal : causal_log self'.
Proof.
  destruct append_fields as (_ & _ & _ & _ & Hn & _).
  intros x p [->|Hx]%append_stored [->|Hp]%append_stored Hin.
  - exfalso. rewrite Hn in Hin. apply list_elem_of_fmap in Hin as (y & Hy & Hys%append_refs_stored).
    unfold stored in Hys. congruence.
  - by apply append_time_gt.
  - exfalso. apply Hfresh_next, (wf_nexts _ Hwf). eauto.
  - by apply Hcausal.
Qed.

(** Every older entry is ordered before the new one. *)
Lemma append_last x : ordered self' -> stored self x -> Log.sort_fn self' x entry = Lt.
Proof.
  intros Ho Hx. destruct append_fields as (_ & _ & _ & _ & Hn & _).
  apply (stored_reach _ Hwf _ Hcausal) in Hx. induction Hx as [x Hx|x h p Hr IH Hh Hp].
  - apply (ordered_parent _ Ho); [apply append_stored; by left| |].
    + apply append_stored. right. by apply heads_stored.
    + rewrite Hn. apply list_elem_of_fmap. exists x. split; [done|]. by apply append_refs_heads.
  - assert (Hst : forall y, stored self y -> stored self' y) by (intros; apply append_stored; by right).
    assert (Hps : stored self p) by by eapply keyed_stored; [apply Hwf|].
    assert (Hxs : stored self x).
    { clear -Hr Hwf. induction Hr as [x Hx|x h p _ _ _ Hp]; [by apply heads_stored|].
      by eapply keyed_stored; [apply Hwf|]. }
    eapply (total_trans _ _ (ordered_total _ Ho) _ x); auto; [apply append_stored; by left|].
    apply (ordered_parent _ Ho); auto. by rewrite (wf_keyed _ Hwf _ _ Hp).
Qed.

(** The new entry is the last value. *)
Lemma append_values :
  ordered self -> ordered self' -> Log.values self' = Log.values self ++ [entry].
Proof.
  intros Ho Ho'. destruct append_fields as (He & _ & _ & _ & _ & _ & _ & _ & _ & _ & Hsf).
  assert (Hnotin : entry ∉ Log.values self).
  { rewrite elem_of_values by done. unfold stored. by rewrite Hfresh. }
  apply values_unique; [apply append_preserves_wf|apply append_preserves_causal|done| |].
  - rewrite values_perm by done. unfold all_entries. rewrite He, map_to_list_insert by done.
    simpl. by rewrite Permutation_cons_append.
  - rewrite Hsf. apply StronglySorted_app. split_and!; [|by apply values_sorted|repeat constructor].
    intros x y Hx%elem_of_values ->%list_elem_of_singleton; [|done..].
    rewrite <- Hsf. by apply append_last.
Qed.

End append.
