(* ===== verification/LogJoin.v ===== *)
(** * Joining logs

    [Log.diff] terminates and returns the entries of one log that the other
    lacks; [Log.join] keeps the invariant and computes the union of the two sets
    of entries, which makes it commutative, associative and idempotent up to the
    entries, and gives replicas the same list of values. *)

From S2P Require Import Prelude LamportClock Entry Log LogTraverse LogCrdt LogWrite.

Implicit Types (A B self : Log.t) (e p : Entry.t) (h n : Hash) (es : list Entry.t).

(** ** [diff] *)

Section diff.
Context A B.

Lemma diff_push_spec (ns s : list Hash) (T : gset Hash) s' T' :
  Log.diff_push B ns s T = (s', T') ->
  exists new, s' = s ++ new /\ T' = list_to_set new ∪ T /\ NoDup new /\
    (forall n, n ∈ new -> n ∈ ns /\ n ∉ T /\ Log.get B n = None) /\
    (forall n, n ∈ ns -> Log.get B n = None -> n ∈ T').
Proof.
  revert s T. induction ns as [|n ns IH]; intros s T; simpl.
  { intros [= <- <-]. exists []. rewrite app_nil_r.
    split_and!; [done|set_solver|constructor|set_solver|set_solver]. }
  case_decide as Hd.
  - intros (new & -> & -> & Hnd & Hnew & Hall)%IH. exists (n :: new).
    rewrite <- app_assoc. split_and!; [done|set_solver| | |].
    + apply NoDup_cons. split; [|done]. intros Hn%Hnew. set_solver.
    + intros m [->|Hm%Hnew]%elem_of_cons; set_solver.
    + intros m [->|Hm]%elem_of_cons ?; [set_solver|by apply Hall].
  - intros (new & -> & -> & Hnd & Hnew & Hall)%IH. exists new. split_and!; try done.
    + set_solver.
    + intros m [->|Hm]%elem_of_cons Hg; [|by apply Hall].
      destruct (decide (n ∈ T)); [set_solver|tauto].
Qed.

Lemma elem_of_all_nexts n :
  n ∈ Log.all_nexts A <-> exists h e, Log.get A h = Some e /\ n ∈ Entry.next e.
Proof.
  unfold Log.all_nexts, Log.get. rewrite elem_of_insert_nexts. split.
  - intros [?|(e & ([h x] & -> & Hx%elem_of_map_to_list)%list_elem_of_fmap & Hn)];
      [set_solver|eauto].
  - intros (h & e & He & Hn). right. exists e. split; [|done].
    apply list_elem_of_fmap. exists (h, e). split; [done|]. by apply elem_of_map_to_list.
Qed.

Lemma diff_push_measure h e (s : list Hash) (T : gset Hash) s' T' :
  Log.get A h = Some e ->
  Log.diff_push B (Entry.next e) s T = (s', T') ->
  length s' + size (Log.all_nexts A ∖ T') = length s + size (Log.all_nexts A ∖ T).
Proof.
  intros He (new & -> & -> & Hnd & Hnew & _)%diff_push_spec.
  assert (Hsplit : Log.all_nexts A ∖ T =
    list_to_set new ∪ Log.all_nexts A ∖ (list_to_set new ∪ T)).
  { apply set_eq. intros x. destruct (decide (x ∈ new)) as [Hx|]; [|set_solver].
    pose proof Hx as (Hn & ? & _)%Hnew.
    assert (x ∈ Log.all_nexts A) by (apply elem_of_all_nexts; eauto). set_solver. }
  rewrite Hsplit, (size_union (list_to_set new)) by set_solver.
  rewrite (size_list_to_set new), length_app by done. lia.
Qed.

Lemma diff_loop_total fuel (s : list Hash) (T : gset Hash) d :
  length s + size (Log.all_nexts A ∖ T) <= fuel ->
  is_Some (Log.diff_loop fuel A B s T d).
Proof.
  revert s T d. induction fuel as [|fuel IH]; intros [|h s] T d Hf; simpl in *;
    try (by eexists); try lia.
  destruct (Log.get A h) as [e|] eqn:He; [|apply IH; lia].
  destruct (Log.get B h) as [?|]; [apply IH; lia|].
  case_decide; [|apply IH; lia].
  destruct (Log.diff_push B (Entry.next e) s T) as [s' T'] eqn:Hp. apply IH.
  apply (diff_push_measure _ _ _ _ _ _ He) in Hp.
  assert (size (Log.all_nexts A ∖ ({[Entry.hash e]} ∪ T')) <= size (Log.all_nexts A ∖ T'));
    [|lia]. apply subseteq_size. set_solver.
Qed.

Lemma diff_eq :
  Log.diff_loop (Log.diff_fuel A) A B (Entry.hash <$> Log.heads A) ∅ ∅ = Some (Log.diff A B).
Proof.
  unfold Log.diff.
  destruct (diff_loop_total (Log.diff_fuel A) (Entry.hash <$> Log.heads A) ∅ ∅) as [d Hd];
    [|by rewrite Hd].
  rewrite length_fmap, difference_empty_L. done.
Qed.

(** *** What the difference contains *)

Context (HA : wf A).
(** The entries of [A] carry the identifier of [B]. *)
Hypothesis Hid : forall e, stored A e -> Entry.id e = Log.id B.

Abbreviation head_hashes := (Entry.hash <$> Log.heads A).

Definition named (d : gmap Hash Entry.t) h : Prop :=
  h ∈ head_hashes \/ exists k e, d !! k = Some e /\ h ∈ Entry.next e.

Definition done_with (d : gmap Hash Entry.t) h : Prop :=
  Log.get A h = None \/ is_Some (Log.get B h) \/ is_Some (d !! h).

Definition diff_inv (s : list Hash) (T : gset Hash) (d : gmap Hash Entry.t) : Prop :=
  (forall h e, d !! h = Some e -> Log.get A h = Some e /\ Log.get B h = None /\ named d h) /\
  (forall k e n, d !! k = Some e -> n ∈ Entry.next e -> Log.get B n = None -> n ∈ T) /\
  (forall n, n ∈ T \/ n ∈ head_hashes -> n ∈ s \/ done_with d n) /\
  (forall h, h ∈ s -> named d h).

Lemma named_insert d h k e : d !! k = None -> named d h -> named (<[k := e]> d) h.
Proof.
  intros Hk [?|(k' & e' & He' & Hn)]; [by left|]. right. exists k', e'. split; [|done].
  rewrite lookup_insert_ne; congruence.
Qed.

Lemma done_with_insert d h k e : done_with d h -> done_with (<[k := e]> d) h.
Proof.
  intros [?|[?|?]]; [by left|by right; left|]. right. right.
  rewrite lookup_insert. case_decide; eauto.
Qed.

(** Popping a hash that is not added to the difference. *)
Lemma diff_inv_skip h s T d :
  diff_inv (h :: s) T d -> done_with d h -> diff_inv s T d.
Proof.
  intros (H1 & H2 & H3 & H4) Hdone. split_and!; try done.
  - intros n [[->|?]%elem_of_cons|?]%H3; auto.
  - intros n Hn. apply H4. by right.
Qed.

Lemma diff_inv_insert h e s T d s' T' :
  diff_inv (h :: s) T d -> Log.get A h = Some e -> Log.get B h = None -> d !! h = None ->
  Log.diff_push B (Entry.next e) s T = (s', T') ->
  diff_inv s' ({[h]} ∪ T') (<[h := e]> d).
Proof.
  intros (H1 & H2 & H3 & H4) HgA HgB Hd (new & -> & -> & Hnd & Hnew & Hall)%diff_push_spec.
  split_and!.
  - intros k x. rewrite lookup_insert_Some. intros [[<- <-]|[Hne Hx]].
    + split_and!; [done..|]. apply named_insert; [done|]. apply H4. by left.
    + apply H1 in Hx as (? & ? & ?). split_and!; [done..|]. by apply named_insert.
  - intros k x n. rewrite lookup_insert_Some. intros [[<- <-]|[Hne Hx]] Hn Hg.
    + apply elem_of_union. right. by apply Hall.
    + apply elem_of_union. right. apply elem_of_union. right. by eapply H2.
  - intros n Hn. destruct (decide (n = h)) as [->|Hne].
    { right. right. right. rewrite lookup_insert_eq. eauto. }
    destruct (decide (n ∈ new)) as [Hin|Hout].
    { left. apply elem_of_app. by right. }
    destruct (H3 n) as [[->|Hs]%elem_of_cons|Hdn]; [set_solver|done| |].
    + left. apply elem_of_app. by left.
    + right. by apply done_with_insert.
  - intros n [Hn|Hn]%elem_of_app.
    + apply named_insert; [done|]. apply H4. by right.
    + right. exists h, e. rewrite lookup_insert_eq. split; [done|]. by apply Hnew.
Qed.

(** Popping a hash that is already in the difference changes nothing: its
    parents have all been seen. *)
Lemma diff_push_nothing (ns s : list Hash) (T : gset Hash) :
  (forall n, n ∈ ns -> Log.get B n = None -> n ∈ T) -> Log.diff_push B ns s T = (s, T).
Proof.
  induction ns as [|n ns IH]; intros Hseen; simpl; [done|].
  rewrite decide_False; [apply IH; set_solver|]. intros [Hn Hg]. apply Hn, Hseen; [by left|done].
Qed.

Lemma diff_loop_inv fuel s T d r :
  diff_inv s T d -> Log.diff_loop fuel A B s T d = Some r -> exists T', diff_inv [] T' r.
Proof.
  revert s T d. induction fuel as [|fuel IH]; intros [|h s] T d HI; simpl;
    try done; try (intros [= <-]; eauto).
  destruct (Log.get A h) as [e|] eqn:HgA.
  2:{ apply IH. eapply diff_inv_skip; [done|by left]. }
  destruct (Log.get B h) as [x|] eqn:HgB.
  { apply IH. eapply diff_inv_skip; [done|]. right. left. rewrite HgB. eauto. }
  pose proof (wf_keyed _ HA _ _ HgA) as Hk.
  assert (Hst : stored A e) by by eapply keyed_stored; [apply HA|].
  rewrite decide_True by by apply Hid.
  destruct (d !! h) as [e'|] eqn:Hd.
  - pose proof HI as (H1 & H2 & _). apply H1 in Hd as Hd'. destruct Hd' as (? & _ & _).
    assert (e' = e) as -> by congruence.
    rewrite diff_push_nothing by (intros; by eapply H2). rewrite Hk.
    rewrite insert_id by done. apply IH.
    pose proof (diff_inv_skip _ _ _ _ HI (or_intror (or_intror (ex_intro _ _ Hd)))) as HI'.
    destruct HI' as (H1' & H2' & H3' & H4'). split_and!; try done.
    + intros k y n Hy Hn Hg. apply elem_of_union. right. by eapply H2'.
    + intros n [[->%elem_of_singleton|?]%elem_of_union|?]; auto.
      right. right. right. eauto.
  - destruct (Log.diff_push B (Entry.next e) s T) as [s' T'] eqn:Hp. rewrite Hk. apply IH.
    by eapply diff_inv_insert.
Qed.

Lemma diff_spec : exists T, diff_inv [] T (Log.diff A B).
Proof.
  eapply diff_loop_inv; [|apply diff_eq]. split_and!; try done.
  - intros n [?|?]; [set_solver|by left].
  - intros h Hh. by left.
Qed.

Lemma diff_sound h e :
  Log.diff A B !! h = Some e ->
  Log.get A h = Some e /\ Log.get B h = None /\ named (Log.diff A B) h.
Proof. destruct diff_spec as (T & H & _). apply H. Qed.

Lemma diff_head e :
  e ∈ Log.heads A -> Log.get B (Entry.hash e) = None ->
  Log.diff A B !! Entry.hash e = Some e.
Proof.
  intros He HgB. destruct diff_spec as (T & H1 & _ & H3 & _).
  pose proof (heads_stored _ HA e He) as Hst.
  destruct (H3 (Entry.hash e)) as [?|[Hn|[[? Hs]|[x Hx]]]].
  - right. apply list_elem_of_fmap. eauto.
  - set_solver.
  - unfold Log.get, stored in *. congruence.
  - congruence.
  - apply H1 in Hx as Hx'. destruct Hx' as (Hx' & _ & _). unfold Log.get, stored in *. congruence.
Qed.

Lemma diff_parent k e h p :
  Log.diff A B !! k = Some e -> h ∈ Entry.next e -> Log.get A h = Some p ->
  Log.get B h = None -> Log.diff A B !! h = Some p.
Proof.
  intros Hk Hn HgA HgB. destruct diff_spec as (T & H1 & H2 & H3 & _).
  destruct (H3 h) as [?|[Ha|[[? Hs]|[x Hx]]]]; [left; by eapply H2|set_solver|congruence..|].
  apply H1 in Hx as Hx'. destruct Hx' as (Hx' & _ & _). congruence.
Qed.
End diff.

(** ** [join] *)

(** Replicas never disagree on the entry a hash stands for. *)
Definition compatible A B : Prop :=
  forall h x y, Log.entries A !! h = Some x -> Log.entries B !! h = Some y -> x = y.

Lemma compatible_sym A B : compatible A B -> compatible B A.
Proof. intros H h x y Hx Hy. symmetry. by eapply H. Qed.

(** All entries of the log carry its identifier. *)
Definition own_ids self : Prop := forall e, stored self e -> Entry.id e = Log.id self.

(** What a replica satisfies when it joins others. *)
Record replica self : Prop := {
  replica_wf : wf self;
  replica_ids : own_ids self;
  replica_causal : causal_log self;
  replica_closed : closed_log self
}.

Section join.
Context A B (HA : wf A) (HB : wf B) (Hcompat : compatible A B).
Hypothesis Hid : forall e, stored B e -> Entry.id e = Log.id A.

Abbreviation d := (Log.diff B A).
Abbreviation M := (Log.merge_items A B).

Lemma diff_not_in_A h e : d !! h = Some e -> Log.entries A !! h = None.
Proof. by intros (_ & ? & _)%(diff_sound B A HB Hid). Qed.

Lemma diff_in_B h e : d !! h = Some e -> stored B e /\ Entry.hash e = h.
Proof.
  intros (Hg & _ & _)%(diff_sound B A HB Hid). split; [|by apply (wf_keyed _ HB)].
  by eapply keyed_stored; [apply HB|].
Qed.

Lemma merge_lookup h e :
  Log.entries M !! h = Some e <-> Log.entries A !! h = Some e \/ d !! h = Some e.
Proof.
  simpl. rewrite lookup_union_Some; [tauto|]. apply map_disjoint_spec.
  intros k x y Hx%diff_not_in_A Hy. congruence.
Qed.

Lemma merge_stored x :
  stored M x <-> stored A x \/ d !! Entry.hash x = Some x.
Proof. apply merge_lookup. Qed.

Lemma merge_nexts n :
  n ∈ Log.nexts M <-> exists e, stored M e /\ n ∈ Entry.next e.
Proof.
  simpl. rewrite elem_of_insert_nexts, (wf_nexts _ HA). setoid_rewrite merge_stored. split.
  - intros [(e & ? & ?)|(e & ([h x] & -> & Hx%elem_of_map_to_list)%list_elem_of_fmap & ?)];
      [naive_solver|]. simpl in *. exists x. split; [right|done].
    by apply diff_in_B in Hx as Hx'; destruct Hx' as [_ ->].
  - intros (e & [?|Hd] & ?); [naive_solver|]. right. exists e. split; [|done].
    apply list_elem_of_fmap. exists (Entry.hash e, e). split; [done|].
    by apply elem_of_map_to_list.
Qed.

Lemma both_heads_stored x : x ∈ Log.heads A ++ Log.heads B -> stored M x.
Proof.
  intros [Hx|Hx]%elem_of_app; apply merge_stored.
  - left. by apply heads_stored.
  - destruct (Log.entries A !! Entry.hash x) as [y|] eqn:Hy.
    + left. unfold stored. rewrite Hy. f_equal. apply (Hcompat _ _ _ Hy).
      by apply (heads_stored _ HB).
    + right. by apply diff_head.
Qed.

Lemma elem_of_merge_heads x :
  x ∈ Log.heads M <-> x ∈ Log.heads A ++ Log.heads B /\ Entry.hash x ∉ Log.nexts M.
Proof.
  unfold Log.merge_items. simpl.
  set (nx := Log.insert_nexts (Log.nexts A) (map_to_list d).*2).
  assert (Hall : forall y, y ∈ filter (fun x => Entry.hash x ∉ nx)
      (filter (fun x => Entry.hash x ∉ Log.insert_nexts ∅ (map_to_list d).*2)
         (Log.find_heads (Log.heads A ++ Log.heads B))) -> stored M y).
  { intros y (_ & (_ & [Hy _]%elem_of_find_heads)%list_elem_of_filter)%list_elem_of_filter.
    by apply both_heads_stored. }
  rewrite (elem_of_dedup _ _ _ (stored_coherent M) Hall).
  rewrite !list_elem_of_filter, elem_of_find_heads. split; [tauto|].
  intros [Hin Hnot]. split_and!; [done| |done|].
  - intros [?|(e & He & Hn)]%elem_of_insert_nexts; [set_solver|].
    apply Hnot, elem_of_insert_nexts. right. eauto.
  - intros e' He'%both_heads_stored Hn. apply Hnot. apply merge_nexts. eauto.
Qed.

Lemma merge_wf : wf M.
Proof.
  split.
  - intros h e [He|He]%merge_lookup; [by apply (wf_keyed _ HA)|by apply diff_in_B in He as []].
  - apply merge_nexts.
  - intros e. rewrite elem_of_merge_heads. split.
    + intros [?%both_heads_stored ?]. done.
    + intros [Hst Hnot]. split; [|done]. apply elem_of_app.
      pose proof Hst as [HsA|Hd]%merge_stored.
      * left. apply (wf_heads _ HA). split; [done|]. intros Hin. apply Hnot, merge_nexts.
        apply (wf_nexts _ HA) in Hin as (x & ? & ?). exists x. by rewrite merge_stored; auto.
      * right. pose proof (diff_sound B A HB Hid _ _ Hd) as (HgB & _ & [Hh|(k & x & Hx & Hn)]).
        -- apply list_elem_of_fmap in Hh as (y & Heq & Hy).
           replace e with y; [done|]. apply (stored_coherent B); [by apply heads_stored|done..].
        -- destruct Hnot. apply merge_nexts. exists x. split; [|done]. apply merge_stored.
           right. by apply diff_in_B in Hx as Hx'; destruct Hx' as [_ ->].
  - apply dedup_from_nodup.
  - simpl. rewrite (wf_length _ HA).
    rewrite map_size_disj_union.
    2:{ apply map_disjoint_spec. intros k x y Hx%diff_not_in_A Hy. congruence. }
    rewrite map_filter_id; [lia|]. intros k x Hx. by eapply diff_not_in_A.
Qed.

Lemma diff_exact h e :
  causal_log B -> closed_log A ->
  d !! h = Some e <-> Log.entries B !! h = Some e /\ Log.entries A !! h = None.
Proof.
  intros Hc Hcl. split.
  - intros (? & ? & _)%(diff_sound B A HB Hid). done.
  - intros [He Hno]. pose proof (wf_keyed _ HB _ _ He) as <-.
    pose proof (stored_reach B HB e Hc He) as Hr. clear He.
    induction Hr as [x Hx|x k p Hx IH Hk Hp]; [by apply diff_head|].
    pose proof (wf_keyed _ HB _ _ Hp) as Hkp. rewrite Hkp in Hno |- *.
    assert (Hxs : stored B x).
    { clear -Hx HB. induction Hx; [by apply heads_stored|]. by eapply keyed_stored; [apply HB|]. }
    eapply diff_parent; [done..|apply IH|done|done|done].
    apply eq_None_not_Some. intros [y Hy].
    assert (y = x) as -> by by eapply Hcompat.
    destruct (Hcl x k) as [z Hz]; [|done|congruence].
    done.
Qed.

Lemma merge_union : causal_log B -> closed_log A ->
  Log.entries M = Log.entries A ∪ Log.entries B.
Proof.
  intros Hc Hcl. apply map_eq. intros h. apply option_eq. intros e.
  rewrite merge_lookup, diff_exact, lookup_union_Some_raw by done. tauto.
Qed.
End join.

Lemma wf_set_clock self c : wf self -> wf (Log.set_clock self c).
Proof. by intros []. Qed.

Lemma stored_set_clock self c x : stored (Log.set_clock self c) x <-> stored self x.
Proof. done. Qed.

Lemma values_set_clock self c : Log.values (Log.set_clock self c) = Log.values self.
Proof. unfold Log.values, Log.traverse. by rewrite (traverse_loop_same _ self). Qed.

Lemma join_None_eq A B J :
  Log.join A B None = Some J ->
  Log.id A = Log.id B /\
  J = Log.set_clock (Log.merge_items A B)
        (Log.clock_from_heads (Log.clock A) (Log.heads (Log.merge_items A B))).
Proof.
  unfold Log.join. case_decide as Hd; [done|]. intros HJ. injection HJ as <-. split; [|done].
  destruct (decide (Log.id A = Log.id B)); [done|tauto].
Qed.

Section join_replicas.
Context A B (J : Log.t) (HA : replica A) (HB : replica B) (Hcompat : compatible A B).
Hypothesis Hjoin : Log.join A B None = Some J.

Lemma join_ids e : stored B e -> Entry.id e = Log.id A.
Proof.
  intros He. destruct (join_None_eq _ _ _ Hjoin) as [-> _]. by apply (replica_ids _ HB).
Qed.

Lemma join_entries : Log.entries J = Log.entries A ∪ Log.entries B.
Proof.
  destruct (join_None_eq _ _ _ Hjoin) as [_ HJ]. rewrite HJ.
  transitivity (Log.entries (Log.merge_items A B)); [done|].
  apply merge_union; [apply HB|done|apply join_ids|apply (replica_causal _ HB)|].
  apply (replica_closed _ HA).
Qed.

Lemma join_wf : wf J.
Proof.
  destruct (join_None_eq _ _ _ Hjoin) as [_ HJ]. rewrite HJ. apply wf_set_clock.
  apply merge_wf; [apply HA|apply HB|done|apply join_ids].
Qed.

Lemma join_stored e : stored J e <-> stored A e \/ stored B e.
Proof.
  unfold stored. rewrite join_entries, lookup_union_Some_raw. split; [naive_solver|].
  intros [?|HeB]; [by left|]. destruct (Log.entries A !! Entry.hash e) as [x|] eqn:Hx; [|by right].
  left. f_equal. by eapply Hcompat.
Qed.

Lemma join_replica : replica J.
Proof.
  split; [apply join_wf|..].
  - destruct (join_None_eq _ _ _ Hjoin) as [Hid HJ].
    intros e [He|He]%join_stored; rewrite HJ; simpl; [by apply (replica_ids _ HA)|].
    by apply join_ids.
  - intros x p Hx%join_stored Hp%join_stored Hn.
    assert (Hsame : forall L, replica L -> stored L x -> (forall h y, Log.entries L !! h = Some y ->
      Log.entries J !! h = Some y) -> (Entry.time p < Entry.time x)%N).
    { intros L HL HxL Hsub. destruct (replica_closed _ HL _ _ HxL Hn) as [y Hy].
      pose proof (wf_keyed _ (replica_wf _ HL) _ _ Hy) as Hk.
      assert (y = p) as ->; [|apply (replica_causal _ HL); [done| |done]].
      - apply Hsub in Hy. assert (Hp' : stored J p) by by apply join_stored.
        unfold stored in Hp'. congruence.
      - done. }
    destruct Hx as [Hx|Hx]; [apply (Hsame A)|apply (Hsame B)]; try done;
      intros h y Hy; rewrite join_entries, lookup_union_Some_raw; [by left|].
    destruct (Log.entries A !! h) as [z|] eqn:Hz; [left; f_equal; by eapply Hcompat|by right].
  - intros x n [Hx|Hx]%join_stored Hn; rewrite join_entries.
    + destruct (replica_closed _ HA _ _ Hx Hn) as [y Hy]. exists y.
      apply lookup_union_Some_raw. by left.
    + destruct (replica_closed _ HB _ _ Hx Hn) as [y Hy].
      destruct (Log.entries A !! n) as [z|] eqn:Hz;
        eexists; apply lookup_union_Some_raw; eauto.
Qed.

Lemma join_clock e :
  stored J e -> (Entry.time e <= LamportClock.time (Log.clock J))%N.
Proof.
  intros He. pose proof (stored_time_le _ _ join_wf (replica_causal _ join_replica) He) as Ht.
  destruct (join_None_eq _ _ _ Hjoin) as [_ HJ]. by rewrite HJ in Ht |- *.
Qed.
End join_replicas.

(** ** Replicas grow by appending *)

Lemma empty_replica self :
  Log.entries self = ∅ -> Log.nexts self = ∅ -> Log.heads self = [] -> Log.length self = 0 ->
  replica self.
Proof.
  intros He Hn Hh Hl.
  assert (Hno : forall e, ~ stored self e) by (intros e; unfold stored; by rewrite He).
  split; [split|..].
  - intros h e. by rewrite He.
  - intros n. rewrite Hn. split; [set_solver|]. intros (e & Hs & _). by apply Hno in Hs.
  - intros e. rewrite Hh. split; [set_solver|]. intros [Hs _]. by apply Hno in Hs.
  - rewrite Hh. constructor.
  - rewrite He, Hl. by rewrite map_size_empty.
  - intros e Hs. by apply Hno in Hs.
  - intros e p Hs. by apply Hno in Hs.
  - intros e n Hs. by apply Hno in Hs.
Qed.

Lemma append_replica hash_entry self data n_ptr self' entry :
  replica self -> Log.append hash_entry self data n_ptr = Some (self', entry) ->
  Log.entries self !! Entry.hash entry = None -> Entry.hash entry ∉ Log.nexts self ->
  in_u64 (Log.max_time (LamportClock.time (Log.clock self)) (Log.heads self) + 1) ->
  replica self'.
Proof.
  intros [Hwf Hids Hc Hcl] Ha Hf Hfn Hb.
  pose proof (append_fields _ _ _ _ _ _ Ha) as (He & _ & _ & _ & Hn & _ & _ & Hid & Heid & _).
  assert (Hst : forall x, stored self' x <-> x = entry \/ stored self x)
    by (intros; by eapply append_stored).
  split; [by eapply append_preserves_wf| |by eapply append_preserves_causal|].
  - intros x [->|Hx]%Hst; rewrite Hid; [done|by apply Hids].
  - intros x n [->|Hx]%Hst Hin; rewrite He.
    + rewrite Hn in Hin. apply list_elem_of_fmap in Hin as (y & -> & Hy).
      eapply append_refs_stored in Hy; [|done..]. rewrite lookup_insert.
      case_decide; [by eexists|]. by exists y.
    + destruct (Hcl _ _ Hx Hin) as [y Hy]. rewrite lookup_insert.
      case_decide; [by eexists|]. by exists y.
Qed.

Definition compatibleb A B : bool :=
  forallb (fun kv => match Log.entries B !! kv.1 with
                     | Some y => bool_decide (kv.2 = y)
                     | None => true
                     end) (map_to_list (Log.entries A)).

Lemma compatibleb_compatible A B : compatibleb A B = true -> compatible A B.
Proof.
  unfold compatibleb. rewrite forallb_forall. intros Hc h x y Hx Hy.
  specialize (Hc (h, x)). simpl in Hc. rewrite Hy in Hc. eapply bool_decide_eq_true, Hc.
  by apply list_elem_of_In, elem_of_map_to_list.
Qed.

Lemma join_compatible A B C J :
  replica A -> replica B -> compatible A B -> Log.join A B None = Some J ->
  compatible A C -> compatible B C -> compatible J C.
Proof.
  intros HA HB HAB HJ HAC HBC h x y Hx Hy.
  rewrite (join_entries _ _ _ HA HB HAB HJ), lookup_union_Some_raw in Hx.
  destruct Hx as [Hx|[_ Hx]]; [by eapply HAC|by eapply HBC].
Qed.

Lemma join_fields A B (sz : option nat) J :
  Log.join A B sz = Some J -> Log.id J = Log.id A /\ Log.sort_fn J = Log.sort_fn A.
Proof.
  unfold Log.join. case_decide; [done|]. intros [= <-]. by destruct sz.
Qed.
