(* ===== verification/LogTruncate.v ===== *)
(** * Joining with a size limit keeps the newest entries

    [Log::join] with a size rebuilds the log from its newest values.  The
    truncated log keeps the set of parents of the full one, so it is compared
    with the log that has the same entries and an exact set of parents. *)

From S2P Require Import Prelude LamportClock Entry Log LogTraverse LogCrdt LogWrite LogJoin.

Lemma insert_entries_lookup (m : gmap Hash Entry.t) (es : list Entry.t) h x :
  NoDup (Entry.hash <$> es) ->
  Log.insert_entries m es !! h = Some x <->
    (x ∈ es /\ Entry.hash x = h) \/ (h ∉ Entry.hash <$> es /\ m !! h = Some x).
Proof.
  unfold Log.insert_entries. revert m.
  induction es as [|e es IH]; intros m Hnd; simpl; [set_solver|].
  apply NoDup_cons in Hnd as [Hnin Hnd]. rewrite IH by done. rewrite lookup_insert.
  rewrite elem_of_cons, not_elem_of_cons. destruct (decide (Entry.hash e = h)) as [<-|Hne].
  - split; [naive_solver|]. intros [[[->|?] Hh]|[[? _] _]]; [by right|by left|done].
  - naive_solver.
Qed.

Section truncate.
Context (M : Log.t) (sz : nat) (Hwf : wf M) (Hc : causal_log M) (Ho : ordered M).

Abbreviation vs := (take sz (reverse (Log.values M))).

Definition exact_truncate : Log.t :=
  let T := Log.truncate M sz in
  {| Log.id := Log.id T; Log.identity := Log.identity T; Log.entries := Log.entries T;
     Log.length := Log.length T; Log.heads := Log.heads T; Log.nexts := Log.insert_nexts ∅ vs;
     Log.sort_fn := Log.sort_fn T; Log.clock := Log.clock T |}.

Lemma newest_nodup : NoDup (Entry.hash <$> vs).
Proof using Hwf.
  rewrite fmap_take, fmap_reverse. eapply sublist_NoDup; [|apply sublist_take].
  rewrite reverse_Permutation. by apply values_nodup.
Qed.

Lemma newest_stored x : x ∈ vs -> stored M x.
Proof using Hwf Hc.
  intros (i & Hi & _)%elem_of_take. apply list_elem_of_lookup_2 in Hi.
  rewrite elem_of_reverse in Hi. by apply elem_of_values.
Qed.

Lemma truncate_stored x : stored exact_truncate x <-> x ∈ vs.
Proof using Hwf.
  unfold stored. simpl. rewrite insert_entries_lookup by apply newest_nodup.
  rewrite lookup_empty. naive_solver.
Qed.

Lemma exact_truncate_wf : wf exact_truncate.
Proof using Hwf.
  pose proof newest_nodup as Hnd. split.
  - intros h e. simpl. rewrite insert_entries_lookup by done. rewrite lookup_empty. naive_solver.
  - intros h. setoid_rewrite truncate_stored. simpl. rewrite elem_of_insert_nexts.
    rewrite elem_of_empty. naive_solver.
  - intros e. rewrite truncate_stored. simpl. rewrite dedup_nodup by done.
    rewrite elem_of_find_heads, elem_of_insert_nexts, elem_of_empty. naive_solver.
  - simpl. rewrite dedup_nodup by done. unfold Log.find_heads. rewrite sort_by_perm.
    eapply sublist_NoDup; [exact Hnd|]. apply fmap_sublist, sublist_filter.
  - done.
Qed.

Lemma exact_truncate_causal : causal_log exact_truncate.
Proof using Hwf Hc.
  intros e p He%truncate_stored%newest_stored Hp%truncate_stored%newest_stored. by apply Hc.
Qed.

Lemma exact_truncate_ordered : ordered exact_truncate.
Proof using Hwf Hc Ho.
  assert (Hsub : forall x, stored exact_truncate x -> stored M x)
    by (intros x Hx%truncate_stored; by apply newest_stored).
  split.
  - eapply total_on_weaken; [exact Hsub|apply (ordered_total _ Ho)].
  - intros e p He Hp. apply (ordered_parent _ Ho); auto.
Qed.

Lemma truncate_values :
  Log.values (Log.truncate M sz) = drop (Log.len M - sz) (Log.values M).
Proof using Hwf Hc Ho.
  transitivity (Log.values exact_truncate).
  { unfold Log.values, Log.traverse. by rewrite (traverse_loop_same _ exact_truncate). }
  rewrite <- values_length, <- reverse_take_reverse by done.
  apply values_unique;
    [apply exact_truncate_wf|apply exact_truncate_causal|apply exact_truncate_ordered|..].
  - rewrite reverse_Permutation. apply NoDup_Permutation.
    + eapply NoDup_fmap_1, all_entries_nodup, exact_truncate_wf.
    + eapply NoDup_fmap_1, newest_nodup.
    + intros x. rewrite elem_of_all_entries by apply exact_truncate_wf. apply truncate_stored.
  - rewrite reverse_take_reverse. pose proof (values_sorted _ Hwf Ho) as Hs.
    rewrite <- (take_drop (length (Log.values M) - sz) (Log.values M)) in Hs.
    by apply StronglySorted_app in Hs as (_ & _ & ?).
Qed.

Lemma truncate_len : Log.len (Log.truncate M sz) = Nat.min sz (Log.len M).
Proof using Hwf Hc Ho.
  change (Log.len (Log.truncate M sz)) with (Log.len exact_truncate).
  rewrite <- (values_length exact_truncate) by
    (apply exact_truncate_wf || apply exact_truncate_causal).
  transitivity (length (Log.values (Log.truncate M sz))).
  { unfold Log.values, Log.traverse. by rewrite (traverse_loop_same (Log.truncate M sz) exact_truncate). }
  rewrite truncate_values, length_drop, values_length by done. lia.
Qed.
End truncate.
