(* ===== verification/StoreIndex.v ===== *)
(** * Operations and store indexes

    The operation records of src/stores/operation/mod.rs, the [StoreIndex] trait
    of src/traits.rs as a type class, and its implementations: the event index
    (a copy of the log), the base index (newest operation per key), the document
    index (forward replay), the key-value index and the no-op index.  Lock
    poisoning, the only error of these implementations, is not modelled. *)

From S2P Require Import Prelude LamportClock Entry Log.
From Stdlib Require DecimalString DecimalPos DecimalN.

(** ** Operations *)

Module OpDoc.
Record t := new { key : string; value : string }.
End OpDoc.

Module Operation.
Record t := mk {
  key : option string;
  op : string;
  value : string;
  docs : list OpDoc.t;
  entry : option Entry.t
}.

Definition new (key : option string) (op : string) (value : option string) : t :=
  {| key := key; op := op; value := default "" value; docs := []; entry := None |}.

Definition new_with_documents (key : option string) (op : string)
    (docs : list (string * string)) : t :=
  {| key := key; op := op; value := "";
     docs := (fun kv => OpDoc.new kv.1 kv.2) <$> docs; entry := None |}.

Definition set_entry (self : t) (e : Entry.t) : t :=
  {| key := key self; op := op self; value := value self; docs := docs self; entry := Some e |}.

Definition has_entry (self : t) : bool := bool_decide (is_Some (entry self)).
End Operation.

(** The base64 and postcard codecs the payloads go through.  [postcard] skips
    the [entry] field, which a decoded operation has as [None]. *)
Class PayloadFormat := {
  base64_encode : string -> string;
  base64_decode : string -> option string;
  marshal : Operation.t -> option string;
  unmarshal : string -> option Operation.t
}.

(** What the codecs promise: what was encoded is decoded again. *)
Class PayloadLaws `{PayloadFormat} : Prop := {
  base64_round_trip bytes : base64_decode (base64_encode bytes) = Some bytes;
  marshal_round_trip o bytes :
    marshal o = Some bytes ->
    unmarshal bytes = Some (Operation.mk (Operation.key o) (Operation.op o) (Operation.value o)
                              (Operation.docs o) None)
}.

Inductive StoreError :=
| DecodeFailed
| ParseFailed
| Other (message : string).

Definition parse_operation `{PayloadFormat} (entry : Entry.t) : result StoreError Operation.t :=
  match base64_decode (Entry.payload entry) with
  | None => Err DecodeFailed
  | Some bytes =>
      match unmarshal bytes with
      | None => Err ParseFailed
      | Some op => Ok (Operation.set_entry op entry)
      end
  end.

Lemma parse_written `{PayloadLaws} o bytes e :
  marshal o = Some bytes -> Entry.payload e = base64_encode bytes ->
  parse_operation e = Ok (Operation.set_entry o e).
Proof.
  intros Hm Hp. unfold parse_operation. rewrite Hp, base64_round_trip.
  by rewrite (marshal_round_trip _ _ Hm).
Qed.

(** ** [usize] keys *)

(** [i.to_string()] *)
Definition usize_to_string (n : nat) : string :=
  DecimalString.NilZero.string_of_uint (N.to_uint (N.of_nat n)).

(** [key.parse::<usize>()]: an optional plus sign and decimal digits that stay
    below 2^64. *)
Definition parse_usize (s : string) : option nat :=
  let digits := match s with
                | String.String "+" rest => rest
                | _ => s
                end in
  match DecimalString.NilZero.uint_of_string digits with
  | Some d => if decide (N.of_uint d < u64_modulus)%N then Some (N.to_nat (N.of_uint d)) else None
  | None => None
  end.

(** ** The trait *)

Class StoreIndex (I : Type) := {
  contains_key : I -> string -> bool;
  get_bytes : I -> string -> option string;
  index_keys : I -> list string;
  index_len : I -> nat;
  index_is_empty : I -> bool;
  update_index : I -> Log.t -> list Entry.t -> I;
  index_clear : I -> I;
  get_entries_range : I -> nat -> nat -> option (list Entry.t);
  get_last_entries : I -> nat -> option (list Entry.t);
  get_entry_by_hash : I -> Hash -> option Entry.t;
  supports_entry_queries : I -> bool
}.

(** The trait's default bodies of the optional methods. *)
Definition no_entries_range {I} (_ : I) (_ _ : nat) : option (list Entry.t) := None.
Definition no_last_entries {I} (_ : I) (_ : nat) : option (list Entry.t) := None.
Definition no_entry_by_hash {I} (_ : I) (_ : Hash) : option Entry.t := None.
Definition no_entry_queries {I} (_ : I) : bool := false.

(** ** The event index *)

Module EventIndex.
Record t := mk { entries_cache : list Entry.t }.

Definition new : t := mk [].

Definition get_entry_at (self : t) (i : nat) : option Entry.t := entries_cache self !! i.

(** The inherent [get_last_entries]. *)
Definition last_entries (self : t) (count : nat) : list Entry.t :=
  drop (length (entries_cache self) - count) (entries_cache self).

Definition contains_key (self : t) (key : string) : bool :=
  match parse_usize key with
  | Some i => bool_decide (i < length (entries_cache self))
  | None => false
  end.

Definition get_bytes (self : t) (key : string) : option string :=
  match parse_usize key with
  | Some i => Entry.payload <$> (entries_cache self !! i)
  | None => None
  end.

Definition keys (self : t) : list string :=
  usize_to_string <$> seq 0 (length (entries_cache self)).

Definition update_index (self : t) (_ : Log.t) (entries : list Entry.t) : t := mk entries.

Definition get_entries_range (self : t) (start stop : nat) : option (list Entry.t) :=
  let n := length (entries_cache self) in
  if decide (stop < start \/ n <= start) then None
  else Some (drop start (take (Nat.min stop n) (entries_cache self))).

Definition get_last_entries (self : t) (count : nat) : option (list Entry.t) :=
  if decide (entries_cache self = [] \/ count = 0) then Some []
  else Some (drop (length (entries_cache self) - count) (entries_cache self)).

Definition get_entry_by_hash (self : t) (hash : Hash) : option Entry.t :=
  List.find (fun e => bool_decide (Entry.hash e = hash)) (entries_cache self).

#[global] Instance store_index : StoreIndex t := {
  contains_key := contains_key;
  get_bytes := get_bytes;
  index_keys := keys;
  index_len self := length (entries_cache self);
  index_is_empty self := bool_decide (entries_cache self = []);
  update_index := update_index;
  index_clear _ := mk [];
  get_entries_range := get_entries_range;
  get_last_entries := get_last_entries;
  get_entry_by_hash := get_entry_by_hash;
  supports_entry_queries _ := true
}.
End EventIndex.

(** ** Indexes over a string-keyed map *)

Module BaseIndex.
Record t := mk { id : string; index : gmap string string }.

Section ops.
Context `{PayloadFormat}.

(** One entry of the newest-first scan; [handled] are the keys already
    decided by a newer entry. *)
Definition step (st : gset string * gmap string string) (entry : Entry.t)
    : gset string * gmap string string :=
  let '(handled, index) := st in
  match parse_operation entry with
  | Err _ => (handled, index)
  | Ok operation =>
      match Operation.key operation with
      | None | Some "" => (handled, index)
      | Some key =>
          if decide (key ∈ handled) then (handled, index)
          else
            ({[key]} ∪ handled,
             if decide (Operation.op operation = "PUT") then
               if decide (Operation.value operation = "") then index
               else <[key := Operation.value operation]> index
             else if decide (Operation.op operation = "DEL") then delete key index
             else index)
      end
  end.

Definition update_index (self : t) (_ : Log.t) (entries : list Entry.t) : t :=
  mk (id self) (foldl step (∅, index self) (reverse entries)).2.

#[global] Instance store_index : StoreIndex t := {
  contains_key self key := bool_decide (is_Some (index self !! key));
  get_bytes self key := index self !! key;
  index_keys self := (map_to_list (index self)).*1;
  index_len self := size (index self);
  index_is_empty self := bool_decide (index self = ∅);
  update_index := update_index;
  index_clear self := mk (id self) ∅;
  get_entries_range := no_entries_range;
  get_last_entries := no_last_entries;
  get_entry_by_hash := no_entry_by_hash;
  supports_entry_queries := no_entry_queries
}.
End ops.
End BaseIndex.

Module DocumentIndex.
Record t := mk { index : gmap string string }.

Section ops.
Context `{PayloadFormat}.

(** One entry of the oldest-first replay. *)
Definition step (index : gmap string string) (entry : Entry.t) : gmap string string :=
  match parse_operation entry with
  | Err _ => index
  | Ok operation =>
      if decide (Operation.op operation = "PUT") then
        match Operation.key operation with
        | Some key =>
            if decide (Operation.value operation = "") then index
            else <[key := Operation.value operation]> index
        | None => index
        end
      else if decide (Operation.op operation = "DEL") then
        match Operation.key operation with
        | Some key => delete key index
        | None => index
        end
      else if decide (Operation.op operation = "PUTALL") then
        foldl (fun m doc => <[OpDoc.key doc := OpDoc.value doc]> m) index
          (Operation.docs operation)
      else index
  end.

Definition update_index (self : t) (_ : Log.t) (entries : list Entry.t) : t :=
  mk (foldl step (index self) entries).

#[global] Instance store_index : StoreIndex t := {
  contains_key self key := bool_decide (is_Some (index self !! key));
  get_bytes self key := index self !! key;
  index_keys self := (map_to_list (index self)).*1;
  index_len self := size (index self);
  index_is_empty self := bool_decide (index self = ∅);
  update_index := update_index;
  index_clear _ := mk ∅;
  get_entries_range := no_entries_range;
  get_last_entries := no_last_entries;
  get_entry_by_hash := no_entry_by_hash;
  supports_entry_queries := no_entry_queries
}.
End ops.

(** Synchronisation with an iroh-docs document: the whole index is replaced. *)
Definition update_from_iroh_entries (self : t) (entries : list (string * string)) : t :=
  mk (foldl (fun m kv => if decide (kv.2 = "") then m else <[kv.1 := kv.2]> m) ∅ entries).

Definition put (self : t) (key hash_bytes : string) : t := mk (<[key := hash_bytes]> (index self)).

Definition remove (self : t) (key : string) : t * option string :=
  (mk (delete key (index self)), index self !! key).
End DocumentIndex.

Module KvIndex.
Record t := mk { index : gmap string string }.

Definition new : t := mk ∅.

(** The key-value store is backed by iroh-docs; the log does not update it. *)
#[global] Instance store_index : StoreIndex t := {
  contains_key self key := bool_decide (is_Some (index self !! key));
  get_bytes self key := index self !! key;
  index_keys self := (map_to_list (index self)).*1;
  index_len self := size (index self);
  index_is_empty self := bool_decide (index self = ∅);
  update_index self _ _ := self;
  index_clear _ := mk ∅;
  get_entries_range := no_entries_range;
  get_last_entries := no_last_entries;
  get_entry_by_hash := no_entry_by_hash;
  supports_entry_queries := no_entry_queries
}.
End KvIndex.

Module NoopIndex.
Inductive t := mk.

#[global] Instance store_index : StoreIndex t := {
  contains_key _ _ := false;
  get_bytes _ _ := None;
  index_keys _ := [];
  index_len _ := 0;
  index_is_empty _ := true;
  update_index self _ _ := self;
  index_clear self := self;
  get_entries_range := no_entries_range;
  get_last_entries := no_last_entries;
  get_entry_by_hash := no_entry_by_hash;
  supports_entry_queries := no_entry_queries
}.
End NoopIndex.

(** ** Theory: positional keys *)

Lemma usize_to_string_head n : exists a s, usize_to_string n = String.String a s /\ a <> "+"%char.
Proof.
  unfold usize_to_string. generalize (N.to_uint (N.of_nat n)). intros d.
  destruct d; simpl; unfold DecimalString.NilZero.string_of_uint; simpl; eauto.
Qed.

Lemma parse_usize_to_string n : in_u64 (N.of_nat n) -> parse_usize (usize_to_string n) = Some n.
Proof.
  intros Hn. unfold parse_usize.
  destruct (usize_to_string_head n) as (a & s & Hs & Ha). rewrite Hs.
  replace (match a with "+"%char => s | _ => String.String a s end) with (String.String a s).
  2:{ destruct a as [[] [] [] [] [] [] [] []]; try done. }
  rewrite <- Hs. unfold usize_to_string.
  rewrite DecimalString.NilZero.usu.
  2:{ destruct (N.of_nat n); [done|]. apply DecimalPos.Unsigned.to_uint_nonnil. }
  rewrite DecimalN.Unsigned.of_to. rewrite decide_True by done. by rewrite Nat2N.id.
Qed.

(** ** Theory: replaying operations on a map *)

(** The last entry of [es] that decides key [k], for a per-entry decision. *)
Fixpoint last_decision {D} (dec : Entry.t -> string -> option D) (es : list Entry.t) (k : string)
    : option D :=
  match es with
  | [] => None
  | e :: es =>
      match last_decision dec es k with
      | Some x => Some x
      | None => dec e k
      end
  end.

Lemma last_decision_snoc {D} (dec : Entry.t -> string -> option D) es e k :
  last_decision dec (es ++ [e]) k =
    match dec e k with Some x => Some x | None => last_decision dec es k end.
Proof.
  induction es as [|x es IH]; simpl; [by destruct (dec e k)|].
  rewrite IH. by destruct (dec e k).
Qed.

Lemma last_decision_ext {D} (dec1 dec2 : Entry.t -> string -> option D) es k :
  (forall e, e ∈ es -> dec1 e k = dec2 e k) -> last_decision dec1 es k = last_decision dec2 es k.
Proof.
  induction es as [|e es IH]; intros Hext; simpl; [done|].
  rewrite IH by set_solver. by rewrite Hext by set_solver.
Qed.

Section replay.
Context `{PayloadFormat}.

(** What an entry makes of key [k] in the document index: [Some (Some v)]
    stores [v], [Some None] removes the key, [None] leaves it alone. *)
Definition document_effect (e : Entry.t) (k : string) : option (option string) :=
  match parse_operation e with
  | Err _ => None
  | Ok o =>
      if decide (Operation.op o = "PUT") then
        if decide (Operation.key o = Some k /\ Operation.value o <> "")
        then Some (Some (Operation.value o)) else None
      else if decide (Operation.op o = "DEL") then
        if decide (Operation.key o = Some k) then Some None else None
      else if decide (Operation.op o = "PUTALL") then
        (fun d => Some (OpDoc.value d)) <$>
          List.find (fun d => bool_decide (OpDoc.key d = k)) (reverse (Operation.docs o))
      else None
  end.

Lemma putall_lookup (docs : list OpDoc.t) (m : gmap string string) k :
  foldl (fun m doc => <[OpDoc.key doc := OpDoc.value doc]> m) m docs !! k =
  match List.find (fun d => bool_decide (OpDoc.key d = k)) (reverse docs) with
  | Some d => Some (OpDoc.value d)
  | None => m !! k
  end.
Proof.
  induction docs as [|d docs IH] using rev_ind; simpl; [done|].
  rewrite foldl_snoc, reverse_snoc. simpl. rewrite lookup_insert.
  case_bool_decide as Hk; [by rewrite decide_True|]. by rewrite decide_False.
Qed.

Lemma document_step_lookup m e k :
  DocumentIndex.step m e !! k =
  match document_effect e k with Some x => x | None => m !! k end.
Proof.
  unfold DocumentIndex.step, document_effect. destruct (parse_operation e) as [o|]; [|done].
  case_decide as Hput.
  { destruct (Operation.key o) as [key|]; [|by rewrite decide_False by naive_solver].
    case_decide as Hv; [by rewrite decide_False by naive_solver|].
    rewrite lookup_insert. case_decide; [subst; by rewrite decide_True|].
    by rewrite decide_False by naive_solver. }
  case_decide as Hdel.
  { destruct (Operation.key o) as [key|]; [|by rewrite decide_False by naive_solver].
    rewrite lookup_delete. case_decide; [subst; by rewrite decide_True|].
    by rewrite decide_False by naive_solver. }
  case_decide; [|done]. rewrite putall_lookup. by destruct (List.find _ _).
Qed.

Lemma document_replay_lookup es m k :
  foldl DocumentIndex.step m es !! k =
  match last_decision document_effect es k with Some x => x | None => m !! k end.
Proof.
  induction es as [|e es IH] using rev_ind; simpl; [done|].
  rewrite foldl_snoc, document_step_lookup, last_decision_snoc, IH. by destruct (document_effect e k).
Qed.

(** What the newest operation on key [k] makes of its old value in the base
    index: every operation that carries the key decides it. *)
Definition base_decision (e : Entry.t) (k : string) : option (option string -> option string) :=
  match parse_operation e with
  | Err _ => None
  | Ok o =>
      if decide (Operation.key o = Some k /\ k <> "") then
        Some (fun old =>
          if decide (Operation.op o = "PUT") then
            if decide (Operation.value o = "") then old else Some (Operation.value o)
          else if decide (Operation.op o = "DEL") then None
          else old)
      else None
  end.

Lemma base_step_lookup handled m e k :
  let '(handled', m') := BaseIndex.step (handled, m) e in
  (k ∈ handled' <-> k ∈ handled \/ is_Some (base_decision e k)) /\
  m' !! k = if decide (k ∈ handled) then m !! k
            else match base_decision e k with Some f => f (m !! k) | None => m !! k end.
Proof.
  assert (Hnone : forall X : Type, (k ∈ handled <-> k ∈ handled \/ is_Some (None : option X))).
  { intros X. split; [by left|]. by intros [?|[? ?]]. }
  unfold BaseIndex.step, base_decision. destruct (parse_operation e) as [o|].
  2:{ split; [apply Hnone|by case_decide]. }
  destruct (decide (Operation.key o = Some k /\ k <> "")) as [[Hkey Hk]|Hno].
  - rewrite Hkey. destruct k as [|a s]; [done|]. set (k := String.String a s) in *.
    destruct (decide (k ∈ handled)) as [Hin|Hin].
    + split; [|done]. split; [by left|done].
    + split; [set_solver by eauto|].
      repeat case_decide; rewrite ?lookup_insert_eq, ?lookup_delete_eq; done.
  - destruct (Operation.key o) as [[|a s]|] eqn:Hkey.
    1,3: split; [apply Hnone|destruct (decide (k ∈ handled)); done].
    set (key := String.String a s) in *.
    assert (Hne : key <> k) by (intros <-; by apply Hno).
    destruct (decide (key ∈ handled)); [split; [apply Hnone|destruct (decide (k ∈ handled)); done]|].
    split.
    + rewrite elem_of_union, elem_of_singleton. split; [naive_solver|].
      intros [?|[? ?]]; [by right|done].
    + repeat case_decide; rewrite ?lookup_insert_ne, ?lookup_delete_ne by done; done.
Qed.

Lemma base_scan_lookup es handled m k :
  (foldl BaseIndex.step (handled, m) (reverse es)).2 !! k =
  if decide (k ∈ handled) then m !! k
  else match last_decision base_decision es k with Some f => f (m !! k) | None => m !! k end.
Proof.
  revert handled m. induction es as [|e es IH] using rev_ind; intros handled m; simpl.
  { by case_decide. }
  rewrite reverse_snoc. cbn [foldl]. pose proof (base_step_lookup handled m e k) as Hs.
  destruct (BaseIndex.step (handled, m) e) as [handled' m'] eqn:Hst. destruct Hs as [Hh Hm].
  rewrite IH, Hm, last_decision_snoc.
  destruct (base_decision e k) as [f|] eqn:Hd.
  - rewrite (decide_True (P := k ∈ handled')) by naive_solver. by case_decide.
  - destruct (decide (k ∈ handled)) as [Hk|Hk].
    + rewrite decide_True by naive_solver. done.
    + rewrite decide_False; [done|]. rewrite Hh. intros [?|[? ?]]; done.
Qed.
End replay.
