(* ===== verification/EventLogStore.v ===== *)
(** * Event log queries: src/stores/event_log_store/mod.rs

    The query path of the event log store.  It is written against the
    [StoreIndex] interface; [EntryIndex] states what an index that supports entry
    queries promises, the event index discharges it, and the query through the
    index is proved equal to the query over the log. *)

From S2P Require Import Prelude LamportClock Entry Log StoreIndex.

Module StreamOptions.
Record t := mk {
  gt : option Hash;
  gte : option Hash;
  lt : option Hash;
  lte : option Hash;
  amount : option Z
}.

Definition default : t := {| gt := None; gte := None; lt := None; lte := None; amount := None |}.
End StreamOptions.

Implicit Types (es : list Entry.t) (opts : StreamOptions.t) (log : Log.t).

(** [ops.iter().position(|e| e.hash() == &h)] *)
Fixpoint position (h : Hash) es : option nat :=
  match es with
  | [] => None
  | e :: es => if decide (Entry.hash e = h) then Some 0 else S <$> position h es
  end.

Definition read es (hash : option Hash) (amount : nat) (inclusive : bool) : list Entry.t :=
  if decide (amount = 0) then []
  else
    match (match hash with None => Some 0 | Some h => position h es end) with
    | None => []
    | Some start =>
        take amount (drop (if inclusive then start else S start) es)
    end.

Section query.
Context {I : Type} `{StoreIndex I}.

Definition optimized_index_query (index : I) opts : option (list Entry.t) :=
  if negb (supports_entry_queries index) then None
  else
    let total := index_len index in
    if decide (total = 0) then None
    else
      match StreamOptions.gt opts, StreamOptions.gte opts, StreamOptions.lt opts,
            StreamOptions.lte opts with
      | None, None, None, None =>
          match StreamOptions.amount opts with
          | None => get_last_entries index total
          | Some a =>
              if decide (0 < a)%Z then get_last_entries index (Nat.min (Z.to_nat a) total)
              else if decide (a = -1)%Z then get_last_entries index total
              else None
          end
      | None, Some hash, None, None =>
          if decide (StreamOptions.amount opts = Some 1%Z) then
            match get_entry_by_hash index hash with
            | Some entry => Some [entry]
            | None => Some []
            end
          else None
      | _, _, _, _ => None
      end.

(** The entries a query starts from: the index when it can answer, the values
    of the log otherwise. *)
Definition query_source (index : option I) log opts : list Entry.t :=
  match index with
  | Some i => default (Log.values log) (optimized_index_query i opts)
  | None => Log.values log
  end.

Definition query_amount opts (events : list Entry.t) : nat :=
  match StreamOptions.amount opts with
  | Some a => if decide (-1 < a)%Z then Z.to_nat a else length events
  | None => length events
  end.

(** The selection applied to the source entries. *)
Definition query_select opts (events : list Entry.t) : list Entry.t :=
  let amount := query_amount opts events in
  match StreamOptions.gt opts, StreamOptions.gte opts with
  | None, None =>
      let hash := match StreamOptions.lt opts with
                  | Some h => Some h
                  | None => StreamOptions.lte opts
                  end in
      let inclusive := bool_decide (is_Some (StreamOptions.lte opts)) || bool_decide (hash = None) in
      reverse (read (reverse events) hash amount inclusive)
  | Some h, gte => read events (Some h) amount (bool_decide (is_Some gte))
  | None, Some h => read events (Some h) amount true
  end.

Definition query (index : option I) log (options : option StreamOptions.t) : list Entry.t :=
  let opts := default StreamOptions.default options in
  query_select opts (query_source index log opts).

(** [get]: the point query by hash, then the parse of the entry found. *)
Definition get `{PayloadFormat} (index : option I) log (hash : Hash)
    : result StoreError Operation.t :=
  let opts := {| StreamOptions.gt := None; StreamOptions.gte := Some hash;
                 StreamOptions.lt := None; StreamOptions.lte := None;
                 StreamOptions.amount := Some 1%Z |} in
  match query index log (Some opts) with
  | [] => Err (Other "No operation found for Hash")
  | e :: _ => parse_operation e
  end.

(** [stream] with a receiver that stays open: the operations sent, and whether
    an entry failed to parse, which ends the stream. *)
Fixpoint stream_entries `{PayloadFormat} (es : list Entry.t)
    : list Operation.t * result StoreError unit :=
  match es with
  | [] => ([], Ok tt)
  | e :: es =>
      match parse_operation e with
      | Err err => ([], Err err)
      | Ok op => let '(ops, r) := stream_entries es in (op :: ops, r)
      end
  end.

Definition stream `{PayloadFormat} (index : option I) log (options : option StreamOptions.t)
    : list Operation.t * result StoreError unit :=
  stream_entries (query index log options).

(** [list]: what was sent before the stream ended. *)
Definition list_operations `{PayloadFormat} (index : option I) log
    (options : option StreamOptions.t) : list Operation.t :=
  (stream index log options).1.
End query.

(** ** What an entry index promises *)

Class EntryIndex (I : Type) `{StoreIndex I} := {
  (** [mirrors i es]: the index holds exactly the entries [es]. *)
  mirrors : I -> list Entry.t -> Prop;
  mirrors_update : forall i log es, mirrors (update_index i log es) es;
  mirrors_len : forall i es, mirrors i es -> index_len i = length es;
  mirrors_last : forall i es n, mirrors i es -> n <= length es ->
    get_last_entries i n = Some (drop (length es - n) es);
  mirrors_hash : forall i es h, mirrors i es ->
    get_entry_by_hash i h = List.find (fun e => bool_decide (Entry.hash e = h)) es
}.

#[global] Instance event_entry_index : EntryIndex EventIndex.t.
Proof.
  refine {| mirrors i es := EventIndex.entries_cache i = es |}.
  - done.
  - by intros [?] ? <-.
  - intros [es'] es n <- Hn. simpl in *. unfold EventIndex.get_last_entries. simpl.
    case_decide as Hd; [|done]. f_equal.
    destruct Hd as [->| ->]; [done|]. by rewrite Nat.sub_0_r, drop_all.
  - by intros [?] ? ? <-.
Defined.

(** ** Selections *)

Lemma position_find h es :
  match position h es with
  | Some i => exists e, es !! i = Some e /\ Entry.hash e = h /\
                List.find (fun e => bool_decide (Entry.hash e = h)) es = Some e
  | None => List.find (fun e => bool_decide (Entry.hash e = h)) es = None
  end.
Proof.
  induction es as [|e es IH]; simpl; [done|]. case_decide as He.
  - rewrite bool_decide_true by done. eauto.
  - rewrite bool_decide_false by done. by destruct (position h es).
Qed.

Lemma position_None h es : position h es = None <-> forall e, e ∈ es -> Entry.hash e <> h.
Proof.
  induction es as [|e es IH]; simpl; [set_solver|]. case_decide as He.
  - split; [done|]. intros Hall. by destruct (Hall e); [left|].
  - rewrite fmap_None, IH. set_solver.
Qed.

Lemma read_all es n : length es <= n -> read es None n true = es.
Proof.
  intros Hn. unfold read. case_decide as H0; [|by rewrite drop_0, take_ge].
  subst. by destruct es; [|simpl in Hn; lia].
Qed.

Lemma read_take es n : read es None n true = take n es.
Proof. unfold read. case_decide as H0; [by subst|]. by rewrite drop_0. Qed.

(** An unbounded selection keeps the newest entries. *)
Lemma select_last opts es :
  StreamOptions.gt opts = None -> StreamOptions.gte opts = None ->
  StreamOptions.lt opts = None -> StreamOptions.lte opts = None ->
  query_select opts es = drop (length es - query_amount opts es) es.
Proof.
  intros Hgt Hgte Hlt Hlte. unfold query_select. rewrite Hgt, Hgte, Hlt, Hlte. simpl.
  rewrite read_take. apply reverse_take_reverse.
Qed.

Section laws.
Context {I : Type} `{EntryIndex I}.

Lemma query_source_select (i : I) log opts :
  mirrors i (Log.values log) ->
  query_select opts (query_source (Some i) log opts) = query_select opts (Log.values log).
Proof.
  intros Hm. simpl. unfold optimized_index_query.
  set (vs := Log.values log) in *. rewrite (mirrors_len _ _ Hm).
  destruct (negb _); [done|]. case_decide; [done|].
  destruct (StreamOptions.gt opts) as [|] eqn:Hgt; [by destruct (StreamOptions.gte opts), (StreamOptions.lt opts)|].
  destruct (StreamOptions.gte opts) as [h|] eqn:Hgte.
  - destruct (StreamOptions.lt opts) eqn:Hlt; [done|].
    destruct (StreamOptions.lte opts) eqn:Hlte; [done|].
    case_decide as Ha; [|done]. rewrite (mirrors_hash _ _ _ Hm).
    pose proof (position_find h vs) as Hp. unfold query_select, query_amount.
    rewrite Hgt, Hgte, Ha. simpl. unfold read. simpl.
    destruct (position h vs) as [p|] eqn:Hpos.
    + destruct Hp as (e & He & Hh & ->). simpl. rewrite decide_True by done. simpl.
      by rewrite (drop_S _ _ _ He).
    + rewrite Hp. done.
  - destruct (StreamOptions.lt opts) eqn:Hlt; [by destruct (StreamOptions.lte opts)|].
    destruct (StreamOptions.lte opts) eqn:Hlte; [done|].
    assert (Hwin : forall k, k <= length vs ->
      Nat.min (query_amount opts vs) (length vs) = k ->
      query_select opts (default vs (get_last_entries i k)) = query_select opts vs).
    { intros k Hk Hq. rewrite (mirrors_last _ _ _ Hm) by done. simpl.
      rewrite !select_last by done. rewrite drop_drop, length_drop.
      unfold query_amount in *. destruct (StreamOptions.amount opts) as [a|];
        [case_decide|]; rewrite ?length_drop in *; f_equal; lia. }
    unfold query_amount in Hwin. destruct (StreamOptions.amount opts) as [a|] eqn:Ha.
    + destruct (decide (0 < a)%Z).
      { apply Hwin; [lia|]. by rewrite decide_True by lia. }
      destruct (decide (a = -1)%Z); [|done].
      apply Hwin; [lia|]. rewrite decide_False by lia. lia.
    + apply Hwin; lia.
Qed.
End laws.
