(* ===== verification/BaseStore.v ===== *)
(** * The base store: src/stores/base_store/mod.rs

    The store keeps an operation log, an index over it and a cache of serialized
    entries.  The state-changing operations are modelled whole: writing an
    operation, receiving heads from peers, merging entries, loading from the
    cache and resetting.  Event emission, progress callbacks, tracing and the
    locks are not part of the state.  Serialization, the content hash of a new
    entry and the access controller's decision are parameters. *)

From S2P Require Import Prelude LamportClock Entry Log LogTraverse LogCrdt LogWrite LogJoin.
From S2P Require Import StoreIndex EventLogStore.

(** The comparison every store gives its log. *)
Definition default_sort_fn (a b : Entry.t) : comparison :=
  match N.compare (LamportClock.time (Entry.clock a)) (LamportClock.time (Entry.clock b)) with
  | Eq =>
      match String.compare (LamportClock.id (Entry.clock a)) (LamportClock.id (Entry.clock b)) with
      | Eq => String.compare (Entry.hash a) (Entry.hash b)
      | id_cmp => id_cmp
      end
  | time_cmp => time_cmp
  end.

(** The serializer for lists of entries, [guardian::serializer]. *)
Class EntryFormat := {
  serialize_entries : list Entry.t -> option string;
  deserialize_entries : string -> option (list Entry.t)
}.

(** The [Datastore] trait, as far as the store uses it: every call may fail, and
    a failing write leaves the datastore as it was. *)
Class Datastore (D : Type) := {
  ds_get : D -> string -> result StoreError (option string);
  ds_put : D -> string -> string -> result StoreError D;
  ds_delete : D -> string -> result StoreError D
}.

(** What a working datastore promises: reads do not fail, and a write that is
    accepted is what the next read of that key returns. *)
Class DatastoreLaws (D : Type) `{Datastore D} : Prop := {
  ds_get_ok (d : D) k : is_ok (ds_get d k);
  ds_put_same (d d' : D) k v : ds_put d k v = Ok d' -> ds_get d' k = Ok (Some v);
  ds_put_other (d d' : D) k v j :
    ds_put d k v = Ok d' -> j <> k -> ds_get d' j = ds_get d j;
  ds_delete_same (d d' : D) k : ds_delete d k = Ok d' -> ds_get d' k = Ok None;
  ds_delete_other (d d' : D) k j :
    ds_delete d k = Ok d' -> j <> k -> ds_get d' j = ds_get d j
}.

(** The in-memory datastore. *)
#[global] Instance gmap_datastore : Datastore (gmap string string) := {
  ds_get d k := Ok (d !! k);
  ds_put d k v := Ok (<[k := v]> d);
  ds_delete d k := Ok (delete k d)
}.

#[global] Instance gmap_datastore_laws : DatastoreLaws (gmap string string).
Proof.
  split; intros; simplify_eq/=; try done; f_equal.
  - by rewrite lookup_insert_eq.
  - by rewrite lookup_insert_ne.
  - by rewrite lookup_delete_eq.
  - by rewrite lookup_delete_ne.
Qed.

Module BaseStore.
Section store.
Context {I D : Type} `{StoreIndex I} `{Datastore D} `{PayloadFormat} `{EntryFormat}.

Record t := mk {
  id : string;
  identity : Identity.t;
  oplog : Log.t;
  active_index : option I;
  cache : D;
  reference_count : nat;
  sort_fn : Entry.t -> Entry.t -> comparison
}.

Definition set_oplog (self : t) (log : Log.t) : t :=
  mk (id self) (identity self) log (active_index self) (cache self) (reference_count self)
     (sort_fn self).

Definition set_index (self : t) (i : option I) : t :=
  mk (id self) (identity self) (oplog self) i (cache self) (reference_count self) (sort_fn self).

Definition set_cache (self : t) (d : D) : t :=
  mk (id self) (identity self) (oplog self) (active_index self) d (reference_count self)
     (sort_fn self).

(** An empty log with the store's identifier and comparison. *)
Definition empty_log (store_id : string) (ident : Identity.t)
    (sf : Entry.t -> Entry.t -> comparison) : Log.t :=
  Log.new "" ident
    {| LogOptions.id := Some store_id; LogOptions.entries := []; LogOptions.heads := [];
       LogOptions.clock := None; LogOptions.sort_fn := Some sf |}.

(** The part of [BaseStore::new] that builds the state. *)
Definition new (store_id : string) (ident : Identity.t) (index_builder : string -> I)
    (public_key_bytes : string) (store_cache : D)
    (opt_sort_fn : option (Entry.t -> Entry.t -> comparison)) (opt_refs : option nat) : t :=
  let sf := default default_sort_fn opt_sort_fn in
  mk store_id ident (empty_log store_id ident sf) (Some (index_builder public_key_bytes))
     store_cache (default 64 opt_refs) sf.

(** [update_index], through [LogAndIndex::update_index_safe]. *)
Definition update_index (self : t) : t * nat :=
  let entries := Log.values (oplog self) in
  match active_index self with
  | Some i =>
      (set_index self (Some (StoreIndex.update_index i (oplog self) entries)), length entries)
  | None => (self, 0)
  end.

(** [add_operation]; [None] is the panic of [Log::append] when the client
    cannot hash the entry.  The log and the index have changed even when a
    later step fails. *)
Definition add_operation (hash_entry : Entry.t -> option Hash) (self : t) (op : Operation.t)
    : option (t * result StoreError Entry.t) :=
  match marshal op with
  | None => Some (self, Err (Other "Unable to marshal operation"))
  | Some data =>
      match Log.append hash_entry (oplog self) (base64_encode data)
              (Some (reference_count self)) with
      | None => None
      | Some (log, new_entry) =>
          let self := (update_index (set_oplog self log)).1 in
          match serialize_entries (Log.get_heads (oplog self)) with
          | None => Some (self, Err (Other "Failed to serialize local heads for caching"))
          | Some heads_bytes =>
              match ds_put (cache self) "_localHeads" heads_bytes with
              | Err _ => Some (self, Err (Other "Failed to cache local heads"))
              | Ok d =>
                  let self := set_cache self d in
                  match serialize_entries (Log.values (oplog self)) with
                  | None =>
                      Some (self, Err (Other "Failed to serialize all entries for caching"))
                  | Some all_bytes =>
                      match ds_put (cache self) "_allEntries" all_bytes with
                      | Err _ => Some (self, Err (Other "Failed to cache all entries"))
                      | Ok d => Some (set_cache self d, Ok new_entry)
                      end
                  end
              end
          end
      end
  end.

(** The checks a received head passes before it is added. *)
Definition verify_head (can_append : Entry.t -> bool) (self : t) (head : Entry.t) : bool :=
  negb (bool_decide (Entry.hash head = zero_hash) || bool_decide (Entry.payload head = "")) &&
  can_append head && negb (Log.has (oplog self) (Entry.hash head)).

(** Adding entries one by one, with the number that were new. *)
Definition add_one (acc : Log.t * nat) (e : Entry.t) : Log.t * nat :=
  let '(log, added) := Log.add_entry acc.1 e in
  (log, if (added : bool) then S acc.2 else acc.2).

Definition add_counted (log : Log.t) (es : list Entry.t) : Log.t * nat :=
  foldl add_one (log, 0) es.

Definition sync (can_append : Entry.t -> bool) (self : t) (heads : list Entry.t) : t :=
  let verified_heads := List.filter (verify_head can_append self) heads in
  let '(log, added_count) := add_counted (oplog self) verified_heads in
  let self := set_oplog self log in
  if decide (0 < added_count) then
    let self := (update_index self).1 in
    match serialize_entries (Log.values (oplog self)) with
    | Some bytes =>
        match ds_put (cache self) "_allEntries" bytes with
        | Ok d => set_cache self d
        | Err _ => self
        end
    | None => self
    end
  else self.

(** A log that holds one entry, with the store's identifier. *)
Definition create_temporary_log_with_entry (self : t) (entry : Entry.t) : Log.t :=
  Log.new "" (identity self)
    {| LogOptions.id := Some (id self); LogOptions.entries := [entry];
       LogOptions.heads := [entry]; LogOptions.clock := None;
       LogOptions.sort_fn := Some (sort_fn self) |}.

(** The loop body of [load_more_from]. *)
Definition join_entry (self : t) (acc : Log.t * nat) (entry : Entry.t) : Log.t * nat :=
  let '(log, count) := acc in
  if Log.has log (Entry.hash entry) then (log, count)
  else match Log.join log (create_temporary_log_with_entry self entry) None with
       | Some log' => (log', S count)
       | None => (log, count)
       end.

Definition load_more_from (self : t) (entries : list Entry.t) : t * nat :=
  let '(log, added_count) := foldl (join_entry self) (oplog self, 0) entries in
  let self := set_oplog self log in
  (if decide (0 < added_count) then (update_index self).1 else self, added_count).

(** The heads cached under [key]; a failing read counts as no heads. *)
Definition load_heads_from_cache_key (d : D) (key : string) (heads : list Entry.t)
    : result StoreError (list Entry.t) :=
  match ds_get d key with
  | Ok (Some bytes) =>
      match deserialize_entries bytes with
      | Some cached_heads => Ok (heads ++ cached_heads)
      | None => Err (Other "Failed to deserialize heads from cache key")
      end
  | _ => Ok heads
  end.

(** The entries cached under [_allEntries]; every failure counts as none. *)
Definition cached_entries (d : D) : list Entry.t :=
  match ds_get d "_allEntries" with
  | Ok (Some bytes) => default [] (deserialize_entries bytes)
  | _ => []
  end.

Definition load (self : t) : t * result StoreError unit :=
  let loaded_heads :=
    let? heads := load_heads_from_cache_key (cache self) "_localHeads" [] in
    load_heads_from_cache_key (cache self) "_remoteHeads" heads in
  match loaded_heads with
  | Err e => (self, Err e)
  | Ok heads =>
      let all_entries := cached_entries (cache self) in
      if decide (heads = [] /\ all_entries = []) then (self, Ok tt)
      else
        let entries_to_load := if decide (all_entries = []) then heads else all_entries in
        let log := Log.sync_clock_from_heads (add_counted (oplog self) entries_to_load).1 in
        ((update_index (set_oplog self log)).1, Ok tt)
  end.

(** The keys [reset] removes from the cache. *)
Definition cache_keys : list string :=
  ["_localHeads"; "_remoteHeads"; "_allEntries"; "queue"; "snapshot"; "replication_progress";
   "peers_status"; "sync_state"].

(** [cache.delete(key)], whose failure is only recorded. *)
Definition clear_key (d : D) (key : string) : D :=
  match ds_delete d key with Ok d' => d' | Err _ => d end.

(** [reset], after [close] has stopped the tasks and the emitters: the log, the
    index and the cached keys are emptied. *)
Definition reset (self : t) : t :=
  let self := set_oplog self (empty_log (id self) (identity self) (sort_fn self)) in
  let self := set_index self (index_clear <$> active_index self) in
  set_cache self (foldl clear_key (cache self) cache_keys).
End store.
Arguments t : clear implicits.
End BaseStore.
