(* ===== verification/BaseStoreInv.v ===== *)
(** * The base store keeps its log well formed and its index in step with it

    The store is proved against two interfaces: [LogIndex], what an index
    promises about the entries it was last updated with, and [DatastoreLaws].
    Entries come from a set of honest entries [U], in which a hash determines
    the entry and a child's clock is ahead of its parents'. *)

From S2P Require Import Prelude LamportClock Entry Log LogTraverse LogCrdt LogWrite LogJoin.
From S2P Require Import StoreIndex EventLogStore BaseStore.
Import BaseStore.

(** ** The default comparison *)

Lemma default_sort_fn_key a b :
  default_sort_fn a b =
  pair_compare N.compare (pair_compare String.compare String.compare)
    (Entry.time a, (LamportClock.id (Entry.clock a), Entry.hash a))
    (Entry.time b, (LamportClock.id (Entry.clock b), Entry.hash b)).
Proof.
  unfold default_sort_fn, pair_compare, Entry.time. simpl.
  destruct (N.compare _ _); [|done..]. by destruct (String.compare _ _).
Qed.

Lemma default_sort_fn_total D : Entry.coherent D -> TotalOn default_sort_fn D.
Proof.
  intros HD. eapply total_on_ext; [intros; symmetry; apply default_sort_fn_key|].
  apply (key_compare_total _
    (fun e => (Entry.time e, (LamportClock.id (Entry.clock e), Entry.hash e)))).
  - apply pair_compare_total; [apply N_compare_total|].
    apply pair_compare_total; apply string_compare_total.
  - intros x y Hx Hy [= _ _ Hh]. by apply HD.
Qed.

Lemma default_sort_fn_time a b : (Entry.time a < Entry.time b)%N -> default_sort_fn a b = Lt.
Proof.
  intros Hlt. unfold default_sort_fn. unfold Entry.time in Hlt.
  by rewrite (proj2 (N.compare_lt_iff _ _)).
Qed.

Lemma default_ordered log :
  wf log -> causal_log log -> Log.sort_fn log = Entry.no_zeroes default_sort_fn -> ordered log.
Proof.
  intros Hwf Hc Hs. pose proof (stored_coherent log) as Hcoh. split; rewrite Hs.
  - apply Entry.no_zeroes_total; [done|]. by apply default_sort_fn_total.
  - intros e p He Hp Hin. pose proof (Hc _ _ He Hp Hin) as Hlt. unfold Entry.no_zeroes.
    rewrite decide_False; [|intros Hh; apply Hcoh in Hh as ->; [lia|done..]].
    by rewrite default_sort_fn_time.
Qed.

(** ** Empty and one-entry logs *)

Lemma empty_log_wf store_id ident sf : wf (empty_log store_id ident sf).
Proof.
  split; simpl; try done.
  - split; [set_solver|]. intros (e & He & _). done.
  - intros e. split; [set_solver|]. by intros [He _].
  - constructor.
Qed.

Lemma empty_log_stored store_id ident sf e : ~ stored (empty_log store_id ident sf) e.
Proof. done. Qed.

Lemma empty_log_values store_id ident sf : Log.values (empty_log store_id ident sf) = [].
Proof. done. Qed.

(** ** What an index promises the store *)

(** [reflects i es] says that the index shows the entries [es].  Updating with a
    list that contains the entries shown before makes the index show the new
    list; clearing makes it show nothing. *)
Class LogIndex (I : Type) `{StoreIndex I} := {
  reflects : I -> list Entry.t -> Prop;
  reflects_update (i : I) log (es es' : list Entry.t) :
    reflects i es -> es ⊆ es' -> reflects (StoreIndex.update_index i log es') es';
  reflects_clear (i : I) (es : list Entry.t) : reflects i es -> reflects (index_clear i) []
}.

#[global] Instance event_log_index : LogIndex EventIndex.t.
Proof. refine {| reflects i es := EventIndex.entries_cache i = es |}; done. Defined.

Lemma last_decision_subseteq {D} (dec : Entry.t -> string -> option D) es es' k :
  es ⊆ es' -> is_Some (last_decision dec es k) -> is_Some (last_decision dec es' k).
Proof.
  assert (Hiff : forall l, is_Some (last_decision dec l k) <->
                   exists e, e ∈ l /\ is_Some (dec e k)).
  { induction l as [|e l IH]; simpl; [split; [by intros []|set_solver]|].
    destruct (last_decision dec l k) as [d|] eqn:Hl.
    - split; [|by eauto]. intros _. destruct (proj1 IH) as (x & ? & ?); set_solver.
    - split; [intros; exists e; set_solver|]. intros (x & [->|Hx]%elem_of_cons & Hd); [done|].
      destruct (proj2 IH) as [? ?]; [by exists x|done]. }
  intros Hsub (e & He & Hd)%Hiff. apply Hiff. exists e. set_solver.
Qed.

(** Replaying a longer log over the index it extends is the same as replaying it
    from an empty index. *)
Lemma document_replay_extend `{PayloadFormat} es es' :
  es ⊆ es' ->
  foldl DocumentIndex.step (foldl DocumentIndex.step ∅ es) es' = foldl DocumentIndex.step ∅ es'.
Proof.
  intros Hsub. apply map_eq. intros k. rewrite !document_replay_lookup, lookup_empty.
  destruct (last_decision _ es' k) as [x|] eqn:Hes'; [done|].
  destruct (last_decision document_effect es k) eqn:Hes; [|done].
  destruct (last_decision_subseteq document_effect es es' k) as [? ?]; [done|by eexists|congruence].
Qed.

#[global] Instance document_log_index `{PayloadFormat} : LogIndex DocumentIndex.t.
Proof.
  refine {| reflects i es := DocumentIndex.index i = foldl DocumentIndex.step ∅ es |}.
  - intros i log es es' Hi Hsub. simpl. rewrite Hi. by apply document_replay_extend.
  - done.
Defined.

#[global] Instance noop_log_index : LogIndex NoopIndex.t.
Proof. refine {| reflects _ _ := True |}; done. Defined.

(** ** The invariant *)

Section invariant.
Context {I D : Type} `{LogIndex I} `{Datastore D} `{PayloadFormat} `{EntryFormat}.
Context (U : Entry.t -> Prop) (HU : Entry.coherent U) (HUc : Entry.causal U).

Record log_inv (self : t I D) : Prop := {
  inv_wf : wf (oplog self);
  inv_honest : forall e, stored (oplog self) e -> U e;
  inv_order : Log.sort_fn (oplog self) = Entry.no_zeroes (sort_fn self);
  inv_id : Log.id (oplog self) = id self
}.

Record store_inv (self : t I D) : Prop := {
  inv_log : log_inv self;
  inv_index : forall i, active_index self = Some i -> reflects i (Log.values (oplog self))
}.

Lemma honest_causal log : (forall e, stored log e -> U e) -> causal_log log.
Proof. intros Hh e p He Hp. apply HUc; auto. Qed.

Lemma new_inv store_id ident builder pk c sf refs :
  reflects (builder pk) [] -> store_inv (new store_id ident builder pk c sf refs).
Proof.
  intros Hb. split; [split|]; simpl; [apply empty_log_wf|done..|]. by intros i [= <-].
Qed.

Lemma values_grow (A B : Log.t) :
  wf A -> wf B -> causal_log A -> causal_log B ->
  (forall e, stored A e -> stored B e) -> Log.values A ⊆ Log.values B.
Proof.
  intros HA HB HcA HcB Hsub e He%(elem_of_values _ HA); [|done]. apply elem_of_values; auto.
Qed.

(** Replacing the log by one that extends it, then updating the index. *)
Lemma grow_log_inv self log :
  log_inv self -> wf log -> (forall e, stored log e -> U e) ->
  Log.sort_fn log = Log.sort_fn (oplog self) -> Log.id log = Log.id (oplog self) ->
  log_inv (set_oplog self log).
Proof. intros [Hwf Hh Ho Hi] ? ? Hs Hid. split; simpl; [done..| |]; congruence. Qed.

Lemma update_index_inv self log :
  store_inv self -> log_inv (set_oplog self log) ->
  (forall e, stored (oplog self) e -> stored log e) ->
  store_inv (update_index (set_oplog self log)).1.
Proof.
  intros [Hlog Hidx] Hlog' Hsub. unfold update_index. simpl.
  destruct (active_index self) as [i|] eqn:Hai; simpl.
  - split; [by destruct Hlog'; split|]. simpl. intros j [= <-].
    eapply reflects_update; [by apply Hidx|].
    apply values_grow; [apply Hlog|apply Hlog'|apply honest_causal, Hlog|
      apply honest_causal, Hlog'|done].
  - split; [done|]. simpl. rewrite Hai. done.
Qed.

Lemma set_cache_inv self d : store_inv self -> store_inv (set_cache self d).
Proof. intros [[] ?]. by split. Qed.

(** ** Adding entries *)

Lemma add_one_log acc e : (add_one acc e).1 = (Log.add_entry acc.1 e).1.
Proof. unfold add_one. by destruct (Log.add_entry acc.1 e). Qed.

Lemma add_counted_log log es : (add_counted log es).1 = add_entries log es.
Proof.
  unfold add_counted, add_entries. generalize 0. revert log.
  induction es as [|e es IH]; intros log n; simpl; [done|].
  rewrite (surjective_pairing (add_one (log, n) e)), IH. by rewrite add_one_log.
Qed.

Lemma add_one_count acc es :
  acc.2 <= (foldl add_one acc es).2 /\
  ((foldl add_one acc es).2 = acc.2 -> (foldl add_one acc es).1 = acc.1).
Proof.
  revert acc. induction es as [|e es IH]; intros acc; simpl; [done|].
  destruct (IH (add_one acc e)) as [Hle Heq]. unfold add_one, Log.add_entry in *.
  destruct (Log.has acc.1 (Entry.hash e)); simpl in *; [done|]. split; [lia|]. intros. lia.
Qed.

Lemma add_counted_zero log es : ~ 0 < (add_counted log es).2 -> add_entries log es = log.
Proof.
  intros Hz. rewrite <- add_counted_log. apply (add_one_count (log, 0)). simpl.
  unfold add_counted in Hz. lia.
Qed.

Lemma add_entries_id log es : Log.id (add_entries log es) = Log.id log.
Proof.
  unfold add_entries. revert log. induction es as [|e es IH]; intros log; simpl; [done|].
  rewrite IH. unfold Log.add_entry. by destruct (Log.has _ _).
Qed.

Lemma add_entries_stored log es e :
  wf log -> (forall x, stored log x -> U x) -> (forall x, x ∈ es -> U x) ->
  stored (add_entries log es) e <-> stored log e \/ e ∈ es.
Proof.
  intros Hwf Hlog Hes. unfold stored. rewrite add_entries_lookup; [naive_solver| |done].
  intros x y Hx Hy. apply HU; destruct Hx, Hy; auto.
Qed.

Lemma add_entries_inv self es :
  log_inv self -> (forall x, x ∈ es -> U x) -> log_inv (set_oplog self (add_entries (oplog self) es)).
Proof.
  intros Hinv Hes. apply grow_log_inv; [done|apply add_entries_wf, Hinv| | |].
  - intros e [He|He]%add_entries_stored; [by apply Hinv|by apply Hes|apply Hinv..|done].
  - apply add_entries_sort_fn.
  - apply add_entries_id.
Qed.

(** ** The operations keep the invariant *)

Lemma added_index_inv self es :
  store_inv self -> (forall x, x ∈ es -> U x) ->
  store_inv (update_index (set_oplog self (add_entries (oplog self) es))).1.
Proof.
  intros Hinv Hes. apply update_index_inv; [done|by apply add_entries_inv, Hes; apply Hinv|].
  intros e He. apply add_entries_stored; [apply Hinv..|done|by left].
Qed.

Lemma cached_values_inv self key bytes :
  store_inv self ->
  store_inv match ds_put (cache self) key bytes with
            | Ok d => set_cache self d
            | Err _ => self
            end.
Proof. intros Hinv. case_match; [by apply set_cache_inv|done]. Qed.

Lemma sync_inv can_append self heads :
  store_inv self -> (forall x, x ∈ heads -> U x) -> store_inv (sync can_append self heads).
Proof.
  intros Hinv Hheads. unfold sync.
  set (vs := List.filter (verify_head can_append self) heads).
  assert (Hvs : forall x, x ∈ vs -> U x).
  { intros x Hx. apply Hheads. unfold vs in Hx.
    by apply list_elem_of_In, filter_In, proj1, list_elem_of_In in Hx. }
  rewrite (surjective_pairing (add_counted (oplog self) vs)), add_counted_log.
  case_decide as Hc; cycle 1.
  { rewrite add_counted_zero by done. destruct Hinv as [[] ?]. by split. }
  case_match; [apply cached_values_inv|]; by apply added_index_inv.
Qed.

(** The state after the log and the index were updated, whatever the caching
    steps that follow do. *)
Lemma add_operation_state hash_entry self op self' r :
  add_operation hash_entry self op = Some (self', r) ->
  self' = self \/
  exists data log entry,
    marshal op = Some data /\
    Log.append hash_entry (oplog self) (base64_encode data) (Some (reference_count self))
      = Some (log, entry) /\
    exists d, self' = set_cache (update_index (set_oplog self log)).1 d.
Proof.
  unfold add_operation. destruct (marshal op) as [data|]; [|intros [= <- _]; by left].
  destruct (Log.append _ _ _ _) as [[log entry]|] eqn:Ha; [|done]. intros Hr. right.
  exists data, log, entry. split_and!; [done..|].
  set (s1 := (update_index (set_oplog self log)).1) in *.
  assert (Hs1 : s1 = set_cache s1 (cache s1)) by by destruct s1.
  repeat (case_match; simplify_eq/=); eauto.
Qed.

(** A successful write: what was appended, and the index after it. *)
Lemma add_operation_ok hash_entry self op self' entry :
  add_operation hash_entry self op = Some (self', Ok entry) ->
  exists data,
    marshal op = Some data /\
    Log.append hash_entry (oplog self) (base64_encode data) (Some (reference_count self))
      = Some (oplog self', entry) /\
    active_index self' =
      (fun i => StoreIndex.update_index i (oplog self') (Log.values (oplog self')))
        <$> active_index self.
Proof.
  unfold add_operation. destruct (marshal op) as [data|]; [|done].
  destruct (Log.append _ _ _ _) as [[log e]|] eqn:Ha; [|done].
  set (s1 := (update_index (set_oplog self log)).1).
  assert (Hs1 : oplog s1 = log /\ active_index s1 =
    (fun i => StoreIndex.update_index i log (Log.values log)) <$> active_index self).
  { unfold s1, update_index. simpl. by destruct (active_index self) eqn:E; rewrite ?E. }
  destruct Hs1 as [Hlog Hidx]. intros Hr. exists data.
  repeat (case_match; simplify_eq/=). by rewrite Hlog.
Qed.

Section write.
Context (hash_entry : Entry.t -> option Hash) (self : t I D) (data : string).
Context (log : Log.t) (entry : Entry.t) (Hinv : log_inv self).
Hypothesis Happend :
  Log.append hash_entry (oplog self) data (Some (reference_count self)) = Some (log, entry).
Hypothesis Hentry : U entry.
Hypothesis Hbound : in_u64 (Log.max_time (LamportClock.time (Log.clock (oplog self)))
                              (Log.heads (oplog self)) + 1).

Lemma write_time_gt x : stored (oplog self) x -> (Entry.time x < Entry.time entry)%N.
Proof.
  eapply append_time_gt; [apply Hinv|apply honest_causal, Hinv|exact Happend|exact Hbound].
Qed.

(** An honest new entry has a hash that is neither stored nor named yet. *)
Lemma write_fresh :
  Log.entries (oplog self) !! Entry.hash entry = None /\
  Entry.hash entry ∉ Log.nexts (oplog self).
Proof.
  split.
  - destruct (_ !! _) as [x|] eqn:Hx; [|done]. exfalso.
    assert (Hst : stored (oplog self) x) by (eapply keyed_stored; [apply Hinv|done]).
    assert (x = entry) as -> by (apply HU; [by apply Hinv|done|by apply (wf_keyed _ (inv_wf _ Hinv))]).
    apply write_time_gt in Hst. lia.
  - intros (e & He & Hin)%(wf_nexts _ (inv_wf _ Hinv)).
    pose proof (HUc _ _ (inv_honest _ Hinv _ He) Hentry Hin) as H1'.
    apply write_time_gt in He. lia.
Qed.

Lemma write_stored x : stored log x <-> x = entry \/ stored (oplog self) x.
Proof. eapply append_stored; [exact Happend|apply write_fresh]. Qed.

Lemma write_log_inv : log_inv (set_oplog self log).
Proof.
  destruct write_fresh as [Hf Hn]. apply grow_log_inv; [done| | | |].
  - eapply append_preserves_wf; [apply Hinv|apply honest_causal, Hinv|exact Happend|done..].
  - intros e [->|He]%write_stored; [done|by apply Hinv].
  - by destruct (append_fields _ _ _ _ _ _ Happend) as (_&_&_&_&_&_&_&_&_&_&->).
  - by destruct (append_fields _ _ _ _ _ _ Happend) as (_&_&_&_&_&_&_&->&_).
Qed.
End write.

Lemma add_operation_inv hash_entry self op self' r :
  store_inv self -> add_operation hash_entry self op = Some (self', r) ->
  (forall data log entry, marshal op = Some data ->
     Log.append hash_entry (oplog self) (base64_encode data) (Some (reference_count self))
       = Some (log, entry) -> U entry) ->
  in_u64 (Log.max_time (LamportClock.time (Log.clock (oplog self))) (Log.heads (oplog self)) + 1) ->
  store_inv self'.
Proof.
  intros Hinv Hadd HUe Hb.
  apply add_operation_state in Hadd as [->|(data & log & entry & Hm & Ha & d & ->)]; [done|].
  apply set_cache_inv, update_index_inv; [done| |].
  - eapply write_log_inv; [apply Hinv|exact Ha|by eapply HUe|done].
  - intros e He. eapply write_stored; [apply Hinv|exact Ha|by eapply HUe|done|by right].
Qed.

(** ** Merging single entries *)

Section join_one.
Context (self : t I D) (log : Log.t) (e : Entry.t).
Hypothesis Hwf : wf log.
Hypothesis Hhonest : forall x, stored log x -> U x.
Hypothesis Hid : Log.id log = id self.
Hypothesis He : U e.
Hypothesis Heid : Entry.id e = id self.
Hypothesis Hnew : Log.has log (Entry.hash e) = false.

Abbreviation temp := (create_temporary_log_with_entry self e).

Lemma temp_stored x : stored temp x <-> x = e.
Proof.
  unfold stored. simpl. unfold Log.insert_entries. simpl. rewrite lookup_insert_Some. split.
  - intros [[_ ?]|[_ Hx]]; [done|]. by rewrite lookup_empty in Hx.
  - intros ->. by left.
Qed.

Lemma temp_heads : Log.heads temp = [e].
Proof. done. Qed.

Lemma temp_nexts n : n ∈ Log.nexts temp <-> n ∈ Entry.next e.
Proof.
  change (Log.nexts temp) with (Log.insert_nexts ∅ [e]). rewrite elem_of_insert_nexts.
  clear. set_solver.
Qed.

Lemma temp_wf : wf temp.
Proof using HUc He.
  assert (Hself : Entry.hash e ∉ Entry.next e).
  { intros Hin. pose proof (HUc _ _ He He Hin). lia. }
  split.
  - intros h x. simpl. unfold Log.insert_entries. simpl. rewrite lookup_insert_Some.
    intros [[<- <-]|[_ Hx]]; [done|]. by rewrite lookup_empty in Hx.
  - intros n. setoid_rewrite temp_stored. rewrite temp_nexts. clear. naive_solver.
  - intros x. rewrite temp_stored, temp_heads, temp_nexts, list_elem_of_singleton.
    clear -Hself. naive_solver.
  - rewrite temp_heads. apply NoDup_singleton.
  - simpl. unfold Log.insert_entries. simpl. by rewrite map_size_insert, lookup_empty.
Qed.

Lemma join_one :
  exists J, Log.join log temp None = Some J /\ wf J /\
    (forall x, stored J x <-> stored log x \/ x = e) /\
    Log.id J = Log.id log /\ Log.sort_fn J = Log.sort_fn log.
Proof.
  eexists. split; [unfold Log.join; by rewrite decide_False by (intros Hn; apply Hn, Hid)|].
  assert (Hids : forall x, stored temp x -> Entry.id x = Log.id log).
  { intros x ->%temp_stored. congruence. }
  assert (Hcompat : compatible log temp).
  { intros h x y Hx Hy. apply HU.
    - apply Hhonest. eapply keyed_stored; [apply Hwf|done].
    - assert (stored temp y) as ->%temp_stored; [|done]. eapply keyed_stored; [apply temp_wf|done].
    - by rewrite (wf_keyed _ Hwf _ _ Hx), (wf_keyed _ temp_wf _ _ Hy). }
  split_and!; [apply wf_set_clock, merge_wf; auto using temp_wf| |done..].
  intros x. rewrite stored_set_clock, merge_stored by auto using temp_wf.
  split; (intros [?|Hx]; [by left|right]).
  - apply diff_in_B in Hx as [Hx _]; [by apply temp_stored|apply temp_wf|done].
  - rewrite Hx. apply diff_head; [apply temp_wf|done| |by apply has_false].
    rewrite temp_heads. by apply list_elem_of_singleton.
Qed.
End join_one.

(** What [load_more_from] keeps true of the log while it merges entries. *)
Record extends (self : t I D) (es : list Entry.t) (acc : Log.t * nat) : Prop := {
  extends_wf : wf acc.1;
  extends_stored : forall x, stored acc.1 x <-> stored (oplog self) x \/ x ∈ es;
  extends_id : Log.id acc.1 = Log.id (oplog self);
  extends_sort : Log.sort_fn acc.1 = Log.sort_fn (oplog self);
  extends_none : acc.2 = 0 -> acc.1 = oplog self
}.

Lemma join_entry_extends self es acc e :
  log_inv self -> extends self es acc -> (forall x, x ∈ es ++ [e] -> U x) -> Entry.id e = id self ->
  extends self (es ++ [e]) (join_entry self acc e).
Proof.
  intros Hinv [Hwf Hst Hid Hsf Hnone] HUes Heid. destruct acc as [log n]; simpl in *.
  assert (Hhon : forall x, stored log x -> U x).
  { intros x [Hx|Hx]%Hst; [by apply Hinv|]. apply HUes. set_solver +Hx. }
  assert (HUe : U e) by (apply HUes; set_solver +).
  destruct (Log.has log (Entry.hash e)) eqn:Hhas.
  - split; simpl; [done| |done..]. intros x. rewrite Hst, elem_of_app, list_elem_of_singleton.
    split; [tauto|]. intros [?|[?| ->]]; [tauto..|]. apply Hst.
    unfold Log.has in Hhas. apply bool_decide_eq_true in Hhas as [y Hy].
    assert (y = e) as <-; [|by eapply keyed_stored; [apply Hwf|]].
    apply HU; [apply Hhon; by eapply keyed_stored; [apply Hwf|]|done|by apply (wf_keyed _ Hwf)].
  - destruct (join_one self log e) as (J & -> & HJ & HJs & HJid & HJsf); auto.
    { rewrite Hid. apply Hinv. }
    split; simpl; [done| |congruence..|done]. intros x.
    rewrite HJs, Hst, elem_of_app, list_elem_of_singleton. tauto.
Qed.

Lemma load_more_extends self es :
  log_inv self -> (forall x, x ∈ es -> U x /\ Entry.id x = id self) ->
  extends self es (foldl (join_entry self) (oplog self, 0) es).
Proof.
  intros Hinv. induction es as [|e es IH] using rev_ind; intros Hes; simpl.
  - split; simpl; [apply Hinv| |done..]. intros x. set_solver +.
  - rewrite foldl_snoc. apply join_entry_extends; [done| | |].
    + apply IH. intros x Hx. apply Hes. set_solver +Hx.
    + intros x Hx. by apply Hes.
    + apply Hes. set_solver +.
Qed.

Lemma load_more_from_inv self es :
  store_inv self -> (forall x, x ∈ es -> U x /\ Entry.id x = id self) ->
  store_inv (load_more_from self es).1.
Proof.
  intros Hinv Hes. pose proof (load_more_extends self es (inv_log _ Hinv) Hes) as Hext.
  unfold load_more_from. destruct (foldl _ _ _) as [log n]. destruct Hext as [Hwf Hst Hid Hsf Hn].
  simpl in *. destruct (decide (0 < n)) as [Hp|Hp]; simpl.
  - apply update_index_inv; [done| |intros; apply Hst; by left].
    apply grow_log_inv; [apply Hinv|done| |done..].
    intros x [Hx|Hx]%Hst; [by apply Hinv|by apply Hes].
  - rewrite Hn by lia. destruct Hinv as [[] ?]. by split.
Qed.

(** ** Loading and resetting *)

Lemma sync_clock_inv self log :
  log_inv (set_oplog self log) -> log_inv (set_oplog self (Log.sync_clock_from_heads log)).
Proof. intros [Hwf Hh Ho Hi]. split; simpl in *; [by apply wf_set_clock|done..]. Qed.

Lemma load_inv self :
  store_inv self -> (forall x, x ∈ cached_entries (cache self) -> U x) ->
  (forall key hs x, load_heads_from_cache_key (cache self) key [] = Ok hs -> x ∈ hs -> U x) ->
  store_inv (load self).1.
Proof.
  intros Hinv Hall Hheads. unfold load.
  assert (Happ : forall key hs, load_heads_from_cache_key (cache self) key hs =
    let? hs' := load_heads_from_cache_key (cache self) key [] in Ok (hs ++ hs')).
  { intros key hs. unfold load_heads_from_cache_key.
    repeat case_match; simpl; rewrite ?app_nil_r; done. }
  destruct (load_heads_from_cache_key (cache self) "_localHeads" []) as [local|] eqn:Hl; [|done].
  simpl. rewrite Happ.
  destruct (load_heads_from_cache_key (cache self) "_remoteHeads" []) as [remote|] eqn:Hr; [|done].
  simpl. case_decide; [done|]. simpl.
  set (es := if decide _ then _ else _).
  assert (Hes : forall x, x ∈ es -> U x).
  { unfold es. intros x. destruct (decide (cached_entries (cache self) = [])); [|by apply Hall].
    intros [Hx|Hx]%elem_of_app; [by apply (Hheads _ _ _ Hl)|by apply (Hheads _ _ _ Hr)]. }
  rewrite add_counted_log. apply update_index_inv; [done| |].
  - by apply sync_clock_inv, add_entries_inv, Hes; apply Hinv.
  - intros e He. apply (add_entries_stored (oplog self) es e); [apply Hinv..|done|by left].
Qed.

Lemma reset_inv self : store_inv self -> store_inv (reset self).
Proof.
  intros [Hlog Hidx]. split; [split|]; simpl; [apply empty_log_wf|done..|].
  intros i Hi. apply fmap_Some in Hi as (j & Hj & ->). eapply reflects_clear. by apply Hidx.
Qed.

(** ** Reachable stores *)

(** One call of a store operation, with entries that are honest. *)
Inductive step (self : t I D) : t I D -> Prop :=
| step_write hash_entry op self' r :
    add_operation hash_entry self op = Some (self', r) ->
    (forall data log entry, marshal op = Some data ->
       Log.append hash_entry (oplog self) (base64_encode data) (Some (reference_count self))
         = Some (log, entry) -> U entry) ->
    in_u64 (Log.max_time (LamportClock.time (Log.clock (oplog self))) (Log.heads (oplog self)) + 1) ->
    step self self'
| step_sync can_append heads :
    (forall x, x ∈ heads -> U x) -> step self (sync can_append self heads)
| step_load_more es :
    (forall x, x ∈ es -> U x /\ Entry.id x = id self) -> step self (load_more_from self es).1
| step_load :
    (forall x, x ∈ cached_entries (cache self) -> U x) ->
    (forall key hs x, load_heads_from_cache_key (cache self) key [] = Ok hs -> x ∈ hs -> U x) ->
    step self (load self).1
| step_reset : step self (reset self).

Lemma step_inv self self' : store_inv self -> step self self' -> store_inv self'.
Proof.
  intros Hinv []; eauto using add_operation_inv, sync_inv, load_more_from_inv, load_inv, reset_inv.
Qed.

Lemma steps_inv self self' : store_inv self -> rtc step self self' -> store_inv self'.
Proof. intros Hinv Hs. induction Hs; eauto using step_inv. Qed.

(** ** Persistence *)

(** What the serializer promises: what was written is read back. *)
Definition format_round_trip : Prop :=
  forall es bytes, serialize_entries es = Some bytes -> deserialize_entries bytes = Some es.

Context `{!DatastoreLaws D} (Hformat : format_round_trip).

Lemma add_operation_cached hash_entry self op self' entry :
  add_operation hash_entry self op = Some (self', Ok entry) ->
  (exists bytes, serialize_entries (Log.get_heads (oplog self')) = Some bytes /\
     ds_get (cache self') "_localHeads" = Ok (Some bytes)) /\
  (exists bytes, serialize_entries (Log.values (oplog self')) = Some bytes /\
     ds_get (cache self') "_allEntries" = Ok (Some bytes)) /\
  ds_get (cache self') "_remoteHeads" = ds_get (cache self) "_remoteHeads".
Proof.
  unfold add_operation. destruct (marshal op); [|done].
  destruct (Log.append _ _ _ _) as [[log e]|]; [|done].
  set (s1 := (update_index (set_oplog self log)).1).
  assert (Hc : cache s1 = cache self).
  { unfold s1, update_index. simpl. by destruct (active_index self). }
  destruct (serialize_entries (Log.get_heads (oplog s1))) as [hb|] eqn:Hhb; [|done].
  destruct (ds_put (cache s1) "_localHeads" hb) as [d1|] eqn:Hd1; [|done]. simpl.
  destruct (serialize_entries (Log.values (oplog s1))) as [ab|] eqn:Hab; [|done].
  destruct (ds_put d1 "_allEntries" ab) as [d2|] eqn:Hd2; [|done]. intros [= <- <-]. simpl.
  split_and!.
  - exists hb. split; [done|]. rewrite (ds_put_other _ _ _ _ _ Hd2) by done.
    by apply (ds_put_same _ _ _ _ Hd1).
  - exists ab. split; [done|]. by apply (ds_put_same _ _ _ _ Hd2).
  - rewrite (ds_put_other _ _ _ _ _ Hd2), (ds_put_other _ _ _ _ _ Hd1) by done. by rewrite Hc.
Qed.

(** A store opened on a cache that holds the values of [log] ends up with the
    entries of [log]. *)
Lemma load_restores (log : Log.t) (fresh : t I D) bytes hs :
  wf log -> (forall e, stored log e -> U e) ->
  serialize_entries (Log.values log) = Some bytes ->
  ds_get (cache fresh) "_allEntries" = Ok (Some bytes) ->
  (let? l := load_heads_from_cache_key (cache fresh) "_localHeads" [] in
   load_heads_from_cache_key (cache fresh) "_remoteHeads" l) = Ok hs ->
  Log.values log <> [] ->
  log_inv fresh -> (forall e, ~ stored (oplog fresh) e) ->
  (load fresh).2 = Ok tt /\
  Log.entries (oplog (load fresh).1) = Log.entries log /\
  wf (oplog (load fresh).1) /\
  Log.sort_fn (oplog (load fresh).1) = Log.sort_fn (oplog fresh).
Proof.
  intros Hwf Hhon Hser Hget Hheads Hne Hinv Hempty.
  assert (Hce : cached_entries (cache fresh) = Log.values log).
  { unfold cached_entries. rewrite Hget. by rewrite (Hformat _ _ Hser). }
  unfold load. rewrite Hheads, Hce. rewrite decide_False by (intros [_ ?]; by apply Hne).
  rewrite decide_False by done.
  rewrite add_counted_log.
  set (log' := Log.sync_clock_from_heads (add_entries (oplog fresh) (Log.values log))).
  assert (Hoplog : oplog (update_index (set_oplog fresh log')).1 = log').
  { unfold update_index. by destruct (active_index _). }
  simpl. rewrite Hoplog. split_and!; [done| | |].
  - apply map_eq. intros h. apply option_eq. intros x.
    change (Log.entries log') with (Log.entries (add_entries (oplog fresh) (Log.values log))).
    rewrite add_entries_lookup; [|intros a b [Ha|Ha] [Hb|Hb]; try by apply Hempty in Ha || apply Hempty in Hb|apply Hinv].
    2:{ apply HU; apply Hhon; apply (elem_of_values _ Hwf); auto using honest_causal. }
    rewrite (elem_of_values _ Hwf) by by apply honest_causal. split.
    + intros [Hx|[Hx <-]]; [|done]. exfalso. eapply Hempty, keyed_stored; [apply Hinv|exact Hx].
    + intros Hx. right. split; [by eapply keyed_stored; [apply Hwf|]|by apply (wf_keyed _ Hwf)].
  - apply wf_set_clock, add_entries_wf, Hinv.
  - apply add_entries_sort_fn.
Qed.
End invariant.
