(* ===== verification/Codec.v ===== *)
(** * Concrete codecs

    Instances of the codec parameters, used where a theorem that assumes a codec
    is applied at a concrete input.  A value is written as the bits of its
    [Countable] encoding. *)

From S2P Require Import Prelude LamportClock Entry Log LogTraverse LogCrdt LogWrite LogJoin.
From S2P Require Import StoreIndex EventLogStore BaseStore BaseStoreInv.

Module Codec.
Fixpoint bits (p : positive) : string :=
  match p with
  | xH => ""
  | xO p => String.String "0" (bits p)
  | xI p => String.String "1" (bits p)
  end.

Fixpoint of_bits (s : string) : option positive :=
  match s with
  | String.EmptyString => Some xH
  | String.String "0" s => xO <$> of_bits s
  | String.String "1" s => xI <$> of_bits s
  | _ => None
  end.

Lemma bits_round_trip p : of_bits (bits p) = Some p.
Proof. induction p as [p IH|p IH|]; simpl; rewrite ?IH; done. Qed.

Definition write `{Countable A} (x : A) : string := bits (encode x).
Definition read `{Countable A} (s : string) : option A := of_bits s ≫= decode.

Lemma read_write `{Countable A} (x : A) : read (write x) = Some x.
Proof. unfold read, write. rewrite bits_round_trip. simpl. apply decode_encode. Qed.

#[global] Instance clock_countable : Countable LamportClock.t.
Proof.
  refine (inj_countable' (fun c => (LamportClock.id c, LamportClock.time c))
            (fun '(i, n) => LamportClock.mk i n) _). by intros [].
Defined.

#[global] Instance signatures_countable : Countable Signatures.t.
Proof.
  refine (inj_countable' (fun s => (Signatures.id s, Signatures.pub_key s))
            (fun '(i, p) => Signatures.new i p) _). by intros [].
Defined.

#[global] Instance identity_countable : Countable Identity.t.
Proof.
  refine (inj_countable' (fun i => (Identity.id i, Identity.pub_key i, Identity.signatures i))
            (fun '(i, p, s) => Identity.new i p s) _). by intros [].
Defined.

#[global] Instance entry_countable : Countable Entry.t.
Proof.
  refine (inj_countable'
    (fun e => (Entry.hash e, Entry.id e, Entry.payload e, Entry.next e, Entry.v e, Entry.clock e,
               Entry.identity e))
    (fun '(h, i, p, n, w, c, d) => Entry.mk h i p n w c d) _). by intros [].
Defined.

#[global] Instance entry_format : EntryFormat := {
  serialize_entries es := Some (write es);
  deserialize_entries := read
}.

Lemma entry_format_round_trip : format_round_trip.
Proof. intros es bytes [= <-]. apply read_write. Qed.

Definition op_fields (o : Operation.t) :=
  (Operation.key o, Operation.op o, Operation.value o,
   (fun d => (OpDoc.key d, OpDoc.value d)) <$> Operation.docs o).

Definition of_fields '(k, o, v, ds) : Operation.t :=
  Operation.mk k o v ((fun kv => OpDoc.new kv.1 kv.2) <$> ds) None.

#[global] Instance payload_format : PayloadFormat := {
  base64_encode b := b;
  base64_decode b := Some b;
  marshal o := Some (write (op_fields o));
  unmarshal b := of_fields <$> read b
}.

#[global] Instance payload_laws : PayloadLaws.
Proof.
  split; [done|]. intros [k o v ds e] bytes [= <-]. simpl. rewrite read_write. simpl.
  unfold of_fields, op_fields. simpl. f_equal. f_equal. rewrite <- list_fmap_compose.
  rewrite <- (list_fmap_id ds) at 2. apply list_fmap_ext. by intros _ [] _.
Qed.
End Codec.
