(* ===== verification/Scenario.v ===== *)
(** * Two concrete replicas

    Alice and Bob write to the same log.  The replicas are built with the
    operations of the model and a concrete hash function, and satisfy the
    hypotheses of the theorems about logs and stores. *)

From S2P Require Import Prelude LamportClock Entry Log LogTraverse LogCrdt LogWrite LogJoin.
From S2P Require Import BaseStore BaseStoreInv.

Module Scenario.
(** A hash function that tells the entries of the scenario apart. *)
Definition hash_entry (e : Entry.t) : option Hash :=
  Some (String.append (LamportClock.id (Entry.clock e)) (Entry.payload e)).

Definition alice : Identity.t := Identity.new "alice" "A" (Signatures.new "s" "p").
Definition bob : Identity.t := Identity.new "bob" "B" (Signatures.new "s" "p").

Definition start (ident : Identity.t) : Log.t := BaseStore.empty_log "L" ident default_sort_fn.

Definition write (log : Log.t) (data : string) : Log.t * Entry.t :=
  default (log, Entry.empty) (Log.append hash_entry log data None).

Definition alice1 : Log.t := (write (start alice) "one").1.
Definition alice2 : Log.t := (write alice1 "two").1.
Definition bob1 : Log.t := (write (start bob) "uno").1.
Definition joined : Log.t := default alice2 (Log.join alice2 bob1 None).
Definition carol1 : Log.t := (write joined "tres").1.

Lemma start_replica ident : replica (start ident).
Proof. by apply empty_replica. Qed.

Lemma write_replica log data :
  replica log ->
  bool_decide (Log.entries log !! Entry.hash (write log data).2 = None) = true ->
  bool_decide (Entry.hash (write log data).2 ∉ Log.nexts log) = true ->
  bool_decide (Log.max_time (LamportClock.time (Log.clock log)) (Log.heads log) + 1 < u64_modulus)%N
    = true ->
  replica (write log data).1.
Proof.
  intros Hr Hf%bool_decide_eq_true Hn%bool_decide_eq_true Hb%bool_decide_eq_true.
  eapply (append_replica hash_entry log data None _ (write log data).2); done.
Qed.

Lemma alice1_replica : replica alice1.
Proof. apply write_replica; [apply start_replica|vm_compute; reflexivity..]. Qed.

Lemma alice2_replica : replica alice2.
Proof. apply write_replica; [apply alice1_replica|vm_compute; reflexivity..]. Qed.

Lemma bob1_replica : replica bob1.
Proof. apply write_replica; [apply start_replica|vm_compute; reflexivity..]. Qed.

Lemma alice2_bob1 : compatible alice2 bob1.
Proof. apply compatibleb_compatible. vm_compute. reflexivity. Qed.

Lemma alice1_alice2 : compatible alice1 alice2.
Proof. apply compatibleb_compatible. vm_compute. reflexivity. Qed.

Lemma alice1_bob1 : compatible alice1 bob1.
Proof. apply compatibleb_compatible. vm_compute. reflexivity. Qed.

Lemma joined_eq : Log.join alice2 bob1 None = Some joined.
Proof. reflexivity. Qed.

Lemma joined_replica : replica joined.
Proof. eapply join_replica; [apply alice2_replica|apply bob1_replica|apply alice2_bob1|done]. Qed.
End Scenario.
