(* ===== verification/Lock.v ===== *)
(** * The lock manager: src/sql/lock.rs

    Lock objects, modes and the conflict tables; the state under the manager's
    mutex; the critical sections of every operation.  A blocking acquire is a
    loop of critical sections with a wait in between: [acquire_check] is one
    pass, [acquire_timeout] is what happens when the deadline has passed. *)

From S2P Require Import Prelude.
From Stdlib Require DecimalString.

(** Decimal rendering of the integers in messages. *)
Definition show_N (n : N) : string := DecimalString.NilZero.string_of_uint (N.to_uint n).
Definition show_Z (z : Z) : string := DecimalString.NilZero.string_of_int (Z.to_int z).

Abbreviation SessionId := N.

Inductive LockObject :=
| Table (oid : N)
| Row (oid : N) (rid : string)
| Advisory (key : Z).

#[global] Instance lock_object_eq_dec : EqDecision LockObject.
Proof. solve_decision. Defined.

#[global] Instance lock_object_countable : Countable LockObject.
Proof.
  refine (inj_countable'
    (fun o => match o with
              | Table n => inl n
              | Row n r => inr (inl (n, r))
              | Advisory k => inr (inr k)
              end)
    (fun x => match x with
              | inl n => Table n
              | inr (inl (n, r)) => Row n r
              | inr (inr k) => Advisory k
              end) _).
  by intros [].
Defined.

Module Object.
Definition kind (self : LockObject) : string :=
  match self with
  | Table _ => "relation"
  | Row _ _ => "tuple"
  | Advisory _ => "advisory"
  end.

Definition describe (self : LockObject) : string :=
  match self with
  | Table oid => "relation " +:+ show_N oid
  | Row oid rid => "row (" +:+ show_N oid +:+ "," +:+ rid +:+ ")"
  | Advisory key => "advisory " +:+ show_Z key
  end.
End Object.

Inductive LockMode :=
| AccessShare
| RowShare
| RowExclusive
| ShareUpdateExclusive
| Share
| ShareRowExclusive
| Exclusive
| AccessExclusive
| ForKeyShare
| ForShare
| ForNoKeyUpdate
| ForUpdate
| AdvisoryShared
| AdvisoryExclusive.

#[global] Instance lock_mode_eq_dec : EqDecision LockMode.
Proof. solve_decision. Defined.

Module Mode.
Definition table_index (self : LockMode) : option nat :=
  match self with
  | AccessShare => Some 0
  | RowShare => Some 1
  | RowExclusive => Some 2
  | ShareUpdateExclusive => Some 3
  | Share => Some 4
  | ShareRowExclusive => Some 5
  | Exclusive => Some 6
  | AccessExclusive => Some 7
  | _ => None
  end.

Definition row_index (self : LockMode) : option nat :=
  match self with
  | ForKeyShare => Some 0
  | ForShare => Some 1
  | ForNoKeyUpdate => Some 2
  | ForUpdate => Some 3
  | _ => None
  end.

Definition pg_name (self : LockMode) : string :=
  match self with
  | AccessShare => "AccessShareLock"
  | RowShare => "RowShareLock"
  | RowExclusive => "RowExclusiveLock"
  | ShareUpdateExclusive => "ShareUpdateExclusiveLock"
  | Share => "ShareLock"
  | ShareRowExclusive => "ShareRowExclusiveLock"
  | Exclusive => "ExclusiveLock"
  | AccessExclusive => "AccessExclusiveLock"
  | ForKeyShare => "KeyShareLock"
  | ForShare => "ShareLock"
  | ForNoKeyUpdate => "NoKeyUpdateLock"
  | ForUpdate => "ExclusiveLock"
  | AdvisoryShared | AdvisoryExclusive => "AdvisoryLock"
  end.

(** A mask with the given bits set, [(1 << b0) | (1 << b1) | ...]. *)
Definition mask (bits : list N) : N := foldr (fun b m => N.lor (N.shiftl 1 b) m) 0%N bits.

Definition TABLE : list N :=
  [mask [7]; mask [6; 7]; mask [4; 5; 6; 7]; mask [3; 4; 5; 6; 7]; mask [2; 3; 5; 6; 7];
   mask [2; 3; 4; 5; 6; 7]; mask [1; 2; 3; 4; 5; 6; 7]; 255]%N.

Definition ROW : list N := [mask [3]; mask [2; 3]; mask [1; 2; 3]; mask [0; 1; 2; 3]]%N.

(** [(TABLE[a] >> b) & 1 == 1] *)
Definition bit_set (table : list N) (a b : nat) : bool :=
  bool_decide (N.land (N.shiftr (default 0%N (table !! a)) (N.of_nat b)) 1 = 1%N).

Definition conflicts (self other : LockMode) : bool :=
  match table_index self, table_index other with
  | Some a, Some b => bit_set TABLE a b
  | _, _ =>
      match row_index self, row_index other with
      | Some a, Some b => bit_set ROW a b
      | _, _ => bool_decide (self = AdvisoryExclusive) || bool_decide (other = AdvisoryExclusive)
      end
  end.
End Mode.

Inductive LockScope := Transaction | Session.

#[global] Instance lock_scope_eq_dec : EqDecision LockScope.
Proof. solve_decision. Defined.

Inductive WaitPolicy := Wait | NoWait | SkipLocked.

Inductive Acquired := Granted | Skipped.

Inductive LockError :=
| LockNotAvailable (detail : string)
| DeadlockDetected (detail : string).

Module Holding.
Record t := mk { holder : SessionId; mode : LockMode; scope : LockScope }.

#[global] Instance holding_eq_dec : EqDecision t.
Proof. solve_decision. Defined.
End Holding.

(** [out.sort_unstable(); out.dedup()] *)
Fixpoint dedup_adjacent (l : list N) : list N :=
  match l with
  | [] => []
  | x :: l =>
      match dedup_adjacent l with
      | [] => [x]
      | y :: l' => if decide (x = y) then y :: l' else x :: y :: l'
      end
  end.

Module Inner.
Record t := mk {
  granted : gmap LockObject (list Holding.t);
  waiting : gmap SessionId (LockObject * LockMode)
}.

Definition new : t := mk ∅ ∅.

Definition grantable (self : t) (object : LockObject) (mode : LockMode) (holder : SessionId)
    : bool :=
  match granted self !! object with
  | None => true
  | Some holders =>
      forallb (fun h => bool_decide (Holding.holder h = holder) ||
                        negb (Mode.conflicts mode (Holding.mode h))) holders
  end.

Definition grant (self : t) (object : LockObject) (mode : LockMode) (holder : SessionId)
    (scope : LockScope) : t :=
  mk (<[object := default [] (granted self !! object) ++ [Holding.mk holder mode scope]]>
        (granted self)) (waiting self).

Definition blockers (self : t) (who : SessionId) : list SessionId :=
  match waiting self !! who with
  | None => []
  | Some (object, mode) =>
      match granted self !! object with
      | None => []
      | Some holders =>
          dedup_adjacent (sort_by N.compare
            (Holding.holder <$>
               filter (fun h => Holding.holder h <> who /\ Mode.conflicts mode (Holding.mode h) = true)
                 holders))
      end
  end.

(** The search of [deadlocked]; the head of [stack] is the top of the vector,
    [None] is running out of fuel. *)
Fixpoint search (fuel : nat) (self : t) (start : SessionId) (visited : gset SessionId)
    (stack : list SessionId) : option bool :=
  match stack with
  | [] => Some false
  | node :: stack =>
      if decide (node = start) then Some true
      else
        match fuel with
        | O => None
        | S fuel =>
            if decide (node ∈ visited) then search fuel self start visited stack
            else search fuel self start ({[node]} ∪ visited)
                   (reverse (blockers self node) ++ stack)
        end
  end.

(** Every pop removes one session, and the blockers of a session are pushed
    once. *)
Definition search_fuel (self : t) (start : SessionId) : nat :=
  length (blockers self start) +
  sum_list ((fun who => length (blockers self who)) <$> (map_to_list (waiting self)).*1).

Definition deadlocked (self : t) (start : SessionId) : bool :=
  default false (search (search_fuel self start) self start ∅ (reverse (blockers self start))).

Definition remove_waiting (self : t) (who : SessionId) : t :=
  mk (granted self) (delete who (waiting self)).

Definition insert_waiting (self : t) (who : SessionId) (object : LockObject) (mode : LockMode) : t :=
  mk (granted self) (<[who := (object, mode)]> (waiting self)).

Definition release_where (self : t) (pred : Holding.t -> bool) : t :=
  mk (omap (fun holders =>
              match filter (fun h => pred h = false) holders with
              | [] => None
              | hs => Some hs
              end) (granted self)) (waiting self).
End Inner.

Module LockRecord.
Record t := mk {
  locktype : string;
  object : string;
  mode : string;
  holder : SessionId;
  granted : bool
}.
End LockRecord.

Module LockManager.
Record t := mk { inner : Inner.t; next_session : N }.

Definition new : t := mk Inner.new 1.

Definition new_session (self : t) : t * SessionId :=
  (mk (inner self) (wrap_u64 (next_session self + 1)), next_session self).

Definition with_inner (self : t) (i : Inner.t) : t := mk i (next_session self).

Definition try_acquire (self : t) (holder : SessionId) (object : LockObject) (mode : LockMode)
    (scope : LockScope) : t * bool :=
  if Inner.grantable (inner self) object mode holder
  then (with_inner self (Inner.grant (inner self) object mode holder scope), true)
  else (self, false).

Definition is_conflicting (self : t) (holder : SessionId) (object : LockObject) (mode : LockMode)
    : bool :=
  negb (Inner.grantable (inner self) object mode holder).

(** One pass of the loop of [acquire]: [None] goes to sleep until a release. *)
Definition acquire_check (self : t) (holder : SessionId) (object : LockObject) (mode : LockMode)
    (scope : LockScope) (wait : WaitPolicy) : t * option (result LockError Acquired) :=
  let i := inner self in
  if Inner.grantable i object mode holder then
    (with_inner self (Inner.remove_waiting (Inner.grant i object mode holder scope) holder),
     Some (Ok Granted))
  else
    match wait with
    | NoWait =>
        (with_inner self (Inner.remove_waiting i holder),
         Some (Err (LockNotAvailable (Object.describe object))))
    | SkipLocked => (with_inner self (Inner.remove_waiting i holder), Some (Ok Skipped))
    | Wait =>
        let i := Inner.insert_waiting i holder object mode in
        if Inner.deadlocked i holder then
          (with_inner self (Inner.remove_waiting i holder),
           Some (Err (DeadlockDetected
             ("process " +:+ show_N holder +:+ " waits for " +:+ Object.describe object +:+
              "; a cycle was found"))))
        else (with_inner self i, None)
    end.

(** The deadline of a blocked [acquire] has passed. *)
Definition acquire_timeout (self : t) (holder : SessionId) (object : LockObject)
    : t * result LockError Acquired :=
  (with_inner self (Inner.remove_waiting (inner self) holder),
   Err (LockNotAvailable ("lock timeout on " +:+ Object.describe object))).

Fixpoint remove_first (pred : Holding.t -> bool) (l : list Holding.t) : option (list Holding.t) :=
  match l with
  | [] => None
  | h :: l => if pred h then Some l else cons h <$> remove_first pred l
  end.

Definition release_one (self : t) (holder : SessionId) (object : LockObject) (mode : LockMode)
    : t * bool :=
  let i := inner self in
  match Inner.granted i !! object with
  | None => (self, false)
  | Some holders =>
      let '(holders', removed) :=
        match remove_first (fun h => bool_decide (Holding.holder h = holder) &&
                                     bool_decide (Holding.mode h = mode)) holders with
        | Some hs => (hs, true)
        | None => (holders, false)
        end in
      (with_inner self
         (Inner.mk (if decide (holders' = []) then delete object (Inner.granted i)
                    else <[object := holders']> (Inner.granted i)) (Inner.waiting i)), removed)
  end.

Definition release_transaction (self : t) (holder : SessionId) : t :=
  with_inner self
    (Inner.remove_waiting
       (Inner.release_where (inner self)
          (fun h => bool_decide (Holding.holder h = holder) &&
                    bool_decide (Holding.scope h = Transaction))) holder).

Definition release_session_advisory (self : t) (holder : SessionId) : t :=
  with_inner self
    (Inner.release_where (inner self)
       (fun h => bool_decide (Holding.holder h = holder) &&
                 bool_decide (Holding.scope h = Session))).

Definition release_session (self : t) (holder : SessionId) : t :=
  with_inner self
    (Inner.remove_waiting
       (Inner.release_where (inner self) (fun h => bool_decide (Holding.holder h = holder))) holder).

Definition snapshot (self : t) : list LockRecord.t :=
  (map_to_list (Inner.granted (inner self)) ≫= fun '(object, holders) =>
     (fun h => LockRecord.mk (Object.kind object) (Object.describe object)
                 (Mode.pg_name (Holding.mode h)) (Holding.holder h) true) <$> holders) ++
  ((fun '(holder, (object, mode)) =>
      LockRecord.mk (Object.kind object) (Object.describe object) (Mode.pg_name mode) holder false)
     <$> map_to_list (Inner.waiting (inner self))).
End LockManager.
