(* ===== verification/LockInv.v ===== *)
(** * Correctness of the lock manager

    The deadlock search decides whether a session waits for itself; in every
    reachable state conflicting locks are held by one session only and the
    wait-for relation has no cycle. *)

From S2P Require Import Prelude Lock.

Implicit Types (i : Inner.t) (o : LockObject) (m : LockMode) (h : Holding.t) (s : SessionId).

(** ** Blockers *)

Lemma elem_of_dedup_adjacent x l : x ∈ dedup_adjacent l <-> x ∈ l.
Proof.
  induction l as [|y l IH]; simpl; [done|].
  destruct (dedup_adjacent l) as [|z l']; [|case_decide]; set_solver.
Qed.

(** [a] waits for [b]. *)
Definition waits_for i (a b : SessionId) : Prop := b ∈ Inner.blockers i a.

Lemma waits_for_spec i a b :
  waits_for i a b <->
  exists o m hs h, Inner.waiting i !! a = Some (o, m) /\ Inner.granted i !! o = Some hs /\
    h ∈ hs /\ Holding.holder h = b /\ b <> a /\ Mode.conflicts m (Holding.mode h) = true.
Proof.
  unfold waits_for, Inner.blockers. destruct (Inner.waiting i !! a) as [[o m]|]; [|set_solver].
  destruct (Inner.granted i !! o) as [hs|] eqn:Hg; [|set_solver].
  rewrite elem_of_dedup_adjacent, sort_by_perm, list_elem_of_fmap.
  setoid_rewrite list_elem_of_filter. naive_solver.
Qed.

Lemma waits_for_waiting i a b : waits_for i a b -> is_Some (Inner.waiting i !! a).
Proof. intros (o & m & _ & _ & Hw & _)%waits_for_spec. eauto. Qed.

(** ** The deadlock search *)

Section search.
Context i (start : SessionId).

(** The sessions whose blockers can still be pushed, with their number. *)
Definition pending (visited : gset SessionId) : nat :=
  sum_list ((fun who => length (Inner.blockers i who)) <$>
              filter (fun who => who ∉ visited) (map_to_list (Inner.waiting i)).*1).

Lemma pending_visit node visited :
  node ∉ visited ->
  pending ({[node]} ∪ visited) + length (Inner.blockers i node) <= pending visited.
Proof.
  intros Hn. unfold pending. set (f := fun who => length (Inner.blockers i who)).
  assert (Hle : forall l, sum_list (f <$> filter (fun who => who ∉ {[node]} ∪ visited) l) <=
                          sum_list (f <$> filter (fun who => who ∉ visited) l)).
  { intros l. apply sum_filter_le. set_solver. }
  destruct (Inner.waiting i !! node) as [x|] eqn:Hw.
  2:{ unfold Inner.blockers. rewrite Hw. simpl. rewrite Nat.add_0_r. apply Hle. }
  assert (Hin : node ∈ (map_to_list (Inner.waiting i)).*1).
  { apply list_elem_of_fmap. exists (node, x). split; [done|]. by apply elem_of_map_to_list. }
  induction (map_to_list (Inner.waiting i)).*1 as [|a l IH]; [set_solver|].
  rewrite !filter_cons. destruct (decide (a = node)) as [->|Hne].
  - rewrite (decide_True (P := node ∉ visited)) by done.
    rewrite decide_False by set_solver. csimpl. specialize (Hle l). change (length (Inner.blockers i node)) with (f node). lia.
  - apply elem_of_cons in Hin as [->|Hin]; [done|]. specialize (IH Hin).
    destruct (decide (a ∈ visited)).
    + rewrite !decide_False by set_solver. done.
    + rewrite !decide_True by set_solver. csimpl. lia.
Qed.

Lemma search_total fuel visited stack :
  length stack + pending visited <= fuel ->
  is_Some (Inner.search fuel i start visited stack).
Proof.
  revert visited stack. induction fuel as [|fuel IH]; intros visited [|node stack] Hf;
    simpl in *; try (by eexists); [lia|].
  case_decide; [by eexists|]. case_decide as Hv.
  - apply IH. lia.
  - apply IH. rewrite length_app, length_reverse. pose proof (pending_visit node visited Hv). lia.
Qed.

(** The visited sessions lead only to visited or pushed ones. *)
Definition explored (visited : gset SessionId) (stack : list SessionId) : Prop :=
  (start ∉ visited) /\
  forall a b, a ∈ visited -> waits_for i a b -> b ∈ visited \/ b ∈ stack.

Lemma search_sound fuel visited stack :
  Inner.search fuel i start visited stack = Some true ->
  exists n, n ∈ stack /\ rtc (waits_for i) n start.
Proof.
  revert visited stack. induction fuel as [|fuel IH]; intros visited [|node stack]; simpl; try done.
  - case_decide as Hs; [|done]. intros _. exists node. subst. split; [by left|done].
  - case_decide as Hs; [intros _; exists node; subst; split; [by left|done]|].
    case_decide.
    + intros (n & Hn & Hr)%IH. exists n. split; [by right|done].
    + intros (n & [Hn|Hn]%elem_of_app & Hr)%IH; [|exists n; split; [by right|done]].
      rewrite elem_of_reverse in Hn. exists node. split; [by left|]. by eapply rtc_l.
Qed.

Lemma explored_closed visited n :
  explored visited [] -> n ∈ visited -> ~ rtc (waits_for i) n start.
Proof.
  intros [Hs Hex] Hn Hr. apply Hs. clear Hs.
  refine (rtc_ind_r (fun z => z ∈ visited) n Hn _ start Hr).
  intros y z _ Hyz Hy. destruct (Hex _ _ Hy Hyz) as [?|Hb]; [done|].
  by apply not_elem_of_nil in Hb.
Qed.

Lemma search_complete fuel visited stack :
  explored visited stack -> Inner.search fuel i start visited stack = Some false ->
  forall n, n ∈ stack \/ n ∈ visited -> ~ rtc (waits_for i) n start.
Proof.
  revert visited stack. induction fuel as [|fuel IH]; intros visited [|node stack] [Hs Hex]; simpl.
  1,3: intros _ n [Hn|Hn] Hr; [by apply not_elem_of_nil in Hn|];
       by apply (explored_closed visited n).
  - by case_decide.
  - case_decide as Hne; [done|]. case_decide as Hv; intros Hres n Hn.
    + eapply IH; [|exact Hres|set_solver]. split; [done|]. intros a b Ha Hab.
      destruct (Hex _ _ Ha Hab) as [?|[->|?]%elem_of_cons]; auto.
    + eapply IH; [|exact Hres|].
      * split; [set_solver|]. intros a b [->%elem_of_singleton|Ha]%elem_of_union Hab.
        -- right. apply elem_of_app. left. by apply elem_of_reverse.
        -- destruct (Hex _ _ Ha Hab) as [?|[->|?]%elem_of_cons]; set_solver.
      * set_solver.
Qed.
End search.

Lemma search_fuel_enough i s :
  length (reverse (Inner.blockers i s)) + pending i ∅ <= Inner.search_fuel i s.
Proof.
  unfold Inner.search_fuel, pending. rewrite length_reverse. apply Nat.add_le_mono_l.
  induction (map_to_list (Inner.waiting i)).*1 as [|a l IH]; [done|].
  rewrite filter_cons, decide_True by set_solver. csimpl. lia.
Qed.

Lemma tc_inv_l {A} (R : A -> A -> Prop) x z : tc R x z -> exists y, R x y /\ rtc R y z.
Proof.
  destruct 1 as [x z Hxz|x y z Hxy Hyz]; [by exists z|]. exists y. split; [done|]. by apply tc_rtc.
Qed.

Lemma deadlocked_spec i s : Inner.deadlocked i s = true <-> tc (waits_for i) s s.
Proof.
  unfold Inner.deadlocked.
  destruct (search_total i s (Inner.search_fuel i s) ∅ (reverse (Inner.blockers i s))) as [r Hr].
  { apply search_fuel_enough. }
  rewrite Hr. simpl. destruct r; split; try done.
  - intros _. apply search_sound in Hr as (n & Hn & Hrt). rewrite elem_of_reverse in Hn.
    by eapply tc_rtc_r; [apply tc_once|].
  - intros Ht. exfalso. destruct (tc_inv_l _ _ _ Ht) as (n & Hn & Hrt).
    eapply (search_complete i s _ ∅); [|exact Hr| |exact Hrt]; [split; set_solver|].
    left. by apply elem_of_reverse.
Qed.

(** ** Cycles *)

Definition acyclic {A} (R : A -> A -> Prop) : Prop := forall x, ~ tc R x x.

Lemma acyclic_mono {A} (R R' : A -> A -> Prop) :
  (forall a b, R' a b -> R a b) -> acyclic R -> acyclic R'.
Proof. intros Hsub HR x Hx. apply (HR x). by eapply (tc_congruence id). Qed.

(** New edges into a node without outgoing edges close no cycle. *)
Lemma acyclic_sink {A} `{EqDecision A} (R R' : A -> A -> Prop) (z : A) :
  (forall a b, R' a b -> R a b \/ b = z) -> (forall b, ~ R' z b) -> acyclic R -> acyclic R'.
Proof.
  intros Hsub Hsink HR x Hx.
  assert (Hout : forall a b, tc R' a b -> a <> z).
  { intros a b Hab ->. destruct (tc_inv_l _ _ _ Hab) as (y & Hy & _). by apply Hsink in Hy. }
  assert (Hold : forall a b, tc R' a b -> b <> z -> tc R a b).
  { induction 1 as [a b Hab|a b c Hab Hbc IH]; intros Hne.
    - destruct (Hsub _ _ Hab); [by apply tc_once|done].
    - destruct (Hsub _ _ Hab) as [?| ->]; [eapply tc_l; [done|by apply IH]|]. by apply Hout in Hbc. }
  apply (HR x), Hold; [done|by eapply Hout].
Qed.

(** New edges out of one node close a cycle only through that node. *)
Lemma acyclic_source {A} (R R' : A -> A -> Prop) (z : A) :
  (forall a b, R' a b -> R a b \/ a = z) -> ~ tc R' z z -> acyclic R -> acyclic R'.
Proof.
  intros Hsub Hz HR x Hx.
  assert (Hcase : forall a b, tc R' a b -> tc R a b \/ (rtc R' a z /\ tc R' z b)).
  { induction 1 as [a b Hab|a b c Hab Hbc IH].
    - destruct (Hsub _ _ Hab) as [?| ->]; [left; by apply tc_once|right]. split; [done|by apply tc_once].
    - destruct (Hsub _ _ Hab) as [?| ->]; [|right; split; [done|by eapply tc_l]].
      destruct IH as [?|[Hbz Hzc]]; [left; by eapply tc_l|right]. split; [by eapply rtc_l|done]. }
  destruct (Hcase _ _ Hx) as [?|[Hxz Hzx]]; [by apply (HR x)|]. apply Hz. by eapply tc_rtc_r.
Qed.

(** ** The invariant *)

Record lock_inv i : Prop := {
  (** Conflicting locks on an object have one holder. *)
  inv_exclusive : forall o hs h1 h2, Inner.granted i !! o = Some hs -> h1 ∈ hs -> h2 ∈ hs ->
    Holding.holder h1 <> Holding.holder h2 ->
    Mode.conflicts (Holding.mode h1) (Holding.mode h2) = false;
  (** An object without holders is not in the table. *)
  inv_nonempty : forall o, Inner.granted i !! o <> Some [];
  (** Nobody waits for themselves. *)
  inv_acyclic : acyclic (waits_for i)
}.

Lemma new_lock_inv : lock_inv Inner.new.
Proof.
  split; [done|done|]. intros x (y & Hy & _)%tc_inv_l. by apply elem_of_nil in Hy.
Qed.

Lemma conflicts_sym m1 m2 : Mode.conflicts m1 m2 = Mode.conflicts m2 m1.
Proof. by destruct m1, m2. Qed.

Lemma grantable_spec i o m s :
  Inner.grantable i o m s = true <->
  forall hs h, Inner.granted i !! o = Some hs -> h ∈ hs -> Holding.holder h <> s ->
    Mode.conflicts m (Holding.mode h) = false.
Proof.
  unfold Inner.grantable. destruct (Inner.granted i !! o) as [hs|]; [|naive_solver].
  rewrite forallb_forall. setoid_rewrite <- list_elem_of_In. split.
  - intros Hall hs' h [= <-] Hin Hne. specialize (Hall _ Hin).
    rewrite bool_decide_false in Hall by done. by apply negb_true_iff in Hall.
  - intros Hall h Hin. destruct (decide (Holding.holder h = s)).
    + by rewrite bool_decide_true.
    + by rewrite (Hall hs), orb_true_r.
Qed.

Lemma grant_lookup i o m s sc o' :
  Inner.granted (Inner.grant i o m s sc) !! o' =
  if decide (o = o') then Some (default [] (Inner.granted i !! o) ++ [Holding.mk s m sc])
  else Inner.granted i !! o'.
Proof. simpl. by rewrite lookup_insert. Qed.

Lemma grant_holding i o m s sc o' hs h :
  Inner.granted (Inner.grant i o m s sc) !! o' = Some hs -> h ∈ hs ->
  (exists hs', Inner.granted i !! o' = Some hs' /\ h ∈ hs') \/ (o' = o /\ h = Holding.mk s m sc).
Proof.
  rewrite grant_lookup. case_decide as Ho; [|eauto]. intros [= <-] [Hin| ->%list_elem_of_singleton]%elem_of_app;
    [|by right]. subst. destruct (Inner.granted i !! o'); [eauto|set_solver].
Qed.

(** ** Preservation *)

Lemma waits_for_holding i a b :
  waits_for i a b <->
  exists o m h, Inner.waiting i !! a = Some (o, m) /\
    (exists hs, Inner.granted i !! o = Some hs /\ h ∈ hs) /\
    Holding.holder h = b /\ b <> a /\ Mode.conflicts m (Holding.mode h) = true.
Proof. rewrite waits_for_spec. naive_solver. Qed.

(** Shrinking the tables removes edges only. *)
Lemma shrink_inv i i' :
  lock_inv i ->
  (forall o hs', Inner.granted i' !! o = Some hs' ->
     hs' <> [] /\ exists hs, Inner.granted i !! o = Some hs /\ hs' ⊆ hs) ->
  (forall s x, Inner.waiting i' !! s = Some x -> Inner.waiting i !! s = Some x) ->
  lock_inv i'.
Proof.
  intros [Hex Hne Hac] Hg Hw. split.
  - intros o hs h1 h2 (_ & hs' & Hhs' & Hsub)%Hg H1 H2. eapply Hex; [done|by apply Hsub..].
  - intros o Ho. by apply Hg in Ho as [].
  - eapply acyclic_mono; [|exact Hac]. intros a b. rewrite !waits_for_holding.
    intros (o & m & h & Hwa & (hs & (_ & hs' & Hhs' & Hsub)%Hg & Hin) & Hrest).
    exists o, m, h. split_and!; [by apply Hw|by eauto|apply Hrest..].
Qed.

Lemma remove_waiting_inv i s : lock_inv i -> lock_inv (Inner.remove_waiting i s).
Proof.
  intros Hi. eapply shrink_inv; [exact Hi| |]; simpl.
  - intros o hs Ho. split; [|by eauto]. intros ->. by apply (inv_nonempty _ Hi) in Ho.
  - intros s' x. rewrite lookup_delete_Some. tauto.
Qed.

Lemma release_where_lookup i pred o hs' :
  Inner.granted (Inner.release_where i pred) !! o = Some hs' <->
  exists hs, Inner.granted i !! o = Some hs /\ hs' = filter (fun h => pred h = false) hs /\ hs' <> [].
Proof.
  simpl. rewrite lookup_omap_Some. split.
  - intros (hs & Heq & Hhs). exists hs. destruct (filter _ hs) eqn:Hf; [done|].
    injection Heq as <-. done.
  - intros (hs & Hhs & -> & Hne). exists hs. split; [|done]. by destruct (filter _ hs).
Qed.

Lemma release_where_inv i pred : lock_inv i -> lock_inv (Inner.release_where i pred).
Proof.
  intros Hi. eapply shrink_inv; [exact Hi| |done].
  intros o hs' (hs & Hhs & -> & Hne)%release_where_lookup. split; [done|].
  exists hs. split; [done|]. intros h [_ ?]%list_elem_of_filter. done.
Qed.

(** Granting to a session that is not waiting. *)
Lemma grant_inv i o m s sc :
  lock_inv i -> Inner.grantable i o m s = true -> Inner.waiting i !! s = None ->
  lock_inv (Inner.grant i o m s sc).
Proof.
  intros [Hex Hne Hac] Hgr Hw. pose proof (proj1 (grantable_spec _ _ _ _) Hgr) as Hok. split.
  - intros o' hs h1 h2 Ho H1 H2 Hdiff.
    destruct (grant_holding _ _ _ _ _ _ _ _ Ho H1) as [(hs1 & Hhs1 & Hin1)|[? ?]],
             (grant_holding _ _ _ _ _ _ _ _ Ho H2) as [(hs2 & Hhs2 & Hin2)|[? ?]];
      subst; simpl in *.
    + rewrite Hhs1 in Hhs2. injection Hhs2 as <-. by eapply Hex.
    + rewrite conflicts_sym. by eapply Hok.
    + by eapply Hok; [..|intros ?; by apply Hdiff].
    + done.
  - intros o'. rewrite grant_lookup. case_decide; [|apply Hne]. by destruct (default _ _).
  - eapply (acyclic_sink (waits_for i) _ s); [| |exact Hac].
    + intros a b. rewrite !waits_for_holding. intros (o' & m' & h & Hwa & (hs & Hhs & Hin) & Hh & Hrest).
      destruct (grant_holding _ _ _ _ _ _ _ _ Hhs Hin) as [?|[-> ->]]; [left|by right].
      exists o', m', h. done.
    + intros b (x & Hx)%waits_for_waiting. simpl in Hx. congruence.
Qed.

(** Registering a wait that closes no cycle. *)
Lemma insert_waiting_inv i s o m :
  lock_inv i -> Inner.deadlocked (Inner.insert_waiting i s o m) s = false ->
  lock_inv (Inner.insert_waiting i s o m).
Proof.
  intros [Hex Hne Hac] Hd. split; [exact Hex|exact Hne|].
  eapply (acyclic_source (waits_for i) _ s); [| |exact Hac].
  - intros a b. rewrite !waits_for_holding. intros (o' & m' & h & Hwa & Hrest). simpl in *.
    apply lookup_insert_Some in Hwa as [[<- _]|[_ Hwa]]; [by right|left]. by exists o', m', h.
  - intros Ht%deadlocked_spec. by rewrite Hd in Ht.
Qed.

Lemma grant_remove_waiting i o m s sc :
  Inner.remove_waiting (Inner.grant i o m s sc) s = Inner.grant (Inner.remove_waiting i s) o m s sc.
Proof. done. Qed.

Lemma grantable_remove_waiting i o m s s' :
  Inner.grantable (Inner.remove_waiting i s') o m s = Inner.grantable i o m s.
Proof. done. Qed.

Abbreviation manager_inv self := (lock_inv (LockManager.inner self)).

Lemma acquire_check_inv self s o m sc w :
  manager_inv self -> manager_inv (LockManager.acquire_check self s o m sc w).1.
Proof.
  intros Hi. unfold LockManager.acquire_check.
  destruct (Inner.grantable _ o m s) eqn:Hg; simpl.
  - rewrite grant_remove_waiting. apply grant_inv; [by apply remove_waiting_inv|done|].
    simpl. by rewrite lookup_delete_eq.
  - destruct w; simpl; [|by apply remove_waiting_inv..].
    destruct (Inner.deadlocked _ s) eqn:Hd; simpl; [|by apply insert_waiting_inv].
    eapply shrink_inv; [exact Hi| |]; simpl.
    + intros o' hs Ho. split; [|by eauto]. intros ->. by apply (inv_nonempty _ Hi) in Ho.
    + intros s' x. rewrite delete_insert_eq, lookup_delete_Some. tauto.
Qed.

Lemma try_acquire_inv self s o m sc :
  manager_inv self -> Inner.waiting (LockManager.inner self) !! s = None ->
  manager_inv (LockManager.try_acquire self s o m sc).1.
Proof.
  intros Hi Hw. unfold LockManager.try_acquire.
  destruct (Inner.grantable _ o m s) eqn:Hg; [by apply grant_inv|done].
Qed.

Lemma remove_first_subseteq pred l l' : LockManager.remove_first pred l = Some l' -> l' ⊆ l.
Proof.
  revert l'. induction l as [|h l IH]; intros l'; simpl; [done|].
  destruct (pred h); [intros [= ->]; set_solver|].
  intros (l'' & Hl'' & ->)%fmap_Some. specialize (IH _ Hl''). set_solver.
Qed.

Lemma release_one_inv self s o m :
  manager_inv self -> manager_inv (LockManager.release_one self s o m).1.
Proof.
  intros Hi. unfold LockManager.release_one.
  destruct (Inner.granted _ !! o) as [hs|] eqn:Ho; [|done].
  set (r := match LockManager.remove_first _ hs with Some hs' => _ | None => _ end).
  assert (Hr : r.1 ⊆ hs).
  { unfold r. destruct (LockManager.remove_first _ hs) eqn:Hf; [|done].
    by apply remove_first_subseteq in Hf. }
  destruct r as [hs' removed]. simpl in *. eapply shrink_inv; [exact Hi| |done]. simpl.
  intros o' l. assert (Hold : Inner.granted (LockManager.inner self) !! o' = Some l ->
    l <> [] /\ exists l', Inner.granted (LockManager.inner self) !! o' = Some l' /\ l ⊆ l').
  { intros Hl. split; [|by eauto]. intros ->. by apply (inv_nonempty _ Hi) in Hl. }
  case_decide as He.
  - rewrite lookup_delete_Some. intros [_ Hl]. by apply Hold.
  - rewrite lookup_insert_Some. intros [[<- <-]|[_ Hl]]; [|by apply Hold]. split; [done|by eauto].
Qed.

(** ** Grants and blockers *)

Lemma grantable_blockers i o m s :
  Inner.grantable i o m s = true <-> Inner.blockers (Inner.insert_waiting i s o m) s = [].
Proof.
  rewrite grantable_spec. split.
  - intros Hok. apply elem_of_nil_inv. intros b Hb.
    apply waits_for_spec in Hb as (o' & m' & hs & h & Hw & Hg & Hin & Hh & Hne & Hc).
    simpl in Hw. rewrite lookup_insert_eq in Hw. injection Hw as <- <-.
    rewrite (Hok hs h) in Hc; [done|done|done|congruence].
  - intros Hb hs h Hg Hin Hne. destruct (Mode.conflicts m (Holding.mode h)) eqn:Hc; [|done].
    assert (waits_for (Inner.insert_waiting i s o m) s (Holding.holder h)) as Hw.
    { apply waits_for_spec. exists o, m, hs, h. simpl. by rewrite lookup_insert_eq. }
    unfold waits_for in Hw. rewrite Hb in Hw. by apply elem_of_nil in Hw.
Qed.

(** The session of [h] holds its lock on [o]. *)
Definition holds (self : LockManager.t) o h : Prop :=
  exists hs, Inner.granted (LockManager.inner self) !! o = Some hs /\ h ∈ hs.

Lemma release_where_holds i pred o h :
  (exists hs, Inner.granted (Inner.release_where i pred) !! o = Some hs /\ h ∈ hs) <->
  (exists hs, Inner.granted i !! o = Some hs /\ h ∈ hs) /\ pred h = false.
Proof.
  setoid_rewrite release_where_lookup. split.
  - intros (? & (hs & Hhs & -> & _) & [? ?]%list_elem_of_filter). eauto.
  - intros [(hs & Hhs & Hin) Hp]. exists (filter (fun h => pred h = false) hs).
    assert (h ∈ filter (fun h => pred h = false) hs) by by apply list_elem_of_filter.
    split; [|done]. exists hs. split_and!; [done..|]. intros Hnil. rewrite Hnil in *. set_solver.
Qed.

(** ** Progress *)

(** Following the blockers of a blocked session leads to one that waits only for
    sessions that are not blocked. *)
Lemma chain_end i s0 :
  acyclic (waits_for i) -> is_Some (Inner.waiting i !! s0) ->
  exists s, is_Some (Inner.waiting i !! s) /\ rtc (waits_for i) s0 s /\
    forall b, b ∈ Inner.blockers i s -> Inner.waiting i !! b = None.
Proof.
  intros Hac Hw.
  set (R := fun a b => waits_for i a b /\ is_Some (Inner.waiting i !! b)).
  assert (HR : forall a b, tc R a b -> is_Some (Inner.waiting i !! b)).
  { induction 1 as [a b [_ ?]|]; done. }
  assert (Hsn : sn R s0).
  { apply tc_finite_sn.
    - intros a Ha. apply (Hac a). by eapply (tc_congruence id); [|exact Ha]; intros ?? [].
    - exists (map_to_list (Inner.waiting i)).*1. intros b [x Hx]%HR. apply list_elem_of_fmap.
      exists (b, x). split; [done|]. by apply elem_of_map_to_list. }
  revert Hw. induction Hsn as [s _ IH]. intros Hw.
  destruct (decide (Forall (fun b => Inner.waiting i !! b = None) (Inner.blockers i s))) as [Hall|Hex].
  - exists s. split_and!; [done..|]. by rewrite Forall_forall in Hall.
  - apply not_Forall_Exists, Exists_exists in Hex as (b & Hb & Hwb); [|apply _].
    assert (is_Some (Inner.waiting i !! b)) as Hwb' by by apply not_eq_None_Some.
    destruct (IH b) as (s' & ? & Hr & ?); [by split|done|].
    exists s'. split_and!; [done|by eapply rtc_l|done].
Qed.

Lemma waiting_grantable i s o m :
  Inner.waiting i !! s = Some (o, m) -> Inner.blockers i s = [] -> Inner.grantable i o m s = true.
Proof.
  intros Hw Hb. apply grantable_blockers. unfold Inner.blockers in *. simpl. rewrite lookup_insert_eq.
  by rewrite Hw in Hb.
Qed.

(** The sessions that hold a lock. *)
Definition busy i : gset SessionId :=
  list_to_set (Holding.holder <$> mjoin (map_to_list (Inner.granted i)).*2).

Lemma elem_of_busy i s :
  s ∈ busy i <-> exists o hs h, Inner.granted i !! o = Some hs /\ h ∈ hs /\ Holding.holder h = s.
Proof.
  unfold busy. rewrite elem_of_list_to_set, list_elem_of_fmap. setoid_rewrite list_elem_of_join.
  setoid_rewrite list_elem_of_fmap. split.
  - intros (h & -> & hs & Hh & [o hs'] & -> & Ho%elem_of_map_to_list). by exists o, hs', h.
  - intros (o & hs & h & Ho%elem_of_map_to_list & Hh & <-). exists h. split; [done|]. exists hs. split; [done|].
    by exists (o, hs).
Qed.

(** What is left to do: every blocked session has still to hold its lock and to
    end. *)
Definition load i : nat := 2 * size (Inner.waiting i) + size (busy i).

Lemma release_load i s o h :
  Inner.waiting i !! s = None -> (exists hs, Inner.granted i !! o = Some hs /\ h ∈ hs) -> Holding.holder h = s ->
  load (Inner.remove_waiting (Inner.release_where i (fun h => bool_decide (Holding.holder h = s))) s) < load i.
Proof.
  intros Hw (hs & Hhs & Hh) Hs. unfold load. simpl. rewrite delete_id by done.
  apply Nat.add_lt_mono_l, subset_size. split.
  - intros s'. rewrite !elem_of_busy. intros (o' & hs' & h' & Ho' & Hh' & <-).
    apply release_where_lookup in Ho' as (hs0 & Hhs0 & -> & _). apply list_elem_of_filter in Hh' as [_ Hh'].
    by exists o', hs0, h'.
  - intros Hsub. assert (Hb : s ∈ busy i) by (apply elem_of_busy; by exists o, hs, h).
    apply Hsub, elem_of_busy in Hb as (o' & hs' & h' & Ho' & Hh' & Hs').
    apply release_where_lookup in Ho' as (hs0 & _ & -> & _). apply list_elem_of_filter in Hh' as [Hp _].
    by apply bool_decide_eq_false in Hp.
Qed.

Lemma wake_load i s o m sc :
  Inner.waiting i !! s = Some (o, m) -> load (Inner.remove_waiting (Inner.grant i o m s sc) s) < load i.
Proof.
  intros Hw. unfold load. simpl.
  assert (Hsz : size (Inner.waiting i) = S (size (delete s (Inner.waiting i)))).
  { rewrite <- (map_size_insert_None s (o, m)) by apply lookup_delete_eq. by rewrite insert_delete_id. }
  assert (Hb : size (busy (Inner.remove_waiting (Inner.grant i o m s sc) s)) <= S (size (busy i))).
  {
    transitivity (size ({[s]} ∪ busy i)); [apply subseteq_size|].
    - intros s'. rewrite elem_of_union, elem_of_singleton, !elem_of_busy. intros (o' & hs' & h' & Ho' & Hh' & <-).
      destruct (grant_holding _ _ _ _ _ _ _ _ Ho' Hh') as [(hs & Hhs & Hin)|[-> ->]]; [right|by left].
      by exists o', hs, h'.
    - rewrite size_union_alt, size_singleton. apply le_n_S, subseteq_size. set_solver. }
  lia.
Qed.
