(* ===== verification/LockProperties.v ===== *)
(** * Properties of the lock manager

    The theorems about src/sql/lock.rs: the conflict tables, mutual exclusion,
    the deadlock search and freedom from deadlock, and the outcome of every
    request and release. *)

From S2P Require Import Prelude Lock LockInv.

(** ** The conflict tables *)

(** PostgreSQL's documented conflict lists. *)
Definition documented_conflicts (m : LockMode) : list LockMode :=
  match m with
  | AccessShare => [AccessExclusive]
  | RowShare => [Exclusive; AccessExclusive]
  | RowExclusive => [Share; ShareRowExclusive; Exclusive; AccessExclusive]
  | ShareUpdateExclusive =>
      [ShareUpdateExclusive; Share; ShareRowExclusive; Exclusive; AccessExclusive]
  | Share => [RowExclusive; ShareUpdateExclusive; ShareRowExclusive; Exclusive; AccessExclusive]
  | ShareRowExclusive =>
      [RowExclusive; ShareUpdateExclusive; Share; ShareRowExclusive; Exclusive; AccessExclusive]
  | Exclusive =>
      [RowShare; RowExclusive; ShareUpdateExclusive; Share; ShareRowExclusive; Exclusive;
       AccessExclusive]
  | AccessExclusive =>
      [AccessShare; RowShare; RowExclusive; ShareUpdateExclusive; Share; ShareRowExclusive;
       Exclusive; AccessExclusive]
  | ForKeyShare => [ForUpdate]
  | ForShare => [ForNoKeyUpdate; ForUpdate]
  | ForNoKeyUpdate => [ForShare; ForNoKeyUpdate; ForUpdate]
  | ForUpdate => [ForKeyShare; ForShare; ForNoKeyUpdate; ForUpdate]
  | AdvisoryShared => [AdvisoryExclusive]
  | AdvisoryExclusive => [AdvisoryShared; AdvisoryExclusive]
  end.

(** The kind of object a mode belongs to. *)
Definition mode_kind (m : LockMode) : string :=
  match m with
  | ForKeyShare | ForShare | ForNoKeyUpdate | ForUpdate => "tuple"
  | AdvisoryShared | AdvisoryExclusive => "advisory"
  | _ => "relation"
  end.

(** The bit tables encode PostgreSQL's documented conflicts: two modes of the
    same kind conflict exactly when the documentation lists them, and conflicts
    are symmetric. *)
Theorem conflict_matrix m1 m2 :
  Mode.conflicts m1 m2 = Mode.conflicts m2 m1 /\
  (mode_kind m1 = mode_kind m2 ->
   Mode.conflicts m1 m2 = bool_decide (m2 ∈ documented_conflicts m1)).
Proof. split; [apply conflicts_sym|]. by destruct m1, m2. Qed.

Lemma conflict_matrix_witness :
  Mode.conflicts Share RowExclusive = bool_decide (RowExclusive ∈ documented_conflicts Share).
Proof. apply (conflict_matrix Share RowExclusive). reflexivity. Defined.

(** ** Reachable states *)

(** One critical section.  A session that is blocked runs no other statement, so
    it makes no non-blocking request. *)
Inductive lock_step (self : LockManager.t) : LockManager.t -> Prop :=
| step_session : lock_step self (LockManager.new_session self).1
| step_try s o m sc :
    Inner.waiting (LockManager.inner self) !! s = None ->
    lock_step self (LockManager.try_acquire self s o m sc).1
| step_acquire s o m sc w : lock_step self (LockManager.acquire_check self s o m sc w).1
| step_timeout s o : lock_step self (LockManager.acquire_timeout self s o).1
| step_release_one s o m : lock_step self (LockManager.release_one self s o m).1
| step_release_transaction s : lock_step self (LockManager.release_transaction self s)
| step_release_advisory s : lock_step self (LockManager.release_session_advisory self s)
| step_release_session s : lock_step self (LockManager.release_session self s).

Lemma lock_step_inv self self' : manager_inv self -> lock_step self self' -> manager_inv self'.
Proof.
  intros Hi [|s o m sc Hw|s o m sc w|s o|s o m|s|s|s]; simpl;
    eauto using try_acquire_inv, acquire_check_inv, release_one_inv, remove_waiting_inv,
      release_where_inv.
Qed.

Lemma reachable_lock_inv self : rtc lock_step LockManager.new self -> manager_inv self.
Proof.
  intros Hs. assert (Hi : manager_inv LockManager.new) by apply new_lock_inv.
  revert Hi. induction Hs; eauto using lock_step_inv.
Qed.


(** Two readers of a table, then a writer that has to wait for them. *)
Definition reader1 : LockManager.t :=
  (LockManager.acquire_check LockManager.new 1 (Table 7) Share Transaction Wait).1.
Definition readers : LockManager.t :=
  (LockManager.acquire_check reader1 2 (Table 7) Share Transaction Wait).1.
Definition writer : LockManager.t :=
  (LockManager.acquire_check readers 3 (Table 7) RowExclusive Transaction Wait).1.

Lemma writer_reachable : rtc lock_step LockManager.new writer.
Proof. repeat (eapply rtc_r; [|apply step_acquire]). apply rtc_refl. Qed.


(** C39. The deadlock search is exact: it terminates within its fuel and reports a
    deadlock exactly when the session transitively waits for itself. *)
Theorem deadlock_search_exact i s :
  (exists r, Inner.search (Inner.search_fuel i s) i s ∅ (reverse (Inner.blockers i s)) = Some r) /\
  (Inner.deadlocked i s = true <-> tc (waits_for i) s s).
Proof.
  split; [|apply deadlocked_spec]. apply search_total, search_fuel_enough.
Qed.

(** C12. No deadlock: in every reachable state the wait-for relation has no cycle,
    so when sessions are blocked, one of them waits only for sessions that are
    not blocked themselves. *)
Theorem no_deadlock self (i := LockManager.inner self) s0 :
  rtc lock_step LockManager.new self -> is_Some (Inner.waiting i !! s0) ->
  (forall s, ~ tc (waits_for i) s s) /\
  exists s, is_Some (Inner.waiting i !! s) /\ rtc (waits_for i) s0 s /\
    forall b, b ∈ Inner.blockers i s -> Inner.waiting i !! b = None.
Proof.
  intros Hi%reachable_lock_inv Hw. pose proof (inv_acyclic _ Hi) as Hac. split; [exact Hac|].
  by apply chain_end.
Qed.

Lemma no_deadlock_witness :
  exists s, is_Some (Inner.waiting (LockManager.inner writer) !! s) /\
    rtc (waits_for (LockManager.inner writer)) 3%N s /\
    forall b, b ∈ Inner.blockers (LockManager.inner writer) s ->
      Inner.waiting (LockManager.inner writer) !! b = None.
Proof.
  apply (no_deadlock writer 3); [apply writer_reachable|].
  exists (Table 7, RowExclusive). vm_compute. reflexivity.
Defined.

(** ** Progress *)

(** A session that is not blocked ends and starts nothing new, or a blocked one
    looks again and its lock is free. *)
Inductive drain_step (self : LockManager.t) : LockManager.t -> Prop :=
| drain_end s o h :
    Inner.waiting (LockManager.inner self) !! s = None -> holds self o h -> Holding.holder h = s ->
    drain_step self (LockManager.release_session self s)
| drain_wake s o m sc :
    Inner.waiting (LockManager.inner self) !! s = Some (o, m) ->
    Inner.grantable (LockManager.inner self) o m s = true ->
    drain_step self (LockManager.acquire_check self s o m sc Wait).1.

Lemma drain_lock_step self self' : drain_step self self' -> lock_step self self'.
Proof. intros [s o h _ _ _|s o m sc _ _]; [apply step_release_session|apply step_acquire]. Qed.

Lemma drain_decreases self self' :
  drain_step self self' -> load (LockManager.inner self') < load (LockManager.inner self).
Proof.
  intros [s o h Hw Hh Hs|s o m sc Hw Hg].
  - exact (release_load _ s o h Hw Hh Hs).
  - unfold LockManager.acquire_check. rewrite Hg. by apply (wake_load _ s o m sc).
Qed.

(** As long as somebody waits, a step is possible. *)
Lemma drain_progress self s0 :
  manager_inv self -> is_Some (Inner.waiting (LockManager.inner self) !! s0) ->
  exists self', drain_step self self'.
Proof.
  intros Hi Hw. destruct (chain_end _ s0 (inv_acyclic _ Hi) Hw) as (s & [[o m] Hs] & _ & Hb).
  destruct (Inner.grantable (LockManager.inner self) o m s) eqn:Hg.
  - eexists. by apply (drain_wake self s o m Transaction).
  - destruct (Inner.blockers (LockManager.inner self) s) as [|b bs] eqn:Eb.
    + by rewrite (waiting_grantable _ _ _ _ Hs Eb) in Hg.
    + assert (Hwf : waits_for (LockManager.inner self) s b) by (unfold waits_for; rewrite Eb; left).
      apply waits_for_holding in Hwf as (o' & m' & h & _ & Hh & Hhb & _).
      eexists. apply (drain_end self b o' h); [apply Hb; left|exact Hh|exact Hhb].
Qed.

(** C13. Everybody is served.  When the sessions that are not blocked end one after
    the other and the blocked ones look again, in whatever order, this comes to an
    end, and at the end nobody waits any more. *)
Theorem waiters_served self :
  rtc lock_step LockManager.new self ->
  sn drain_step self /\
  forall self', rtc drain_step self self' -> (forall t, ~ drain_step self' t) ->
    Inner.waiting (LockManager.inner self') = ∅.
Proof.
  intros Hi%reachable_lock_inv. split.
  - clear Hi. remember (load (LockManager.inner self)) as n eqn:Hn. revert self Hn.
    induction (lt_wf n) as [n _ IH]. intros self ->. constructor. intros self' Hd%drain_decreases. by eapply IH.
  - intros self' Hd Hstop.
    assert (Hi' : manager_inv self') by (induction Hd; eauto using lock_step_inv, drain_lock_step).
    apply map_eq. intros s. rewrite lookup_empty. destruct (Inner.waiting _ !! s) eqn:Hw; [exfalso|done].
    destruct (drain_progress self' s Hi') as [t Ht]; [by eexists|]. by apply (Hstop t).
Qed.

(** The writer gets its lock after both readers have ended. *)
Lemma waiters_served_witness :
  sn drain_step writer /\
  let ended := LockManager.release_session (LockManager.release_session writer 1) 2 in
  let served := (LockManager.acquire_check ended 3 (Table 7) RowExclusive Transaction Wait).1 in
  Inner.waiting (LockManager.inner (LockManager.release_session served 3)) = ∅.
Proof.
  destruct (waiters_served writer writer_reachable) as [Hsn Hend]. split; [exact Hsn|]. intros ended served.
  apply Hend.
  - eapply rtc_l; [apply (drain_end _ 1 (Table 7) (Holding.mk 1 Share Transaction)); [reflexivity| |reflexivity]|].
    { exists [Holding.mk 1 Share Transaction; Holding.mk 2 Share Transaction]. split; [vm_compute; reflexivity|left]. }
    eapply rtc_l; [apply (drain_end _ 2 (Table 7) (Holding.mk 2 Share Transaction)); [reflexivity| |reflexivity]|].
    { exists [Holding.mk 2 Share Transaction]. split; [vm_compute; reflexivity|left]. }
    eapply rtc_l; [apply (drain_wake _ 3 (Table 7) RowExclusive Transaction); vm_compute; reflexivity|].
    apply rtc_once, (drain_end _ 3 (Table 7) (Holding.mk 3 RowExclusive Transaction)); [reflexivity| |reflexivity].
    exists [Holding.mk 3 RowExclusive Transaction]. split; [vm_compute; reflexivity|left].
  - intros t Ht. destruct Ht as [s o h _ (hs & Hhs & _) _|s o m sc Hw _].
    + assert (Hg : Inner.granted (LockManager.inner (LockManager.release_session served 3)) = ∅) by (vm_compute; reflexivity).
      rewrite Hg, lookup_empty in Hhs. discriminate Hhs.
    + assert (Hg : Inner.waiting (LockManager.inner (LockManager.release_session served 3)) = ∅) by (vm_compute; reflexivity).
      rewrite Hg, lookup_empty in Hw. discriminate Hw.
Defined.

(** A non-conflicting request is granted at once and a conflicting one is
    not: without waiting it fails or is skipped and the granted locks are left
    alone; with waiting it either sleeps, registered with its blockers, or is
    rejected because it would close a cycle. *)
Theorem acquire_outcomes self s o m sc w (i := LockManager.inner self)
    (r := LockManager.acquire_check self s o m sc w) (i' := LockManager.inner r.1) :
  (Inner.blockers (Inner.insert_waiting i s o m) s = [] ->
     r.2 = Some (Ok Granted) /\ Inner.waiting i' !! s = None /\
     Inner.granted i' !! o = Some (default [] (Inner.granted i !! o) ++ [Holding.mk s m sc])) /\
  (Inner.blockers (Inner.insert_waiting i s o m) s <> [] ->
     Inner.granted i' = Inner.granted i /\
     match w with
     | NoWait => r.2 = Some (Err (LockNotAvailable (Object.describe o)))
     | SkipLocked => r.2 = Some (Ok Skipped)
     | Wait =>
         (r.2 = None /\ Inner.waiting i' !! s = Some (o, m) /\ ~ tc (waits_for i') s s) \/
         ((exists d, r.2 = Some (Err (DeadlockDetected d))) /\ Inner.waiting i' !! s = None /\
          tc (waits_for (Inner.insert_waiting i s o m)) s s)
     end).
Proof.
  assert (Hgr : Inner.grantable i o m s = true <->
                Inner.blockers (Inner.insert_waiting i s o m) s = []) by apply grantable_blockers.
  unfold i', r, LockManager.acquire_check. fold i. split; intros Hb.
  - rewrite (proj2 Hgr) by done. simpl. rewrite lookup_delete_eq, lookup_insert_eq. done.
  - destruct (Inner.grantable i o m s) eqn:E; [by apply Hgr in Hb || destruct Hb; apply Hgr|].
    destruct w; [|done..].
    destruct (Inner.deadlocked (Inner.insert_waiting i s o m) s) eqn:Hd; simpl.
    + split; [done|right]. split_and!; [by eexists|by rewrite lookup_delete_eq|by apply deadlocked_spec].
    + split; [done|left]. split_and!; [done|by rewrite lookup_insert_eq|].
      intros Ht%deadlocked_spec. by rewrite Hd in Ht.
Qed.

(** Releasing is exact: at the end of a transaction a session loses its
    transaction-scoped locks and nothing else is lost, and after a disconnect it
    holds nothing and waits for nothing. *)
Theorem release_exact self s o h :
  (holds (LockManager.release_transaction self s) o h <->
   holds self o h /\ ~ (Holding.holder h = s /\ Holding.scope h = Transaction)) /\
  (holds (LockManager.release_session_advisory self s) o h <->
   holds self o h /\ ~ (Holding.holder h = s /\ Holding.scope h = Session)) /\
  (holds (LockManager.release_session self s) o h <->
   holds self o h /\ Holding.holder h <> s) /\
  Inner.waiting (LockManager.inner (LockManager.release_session self s)) !! s = None.
Proof.
  split_and!; [..|by apply lookup_delete_eq].
  all: etransitivity; [exact (release_where_holds (LockManager.inner self) _ o h)|].
  - by rewrite andb_false_iff, !bool_decide_eq_false, not_and_l.
  - by rewrite andb_false_iff, !bool_decide_eq_false, not_and_l.
  - by rewrite bool_decide_eq_false.
Qed.
