(* ===== verification/BTree.v ===== *)
(** * Ordered maps and sets with string keys

    [BTreeMap<String, V>] and [BTreeSet<String>] of the Rust standard library, as
    association lists in ascending key order.  The same representation serves
    [serde_json::Map], which is a [BTreeMap] in this build. *)

From S2P Require Import Prelude.

Module BTreeMap.
Section ops.
Context {V : Type}.
Implicit Types (m : list (string * V)) (k : string) (v : V).

Fixpoint get m k : option V :=
  match m with
  | [] => None
  | (k', v) :: m => if decide (k = k') then Some v else get m k
  end.

Fixpoint insert m k v : list (string * V) :=
  match m with
  | [] => [(k, v)]
  | (k', v') :: m' =>
      match String.compare k k' with
      | Lt => (k, v) :: m
      | Eq => (k, v) :: m'
      | Gt => (k', v') :: insert m' k v
      end
  end.

Definition remove m k : list (string * V) := filter (fun kv => kv.1 <> k) m.

Definition contains_key m k : bool := bool_decide (is_Some (get m k)).

(** [entry(k).or_insert_with(|| v)] *)
Definition or_insert m k v : list (string * V) :=
  match get m k with Some _ => m | None => insert m k v end.

(** [iter.collect::<BTreeMap<_, _>>()] *)
Definition of_list (l : list (string * V)) : list (string * V) :=
  foldl (fun m kv => insert m kv.1 kv.2) [] l.

(** Keys in strictly ascending order. *)
Definition sorted m : Prop := StronglySorted (fun a b => String.compare a b = Lt) m.*1.

Lemma compare_eq k k' : String.compare k k' = Eq <-> k = k'.
Proof.
  split; [apply String.compare_eq_iff|]. intros ->.
  apply (total_refl _ _ _ string_compare_total I).
Qed.

Lemma get_insert m k v k' :
  get (insert m k v) k' = if decide (k' = k) then Some v else get m k'.
Proof.
  induction m as [|[a w] m IH]; simpl; [done|].
  destruct (String.compare k a) eqn:E; simpl; [|done|].
  - apply compare_eq in E as ->. by case_decide.
  - rewrite IH. repeat case_decide; try done. subst.
    by rewrite (proj2 (compare_eq a a)) in E.
Qed.

Lemma get_remove m k k' : get (remove m k) k' = if decide (k' = k) then None else get m k'.
Proof.
  unfold remove. induction m as [|[a w] m IH]; simpl; [by case_decide|].
  rewrite filter_cons. simpl. destruct (decide (a = k)) as [->|Hne].
  - rewrite decide_False by tauto. rewrite IH. by repeat case_decide.
  - rewrite decide_True by done. simpl. rewrite IH. repeat case_decide; congruence.
Qed.

Lemma get_or_insert m k v k' :
  get (or_insert m k v) k' =
  if decide (k' = k) then Some (default v (get m k)) else get m k'.
Proof.
  unfold or_insert. destruct (get m k) eqn:E; [|by rewrite get_insert].
  case_decide; by subst.
Qed.

Lemma get_Some_elem m k v : get m k = Some v -> (k, v) ∈ m.
Proof.
  induction m as [|[a w] m IH]; simpl; [done|].
  case_decide; [intros [= ->]; subst; by left|right; auto].
Qed.

Lemma get_None m k : get m k = None <-> k ∉ m.*1.
Proof.
  induction m as [|[a w] m IH]; simpl; [split; [intros _; apply not_elem_of_nil|done]|].
  rewrite not_elem_of_cons. case_decide; [|rewrite IH]; naive_solver.
Qed.

Lemma sorted_cons a w m :
  sorted ((a, w) :: m) <-> sorted m /\ forall k, k ∈ m.*1 -> String.compare a k = Lt.
Proof.
  unfold sorted. simpl. split.
  - intros [? HF]%StronglySorted_inv. by rewrite Forall_forall in HF.
  - intros [? ?]. constructor; [done|]. by apply Forall_forall.
Qed.

Lemma elem_get m k v : sorted m -> (k, v) ∈ m <-> get m k = Some v.
Proof.
  intros Hs. split; [|apply get_Some_elem].
  induction m as [|[a w] m IH]; [by intros ?%elem_of_nil|].
  apply sorted_cons in Hs as [Hs Ha]. simpl. intros [[= -> ->]|Hin]%elem_of_cons.
  - by rewrite decide_True.
  - rewrite decide_False; [by apply IH|]. intros ->.
    assert (String.compare a a = Lt) as Hlt by (apply Ha, list_elem_of_fmap; by eexists (_, _)).
    by rewrite (proj2 (compare_eq a a)) in Hlt.
Qed.

Lemma insert_keys m k v k' : k' ∈ (insert m k v).*1 <-> k' = k \/ k' ∈ m.*1.
Proof.
  induction m as [|[a w] m IH]; simpl; [set_solver|].
  destruct (String.compare k a) eqn:E; simpl; [apply compare_eq in E as ->|..]; set_solver.
Qed.

Lemma insert_sorted m k v : sorted m -> sorted (insert m k v).
Proof.
  induction m as [|[a w] m IH]; simpl; intros Hs; [by repeat constructor|].
  pose proof (proj1 (sorted_cons _ _ _) Hs) as [Hs' Ha].
  destruct (String.compare k a) eqn:E; apply sorted_cons.
  - apply compare_eq in E as ->. done.
  - split; [done|]. simpl. intros x [->|Hx]%elem_of_cons; [done|].
    by eapply (total_trans _ _ string_compare_total k a x); auto.
  - split; [by apply IH|]. intros x [->|Hx]%insert_keys; [|by apply Ha].
    by rewrite (total_antisym _ _ string_compare_total), E.
Qed.

(** A sorted map is determined by its lookups. *)
Lemma sorted_ext m m' : sorted m -> sorted m' -> (forall k, get m k = get m' k) -> m = m'.
Proof.
  revert m'. induction m as [|[a w] m IH]; intros [|[b u] m'] Hs Hs' Heq.
  - done.
  - specialize (Heq b). simpl in Heq. by rewrite decide_True in Heq.
  - specialize (Heq a). simpl in Heq. by rewrite decide_True in Heq.
  - pose proof (proj1 (sorted_cons _ _ _) Hs) as [Hm Ha].
    pose proof (proj1 (sorted_cons _ _ _) Hs') as [Hm' Hb].
    assert (Hnot : forall (x : string) (n : list (string * V)) z,
      (forall k, k ∈ n.*1 -> String.compare x k = Lt) -> get n x <> Some z).
    { intros x n z Hx Hg%get_Some_elem. assert (String.compare x x = Lt) as Hlt
        by (apply Hx, list_elem_of_fmap; by exists (x, z)).
      by rewrite (proj2 (compare_eq x x)) in Hlt. }
    assert (a = b) as ->.
    { pose proof (Heq a) as H1. pose proof (Heq b) as H2. simpl in H1, H2.
      rewrite decide_True in H1 by done. rewrite (decide_True (P := b = b)) in H2 by done.
      destruct (decide (a = b)); [done|]. rewrite decide_False in H2 by done.
      symmetry in H1. apply get_Some_elem in H1. apply get_Some_elem in H2.
      assert (String.compare b a = Lt) by (apply Hb, list_elem_of_fmap; by exists (a, w)).
      assert (String.compare a b = Lt) as Hab by (apply Ha, list_elem_of_fmap; by exists (b, u)).
      rewrite (total_antisym _ _ string_compare_total) in Hab by done.
      destruct (String.compare b a); done. }
    pose proof (Heq b) as Hb'. simpl in Hb'. rewrite !decide_True in Hb' by done.
    injection Hb' as ->. f_equal. apply IH; [done..|]. intros k. specialize (Heq k). simpl in Heq.
    destruct (decide (k = b)) as [->|]; [|done].
    destruct (get m b) eqn:E1, (get m' b) eqn:E2; try done;
      by (exfalso; eapply Hnot; [|first [exact E1|exact E2]]).
Qed.

Lemma or_insert_sorted m k v : sorted m -> sorted (or_insert m k v).
Proof. unfold or_insert. destruct (get m k); auto using insert_sorted. Qed.

Lemma insert_Forall (P : string * V -> Prop) m k v : P (k, v) -> Forall P m -> Forall P (insert m k v).
Proof.
  intros Hk Hm. induction Hm as [|[a w] m Ha Hm IH]; simpl; [by constructor|].
  destruct (String.compare k a); by repeat constructor.
Qed.

Lemma or_insert_Forall (P : string * V -> Prop) m k v :
  P (k, v) -> Forall P m -> Forall P (or_insert m k v).
Proof. unfold or_insert. destruct (get m k); auto using insert_Forall. Qed.

Lemma foldl_insert_spec (P : string * V -> Prop) l m :
  sorted m -> Forall P m -> Forall P l ->
  sorted (foldl (fun m kv => insert m kv.1 kv.2) m l) /\
  Forall P (foldl (fun m kv => insert m kv.1 kv.2) m l).
Proof.
  revert m. induction l as [|[k v] l IH]; intros m Hs Hm Hl; [done|].
  apply Forall_cons in Hl as [Hk Hl]. simpl. apply IH; auto using insert_sorted, insert_Forall.
Qed.

Lemma of_list_sorted l : sorted (of_list l).
Proof. apply (foldl_insert_spec (fun _ => True)); [constructor|constructor|by apply Forall_true]. Qed.

Lemma of_list_Forall (P : string * V -> Prop) l : Forall P l -> Forall P (of_list l).
Proof. intros Hl. by apply foldl_insert_spec; [constructor..|]. Qed.

(** A new last key. *)
Lemma insert_last m k v :
  (forall k', k' ∈ m.*1 -> String.compare k' k = Lt) -> insert m k v = m ++ [(k, v)].
Proof.
  induction m as [|[a w] m IH]; intros Hm; [done|]. simpl.
  rewrite (total_antisym _ _ string_compare_total), (Hm a) by (done || by left). simpl.
  by rewrite IH by (intros k' Hk'; apply Hm; by right).
Qed.

Lemma sorted_before p k v l :
  sorted (p ++ (k, v) :: l) -> forall k', k' ∈ p.*1 -> String.compare k' k = Lt.
Proof.
  intros Hp k' Hk'. unfold sorted in Hp. rewrite fmap_app in Hp. csimpl in Hp.
  induction (p.*1) as [|x q IHq]; [by apply not_elem_of_nil in Hk'|].
  simpl in Hp. apply StronglySorted_inv in Hp as [Hq Hx].
  apply elem_of_cons in Hk' as [->|Hk']; [|by apply IHq].
  apply Forall_app in Hx as [_ Hx]. by apply Forall_cons in Hx as [? _].
Qed.

(** Dropping entries keeps the order. *)
Lemma map_filter_sorted (P : string * V -> Prop) `{!forall kv, Decision (P kv)} m :
  sorted m -> sorted (filter P m).
Proof.
  induction m as [|[a w] m IH]; [done|]. intros [Hs Ha]%sorted_cons.
  rewrite filter_cons. case_decide; [|by auto]. apply sorted_cons. split; [by auto|].
  intros k' (kv & -> & [_ Hkv]%list_elem_of_filter)%list_elem_of_fmap. apply Ha, list_elem_of_fmap. by exists kv.
Qed.
Lemma keys_NoDup m : sorted m -> NoDup m.*1.
Proof.
  induction m as [|[a w] m IH]; [constructor|]. intros [Hs Ha]%sorted_cons.
  rewrite fmap_cons. constructor; [|by apply IH]. intros Hin%Ha. by rewrite (proj2 (compare_eq _ _)) in Hin.
Qed.

Lemma of_list_id l : sorted l -> of_list l = l.
Proof.
  intros Hs. unfold of_list. change l with ([] ++ l) at 2.
  assert (Hp : sorted ([] ++ l)) by done. revert Hp. generalize (@nil (string * V)) as p.
  clear Hs. induction l as [|[k v] l IH]; intros p Hp; [by rewrite app_nil_r|]. simpl.
  rewrite insert_last.
  - rewrite IH; rewrite <- app_assoc; done.
  - by apply (sorted_before p k v l).
Qed.
End ops.
End BTreeMap.

Module BTreeSet.
(** Ascending lists without duplicates. *)
Fixpoint insert (s : list string) (x : string) : list string :=
  match s with
  | [] => [x]
  | y :: s' =>
      match String.compare x y with
      | Lt => x :: s
      | Eq => s
      | Gt => y :: insert s' x
      end
  end.

Definition from (l : list string) : list string := foldl insert [] l.

Definition intersection (s t : list string) : list string := filter (fun x => x ∈ t) s.

Lemma elem_of_insert s x y : y ∈ insert s x <-> y = x \/ y ∈ s.
Proof.
  induction s as [|z s IH]; simpl; [set_solver|].
  destruct (String.compare x z) eqn:E; [apply BTreeMap.compare_eq in E as ->|..]; set_solver.
Qed.

Lemma elem_of_from l y : y ∈ from l <-> y ∈ l.
Proof.
  unfold from. enough (forall s, y ∈ foldl insert s l <-> y ∈ s \/ y ∈ l) as ->; [set_solver|].
  induction l as [|x l IH]; intros s; simpl; [set_solver|]. rewrite IH, elem_of_insert. set_solver.
Qed.

Definition sorted (s : list string) : Prop := StronglySorted (fun a b => String.compare a b = Lt) s.

Lemma set_insert_sorted s x : sorted s -> sorted (insert s x).
Proof.
  unfold sorted. induction s as [|y s IH]; simpl; intros Hs; [by repeat constructor|].
  apply StronglySorted_inv in Hs as [Hs Hy]. rewrite Forall_forall in Hy.
  destruct (String.compare x y) eqn:E.
  - constructor; [done|]. by apply Forall_forall.
  - constructor; [constructor; [done|by apply Forall_forall]|]. apply Forall_forall.
    intros z [->|Hz]%elem_of_cons; [done|].
    by eapply (total_trans _ _ string_compare_total x y z); auto.
  - constructor; [by apply IH|]. apply Forall_forall. intros z [->|Hz]%elem_of_insert; [|by apply Hy].
    by rewrite (total_antisym _ _ string_compare_total), E.
Qed.

Lemma from_sorted l : sorted (from l).
Proof.
  unfold from. enough (forall s, sorted s -> sorted (foldl insert s l)) as Hf by (apply Hf; constructor).
  induction l as [|x l IH]; intros s Hs; simpl; [done|]. by apply IH, set_insert_sorted.
Qed.

Lemma filter_sorted (P : string -> Prop) `{!forall x, Decision (P x)} s : sorted s -> sorted (filter P s).
Proof.
  unfold sorted. induction 1 as [|x s Hs IH Hx]; [constructor|]. rewrite filter_cons.
  case_decide; [|done]. constructor; [done|]. rewrite Forall_forall in *.
  intros y [_ Hy]%list_elem_of_filter. auto.
Qed.

(** Two ascending lists with the same elements are equal. *)
Lemma set_sorted_ext s t : sorted s -> sorted t -> (forall x, x ∈ s <-> x ∈ t) -> s = t.
Proof.
  intros Hs Ht Heq. apply (strictly_sorted_unique String.compare); [|done..|].
  - eapply total_on_weaken; [|apply string_compare_total]. done.
  - assert (Hnd : forall l, sorted l -> NoDup l).
    { induction 1 as [|x l _ IH Hx]; constructor; [|done]. intros Hin.
      rewrite Forall_forall in Hx. apply Hx in Hin. by rewrite (proj2 (BTreeMap.compare_eq x x)) in Hin. }
    apply NoDup_Permutation; auto.
Qed.
End BTreeSet.

#[export] Hint Resolve BTreeMap.insert_sorted BTreeSet.set_insert_sorted BTreeSet.from_sorted
  BTreeSet.filter_sorted : sorted.
