(* ===== verification/Json.v ===== *)
(** * JSON values

    [serde_json::Value] as the ODM uses it.  A number is an unsigned or negative
    64-bit integer or a binary64 float; floats are the Standard Library's
    specification floats, with their rounding to nearest.  The text of a value
    is a parameter, [to_json]. *)

From S2P Require Import Prelude BTree.
From Stdlib Require Export SpecFloat.

(** [serde_json::Number]. *)
Inductive Number :=
| PosInt (n : N)
| NegInt (z : Z)
| Float (f : spec_float).

Inductive Value :=
| Null
| Bool (b : bool)
| Num (n : Number)
| Str (s : string)
| Array (items : list Value)
| Object (fields : list (string * Value)).

(** Induction with hypotheses for array items and object fields. *)
Section value_ind.
Context (P : Value -> Prop).
Hypothesis HNull : P Null.
Hypothesis HBool : forall b, P (Bool b).
Hypothesis HNum : forall n, P (Num n).
Hypothesis HStr : forall s, P (Str s).
Hypothesis HArray : forall vs, Forall P vs -> P (Array vs).
Hypothesis HObject : forall fs, Forall (fun kv => P kv.2) fs -> P (Object fs).

Fixpoint value_ind' (v : Value) : P v :=
  match v with
  | Null => HNull
  | Bool b => HBool b
  | Num n => HNum n
  | Str s => HStr s
  | Array vs =>
      HArray vs ((fix go (vs : list Value) : Forall P vs :=
        match vs with
        | [] => List.Forall_nil P
        | v :: vs => List.Forall_cons P v vs (value_ind' v) (go vs)
        end) vs)
  | Object fs =>
      HObject fs ((fix go (fs : list (string * Value)) : Forall (fun kv => P kv.2) fs :=
        match fs with
        | [] => List.Forall_nil _
        | kv :: fs => List.Forall_cons (fun kv => P kv.2) kv fs (value_ind' kv.2) (go fs)
        end) fs)
  end.
End value_ind.

(** ** Integers and floats *)

Definition i64_max : Z := 2 ^ 63 - 1.
Definition i64_min : Z := - 2 ^ 63.

(** Conversion of an integer to binary64. *)
Definition f64_of_Z (z : Z) : spec_float := binary_normalize 53 1024 z 0 false.
Definition f64_add (a b : spec_float) : spec_float := SFadd 53 1024 a b.
Definition f64_is_finite (f : spec_float) : bool :=
  match f with S754_zero _ | S754_finite _ _ _ => true | _ => false end.

Definition as_i64 (n : Number) : option Z :=
  match n with
  | PosInt n => if decide (Z.of_N n <= i64_max)%Z then Some (Z.of_N n) else None
  | NegInt z => Some z
  | Float _ => None
  end.

Definition as_u64 (n : Number) : option N :=
  match n with PosInt n => Some n | _ => None end.

Definition as_f64 (n : Number) : spec_float :=
  match n with
  | PosInt n => f64_of_Z (Z.of_N n)
  | NegInt z => f64_of_Z z
  | Float f => f
  end.

(** [Number::from(i64)] and [Number::from_f64]. *)
Definition number_from_i64 (z : Z) : Number :=
  if decide (0 <= z)%Z then PosInt (Z.to_N z) else NegInt z.
Definition number_from_f64 (f : spec_float) : option Number :=
  if f64_is_finite f then Some (Float f) else None.

(** [i64::checked_add] *)
Definition checked_add (a b : Z) : option Z :=
  if decide (i64_min <= a + b <= i64_max)%Z then Some (a + b)%Z else None.

(** ** Equality *)

Definition number_eqb (a b : Number) : bool :=
  match a, b with
  | PosInt a, PosInt b => bool_decide (a = b)
  | NegInt a, NegInt b => bool_decide (a = b)
  | Float a, Float b => SFeqb a b
  | _, _ => false
  end.

Definition list_eqb {A} (eqb : A -> A -> bool) : list A -> list A -> bool :=
  fix go (xs ys : list A) : bool :=
    match xs, ys with
    | [], [] => true
    | x :: xs, y :: ys => eqb x y && go xs ys
    | _, _ => false
    end.

(** [PartialEq] of values. *)
Fixpoint value_eqb (a b : Value) {struct a} : bool :=
  match a, b with
  | Null, Null => true
  | Bool a, Bool b => Bool.eqb a b
  | Num a, Num b => number_eqb a b
  | Str a, Str b => bool_decide (a = b)
  | Array xs, Array ys => list_eqb value_eqb xs ys
  | Object xs, Object ys =>
      list_eqb (fun x y => bool_decide (x.1 = y.1) && value_eqb x.2 y.2) xs ys
  | _, _ => false
  end.

(** ** Accessors *)

Definition as_object (v : Value) : option (list (string * Value)) :=
  match v with Object fs => Some fs | _ => None end.
Definition as_array (v : Value) : option (list Value) :=
  match v with Array vs => Some vs | _ => None end.
Definition is_null (v : Value) : bool := match v with Null => true | _ => false end.
Definition is_number (v : Value) : bool := match v with Num _ => true | _ => false end.

(** A field of an object. *)
Definition field (v : Value) (k : string) : option Value :=
  match v with Object fs => BTreeMap.get fs k | _ => None end.

(** The JSON text of a value, [serde_json::to_string]. *)
Class JsonText := { to_json : Value -> string }.

(** ** Equality up to the sign of zero *)

Definition plain_number (n : Number) : bool :=
  match n with Float (S754_zero true) => false | _ => true end.

(** No float in the value is the negative zero. *)
Fixpoint no_negative_zero (v : Value) : bool :=
  match v with
  | Num n => plain_number n
  | Array vs => forallb no_negative_zero vs
  | Object fs => forallb (fun kv => no_negative_zero kv.2) fs
  | _ => true
  end.

Lemma number_eqb_eq a b :
  plain_number a = true -> plain_number b = true -> number_eqb a b = true -> a = b.
Proof.
  destruct a as [a|a|f], b as [b|b|g]; try done; simpl.
  - by intros _ _ ->%bool_decide_eq_true.
  - by intros _ _ ->%bool_decide_eq_true.
  - unfold SFeqb. destruct f as [[]|[]| |[] m e], g as [[]|[]| |[] m' e']; simpl; try done;
      intros _ _; destruct (Z.compare e e') eqn:He; try done;
      apply Z.compare_eq in He as ->; destruct (Pos.compare_cont Eq m m') eqn:Hm; try done;
      by apply Pos.compare_eq in Hm as ->.
Qed.

Lemma list_eqb_eq {A} (eqb : A -> A -> bool) (ok : A -> bool) xs ys :
  Forall (fun x => forall y, ok x = true -> ok y = true -> eqb x y = true -> x = y) xs ->
  forallb ok xs = true -> forallb ok ys = true -> list_eqb eqb xs ys = true -> xs = ys.
Proof.
  intros Hall. revert ys. induction Hall as [|x xs Hx _ IH]; intros [|y ys]; simpl; try done.
  rewrite !andb_true_iff. intros [? ?] [? ?] [? ?]. f_equal; auto.
Qed.

(** Equal values without a negative zero are identical. *)
Lemma value_eqb_eq a b :
  no_negative_zero a = true -> no_negative_zero b = true -> value_eqb a b = true -> a = b.
Proof.
  revert b. induction a as [|a|a|a|xs IH|xs IH] using value_ind'; intros [|b|b|b|ys|ys]; try done; simpl.
  - by intros _ _ ->%Bool.eqb_prop.
  - intros ? ? ?. f_equal. by apply number_eqb_eq.
  - by intros _ _ ->%bool_decide_eq_true.
  - intros ? ? ?. f_equal. by eapply list_eqb_eq.
  - intros ? ? ?. f_equal. eapply (list_eqb_eq _ (fun kv => no_negative_zero kv.2)); [|done..].
    eapply Forall_impl; [exact IH|]. intros [k v] Hv [k' v'] ? ?. simpl in *.
    rewrite andb_true_iff, bool_decide_eq_true. intros [-> ?]. f_equal. auto.
Qed.
