(* ===== verification/OdmSchema.v ===== *)
(** * Collection schemas: src/odm/schema.rs and src/odm/error.rs

    The errors, field and model definitions with their builders, and the
    validation of schemas and documents. *)

From S2P Require Import Prelude BTree Json.

Inductive OdmError :=
| InvalidSchema (message : string)
| Validation (field message : string)
| DuplicateKey (field value : string)
| InvalidQuery (message : string)
| InvalidUpdate (message : string)
| ImmutableField (field : string)
| UnsupportedConsistency (message : string)
| Storage (message : string)
| Guardian (message : string)
| Serialization (message : string).

#[global] Instance odm_error_eq_dec : EqDecision OdmError.
Proof. solve_decision. Defined.

(** [s.trim().is_empty()]: only Unicode white space, in UTF-8. *)
Definition byte (a : ascii) : N := N_of_ascii a.

Definition space1 (a : ascii) : bool :=
  bool_decide (9 <= byte a <= 13)%N || bool_decide (byte a = 32)%N.
Definition space2 (a b : ascii) : bool :=
  bool_decide (byte a = 194)%N && (bool_decide (byte b = 133)%N || bool_decide (byte b = 160)%N).
Definition space3 (a b c : ascii) : bool :=
  match byte a, byte b, byte c with
  | 225%N, 154%N, 128%N => true
  | 226%N, 128%N, c =>
      bool_decide (128 <= c <= 138)%N || bool_decide (c = 168)%N || bool_decide (c = 169)%N ||
      bool_decide (c = 175)%N
  | 226%N, 129%N, 159%N => true
  | 227%N, 128%N, 128%N => true
  | _, _, _ => false
  end.

Fixpoint is_blank (s : string) : bool :=
  match s with
  | String.EmptyString => true
  | String.String a s1 =>
      if space1 a then is_blank s1
      else match s1 with
           | String.EmptyString => false
           | String.String b s2 =>
               if space2 a b then is_blank s2
               else match s2 with
                    | String.EmptyString => false
                    | String.String c s3 => if space3 a b c then is_blank s3 else false
                    end
           end
  end.

Module FieldType.
Inductive t := Any | String | Number | Boolean | Object | Array | Timestamp.

Definition matches (self : t) (value : Value) : bool :=
  match self with
  | Any => true
  | String | Timestamp => match value with Str _ => true | _ => false end
  | Number => match value with Num _ => true | _ => false end
  | Boolean => match value with Bool _ => true | _ => false end
  | Object => match value with Json.Object _ => true | _ => false end
  | Array => match value with Json.Array _ => true | _ => false end
  end.

(** The [Debug] rendering. *)
Definition debug (self : t) : string :=
  match self with
  | Any => "Any"
  | String => "String"
  | Number => "Number"
  | Boolean => "Boolean"
  | Object => "Object"
  | Array => "Array"
  | Timestamp => "Timestamp"
  end.
End FieldType.

Module FieldDefinition.
Record t := mk {
  name : string;
  field_type : FieldType.t;
  is_required : bool;
  is_nullable : bool;
  is_primary_key : bool;
  is_unique : bool;
  is_indexed : bool
}.

Definition new (name : string) (field_type : FieldType.t) : t :=
  mk name field_type false false false false false.

Definition required (self : t) : t :=
  mk (name self) (field_type self) true (is_nullable self) (is_primary_key self) (is_unique self)
     (is_indexed self).

Definition nullable (self : t) : t :=
  mk (name self) (field_type self) (is_required self) true (is_primary_key self) (is_unique self)
     (is_indexed self).

Definition primary_key (self : t) : t :=
  mk (name self) (field_type self) true (is_nullable self) true true true.

Definition unique (self : t) : t :=
  mk (name self) (field_type self) (is_required self) (is_nullable self) (is_primary_key self)
     true true.

Definition indexed (self : t) : t :=
  mk (name self) (field_type self) (is_required self) (is_nullable self) (is_primary_key self)
     (is_unique self) true.
End FieldDefinition.

Module TimestampDefinition.
Record t := mk { created_at : string; updated_at : string }.
End TimestampDefinition.

Module ModelSchema.
Record t := mk {
  model_name : string;
  collection : string;
  fields : list (string * FieldDefinition.t);
  primary_key : string;
  strict : bool;
  auto_generate_primary_key : bool;
  timestamps : option TimestampDefinition.t;
  version : N
}.

Definition new (model_name collection : string) : t :=
  mk model_name collection [] "_id" true true None 1.

Definition set_fields (self : t) (fs : list (string * FieldDefinition.t)) : t :=
  mk (model_name self) (collection self) fs (primary_key self) (strict self)
     (auto_generate_primary_key self) (timestamps self) (version self).

Definition set_primary_key (self : t) (k : string) : t :=
  mk (model_name self) (collection self) (fields self) k (strict self)
     (auto_generate_primary_key self) (timestamps self) (version self).

Definition add_field (self : t) (field : FieldDefinition.t) : t :=
  let self := if FieldDefinition.is_primary_key field
              then set_primary_key self (FieldDefinition.name field) else self in
  set_fields self (BTreeMap.insert (fields self) (FieldDefinition.name field) field).

Definition set_collection (self : t) (c : string) : t :=
  mk (model_name self) c (fields self) (primary_key self) (strict self)
     (auto_generate_primary_key self) (timestamps self) (version self).

Definition set_strict (self : t) (b : bool) : t :=
  mk (model_name self) (collection self) (fields self) (primary_key self) b
     (auto_generate_primary_key self) (timestamps self) (version self).

Definition set_auto_generate_primary_key (self : t) (b : bool) : t :=
  mk (model_name self) (collection self) (fields self) (primary_key self) (strict self) b
     (timestamps self) (version self).

Definition set_version (self : t) (n : N) : t :=
  mk (model_name self) (collection self) (fields self) (primary_key self) (strict self)
     (auto_generate_primary_key self) (timestamps self) n.

Definition schemaless (c : string) : t :=
  add_field (set_strict (new "Document" c) false)
    (FieldDefinition.required (FieldDefinition.primary_key
       (FieldDefinition.new "_id" FieldType.String))).

Definition enable_timestamps (self : t) (created_at updated_at : string) : t :=
  let fs := BTreeMap.or_insert (fields self) created_at
              (FieldDefinition.new created_at FieldType.Timestamp) in
  let fs := BTreeMap.or_insert fs updated_at
              (FieldDefinition.new updated_at FieldType.Timestamp) in
  mk (model_name self) (collection self) fs (primary_key self) (strict self)
     (auto_generate_primary_key self) (Some (TimestampDefinition.mk created_at updated_at))
     (version self).

Definition indexed_fields (self : t) : list string :=
  BTreeSet.from (FieldDefinition.name <$>
    List.filter (fun f => FieldDefinition.is_indexed f || FieldDefinition.is_unique f ||
                          FieldDefinition.is_primary_key f) (fields self).*2).

Definition unique_fields (self : t) : list string :=
  BTreeSet.from (FieldDefinition.name <$>
    List.filter (fun f => FieldDefinition.is_unique f || FieldDefinition.is_primary_key f)
      (fields self).*2).

Definition validate_definition (self : t) : result OdmError unit :=
  if is_blank (collection self) then Err (InvalidSchema "collection name cannot be empty")
  else
    let primary_fields := List.filter FieldDefinition.is_primary_key (fields self).*2 in
    if decide (1 < length primary_fields) then Err (InvalidSchema "only one primary key is supported")
    else
      let? _ :=
        match primary_fields with
        | primary :: _ =>
            if decide (FieldDefinition.name primary <> primary_key self) then
              Err (InvalidSchema ("primary key metadata is inconsistent for `" +:+
                                  FieldDefinition.name primary +:+ "`"))
            else Ok tt
        | [] => Ok tt
        end in
      if strict self && negb (BTreeMap.contains_key (fields self) (primary_key self)) then
        Err (InvalidSchema ("primary key `" +:+ primary_key self +:+ "` is not declared as a field"))
      else Ok tt.

(** The check of one declared field. *)
Definition validate_field (object : list (string * Value)) (field : FieldDefinition.t)
    : result OdmError unit :=
  match BTreeMap.get object (FieldDefinition.name field) with
  | None =>
      if FieldDefinition.is_required field
      then Err (Validation (FieldDefinition.name field) "required field is missing") else Ok tt
  | Some Null =>
      if FieldDefinition.is_required field && negb (FieldDefinition.is_nullable field)
      then Err (Validation (FieldDefinition.name field) "required field cannot be null") else Ok tt
  | Some value =>
      if negb (FieldType.matches (FieldDefinition.field_type field) value)
      then Err (Validation (FieldDefinition.name field)
                  ("expected " +:+ FieldType.debug (FieldDefinition.field_type field)))
      else Ok tt
  end.

(** [for x in xs { check(x)?; }] *)
Fixpoint check_all {A} (check : A -> result OdmError unit) (xs : list A) : result OdmError unit :=
  match xs with
  | [] => Ok tt
  | x :: xs => let? _ := check x in check_all check xs
  end.

Definition validate_key (self : t) (key : string) : result OdmError unit :=
  if bool_decide (key <> "_id") && negb (BTreeMap.contains_key (fields self) key)
  then Err (Validation key "field is not declared in the strict schema") else Ok tt.

Definition validate_document (self : t) (document : Value) : result OdmError unit :=
  match as_object document with
  | None => Err (Validation "$document" "document must be a JSON object")
  | Some object =>
      let? _ := check_all (validate_field object) (fields self).*2 in
      if strict self then check_all (validate_key self) object.*1 else Ok tt
  end.

(** [object_mut] *)
Definition object_mut (document : Value) : result OdmError (list (string * Value)) :=
  match document with
  | Object fs => Ok fs
  | _ => Err (Validation "$document" "document must be a JSON object")
  end.
End ModelSchema.
