(* ===== verification/OdmQuery.v ===== *)
(** * Queries over documents: src/odm/query.rs

    Dotted paths, equality and order of values, field operators and logical
    operators; an unknown operator or an operand of the wrong type is an error. *)

From S2P Require Import Prelude BTree Json OdmSchema.

(** [path.split('.')] *)
Fixpoint split_dot (s : string) : list string :=
  match s with
  | String.EmptyString => [""]
  | String.String a s =>
      if decide (a = "."%char) then "" :: split_dot s
      else match split_dot s with
           | seg :: segs => String.String a seg :: segs
           | [] => [String.String a ""]
           end
  end.

(** [s.starts_with('$')] *)
Definition is_operator (s : string) : bool :=
  match s with String.String a _ => bool_decide (a = "$"%char) | _ => false end.

Fixpoint value_at_segments (document : Value) (segments : list string) : option Value :=
  match segments with
  | [] => Some document
  | segment :: segments =>
      match as_object document with
      | None => None
      | Some object =>
          match BTreeMap.get object segment with
          | None => None
          | Some next => value_at_segments next segments
          end
      end
  end.

Definition value_at_path (document : Value) (path : string) : option Value :=
  value_at_segments document (split_dot path).

Definition values_equal (actual expected : Value) : bool :=
  value_eqb actual expected ||
  match as_array actual with
  | Some items => existsb (fun item => value_eqb item expected) items
  | None => false
  end.

Definition compare (actual : option Value) (expected : Value) (predicate : comparison -> bool)
    : bool :=
  match actual with
  | None => false
  | Some actual =>
      let ordering :=
        match actual, expected with
        | Num l, Num r => SFcompare (as_f64 l) (as_f64 r)
        | Str l, Str r => Some (String.compare l r)
        | _, _ => None
        end in
      match ordering with Some o => predicate o | None => false end
  end.

Definition is_some_and {A} (x : option A) (p : A -> bool) : bool :=
  match x with Some a => p a | None => false end.
Definition is_none_or {A} (x : option A) (p : A -> bool) : bool :=
  match x with Some a => p a | None => true end.

(** One operator of a field condition. *)
Definition matches_operator (actual : option Value) (operator : string) (operand : Value)
    : result OdmError bool :=
  if decide (operator = "$eq") then Ok (is_some_and actual (fun v => values_equal v operand))
  else if decide (operator = "$ne") then
    Ok (is_none_or actual (fun v => negb (values_equal v operand)))
  else if decide (operator = "$gt") then
    Ok (compare actual operand (fun o => bool_decide (o = Gt)))
  else if decide (operator = "$gte") then
    Ok (compare actual operand (fun o => bool_decide (o <> Lt)))
  else if decide (operator = "$lt") then
    Ok (compare actual operand (fun o => bool_decide (o = Lt)))
  else if decide (operator = "$lte") then
    Ok (compare actual operand (fun o => bool_decide (o <> Gt)))
  else if decide (operator = "$in") then
    match as_array operand with
    | None => Err (InvalidQuery "$in expects an array")
    | Some values => Ok (is_some_and actual (fun v => existsb (values_equal v) values))
    end
  else if decide (operator = "$nin") then
    match as_array operand with
    | None => Err (InvalidQuery "$nin expects an array")
    | Some values => Ok (is_none_or actual (fun v => forallb (fun c => negb (values_equal v c)) values))
    end
  else if decide (operator = "$exists") then
    match operand with
    | Bool expected => Ok (Bool.eqb (bool_decide (is_Some actual)) expected)
    | _ => Err (InvalidQuery "$exists expects a boolean")
    end
  else if decide (operator = "$size") then
    match (match operand with Num n => as_u64 n | _ => None end) with
    | None => Err (InvalidQuery "$size expects a non-negative integer")
    | Some expected =>
        Ok (is_some_and (actual ≫= as_array)
              (fun items => bool_decide (N.of_nat (length items) = expected)))
    end
  else Err (InvalidQuery ("unsupported field operator `" +:+ operator +:+ "`")).

(** [for x in xs { if !check(x)? { return Ok(false); } } Ok(true)] *)
Definition all_ok {A} (check : A -> result OdmError bool) : list A -> result OdmError bool :=
  fix go (xs : list A) : result OdmError bool :=
    match xs with
    | [] => Ok true
    | x :: xs => let? b := check x in if b then go xs else Ok false
    end.

(** [for x in xs { if check(x)? { return true; } } false] *)
Definition any_ok {A} (check : A -> result OdmError bool) : list A -> result OdmError bool :=
  fix go (xs : list A) : result OdmError bool :=
    match xs with
    | [] => Ok false
    | x :: xs => let? b := check x in if b then Ok true else go xs
    end.

Definition matches_condition (actual : option Value) (condition : Value) : result OdmError bool :=
  let equality := Ok (is_some_and actual (fun v => values_equal v condition)) in
  match as_object condition with
  | Some operators =>
      if existsb is_operator operators.*1
      then all_ok (fun kv => matches_operator actual kv.1 kv.2) operators
      else equality
  | None => equality
  end.

(** [matches_query] and the loop of [matches_object]. *)
Fixpoint matches_query (document query : Value) {struct query} : result OdmError bool :=
  match query with
  | Object fields =>
      all_ok (fun kv : string * Value =>
        match kv with
        | (field, condition) =>
            if decide (field = "$and") then
              match condition with
              | Array clauses => all_ok (matches_query document) clauses
              | _ => Err (InvalidQuery "$and expects an array")
              end
            else if decide (field = "$or") then
              match condition with
              | Array clauses => any_ok (matches_query document) clauses
              | _ => Err (InvalidQuery "$or expects an array")
              end
            else if decide (field = "$nor") then
              match condition with
              | Array clauses =>
                  let? b := any_ok (matches_query document) clauses in Ok (negb b)
              | _ => Err (InvalidQuery "$nor expects an array")
              end
            else if is_operator field then
              Err (InvalidQuery ("unsupported logical operator `" +:+ field +:+ "`"))
            else matches_condition (value_at_path document field) condition
        end) fields
  | _ => Err (InvalidQuery "query must be a JSON object")
  end.
