(* ===== verification/OdmUpdate.v ===== *)
(** * Updates of documents: src/odm/update.rs

    An update works on the caller's copy of the document, which is dropped when
    the update fails: an error carries no document. *)

From S2P Require Import Prelude BTree Json OdmSchema OdmQuery.

Definition object_operand (operator : string) (value : Value)
    : result OdmError (list (string * Value)) :=
  match as_object value with
  | Some fs => Ok fs
  | None => Err (InvalidUpdate (operator +:+ " expects an object"))
  end.

Definition ensure_mutable (path : string) (immutable_fields : list string)
    : result OdmError unit :=
  match List.find (fun field => bool_decide (path = field) ||
                                String.prefix (field +:+ ".") path) immutable_fields with
  | Some field => Err (ImmutableField field)
  | None => Ok tt
  end.

(** The walk of [set_path] down to the last segment. *)
Fixpoint set_segments (path : string) (document : Value) (segments : list string) (value : Value)
    : result OdmError (Value * bool) :=
  match segments with
  | [] => Err (InvalidUpdate ("invalid field path `" +:+ path +:+ "`"))
  | [key] =>
      match as_object document with
      | None => Err (InvalidUpdate ("cannot set `" +:+ path +:+ "` on a non-object"))
      | Some object =>
          let changed := match BTreeMap.get object key with
                         | Some old => negb (value_eqb old value)
                         | None => true
                         end in
          Ok (Object (BTreeMap.insert object key value), changed)
      end
  | segment :: rest =>
      match as_object document with
      | None =>
          Err (InvalidUpdate ("cannot traverse `" +:+ path +:+ "` through a non-object"))
      | Some object =>
          let child := default (Object []) (BTreeMap.get object segment) in
          let? r := set_segments path child rest value in
          Ok (Object (BTreeMap.insert object segment r.1), r.2)
      end
  end.

Definition set_path (document : Value) (path : string) (value : Value)
    : result OdmError (Value * bool) :=
  let segments := split_dot path in
  if existsb (fun s => bool_decide (s = "")) segments
  then Err (InvalidUpdate ("invalid field path `" +:+ path +:+ "`"))
  else set_segments path document segments value.

(** The walk of [unset_path]; a missing step changes nothing. *)
Fixpoint unset_segments (document : Value) (segments : list string) : Value * bool :=
  match segments with
  | [] => (document, false)
  | [key] =>
      match as_object document with
      | None => (document, false)
      | Some object =>
          (Object (BTreeMap.remove object key), BTreeMap.contains_key object key)
      end
  | segment :: rest =>
      match as_object document with
      | None => (document, false)
      | Some object =>
          match BTreeMap.get object segment with
          | None => (document, false)
          | Some child =>
              let r := unset_segments child rest in
              (Object (BTreeMap.insert object segment r.1), r.2)
          end
      end
  end.

Definition unset_path (document : Value) (path : string) : result OdmError (Value * bool) :=
  let segments := split_dot path in
  if existsb (fun s => bool_decide (s = "")) segments
  then Err (InvalidUpdate ("invalid field path `" +:+ path +:+ "`"))
  else Ok (unset_segments document segments).

Definition value_i64 (v : Value) : option Z := match v with Num n => as_i64 n | _ => None end.
Definition value_f64 (v : Value) : option spec_float :=
  match v with Num n => Some (as_f64 n) | _ => None end.

Definition add_json_numbers (current : option Value) (increment : Value) (path : string)
    : result OdmError Value :=
  let current_i := match current with None => Some 0%Z | Some v => value_i64 v end in
  let fractional :=
    let current_f := match current with
                     | None => S754_zero false
                     | Some v => default (S754_zero false) (value_f64 v)
                     end in
    match value_f64 increment with
    | None => Err (InvalidUpdate ("$inc value for `" +:+ path +:+ "` must be numeric"))
    | Some increment_f =>
        match number_from_f64 (f64_add current_f increment_f) with
        | None => Err (InvalidUpdate ("$inc for `" +:+ path +:+ "` produced a non-finite number"))
        | Some number => Ok (Num number)
        end
    end in
  match current_i, value_i64 increment with
  | Some c, Some i =>
      match checked_add c i with
      | Some sum => Ok (Num (number_from_i64 sum))
      | None => fractional
      end
  | _, _ => fractional
  end.

Definition increment_path (document : Value) (path : string) (increment : Value)
    : result OdmError (Value * bool) :=
  if negb (is_number increment)
  then Err (InvalidUpdate ("$inc value for `" +:+ path +:+ "` must be numeric"))
  else
    let current := value_at_path document path in
    if is_some_and current (fun v => negb (is_number v))
    then Err (InvalidUpdate ("$inc target `" +:+ path +:+ "` must be numeric"))
    else
      let? r := add_json_numbers current increment path in
      set_path document path r.

(** The loop over the fields of one operator. *)
Fixpoint apply_fields (apply : Value -> string -> Value -> result OdmError (Value * bool))
    (immutable_fields : list string) (document : Value) (changed : bool)
    (fields : list (string * Value)) : result OdmError (Value * bool) :=
  match fields with
  | [] => Ok (document, changed)
  | (path, operand) :: fields =>
      let? _ := ensure_mutable path immutable_fields in
      let? r := apply document path operand in
      apply_fields apply immutable_fields r.1 (changed || r.2) fields
  end.

Definition operator_action (operator : string)
    : option (Value -> string -> Value -> result OdmError (Value * bool)) :=
  if decide (operator = "$set") then Some set_path
  else if decide (operator = "$unset") then Some (fun document path _ => unset_path document path)
  else if decide (operator = "$inc") then Some increment_path
  else None.

(** The loop over the operators. *)
Fixpoint apply_operators (immutable_fields : list string) (document : Value) (changed : bool)
    (operations : list (string * Value)) : result OdmError (Value * bool) :=
  match operations with
  | [] => Ok (document, changed)
  | (operator, operand) :: operations =>
      match operator_action operator with
      | None => Err (InvalidUpdate ("unsupported update operator `" +:+ operator +:+ "`"))
      | Some apply =>
          let? fields := object_operand operator operand in
          let? r := apply_fields apply immutable_fields document changed fields in
          apply_operators immutable_fields r.1 r.2 operations
      end
  end.

Definition apply_update (document operations : Value) (immutable_fields : list string)
    : result OdmError (Value * bool) :=
  match as_object operations with
  | None => Err (InvalidUpdate "update operations must be a JSON object")
  | Some [] => Ok (document, false)
  | Some ops =>
      if existsb (fun k => negb (is_operator k)) ops.*1 then
        Err (InvalidUpdate "replacement updates are not supported; use operators such as $set")
      else apply_operators immutable_fields document false ops
  end.
