(* ===== verification/OdmUpdateInv.v ===== *)
(** * What updates do to a document

    Reading back a path that was set, the paths an update leaves alone, and the
    protection of immutable fields. *)

From S2P Require Import Prelude BTree Json OdmSchema OdmQuery OdmUpdate.

(** ** Paths *)

Lemma split_dot_head path :
  exists seg rest, split_dot path = seg :: rest /\
    (path = seg \/ String.prefix (seg +:+ ".") path = true).
Proof.
  induction path as [|a path IH]; simpl; [eauto|]. case_decide as Ha.
  - exists "", (split_dot path). split; [done|]. right. subst. simpl. by destruct path.
  - destruct IH as (seg & rest & -> & IH). exists (String.String a seg), rest. split; [done|].
    destruct IH as [->|Hp]; [by left|right]. simpl.
    destruct (Ascii.ascii_dec a a); [done|done].
Qed.

(** The paths part at some segment. *)
Definition diverge (p q : list string) : Prop :=
  exists pre x y p' q', p = pre ++ x :: p' /\ q = pre ++ y :: q' /\ x <> y.

Lemma value_at_cons d s segs :
  value_at_segments d (s :: segs) = field d s ≫= fun v => value_at_segments v segs.
Proof. by destruct d. Qed.

Lemma set_segments_step path object s s' rest v :
  set_segments path (Object object) (s :: s' :: rest) v =
  let? r := set_segments path (default (Object []) (BTreeMap.get object s)) (s' :: rest) v in
  Ok (Object (BTreeMap.insert object s r.1), r.2).
Proof. done. Qed.

Lemma set_segments_cons path d s rest v d' ch :
  set_segments path d (s :: rest) v = Ok (d', ch) ->
  exists object child, d = Object object /\ d' = Object (BTreeMap.insert object s child) /\
    match rest with
    | [] => child = v /\ ch = match BTreeMap.get object s with
                              | Some old => negb (value_eqb old v)
                              | None => true
                              end
    | _ => set_segments path (default (Object []) (BTreeMap.get object s)) rest v = Ok (child, ch)
    end.
Proof.
  destruct d as [| | | | |object]; destruct rest as [|s' rest]; try done.
  - intros [= <- <-]. by exists object, v.
  - rewrite set_segments_step.
    destruct (set_segments path (default _ _) (s' :: rest) v) as [[child c]|] eqn:Hr; [|done].
    intros [= <- <-]. exists object, child. done.
Qed.

Lemma set_segments_get path d segs v d' ch :
  set_segments path d segs v = Ok (d', ch) -> value_at_segments d' segs = Some v.
Proof.
  revert d d' ch. induction segs as [|s rest IH]; intros d d' ch; [done|].
  intros (object & child & -> & -> & Hr)%set_segments_cons.
  rewrite value_at_cons. simpl. rewrite BTreeMap.get_insert, decide_True by done. simpl.
  destruct rest; [by destruct Hr as [-> _]|]. by eapply IH.
Qed.

Lemma value_at_empty_object s segs : value_at_segments (Object []) (s :: segs) = None.
Proof. done. Qed.

Lemma set_segments_frame path d segs v d' ch q :
  set_segments path d segs v = Ok (d', ch) -> diverge segs q ->
  value_at_segments d' q = value_at_segments d q.
Proof.
  revert d d' ch q. induction segs as [|s rest IH]; intros d d' ch q; [done|].
  intros (object & child & -> & -> & Hr)%set_segments_cons (pre & x & y & p' & q' & Hp & -> & Hne).
  destruct pre as [|s' pre]; simpl in Hp; injection Hp as <- ->.
  - rewrite !app_nil_l, !value_at_cons. simpl. rewrite BTreeMap.get_insert. by rewrite decide_False.
  - change ((s :: pre) ++ y :: q') with (s :: (pre ++ y :: q')). rewrite !value_at_cons. simpl.
    rewrite BTreeMap.get_insert, decide_True by done. simpl.
    destruct (pre ++ x :: p') as [|t rest] eqn:Ht; [by destruct pre|]. rewrite <- Ht in *.
    assert (Hd : diverge (pre ++ x :: p') (pre ++ y :: q')) by by exists pre, x, y, p', q'.
    rewrite Ht in Hr. rewrite <- Ht in Hr. rewrite (IH _ _ _ _ Hr Hd).
    destruct (BTreeMap.get object s); [done|]. simpl. by destruct pre.
Qed.

(** The flag says whether the value at the path differs from the new one. *)
Lemma set_segments_changed path d segs v d' ch :
  set_segments path d segs v = Ok (d', ch) ->
  ch = match value_at_segments d segs with Some old => negb (value_eqb old v) | None => true end.
Proof.
  revert d d' ch. induction segs as [|s rest IH]; intros d d' ch; [done|].
  intros (object & child & -> & -> & Hr)%set_segments_cons. rewrite value_at_cons. simpl.
  destruct rest as [|s' rest]; [by destruct (BTreeMap.get object s), Hr|].
  apply IH in Hr as ->. by destruct (BTreeMap.get object s).
Qed.

Lemma set_path_segments d path v d' ch :
  set_path d path v = Ok (d', ch) -> set_segments path d (split_dot path) v = Ok (d', ch).
Proof. unfold set_path. by case_match. Qed.

(** ** Fields outside the updated path *)

(** [d'] differs from [d] at most in the field [s]. *)
Definition only_field (s : string) (d d' : Value) : Prop :=
  forall f, f <> s -> field d' f = field d f.

Lemma set_path_only d path v d' ch :
  set_path d path v = Ok (d', ch) ->
  exists seg rest, split_dot path = seg :: rest /\ only_field seg d d'.
Proof.
  unfold set_path. case_match; [done|]. destruct (split_dot_head path) as (seg & rest & Hs & _).
  rewrite Hs. intros (object & child & -> & -> & _)%set_segments_cons. exists seg, rest.
  split; [done|]. intros f Hf. simpl. rewrite BTreeMap.get_insert. by rewrite decide_False.
Qed.

Lemma unset_path_only d path d' ch :
  unset_path d path = Ok (d', ch) ->
  exists seg rest, split_dot path = seg :: rest /\ only_field seg d d'.
Proof.
  unfold unset_path. case_match; [done|]. destruct (split_dot_head path) as (seg & rest & Hs & _).
  rewrite Hs. intros [= Hu]. exists seg, rest. split; [done|]. intros f Hf.
  destruct d as [| | | | |object]; cbn [unset_segments as_object] in Hu;
    try (destruct rest; by simplify_eq).
  destruct rest as [|s' rest].
  - injection Hu as <- _. simpl. rewrite BTreeMap.get_remove. by rewrite decide_False.
  - destruct (BTreeMap.get object seg) as [child|]; [|by simplify_eq].
    injection Hu as <- _. simpl. rewrite BTreeMap.get_insert. by rewrite decide_False.
Qed.

Lemma increment_path_only d path v d' ch :
  increment_path d path v = Ok (d', ch) ->
  exists seg rest, split_dot path = seg :: rest /\ only_field seg d d'.
Proof.
  unfold increment_path. repeat (case_match; try done). apply set_path_only.
Qed.

Lemma ensure_mutable_head path imm f seg rest :
  ensure_mutable path imm = Ok tt -> f ∈ imm -> split_dot path = seg :: rest -> f <> seg.
Proof.
  unfold ensure_mutable. destruct (List.find _ imm) eqn:Hf; [done|]. intros _ Hin Hs ->.
  destruct (split_dot_head path) as (seg' & rest' & Hs' & Hp).
  rewrite Hs in Hs'. injection Hs' as <- <-.
  apply list_elem_of_In, (List.find_none _ _ Hf) in Hin.
  apply orb_false_iff in Hin as [H1%bool_decide_eq_false H2]. destruct Hp as [?|Hp]; [done|congruence].
Qed.

Lemma action_only op act d path v d' ch :
  operator_action op = Some act -> act d path v = Ok (d', ch) ->
  exists seg rest, split_dot path = seg :: rest /\ only_field seg d d'.
Proof.
  unfold operator_action. repeat (case_decide; [intros [= <-]|]); [..|done].
  - apply set_path_only.
  - apply unset_path_only.
  - apply increment_path_only.
Qed.

Lemma apply_fields_immutable op act imm d ch fs d' ch' f :
  operator_action op = Some act -> apply_fields act imm d ch fs = Ok (d', ch') -> f ∈ imm ->
  field d' f = field d f.
Proof.
  intros Hop. revert d ch. induction fs as [|[path v] fs IH]; intros d ch; simpl; [by intros [= <- _]|].
  destruct (ensure_mutable path imm) as [[]|] eqn:He; [|done].
  destruct (act d path v) as [[d1 c1]|] eqn:Ha; [|done]. simpl. intros Hr Hin.
  rewrite (IH _ _ Hr Hin). destruct (action_only _ _ _ _ _ _ _ Hop Ha) as (seg & rest & Hs & Ho).
  apply Ho. by eapply ensure_mutable_head.
Qed.

Lemma apply_operators_immutable imm d ch ops d' ch' f :
  apply_operators imm d ch ops = Ok (d', ch') -> f ∈ imm -> field d' f = field d f.
Proof.
  revert d ch. induction ops as [|[op operand] ops IH]; intros d ch; simpl; [by intros [= <- _]|].
  destruct (operator_action op) as [act|] eqn:Hop; [|done].
  destruct (object_operand op operand) as [fs|]; [|done].
  destruct (apply_fields act imm d ch fs) as [[d1 c1]|] eqn:Hf; [|done]. simpl. intros Hr Hin.
  rewrite (IH _ _ Hr Hin). by eapply apply_fields_immutable.
Qed.

Lemma apply_update_immutable d ops imm d' ch f :
  apply_update d ops imm = Ok (d', ch) -> f ∈ imm -> field d' f = field d f.
Proof.
  unfold apply_update. destruct (as_object ops) as [[|kv fs]|]; [by intros [= <- _]| |done].
  case_match; [done|]. apply apply_operators_immutable.
Qed.
