(* ===== verification/OdmIndex.v ===== *)
(** * Collection indexes: src/odm/index.rs

    The unique and secondary tables, their construction from the documents, and
    the candidates of a query. *)

From S2P Require Import Prelude BTree Json OdmSchema OdmQuery.

Module IndexMetadata.
Record t := mk { field : string; primary : bool; unique : bool }.
End IndexMetadata.

(** [for kv in map { f(kv)?; }] over the entries of a map, in place. *)
Fixpoint update_entries {V} (f : string -> V -> result OdmError V) (m : list (string * V))
    : result OdmError (list (string * V)) :=
  match m with
  | [] => Ok []
  | (k, v) :: m =>
      let? v' := f k v in
      let? m' := update_entries f m in
      Ok ((k, v') :: m')
  end.

Module IndexCatalog.
Section ops.
Context `{JsonText}.

Record t := mk {
  unique : list (string * list (string * string));
  secondary : list (string * list (string * list string))
}.

Definition index_token (value : Value) : string := to_json value.

Definition index_tokens (value : Value) : list string :=
  let tokens := BTreeSet.from [index_token value] in
  match value with
  | Array items => foldl (fun ts item => BTreeSet.insert ts (index_token item)) tokens items
  | _ => tokens
  end.

(** The tokens a document contributes to the index of [field]. *)
Definition field_tokens (document : Value) (field : string) : list string :=
  match value_at_path document field with
  | None => []
  | Some value => if is_null value then [] else index_tokens value
  end.

Fixpoint insert_unique (id field : string) (values : list (string * string)) (tokens : list string)
    : result OdmError (list (string * string)) :=
  match tokens with
  | [] => Ok values
  | token :: tokens =>
      let existing := BTreeMap.get values token in
      let values := BTreeMap.insert values token id in
      if is_some_and existing (fun e => bool_decide (e <> id))
      then Err (DuplicateKey field token)
      else insert_unique id field values tokens
  end.

Definition insert_secondary (id : string) (values : list (string * list string))
    (tokens : list string) : list (string * list string) :=
  foldl (fun vs token =>
           BTreeMap.insert vs token (BTreeSet.insert (default [] (BTreeMap.get vs token)) id))
    values tokens.

(** The body of the loop over the documents. *)
Definition index_document (catalog : t) (id : string) (document : Value) : result OdmError t :=
  let? u := update_entries (fun field values =>
              insert_unique id field values (field_tokens document field)) (unique catalog) in
  let? s := update_entries (fun field values =>
              Ok (insert_secondary id values (field_tokens document field))) (secondary catalog) in
  Ok (mk u s).

Fixpoint index_documents (catalog : t) (documents : list (string * Value)) : result OdmError t :=
  match documents with
  | [] => Ok catalog
  | (id, document) :: documents =>
      let? catalog := index_document catalog id document in
      index_documents catalog documents
  end.

Definition empty_tables {V} (fields : list string) : list (string * list V) :=
  foldl (fun m field => BTreeMap.insert m field []) [] fields.

Definition default_catalog : t := mk [] [].

Definition rebuild (schema : ModelSchema.t) (documents : list (string * Value))
    : result OdmError t :=
  index_documents (mk (empty_tables (ModelSchema.unique_fields schema))
                      (empty_tables (ModelSchema.indexed_fields schema))) documents.

(** The value a condition compares an indexed field with, if it is an
    equality. *)
Definition equality (condition : Value) : option Value :=
  match as_object condition with
  | Some object => if decide (length object = 1) then BTreeMap.get object "$eq" else None
  | None => Some condition
  end.

Definition narrow (self : t) (candidates : option (list string)) (kv : string * Value)
    : option (list string) :=
  if is_operator kv.1 then candidates
  else
    match BTreeMap.get (secondary self) kv.1, equality kv.2 with
    | Some index, Some value =>
        if is_null value then candidates
        else
          let matches := default [] (BTreeMap.get index (index_token value)) in
          Some match candidates with
               | Some existing => BTreeSet.intersection existing matches
               | None => matches
               end
    | _, _ => candidates
    end.

Definition candidates (self : t) (query : Value) : option (list string) :=
  match as_object query with
  | None => None
  | Some fields => foldl (narrow self) None fields
  end.

Definition metadata (schema : ModelSchema.t) : list IndexMetadata.t :=
  (fun field => IndexMetadata.mk field (bool_decide (field = ModelSchema.primary_key schema))
                  (bool_decide (field ∈ ModelSchema.unique_fields schema)))
    <$> ModelSchema.indexed_fields schema.
End ops.
End IndexCatalog.
