(* ===== verification/OdmIndexInv.v ===== *)
(** * What the indexes contain

    Rebuilding succeeds exactly when no two documents share a token of a unique
    field, and the secondary tables then list, for every token, the documents
    that contribute it. *)

From S2P Require Import Prelude BTree Json OdmSchema OdmQuery OdmIndex.
Import IndexCatalog.

Section index.
Context `{JsonText}.

Lemma elem_of_index_tokens v tok :
  tok ∈ index_tokens v <->
  tok = to_json v \/ exists items item, v = Array items /\ item ∈ items /\ tok = to_json item.
Proof.
  unfold index_tokens, index_token. destruct v as [| | | |items|];
    try (rewrite BTreeSet.elem_of_from, list_elem_of_singleton; naive_solver).
  assert (Hgen : forall s, tok ∈ foldl (fun ts item => BTreeSet.insert ts (to_json item)) s items <->
    tok ∈ s \/ exists item, item ∈ items /\ tok = to_json item).
  { induction items as [|x items IH]; intros s; simpl; [set_solver|].
    rewrite IH, BTreeSet.elem_of_insert. set_solver. }
  rewrite Hgen, BTreeSet.elem_of_from, list_elem_of_singleton. naive_solver.
Qed.

Lemma update_entries_get {V} (f : string -> V -> result OdmError V) m m' k :
  update_entries f m = Ok m' ->
  match BTreeMap.get m k with
  | Some v => exists v', f k v = Ok v' /\ BTreeMap.get m' k = Some v'
  | None => BTreeMap.get m' k = None
  end.
Proof.
  revert m'. induction m as [|[a v] m IH]; intros m'; simpl; [by intros [= <-]|].
  destruct (f a v) as [v'|] eqn:Hf; [|done].
  destruct (update_entries f m) as [m1|] eqn:Hm; [|done]. intros [= <-]. simpl.
  case_decide; [subst; eauto|]. by apply IH.
Qed.

Lemma update_entries_err {V} (f : string -> V -> result OdmError V) m e :
  update_entries f m = Err e -> exists k v, (k, v) ∈ m /\ f k v = Err e.
Proof.
  induction m as [|[a v] m IH]; simpl; [done|].
  destruct (f a v) as [v'|] eqn:Hf.
  - destruct (update_entries f m) as [m1|]; [done|]. intros [= ->].
    destruct IH as (k & w & Hin & Hk); [done|]. exists k, w. split; [by right|done].
  - intros [= ->]. exists a, v. split; [by left|done].
Qed.

Lemma update_entries_keys {V} (f : string -> V -> result OdmError V) m m' :
  update_entries f m = Ok m' -> m'.*1 = m.*1.
Proof.
  revert m'. induction m as [|[a v] m IH]; intros m'; simpl; [by intros [= <-]|].
  destruct (f a v); [|done]. destruct (update_entries f m); [|done].
  intros [= <-]. simpl. f_equal. by apply IH.
Qed.

(** ** The unique tables *)

(** [owned docs field values]: the table maps each token to the one document
    that has it. *)
Definition owned (docs : list (string * Value)) (field : string) (values : list (string * string))
    : Prop :=
  forall tok id, BTreeMap.get values tok = Some id <->
    exists d, (id, d) ∈ docs /\ tok ∈ field_tokens d field.

Lemma insert_unique_ok id field values tokens values' :
  insert_unique id field values tokens = Ok values' ->
  (forall tok, BTreeMap.get values' tok =
     if decide (tok ∈ tokens) then Some id else BTreeMap.get values tok) /\
  (forall tok other, tok ∈ tokens -> BTreeMap.get values tok = Some other -> other = id).
Proof.
  revert values. induction tokens as [|t ts IH]; intros values; simpl.
  - intros [= <-]. split; [done|by intros ?? ?%elem_of_nil].
  - destruct (is_some_and _ _) eqn:Hex; [done|]. intros [Hget Hown]%IH. split.
    + intros tok. rewrite Hget, BTreeMap.get_insert.
      destruct (decide (tok ∈ t :: ts)) as [Hc|Hc]; rewrite elem_of_cons in Hc;
        destruct (decide (tok ∈ ts)), (decide (tok = t)); tauto.
    + intros tok other Hin Hg. destruct (decide (tok = t)) as [->|Hne].
      * rewrite Hg in Hex. simpl in Hex. apply bool_decide_eq_false in Hex.
        by destruct (decide (other = id)).
      * apply elem_of_cons in Hin as [->|Hin]; [done|].
        apply (Hown tok); [done|]. rewrite BTreeMap.get_insert. by rewrite decide_False.
Qed.

Lemma insert_unique_err id field values tokens e :
  insert_unique id field values tokens = Err e ->
  exists tok other, e = DuplicateKey field tok /\ tok ∈ tokens /\
    BTreeMap.get values tok = Some other /\ other <> id.
Proof.
  revert values. induction tokens as [|t ts IH]; intros values; simpl; [done|].
  destruct (is_some_and _ _) eqn:Hex.
  - intros [= <-]. destruct (BTreeMap.get values t) as [other|] eqn:Hg; [|done]. simpl in Hex.
    apply bool_decide_eq_true in Hex. exists t, other. split_and!; [done|by left|done..].
  - intros (tok & other & -> & Hin & Hg & Hne)%IH. rewrite BTreeMap.get_insert in Hg.
    case_decide; [congruence|]. exists tok, other. split_and!; [done|by right|done..].
Qed.

Lemma owned_snoc docs field values id d values' :
  owned docs field values ->
  insert_unique id field values (field_tokens d field) = Ok values' ->
  owned (docs ++ [(id, d)]) field values'.
Proof.
  intros Hown [Hget Hsame]%insert_unique_ok tok id'. rewrite Hget.
  setoid_rewrite elem_of_app. setoid_rewrite list_elem_of_singleton. case_decide as Hin.
  - split; [intros [= <-]; exists d; tauto|].
    intros (d' & [Hd'|[= -> ->]] & Ht); [|done]. f_equal. symmetry.
    apply (Hsame tok); [done|]. apply Hown. eauto.
  - rewrite (Hown tok id'). split; [naive_solver|]. intros (d' & [Hd'|[= -> ->]] & Ht); [eauto|done].
Qed.

(** ** The secondary tables *)

Definition listed (docs : list (string * Value)) (field : string)
    (values : list (string * list string)) : Prop :=
  forall tok id, id ∈ default [] (BTreeMap.get values tok) <->
    exists d, (id, d) ∈ docs /\ tok ∈ field_tokens d field.

Definition all_sorted (values : list (string * list string)) : Prop :=
  forall tok ids, BTreeMap.get values tok = Some ids -> BTreeSet.sorted ids.

Lemma insert_secondary_get id values tokens tok id' :
  id' ∈ default [] (BTreeMap.get (insert_secondary id values tokens) tok) <->
  id' ∈ default [] (BTreeMap.get values tok) \/ (id' = id /\ tok ∈ tokens).
Proof.
  unfold insert_secondary. revert values.
  induction tokens as [|t ts IH]; intros values; simpl; [set_solver|].
  rewrite IH, BTreeMap.get_insert. case_decide as Ht; simpl.
  - subst. rewrite BTreeSet.elem_of_insert. set_solver.
  - set_solver.
Qed.

Lemma insert_secondary_sorted id values tokens :
  all_sorted values -> all_sorted (insert_secondary id values tokens).
Proof.
  unfold insert_secondary. revert values.
  induction tokens as [|t ts IH]; intros values Hs; simpl; [done|]. apply IH.
  intros tok ids. rewrite BTreeMap.get_insert. case_decide; [|apply Hs]. intros [= <-].
  destruct (BTreeMap.get values t) eqn:Hg; eauto with sorted.
  apply BTreeSet.set_insert_sorted. constructor.
Qed.

Lemma listed_snoc docs field values id d :
  listed docs field values ->
  listed (docs ++ [(id, d)]) field (insert_secondary id values (field_tokens d field)).
Proof.
  intros Hl tok id'. rewrite insert_secondary_get, (Hl tok id').
  setoid_rewrite elem_of_app. setoid_rewrite list_elem_of_singleton. naive_solver.
Qed.

(** ** Rebuilding *)

Record indexed (docs : list (string * Value)) (catalog : t) : Prop := {
  indexed_unique : forall field values, BTreeMap.get (unique catalog) field = Some values ->
    owned docs field values;
  indexed_secondary : forall field values, BTreeMap.get (secondary catalog) field = Some values ->
    listed docs field values /\ all_sorted values
}.

Lemma index_document_indexed docs catalog id d catalog' :
  indexed docs catalog -> index_document catalog id d = Ok catalog' ->
  indexed (docs ++ [(id, d)]) catalog' /\
  (unique catalog').*1 = (unique catalog).*1 /\ (secondary catalog').*1 = (secondary catalog).*1.
Proof.
  intros [Hu Hs]. unfold index_document.
  destruct (update_entries _ (unique catalog)) as [u|] eqn:Eu; [|done].
  destruct (update_entries _ (secondary catalog)) as [s|] eqn:Es; [|done].
  intros [= <-]. split_and!; [split|..]; simpl.
  - intros field values Hg. pose proof (update_entries_get _ _ _ field Eu) as Hf.
    destruct (BTreeMap.get (unique catalog) field) as [old|] eqn:Ho; [|congruence].
    destruct Hf as (v' & Hf & Hg'). assert (v' = values) as -> by congruence.
    eapply owned_snoc; [by apply Hu|done].
  - intros field values Hg. pose proof (update_entries_get _ _ _ field Es) as Hf.
    destruct (BTreeMap.get (secondary catalog) field) as [old|] eqn:Ho; [|congruence].
    destruct Hf as (v' & [= <-] & Hg'). rewrite Hg in Hg'. injection Hg' as ->.
    destruct (Hs _ _ Ho). split; [by apply listed_snoc|by apply insert_secondary_sorted].
  - by apply update_entries_keys in Eu.
  - by apply update_entries_keys in Es.
Qed.

Lemma index_documents_indexed pre catalog docs catalog' :
  indexed pre catalog -> index_documents catalog docs = Ok catalog' ->
  indexed (pre ++ docs) catalog' /\
  (unique catalog').*1 = (unique catalog).*1 /\ (secondary catalog').*1 = (secondary catalog).*1.
Proof.
  revert pre catalog. induction docs as [|[id d] docs IH]; intros pre catalog Hi; simpl.
  - intros [= <-]. by rewrite app_nil_r.
  - destruct (index_document catalog id d) as [c|] eqn:Hc; [|done]. intros Hr.
    destruct (index_document_indexed _ _ _ _ _ Hi Hc) as (Hi' & Hu & Hs).
    destruct (IH _ _ Hi' Hr) as (Hi'' & Hu' & Hs'). rewrite <- app_assoc in Hi''. simpl in Hi''.
    split_and!; [done|congruence..].
Qed.

(** Two documents share a token of [field]. *)
Definition clash (docs : list (string * Value)) (field tok : string) : Prop :=
  exists id1 d1 id2 d2, (id1, d1) ∈ docs /\ (id2, d2) ∈ docs /\ id1 <> id2 /\
    tok ∈ field_tokens d1 field /\ tok ∈ field_tokens d2 field.

Lemma index_documents_err pre catalog docs e :
  indexed pre catalog -> BTreeMap.sorted (unique catalog) -> index_documents catalog docs = Err e ->
  exists field tok, e = DuplicateKey field tok /\ field ∈ (unique catalog).*1 /\
    clash (pre ++ docs) field tok.
Proof.
  revert pre catalog. induction docs as [|[id d] docs IH]; intros pre catalog Hi Hso; simpl; [done|].
  destruct (index_document catalog id d) as [c|] eqn:Hc.
  - destruct (index_document_indexed _ _ _ _ _ Hi Hc) as (Hi' & Hu & _). intros Hr.
    destruct (IH _ c Hi') as (f & tok & -> & Hf & Hcl);
      [unfold BTreeMap.sorted in *; by rewrite Hu|done|].
    exists f, tok. rewrite <- Hu. rewrite <- app_assoc in Hcl. done.
  - intros [= ->]. unfold index_document in Hc.
    destruct (update_entries _ (unique catalog)) as [u|] eqn:Eu.
    + destruct (update_entries _ (secondary catalog)) as [s|] eqn:Es; [done|].
      apply update_entries_err in Es as (k & v & _ & Hk). done.
    + injection Hc as ->. apply update_entries_err in Eu as (f & values & Hin & Hf).
      apply insert_unique_err in Hf as (tok & other & -> & Htok & Hg & Hne).
      exists f, tok. split_and!; [done|apply list_elem_of_fmap; by exists (f, values)|].
      assert (Hown : owned pre f values) by by apply Hi, BTreeMap.elem_get.
      apply Hown in Hg as (d' & Hd' & Ht').
      exists other, d', id, d. split_and!; [set_solver|set_solver|done..].
Qed.

Lemma empty_tables_spec {V} (fields : list string) :
  BTreeMap.sorted (@empty_tables V fields) /\
  forall k, BTreeMap.get (@empty_tables V fields) k = if decide (k ∈ fields) then Some [] else None.
Proof.
  unfold empty_tables.
  enough (forall m : list (string * list V), BTreeMap.sorted m ->
    BTreeMap.sorted (foldl (fun m f => BTreeMap.insert m f []) m fields) /\
    forall k, BTreeMap.get (foldl (fun m f => BTreeMap.insert m f []) m fields) k =
      if decide (k ∈ fields) then Some [] else BTreeMap.get m k) as Hgen.
  { apply (Hgen []). constructor. }
  induction fields as [|f fields IH]; intros m Hm; [done|]. cbn [foldl].
  destruct (IH (BTreeMap.insert m f [])) as [Hs Hg]; [by auto with sorted|].
  split; [done|]. intros k. rewrite Hg, BTreeMap.get_insert.
  destruct (decide (k ∈ f :: fields)) as [Hc|Hc]; rewrite elem_of_cons in Hc;
    destruct (decide (k ∈ fields)), (decide (k = f)); tauto.
Qed.

Lemma empty_indexed fields fields' :
  indexed [] (mk (empty_tables fields) (empty_tables fields')).
Proof.
  split; simpl; intros field values; rewrite (proj2 (empty_tables_spec _)); case_decide; try done;
    intros [= <-].
  - intros tok id. simpl. split; [done|]. by intros (d & ?%elem_of_nil & _).
  - split; [|done]. intros tok id. simpl. split; [by intros ?%elem_of_nil|].
    by intros (d & ?%elem_of_nil & _).
Qed.

Lemma keys_get {V W} (m : list (string * V)) (m' : list (string * W)) k :
  m.*1 = m'.*1 -> is_Some (BTreeMap.get m k) <-> is_Some (BTreeMap.get m' k).
Proof. intros He. rewrite <- !not_eq_None_Some, !BTreeMap.get_None. by rewrite He. Qed.

Lemma rebuild_ok schema docs catalog :
  rebuild schema docs = Ok catalog ->
  indexed docs catalog /\
  (forall f, is_Some (BTreeMap.get (unique catalog) f) <-> f ∈ ModelSchema.unique_fields schema) /\
  (forall f, is_Some (BTreeMap.get (secondary catalog) f) <-> f ∈ ModelSchema.indexed_fields schema).
Proof.
  unfold rebuild. intros Hr. eapply index_documents_indexed in Hr; [|apply empty_indexed].
  destruct Hr as (Hi & Hu & Hs). simpl in *. split_and!; [done|..]; intros f.
  - rewrite (keys_get _ _ f Hu), (proj2 (empty_tables_spec _)). case_decide; naive_solver.
  - rewrite (keys_get _ _ f Hs), (proj2 (empty_tables_spec _)). case_decide; naive_solver.
Qed.

Lemma rebuild_no_clash schema docs catalog f tok :
  rebuild schema docs = Ok catalog -> f ∈ ModelSchema.unique_fields schema -> ~ clash docs f tok.
Proof.
  intros (Hi & Hu & _)%rebuild_ok Hf (id1 & d1 & id2 & d2 & H1 & H2 & Hne & Ht1 & Ht2).
  apply Hu in Hf as [values Hv]. pose proof (indexed_unique _ _ Hi _ _ Hv) as Hown.
  assert (BTreeMap.get values tok = Some id1) as Hg1 by (apply Hown; eauto).
  assert (BTreeMap.get values tok = Some id2) as Hg2 by (apply Hown; eauto). congruence.
Qed.

Lemma rebuild_err schema docs e :
  rebuild schema docs = Err e ->
  exists f tok, e = DuplicateKey f tok /\ f ∈ ModelSchema.unique_fields schema /\ clash docs f tok.
Proof.
  unfold rebuild. intros Hr.
  eapply index_documents_err in Hr; [|apply empty_indexed|apply empty_tables_spec].
  destruct Hr as (f & tok & -> & Hf & Hc). exists f, tok. split_and!; [done| |done]. simpl in Hf.
  destruct (decide (f ∈ ModelSchema.unique_fields schema)) as [|Hn]; [done|]. exfalso.
  revert Hf. apply BTreeMap.get_None. rewrite (proj2 (empty_tables_spec _)). by rewrite decide_False.
Qed.

(** ** Narrowing a query *)

Lemma all_ok_true {A} (check : A -> result OdmError bool) xs :
  all_ok check xs = Ok true <-> forall x, x ∈ xs -> check x = Ok true.
Proof.
  induction xs as [|x xs IH]; simpl; [split; [by intros _ x ?%elem_of_nil|done]|].
  setoid_rewrite elem_of_cons. destruct (check x) as [[]|] eqn:Hx.
  - rewrite IH. naive_solver.
  - split; [done|]. intros Hall. rewrite Hall in Hx by by left. done.
  - split; [done|]. intros Hall. rewrite Hall in Hx by by left. done.
Qed.

Lemma get_no_negative_zero fs k v :
  forallb (fun kv : string * Value => no_negative_zero kv.2) fs = true ->
  BTreeMap.get fs k = Some v -> no_negative_zero v = true.
Proof.
  rewrite forallb_forall. intros Hall Hg%BTreeMap.get_Some_elem.
  apply (Hall (k, v)). by apply list_elem_of_In.
Qed.

Lemma path_no_negative_zero d segs v :
  no_negative_zero d = true -> value_at_segments d segs = Some v -> no_negative_zero v = true.
Proof.
  revert d. induction segs as [|s segs IH]; intros d Hd; simpl; [by intros [= <-]|].
  destruct d as [| | | | |fs]; try done. simpl in *.
  destruct (BTreeMap.get fs s) as [w|] eqn:Hg; [|done]. apply IH. by eapply get_no_negative_zero.
Qed.

(** A document that satisfies an equality contributes the token of the value. *)
Lemma equality_token d f v :
  no_negative_zero d = true -> no_negative_zero v = true -> is_null v = false ->
  is_some_and (value_at_path d f) (fun a => values_equal a v) = true ->
  to_json v ∈ field_tokens d f.
Proof.
  intros Hd Hv Hn. unfold field_tokens. destruct (value_at_path d f) as [a|] eqn:Ha; [|done].
  simpl. unfold values_equal. rewrite orb_true_iff.
  pose proof (path_no_negative_zero _ _ _ Hd Ha) as Haz. intros [Heq|Hin].
  - apply value_eqb_eq in Heq as ->; [|done..]. rewrite Hn. apply elem_of_index_tokens. by left.
  - destruct a as [| | | |items|]; try done. simpl in *.
    apply existsb_exists in Hin as (item & Hitem & Heq).
    rewrite forallb_forall in Haz. apply value_eqb_eq in Heq as ->; [|by apply Haz|done].
    apply (proj2 (elem_of_index_tokens (Array items) _)). right. exists items, v.
    by rewrite list_elem_of_In.
Qed.

Lemma condition_equality actual condition v :
  equality condition = Some v -> matches_condition actual condition = Ok true ->
  is_some_and actual (fun a => values_equal a v) = true.
Proof.
  unfold equality, matches_condition. destruct condition as [| | | | |fs]; simpl;
    try (intros [= <-] [= Hm]; exact Hm).
  case_decide as Hlen; [|done]. destruct fs as [|[k w] [|]]; try done. simpl.
  case_decide as Hk; [|done]. intros [= ->]. subst k. simpl.
  destruct (is_some_and actual _) eqn:Hm; done.
Qed.

Lemma narrow_complete docs catalog id d acc kv ids :
  indexed docs catalog -> (id, d) ∈ docs -> no_negative_zero d = true ->
  no_negative_zero kv.2 = true ->
  (is_operator kv.1 = false -> matches_condition (value_at_path d kv.1) kv.2 = Ok true) ->
  (forall ids, acc = Some ids -> id ∈ ids) -> narrow catalog acc kv = Some ids -> id ∈ ids.
Proof.
  intros Hi Hin Hd Hq Hm Hacc. unfold narrow. destruct (is_operator kv.1); [apply Hacc|].
  destruct (BTreeMap.get (secondary catalog) kv.1) as [index|] eqn:Hg; [|apply Hacc].
  destruct (equality kv.2) as [v|] eqn:He; [|apply Hacc].
  destruct (is_null v) eqn:Hn; [apply Hacc|].
  assert (Hv : no_negative_zero v = true).
  { revert He. unfold equality. destruct (as_object kv.2) as [fs|] eqn:Hfs; [|by intros [= <-]].
    case_decide; [|done]. apply get_no_negative_zero. destruct kv.2; simplify_eq/=. done. }
  assert (Hmem : id ∈ default [] (BTreeMap.get index (index_token v))).
  { apply (proj1 (indexed_secondary _ _ Hi _ _ Hg)). exists d. split; [done|].
    apply equality_token; [done..|]. eapply condition_equality; [done|]. by apply Hm. }
  intros [= <-]. destruct acc as [existing|]; [|done].
  apply list_elem_of_filter. split; [done|by apply Hacc].
Qed.

Lemma query_field_condition d fs k c :
  matches_query d (Object fs) = Ok true -> (k, c) ∈ fs -> is_operator k = false ->
  matches_condition (value_at_path d k) c = Ok true.
Proof.
  simpl. rewrite all_ok_true. intros Hall Hin Hop. specialize (Hall _ Hin). simpl in Hall.
  revert Hall. repeat (case_decide; [by subst|]). by rewrite Hop.
Qed.

(** A document that matches a query is among its candidates. *)
Lemma candidates_complete docs catalog id d query ids :
  indexed docs catalog -> (id, d) ∈ docs -> no_negative_zero d = true ->
  no_negative_zero query = true -> matches_query d query = Ok true ->
  candidates catalog query = Some ids -> id ∈ ids.
Proof.
  intros Hi Hin Hd Hq Hm. unfold candidates. destruct query as [| | | | |fs]; try done. simpl.
  assert (Hcond : forall kv, kv ∈ fs -> is_operator kv.1 = false ->
    matches_condition (value_at_path d kv.1) kv.2 = Ok true).
  { intros [k c] Hkv. by eapply query_field_condition. }
  assert (Hz : forall kv, kv ∈ fs -> no_negative_zero kv.2 = true).
  { simpl in Hq. rewrite forallb_forall in Hq. intros kv Hkv. by apply Hq, list_elem_of_In. }
  clear Hq Hm.
  enough (forall acc, (forall ids, acc = Some ids -> id ∈ ids) ->
    forall ids, foldl (narrow catalog) acc fs = Some ids -> id ∈ ids) as Hgen by by apply Hgen.
  induction fs as [|kv fs IH]; intros acc Hacc; [done|]. cbn [foldl]. apply IH.
  - intros kv' Hkv'. apply Hcond. by right.
  - intros kv' Hkv'. apply Hz. by right.
  - intros ids'. eapply narrow_complete; [done..|apply Hz; by left|apply Hcond; by left|done].
Qed.

Lemma candidates_sorted docs catalog query ids :
  indexed docs catalog -> candidates catalog query = Some ids -> BTreeSet.sorted ids.
Proof.
  intros Hi. unfold candidates. destruct (as_object query) as [fs|]; [|done].
  enough (forall acc, (forall ids, acc = Some ids -> BTreeSet.sorted ids) ->
    forall ids, foldl (narrow catalog) acc fs = Some ids -> BTreeSet.sorted ids) as Hgen
    by by apply Hgen.
  induction fs as [|kv fs IH]; intros acc Hacc; [done|]. cbn [foldl]. apply IH.
  intros ids'. unfold narrow. destruct (is_operator kv.1); [apply Hacc|].
  destruct (BTreeMap.get (secondary catalog) kv.1) as [index|] eqn:Hg; [|apply Hacc].
  destruct (equality kv.2) as [v|]; [|apply Hacc]. destruct (is_null v); [apply Hacc|].
  intros [= <-]. destruct acc as [existing|]; [apply BTreeSet.filter_sorted; by apply Hacc|].
  destruct (BTreeMap.get index (index_token v)) as [l|] eqn:Hl; [|constructor].
  by eapply (indexed_secondary _ _ Hi _ _ Hg).
Qed.
End index.
