(* ===== verification/OdmCollection.v ===== *)
(** * Collections: src/odm/collection.rs, storage.rs and transaction.rs

    A collection is its schema, its storage and the state under its mutex.  The
    clock and the generator of identifiers are arguments.  Operations return the
    collection together with their result, since the refreshed view stays when a
    later step fails. *)

From S2P Require Import Prelude BTree Json OdmSchema OdmQuery OdmUpdate OdmIndex.

Inductive ConsistencyLevel := LocalAtomic | Replicated.

Module TransactionContext.
Record t := mk { id : string; started_at : string; consistency : ConsistencyLevel }.

Definition local (id now : string) : t := mk id now LocalAtomic.

Definition with_consistency (id now : string) (c : ConsistencyLevel) : t := mk id now c.
End TransactionContext.

Module WriteOptions.
Record t := mk { transaction : option TransactionContext.t }.

Definition default : t := mk None.
End WriteOptions.

Definition validate_write_options (options : WriteOptions.t) : result OdmError unit :=
  match TransactionContext.consistency <$> WriteOptions.transaction options with
  | Some Replicated =>
      Err (UnsupportedConsistency
        "replicated transactions require a distributed coordinator; local atomic writes are available today")
  | _ => Ok tt
  end.

(** ** Storage *)

(** The [CollectionStorage] trait; a write returns the storage also when it
    fails. *)
Class CollectionStorage (S : Type) := {
  load_all : S -> result OdmError (list Value);
  write_one : S -> string -> Value -> S * result OdmError unit;
  write_many : S -> list (string * Value) -> S * result OdmError unit
}.

Definition storage_document (id : string) (document : Value) : result OdmError Value :=
  match document with
  | Object object => Ok (Object (BTreeMap.or_insert object "_id" (Str id)))
  | _ => Err (Validation "$document" "document must be a JSON object")
  end.

Module MemoryStorage.
Record t := mk { documents : list (string * Value) }.

Definition new : t := mk [].

(** The loop of [write_many] on its private copy. *)
Fixpoint insert_all (next : list (string * Value)) (documents : list (string * Value))
    : result OdmError (list (string * Value)) :=
  match documents with
  | [] => Ok next
  | (id, document) :: documents =>
      let? d := storage_document id document in
      insert_all (BTreeMap.insert next id d) documents
  end.

#[global] Instance memory_storage : CollectionStorage t := {
  load_all self := Ok (documents self).*2;
  write_one self id document :=
    match storage_document id document with
    | Ok d => (mk (BTreeMap.insert (documents self) id d), Ok tt)
    | Err e => (self, Err e)
    end;
  write_many self docs :=
    match insert_all (documents self) docs with
    | Ok next => (mk next, Ok tt)
    | Err e => (self, Err e)
    end
}.
End MemoryStorage.

(** ** Identifiers *)

Section ids.
Context `{JsonText}.

Definition canonical_value (value : Value) : result OdmError string :=
  match value with
  | Str s => Ok s
  | Num n => Ok (to_json (Num n))
  | Bool b => Ok (if b then "true" else "false")
  | _ => Err (Validation "$id" "primary keys must be strings, numbers, or booleans")
  end.

Definition document_id (schema : ModelSchema.t) (document : Value) : result OdmError string :=
  match field document (ModelSchema.primary_key schema) with
  | None => Err (Validation (ModelSchema.primary_key schema) "primary key is missing")
  | Some value => canonical_value value
  end.

Definition external_document (schema : ModelSchema.t) (document : Value) : Value :=
  if decide (ModelSchema.primary_key schema <> "_id") then
    match document with
    | Object object => Object (BTreeMap.remove object "_id")
    | _ => document
    end
  else document.

(** [object.get(key).is_none_or(Value::is_null)] *)
Definition missing (object : list (string * Value)) (key : string) : bool :=
  is_none_or (BTreeMap.get object key) is_null.

Definition prepare_insert (schema : ModelSchema.t) (now uuid : string) (document : Value)
    : result OdmError (string * Value) :=
  let primary_key := ModelSchema.primary_key schema in
  let? object := ModelSchema.object_mut document in
  let? object :=
    if missing object primary_key then
      if ModelSchema.auto_generate_primary_key schema
      then Ok (BTreeMap.insert object primary_key (Str uuid))
      else Err (Validation primary_key "primary key is required")
    else Ok object in
  let object :=
    match ModelSchema.timestamps schema with
    | None => object
    | Some ts =>
        let object := if missing object (TimestampDefinition.created_at ts)
                      then BTreeMap.insert object (TimestampDefinition.created_at ts) (Str now)
                      else object in
        BTreeMap.insert object (TimestampDefinition.updated_at ts) (Str now)
    end in
  let? id := document_id schema (Object object) in
  let object := if decide (primary_key <> "_id")
                then BTreeMap.insert object "_id" (Str id) else object in
  let? _ := ModelSchema.validate_document schema (Object object) in
  Ok (id, Object object).

Definition apply_update_timestamp (schema : ModelSchema.t) (now : string) (document : Value)
    : result OdmError Value :=
  match ModelSchema.timestamps schema with
  | None => Ok document
  | Some ts =>
      let? object := ModelSchema.object_mut document in
      Ok (Object (BTreeMap.insert object (TimestampDefinition.updated_at ts) (Str now)))
  end.
End ids.

(** ** Collections *)

Module Collection.
Section ops.
Context `{JsonText} {S : Type} `{CollectionStorage S}.

Record t := mk {
  name : string;
  schema : ModelSchema.t;
  storage : S;
  documents : list (string * Value);
  indexes : IndexCatalog.t
}.

Definition set_storage (self : t) (s : S) : t :=
  mk (name self) (schema self) s (documents self) (indexes self).

Definition set_state (self : t) (docs : list (string * Value)) (idx : IndexCatalog.t) : t :=
  mk (name self) (schema self) (storage self) docs idx.

(** The loop of [refresh_locked] over the loaded documents. *)
Fixpoint load_documents (sch : ModelSchema.t) (loaded : list Value) (docs : list (string * Value))
    : result OdmError (list (string * Value)) :=
  match loaded with
  | [] => Ok docs
  | document :: loaded =>
      let? _ := ModelSchema.validate_document sch document in
      let? id := document_id sch document in
      let? document :=
        if decide (ModelSchema.primary_key sch <> "_id") then
          let? object := ModelSchema.object_mut document in
          Ok (Object (BTreeMap.or_insert object "_id" (Str id)))
        else Ok document in
      if BTreeMap.contains_key docs id
      then Err (DuplicateKey (ModelSchema.primary_key sch) id)
      else load_documents sch loaded (BTreeMap.insert docs id document)
  end.

Definition refresh_locked (self : t) : t * result OdmError unit :=
  let refreshed :=
    let? loaded := load_all (storage self) in
    let? docs := load_documents (schema self) loaded [] in
    let? idx := IndexCatalog.rebuild (schema self) docs in
    Ok (docs, idx) in
  match refreshed with
  | Ok (docs, idx) => (set_state self docs idx, Ok tt)
  | Err e => (self, Err e)
  end.

Definition new (name : string) (sch : ModelSchema.t) (s : S) : result OdmError t :=
  if is_blank name then Err (InvalidSchema "collection name cannot be empty")
  else
    let sch := ModelSchema.set_collection sch name in
    let? _ := ModelSchema.validate_definition sch in
    match refresh_locked (mk name sch s [] IndexCatalog.default_catalog) with
    | (collection, Ok _) => Ok collection
    | (_, Err e) => Err e
    end.

Definition schemaless (name : string) (s : S) : result OdmError t :=
  new name (ModelSchema.schemaless name) s.

(** [refresh_locked] first, then [k] on the refreshed collection. *)
Definition refreshed {A} (self : t) (k : t -> t * result OdmError A) : t * result OdmError A :=
  match refresh_locked self with
  | (self, Err e) => (self, Err e)
  | (self, Ok _) => k self
  end.

(** Write one checked document and install the new state. *)
Definition commit_one (self : t) (id : string) (document : Value) : t * result OdmError Value :=
  let candidate := BTreeMap.insert (documents self) id document in
  match IndexCatalog.rebuild (schema self) candidate with
  | Err e => (self, Err e)
  | Ok idx =>
      match write_one (storage self) id document with
      | (s, Err e) => (set_storage self s, Err e)
      | (s, Ok _) =>
          (set_state (set_storage self s) candidate idx, Ok (external_document (schema self) document))
      end
  end.

Definition insert_one_with_options (self : t) (now uuid : string) (document : Value)
    (options : WriteOptions.t) : t * result OdmError Value :=
  match validate_write_options options with
  | Err e => (self, Err e)
  | Ok _ =>
      refreshed self (fun self =>
        match prepare_insert (schema self) now uuid document with
        | Err e => (self, Err e)
        | Ok (id, prepared) =>
            if BTreeMap.contains_key (documents self) id
            then (self, Err (DuplicateKey (ModelSchema.primary_key (schema self)) id))
            else commit_one self id prepared
        end)
  end.

(** The loop of [insert_with_options]; the clock and the generator are read once
    per document. *)
Fixpoint prepare_batch (sch : ModelSchema.t) (env : nat -> string * string) (n : nat)
    (docs : list Value) (candidate : list (string * Value))
    : result OdmError (list (string * Value) * list (string * Value)) :=
  match docs with
  | [] => Ok ([], candidate)
  | document :: docs =>
      let? p := prepare_insert sch (env n).1 (env n).2 document in
      if BTreeMap.contains_key candidate p.1
      then Err (DuplicateKey (ModelSchema.primary_key sch) p.1)
      else
        let? r := prepare_batch sch env (Datatypes.S n) docs (BTreeMap.insert candidate p.1 p.2) in
        Ok (p :: r.1, r.2)
  end.

Definition insert_with_options (self : t) (env : nat -> string * string) (docs : list Value)
    (options : WriteOptions.t) : t * result OdmError (list Value) :=
  match validate_write_options options with
  | Err e => (self, Err e)
  | Ok _ =>
      match docs with
      | [] => (self, Ok [])
      | _ =>
          refreshed self (fun self =>
            match prepare_batch (schema self) env 0 docs (documents self) with
            | Err e => (self, Err e)
            | Ok (prepared, candidate) =>
                match IndexCatalog.rebuild (schema self) candidate with
                | Err e => (self, Err e)
                | Ok idx =>
                    match write_many (storage self) prepared with
                    | (s, Err e) => (set_storage self s, Err e)
                    | (s, Ok _) =>
                        (set_state (set_storage self s) candidate idx,
                         Ok ((fun p => external_document (schema self) p.2) <$> prepared))
                    end
                end
            end)
      end
  end.

(** The documents a query looks at, in order. *)
Definition scan_list (self : t) (query : Value) : list (string * Value) :=
  match IndexCatalog.candidates (indexes self) query with
  | Some ids => omap (fun id => (fun d => (id, d)) <$> BTreeMap.get (documents self) id) ids
  | None => documents self
  end.

(** [for (_, d) in iter { if matches_query(d, q)? { matches.push(d) } }] *)
Fixpoint collect_matches (query : Value) (docs : list (string * Value))
    : result OdmError (list (string * Value)) :=
  match docs with
  | [] => Ok []
  | (id, d) :: docs =>
      let? b := matches_query d query in
      let? rest := collect_matches query docs in
      Ok (if (b : bool) then (id, d) :: rest else rest)
  end.

Definition find (self : t) (query : Value) : t * result OdmError (list Value) :=
  refreshed self (fun self =>
    (self,
     let? found := collect_matches query (scan_list self query) in
     Ok ((fun p => external_document (schema self) p.2) <$> found))).

Definition find_one (self : t) (query : Value) : t * result OdmError (option Value) :=
  let '(self, r) := find self query in
  (self, let? found := r in Ok (head found)).

Definition find_by_id (self : t) (id : Value) : t * result OdmError (option Value) :=
  match canonical_value id with
  | Err e => (self, Err e)
  | Ok id =>
      refreshed self (fun self =>
        (self, Ok (external_document (schema self) <$> BTreeMap.get (documents self) id)))
  end.

(** The first document that matches. *)
Fixpoint first_match (query : Value) (docs : list (string * Value))
    : result OdmError (option (string * Value)) :=
  match docs with
  | [] => Ok None
  | (id, d) :: docs =>
      let? b := matches_query d query in
      if (b : bool) then Ok (Some (id, d)) else first_match query docs
  end.

Definition update_with_options (self : t) (now : string) (query operations : Value)
    (options : WriteOptions.t) : t * result OdmError (option Value) :=
  match validate_write_options options with
  | Err e => (self, Err e)
  | Ok _ =>
      refreshed self (fun self =>
        match first_match query (scan_list self query) with
        | Err e => (self, Err e)
        | Ok None => (self, Ok None)
        | Ok (Some (id, document)) =>
            let immutable := BTreeSet.from [ModelSchema.primary_key (schema self); "_id"] in
            match apply_update document operations immutable with
            | Err e => (self, Err e)
            | Ok (document, false) => (self, Ok (Some (external_document (schema self) document)))
            | Ok (document, true) =>
                let checked :=
                  let? document := apply_update_timestamp (schema self) now document in
                  let? _ := ModelSchema.validate_document (schema self) document in
                  let? updated_id := document_id (schema self) document in
                  if decide (updated_id <> id)
                  then Err (ImmutableField (ModelSchema.primary_key (schema self)))
                  else Ok document in
                match checked with
                | Err e => (self, Err e)
                | Ok document =>
                    let '(self, r) := commit_one self id document in
                    (self, let? d := r in Ok (Some d))
                end
            end
        end)
  end.
End ops.
Arguments t : clear implicits.
End Collection.
