(* ===== verification/OdmCollectionInv.v ===== *)
(** * A collection over the memory storage is coherent

    The state of the collection and its storage hold the same documents, every
    document satisfies the schema under its own identifier, the indexes are those
    of the documents, and refreshing changes nothing. *)

From S2P Require Import Prelude BTree Json OdmSchema OdmQuery OdmUpdate OdmUpdateInv OdmIndex.
From S2P Require Import OdmIndexInv OdmCollection.
Import Collection.

Section collection.
Context `{JsonText}.
Implicit Types (self : t MemoryStorage.t).

(** The document satisfies the schema, has the identifier [id], and carries the
    storage key. *)
Definition stored_under (sch : ModelSchema.t) (id : string) (d : Value) : Prop :=
  ModelSchema.validate_document sch d = Ok tt /\ document_id sch d = Ok id /\
  is_Some (field d "_id").

Record coherent (self : t MemoryStorage.t) : Prop := {
  coherent_sorted : BTreeMap.sorted (documents self);
  coherent_valid : forall id d, (id, d) ∈ documents self -> stored_under (schema self) id d;
  coherent_indexes : IndexCatalog.rebuild (schema self) (documents self) = Ok (indexes self);
  coherent_storage : MemoryStorage.documents (storage self) = documents self
}.

(** ** Refreshing *)

Lemma insert_after_last {V} (m : list (string * V)) k v :
  BTreeMap.sorted (m ++ [(k, v)]) -> BTreeMap.insert m k v = m ++ [(k, v)] /\ BTreeMap.get m k = None.
Proof.
  induction m as [|[a w] m IH]; [done|]. simpl. intros [Hs Ha]%BTreeMap.sorted_cons.
  destruct (IH Hs) as [-> ->].
  assert (Hlt : String.compare a k = Lt) by (apply Ha; rewrite fmap_app; set_solver).
  rewrite (total_antisym _ _ string_compare_total), Hlt by done. split; [done|].
  rewrite decide_False; [done|]. intros ->. by rewrite (proj2 (BTreeMap.compare_eq a a)) in Hlt.
Qed.

Lemma sorted_app_l {V} (m m' : list (string * V)) : BTreeMap.sorted (m ++ m') -> BTreeMap.sorted m.
Proof. unfold BTreeMap.sorted. rewrite fmap_app. by intros (_ & ? & _)%StronglySorted_app. Qed.

Lemma or_insert_present {V} (m : list (string * V)) k v :
  is_Some (BTreeMap.get m k) -> BTreeMap.or_insert m k v = m.
Proof. intros [x Hx]. unfold BTreeMap.or_insert. by rewrite Hx. Qed.

Lemma load_documents_stored sch docs pre :
  BTreeMap.sorted (pre ++ docs) -> (forall id d, (id, d) ∈ docs -> stored_under sch id d) ->
  load_documents sch docs.*2 pre = Ok (pre ++ docs).
Proof.
  revert pre. induction docs as [|[id d] docs IH]; intros pre Hs Hv; simpl; [by rewrite app_nil_r|].
  destruct (Hv id d) as (Hval & Hid & Hkey); [by left|]. rewrite Hval, Hid. simpl.
  replace (if decide (ModelSchema.primary_key sch <> "_id") then _ else Ok d)
    with (Ok d : result OdmError Value).
  2:{ case_decide; [|done]. destruct d as [| | | | |object]; try by destruct Hkey.
      simpl. by rewrite or_insert_present. }
  rewrite cons_middle, app_assoc in Hs |- *.
  destruct (insert_after_last pre id d) as [-> Hn]; [by eapply sorted_app_l|].
  unfold BTreeMap.contains_key. rewrite Hn. simpl.
  rewrite IH; [done|done|]. intros id' d' Hin. apply Hv. by right.
Qed.

Lemma refresh_coherent self : coherent self -> refresh_locked self = (self, Ok tt).
Proof.
  intros [Hs Hv Hi Hst]. unfold refresh_locked. simpl. rewrite Hst.
  rewrite (load_documents_stored (schema self) (documents self) []) by done. simpl.
  rewrite Hi. by destruct self.
Qed.

Lemma refreshed_coherent {A} self (k : t MemoryStorage.t -> t MemoryStorage.t * result OdmError A) :
  coherent self -> refreshed self k = k self.
Proof. intros Hc. unfold refreshed. by rewrite refresh_coherent. Qed.

Lemma new_coherent name sch self :
  new name sch MemoryStorage.new = Ok self -> coherent self /\ documents self = [].
Proof.
  unfold new. case_match; [done|]. destruct (ModelSchema.validate_definition _); [|done].
  unfold refresh_locked. simpl. intros [= <-]. split; [|done].
  split; simpl; [constructor|by intros ?? ?%elem_of_nil|done..].
Qed.

(** ** Preparing documents *)

Lemma prepare_insert_stored sch now uuid doc id d :
  prepare_insert sch now uuid doc = Ok (id, d) -> stored_under sch id d.
Proof.
  unfold prepare_insert. destruct (ModelSchema.object_mut doc) as [o|]; [|done].
  destruct (if missing o _ then _ else _) as [o1|]; [|done].
  set (o2 := match ModelSchema.timestamps sch with Some _ => _ | None => _ end).
  destruct (document_id sch (Object o2)) as [id'|] eqn:Hid; [|done].
  set (o3 := if decide _ then _ else o2).
  destruct (ModelSchema.validate_document sch (Object o3)) as [[]|] eqn:Hv; [|done].
  intros [= <- <-]. split; [done|]. unfold o3. case_decide as Hpk; split; simpl.
  - unfold document_id in *. simpl in *. rewrite BTreeMap.get_insert. by rewrite decide_False.
  - rewrite BTreeMap.get_insert. by rewrite decide_True.
  - done.
  - unfold document_id in Hid. simpl in Hid.
    destruct (decide (ModelSchema.primary_key sch = "_id")) as [Hk|]; [|tauto]. rewrite Hk in Hid.
    destruct (BTreeMap.get o2 "_id"); [by eexists|done].
Qed.

Lemma storage_document_stored sch id d : stored_under sch id d -> storage_document id d = Ok d.
Proof.
  intros (_ & _ & Hk). destruct d as [| | | | |object]; try by destruct Hk.
  simpl. by rewrite or_insert_present.
Qed.

(** ** Committing *)

Lemma insert_valid sch docs id d id' d' :
  BTreeMap.sorted docs -> (forall id d, (id, d) ∈ docs -> stored_under sch id d) ->
  stored_under sch id d -> (id', d') ∈ BTreeMap.insert docs id d -> stored_under sch id' d'.
Proof.
  intros Hs Hv Hd Hin. apply BTreeMap.elem_get in Hin; [|by auto with sorted].
  rewrite BTreeMap.get_insert in Hin. case_decide; [by simplify_eq|].
  apply Hv. by apply BTreeMap.elem_get.
Qed.

Lemma commit_one_coherent self id d :
  coherent self -> stored_under (schema self) id d ->
  coherent (commit_one self id d).1 /\
  match (commit_one self id d).2 with
  | Ok v => v = external_document (schema self) d /\
            documents (commit_one self id d).1 = BTreeMap.insert (documents self) id d
  | Err _ => (commit_one self id d).1 = self
  end /\ schema (commit_one self id d).1 = schema self.
Proof.
  intros Hc Hd. unfold commit_one.
  destruct (IndexCatalog.rebuild _ _) as [idx|] eqn:Hi; [|done]. simpl.
  rewrite (storage_document_stored _ _ _ Hd). simpl. split; [|done].
  destruct Hc as [Hs Hv Hix Hst]. split; simpl; [by auto with sorted| |done|by rewrite Hst].
  intros id' d'. by apply insert_valid.
Qed.

Lemma insert_one_spec self now uuid doc opts :
  coherent self ->
  let r := insert_one_with_options self now uuid doc opts in
  coherent r.1 /\ schema r.1 = schema self /\
  match r.2 with
  | Ok v => exists id d, stored_under (schema self) id d /\
      BTreeMap.get (documents self) id = None /\ v = external_document (schema self) d /\
      documents r.1 = BTreeMap.insert (documents self) id d
  | Err _ => r.1 = self
  end.
Proof.
  intros Hc r. unfold r, insert_one_with_options. destruct (validate_write_options opts); [|done].
  rewrite refreshed_coherent by done.
  destruct (prepare_insert _ now uuid doc) as [[id d]|] eqn:Hp; [|done].
  destruct (BTreeMap.contains_key _ id) eqn:Hk; [done|].
  apply bool_decide_eq_false, eq_None_not_Some in Hk. apply prepare_insert_stored in Hp.
  destruct (commit_one_coherent self id d Hc Hp) as (? & Hr & ?). split_and!; [done..|].
  destruct (commit_one self id d) as [self' [v|]]; simpl in *; [|done]. destruct Hr as [-> ->]. by exists id, d.
Qed.

Lemma insert_one_coherent self now uuid doc opts :
  coherent self -> coherent (insert_one_with_options self now uuid doc opts).1.
Proof. intros Hc. by apply insert_one_spec. Qed.

(** The caller's copy of a document still names it. *)
Lemma external_key sch id d :
  stored_under sch id d ->
  exists key, field (external_document sch d) (ModelSchema.primary_key sch) = Some key /\
    canonical_value key = Ok id.
Proof.
  intros (_ & Hid & _). unfold document_id in Hid.
  destruct (field d (ModelSchema.primary_key sch)) as [key|] eqn:Hf; [|done]. exists key.
  split; [|done]. unfold external_document. case_decide; [|done].
  destruct d; try done. simpl in *. rewrite BTreeMap.get_remove. by rewrite decide_False.
Qed.

(** ** Batches *)

Lemma prepare_batch_spec sch env n docs candidate prepared candidate' :
  prepare_batch sch env n docs candidate = Ok (prepared, candidate') ->
  (forall id d, (id, d) ∈ prepared -> stored_under sch id d) /\
  candidate' = foldl (fun m p => BTreeMap.insert m p.1 p.2) candidate prepared /\
  (forall id, id ∈ prepared.*1 -> BTreeMap.get candidate id = None) /\ NoDup prepared.*1.
Proof.
  revert n candidate prepared. induction docs as [|doc docs IH]; intros n candidate prepared; simpl.
  { intros [= <- <-]. split_and!; [by intros ?? ?%elem_of_nil|done|by intros ? ?%elem_of_nil|constructor]. }
  destruct (prepare_insert sch _ _ doc) as [[id d]|] eqn:Hp; [|done]. simpl.
  destruct (BTreeMap.contains_key candidate id) eqn:Hk; [done|].
  apply bool_decide_eq_false, eq_None_not_Some in Hk.
  destruct (prepare_batch _ _ _ _ _) as [[ps c]|] eqn:Hb; [|done]. intros [= <- <-]. simpl.
  apply IH in Hb as (Hv & -> & Hn & Hnd). split_and!.
  - intros id' d' [[= -> ->]|Hin]%elem_of_cons; [by eapply prepare_insert_stored|by apply Hv].
  - done.
  - intros id' [->|Hin]%elem_of_cons; [done|]. apply Hn in Hin.
    rewrite BTreeMap.get_insert in Hin. by case_decide.
  - constructor; [|done]. intros Hin%Hn. by rewrite BTreeMap.get_insert, decide_True in Hin.
Qed.

Lemma prepare_batch_length sch env n docs candidate prepared candidate' :
  prepare_batch sch env n docs candidate = Ok (prepared, candidate') -> length prepared = length docs.
Proof.
  revert n candidate prepared. induction docs as [|doc docs IH]; intros n candidate prepared; simpl;
    [by intros [= <- <-]|].
  destruct (prepare_insert sch _ _ doc) as [p|]; [|done]. simpl. case_match; [done|].
  destruct (prepare_batch _ _ _ _ _) as [[ps c]|] eqn:Hb; [|done]. intros [= <- <-]. simpl.
  f_equal. by eapply IH.
Qed.

Lemma get_insert_all {V} (m ps : list (string * V)) id :
  NoDup ps.*1 ->
  BTreeMap.get (foldl (fun m p => BTreeMap.insert m p.1 p.2) m ps) id =
  match BTreeMap.get ps id with Some d => Some d | None => BTreeMap.get m id end.
Proof.
  revert m. induction ps as [|[k v] ps IH]; intros m; simpl; [done|].
  intros [Hk Hnd]%NoDup_cons. rewrite IH by done. rewrite BTreeMap.get_insert.
  case_decide; subst; simplify_option_eq; try done.
  by rewrite (proj2 (BTreeMap.get_None ps k)).
Qed.

Lemma insert_all_stored sch next docs :
  (forall id d, (id, d) ∈ docs -> stored_under sch id d) ->
  MemoryStorage.insert_all next docs = Ok (foldl (fun m p => BTreeMap.insert m p.1 p.2) next docs).
Proof.
  revert next. induction docs as [|[id d] docs IH]; intros next Hv; simpl; [done|].
  rewrite (storage_document_stored sch) by (apply Hv; by left). simpl. apply IH.
  intros id' d' Hin. apply Hv. by right.
Qed.

Lemma insert_list_valid sch docs prepared :
  BTreeMap.sorted docs -> (forall id d, (id, d) ∈ docs -> stored_under sch id d) ->
  (forall id d, (id, d) ∈ prepared -> stored_under sch id d) ->
  let docs' := foldl (fun m p => BTreeMap.insert m p.1 p.2) docs prepared in
  BTreeMap.sorted docs' /\ (forall id d, (id, d) ∈ docs' -> stored_under sch id d).
Proof.
  revert docs. induction prepared as [|[id d] ps IH]; intros docs Hs Hv Hp; simpl; [done|].
  assert (Hd : stored_under sch id d) by (apply Hp; by left). apply IH.
  - by auto with sorted.
  - intros id' d'. by apply insert_valid.
  - intros id' d' Hin. apply Hp. by right.
Qed.

Lemma insert_batch_coherent self env docs opts :
  coherent self ->
  coherent (insert_with_options self env docs opts).1 /\
  match (insert_with_options self env docs opts).2 with
  | Ok vs => exists prepared,
      length prepared = length docs /\ NoDup prepared.*1 /\
      (forall id d, (id, d) ∈ prepared ->
         stored_under (schema self) id d /\ BTreeMap.get (documents self) id = None) /\
      vs = (fun p => external_document (schema self) p.2) <$> prepared /\
      forall id, BTreeMap.get (documents (insert_with_options self env docs opts).1) id =
        match BTreeMap.get prepared id with Some d => Some d | None => BTreeMap.get (documents self) id end
  | Err _ => (insert_with_options self env docs opts).1 = self
  end.
Proof.
  intros Hc. unfold insert_with_options. destruct (validate_write_options opts); [|done].
  destruct docs as [|doc docs].
  { split; [done|]. exists []. split_and!; [done|constructor|by intros ?? ?%elem_of_nil|done..]. }
  rewrite refreshed_coherent by done.
  destruct (prepare_batch _ _ _ _ _) as [[prepared candidate]|] eqn:Hb; [|done].
  pose proof (prepare_batch_length _ _ _ _ _ _ _ Hb) as Hlen.
  apply prepare_batch_spec in Hb as (Hv & -> & Hfresh & Hnd).
  destruct (IndexCatalog.rebuild _ _) as [idx|] eqn:Hi; [|done]. simpl.
  destruct Hc as [Hs Hval Hix Hst]. rewrite Hst, (insert_all_stored (schema self)) by done. simpl.
  destruct (insert_list_valid _ _ _ Hs Hval Hv) as [Hs' Hv']. split; [by split|].
  exists prepared. split_and!; [done|done| |done|intros id; by apply get_insert_all].
  intros id d Hin. split; [by apply Hv|]. apply Hfresh, list_elem_of_fmap. by exists (id, d).
Qed.

(** ** Updates *)

Lemma scan_list_documents self query id d :
  BTreeMap.sorted (documents self) ->
  (id, d) ∈ scan_list self query -> (id, d) ∈ documents self.
Proof.
  intros Hs. unfold scan_list. destruct (IndexCatalog.candidates _ _) as [ids|]; [|done].
  intros (id' & _ & Hd)%list_elem_of_omap. apply fmap_Some in Hd as (d' & Hg & [= -> ->]).
  by apply BTreeMap.elem_get.
Qed.

Lemma first_match_elem query docs id d :
  first_match query docs = Ok (Some (id, d)) -> (id, d) ∈ docs /\ matches_query d query = Ok true.
Proof.
  induction docs as [|[id' d'] docs IH]; simpl; [done|].
  destruct (matches_query d' query) as [[]|] eqn:Hm; [|..|done].
  - intros [= -> ->]. split; [by left|done].
  - intros [Hin ?]%IH. split; [by right|done].
Qed.

Lemma update_timestamp_key sch now d d' :
  apply_update_timestamp sch now d = Ok d' -> is_Some (field d "_id") -> is_Some (field d' "_id").
Proof.
  unfold apply_update_timestamp. destruct (ModelSchema.timestamps sch) as [ts|]; [|by intros [= ->]].
  destruct d as [| | | | |o]; try done. simpl. intros [= <-] Hk. simpl.
  rewrite BTreeMap.get_insert. by case_decide.
Qed.

Lemma update_coherent self now query ops opts :
  coherent self ->
  coherent (update_with_options self now query ops opts).1 /\
  match (update_with_options self now query ops opts).2 with
  | Ok r => (update_with_options self now query ops opts).1 = self \/
            exists id d d', BTreeMap.get (documents self) id = Some d /\
              matches_query d query = Ok true /\
              documents (update_with_options self now query ops opts).1 =
                BTreeMap.insert (documents self) id d' /\ stored_under (schema self) id d' /\
              r = Some (external_document (schema self) d')
  | Err _ => (update_with_options self now query ops opts).1 = self
  end.
Proof.
  intros Hc. unfold update_with_options. destruct (validate_write_options opts); [|done].
  rewrite refreshed_coherent by done.
  destruct (first_match _ _) as [[[id d]|]|] eqn:Hf; [|by split; [|left]|done].
  apply first_match_elem in Hf as [Hf Hm]. apply scan_list_documents in Hf; [|apply Hc].
  set (imm := BTreeSet.from _).
  destruct (apply_update d ops imm) as [[d1 []]|] eqn:Hu; [|by split; [|left]|done].
  destruct (let? document := _ in _) as [d2|] eqn:Hchk; [|done].
  assert (Hd2 : stored_under (schema self) id d2).
  { destruct (apply_update_timestamp _ now d1) as [d3|] eqn:Ht; [|done].
    destruct (ModelSchema.validate_document _ d3) as [[]|] eqn:Hv; [|done].
    destruct (document_id _ d3) as [id3|] eqn:Hid; [|done].
    case_decide as Hne; [done|]. injection Hchk as <-.
    split_and!; [done|by destruct (decide (id3 = id)) as [->|]; [|tauto]|].
    eapply update_timestamp_key; [done|].
    rewrite (apply_update_immutable _ _ _ _ _ "_id" Hu) by (apply BTreeSet.elem_of_from; set_solver).
    apply (coherent_valid _ Hc) in Hf as (_ & _ & ?). done. }
  destruct (commit_one_coherent self id d2 Hc Hd2) as (Hc' & Hr & _).
  destruct (commit_one self id d2) as [self' r]. simpl in *. split; [done|].
  destruct r as [v|]; simpl; [|done]. destruct Hr as [-> Hr]. right. exists id, d, d2.
  split_and!; [by apply BTreeMap.elem_get; [apply Hc|]|done..].
Qed.

(** ** Reachable collections *)

Inductive collection_step (self : t MemoryStorage.t) : t MemoryStorage.t -> Prop :=
| step_insert_one now uuid doc opts :
    collection_step self (insert_one_with_options self now uuid doc opts).1
| step_insert env docs opts : collection_step self (insert_with_options self env docs opts).1
| step_update now query ops opts :
    collection_step self (update_with_options self now query ops opts).1
| step_find query : collection_step self (find self query).1
| step_find_by_id id : collection_step self (find_by_id self id).1.

Lemma collection_step_coherent self self' :
  coherent self -> collection_step self self' -> coherent self'.
Proof.
  intros Hc [now uuid doc opts|env docs opts|now query ops opts|query|id].
  - by apply insert_one_coherent.
  - by apply insert_batch_coherent.
  - by apply update_coherent.
  - unfold find. by rewrite refreshed_coherent.
  - unfold find_by_id. destruct (canonical_value id); [|done]. by rewrite refreshed_coherent.
Qed.

Lemma reachable_coherent name sch self0 self :
  new name sch MemoryStorage.new = Ok self0 -> rtc collection_step self0 self -> coherent self.
Proof.
  intros [Hc _]%new_coherent Hs. induction Hs; eauto using collection_step_coherent.
Qed.

(** ** Scanning through the index *)

Lemma collect_matches_ok query docs found :
  collect_matches query docs = Ok found ->
  (forall id d, (id, d) ∈ docs -> exists b, matches_query d query = Ok b) /\
  found = filter (fun p => matches_query p.2 query = Ok true) docs.
Proof.
  revert found. induction docs as [|[id d] docs IH]; intros found; simpl.
  - intros [= <-]. split; [by intros ?? ?%elem_of_nil|done].
  - destruct (matches_query d query) as [b|] eqn:Hm; [|done].
    destruct (collect_matches query docs) as [rest|] eqn:Hr; [|done]. intros [= <-].
    destruct (IH _ eq_refl) as [Hall ->]. split.
    + intros id' d' [[= -> ->]|Hin]%elem_of_cons; [by exists b|by eapply Hall].
    + rewrite filter_cons. simpl. rewrite Hm.
      destruct b; [by rewrite decide_True|by rewrite decide_False].
Qed.

Lemma collect_matches_total query docs :
  (forall id d, (id, d) ∈ docs -> exists b, matches_query d query = Ok b) ->
  collect_matches query docs = Ok (filter (fun p => matches_query p.2 query = Ok true) docs).
Proof.
  induction docs as [|[id d] docs IH]; intros Hall; simpl; [done|].
  destruct (Hall id d) as [b Hb]; [by left|]. rewrite Hb, IH.
  - rewrite filter_cons. simpl. rewrite Hb. destruct b; [by rewrite decide_True|by rewrite decide_False].
  - intros id' d' Hin. apply (Hall id'). by right.
Qed.

Lemma sorted_ext_elem {V} (m m' : list (string * V)) :
  BTreeMap.sorted m -> BTreeMap.sorted m' -> (forall k v, (k, v) ∈ m <-> (k, v) ∈ m') -> m = m'.
Proof.
  intros Hs Hs' He. apply BTreeMap.sorted_ext; [done..|]. intros k. apply option_eq. intros v.
  by rewrite <- !BTreeMap.elem_get.
Qed.

Lemma entries_filter_sorted {V} (P : string * V -> Prop) `{!forall x, Decision (P x)} (m : list (string * V)) :
  BTreeMap.sorted m -> BTreeMap.sorted (filter P m).
Proof.
  induction m as [|[k v] m IH]; [done|]. intros [Hs Hk]%BTreeMap.sorted_cons. rewrite filter_cons.
  case_decide; [|by apply IH]. apply BTreeMap.sorted_cons. split; [by apply IH|].
  intros k' ([a w] & -> & [_ Hin]%list_elem_of_filter)%list_elem_of_fmap. apply Hk.
  apply list_elem_of_fmap. by exists (a, w).
Qed.

Lemma lookup_list_sorted {V} (m : list (string * V)) ids :
  BTreeSet.sorted ids ->
  BTreeMap.sorted (omap (fun id => (fun d => (id, d)) <$> BTreeMap.get m id) ids).
Proof.
  induction 1 as [|id ids Hs IH Hid]; [constructor|]. simpl.
  destruct (BTreeMap.get m id); [|done]. simpl. apply BTreeMap.sorted_cons. split; [done|].
  intros k ([a w] & -> & Ha)%list_elem_of_fmap. apply list_elem_of_omap in Ha as (id' & Hin & Hg).
  apply fmap_Some in Hg as (? & _ & [= -> _]). rewrite Forall_forall in Hid. by apply Hid.
Qed.

(** Looking only at the candidates of a query finds what the full scan finds, in
    the same order. *)
Lemma scan_list_complete self query found :
  coherent self -> no_negative_zero query = true ->
  (forall id d, (id, d) ∈ documents self -> no_negative_zero d = true) ->
  collect_matches query (documents self) = Ok found ->
  collect_matches query (scan_list self query) = Ok found.
Proof.
  intros Hc Hq Hz [Hall ->]%collect_matches_ok.
  assert (Hs : BTreeMap.sorted (documents self)) by apply Hc.
  rewrite collect_matches_total.
  2:{ intros id d Hin%scan_list_documents; [|done]. by eapply Hall. }
  f_equal. unfold scan_list. destruct (IndexCatalog.candidates _ query) as [ids|] eqn:Hcand; [|done].
  destruct (rebuild_ok _ _ _ (coherent_indexes _ Hc)) as (Hi & _ & _).
  apply sorted_ext_elem.
  - apply entries_filter_sorted, lookup_list_sorted. by eapply candidates_sorted.
  - by apply entries_filter_sorted.
  - intros id d. rewrite !list_elem_of_filter.
    split; intros [Hm Hin]; (split; [done|]).
    + apply list_elem_of_omap in Hin as (id' & _ & Hg).
      apply fmap_Some in Hg as (d' & Hg & [= -> ->]). by apply BTreeMap.elem_get.
    + apply list_elem_of_omap. exists id. apply BTreeMap.elem_get in Hin as Hg; [|done].
      rewrite Hg. split; [|done]. by eapply candidates_complete; [..|exact Hcand]; eauto.
Qed.
End collection.
