(* ===== verification/OdmProperties.v ===== *)
(** * Properties of the document mapper

    Schemas, queries, updates, indexes and collections, and their concrete
    witnesses. *)

From S2P Require Import Prelude BTree Json OdmSchema OdmQuery OdmUpdate OdmUpdateInv OdmIndex.
From S2P Require Import OdmIndexInv OdmCollection OdmCollectionInv Codec.

(** An injective text for JSON values, used where a theorem that takes the text as a
    parameter is applied at a concrete input. *)
Module ExampleText.
Abbreviation leaf := (list Z + string)%type.

Definition number_leaf (n : Number) : list Z :=
  match n with
  | PosInt n => [0; Z.of_N n]
  | NegInt z => [1; z]
  | Float (S754_zero b) => [2; Z.b2z b]
  | Float (S754_infinity b) => [3; Z.b2z b]
  | Float S754_nan => [4]
  | Float (S754_finite b m e) => [5; Z.b2z b; Z.pos m; e]
  end%Z.

Fixpoint tree (v : Value) : gen_tree leaf :=
  match v with
  | Null => GenNode 0 []
  | Bool b => GenNode (if b then 1 else 2) []
  | Num n => GenLeaf (inl (number_leaf n))
  | Str s => GenLeaf (inr s)
  | Array vs => GenNode 3 (tree <$> vs)
  | Object fs => GenNode 4 ((fun kv => GenNode 5 [GenLeaf (inr kv.1); tree kv.2]) <$> fs)
  end.

Lemma number_leaf_inj a b : number_leaf a = number_leaf b -> a = b.
Proof.
  destruct a as [a|a|[[]|[]| |[] m e]], b as [b|b|[[]|[]| |[] m' e']]; simpl; intros Heq;
    simplify_eq; try done.
Qed.

Lemma fmap_inj_forall {A B} (f : A -> B) xs ys :
  Forall (fun x => forall y, f x = f y -> x = y) xs -> f <$> xs = f <$> ys -> xs = ys.
Proof.
  intros Hall. revert ys. induction Hall as [|x xs Hx _ IH]; intros [|y ys]; try done.
  intros [= Hf Hr]. f_equal; [by apply Hx|by apply IH].
Qed.

Lemma tree_inj a b : tree a = tree b -> a = b.
Proof.
  revert b. induction a as [|a|a|a|xs IH|xs IH] using value_ind'; intros [|b|b|b|ys|ys]; simpl;
    intros Heq; try (by simplify_eq); try (by repeat (match goal with b : bool |- _ => destruct b end)).
  - injection Heq as Heq. f_equal. by apply number_leaf_inj.
  - injection Heq as Heq. f_equal. by eapply fmap_inj_forall.
  - injection Heq as Heq. f_equal. eapply fmap_inj_forall; [|exact Heq].
    eapply Forall_impl; [exact IH|]. intros [k v] Hv [k' v'] [= -> Ht]. f_equal. by apply Hv.
Qed.

#[global] Instance example_text : JsonText := { to_json v := Codec.write (tree v) }.

Lemma example_text_inj (a b : Value) : to_json a = to_json b -> a = b.
Proof.
  intros Heq. apply tree_inj. apply (f_equal (Codec.read (A := gen_tree leaf))) in Heq.
  simpl in Heq. rewrite !Codec.read_write in Heq. by injection Heq.
Qed.
End ExampleText.

Import Collection.

(** A collection reached from an empty memory storage. *)
Definition reachable `{JsonText} (self : t MemoryStorage.t) : Prop :=
  exists name sch self0, new name sch MemoryStorage.new = Ok self0 /\ rtc collection_step self0 self.

Lemma reachable_is_coherent `{JsonText} self : reachable self -> coherent self.
Proof. intros (name & sch & self0 & Hn & Hr). by eapply reachable_coherent. Qed.

Lemma check_all_ok {A} (check : A -> result OdmError unit) xs :
  ModelSchema.check_all check xs = Ok tt <-> forall x, x ∈ xs -> check x = Ok tt.
Proof.
  induction xs as [|x xs IH]; simpl; [split; [by intros _ x ?%elem_of_nil|done]|].
  setoid_rewrite elem_of_cons. destruct (check x) as [[]|] eqn:Hx.
  - rewrite IH. naive_solver.
  - split; [done|]. intros Hall. rewrite Hall in Hx by by left. done.
Qed.

Lemma validate_field_ok object f :
  ModelSchema.validate_field object f = Ok tt <->
  match BTreeMap.get object (FieldDefinition.name f) with
  | None => FieldDefinition.is_required f = false
  | Some v =>
      (v = Null /\ (FieldDefinition.is_required f = true -> FieldDefinition.is_nullable f = true)) \/
      (v <> Null /\ FieldType.matches (FieldDefinition.field_type f) v = true)
  end.
Proof.
  unfold ModelSchema.validate_field. destruct (BTreeMap.get _ _) as [v|].
  - destruct (FieldDefinition.is_required f), (FieldDefinition.is_nullable f), v;
      try destruct (FieldType.matches _ _) eqn:?; simpl; naive_solver.
  - destruct (FieldDefinition.is_required f); naive_solver.
Qed.

Lemma validate_key_ok self k :
  ModelSchema.validate_key self k = Ok tt <-> k = "_id" \/ k ∈ (ModelSchema.fields self).*1.
Proof.
  unfold ModelSchema.validate_key, BTreeMap.contains_key.
  pose proof (BTreeMap.get_None (ModelSchema.fields self) k) as Hn.
  destruct (decide (k = "_id")) as [->|Hk]; [rewrite bool_decide_eq_false_2 by tauto; naive_solver|].
  rewrite bool_decide_eq_true_2 by done.
  destruct (BTreeMap.get _ k) as [f|]; simpl.
  - split; [|done]. intros _. right.
    destruct (decide (k ∈ (ModelSchema.fields self).*1)) as [|Hx]; [done|]. apply Hn in Hx. done.
  - split; [done|]. intros [?|Hx]; [done|]. exfalso. by apply (proj1 Hn).
Qed.

(** A concrete collection: users with a unique address and an indexed score. *)
Module Users.
Definition schema : ModelSchema.t :=
  ModelSchema.add_field
    (ModelSchema.add_field
       (ModelSchema.add_field (ModelSchema.new "User" "users")
          (FieldDefinition.primary_key (FieldDefinition.new "_id" FieldType.String)))
       (FieldDefinition.unique (FieldDefinition.new "email" FieldType.String)))
    (FieldDefinition.indexed (FieldDefinition.new "score" FieldType.Number)).

Definition user (id email : string) (score : Number) : Value :=
  Object [("_id", Str id); ("email", Str email); ("score", Num score)].

Definition docs : list (string * Value) :=
  [("a", user "a" "a@x" (PosInt 1)); ("b", user "b" "b@x" (PosInt 2))].
End Users.

Section properties.
Context `{JsonText}.

(** A document is accepted exactly when it is an object in which each declared
    field is present if required, is not null if required and not nullable, and
    has the declared type when it has a value, and, under a strict schema, in
    which each key is declared or is the storage key. *)
Theorem validate_document_exact (self : ModelSchema.t) (document : Value) :
  ModelSchema.validate_document self document = Ok tt <->
  exists object, document = Object object /\
    (forall f, f ∈ (ModelSchema.fields self).*2 ->
       match BTreeMap.get object (FieldDefinition.name f) with
       | None => FieldDefinition.is_required f = false
       | Some v =>
           (v = Null /\ (FieldDefinition.is_required f = true -> FieldDefinition.is_nullable f = true)) \/
           (v <> Null /\ FieldType.matches (FieldDefinition.field_type f) v = true)
       end) /\
    (ModelSchema.strict self = true ->
     forall k, k ∈ object.*1 -> k = "_id" \/ k ∈ (ModelSchema.fields self).*1).
Proof.
  unfold ModelSchema.validate_document. destruct document as [| | | | |object]; simpl;
    try (split; [done|]; by intros (? & ? & _)).
  destruct (ModelSchema.check_all _ (ModelSchema.fields self).*2) as [[]|e] eqn:Hc.
  - assert (Hc' := proj1 (check_all_ok _ _) Hc). setoid_rewrite validate_field_ok in Hc'.
    destruct (ModelSchema.strict self).
    + rewrite check_all_ok. setoid_rewrite validate_key_ok. naive_solver.
    + split; [|done]. intros _. exists object. naive_solver.
  - split; [done|]. intros (o & [= <-] & Hf & _). exfalso. setoid_rewrite <- validate_field_ok in Hf.
    apply check_all_ok in Hf. by rewrite Hf in Hc.
Qed.

(** Setting a path that succeeds stores the value there, leaves the value at
    every path that parts from it as it was, and reports a change exactly when
    no equal value was there before. *)
Theorem set_path_exact (d : Value) (path : string) (v d' : Value) (changed : bool) :
  set_path d path v = Ok (d', changed) ->
  value_at_path d' path = Some v /\
  (forall q, diverge (split_dot path) (split_dot q) -> value_at_path d' q = value_at_path d q) /\
  changed = match value_at_path d path with Some old => negb (value_eqb old v) | None => true end.
Proof.
  intros Hs%set_path_segments. split_and!.
  - by eapply set_segments_get.
  - intros q Hq. by eapply set_segments_frame.
  - by eapply set_segments_changed.
Qed.

(** An update that succeeds leaves an immutable field, and every path below
    it, as it was, whichever operators it uses. *)
Theorem update_keeps_immutable (d ops : Value) (imm : list string) (d' : Value) (changed : bool)
    (path seg : string) (rest : list string) :
  apply_update d ops imm = Ok (d', changed) -> split_dot path = seg :: rest -> seg ∈ imm ->
  value_at_path d' path = value_at_path d path.
Proof.
  intros Hu Hp Hin. unfold value_at_path. rewrite Hp, !value_at_cons.
  by rewrite (apply_update_immutable _ _ _ _ _ _ Hu Hin).
Qed.

(** Incrementing by an integer a path that holds an integer or nothing, both
    in the range of [i64], stores their exact sum as an integer when it is in
    that range, and a float otherwise; it never wraps around. *)
Theorem increment_exact (d : Value) (path : string) (c i : Z) (n : Number) (d' : Value) (changed : bool) :
  match value_at_path d path with Some v => value_i64 v = Some c | None => c = 0%Z end ->
  as_i64 n = Some i ->
  increment_path d path (Num n) = Ok (d', changed) ->
  if decide (i64_min <= c + i <= i64_max)%Z
  then value_at_path d' path = Some (Num (number_from_i64 (c + i)))
  else exists f, value_at_path d' path = Some (Num (Float f)).
Proof.
  intros Hc Hi. unfold increment_path. simpl.
  destruct (is_some_and (value_at_path d path) _) eqn:Hnum; [done|].
  destruct (add_json_numbers (value_at_path d path) (Num n) path) as [r|] eqn:Hadd; [|done].
  intros Hs%set_path_segments%set_segments_get. unfold value_at_path in Hs |- *. rewrite Hs.
  unfold add_json_numbers in Hadd.
  replace (match value_at_path d path with None => Some 0%Z | Some v => value_i64 v end)
    with (Some c) in Hadd by (destruct (value_at_path d path); congruence).
  simpl in Hadd. rewrite Hi in Hadd. unfold checked_add in Hadd. case_decide.
  - by injection Hadd as <-.
  - unfold number_from_f64 in Hadd. destruct (f64_is_finite _); [|done].
    injection Hadd as <-. by eexists.
Qed.

(** Building the indexes succeeds exactly when no two documents contribute the
    same key to a unique field, a null contributing none and an array its own
    key and those of its items; the error names such a field and key. *)
Theorem unique_index_exact (sch : ModelSchema.t) (docs : list (string * Value)) :
  ((exists catalog, IndexCatalog.rebuild sch docs = Ok catalog) <->
   forall f tok, f ∈ ModelSchema.unique_fields sch -> ~ clash docs f tok) /\
  (forall e, IndexCatalog.rebuild sch docs = Err e ->
   exists f tok, e = DuplicateKey f tok /\ f ∈ ModelSchema.unique_fields sch /\ clash docs f tok).
Proof.
  split; [|apply rebuild_err]. split.
  - intros [catalog Hr] f tok. by eapply rebuild_no_clash.
  - intros Hno. destruct (IndexCatalog.rebuild sch docs) as [catalog|e] eqn:Hr; [eauto|].
    apply rebuild_err in Hr as (f & tok & _ & Hf & Hcl). by destruct (Hno f tok Hf).
Qed.

(** C15. In a collection reached from an empty memory storage by any operations,
    each document satisfies the schema and is stored under its own identifier,
    no two documents share a value of a unique field, and loading the storage
    again gives the very same documents and indexes. *)
Theorem collection_consistent (self : t MemoryStorage.t) :
  reachable self ->
  refresh_locked self = (self, Ok tt) /\
  (forall id d, (id, d) ∈ documents self ->
     ModelSchema.validate_document (schema self) d = Ok tt /\ document_id (schema self) d = Ok id) /\
  (forall f id1 d1 id2 d2 v, f ∈ ModelSchema.unique_fields (schema self) ->
     (id1, d1) ∈ documents self -> (id2, d2) ∈ documents self ->
     value_at_path d1 f = Some v -> value_at_path d2 f = Some v -> v <> Null -> id1 = id2).
Proof.
  intros Hc%reachable_is_coherent. split_and!.
  - by apply refresh_coherent.
  - intros id d Hin. by destruct (coherent_valid _ Hc _ _ Hin) as (? & ? & _).
  - intros f id1 d1 id2 d2 v Hf H1 H2 Hv1 Hv2 Hn. destruct (decide (id1 = id2)) as [|Hne]; [done|].
    exfalso. apply (rebuild_no_clash _ _ _ f (to_json v) (coherent_indexes _ Hc) Hf).
    exists id1, d1, id2, d2. unfold IndexCatalog.field_tokens. rewrite Hv1, Hv2.
    destruct v; try done; simpl is_null; cbv iota; rewrite elem_of_index_tokens; tauto.
Qed.

(** C8. A query answered through the indexes returns what a scan of all documents
    returns, in the same order, whenever the scan succeeds and neither the query
    nor a document contains a negative zero. *)
Theorem find_is_full_scan (self : t MemoryStorage.t) (query : Value) (found : list (string * Value)) :
  reachable self -> no_negative_zero query = true ->
  (forall id d, (id, d) ∈ documents self -> no_negative_zero d = true) ->
  collect_matches query (documents self) = Ok found ->
  find self query = (self, Ok ((fun p => external_document (schema self) p.2) <$> found)).
Proof.
  intros Hc%reachable_is_coherent Hq Hd Hf. unfold find. rewrite refreshed_coherent by done.
  by rewrite (scan_list_complete _ _ _ Hc Hq Hd Hf).
Qed.

(** A document that was inserted is found by the key the caller got back, with
    the content returned at the insertion; its identifier was free, the other
    documents stay, and an insertion that fails changes nothing. *)
Theorem insert_then_find_by_id (self : t MemoryStorage.t) (now uuid : string) (doc : Value)
    (opts : WriteOptions.t) :
  reachable self ->
  let '(self', r) := insert_one_with_options self now uuid doc opts in
  match r with
  | Ok v => exists key id, field v (ModelSchema.primary_key (schema self)) = Some key /\
      canonical_value key = Ok id /\ BTreeMap.get (documents self) id = None /\
      find_by_id self' key = (self', Ok (Some v)) /\
      forall id', id' <> id -> BTreeMap.get (documents self') id' = BTreeMap.get (documents self) id'
  | Err _ => self' = self
  end.
Proof.
  intros Hc%reachable_is_coherent.
  destruct (insert_one_spec self now uuid doc opts Hc) as (Hc' & Hs & Hr).
  destruct (insert_one_with_options self now uuid doc opts) as [self' [v|e]]; simpl in *; [|done].
  destruct Hr as (id & d & Hst & Hn & -> & Hdocs).
  destruct (external_key _ _ _ Hst) as (key & Hf & Hk). exists key, id. split_and!; [done..| |].
  - unfold find_by_id. rewrite Hk, refreshed_coherent by done.
    rewrite Hdocs, BTreeMap.get_insert, decide_True by done. by rewrite Hs.
  - intros id' Hne. rewrite Hdocs, BTreeMap.get_insert. by rewrite decide_False.
Qed.


(** An update changes at most one document, one that matches the query: it
    keeps its identifier, still satisfies the schema, and is what the caller
    gets; an update that fails leaves the collection and its storage unchanged. *)
Theorem update_changes_one (self : t MemoryStorage.t) (now : string) (query ops : Value)
    (opts : WriteOptions.t) :
  reachable self ->
  let '(self', r) := update_with_options self now query ops opts in
  match r with
  | Ok v => self' = self \/
      exists id d d', BTreeMap.get (documents self) id = Some d /\ matches_query d query = Ok true /\
        documents self' = BTreeMap.insert (documents self) id d' /\
        document_id (schema self) d' = Ok id /\
        ModelSchema.validate_document (schema self) d' = Ok tt /\
        v = Some (external_document (schema self) d')
  | Err _ => self' = self
  end.
Proof.
  intros Hc%reachable_is_coherent.
  destruct (update_coherent self now query ops opts Hc) as [_ Hr].
  destruct (update_with_options self now query ops opts) as [self' [v|e]]; simpl in *; [|done].
  destruct Hr as [?|(id & d & d' & ? & ? & ? & (? & ? & _) & ?)]; [by left|right].
  exists id, d, d'. done.
Qed.

(** Zero and negative zero are equal for a query but have different index
    keys: a query on an indexed field for the one misses a document that holds
    the other, which a scan finds. *)
Theorem negative_zero_missed (catalog : IndexCatalog.t) :
  to_json (Num (Float (S754_zero false))) <> to_json (Num (Float (S754_zero true))) ->
  let docs := [("a", Users.user "a" "a@x" (Float (S754_zero true)))] in
  let query := Object [("score", Num (Float (S754_zero false)))] in
  IndexCatalog.rebuild Users.schema docs = Ok catalog ->
  let self := mk "users" Users.schema (MemoryStorage.mk docs) docs catalog in
  collect_matches query (documents self) = Ok docs /\
  find self query = (self, Ok []).
Proof.
  intros Hne docs query Hr self. split; [done|].
  assert (Hrefresh : refresh_locked self = (self, Ok tt)).
  { assert (Hl : load_documents Users.schema docs.*2 [] = Ok docs) by reflexivity.
    unfold refresh_locked. cbn [self storage load_all MemoryStorage.memory_storage
      MemoryStorage.documents schema]. rewrite Hl. cbv beta iota. by rewrite Hr. }
  assert (Hcand : IndexCatalog.candidates (indexes self) query = Some []).
  { injection Hr as <-. cbn -[to_json]. unfold IndexCatalog.narrow. simpl.
    unfold IndexCatalog.index_token. by rewrite decide_False by congruence. }
  unfold find, refreshed. rewrite Hrefresh. unfold scan_list. by rewrite Hcand.
Qed.
End properties.

(** ** Concrete collections *)

Module UserCollection.
Definition value_or {A} (d : A) (r : result OdmError A) : A := match r with Ok a => a | Err _ => d end.

Definition start : t MemoryStorage.t :=
  value_or (mk "" Users.schema MemoryStorage.new [] IndexCatalog.default_catalog)
    (new "users" Users.schema MemoryStorage.new).

Definition add (self : t MemoryStorage.t) (d : Value) : t MemoryStorage.t :=
  (insert_one_with_options self "t" "u" d WriteOptions.default).1.

Definition two : t MemoryStorage.t :=
  add (add start (Users.user "b" "b@x" (PosInt 2))) (Users.user "a" "a@x" (PosInt 1)).

Lemma start_reachable : reachable start.
Proof. exists "users", Users.schema, start. split; [by vm_compute|constructor]. Qed.

Lemma add_reachable self d : reachable self -> reachable (add self d).
Proof.
  intros (name & sch & self0 & Hn & Hr). exists name, sch, self0. split; [done|].
  eapply rtc_r; [exact Hr|]. apply step_insert_one.
Qed.

Lemma two_reachable : reachable two.
Proof. apply add_reachable, add_reachable, start_reachable. Qed.

(** The identifiers, the result and its success. *)
Definition ids (self : t MemoryStorage.t) : list string := (documents self).*1.

(** The query and the updates of the examples. *)
Definition score (n : N) : Value := Object [("score", Num (PosInt n))].
Definition raise : Value := Object [("$inc", Object [("score", Num (PosInt 3))])].
End UserCollection.
Import UserCollection.

Lemma set_path_exact_witness :
  let d' := Object [("a", Object [("b", Num (PosInt 1)); ("c", Bool true)])] in
  set_path (Object [("a", Object [("c", Bool true)])]) "a.b" (Num (PosInt 1)) = Ok (d', true) /\
  value_at_path d' "a.b" = Some (Num (PosInt 1)).
Proof.
  intros d'. split; [reflexivity|].
  apply (set_path_exact (Object [("a", Object [("c", Bool true)])]) "a.b" (Num (PosInt 1)) d' true).
  reflexivity.
Defined.

Lemma update_keeps_immutable_witness :
  let d' := Users.user "a" "a@x" (PosInt 4) in
  apply_update (Users.user "a" "a@x" (PosInt 1)) raise ["_id"] = Ok (d', true) /\
  value_at_path d' "_id" = Some (Str "a").
Proof.
  intros d'. split; [reflexivity|].
  rewrite (update_keeps_immutable (Users.user "a" "a@x" (PosInt 1)) raise ["_id"] d' true "_id" "_id" []);
    [reflexivity..|]. by left.
Defined.

Lemma increment_exact_witness :
  let d := Object [("n", Num (PosInt 9223372036854775806))] in
  let d' := Object [("n", Num (PosInt 9223372036854775807))] in
  increment_path d "n" (Num (PosInt 1)) = Ok (d', true) /\
  if decide (i64_min <= 9223372036854775806 + 1 <= i64_max)%Z
  then value_at_path d' "n" = Some (Num (number_from_i64 (9223372036854775806 + 1)))
  else exists f, value_at_path d' "n" = Some (Num (Float f)).
Proof.
  intros d d'. split; [vm_compute; reflexivity|].
  apply (increment_exact d "n" 9223372036854775806 1 (PosInt 1) d' true);
    vm_compute; reflexivity.
Defined.

Lemma unique_index_exact_witness :
  (exists catalog, IndexCatalog.rebuild Users.schema Users.docs = Ok catalog) /\
  forall f tok, f ∈ ModelSchema.unique_fields Users.schema -> ~ clash Users.docs f tok.
Proof.
  assert (Hok : exists catalog, IndexCatalog.rebuild Users.schema Users.docs = Ok catalog)
    by (eexists; vm_compute; reflexivity).
  split; [exact Hok|]. apply (unique_index_exact Users.schema Users.docs). exact Hok.
Defined.

Lemma collection_consistent_witness :
  ids two = ["a"; "b"] /\ refresh_locked two = (two, Ok tt).
Proof. split; [vm_compute; reflexivity|]. apply (collection_consistent two two_reachable). Defined.

Lemma find_is_full_scan_witness :
  let found := [("b", Users.user "b" "b@x" (PosInt 2))] in
  collect_matches (score 2) (documents two) = Ok found /\
  find two (score 2) =
    (two, Ok ((fun p => external_document (schema two) p.2) <$> found)).
Proof.
  intros found.
  assert (Hf : collect_matches (score 2) (documents two) = Ok found) by (vm_compute; reflexivity).
  split; [exact Hf|]. apply (find_is_full_scan two (score 2) found two_reachable).
  - reflexivity.
  - assert (Hd : documents two = Users.docs) by (vm_compute; reflexivity). rewrite Hd.
    intros id d Hin. apply elem_of_cons in Hin as [[= -> ->]|Hin]; [reflexivity|].
    apply list_elem_of_singleton in Hin as [= -> ->]. reflexivity.
  - exact Hf.
Defined.

Lemma insert_then_find_by_id_witness :
  let '(self', r) :=
    insert_one_with_options two "t" "u" (Users.user "c" "c@x" (PosInt 3)) WriteOptions.default in
  ids self' = ["a"; "b"; "c"] /\
  match r with
  | Ok v => exists key id, field v (ModelSchema.primary_key (schema two)) = Some key /\
      canonical_value key = Ok id /\ BTreeMap.get (documents two) id = None /\
      find_by_id self' key = (self', Ok (Some v)) /\
      forall id', id' <> id -> BTreeMap.get (documents self') id' = BTreeMap.get (documents two) id'
  | Err _ => self' = two
  end.
Proof.
  pose proof (insert_then_find_by_id two "t" "u" (Users.user "c" "c@x" (PosInt 3))
                WriteOptions.default two_reachable) as Hp.
  assert (Hi : ids (insert_one_with_options two "t" "u" (Users.user "c" "c@x" (PosInt 3))
                      WriteOptions.default).1 = ["a"; "b"; "c"]) by (vm_compute; reflexivity).
  destruct (insert_one_with_options two "t" "u" (Users.user "c" "c@x" (PosInt 3))
              WriteOptions.default) as [self' r].
  split; [exact Hi|exact Hp].
Defined.


Lemma update_changes_one_witness :
  let '(self', r) := update_with_options two "t" (score 2) raise WriteOptions.default in
  ids self' = ["a"; "b"] /\
  match r with
  | Ok v => self' = two \/
      exists id d d', BTreeMap.get (documents two) id = Some d /\ matches_query d (score 2) = Ok true /\
        documents self' = BTreeMap.insert (documents two) id d' /\
        document_id (schema two) d' = Ok id /\
        ModelSchema.validate_document (schema two) d' = Ok tt /\
        v = Some (external_document (schema two) d')
  | Err _ => self' = two
  end.
Proof.
  pose proof (update_changes_one two "t" (score 2) raise WriteOptions.default two_reachable) as Hp.
  assert (Hi : ids (update_with_options two "t" (score 2) raise WriteOptions.default).1 = ["a"; "b"])
    by (vm_compute; reflexivity).
  destruct (update_with_options two "t" (score 2) raise WriteOptions.default) as [self' r].
  split; [exact Hi|exact Hp].
Defined.

Lemma negative_zero_missed_witness :
  let docs := [("a", Users.user "a" "a@x" (Float (S754_zero true)))] in
  let query := Object [("score", Num (Float (S754_zero false)))] in
  exists catalog, IndexCatalog.rebuild Users.schema docs = Ok catalog /\
  collect_matches query docs = Ok docs /\
  find (mk "users" Users.schema (MemoryStorage.mk docs) docs catalog) query =
    (mk "users" Users.schema (MemoryStorage.mk docs) docs catalog, Ok []).
Proof.
  intros docs query. destruct (IndexCatalog.rebuild Users.schema docs) as [catalog|e] eqn:Hr.
  - exists catalog. split; [reflexivity|]. apply (negative_zero_missed catalog); [|exact Hr].
    vm_compute. discriminate.
  - exfalso. revert Hr. vm_compute. discriminate.
Defined.
