(* ===== verification/LogProperties.v ===== *)
(** * Properties of the operation log

    The theorems about src/log: replicas that exchange their logs converge, the
    list of values is a causal linearisation of the stored entries, writing and
    merging keep the log consistent, and the loops terminate. *)

From S2P Require Import Prelude LamportClock Entry Log LogTraverse LogCrdt LogWrite LogJoin LogTruncate.
From S2P Require Import BaseStore BaseStoreInv Scenario.

Abbreviation store_order := (Entry.no_zeroes default_sort_fn).

Lemma replica_ordered A : replica A -> Log.sort_fn A = store_order -> ordered A.
Proof. intros HA Hs. apply default_ordered; [apply HA|apply HA|done]. Qed.

Lemma replica_values J J' :
  replica J -> replica J' -> Log.entries J = Log.entries J' -> Log.sort_fn J = store_order ->
  Log.sort_fn J' = store_order -> Log.values J = Log.values J'.
Proof.
  intros HJ HJ' He Hs Hs'. apply values_same; [done|congruence|apply HJ|apply HJ'|].
  apply (ordered_total _ (replica_ordered _ HJ Hs)).
Qed.

Lemma compatible_union_comm A B :
  compatible A B -> Log.entries A ∪ Log.entries B = Log.entries B ∪ Log.entries A.
Proof.
  intros HAB. apply map_eq. intros h. rewrite !lookup_union.
  destruct (Log.entries A !! h) eqn:Ha, (Log.entries B !! h) eqn:Hb; simpl; try done.
  by rewrite (HAB _ _ _ Ha Hb).
Qed.

Lemma store_order_lt x y : store_order x y = Lt -> default_sort_fn x y = Lt.
Proof.
  unfold Entry.no_zeroes. case_decide; [done|]. destruct (default_sort_fn x y) eqn:E; [|done..].
  unfold default_sort_fn in E. repeat case_match; congruence.
Qed.

(** C1. Convergence: two replicas of a log that join each other, in either
    direction, list the same values in the same order, count the same number of
    entries and have the same heads. *)
Theorem join_converges A B J1 J2 :
  replica A -> replica B -> compatible A B ->
  Log.sort_fn A = store_order -> Log.sort_fn B = store_order ->
  Log.join A B None = Some J1 -> Log.join B A None = Some J2 ->
  Log.values J1 = Log.values J2 /\ Log.len J1 = Log.len J2 /\ Log.heads J1 ≡ₚ Log.heads J2.
Proof.
  intros HA HB HAB HsA HsB H1 H2. pose proof (compatible_sym _ _ HAB) as HBA.
  pose proof (join_replica _ _ _ HA HB HAB H1) as HJ1.
  pose proof (join_replica _ _ _ HB HA HBA H2) as HJ2.
  assert (He : Log.entries J1 = Log.entries J2).
  { rewrite (join_entries _ _ _ HA HB HAB H1), (join_entries _ _ _ HB HA HBA H2).
    by apply compatible_union_comm. }
  pose proof (join_fields _ _ _ _ H1) as [_ Hs1]. pose proof (join_fields _ _ _ _ H2) as [_ Hs2].
  split_and!.
  - apply replica_values; [done..|congruence|congruence].
  - unfold Log.len. by rewrite (wf_length _ (replica_wf _ HJ1)), (wf_length _ (replica_wf _ HJ2)), He.
  - apply wf_heads_perm; [apply HJ1|apply HJ2|done].
Qed.

Lemma join_converges_witness :
  exists J, Log.join Scenario.bob1 Scenario.alice2 None = Some J /\
    Log.values Scenario.joined = Log.values J /\ Log.len Scenario.joined = 3 /\
    Entry.payload <$> Log.values J = ["one"; "uno"; "two"].
Proof.
  eexists. split; [reflexivity|]. split; [|split; vm_compute; reflexivity].
  eapply (join_converges Scenario.alice2 Scenario.bob1);
    [apply Scenario.alice2_replica|apply Scenario.bob1_replica|apply Scenario.alice2_bob1|
     reflexivity..].
Defined.

(** C35. Joining is associative and idempotent: merging three replicas gives the
    same list of values however the joins are grouped, and joining a replica
    with itself changes nothing. *)
Theorem join_associative A B C AB BC L R AA :
  replica A -> replica B -> replica C ->
  compatible A B -> compatible B C -> compatible A C ->
  Log.sort_fn A = store_order -> Log.sort_fn B = store_order ->
  Log.join A B None = Some AB -> Log.join AB C None = Some L ->
  Log.join B C None = Some BC -> Log.join A BC None = Some R ->
  Log.join A A None = Some AA ->
  Log.values L = Log.values R /\ Log.values AA = Log.values A.
Proof.
  intros HA HB HC cAB cBC cAC HsA HsB H1 H2 H3 H4 H5.
  pose proof (join_replica _ _ _ HA HB cAB H1) as HAB.
  pose proof (join_replica _ _ _ HB HC cBC H3) as HBC.
  assert (cABC : compatible AB C) by by apply (join_compatible A B C).
  assert (cA_BC : compatible A BC).
  { apply compatible_sym. eapply (join_compatible B C A); eauto using compatible_sym. }
  assert (cAA : compatible A A) by (intros ? ? ? ? ?; congruence).
  pose proof (join_fields _ _ _ _ H1) as [_ Hs1]. pose proof (join_fields _ _ _ _ H2) as [_ Hs2].
  pose proof (join_fields _ _ _ _ H4) as [_ Hs4]. pose proof (join_fields _ _ _ _ H5) as [_ Hs5].
  split.
  - apply replica_values; [by apply (join_replica AB C)|by apply (join_replica A BC)| |congruence..].
    rewrite (join_entries _ _ _ HAB HC cABC H2), (join_entries _ _ _ HA HBC cA_BC H4).
    rewrite (join_entries _ _ _ HA HB cAB H1), (join_entries _ _ _ HB HC cBC H3).
    by rewrite map_union_assoc.
  - apply replica_values; [by apply (join_replica A A)|done| |congruence..].
    rewrite (join_entries _ _ _ HA HA cAA H5). apply map_union_idemp.
Qed.

Lemma join_associative_witness :
  exists AB BC L R,
    Log.join Scenario.alice1 Scenario.bob1 None = Some AB /\
    Log.join AB Scenario.alice2 None = Some L /\
    Log.join Scenario.bob1 Scenario.alice2 None = Some BC /\
    Log.join Scenario.alice1 BC None = Some R /\ Log.values L = Log.values R.
Proof.
  do 4 eexists. do 4 (split; [reflexivity|]).
  eapply (join_associative Scenario.alice1 Scenario.bob1 Scenario.alice2);
    [apply Scenario.alice1_replica|apply Scenario.bob1_replica|apply Scenario.alice2_replica|
     apply Scenario.alice1_bob1|apply compatible_sym, Scenario.alice2_bob1|
     apply Scenario.alice1_alice2|reflexivity..].
Defined.

(** Joining a replica keeps it a replica: its entries are exactly those of
    the two logs, the counter agrees with them, and its clock is at least the
    time of every entry. *)
Theorem join_merges A B J :
  replica A -> replica B -> compatible A B -> Log.join A B None = Some J ->
  replica J /\ (forall e, stored J e <-> stored A e \/ stored B e) /\
  Log.len J = size (Log.entries A ∪ Log.entries B) /\
  (forall e, stored J e -> (Entry.time e <= LamportClock.time (Log.clock J))%N).
Proof.
  intros HA HB HAB HJ. pose proof (join_replica _ _ _ HA HB HAB HJ) as HR. split_and!; [done|..].
  - by apply join_stored.
  - unfold Log.len. by rewrite (wf_length _ (replica_wf _ HR)), (join_entries _ _ _ HA HB HAB HJ).
  - by apply (join_clock A B).
Qed.

Lemma join_merges_witness :
  replica Scenario.joined /\ LamportClock.time (Log.clock Scenario.joined) = 2%N.
Proof.
  split; [|vm_compute; reflexivity].
  apply (join_merges Scenario.alice2 Scenario.bob1);
    [apply Scenario.alice2_replica|apply Scenario.bob1_replica|apply Scenario.alice2_bob1|
     reflexivity].
Defined.

(** C10. The values of a log are a linearisation of it: they are exactly the
    stored entries, each once, in strictly ascending order, every parent before
    its children. *)
Theorem values_linearise self :
  wf self -> causal_log self -> Log.sort_fn self = store_order ->
  (forall e, e ∈ Log.values self <-> stored self e) /\
  NoDup (Entry.hash <$> Log.values self) /\
  length (Log.values self) = Log.len self /\
  StronglySorted (fun x y => default_sort_fn x y = Lt) (Log.values self) /\
  (forall l1 e l2 p, Log.values self = l1 ++ e :: l2 -> stored self p ->
     Entry.hash p ∈ Entry.next e -> p ∈ l1).
Proof.
  intros Hwf Hc Hs. pose proof (default_ordered _ Hwf Hc Hs) as Ho.
  assert (Hel : forall e, e ∈ Log.values self <-> stored self e) by by intros; apply elem_of_values.
  split_and!; [done|by apply values_nodup|by apply values_length| |].
  - eapply strongly_sorted_weaken; [|by apply values_sorted]. rewrite Hs. apply store_order_lt.
  - intros l1 e l2 p Hv Hp Hn.
    eapply values_causal; [done|done|exact Hv| |by apply Hel|done..].
    apply Hel. rewrite Hv. set_solver.
Qed.

Lemma values_linearise_witness :
  Entry.payload <$> Log.values Scenario.joined = ["one"; "uno"; "two"] /\
  length (Log.values Scenario.joined) = Log.len Scenario.joined.
Proof.
  split; [vm_compute; reflexivity|].
  apply (values_linearise Scenario.joined);
    [apply Scenario.joined_replica|apply Scenario.joined_replica|reflexivity].
Defined.

(** C36. Appending to a replica puts the new entry last: the result is a replica
    whose only head is the new entry, whose values are the old ones followed by
    it, and whose clock is ahead of every older entry. *)
Theorem append_extends hash_entry self data n_ptr self' entry :
  replica self -> Log.sort_fn self = store_order ->
  Log.append hash_entry self data n_ptr = Some (self', entry) ->
  Log.entries self !! Entry.hash entry = None -> Entry.hash entry ∉ Log.nexts self ->
  in_u64 (Log.max_time (LamportClock.time (Log.clock self)) (Log.heads self) + 1) ->
  replica self' /\ Log.heads self' = [entry] /\
  Log.values self' = Log.values self ++ [entry] /\ Entry.payload entry = data /\
  (forall h, h ∈ Log.heads self -> Entry.hash h ∈ Entry.next entry) /\
  (forall x, stored self x -> (Entry.time x < Entry.time entry)%N).
Proof.
  intros HR Hs Ha Hf Hfn Hb. pose proof (append_replica _ _ _ _ _ _ HR Ha Hf Hfn Hb) as HR'.
  pose proof (append_fields _ _ _ _ _ _ Ha) as (_&_&Hh&_&Hn&_&_&_&_&Hp&Hsf).
  split_and!; [done..| |done| |].
  - eapply append_values; try done; [apply HR|apply HR|by apply replica_ordered|].
    apply replica_ordered; [done|congruence].
  - intros h Hh'. rewrite Hn. apply list_elem_of_fmap. exists h. split; [done|].
    eapply append_refs_heads; [apply HR|done].
  - intros x Hx. eapply append_time_gt; [apply HR|apply HR|done|done|done].
Qed.

Lemma append_extends_witness :
  Log.values Scenario.carol1 =
    Log.values Scenario.joined ++ [(Scenario.write Scenario.joined "tres").2] /\
  Log.heads Scenario.carol1 = [(Scenario.write Scenario.joined "tres").2].
Proof.
  eapply proj2 with (A := replica Scenario.carol1).
  edestruct (append_extends Scenario.hash_entry Scenario.joined "tres" None Scenario.carol1
    (Scenario.write Scenario.joined "tres").2) as (HR & Hh & Hv & _);
    [apply Scenario.joined_replica|reflexivity|reflexivity|vm_compute; reflexivity|..].
  - apply (bool_decide_unpack _). vm_compute. exact I.
  - vm_compute. reflexivity.
  - exact (conj HR (conj Hv Hh)).
Defined.

(** Joining with a size limit keeps the newest entries: the result lists the
    last [n] values of the unlimited join and counts at most [n] entries. *)
Theorem join_size_keeps_newest A B n T J :
  replica A -> replica B -> compatible A B -> Log.sort_fn A = store_order ->
  Log.join A B (Some n) = Some T -> Log.join A B None = Some J ->
  Log.values T = drop (Log.len J - n) (Log.values J) /\ Log.len T = Nat.min n (Log.len J).
Proof.
  intros HA HB HAB Hs HT HJ. pose proof (join_replica _ _ _ HA HB HAB HJ) as HR.
  destruct (join_fields _ _ _ _ HJ) as [_ HsJ].
  destruct (join_None_eq _ _ _ HJ) as [Hid HJeq]. set (M := Log.merge_items A B) in *.
  assert (HM : wf M /\ causal_log M /\ ordered M).
  { rewrite HJeq in HR, HsJ. pose proof (replica_ordered _ HR) as [Ht Hp]; [congruence|].
    split_and!; [|apply HR|split; [exact Ht|exact Hp]].
    destruct (replica_wf _ HR) as [H1 H2 H3 H4 H5]. by split. }
  destruct HM as (Hwf & Hc & Ho).
  unfold Log.join in HT. rewrite decide_False in HT by (intros Hn; by apply Hn).
  injection HT as <-. rewrite HJeq. split.
  - rewrite !values_set_clock. by apply (truncate_values M n).
  - by apply (truncate_len M n).
Qed.

Lemma join_size_keeps_newest_witness :
  exists T, Log.join Scenario.alice2 Scenario.bob1 (Some 2) = Some T /\
    Log.values T = drop (Log.len Scenario.joined - 2) (Log.values Scenario.joined) /\
    Entry.payload <$> Log.values T = ["uno"; "two"].
Proof.
  eexists. split; [reflexivity|]. split; [|vm_compute; reflexivity].
  eapply (join_size_keeps_newest Scenario.alice2 Scenario.bob1 2);
    [apply Scenario.alice2_replica|apply Scenario.bob1_replica|apply Scenario.alice2_bob1|
     reflexivity..].
Defined.

(** C2. The order in which entries are delivered does not matter: adding the
    same entries in any order gives the same values. *)
Theorem delivery_order_irrelevant self es1 es2 :
  wf self -> es1 ≡ₚ es2 -> Entry.coherent (fun e => e ∈ es1 \/ stored self e) ->
  Log.sort_fn self = store_order ->
  Log.values (add_entries self es1) = Log.values (add_entries self es2).
Proof.
  intros Hwf Hp Hcoh Hs.
  apply values_same; [by apply add_entries_delivery_order|by rewrite !add_entries_sort_fn|
    by apply add_entries_wf..|].
  rewrite add_entries_sort_fn, Hs. apply Entry.no_zeroes_total, default_sort_fn_total;
    apply stored_coherent.
Qed.

Lemma delivery_order_irrelevant_witness :
  let es := Log.values Scenario.joined in
  Log.values (add_entries (Scenario.start Scenario.bob) (reverse es)) =
  Log.values (add_entries (Scenario.start Scenario.bob) es) /\ length es = 3.
Proof.
  split; [|vm_compute; reflexivity].
  apply (delivery_order_irrelevant (Scenario.start Scenario.bob) (reverse _) _);
    [apply Scenario.start_replica|apply reverse_Permutation| |reflexivity].
  intros x y Hx Hy. apply (stored_coherent Scenario.joined).
  - destruct Hx as [Hx|Hx]; [|discriminate Hx]. rewrite elem_of_reverse in Hx.
    eapply elem_of_values; [apply Scenario.joined_replica|apply Scenario.joined_replica|exact Hx].
  - destruct Hy as [Hy|Hy]; [|discriminate Hy]. rewrite elem_of_reverse in Hy.
    eapply elem_of_values; [apply Scenario.joined_replica|apply Scenario.joined_replica|exact Hy].
Defined.

(** Traversal terminates on every log, well formed or not: the fuel, one
    step per root and per stored entry, is never exhausted.  A bounded traversal
    is the prefix of the unbounded one. *)
Theorem traverse_terminates self roots amount end_hash :
  Log.traverse_loop (Log.traverse_fuel self roots) self (Log.resort self (Log.dedup roots)) ∅ 0
    amount end_hash = Some (Log.traverse self roots amount end_hash) /\
  (forall k, Log.traverse self roots (Some k) None =
             take k (Log.traverse self roots None None)).
Proof. split; [apply traverse_eq|intros k; apply traverse_take]. Qed.

(** The difference of two replicas is exactly the set of entries the other
    one lacks; the computation terminates within its fuel. *)
Theorem diff_is_difference A B h e :
  replica A -> replica B -> compatible A B -> Log.id A = Log.id B ->
  (Log.diff B A !! h = Some e <-> Log.entries B !! h = Some e /\ Log.entries A !! h = None) /\
  Log.diff_loop (Log.diff_fuel B) B A (Entry.hash <$> Log.heads B) ∅ ∅ = Some (Log.diff B A).
Proof.
  intros HA HB HAB Hid. split.
  - assert (Hids : forall x, stored B x -> Entry.id x = Log.id A).
    { intros x Hx. rewrite Hid. by apply (replica_ids _ HB). }
    apply (diff_exact A B); try done; [apply HB|apply HB|apply HA].
  - apply diff_eq.
Qed.

Lemma diff_is_difference_witness :
  (Log.diff Scenario.bob1 Scenario.alice2 !! "Buno" = Some (Scenario.write (Scenario.start Scenario.bob) "uno").2
   <-> Log.entries Scenario.bob1 !! "Buno" = Some (Scenario.write (Scenario.start Scenario.bob) "uno").2 /\
       Log.entries Scenario.alice2 !! "Buno" = None) /\
  bool_decide (is_Some (Log.diff Scenario.bob1 Scenario.alice2 !! "Buno")) = true.
Proof.
  split; [|vm_compute; reflexivity].
  apply (diff_is_difference Scenario.alice2 Scenario.bob1);
    [apply Scenario.alice2_replica|apply Scenario.bob1_replica|apply Scenario.alice2_bob1|
     reflexivity].
Defined.

(** The comparison of the stores is a total order on any set of entries that
    hashes identify, and so is the hash-breaking comparison of the entry module. *)
Theorem store_order_total D :
  Entry.coherent D ->
  TotalOn store_order D /\ TotalOn (Entry.no_zeroes Entry.sort_by_entry_hash) D.
Proof.
  intros HD. split; apply Entry.no_zeroes_total; try done.
  - by apply default_sort_fn_total.
  - by apply Entry.sort_by_entry_hash_total.
Qed.

Lemma store_order_total_witness :
  TotalOn store_order (stored Scenario.joined).
Proof. apply (store_order_total (stored Scenario.joined)), stored_coherent. Defined.

(** The log's default comparison is not an order on concurrent entries with
    equal clocks: each of two different such entries comes before the other, so
    the fall-back on hashes is never reached. *)
Theorem default_order_tie a b :
  Entry.clock a = Entry.clock b -> Entry.hash a <> Entry.hash b ->
  Entry.no_zeroes Entry.last_write_wins a b = Lt /\
  Entry.no_zeroes Entry.last_write_wins b a = Lt.
Proof.
  intros Hc Hh. unfold Entry.no_zeroes. rewrite !decide_False by congruence.
  by rewrite !Entry.last_write_wins_tie by congruence.
Qed.

Definition tied (h : Hash) : Entry.t :=
  Entry.set_hash (Entry.new Scenario.alice "L" "data" [] None) h.

Lemma default_order_tie_witness :
  Entry.no_zeroes Entry.last_write_wins (tied "x") (tied "y") = Lt /\
  Entry.no_zeroes Entry.last_write_wins (tied "y") (tied "x") = Lt.
Proof. apply (default_order_tie (tied "x") (tied "y")); [reflexivity|discriminate]. Defined.

Lemma children_chain_linked fuel e entries l :
  Entry.children_chain fuel e entries = Some l ->
  forall i p c, (e :: l) !! i = Some p -> l !! i = Some c ->
    c ∈ entries /\ Entry.hash p ∈ Entry.next c.
Proof.
  revert e l. induction fuel as [|fuel IH]; intros e l; simpl;
    (destruct (List.find _ entries) as [p|] eqn:Hf; [|by intros [= <-] [] ?]).
  - done.
  - destruct (Entry.children_chain fuel p entries) as [l'|] eqn:Hl; [|done]. intros [= <-].
    apply find_some in Hf as [Hin%list_elem_of_In Hpar%Entry.is_parent_spec].
    intros [|i] x c Hx Hc; simplify_eq/=; [done|]. by eapply IH.
Qed.

(** Among causally ordered entries the search for descendants terminates, and
    what it returns is one chain of descendants: a permutation of a list whose
    members each name their predecessor as a parent. *)
Theorem find_children_chain entry entries :
  Entry.causal (fun x => x ∈ entry :: entries) ->
  exists chain,
    Entry.find_children (length entries) entry entries =
      Some (sort_by (fun a b => N.compare (Entry.time a) (Entry.time b)) chain) /\
    forall i p c, (entry :: chain) !! i = Some p -> chain !! i = Some c ->
      c ∈ entries /\ Entry.hash p ∈ Entry.next c.
Proof.
  intros Hc. destruct (Entry.children_chain_measure entries (length entries) (length entries) entry)
    as [chain Hch]; [done|apply length_filter|done|].
  exists chain. unfold Entry.find_children. rewrite Hch. split; [done|].
  by eapply children_chain_linked.
Qed.

(** A root with two children: only the first one is followed. *)
Definition family (h : Hash) (parents : list Hash) (at_time : N) : Entry.t :=
  Entry.set_hash
    (Entry.new Scenario.alice "L" "data" (Entry.OfHash <$> parents)
       (Some (LamportClock.mk "A" at_time))) h.

Lemma find_children_chain_witness :
  (exists chain,
    Entry.find_children 2 (family "r" [] 1) [family "c1" ["r"] 2; family "c2" ["r"] 2] =
      Some (sort_by (fun a b => N.compare (Entry.time a) (Entry.time b)) chain) /\
    forall i p c, (family "r" [] 1 :: chain) !! i = Some p -> chain !! i = Some c ->
      c ∈ [family "c1" ["r"] 2; family "c2" ["r"] 2] /\ Entry.hash p ∈ Entry.next c) /\
  Entry.find_children 2 (family "r" [] 1) [family "c1" ["r"] 2; family "c2" ["r"] 2] =
    Some [family "c1" ["r"] 2].
Proof.
  split; [|vm_compute; reflexivity].
  apply (find_children_chain (family "r" [] 1) [family "c1" ["r"] 2; family "c2" ["r"] 2]).
  intros e p He Hp. repeat rewrite elem_of_cons in He. repeat rewrite elem_of_cons in Hp.
  destruct He as [->|[->|[->|He]]]; [| | |by apply not_elem_of_nil in He];
    (destruct Hp as [->|[->|[->|Hp]]]; [| | |by apply not_elem_of_nil in Hp]);
    cbn; repeat rewrite elem_of_cons; intros Hin; try lia; set_solver.
Defined.
