(* ===== verification/StoreProperties.v ===== *)
(** * Properties of the stores

    The theorems about src/stores: the index shows the log after every
    operation, what was written can be read back, also after a restart, and
    only verified entries are taken from peers. *)

From S2P Require Import Prelude LamportClock Entry Log LogTraverse LogCrdt LogWrite LogJoin.
From S2P Require Import StoreIndex EventLogStore BaseStore BaseStoreInv Codec Scenario.

(** ** Concrete stores *)

Module StoreScenario.
Definition op1 : Operation.t := Operation.new (Some "k") "PUT" (Some "v").
Definition op2 : Operation.t := Operation.new (Some "k") "DEL" None.

Definition open {I} `{StoreIndex I} (empty : I) (ident : Identity.t)
    : BaseStore.t I (gmap string string) :=
  BaseStore.new "L" ident (fun _ => empty) (Identity.pub_key ident) ∅ None None.

Definition put {I} `{StoreIndex I} (s : BaseStore.t I (gmap string string)) (o : Operation.t)
    : BaseStore.t I (gmap string string) * result StoreError Entry.t :=
  default (s, Err DecodeFailed) (BaseStore.add_operation Scenario.hash_entry s o).

Definition events0 : BaseStore.t EventIndex.t (gmap string string) := open EventIndex.new Scenario.alice.
Definition events1 := (put events0 op1).1.

Definition entry1 : Entry.t :=
  match (put events0 op1).2 with Ok e => e | Err _ => Entry.empty end.

(** The entries of the scenario. *)
Definition honest (e : Entry.t) : Prop := e = entry1.

Lemma honest_coherent : Entry.coherent honest.
Proof. intros x y -> ->. done. Qed.

Lemma scenario_causal : Entry.causal honest.
Proof. intros x y -> -> Hin. apply elem_of_nil in Hin. done. Qed.

Lemma put_eq {I} `{StoreIndex I} (s : BaseStore.t I (gmap string string)) o e :
  (put s o).2 = Ok e ->
  BaseStore.add_operation Scenario.hash_entry s o = Some ((put s o).1, Ok e).
Proof.
  unfold put. destruct (BaseStore.add_operation _ _ _) as [[s' r]|]; simpl; [|done]. by intros ->.
Qed.

Lemma events_ok : (put events0 op1).2 = Ok entry1.
Proof.
  unfold entry1. destruct (put events0 op1).2 as [e|] eqn:E; [done|].
  assert (is_ok (put events0 op1).2 = true) as Hok by (vm_compute; reflexivity).
  by rewrite E in Hok.
Qed.

Lemma events_write : step honest events0 events1.
Proof.
  apply (step_write _ _ Scenario.hash_entry op1 _ (Ok entry1)).
  - apply put_eq, events_ok.
  - intros data log e Hm Ha.
    destruct (add_operation_ok _ _ _ _ _ (put_eq _ _ _ events_ok)) as (d & Hm' & Ha' & _).
    rewrite Hm in Hm'. injection Hm' as <-. rewrite Ha in Ha'. by injection Ha' as _ ->.
  - vm_compute. reflexivity.
Qed.



Lemma events0_inv : store_inv honest events0.
Proof. by apply new_inv. Qed.
End StoreScenario.

(** ** Reachable stores *)

(** C3. After any sequence of writes, syncs, merges, loads and resets with honest
    entries, the log is well formed, it is ordered by the store's comparison, and
    the index shows exactly the values of the log. *)
Theorem reachable_store_consistent {I D} `{LogIndex I} `{Datastore D} `{PayloadFormat}
    `{EntryFormat} (U : Entry.t -> Prop) store_id ident builder pk c sf refs (self : BaseStore.t I D) :
  Entry.coherent U -> Entry.causal U -> reflects (builder pk) [] ->
  rtc (step U) (BaseStore.new store_id ident builder pk c sf refs) self ->
  wf (BaseStore.oplog self) /\
  Log.sort_fn (BaseStore.oplog self) = Entry.no_zeroes (BaseStore.sort_fn self) /\
  (forall e, e ∈ Log.values (BaseStore.oplog self) -> U e) /\
  (forall i, BaseStore.active_index self = Some i -> reflects i (Log.values (BaseStore.oplog self))).
Proof.
  intros HU HUc Hb Hs.
  assert (store_inv U self) as [[Hwf Hh Ho _] Hidx].
  { eapply steps_inv; [done|done| |exact Hs]. by apply new_inv. }
  split_and!; [done..| |done].
  intros e He. apply Hh, elem_of_values; [done|by eapply honest_causal|done].
Qed.

Lemma reachable_store_consistent_witness :
  wf (BaseStore.oplog StoreScenario.events1) /\
  length (Log.values (BaseStore.oplog StoreScenario.events1)) = 1.
Proof.
  split; [|vm_compute; reflexivity].
  apply (reachable_store_consistent StoreScenario.honest "L" Scenario.alice
           (fun _ => EventIndex.new) "A" ∅ None None);
    [apply StoreScenario.honest_coherent|apply StoreScenario.scenario_causal|reflexivity|].
  apply rtc_once, StoreScenario.events_write.
Defined.

(** C16. The index is transparent to queries: in any reachable event log store a
    query answered through the index returns what the same query over the log
    returns, whatever its options. *)
Theorem event_query_index_transparent {D} `{Datastore D} `{PayloadFormat} `{EntryFormat}
    (U : Entry.t -> Prop) store_id ident pk c sf refs (self : BaseStore.t EventIndex.t D) options :
  Entry.coherent U -> Entry.causal U ->
  rtc (step U) (BaseStore.new store_id ident (fun _ => EventIndex.new) pk c sf refs) self ->
  query (BaseStore.active_index self) (BaseStore.oplog self) options =
  query (I := EventIndex.t) None (BaseStore.oplog self) options.
Proof.
  intros HU HUc Hs. assert (store_inv U self) as [_ Hidx].
  { eapply steps_inv; [done|done| |exact Hs]. by apply new_inv. }
  unfold query. destruct (BaseStore.active_index self) as [i|] eqn:Hi; [|done].
  apply query_source_select. by apply Hidx.
Qed.

Lemma event_query_index_transparent_witness :
  query (BaseStore.active_index StoreScenario.events1) (BaseStore.oplog StoreScenario.events1) None =
  query (I := EventIndex.t) None (BaseStore.oplog StoreScenario.events1) None.
Proof.
  apply (event_query_index_transparent StoreScenario.honest "L" Scenario.alice "A" ∅ None None);
    [apply StoreScenario.honest_coherent|apply StoreScenario.scenario_causal|].
  apply rtc_once, StoreScenario.events_write.
Defined.



(** ** Writing and reading back *)

Section write.
Context {I D : Type} `{LogIndex I} `{Datastore D} `{PayloadFormat} `{EntryFormat}.
Context (U : Entry.t -> Prop) (HU : Entry.coherent U) (HUc : Entry.causal U).
Context (hash_entry : Entry.t -> option Hash) (self self' : BaseStore.t I D).
Context (op : Operation.t) (entry : Entry.t) (Hinv : log_inv U self).
Hypothesis Horder : BaseStore.sort_fn self = default_sort_fn.
Hypothesis Hadd : BaseStore.add_operation hash_entry self op = Some (self', Ok entry).
Hypothesis Hentry : U entry.
Hypothesis Hbound :
  in_u64 (Log.max_time (LamportClock.time (Log.clock (BaseStore.oplog self)))
            (Log.heads (BaseStore.oplog self)) + 1).

Lemma written_log_inv : log_inv U (BaseStore.set_oplog self (BaseStore.oplog self')).
Proof.
  destruct (add_operation_ok _ _ _ _ _ Hadd) as (data & _ & Ha & _).
  by eapply (write_log_inv U HU HUc hash_entry self).
Qed.

Lemma written_values :
  Log.values (BaseStore.oplog self') = Log.values (BaseStore.oplog self) ++ [entry].
Proof.
  destruct (add_operation_ok _ _ _ _ _ Hadd) as (data & _ & Ha & _).
  pose proof written_log_inv as [Hwf' Hh' Ho' _]. destruct Hinv as [Hwf Hh Ho _]. simpl in *.
  destruct (write_fresh U HU HUc _ _ _ _ _ Hinv Ha Hentry Hbound) as [Hf Hn].
  eapply append_values; try done.
  - by eapply honest_causal.
  - apply default_ordered; [done|by eapply honest_causal|congruence].
  - apply default_ordered; [done|by eapply honest_causal|congruence].
Qed.

Lemma written_parse `{!PayloadLaws} : parse_operation entry = Ok (Operation.set_entry op entry).
Proof.
  destruct (add_operation_ok _ _ _ _ _ Hadd) as (data & Hm & Ha & _).
  destruct (append_fields _ _ _ _ _ _ Ha) as (_&_&_&_&_&_&_&_&_&Hp&_).
  by eapply parse_written.
Qed.
End write.

Lemma position_last h (es : list Entry.t) e :
  Entry.hash e = h -> h ∉ Entry.hash <$> es -> position h (es ++ [e]) = Some (length es).
Proof.
  intros He. induction es as [|x es IH]; simpl; [by rewrite decide_True|].
  intros [Hx Hn]%not_elem_of_cons. rewrite decide_False by done. by rewrite IH.
Qed.

(** C37. What was written is read back: after a successful write the new entry is
    the last value of the log, and looking it up by its hash, through the index,
    returns the operation that was written. *)
Theorem event_read_your_writes {D} `{Datastore D} `{PayloadLaws} `{EntryFormat}
    (U : Entry.t -> Prop) hash_entry (self self' : BaseStore.t EventIndex.t D) op entry :
  Entry.coherent U -> Entry.causal U -> store_inv U self ->
  BaseStore.sort_fn self = default_sort_fn ->
  BaseStore.add_operation hash_entry self op = Some (self', Ok entry) -> U entry ->
  in_u64 (Log.max_time (LamportClock.time (Log.clock (BaseStore.oplog self)))
            (Log.heads (BaseStore.oplog self)) + 1) ->
  Log.values (BaseStore.oplog self') = Log.values (BaseStore.oplog self) ++ [entry] /\
  get (BaseStore.active_index self') (BaseStore.oplog self') (Entry.hash entry) =
    Ok (Operation.set_entry op entry).
Proof.
  intros HU HUc [Hlog Hidx] Ho Hadd He Hb.
  pose proof (written_values U HU HUc _ _ _ _ _ Hlog Ho Hadd He Hb) as Hv. split; [done|].
  pose proof (written_log_inv U HU HUc _ _ _ _ _ Hlog Hadd He Hb) as Hlog'.
  unfold get. set (opts := StreamOptions.mk _ _ _ _ _).
  assert (query (BaseStore.active_index self') (BaseStore.oplog self') (Some opts) = [entry]) as ->.
  2:{ by apply (written_parse hash_entry self self'). }
  transitivity (query_select opts (Log.values (BaseStore.oplog self'))).
  { unfold query. simpl. destruct (add_operation_ok _ _ _ _ _ Hadd) as (d & _ & _ & ->).
    destruct (BaseStore.active_index self) as [i|]; [|done]. by apply query_source_select. }
  pose proof (values_nodup _ (inv_wf _ _ Hlog')) as Hnd. simpl in Hnd. rewrite Hv in Hnd |- *.
  rewrite fmap_app, NoDup_app in Hnd. destruct Hnd as (_ & Hnd & _).
  unfold query_select, query_amount, read. simpl. rewrite position_last by (done || set_solver).
  by rewrite drop_app_length.
Qed.

Lemma event_read_your_writes_witness :
  get (BaseStore.active_index StoreScenario.events1) (BaseStore.oplog StoreScenario.events1)
      (Entry.hash StoreScenario.entry1) =
    Ok (Operation.set_entry StoreScenario.op1 StoreScenario.entry1).
Proof.
  apply (event_read_your_writes StoreScenario.honest Scenario.hash_entry StoreScenario.events0);
    [apply StoreScenario.honest_coherent|apply StoreScenario.scenario_causal|
     apply StoreScenario.events0_inv|reflexivity|
     apply StoreScenario.put_eq, StoreScenario.events_ok|reflexivity|vm_compute; reflexivity].
Defined.

(** C11. Writes survive a restart: a new store opened on the cache of a store
    whose write succeeded loads without an error and lists the same values, the
    write included. *)
Theorem write_survives_restart {I D} `{LogIndex I} `{DatastoreLaws D} `{PayloadFormat}
    `{EntryFormat} (U : Entry.t -> Prop) hash_entry (self self' : BaseStore.t I D) op entry
    ident builder pk refs (fresh := BaseStore.new (BaseStore.id self) ident builder pk
                                      (BaseStore.cache self') None refs) :
  Entry.coherent U -> Entry.causal U -> format_round_trip -> store_inv U self ->
  BaseStore.sort_fn self = default_sort_fn -> reflects (builder pk) [] ->
  ds_get (BaseStore.cache self) "_remoteHeads" = Ok None ->
  BaseStore.add_operation hash_entry self op = Some (self', Ok entry) -> U entry ->
  in_u64 (Log.max_time (LamportClock.time (Log.clock (BaseStore.oplog self)))
            (Log.heads (BaseStore.oplog self)) + 1) ->
  (BaseStore.load fresh).2 = Ok tt /\
  Log.values (BaseStore.oplog (BaseStore.load fresh).1) =
    Log.values (BaseStore.oplog self) ++ [entry].
Proof.
  intros HU HUc Hfmt [Hlog _] Ho Hb Hrem Hadd He Hbd.
  pose proof (written_values U HU HUc _ _ _ _ _ Hlog Ho Hadd He Hbd) as Hv.
  pose proof (written_log_inv U HU HUc _ _ _ _ _ Hlog Hadd He Hbd) as [Hwf' Hh' Ho' _]. simpl in *.
  destruct (add_operation_cached _ _ _ _ _ Hadd) as ((hb & Hhb & Hgh) & (ab & Hab & Hga) & Hgr).
  assert (Hfresh : store_inv U fresh) by by apply new_inv.
  destruct (load_restores U HU HUc Hfmt (BaseStore.oplog self') fresh ab
              (Log.get_heads (BaseStore.oplog self'))) as (Hok & Hen & Hwf & Hsf); try done.
  - unfold BaseStore.load_heads_from_cache_key. simpl.
    rewrite Hgh, (Hfmt _ _ Hhb). simpl. by rewrite Hgr, Hrem.
  - rewrite Hv. by destruct (Log.values (BaseStore.oplog self)).
  - apply Hfresh.
  - split; [done|]. rewrite <- Hv. apply values_same; [done|rewrite Hsf, Ho', Ho; done|done..|].
    rewrite Hsf. simpl. apply Entry.no_zeroes_total, default_sort_fn_total; apply stored_coherent.
Qed.

Lemma write_survives_restart_witness :
  let fresh := BaseStore.new "L" Scenario.bob (fun _ => EventIndex.new) "B"
                 (BaseStore.cache StoreScenario.events1) None None in
  (BaseStore.load fresh).2 = Ok tt /\
  Log.values (BaseStore.oplog (BaseStore.load fresh).1) = [StoreScenario.entry1].
Proof.
  apply (write_survives_restart StoreScenario.honest Scenario.hash_entry StoreScenario.events0
           StoreScenario.events1 StoreScenario.op1 StoreScenario.entry1);
    [apply StoreScenario.honest_coherent|apply StoreScenario.scenario_causal|
     apply Codec.entry_format_round_trip|apply StoreScenario.events0_inv|reflexivity|reflexivity|
     reflexivity|apply StoreScenario.put_eq, StoreScenario.events_ok|reflexivity|
     vm_compute; reflexivity].
Defined.

(** ** Entries from peers *)

Lemma add_entries_origin log es e :
  stored (add_entries log es) e -> stored log e \/ e ∈ es.
Proof.
  unfold add_entries. revert log. induction es as [|x es IH]; intros log; simpl; [by left|].
  intros [He|He]%IH; [|right; by right].
  unfold stored in He. rewrite add_entry_entries in He.
  destruct (Log.has log (Entry.hash x)); [by left|].
  apply lookup_insert_Some in He as [[_ ->]|[_ ?]]; [right; by left|by left].
Qed.

Lemma add_entries_has log es h :
  Log.has (add_entries log es) h = true <-> Log.has log h = true \/ h ∈ Entry.hash <$> es.
Proof.
  unfold add_entries. revert log. induction es as [|x es IH]; intros log; simpl; [set_solver|].
  rewrite IH. unfold Log.has at 1. rewrite bool_decide_eq_true, add_entry_entries, elem_of_cons.
  destruct (Log.has log (Entry.hash x)) eqn:Hx.
  - unfold Log.has in *. rewrite bool_decide_eq_true in *. naive_solver.
  - unfold Log.has in *. rewrite bool_decide_eq_true in *. rewrite lookup_insert.
    case_decide; naive_solver.
Qed.

Lemma sync_oplog {I D} `{StoreIndex I} `{Datastore D} `{PayloadFormat} `{EntryFormat}
    can_append (self : BaseStore.t I D) heads :
  BaseStore.oplog (BaseStore.sync can_append self heads) =
  add_entries (BaseStore.oplog self) (List.filter (BaseStore.verify_head can_append self) heads).
Proof.
  unfold BaseStore.sync. set (vs := List.filter _ heads).
  rewrite (surjective_pairing (BaseStore.add_counted _ vs)), add_counted_log.
  unfold BaseStore.update_index. simpl.
  repeat (case_match; simplify_eq/=); done.
Qed.

(** Synchronising with peers takes exactly the heads that pass the checks: an
    entry of the log afterwards was there before or is a received head with a
    hash, a payload and the access controller's permission, nothing is lost, and
    every head that passes the checks is then known. *)
Theorem sync_takes_verified {I D} `{StoreIndex I} `{Datastore D} `{PayloadFormat} `{EntryFormat}
    can_append (self : BaseStore.t I D) heads (log' := BaseStore.oplog (BaseStore.sync can_append self heads)) :
  (forall e, stored log' e ->
     stored (BaseStore.oplog self) e \/
     (e ∈ heads /\ can_append e = true /\ Entry.hash e <> zero_hash /\ Entry.payload e <> "")) /\
  (forall h, Log.has log' h = true <->
     Log.has (BaseStore.oplog self) h = true \/
     exists e, e ∈ heads /\ Entry.hash e = h /\ BaseStore.verify_head can_append self e = true).
Proof.
  unfold log'. rewrite sync_oplog. split.
  - intros e [He|He]%add_entries_origin; [by left|right].
    apply list_elem_of_In, filter_In in He as [Hin Hv]. unfold BaseStore.verify_head in Hv.
    rewrite !andb_true_iff, !negb_true_iff, orb_false_iff, !bool_decide_eq_false in Hv.
    split; [by apply list_elem_of_In|]. tauto.
  - intros h. rewrite add_entries_has, list_elem_of_fmap.
    setoid_rewrite list_elem_of_In. setoid_rewrite filter_In. naive_solver.
Qed.

(** An entry of another log is not part of the difference. *)
Lemma foreign_diff log other e :
  Log.heads other = [e] -> Log.entries other !! Entry.hash e = Some e ->
  Entry.id e <> Log.id log -> Log.diff other log = ∅.
Proof.
  intros Hh He Hid. unfold Log.diff, Log.diff_fuel. rewrite Hh. simpl. unfold Log.get.
  rewrite He. destruct (Log.entries log !! Entry.hash e), (size (Log.all_nexts other)); try done;
    by rewrite decide_False by done.
Qed.

Lemma foreign_head log other e :
  wf log -> Log.heads other = [e] -> Log.diff other log = ∅ ->
  Log.entries log !! Entry.hash e = None -> Entry.hash e ∉ Log.nexts log ->
  Entry.hash e ∉ Entry.next e -> e ∈ Log.heads (Log.merge_items log other).
Proof.
  intros Hwf Hh Hd Hnew Hnn Hself. unfold Log.merge_items. simpl. rewrite Hd, Hh. simpl.
  assert (Hst : forall x, x ∈ Log.heads log -> stored log x) by by apply heads_stored.
  apply (elem_of_dedup (fun x => x ∈ Log.heads log ++ [e])).
  - intros x y [Hx%Hst| ->%list_elem_of_singleton]%elem_of_app
      [Hy%Hst| ->%list_elem_of_singleton]%elem_of_app Hxy; [|unfold stored in *; congruence..|done].
    by eapply stored_coherent.
  - intros x [_ [_ Hx]%list_elem_of_filter]%list_elem_of_filter.
    by apply elem_of_find_heads in Hx as [].
  - rewrite !list_elem_of_filter, elem_of_find_heads. change (snd <$> map_to_list ∅) with ([] : list Entry.t).
    split_and!; [done|set_solver|set_solver|].
    intros x [Hx%Hst| ->%list_elem_of_singleton]%elem_of_app; [|done].
    intros Hin. apply Hnn, (wf_nexts _ Hwf). eauto.
Qed.

(** Merging an entry that belongs to another log is reported as a success but
    leaves a dangling head: [load_more_from] counts the entry as added and makes
    it a head, although the log does not store it. *)
Theorem load_more_foreign_entry {I D} `{StoreIndex I} `{Datastore D}
    (self : BaseStore.t I D) (e : Entry.t) (r := BaseStore.load_more_from self [e]) :
  wf (BaseStore.oplog self) -> Log.id (BaseStore.oplog self) = BaseStore.id self ->
  Entry.id e <> BaseStore.id self ->
  Log.entries (BaseStore.oplog self) !! Entry.hash e = None ->
  Entry.hash e ∉ Log.nexts (BaseStore.oplog self) -> Entry.hash e ∉ Entry.next e ->
  r.2 = 1 /\ e ∈ Log.heads (BaseStore.oplog r.1) /\
  Log.entries (BaseStore.oplog r.1) = Log.entries (BaseStore.oplog self).
Proof.
  intros Hwf Hid Hfor Hnew Hnn Hself. set (log := BaseStore.oplog self) in *.
  set (temp := BaseStore.create_temporary_log_with_entry self e).
  assert (Hd : Log.diff temp log = ∅).
  { apply (foreign_diff _ _ e); [done| |congruence]. by apply temp_stored. }
  assert (Hlog : BaseStore.oplog r.1 = Log.set_clock (Log.merge_items log temp)
            (Log.clock_from_heads (Log.clock log) (Log.heads (Log.merge_items log temp))) /\ r.2 = 1).
  { unfold r, BaseStore.load_more_from. cbn [foldl]. unfold BaseStore.join_entry. fold log temp.
    rewrite (proj2 (has_false _ _)) by done. unfold Log.join.
    rewrite decide_False by (intros Hn; apply Hn, Hid). simpl.
    unfold BaseStore.update_index. simpl. by destruct (BaseStore.active_index self). }
  destruct Hlog as [-> ->]. split_and!; [done| |].
  - apply (foreign_head log temp e); done.
  - change (Log.diff temp log ∪ Log.entries log = Log.entries log). rewrite Hd.
    apply map_empty_union.
Qed.

Definition foreign_entry : Entry.t :=
  Entry.set_hash (Entry.new Scenario.bob "other" "data" [] None) "f".

Lemma load_more_foreign_entry_witness :
  let r := BaseStore.load_more_from StoreScenario.events1 [foreign_entry] in
  r.2 = 1 /\ foreign_entry ∈ Log.heads (BaseStore.oplog r.1) /\
  Log.entries (BaseStore.oplog r.1) = Log.entries (BaseStore.oplog StoreScenario.events1).
Proof.
  apply (load_more_foreign_entry StoreScenario.events1 foreign_entry).
  - apply (step_inv StoreScenario.honest StoreScenario.honest_coherent StoreScenario.scenario_causal
             StoreScenario.events0); [apply StoreScenario.events0_inv|apply StoreScenario.events_write].
  - vm_compute. reflexivity.
  - discriminate.
  - vm_compute. reflexivity.
  - apply (bool_decide_unpack _). vm_compute. exact I.
  - apply not_elem_of_nil.
Defined.

(** ** Indexes *)

(** The event index addresses the log by position: the key of every position
    in range reads as the payload stored there, and the listed keys are exactly
    the keys it contains in their decimal form. *)
Theorem event_index_positions (i : EventIndex.t) n :
  in_u64 (N.of_nat (length (EventIndex.entries_cache i))) -> in_u64 (N.of_nat n) ->
  get_bytes i (usize_to_string n) = Entry.payload <$> (EventIndex.entries_cache i !! n) /\
  (contains_key i (usize_to_string n) = true <-> usize_to_string n ∈ index_keys i).
Proof.
  intros Hlen Hn. simpl. unfold EventIndex.get_bytes, EventIndex.contains_key, EventIndex.keys.
  rewrite parse_usize_to_string by done. split; [done|].
  rewrite bool_decide_eq_true, list_elem_of_fmap. setoid_rewrite elem_of_seq. split.
  - intros Hlt. exists n. split; [done|lia].
  - intros (m & Hm & _ & Hlt). assert (Some n = Some m) as [= ->]; [|done].
    rewrite <- (parse_usize_to_string n), <- (parse_usize_to_string m); [by rewrite Hm| |done].
    unfold in_u64 in *. lia.
Qed.

Lemma event_index_positions_witness :
  get_bytes (EventIndex.mk (Log.values Scenario.joined)) (usize_to_string 1) = Some "uno".
Proof.
  edestruct (event_index_positions (EventIndex.mk (Log.values Scenario.joined)) 1) as [-> _];
    vm_compute; reflexivity.
Defined.

(** An operation that both map indexes understand alike. *)
Definition simple_op `{PayloadFormat} (e : Entry.t) : Prop :=
  match parse_operation e with
  | Err _ => True
  | Ok o => (exists k, Operation.key o = Some k /\ k <> "") /\
            ((Operation.op o = "PUT" /\ Operation.value o <> "") \/ Operation.op o = "DEL")
  end.

Lemma simple_decisions `{PayloadFormat} e k :
  simple_op e ->
  match base_decision e k, document_effect e k with
  | Some f, Some x => forall old, f old = x
  | None, None => True
  | _, _ => False
  end.
Proof.
  unfold simple_op, base_decision, document_effect. destruct (parse_operation e) as [o|]; [|done].
  intros [(k' & Hk & Hne) [[Hop Hv]|Hop]]; rewrite Hk, Hop; simpl; repeat case_decide; naive_solver.
Qed.

Lemma simple_last_decision `{PayloadFormat} es k :
  Forall simple_op es ->
  match last_decision base_decision es k, last_decision document_effect es k with
  | Some f, Some x => forall old, f old = x
  | None, None => True
  | _, _ => False
  end.
Proof.
  induction 1 as [|e es He _ IH]; simpl; [done|].
  pose proof (simple_decisions e k He) as Hd.
  by destruct (last_decision base_decision es k), (last_decision document_effect es k).
Qed.

(** The two map indexes agree: on a log of non-empty puts and deletes, the
    newest-first scan of the base index computes the same map as the oldest-first
    replay of the document index, whatever the index held before. *)
Theorem base_scan_is_replay `{PayloadFormat} (es : list Entry.t) id (m : gmap string string) log :
  Forall simple_op es ->
  BaseIndex.index (update_index (BaseIndex.mk id m) log es) =
  DocumentIndex.index (update_index (DocumentIndex.mk m) log es).
Proof.
  intros Hs. simpl. unfold BaseIndex.update_index. simpl. apply map_eq. intros k.
  rewrite base_scan_lookup, document_replay_lookup.
  rewrite decide_False by set_solver. pose proof (simple_last_decision es k Hs) as Hd.
  destruct (last_decision base_decision es k), (last_decision document_effect es k); naive_solver.
Qed.

Lemma base_scan_is_replay_witness :
  BaseIndex.index (update_index (BaseIndex.mk "A" ∅) (Scenario.start Scenario.alice)
                     [StoreScenario.entry1]) =
  DocumentIndex.index (update_index (DocumentIndex.mk ∅) (Scenario.start Scenario.alice)
                     [StoreScenario.entry1]).
Proof.
  apply (base_scan_is_replay [StoreScenario.entry1] "A" ∅ (Scenario.start Scenario.alice)).
  constructor; [|constructor]. unfold simple_op.
  change (parse_operation StoreScenario.entry1) with
    (Ok (Operation.set_entry StoreScenario.op1 StoreScenario.entry1) : result StoreError _).
  split; [exists "k"; split; [reflexivity|discriminate]|left; split; [reflexivity|discriminate]].
Defined.
