(* ===== verification/OrdMap.v ===== *)
(** * Ordered maps

    [BTreeMap<K, V>] for a key type with a total order, as association lists in
    ascending key order. *)

From S2P Require Import Prelude.

(** [Ord] for a key type. *)
Class Ordered (K : Type) := {
  ord_compare : K -> K -> comparison;
  ord_total : Total ord_compare;
  #[global] ord_eq_dec :: EqDecision K
}.

Module OrdMap.
Section ops.
Context {K V : Type} `{!Ordered K}.
Implicit Types (m : list (K * V)) (k : K) (v : V).

Fixpoint get m k : option V :=
  match m with
  | [] => None
  | (k', v) :: m => if decide (k = k') then Some v else get m k
  end.

Fixpoint insert m k v : list (K * V) :=
  match m with
  | [] => [(k, v)]
  | (k', v') :: m' =>
      match ord_compare k k' with
      | Lt => (k, v) :: m
      | Eq => (k, v) :: m'
      | Gt => (k', v') :: insert m' k v
      end
  end.

Definition remove m k : list (K * V) := filter (fun kv => kv.1 <> k) m.

Definition contains_key m k : bool := bool_decide (is_Some (get m k)).

(** [entry(k).or_insert(v)] *)
Definition or_insert m k v : list (K * V) :=
  match get m k with Some _ => m | None => insert m k v end.

(** [if let Some(x) = m.get_mut(k) { *x = f(x) }] *)
Definition alter m k (f : V -> V) : list (K * V) :=
  (fun kv => if decide (kv.1 = k) then (kv.1, f kv.2) else kv) <$> m.

(** Keys in strictly ascending order. *)
Definition sorted m : Prop := StronglySorted (fun a b => ord_compare a b = Lt) m.*1.

Lemma ord_compare_eq k k' : ord_compare k k' = Eq <-> k = k'.
Proof.
  split; [by apply (total_eq _ _ ord_total)|]. intros ->. by apply (total_refl _ _ _ ord_total).
Qed.

Lemma ord_get_insert m k v k' :
  get (insert m k v) k' = if decide (k' = k) then Some v else get m k'.
Proof.
  induction m as [|[a w] m IH]; simpl; [done|].
  destruct (ord_compare k a) eqn:E; simpl; [|done|].
  - apply ord_compare_eq in E as ->. by case_decide.
  - rewrite IH. repeat case_decide; try done. subst. by rewrite (proj2 (ord_compare_eq a a)) in E.
Qed.

Lemma ord_get_remove m k k' : get (remove m k) k' = if decide (k' = k) then None else get m k'.
Proof.
  unfold remove. induction m as [|[a w] m IH]; simpl; [by case_decide|].
  rewrite filter_cons. simpl. destruct (decide (a = k)) as [->|Hne].
  - rewrite decide_False by tauto. rewrite IH. by repeat case_decide.
  - rewrite decide_True by done. simpl. rewrite IH. repeat case_decide; congruence.
Qed.

Lemma get_alter m k f k' : get (alter m k f) k' = if decide (k' = k) then f <$> get m k' else get m k'.
Proof.
  unfold alter. induction m as [|[a w] m IH]; [simpl; by case_decide|]. rewrite fmap_cons. cbn [fst snd].
  destruct (decide (a = k)) as [->|Hne]; cbn [get]; rewrite IH; repeat case_decide; simplify_eq; done.
Qed.

Lemma ord_get_or_insert m k v k' :
  get (or_insert m k v) k' =
  if decide (k' = k) then Some (default v (get m k)) else get m k'.
Proof.
  unfold or_insert. destruct (get m k) eqn:E; [case_decide; by subst|].
  rewrite ord_get_insert. by case_decide.
Qed.

Lemma ord_get_Some_elem m k v : get m k = Some v -> (k, v) ∈ m.
Proof.
  induction m as [|[a w] m IH]; simpl; [done|]. case_decide; [|by right; auto].
  intros [= ->]. subst. left.
Qed.

Lemma ord_sorted_cons a w m : sorted ((a, w) :: m) <-> sorted m /\ forall k, k ∈ m.*1 -> ord_compare a k = Lt.
Proof.
  unfold sorted. csimpl. split.
  - intros [? Hf]%StronglySorted_inv. split; [done|]. by apply Forall_forall.
  - intros [? Hf]. constructor; [done|]. by apply Forall_forall.
Qed.

Lemma ord_elem_get m k v : sorted m -> (k, v) ∈ m <-> get m k = Some v.
Proof.
  intros Hs. split; [|apply ord_get_Some_elem]. induction m as [|[a w] m IH]; [by intros ?%not_elem_of_nil|].
  apply ord_sorted_cons in Hs as [Hs Ha]. intros [[= -> ->]|Hin]%elem_of_cons; simpl; [by rewrite decide_True|].
  rewrite decide_False; [by apply IH|]. intros ->.
  assert (ord_compare a a = Lt) as Hlt by (apply Ha, list_elem_of_fmap; by exists (a, v)).
  by rewrite (proj2 (ord_compare_eq a a)) in Hlt.
Qed.

Lemma ord_keys_NoDup m : sorted m -> NoDup m.*1.
Proof.
  induction m as [|[a w] m IH]; [constructor|]. intros [Hs Ha]%ord_sorted_cons. csimpl. constructor; [|by apply IH].
  intros Hin. specialize (Ha a Hin). by rewrite (proj2 (ord_compare_eq a a)) in Ha.
Qed.

Lemma ord_insert_keys m k v k' : k' ∈ (insert m k v).*1 <-> k' = k \/ k' ∈ m.*1.
Proof.
  induction m as [|[a w] m IH]; simpl; [set_solver|].
  destruct (ord_compare k a) eqn:E; simpl; [apply ord_compare_eq in E as ->|..]; set_solver.
Qed.

Lemma ord_insert_sorted m k v : sorted m -> sorted (insert m k v).
Proof.
  induction m as [|[a w] m IH]; simpl; intros Hs; [by repeat constructor|].
  pose proof (proj1 (ord_sorted_cons _ _ _) Hs) as [Hs' Ha].
  destruct (ord_compare k a) eqn:E; apply ord_sorted_cons.
  - apply ord_compare_eq in E as ->. done.
  - split; [done|]. simpl. intros x [->|Hx]%elem_of_cons; [done|].
    by eapply (total_trans _ _ ord_total k a x); auto.
  - split; [by apply IH|]. intros x [->|Hx]%ord_insert_keys; [|by apply Ha].
    by rewrite (total_antisym _ _ ord_total), E.
Qed.

Lemma ord_or_insert_sorted m k v : sorted m -> sorted (or_insert m k v).
Proof. unfold or_insert. destruct (get m k); auto using ord_insert_sorted. Qed.

Lemma ord_filter_sorted (P : K * V -> Prop) `{!forall x, Decision (P x)} m : sorted m -> sorted (filter P m).
Proof.
  induction m as [|[a w] m IH]; [done|]. intros [Hs Ha]%ord_sorted_cons. rewrite filter_cons. case_decide; [|by auto].
  apply ord_sorted_cons. split; [by auto|]. intros k (kv & -> & [_ Hkv]%list_elem_of_filter)%list_elem_of_fmap.
  apply Ha, list_elem_of_fmap. by exists kv.
Qed.

Lemma remove_sorted m k : sorted m -> sorted (remove m k).
Proof. apply ord_filter_sorted. Qed.

Lemma alter_sorted m k f : sorted m -> sorted (alter m k f).
Proof.
  unfold sorted, alter. rewrite <- list_fmap_compose.
  replace ((fst ∘ _) <$> m) with (m.*1); [done|]. apply list_fmap_ext. intros i [a w] _. simpl.
  by case_decide.
Qed.

Lemma fmap_sorted {W} (f : V -> W) m :
  sorted m -> StronglySorted (fun a b => ord_compare a b = Lt) ((fun kv => (kv.1, f kv.2)) <$> m).*1.
Proof. by rewrite <- list_fmap_compose. Qed.
End ops.
End OrdMap.

#[export] Hint Resolve OrdMap.ord_insert_sorted OrdMap.ord_or_insert_sorted OrdMap.remove_sorted
  OrdMap.alter_sorted : sorted.
