(* ===== verification/Utf8.v ===== *)
(** * UTF-8

    A [String] is a byte string holding UTF-8.  [chars] decodes it to code points
    and [of_chars] encodes them back; a byte that is not part of a valid sequence,
    which a Rust string cannot contain, is decoded to a number above the code
    points, so that the two are inverse on every byte string. *)

From S2P Require Import Prelude.

Create HintDb utf8 discriminated.

Definition byte_of (n : N) : ascii := ascii_of_N n.
Definition byte_code (a : ascii) : N := N_of_ascii a.

(** The code of an ASCII character given as a one-letter string. *)
Definition code (s : string) : N :=
  match s with String.String a _ => byte_code a | String.EmptyString => 0 end.

Definition escape_base : N := 1114112.
Definition in_range (lo hi n : N) : bool := (lo <=? n)%N && (n <=? hi)%N.
Definition cont (a : ascii) : bool := in_range 128 191 (byte_code a).

Fixpoint chars (s : string) : list N :=
  match s with
  | String.EmptyString => []
  | String.String a s1 =>
      let x := byte_code a in
      if (x <? 128)%N then x :: chars s1
      else
        match s1 with
        | String.String b s2 =>
            let y := byte_code b in
            if in_range 194 223 x && cont b then ((x - 192) * 64 + (y - 128))%N :: chars s2
            else
              match s2 with
              | String.String c s3 =>
                  let z := byte_code c in
                  let cp3 := ((x - 224) * 4096 + (y - 128) * 64 + (z - 128))%N in
                  if in_range 224 239 x && cont b && cont c && (2048 <=? cp3)%N
                     && negb (in_range 55296 57343 cp3)
                  then cp3 :: chars s3
                  else
                    match s3 with
                    | String.String d s4 =>
                        let w := byte_code d in
                        let cp4 :=
                          ((x - 240) * 262144 + (y - 128) * 4096 + (z - 128) * 64 + (w - 128))%N in
                        if in_range 240 244 x && cont b && cont c && cont d
                           && in_range 65536 1114111 cp4
                        then cp4 :: chars s4
                        else (escape_base + x)%N :: chars s1
                    | String.EmptyString => (escape_base + x)%N :: chars s1
                    end
              | String.EmptyString => (escape_base + x)%N :: chars s1
              end
        | String.EmptyString => [(escape_base + x)%N]
        end
  end.

Definition bytes_string (l : list N) (s : string) : string :=
  foldr (fun n s => String.String (byte_of n) s) s l.

(** The bytes of one code point. *)
Definition encode_char (c : N) : list N :=
  (if c <? 128 then [c]
   else if c <? 2048 then [192 + c / 64; 128 + c mod 64]
   else if c <? 65536 then [224 + c / 4096; 128 + (c / 64) mod 64; 128 + c mod 64]
   else if c <? escape_base then
     [240 + c / 262144; 128 + (c / 4096) mod 64; 128 + (c / 64) mod 64; 128 + c mod 64]
   else [c - escape_base])%N.

Fixpoint of_chars (l : list N) : string :=
  match l with
  | [] => String.EmptyString
  | c :: l => bytes_string (encode_char c) (of_chars l)
  end.

Lemma byte_of_code a : byte_of (byte_code a) = a.
Proof. apply ascii_N_embedding. Qed.

Lemma byte_code_lt a : (byte_code a < 256)%N.
Proof. apply N_ascii_bounded. Qed.

Lemma of_chars_cons c l : of_chars (c :: l) = bytes_string (encode_char c) (of_chars l).
Proof. done. Qed.

Lemma byte_of_eq n a : n = byte_code a -> byte_of n = a.
Proof. intros ->. apply byte_of_code. Qed.

(** Solves goals about the bytes of a decoded character. *)
Ltac byte_arith :=
  unfold in_range, cont, escape_base, in_range in *;
  repeat match goal with
  | H : context [byte_code ?a] |- _ =>
      lazymatch goal with
      | _ : (byte_code a < 256)%N |- _ => fail
      | _ => pose proof (byte_code_lt a)
      end
  end;
  rewrite ?andb_true_iff, ?negb_true_iff, ?andb_false_iff, ?N.leb_le, ?N.leb_gt, ?N.ltb_lt,
    ?N.ltb_ge in *;
  zify; Z.to_euclidean_division_equations; lia.

Ltac encode_step :=
  unfold encode_char;
  repeat match goal with
  | |- context [if (?a <? ?b)%N then _ else _] =>
      first
        [ rewrite (proj2 (N.ltb_lt a b)) by byte_arith
        | rewrite (proj2 (N.ltb_ge a b)) by byte_arith ]
  end;
  cbn [bytes_string foldr];
  repeat f_equal; try (apply byte_of_eq; byte_arith).

(** Decoding loses nothing. *)
Lemma of_chars_chars s : of_chars (chars s) = s.
Proof.
  induction s as [s IH] using (induction_ltof1 _ String.length). unfold ltof in IH.
  destruct s as [|a s1]; [done|].
  assert (H1 : of_chars (chars s1) = s1) by (apply IH; simpl; lia).
  pose proof (byte_code_lt a). cbn [chars].
  destruct (byte_code a <? 128)%N eqn:Ha; [rewrite of_chars_cons, H1; by encode_step|].
  assert (Hesc : of_chars ((escape_base + byte_code a)%N :: chars s1) = String.String a s1).
  { rewrite of_chars_cons, H1. by encode_step. }
  destruct s1 as [|b s2]; [exact Hesc|].
  assert (H2 : of_chars (chars s2) = s2) by (apply IH; simpl; lia).
  destruct (in_range 194 223 (byte_code a) && cont b) eqn:E2.
  { rewrite of_chars_cons, H2. by encode_step. }
  destruct s2 as [|c s3]; [exact Hesc|].
  assert (H3 : of_chars (chars s3) = s3) by (apply IH; simpl; lia).
  match goal with |- context [if ?b then _ else _] => destruct b eqn:E3 end.
  { rewrite of_chars_cons, H3. by encode_step. }
  destruct s3 as [|d s4]; [exact Hesc|].
  assert (H4 : of_chars (chars s4) = s4) by (apply IH; simpl; lia).
  match goal with |- context [if ?b then _ else _] => destruct b eqn:E4 end; [|exact Hesc].
  rewrite of_chars_cons, H4. by encode_step.
Qed.

(** Unicode scalar values; a byte string is UTF-8 when it decodes to them. *)
Definition scalar (c : N) : bool := (c <? 55296)%N || in_range 57344 1114111 c.
Definition utf8 (s : string) : Prop := Forall (fun c => scalar c = true) (chars s).

Lemma byte_code_of n : (n < 256)%N -> byte_code (byte_of n) = n.
Proof. apply N_ascii_embedding. Qed.

Lemma chars_encode c t :
  scalar c = true -> chars (bytes_string (encode_char c) t) = c :: chars t.
Proof.
  unfold scalar, in_range. rewrite orb_true_iff, andb_true_iff, N.ltb_lt, !N.leb_le. intros Hc.
  unfold encode_char.
  destruct (c <? 128)%N eqn:E1; [|destruct (c <? 2048)%N eqn:E2;
    [|destruct (c <? 65536)%N eqn:E3; [|rewrite (proj2 (N.ltb_lt c escape_base)) by (unfold escape_base; lia)]]];
    rewrite ?N.ltb_ge, ?N.ltb_lt in *; cbn [bytes_string foldr chars]; unfold cont;
    rewrite !byte_code_of by byte_arith.
  - by rewrite (proj2 (N.ltb_lt c 128)).
  - rewrite (proj2 (N.ltb_ge _ 128)) by byte_arith.
    match goal with |- context [if ?b then _ else _] => replace b with true by (symmetry; byte_arith) end.
    f_equal. byte_arith.
  - rewrite (proj2 (N.ltb_ge _ 128)) by byte_arith.
    match goal with |- context [if ?b then _ else _] => replace b with false by (symmetry; byte_arith) end.
    match goal with |- context [if ?b then _ else _] => replace b with true by (symmetry; byte_arith) end.
    f_equal. byte_arith.
  - rewrite (proj2 (N.ltb_ge _ 128)) by byte_arith.
    match goal with |- context [if ?b then _ else _] => replace b with false by (symmetry; byte_arith) end.
    match goal with |- context [if ?b then _ else _] => replace b with false by (symmetry; byte_arith) end.
    match goal with |- context [if ?b then _ else _] => replace b with true by (symmetry; byte_arith) end.
    f_equal. byte_arith.
Qed.

Lemma chars_of_chars_app l t :
  Forall (fun c => scalar c = true) l -> chars (of_chars l ++ t) = l ++ chars t.
Proof.
  induction 1 as [|c l Hc _ IH]; [done|]. rewrite of_chars_cons.
  replace (bytes_string (encode_char c) (of_chars l) ++ t)%string
    with (bytes_string (encode_char c) (of_chars l ++ t)%string).
  { rewrite chars_encode by done. by rewrite IH. }
  clear. unfold bytes_string. induction (encode_char c) as [|n ns IH]; [done|]. exact (f_equal (String.String _) IH).
Qed.

Lemma append_nil_r (s : string) : (s ++ String.EmptyString)%string = s.
Proof. induction s as [|a s IH]; [done|exact (f_equal (String.String a) IH)]. Qed.

Lemma append_assoc (s t u : string) : ((s ++ t) ++ u = s ++ (t ++ u))%string.
Proof. induction s as [|a s IH]; [done|exact (f_equal (String.String a) IH)]. Qed.

Lemma chars_of_chars l : Forall (fun c => scalar c = true) l -> chars (of_chars l) = l.
Proof.
  intros Hl. rewrite <- (append_nil_r (of_chars l)).
  by rewrite chars_of_chars_app, app_nil_r.
Qed.

Lemma chars_app s t : utf8 s -> chars (s ++ t)%string = chars s ++ chars t.
Proof. intros Hs. rewrite <- (of_chars_chars s) at 1. by apply chars_of_chars_app. Qed.

Lemma utf8_app s t : utf8 s -> utf8 t -> utf8 (s ++ t)%string.
Proof. unfold utf8. intros Hs Ht. rewrite chars_app by done. by apply Forall_app. Qed.

Lemma utf8_of_chars l : Forall (fun c => scalar c = true) l -> utf8 (of_chars l).
Proof. intros Hl. unfold utf8. by rewrite chars_of_chars. Qed.

Lemma chars_inj s t : chars s = chars t -> s = t.
Proof. intros Heq. by rewrite <- (of_chars_chars s), Heq, of_chars_chars. Qed.

(** ASCII strings decode byte by byte. *)
Definition ascii_string (s : string) : Prop :=
  Forall (fun a => (byte_code a < 128)%N) (String.list_ascii_of_string s).

Lemma chars_ascii s : ascii_string s -> chars s = byte_code <$> String.list_ascii_of_string s.
Proof.
  induction s as [|a s IH]; [done|]. intros [Ha Hs]%Forall_cons_1. cbn [chars].
  rewrite (proj2 (N.ltb_lt _ _)) by done. by rewrite IH.
Qed.

Lemma ascii_utf8 s : ascii_string s -> utf8 s.
Proof.
  intros Hs. unfold utf8. rewrite chars_ascii by done. apply Forall_fmap.
  eapply Forall_impl; [exact Hs|]. intros a Ha. change (scalar (byte_code a) = true). apply orb_true_iff.
  left. apply N.ltb_lt. by transitivity 128%N.
Qed.

#[export] Hint Resolve utf8_app ascii_utf8 : utf8.
