(* ===== verification/RustString.v ===== *)
(** * Strings of the Rust standard library

    The methods of [str] and [String] that the relational layer calls, and the
    text of integers.  The character classes are exact for ASCII and for white
    space; letters and case beyond ASCII come from the tables of the class
    [Unicode]. *)

From S2P Require Import Prelude Utf8.

(** The Unicode tables of the standard library, above ASCII. *)
Class Unicode := {
  alphanumeric_above : N -> bool;
  lowercase_above : N -> list N
}.

(** ** Characters *)

(** [char::is_whitespace]: the property White_Space. *)
Definition is_whitespace (c : N) : bool :=
  in_range 9 13 c || bool_decide (c ∈ [32; 133; 160; 5760; 8232; 8233; 8239; 8287; 12288]%N)
  || in_range 8192 8202 c.

Definition is_ascii_digit (c : N) : bool := in_range 48 57 c.
Definition is_ascii_upper (c : N) : bool := in_range 65 90 c.
Definition is_ascii_lower (c : N) : bool := in_range 97 122 c.
Definition ascii_lower (c : N) : N := if is_ascii_upper c then (c + 32)%N else c.

Definition is_alphanumeric `{!Unicode} (c : N) : bool :=
  if (c <? 128)%N then is_ascii_digit c || is_ascii_upper c || is_ascii_lower c
  else alphanumeric_above c.

Definition char_lowercase `{!Unicode} (c : N) : list N :=
  if (c <? 128)%N then [ascii_lower c] else lowercase_above c.

(** A double quote. *)
Definition dquote : string := String.String (byte_of 34) String.EmptyString.

(** ** Methods of [str] *)

Fixpoint skip_while {A} (p : A -> bool) (l : list A) : list A :=
  match l with
  | [] => []
  | c :: l' => if p c then skip_while p l' else l
  end.

Definition trim_by (p : N -> bool) (l : list N) : list N :=
  reverse (skip_while p (reverse (skip_while p l))).

Definition trim (s : string) : string := of_chars (trim_by is_whitespace (chars s)).
Definition trim_end_matches (c : N) (s : string) : string :=
  of_chars (reverse (skip_while (N.eqb c) (reverse (chars s)))).
Definition trim_matches (c : N) (s : string) : string := of_chars (trim_by (N.eqb c) (chars s)).

Definition to_ascii_lowercase (s : string) : string := of_chars (ascii_lower <$> chars s).
Definition to_lowercase `{!Unicode} (s : string) : string :=
  of_chars (mjoin (char_lowercase <$> chars s)).
Definition eq_ignore_ascii_case (s t : string) : bool :=
  bool_decide (to_ascii_lowercase s = to_ascii_lowercase t).

Definition contains_char (s : string) (c : N) : bool := bool_decide (c ∈ chars s).

(** [s.replace(c, r)] for a character [c]. *)
Definition replace_chars (c : N) (r : list N) (l : list N) : list N :=
  mjoin ((fun x => if (x =? c)%N then r else [x]) <$> l).
Definition replace_char (c : N) (r : string) (s : string) : string :=
  of_chars (replace_chars c (chars r) (chars s)).

(** [s.replace(from, to)] for a two-character pattern: matches are found from
    the left and do not overlap. *)
Fixpoint replace_pair (c d : N) (r : list N) (l : list N) : list N :=
  match l with
  | x :: ((y :: l'') as l') =>
      if (x =? c)%N && (y =? d)%N then r ++ replace_pair c d r l''
      else x :: replace_pair c d r l'
  | _ => l
  end.

Fixpoint split_list (c : N) (l : list N) : list (list N) :=
  match l with
  | [] => [[]]
  | x :: l =>
      if (x =? c)%N then [] :: split_list c l
      else match split_list c l with
           | w :: ws => (x :: w) :: ws
           | [] => [[x]]
           end
  end.

Definition split (c : N) (s : string) : list string := of_chars <$> split_list c (chars s).

(** [s.split_once(c)] *)
Fixpoint split_once_list (c : N) (l : list N) : option (list N * list N) :=
  match l with
  | [] => None
  | x :: l =>
      if (x =? c)%N then Some ([], l)
      else match split_once_list c l with
           | Some (a, b) => Some (x :: a, b)
           | None => None
           end
  end.

Definition split_once (c : N) (s : string) : option (string * string) :=
  match split_once_list c (chars s) with
  | Some (a, b) => Some (of_chars a, of_chars b)
  | None => None
  end.

Fixpoint join (sep : string) (l : list string) : string :=
  match l with
  | [] => String.EmptyString
  | [s] => s
  | s :: l => (s ++ sep ++ join sep l)%string
  end.

Fixpoint strip_list (p l : list N) : option (list N) :=
  match p, l with
  | [], _ => Some l
  | c :: p, d :: l => if (c =? d)%N then strip_list p l else None
  | _, [] => None
  end.

Definition strip_prefix (p s : string) : option string :=
  of_chars <$> strip_list (chars p) (chars s).

Definition strip_suffix (p s : string) : option string :=
  (fun r => of_chars (reverse r)) <$> strip_list (reverse (chars p)) (reverse (chars s)).

(** ** Text of integers *)

Definition digit_value (c : N) : option Z :=
  if is_ascii_digit c then Some (Z.of_N (c - 48)) else None.

Fixpoint digits_value (acc : Z) (l : list N) : option Z :=
  match l with
  | [] => Some acc
  | c :: l => match digit_value c with
              | Some d => digits_value (acc * 10 + d) l
              | None => None
              end
  end.

Definition unsigned_value (l : list N) : option Z :=
  match l with [] => None | _ => digits_value 0 l end.

(** [str::parse] at an integer type with the given range; a minus sign is
    accepted only by signed types. *)
Definition parse_int (lo hi : Z) (s : string) : option Z :=
  let bounded v := if decide (lo <= v <= hi)%Z then Some v else None in
  match chars s with
  | [] => None
  | c :: l =>
      if (c =? code "+")%N then unsigned_value l ≫= bounded
      else if (c =? code "-")%N && (lo <? 0)%Z then
        unsigned_value l ≫= fun v => bounded (- v)%Z
      else unsigned_value (c :: l) ≫= bounded
  end.

Definition i16_min : Z := - 2 ^ 15.
Definition i16_max : Z := 2 ^ 15 - 1.
Definition i32_min : Z := - 2 ^ 31.
Definition i32_max : Z := 2 ^ 31 - 1.
Definition u32_max : Z := 2 ^ 32 - 1.

(** [n as i16], [n as i32]: the low bits, in two's complement. *)
Definition wrap_signed (bits : Z) (n : Z) : Z :=
  ((n + 2 ^ (bits - 1)) mod 2 ^ bits - 2 ^ (bits - 1))%Z.

(** Lower-case hexadecimal of bytes, two digits each. *)
Definition hex_digit (n : N) : N := if (n <? 10)%N then (48 + n)%N else (87 + n)%N.
Definition hex_encode (s : string) : string :=
  of_chars (mjoin ((fun a => [hex_digit (byte_code a / 16); hex_digit (byte_code a mod 16)]%N)
                   <$> String.list_ascii_of_string s)).

(** ** Properties *)

Lemma pretty_N_char_code d : (d < 10)%N -> byte_code (pretty_N_char d) = (48 + d)%N.
Proof. intros Hd. destruct d as [|d]; [done|]. by do 4 (destruct d as [d|d|]; try done). Qed.

Lemma chars_digit d s :
  (d < 10)%N -> chars (String.String (pretty_N_char d) s) = (48 + d)%N :: chars s.
Proof.
  intros Hd. cbn [chars]. rewrite pretty_N_char_code by done. by rewrite (proj2 (N.ltb_lt _ _)) by lia.
Qed.

Lemma is_ascii_digit_spec c : is_ascii_digit c = true <-> (48 <= c <= 57)%N.
Proof. unfold is_ascii_digit, in_range. by rewrite andb_true_iff, !N.leb_le. Qed.

Lemma digit_code d : (d < 10)%N -> is_ascii_digit (48 + d) = true.
Proof. intros Hd. apply is_ascii_digit_spec. lia. Qed.

(** Two characters that a predicate tells apart. *)
Lemma char_differs (p : N -> bool) c d : p c = true -> p d = false -> (c =? d)%N = false.
Proof. intros Hc Hd. apply N.eqb_neq. intros ->. congruence. Qed.

Definition digits (l : list N) : Prop := Forall (fun c => is_ascii_digit c = true) l.

Lemma pretty_N_go_digits x s : digits (chars s) -> digits (chars (pretty_N_go x s)).
Proof.
  revert s. induction (N.lt_wf_0 x) as [x _ IH]. intros s Hs.
  destruct (decide (x = 0)%N) as [->|Hx]; [by rewrite pretty_N_go_0|].
  assert (0 < x)%N by lia. rewrite pretty_N_go_step by done. apply IH; [by apply N.div_lt|].
  assert (Hm : (x mod 10 < 10)%N) by (by apply N.mod_lt).
  rewrite chars_digit by done. constructor; [by apply digit_code|done].
Qed.

Lemma pretty_N_go_value x s :
  digits_value 0 (chars (pretty_N_go x s)) = digits_value (Z.of_N x) (chars s).
Proof.
  revert s. induction (N.lt_wf_0 x) as [x _ IH]. intros s.
  destruct (decide (x = 0)%N) as [->|Hx]; [by rewrite pretty_N_go_0|].
  assert (0 < x)%N by lia. rewrite pretty_N_go_step by done. rewrite IH by (by apply N.div_lt).
  assert (Hm : (x mod 10 < 10)%N) by (by apply N.mod_lt).
  rewrite chars_digit by done. cbn [digits_value]. unfold digit_value.
  rewrite digit_code by done. f_equal.
  pose proof (N.div_mod x 10). zify. Z.to_euclidean_division_equations. lia.
Qed.

(** The text of a natural number is its digits. *)
Lemma pretty_N_digits (n : N) : digits (chars (pretty n)) /\ chars (pretty n) <> [].
Proof.
  unfold pretty, pretty_N. case_decide as Hn.
  { split; [|done]. vm_compute. by repeat constructor. }
  split; [by apply pretty_N_go_digits; constructor|].
  intros Heq. pose proof (pretty_N_go_value n String.EmptyString) as Hv. rewrite Heq in Hv.
  simpl in Hv. injection Hv as Hv. lia.
Qed.

Lemma pretty_N_value (n : N) : unsigned_value (chars (pretty n)) = Some (Z.of_N n).
Proof.
  destruct (pretty_N_digits n) as [_ Hne].
  assert (Hv : digits_value 0 (chars (pretty n)) = Some (Z.of_N n)).
  { unfold pretty, pretty_N. case_decide as Hn; [by subst|]. by rewrite pretty_N_go_value. }
  unfold unsigned_value. by destruct (chars (pretty n)).
Qed.

Lemma digits_scalar l : digits l -> Forall (fun c => scalar c = true) l.
Proof.
  intros Hl. eapply Forall_impl; [exact Hl|]. intros c Hc%is_ascii_digit_spec.
  unfold scalar. apply orb_true_iff. left. apply N.ltb_lt. lia.
Qed.

Lemma pretty_Z_nonneg (z : Z) : (0 <= z)%Z -> pretty z = pretty (Z.to_N z).
Proof. by destruct z. Qed.

(** Reading back the text of a number in range. *)
Lemma parse_int_pretty lo hi z :
  (0 <= z)%Z -> (lo <= z <= hi)%Z -> parse_int lo hi (pretty z) = Some z.
Proof.
  intros Hz Hr. rewrite pretty_Z_nonneg by done.
  destruct (pretty_N_digits (Z.to_N z)) as [Hd _].
  pose proof (pretty_N_value (Z.to_N z)) as Hv. unfold parse_int.
  destruct (chars (pretty (Z.to_N z))) as [|c l]; [done|].
  apply Forall_cons_1 in Hd as [Hc _].
  rewrite !(char_differs is_ascii_digit c) by done.
  rewrite andb_false_l, Hv, Z2N.id by done. simpl. by rewrite decide_True.
Qed.

(** Characters that are not white space. *)
Lemma ascii_not_whitespace c : (33 <= c < 128)%N -> is_whitespace c = false.
Proof.
  intros Hc. unfold is_whitespace, in_range.
  rewrite !orb_false_iff, !andb_false_iff, !N.leb_gt, bool_decide_eq_false.
  split; [split; [lia|]|lia]. set_unfold. lia.
Qed.

Lemma skip_while_false {A} (p : A -> bool) l :
  match l with c :: _ => p c = false | [] => True end -> skip_while p l = l.
Proof. destruct l as [|c l]; simpl; [done|]. by intros ->. Qed.

(** ** Parts of a text are texts *)

Lemma skip_while_Forall {A} (P : A -> Prop) p l : Forall P l -> Forall P (skip_while p l).
Proof. intros Hl. induction Hl as [|x l Hx Hl IH]; simpl; [done|]. destruct (p x); auto. Qed.

Lemma trim_by_Forall (P : N -> Prop) p l : Forall P l -> Forall P (trim_by p l).
Proof.
  intros Hl. unfold trim_by. apply Forall_reverse, skip_while_Forall, Forall_reverse.
  by apply skip_while_Forall.
Qed.

Lemma trim_utf8 s : utf8 s -> utf8 (trim s).
Proof. intros Hs. by apply utf8_of_chars, trim_by_Forall. Qed.

Lemma trim_matches_utf8 c s : utf8 s -> utf8 (trim_matches c s).
Proof. intros Hs. by apply utf8_of_chars, trim_by_Forall. Qed.

Lemma strip_list_app p l r : strip_list p l = Some r -> l = p ++ r.
Proof.
  revert l. induction p as [|c p IH]; intros l; [by intros [= ->]|]. destruct l as [|d l]; [done|].
  simpl. destruct (N.eqb_spec c d) as [->|]; [|done]. by intros ->%IH.
Qed.

Lemma strip_prefix_utf8 p s r : utf8 s -> strip_prefix p s = Some r -> utf8 r.
Proof.
  intros Hs (l & Hl & ->)%fmap_Some. apply strip_list_app in Hl. unfold utf8 in Hs.
  rewrite Hl in Hs. apply Forall_app in Hs as [_ Hs]. by apply utf8_of_chars.
Qed.

Lemma strip_suffix_utf8 p s r : utf8 s -> strip_suffix p s = Some r -> utf8 r.
Proof.
  intros Hs (l & Hl & ->)%fmap_Some. apply strip_list_app in Hl.
  apply Forall_reverse in Hs. rewrite Hl in Hs. apply Forall_app in Hs as [_ Hs].
  by apply utf8_of_chars, Forall_reverse.
Qed.

Lemma split_list_Forall (P : N -> Prop) c l : Forall P l -> Forall (Forall P) (split_list c l).
Proof.
  intros Hl. induction Hl as [|x l Hx Hl IH]; simpl; [by repeat constructor|].
  destruct (x =? c)%N; [by constructor|].
  destruct (split_list c l) as [|w ws]; [by repeat constructor|].
  apply Forall_cons in IH as [Hw Hws]. by repeat constructor.
Qed.

Lemma split_list_cons c l : split_list c l <> [].
Proof. destruct l as [|x l]; simpl; [done|]. destruct (x =? c)%N; [done|]. by destruct (split_list c l). Qed.

Lemma split_utf8 c s : utf8 s -> Forall utf8 (split c s).
Proof.
  intros Hs. apply Forall_fmap. eapply Forall_impl; [by apply split_list_Forall|].
  intros l Hl. by apply utf8_of_chars.
Qed.

Lemma split_once_utf8 c s a b : utf8 s -> split_once c s = Some (a, b) -> utf8 a /\ utf8 b.
Proof.
  unfold utf8 at 1, split_once. generalize (chars s) as l. intros l Hl.
  destruct (split_once_list c l) as [[x y]|] eqn:E; [|done]. intros [= <- <-].
  assert (Hxy : Forall (fun c => scalar c = true) x /\ Forall (fun c => scalar c = true) y).
  { revert x y E. induction Hl as [|d l Hd Hl IH]; intros x y; [done|]. simpl.
    destruct (d =? c)%N; [by intros [= <- <-]|].
    destruct (split_once_list c l) as [[u v]|]; [|done]. intros [= <- <-].
    destruct (IH _ _ eq_refl). split; [by constructor|done]. }
  destruct Hxy. by split; apply utf8_of_chars.
Qed.

Lemma join_utf8 sep l : utf8 sep -> Forall utf8 l -> utf8 (join sep l).
Proof.
  intros Hsep Hl. induction Hl as [|s l Hs Hl IH]; simpl; [constructor|].
  destruct l; [done|]. by repeat apply utf8_app.
Qed.

Lemma digits_utf8 l : digits l -> utf8 (of_chars l).
Proof. intros Hl. by apply utf8_of_chars, digits_scalar. Qed.

Lemma pretty_N_utf8 (n : N) : utf8 (pretty n).
Proof. destruct (pretty_N_digits n) as [Hd _]. by apply digits_scalar. Qed.

Lemma pretty_Z_utf8 (z : Z) : utf8 (pretty z).
Proof.
  destruct z as [|p|p]; [repeat constructor|apply pretty_N_utf8|].
  change (utf8 ("-" ++ pretty (N.pos p))%string).
  apply utf8_app; [repeat constructor|apply pretty_N_utf8].
Qed.

(** Trimming twice is trimming once. *)
Lemma skip_while_idem {A} (p : A -> bool) l : skip_while p (skip_while p l) = skip_while p l.
Proof. induction l as [|x l IH]; simpl; [done|]. destruct (p x) eqn:E; simpl; [done|by rewrite E]. Qed.

Lemma skip_while_snoc {A} (p : A -> bool) l x :
  p x = false -> exists l', skip_while p (l ++ [x]) = l' ++ [x].
Proof.
  intros Hx. induction l as [|y l [l' IH]]; simpl; [rewrite Hx; by exists []|].
  destruct (p y); [by exists l'|by exists (y :: l)].
Qed.

Lemma skip_while_head {A} (p : A -> bool) l x l' : skip_while p l = x :: l' -> p x = false.
Proof.
  induction l as [|y l IH]; simpl; [done|]. destruct (p y) eqn:E; [done|]. by intros [= <- _].
Qed.

Lemma trim_by_idem p l : trim_by p (trim_by p l) = trim_by p l.
Proof.
  unfold trim_by. set (m := skip_while p l).
  destruct (skip_while p (reverse m)) as [|x r] eqn:E; [done|].
  assert (Hx : p x = false) by (by apply skip_while_head in E).
  assert (Hm : skip_while p (reverse (x :: r)) = reverse (x :: r)).
  { rewrite reverse_cons.
    destruct m as [|y m'] eqn:Em; [done|].
    assert (Hy : p y = false) by (by apply (skip_while_head p l) with m').
    rewrite reverse_cons in E. destruct (skip_while_snoc p (reverse m') y Hy) as [l' Hl'].
    rewrite Hl' in E. destruct l' as [|z l']; simpl in E.
    - injection E as -> <-. simpl. by rewrite Hx.
    - injection E as -> <-. rewrite reverse_app. simpl. by rewrite Hy. }
  rewrite Hm, reverse_involutive. by rewrite <- E, skip_while_idem, E.
Qed.

Lemma trim_idem s : utf8 s -> trim (trim s) = trim s.
Proof.
  intros Hs. unfold trim. rewrite chars_of_chars by (by apply trim_by_Forall). by rewrite trim_by_idem.
Qed.

#[export] Hint Resolve trim_utf8 trim_matches_utf8 strip_prefix_utf8 strip_suffix_utf8 join_utf8
  pretty_N_utf8 pretty_Z_utf8 utf8_app : utf8.
