(* ===== verification/RustFloat.v ===== *)
(** * Floats of the Rust standard library

    [f32] and [f64] as specification floats with 24 and 53 bits: conversions,
    rounding, comparison, and their text.  [parse] rounds a decimal number
    correctly; [Display] writes the shortest decimal number that parses back to
    the float, without an exponent. *)

From S2P Require Import Prelude Json Utf8 RustString.

Abbreviation float := spec_float.

#[global] Instance spec_float_eq_dec : EqDecision spec_float.
Proof. solve_decision. Defined.

(** ** Conversions *)

(** [x as f32], [x as f64] *)
Definition to_format (prec emax : Z) (f : float) : float :=
  match f with
  | S754_finite s m e => binary_round prec emax s m e
  | _ => f
  end.
Definition to_f32 : float -> float := to_format 24 128.
Definition to_f64 : float -> float := to_format 53 1024.

Definition is_nan (f : float) : bool := match f with S754_nan => true | _ => false end.
Definition is_infinite (f : float) : bool :=
  match f with S754_infinity _ => true | _ => false end.
Definition is_positive (f : float) : bool := SFltb (S754_zero false) f.

Definition cond_neg (s : bool) (z : Z) : Z := if s then (- z)%Z else z.

(** The integer part, rounding towards zero. *)
Definition trunc_Z (s : bool) (m : positive) (e : Z) : Z :=
  cond_neg s (if (0 <=? e)%Z then Z.pos m * 2 ^ e else Z.pos m / 2 ^ (- e))%Z.

(** [x as i64] and the other integer types: the integer part, saturated to the
    range; NaN gives zero. *)
Definition float_to_int (lo hi : Z) (f : float) : Z :=
  match f with
  | S754_nan | S754_zero _ => 0
  | S754_infinity s => if s then lo else hi
  | S754_finite s m e => Z.max lo (Z.min hi (trunc_Z s m e))
  end%Z.

(** [f64::round]: to the nearest integer, half-way cases away from zero. *)
Definition f64_round (f : float) : float :=
  match f with
  | S754_finite s m e =>
      if (0 <=? e)%Z then f
      else
        let n := ((2 * Z.pos m + 2 ^ (- e)) / 2 ^ (- e + 1))%Z in
        binary_normalize 53 1024 (cond_neg s n) 0 s
  | _ => f
  end.

Definition f64_min (a b : float) : float :=
  if is_nan a then b else if is_nan b then a else if SFltb b a then b else a.
Definition f64_max (a b : float) : float :=
  if is_nan a then b else if is_nan b then a else if SFltb a b then b else a.

(** ** Parsing *)

(** The float nearest to [d * 10 ^ x], ties to even. *)
Definition decimal_to_float (prec emax : Z) (neg : bool) (d : Z) (x : Z) : float :=
  match d with
  | Z.pos p =>
      match (10 ^ x)%Z, (10 ^ (- x))%Z with
      | Z.pos q, _ => binary_round prec emax neg (p * q) 0
      | _, t =>
          let '(mz, ez, lz) := SFdiv_core_binary prec emax (Z.pos p) 0 t 0 in
          binary_round_aux prec emax neg mz ez lz
      end
  | _ => S754_zero neg
  end.

Fixpoint take_digits (l : list N) : list N * list N :=
  match l with
  | c :: l' =>
      if is_ascii_digit c then let (ds, r) := take_digits l' in (c :: ds, r) else ([], l)
  | [] => ([], [])
  end.

(** The exponent part; [None] when it is malformed. *)
Definition parse_exponent (l : list N) : option Z :=
  match l with
  | [] => Some 0%Z
  | c :: l =>
      if (ascii_lower c =? code "e")%N then
        match l with
        | c :: l' =>
            if (c =? code "+")%N then unsigned_value l'
            else if (c =? code "-")%N then Z.opp <$> unsigned_value l'
            else unsigned_value l
        | [] => None
        end
      else None
  end.

Definition parse_decimal (prec emax : Z) (neg : bool) (l : list N) : option float :=
  let '(int, r) := take_digits l in
  let '(frac, r) :=
    match r with
    | c :: r' => if (c =? code ".")%N then take_digits r' else ([], r)
    | [] => ([], [])
    end in
  match unsigned_value (int ++ frac), parse_exponent r with
  | Some d, Some x => Some (decimal_to_float prec emax neg d (x - Z.of_nat (length frac)))
  | _, _ => None
  end.

Definition parse_special (neg : bool) (l : list N) : option float :=
  let w := of_chars (ascii_lower <$> l) in
  if decide (w = "inf") then Some (S754_infinity neg)
  else if decide (w = "infinity") then Some (S754_infinity neg)
  else if decide (w = "nan") then Some S754_nan
  else None.

Definition parse_float (prec emax : Z) (s : string) : option float :=
  let body neg l :=
    match parse_special neg l with
    | Some f => Some f
    | None => parse_decimal prec emax neg l
    end in
  match chars s with
  | [] => None
  | c :: l =>
      if (c =? code "-")%N then body true l
      else if (c =? code "+")%N then body false l
      else body false (c :: l)
  end.

Definition parse_f32 : string -> option float := parse_float 24 128.
Definition parse_f64 : string -> option float := parse_float 53 1024.

(** ** Display *)

(** The two multiples of [10 ^ q] around [m * 2 ^ e], the nearer one first. *)
Definition around (m : positive) (e q : Z) : list Z :=
  let num := (Z.pos m * 2 ^ Z.max e 0 * 10 ^ Z.max (- q) 0)%Z in
  let den := (2 ^ Z.max (- e) 0 * 10 ^ Z.max q 0)%Z in
  let d := (num / den)%Z in
  if (2 * (num - d * den) <=? den)%Z then [d; d + 1]%Z else [d + 1; d]%Z.

(** The largest power of ten whose multiples reach the float, searched
    downwards from [q]. *)
Fixpoint shortest (prec emax : Z) (m : positive) (e : Z) (q : Z) (fuel : nat) : Z * Z :=
  match fuel with
  | 0 => (0, 0)%Z
  | S fuel =>
      match filter (fun d => decimal_to_float prec emax false d q = S754_finite false m e)
              (around m e q) with
      | d :: _ => (d, q)
      | [] => shortest prec emax m e (q - 1) fuel
      end
  end.

Definition zeros (n : Z) : string := of_chars (replicate (Z.to_nat n) 48%N).

(** [d * 10 ^ q] in positional notation. *)
Definition positional (d q : Z) : string :=
  if (0 <=? q)%Z then (pretty d ++ zeros q)%string
  else
    let ds := chars (pretty d) in
    let k := Z.to_nat (- q) in
    let ds := replicate (S k - length ds) 48%N ++ ds in
    let n := length ds - k in
    (of_chars (take n ds) ++ "." ++ of_chars (drop n ds))%string.

Definition display_float (prec emax : Z) (f : float) : string :=
  match f with
  | S754_nan => "NaN"
  | S754_infinity s => if s then "-inf" else "inf"
  | S754_zero s => if s then "-0" else "0"
  | S754_finite s m e =>
      let '(d, q) := shortest prec emax m e (emax / 3 + 1) (Z.to_nat emax) in
      ((if s then "-" else String.EmptyString) ++ positional d q)%string
  end.

Definition display_f32 : float -> string := display_float 24 128.
Definition display_f64 : float -> string := display_float 53 1024.
