(* ===== verification/FloatExact.v ===== *)
(** * Exact conversions between floats

    Rounding a number that the target format represents gives that number; so
    widening an [f32] to [f64] and narrowing it again gives it back. *)

From S2P Require Import Prelude Json Utf8 RustString RustFloat.

Local Open Scope Z_scope.

Lemma iter_pos_nat {A} (f : A -> A) n x : SpecFloat.iter_pos f n x = Nat.iter (Pos.to_nat n) f x.
Proof.
  revert x. induction n as [n IH|n IH|]; intros x; cbn [SpecFloat.iter_pos];
    [| |done]; rewrite !IH, <- Nat.iter_add.
  - rewrite <- Nat.iter_succ_r. f_equal. lia.
  - f_equal. lia.
Qed.

Definition shift_nat (n : nat) (m : positive) : positive := Nat.iter n xO m.

Lemma shift_pos_nat d m : Pos.iter xO m d = shift_nat (Pos.to_nat d) m.
Proof. by rewrite Pos2Nat.inj_iter. Qed.

Lemma digits_shift n m : Zpos (SpecFloat.digits2_pos (shift_nat n m)) = Zpos (SpecFloat.digits2_pos m) + Z.of_nat n.
Proof. induction n as [|n IH]; simpl; lia. Qed.

(** Shifting right what was shifted left loses nothing. *)
Lemma shr_shift n m :
  Nat.iter n SpecFloat.shr_1 (SpecFloat.Build_shr_record (Zpos (shift_nat n m)) false false)
  = SpecFloat.Build_shr_record (Zpos m) false false.
Proof. induction n as [|n IH]; [done|]. rewrite Nat.iter_succ_r. simpl. exact IH. Qed.

Section round.
Context (prec emax : Z).

Lemma binary_round_aux_id s m e :
  SpecFloat.bounded prec emax m e = true ->
  SpecFloat.binary_round_aux prec emax s (Zpos m) e SpecFloat.loc_Exact = S754_finite s m e.
Proof.
  intros [Hc He]%andb_prop. apply Z.eqb_eq in Hc.
  assert (Hs : SpecFloat.shr_fexp prec emax (Zpos m) e SpecFloat.loc_Exact
               = (SpecFloat.Build_shr_record (Zpos m) false false, e)).
  { unfold SpecFloat.shr_fexp. simpl. by rewrite Hc, Z.sub_diag. }
  unfold SpecFloat.binary_round_aux. rewrite Hs. simpl. rewrite Hs. simpl. by rewrite He.
Qed.

(** The number with more digits and a smaller exponent. *)
Lemma binary_round_shifted s m e n :
  SpecFloat.bounded prec emax m e = true ->
  SpecFloat.binary_round prec emax s (shift_nat n m) (e - Z.of_nat n) = S754_finite s m e.
Proof.
  intros Hb. destruct n as [|n].
  { rewrite Z.sub_0_r. simpl. pose proof Hb as [Hc _]%andb_prop. apply Z.eqb_eq in Hc.
    unfold SpecFloat.binary_round, SpecFloat.shl_align.
    rewrite Hc, Z.sub_diag. by apply binary_round_aux_id. }
  pose proof Hb as [Hc He]%andb_prop. apply Z.eqb_eq in Hc.
  assert (Hf : SpecFloat.fexp prec emax
                 (Zpos (SpecFloat.digits2_pos (shift_nat (S n) m)) + (e - Z.of_nat (S n))) = e).
  { rewrite digits_shift. rewrite <- Hc at 2. f_equal. lia. }
  unfold SpecFloat.binary_round, SpecFloat.shl_align. rewrite Hf.
  replace (e - (e - Z.of_nat (S n))) with (Zpos (Pos.of_succ_nat n)) by lia.
  unfold SpecFloat.binary_round_aux at 1.
  assert (Hs : SpecFloat.shr_fexp prec emax (Zpos (shift_nat (S n) m)) (e - Z.of_nat (S n))
                 SpecFloat.loc_Exact = (SpecFloat.Build_shr_record (Zpos m) false false, e)).
  { unfold SpecFloat.shr_fexp. cbn [SpecFloat.Zdigits2]. rewrite Hf.
    replace (e - (e - Z.of_nat (S n))) with (Zpos (Pos.of_succ_nat n)) by lia.
    cbn [SpecFloat.shr SpecFloat.shr_record_of_loc]. rewrite iter_pos_nat, SuccNat2Pos.id_succ.
    rewrite shr_shift. f_equal. lia. }
  rewrite Hs. cbn [SpecFloat.shr_m SpecFloat.loc_of_shr_record SpecFloat.round_nearest_even].
  unfold SpecFloat.shr_fexp. cbn [SpecFloat.Zdigits2 SpecFloat.shr_record_of_loc].
  rewrite Hc, Z.sub_diag. cbn [SpecFloat.shr SpecFloat.shr_m]. by rewrite He.
Qed.

(** The number with fewer digits and a larger exponent. *)
Lemma binary_round_widened s m e n :
  SpecFloat.bounded prec emax (shift_nat n m) (e - Z.of_nat n) = true ->
  SpecFloat.binary_round prec emax s m e = S754_finite s (shift_nat n m) (e - Z.of_nat n).
Proof.
  intros Hb. pose proof Hb as [Hc _]%andb_prop. apply Z.eqb_eq in Hc. rewrite digits_shift in Hc.
  unfold SpecFloat.binary_round.
  replace (Zpos (SpecFloat.digits2_pos m) + e)
    with (Zpos (SpecFloat.digits2_pos m) + Z.of_nat n + (e - Z.of_nat n)) by lia.
  rewrite Hc. unfold SpecFloat.shl_align. destruct n as [|n].
  - rewrite Z.sub_0_r in *. rewrite Z.sub_diag. by apply binary_round_aux_id.
  - replace (e - Z.of_nat (S n) - e) with (Zneg (Pos.of_succ_nat n)) by lia.
    rewrite shift_pos_nat, SuccNat2Pos.id_succ. by apply binary_round_aux_id.
Qed.
End round.

Definition valid_f32 (f : float) : bool := SpecFloat.valid_binary 24 128 f.
Definition valid_f64 (f : float) : bool := SpecFloat.valid_binary 53 1024 f.

(** Widening to [f64] and narrowing again is the identity on [f32]. *)
Lemma f32_round_trip f : valid_f32 f = true -> to_f32 (to_f64 f) = f.
Proof.
  destruct f as [s|s| |s m e]; try done. intros Hb. pose proof Hb as [Hc He]%andb_prop.
  apply Z.eqb_eq in Hc. apply Z.leb_le in He.
  set (d := Zpos (SpecFloat.digits2_pos m)) in *.
  assert (Hd : 1 <= d) by (unfold d; lia).
  unfold SpecFloat.fexp, SpecFloat.emin in Hc.
  set (n := Z.to_nat (e - SpecFloat.fexp 53 1024 (d + e))).
  assert (Hn : Z.of_nat n = e - SpecFloat.fexp 53 1024 (d + e))
    by (unfold n, SpecFloat.fexp, SpecFloat.emin; lia).
  unfold to_f64, to_f32. cbn [to_format]. rewrite (binary_round_widened _ _ _ _ _ n).
  - cbn [to_format]. by apply binary_round_shifted.
  - apply andb_true_intro. split.
    + apply Z.eqb_eq. rewrite digits_shift. fold d. rewrite Hn.
      unfold SpecFloat.fexp, SpecFloat.emin in *. lia.
    + apply Z.leb_le. lia.
Qed.

(** A finite [f32] stays finite. *)
Lemma f32_widened_finite f :
  valid_f32 f = true -> f64_is_finite f = true -> f64_is_finite (to_f64 f) = true.
Proof.
  intros Hv Hf. destruct (to_f64 f) as [| | |] eqn:E; try done.
  - pose proof (f32_round_trip f Hv) as Hr. rewrite E in Hr. by subst f.
  - pose proof (f32_round_trip f Hv) as Hr. rewrite E in Hr. by subst f.
Qed.

(** ** The text of a float is ASCII *)

Lemma positional_utf8 d q : utf8 (positional d q).
Proof.
  unfold positional. case_match.
  - apply utf8_app; [auto with utf8|]. apply utf8_of_chars, Forall_replicate. reflexivity.
  - assert (Hd : Forall (fun c => scalar c = true) (chars (pretty d))) by apply pretty_Z_utf8.
    set (ds := (_ ++ _)%list).
    assert (Hs : Forall (fun c => scalar c = true) ds)
      by (apply Forall_app; split; [by apply Forall_replicate|done]).
    apply utf8_app; [by apply utf8_of_chars, Forall_take|].
    apply utf8_app; [by repeat constructor|by apply utf8_of_chars, Forall_drop].
Qed.

Lemma display_float_utf8 prec emax f : utf8 (display_float prec emax f).
Proof.
  destruct f as [s|s| |s m e]; cbn [display_float]; try (destruct s); try by repeat constructor.
  all: destruct (shortest _ _ _ _ _ _) as [d q];
    apply utf8_app; [by repeat constructor|apply positional_utf8].
Qed.
#[export] Hint Resolve display_float_utf8 : utf8.

(** ** Integers as floats

    An integer of at most 53 binary digits is a float, exactly. *)

Definition integer_float (s : bool) (p : positive) : float :=
  let k := Z.to_nat (53 - Zpos (SpecFloat.digits2_pos p)) in
  S754_finite s (shift_nat k p) (- Z.of_nat k).

Definition small (p : positive) : Prop := Zpos (SpecFloat.digits2_pos p) <= 53.

Lemma shift_nat_value k p : Zpos (shift_nat k p) = Zpos p * 2 ^ Z.of_nat k.
Proof.
  induction k as [|k IH]; [simpl; lia|]. rewrite Nat2Z.inj_succ, Z.pow_succ_r by lia.
  change (shift_nat (S k) p) with (xO (shift_nat k p)). lia.
Qed.

Lemma integer_round s p : small p -> SpecFloat.binary_round 53 1024 s p 0 = integer_float s p.
Proof.
  intros Hp. unfold small in Hp. unfold integer_float.
  set (k := Z.to_nat (53 - Zpos (SpecFloat.digits2_pos p))).
  assert (Hk : Z.of_nat k = 53 - Zpos (SpecFloat.digits2_pos p)) by lia.
  rewrite (binary_round_widened 53 1024 s p 0 k); [by rewrite Z.sub_0_l|].
  apply andb_true_intro. split; [apply Z.eqb_eq|apply Z.leb_le; lia].
  rewrite digits_shift. unfold SpecFloat.fexp, SpecFloat.emin. lia.
Qed.

(** Rounding to an integer keeps it. *)
Lemma integer_float_round s p : small p -> f64_round (integer_float s p) = integer_float s p.
Proof.
  intros Hp. unfold integer_float. set (k := Z.to_nat _). cbn [f64_round].
  destruct (Z.leb_spec 0 (- Z.of_nat k)) as [|Hk]; [done|].
  rewrite shift_nat_value, !Z.opp_involutive, Z.pow_add_r by lia.
  replace (2 * (Zpos p * 2 ^ Z.of_nat k) + 2 ^ Z.of_nat k)
    with ((2 * Zpos p + 1) * 2 ^ Z.of_nat k) by lia.
  rewrite (Z.mul_comm (2 ^ _) (2 ^ 1)).
  rewrite Z.div_mul_cancel_r by (try apply Z.pow_nonzero; lia).
  replace ((2 * Zpos p + 1) / 2 ^ 1) with (Zpos p)
    by (change (2 ^ 1) with 2; apply (Z.div_unique _ _ _ 1); lia).
  destruct s; simpl; rewrite integer_round by done; done.
Qed.

(** Its integer part is the integer. *)
Lemma integer_float_trunc s p k : trunc_Z s (shift_nat k p) (- Z.of_nat k) = cond_neg s (Zpos p).
Proof.
  unfold trunc_Z. rewrite shift_nat_value. destruct (Z.leb_spec 0 (- Z.of_nat k)) as [Hk|Hk].
  - replace (Z.of_nat k) with 0 by lia. f_equal. simpl. lia.
  - f_equal. rewrite Z.opp_involutive. apply Z.div_mul. apply Z.pow_nonzero; lia.
Qed.

(** The number of digits bounds the number. *)
Lemma digits_bounds p :
  2 ^ (Zpos (SpecFloat.digits2_pos p) - 1) <= Zpos p < 2 ^ Zpos (SpecFloat.digits2_pos p).
Proof.
  induction p as [p IH|p IH|]; [| |done]; cbn [SpecFloat.digits2_pos];
    rewrite Pos2Z.inj_succ; replace (Z.succ (Zpos (SpecFloat.digits2_pos p)) - 1)
      with (Z.succ (Zpos (SpecFloat.digits2_pos p) - 1)) by lia;
    rewrite !Z.pow_succ_r by lia; lia.
Qed.

Lemma digits_mono p q : (p <= q)%positive ->
  Zpos (SpecFloat.digits2_pos p) <= Zpos (SpecFloat.digits2_pos q).
Proof.
  intros Hpq. destruct (Z.le_gt_cases (Zpos (SpecFloat.digits2_pos p)) (Zpos (SpecFloat.digits2_pos q)))
    as [|Hlt]; [done|].
  pose proof (digits_bounds p). pose proof (digits_bounds q).
  assert (2 ^ Zpos (SpecFloat.digits2_pos q) <= 2 ^ (Zpos (SpecFloat.digits2_pos p) - 1))
    by (apply Z.pow_le_mono_r; lia). lia.
Qed.

Lemma small_bound p : Zpos p < 2 ^ 53 -> small p.
Proof.
  intros Hp. unfold small. destruct (Z.le_gt_cases (Zpos (SpecFloat.digits2_pos p)) 53) as [|Hlt]; [done|].
  pose proof (digits_bounds p).
  assert (2 ^ 53 <= 2 ^ (Zpos (SpecFloat.digits2_pos p) - 1)) by (apply Z.pow_le_mono_r; lia). lia.
Qed.

(** Magnitudes compare as the integers do. *)
Lemma shift_compare k p q : Pos.compare (shift_nat k p) (shift_nat k q) = Pos.compare p q.
Proof. induction k as [|k IH]; [done|]. exact IH. Qed.

Lemma integer_magnitude p q :
  small p -> small q ->
  let k r := Z.to_nat (53 - Zpos (SpecFloat.digits2_pos r)) in
  match Z.compare (- Z.of_nat (k p)) (- Z.of_nat (k q)) with
  | Eq => Pos.compare_cont Eq (shift_nat (k p) p) (shift_nat (k q) q)
  | c => c
  end = Pos.compare p q.
Proof.
  unfold small. intros Hp Hq. cbv zeta.
  set (kp := Z.to_nat (53 - Zpos (SpecFloat.digits2_pos p))).
  set (kq := Z.to_nat (53 - Zpos (SpecFloat.digits2_pos q))).
  destruct (Z.compare_spec (- Z.of_nat kp) (- Z.of_nat kq)) as [He|He|He].
  - assert (kp = kq) as -> by lia. apply shift_compare.
  - symmetry. apply Pos.compare_lt_iff. destruct (Pos.lt_total p q) as [|Hge]; [done|].
    pose proof (digits_mono q p ltac:(lia)). lia.
  - symmetry. apply Pos.compare_gt_iff. destruct (Pos.lt_total q p) as [|Hge]; [done|].
    pose proof (digits_mono p q ltac:(lia)). lia.
Qed.

Definition safe_integer (z : Z) : Prop := - 2 ^ 53 < z < 2 ^ 53.

Lemma f64_of_safe z : safe_integer z ->
  f64_of_Z z = match z with
               | Z0 => S754_zero false
               | Zpos p => integer_float false p
               | Zneg p => integer_float true p
               end /\ match z with Z0 => True | Zpos p | Zneg p => small p end.
Proof.
  unfold safe_integer. intros Hz. destruct z as [|p|p]; [done| |];
    (assert (Hp : small p) by (apply small_bound; lia)); (split; [|done]); by apply integer_round.
Qed.

(** Safe integers compare as their floats do. *)
Lemma f64_of_Z_compare a b :
  safe_integer a -> safe_integer b -> SFcompare (f64_of_Z a) (f64_of_Z b) = Some (Z.compare a b).
Proof.
  intros [-> Ha]%f64_of_safe [-> Hb]%f64_of_safe. destruct a as [|p|p], b as [|q|q]; try done;
    unfold integer_float; cbn [SFcompare Z.compare].
  - f_equal. by apply integer_magnitude.
  - pose proof (integer_magnitude p q Ha Hb) as Hm. cbv beta zeta in Hm. rewrite <- Hm.
    by case (Z.compare _ _).
Qed.

Lemma f64_round_safe z : safe_integer z -> f64_round (f64_of_Z z) = f64_of_Z z.
Proof.
  intros [-> Hz]%f64_of_safe. destruct z as [|p|p]; [done| |]; by apply integer_float_round.
Qed.

Lemma float_to_int_safe lo hi z :
  safe_integer z -> lo <= z <= hi -> float_to_int lo hi (f64_of_Z z) = z.
Proof.
  intros [-> _]%f64_of_safe Hz. destruct z as [|p|p]; [done| |]; cbn [integer_float float_to_int];
    unfold integer_float; cbn [float_to_int]; rewrite integer_float_trunc; simpl; lia.
Qed.

(** Safe integers are below [2 ^ 63] in magnitude, as floats too. *)
Lemma f64_of_safe_bounded z :
  safe_integer z ->
  SFltb (f64_of_Z z) (f64_of_Z i64_min) = false /\ SFltb (f64_of_Z i64_max) (f64_of_Z z) = false.
Proof.
  replace (f64_of_Z i64_min) with (S754_finite true 4503599627370496 11) by done.
  replace (f64_of_Z i64_max) with (S754_finite false 4503599627370496 11) by done.
  intros [-> _]%f64_of_safe. unfold SFltb.
  destruct z as [|p|p]; [done| |]; unfold integer_float; set (k := Z.to_nat _);
    cbn [SFcompare]; rewrite ?(proj2 (Z.compare_lt_iff _ _)), ?(proj2 (Z.compare_gt_iff _ _)) by lia; done.
Qed.
