(* ===== verification/SqlTypes.v ===== *)
(** * SQL types and errors

    [relational/types.rs] and [relational/error.rs].  A function of the
    relational layer returns a [Result] whose error is a [RelError]; it may also
    panic, so its model returns [res A], where a fault is one or the other. *)

From S2P Require Import Prelude Utf8 RustString.

(** ** Errors *)

Inductive RelError :=
| UndefinedTable (name : string)
| DuplicateTable (name : string)
| UndefinedColumn (name : string)
| DuplicateColumn (name relation : string)
| UndefinedSchema (name : string)
| DuplicateSchema (name : string)
| UndefinedIndex (name : string)
| DuplicateIndex (name : string)
| UniqueViolation (constraint detail : string)
| NotNullViolation (column table : string)
| ForeignKeyViolation (table constraint detail : string)
| ForeignKeyViolationReferenced (table constraint referencing detail : string)
| DependentObjectsStillExist (object detail : string)
| CheckViolation (table constraint : string)
| DatatypeMismatch (column expected actual : string)
| InvalidTextRepresentation (ty value : string)
| NumericValueOutOfRange (ty : string)
| DivisionByZero
| CannotCoerce (from to : string)
| UndefinedType (name : string)
| UndefinedObject (name : string)
| UndefinedTsConfig (name : string)
| DuplicateObject (name : string)
| UndefinedFunction (name : string)
| DuplicateFunction (message : string)
| AmbiguousFunction (message : string)
| InvalidFunctionDefinition (message : string)
| InvalidObjectDefinition (message : string)
| ObjectNotInPrerequisiteState (message : string)
| Syntax (message : string)
| FeatureNotSupported (message : string)
| WindowingError (message : string)
| InvalidRecursion (message : string)
| RaisedException (message : string)
| WrongObjectType (message : string)
| StatementTooComplex (message : string)
| InvalidParameter (message : string)
| InvalidConstraint (name : string)
| InsufficientPrivilege (message : string)
| DeadlockDetected (detail : string)
| LockNotAvailable (object : string)
| InFailedTransaction
| Storage (message : string)
| Internal (message : string)
| Sidecar (sqlstate message : string).

#[global] Instance rel_error_eq_dec : EqDecision RelError.
Proof. solve_decision. Defined.

(** The PostgreSQL error code of an error. *)
Definition sqlstate (e : RelError) : string :=
  match e with
  | UndefinedTable _ => "42P01"
  | DuplicateTable _ => "42P07"
  | UndefinedColumn _ => "42703"
  | DuplicateColumn _ _ => "42701"
  | UndefinedSchema _ => "3F000"
  | DuplicateSchema _ => "42P06"
  | UndefinedIndex _ => "42704"
  | DuplicateIndex _ => "42P07"
  | UniqueViolation _ _ => "23505"
  | NotNullViolation _ _ => "23502"
  | ForeignKeyViolation _ _ _ => "23503"
  | ForeignKeyViolationReferenced _ _ _ _ => "23503"
  | DependentObjectsStillExist _ _ => "2BP01"
  | CheckViolation _ _ => "23514"
  | DatatypeMismatch _ _ _ => "42804"
  | InvalidTextRepresentation _ _ => "22P02"
  | NumericValueOutOfRange _ => "22003"
  | DivisionByZero => "22012"
  | CannotCoerce _ _ => "42846"
  | UndefinedType _ => "42704"
  | UndefinedObject _ => "42704"
  | UndefinedTsConfig _ => "42704"
  | DuplicateObject _ => "42710"
  | UndefinedFunction _ => "42883"
  | DuplicateFunction _ => "42723"
  | AmbiguousFunction _ => "42725"
  | InvalidFunctionDefinition _ => "42P13"
  | InvalidObjectDefinition _ => "42P17"
  | ObjectNotInPrerequisiteState _ => "55000"
  | Syntax _ => "42601"
  | FeatureNotSupported _ => "0A000"
  | WindowingError _ => "42P20"
  | InvalidRecursion _ => "42P19"
  | RaisedException _ => "P0001"
  | WrongObjectType _ => "42809"
  | StatementTooComplex _ => "54001"
  | InvalidParameter _ => "22023"
  | InvalidConstraint _ => "42P10"
  | InsufficientPrivilege _ => "42501"
  | DeadlockDetected _ => "40P01"
  | LockNotAvailable _ => "55P03"
  | InFailedTransaction => "25P02"
  | Storage _ => "58030"
  | Internal _ => "XX000"
  | Sidecar code _ => code
  end.

(** What a function may end with instead of a value. *)
Inductive Fault :=
| Raise (e : RelError)
| Panic.

Abbreviation res := (result Fault).
Abbreviation raise e := (Err (Raise e)).

#[global] Instance fault_eq_dec : EqDecision Fault.
Proof. solve_decision. Defined.

(** [o.ok_or(e)] *)
Definition ok_or {A} (o : option A) (e : RelError) : res A :=
  match o with Some a => Ok a | None => raise e end.

(** Mapping a fallible function over a list, stopping at the first fault:
    [iter().map(f).collect::<Result<_>>()]. *)
Definition traverse {A B} (f : A -> res B) : list A -> res (list B) :=
  fix go (l : list A) : res (list B) :=
    match l with
    | [] => Ok []
    | a :: l => let? b := f a in let? bs := go l in Ok (b :: bs)
    end.

(** A loop whose body updates a state and may fail. *)
Definition try_fold {A S} (f : S -> A -> res S) : S -> list A -> res S :=
  fix go (s : S) (l : list A) : res S :=
    match l with
    | [] => Ok s
    | a :: l => let? s := f s a in go s l
    end.

(** ** Types *)

Inductive SqlType :=
| TBoolean
| TSmallInt
| TInteger
| TBigInt
| TReal
| TDoublePrecision
| TNumeric (precision scale : option N)
| TText
| TVarchar (n : option N)
| TChar (n : option N)
| TBytea
| TUuid
| TDate
| TTime
| TTimestamp
| TTimestamptz
| TJson
| TJsonb
| TArray (inner : SqlType)
| TCitext
| TVector (dims : option N)
| THStore
| TLtree
| TCube
| TTsVector
| TTsQuery
| TUnknown.

#[global] Instance sql_type_eq_dec : EqDecision SqlType.
Proof. solve_decision. Defined.

(** The OID of the array type with the given elements. *)
Definition array_oid (t : SqlType) : N :=
  match t with
  | TBoolean => 1000
  | TBytea => 1001
  | TChar _ => 1014
  | TBigInt => 1016
  | TSmallInt => 1005
  | TInteger => 1007
  | TText => 1009
  | TJson => 199
  | TReal => 1021
  | TDoublePrecision => 1022
  | TVarchar _ => 1015
  | TDate => 1182
  | TTime => 1183
  | TTimestamp => 1115
  | TTimestamptz => 1185
  | TNumeric _ _ => 1231
  | TUuid => 2951
  | TTsVector => 3643
  | TTsQuery => 3645
  | TJsonb => 3807
  | _ => 1009
  end.

Definition oid (t : SqlType) : N :=
  match t with
  | TBoolean => 16
  | TBytea => 17
  | TChar _ => 1042
  | TBigInt => 20
  | TSmallInt => 21
  | TInteger => 23
  | TText => 25
  | TJson => 114
  | TReal => 700
  | TDoublePrecision => 701
  | TVarchar _ => 1043
  | TDate => 1082
  | TTime => 1083
  | TTimestamp => 1114
  | TTimestamptz => 1184
  | TNumeric _ _ => 1700
  | TUuid => 2950
  | TTsVector => 3614
  | TTsQuery => 3615
  | TJsonb => 3802
  | TArray inner => array_oid inner
  | TCitext => 16390
  | TVector _ => 16388
  | THStore => 16392
  | TLtree => 16394
  | TCube => 16396
  | TUnknown => 705
  end.

Definition type_len (t : SqlType) : Z :=
  match t with
  | TBoolean => 1
  | TSmallInt => 2
  | TInteger | TReal | TDate => 4
  | TBigInt | TDoublePrecision | TTime | TTimestamp | TTimestamptz => 8
  | TUuid => 16
  | _ => -1
  end.

Local Open Scope string_scope.

(** The canonical name of a type. *)
Fixpoint name (t : SqlType) : string :=
  match t with
  | TBoolean => "boolean"
  | TSmallInt => "smallint"
  | TInteger => "integer"
  | TBigInt => "bigint"
  | TReal => "real"
  | TDoublePrecision => "double precision"
  | TNumeric (Some p) (Some s) => "numeric(" ++ pretty p ++ "," ++ pretty s ++ ")"
  | TNumeric (Some p) None => "numeric(" ++ pretty p ++ ")"
  | TNumeric None _ => "numeric"
  | TText => "text"
  | TVarchar (Some n) => "character varying(" ++ pretty n ++ ")"
  | TVarchar None => "character varying"
  | TChar (Some n) => "character(" ++ pretty n ++ ")"
  | TChar None => "character"
  | TBytea => "bytea"
  | TUuid => "uuid"
  | TDate => "date"
  | TTime => "time without time zone"
  | TTimestamp => "timestamp without time zone"
  | TTimestamptz => "timestamp with time zone"
  | TJson => "json"
  | TJsonb => "jsonb"
  | TArray inner => name inner ++ "[]"
  | TCitext => "citext"
  | TVector (Some n) => "vector(" ++ pretty n ++ ")"
  | TVector None => "vector"
  | THStore => "hstore"
  | TLtree => "ltree"
  | TCube => "cube"
  | TTsVector => "tsvector"
  | TTsQuery => "tsquery"
  | TUnknown => "unknown"
  end.

Definition information_schema_name (t : SqlType) : string :=
  match t with
  | TVarchar _ => "character varying"
  | TChar _ => "character"
  | TArray _ => "ARRAY"
  | other => name other
  end.

Fixpoint udt_name (t : SqlType) : string :=
  match t with
  | TBoolean => "bool"
  | TSmallInt => "int2"
  | TInteger => "int4"
  | TBigInt => "int8"
  | TReal => "float4"
  | TDoublePrecision => "float8"
  | TNumeric _ _ => "numeric"
  | TText => "text"
  | TVarchar _ => "varchar"
  | TChar _ => "bpchar"
  | TBytea => "bytea"
  | TUuid => "uuid"
  | TDate => "date"
  | TTime => "time"
  | TTimestamp => "timestamp"
  | TTimestamptz => "timestamptz"
  | TJson => "json"
  | TJsonb => "jsonb"
  | TArray inner => "_" ++ udt_name inner
  | TCitext => "citext"
  | TVector _ => "vector"
  | THStore => "hstore"
  | TLtree => "ltree"
  | TCube => "cube"
  | TTsVector => "tsvector"
  | TTsQuery => "tsquery"
  | TUnknown => "unknown"
  end.

Definition is_numeric (t : SqlType) : bool :=
  match t with
  | TSmallInt | TInteger | TBigInt | TReal | TDoublePrecision | TNumeric _ _ => true
  | _ => false
  end.
Definition is_integer (t : SqlType) : bool :=
  match t with TSmallInt | TInteger | TBigInt => true | _ => false end.
Definition is_string (t : SqlType) : bool :=
  match t with TText | TVarchar _ | TChar _ | TCitext => true | _ => false end.
Definition is_temporal (t : SqlType) : bool :=
  match t with TDate | TTime | TTimestamp | TTimestamptz => true | _ => false end.

(** The numbers among the comma-separated modifiers. *)
Definition parse_mods (modifiers : option string) : list N :=
  match modifiers with
  | Some m =>
      omap (fun x => Z.to_N <$> parse_int 0 u32_max (trim x)) (split (code ",") m)
  | None => []
  end.

(** A type name without an array suffix. *)
Definition parse_base (base : string) (m : list N) : res SqlType :=
  let named := fun names => bool_decide (base ∈ names) in
  if named ["bool"; "boolean"] then Ok TBoolean
  else if named ["int2"; "smallint"; "smallserial"; "serial2"] then Ok TSmallInt
  else if named ["int"; "int4"; "integer"; "serial"; "serial4"] then Ok TInteger
  else if named ["int8"; "bigint"; "bigserial"; "serial8"] then Ok TBigInt
  else if named ["real"; "float4"] then Ok TReal
  else if named ["double precision"; "float8"; "double"; "float"] then Ok TDoublePrecision
  else if named ["numeric"; "decimal"] then Ok (TNumeric (m !! 0) (m !! 1))
  else if named ["text"] then Ok TText
  else if named ["varchar"; "character varying"] then Ok (TVarchar (m !! 0))
  else if named ["char"; "character"; "bpchar"] then Ok (TChar (m !! 0))
  else if named ["bytea"] then Ok TBytea
  else if named ["uuid"] then Ok TUuid
  else if named ["date"] then Ok TDate
  else if named ["time"; "time without time zone"] then Ok TTime
  else if named ["timestamp"; "timestamp without time zone"] then Ok TTimestamp
  else if named ["timestamptz"; "timestamp with time zone"] then Ok TTimestamptz
  else if named ["json"] then Ok TJson
  else if named ["jsonb"] then Ok TJsonb
  else if named ["oid"; "regclass"; "regtype"; "regproc"; "regrole"; "regnamespace"; "xid"; "cid"]
  then Ok TInteger
  else if named ["name"] then Ok TText
  else if named ["citext"] then Ok TCitext
  else if named ["vector"] then Ok (TVector (m !! 0))
  else if named ["hstore"] then Ok THStore
  else if named ["ltree"] then Ok TLtree
  else if named ["cube"] then Ok TCube
  else if named ["tsvector"] then Ok TTsVector
  else if named ["tsquery"] then Ok TTsQuery
  else raise (UndefinedType base).

(** [SqlType::parse]; each array suffix takes two characters, which bounds the
    recursion. *)
Fixpoint parse_fuel (fuel : nat) (s : string) : res SqlType :=
  let lower := to_ascii_lowercase (replace_char 34 String.EmptyString (trim s)) in
  match fuel, strip_suffix "[]" lower with
  | S fuel, Some base => let? t := parse_fuel fuel base in Ok (TArray t)
  | _, _ =>
      match split_once (code "(") lower with
      | Some (b, rest) => parse_base (trim b) (parse_mods (Some (trim_end_matches (code ")") rest)))
      | None => parse_base lower []
      end
  end.

Definition parse (s : string) : res SqlType := parse_fuel (String.length s) s.

Definition is_serial_name (s : string) : option SqlType :=
  let w := to_ascii_lowercase (trim s) in
  if bool_decide (w ∈ ["smallserial"; "serial2"]) then Some TSmallInt
  else if bool_decide (w ∈ ["serial"; "serial4"]) then Some TInteger
  else if bool_decide (w ∈ ["bigserial"; "serial8"]) then Some TBigInt
  else None.
