(* ===== verification/Fts.v ===== *)
(** * Full-text search values

    [relational/fts.rs]: the [tsvector] and [tsquery] types, their text output and
    raw text input, and [@@] matching.  The parsers consume a list of characters;
    their loops have fuel for every character or token of the input, and
    [Panic] marks its exhaustion, which does not happen. *)

From S2P Require Import Prelude Utf8 RustString SqlTypes.

Definition MAX_POS : Z := 16383.
Definition MAX_NUM_POS : nat := 256.

(** One entry of a [tsvector]. *)
Record TsLexeme := { word : string; positions : list Z }.

Inductive TsQueryNode :=
| QLexeme (w : string)
| QNot (c : TsQueryNode)
| QAnd (a b : TsQueryNode)
| QOr (a b : TsQueryNode).

Fixpoint count_nodes (q : TsQueryNode) : Z :=
  match q with
  | QLexeme _ => 1
  | QNot c => 1 + count_nodes c
  | QAnd a b | QOr a b => 1 + count_nodes a + count_nodes b
  end.

Fixpoint lexemes (q : TsQueryNode) : list string :=
  match q with
  | QLexeme w => [w]
  | QNot c => lexemes c
  | QAnd a b | QOr a b => lexemes a ++ lexemes b
  end.

(** ** Normalisation *)

(** Merging entries with the same word that follow each other. *)
Fixpoint merge_words (out : list TsLexeme) (l : list (string * list Z)) : list TsLexeme :=
  match l with
  | [] => reverse out
  | (w, ps) :: l =>
      match out with
      | x :: out' =>
          if decide (word x = w)
          then merge_words ({| word := w; positions := positions x ++ ps |} :: out') l
          else merge_words ({| word := w; positions := ps |} :: out) l
      | [] => merge_words [{| word := w; positions := ps |}] l
      end
  end.

(** [dedup] removes consecutive repetitions. *)
Fixpoint dedup (l : list Z) : list Z :=
  match l with
  | x :: ((y :: _) as l') => if decide (x = y) then dedup l' else x :: dedup l'
  | _ => l
  end.

Definition clamp (p : Z) : Z := Z.max 1 (Z.min MAX_POS p).

Definition normalize_positions (ps : list Z) : list Z :=
  take MAX_NUM_POS (dedup (sort_by Z.compare (clamp <$> ps))).

Definition normalize_lexemes (raw : list (string * list Z)) : list TsLexeme :=
  (fun x => {| word := word x; positions := normalize_positions (positions x) |})
  <$> merge_words [] (sort_by (fun a b => String.compare a.1 b.1) raw).

(** [slice::binary_search_by] by word: the halves still to search are
    [left .. left + size). *)
Fixpoint search_word (l : list TsLexeme) (w : string) (left size fuel : nat) : bool :=
  match fuel, size with
  | S fuel, S _ =>
      let mid := left + size / 2 in
      match l !! mid with
      | Some x =>
          match String.compare (word x) w with
          | Eq => true
          | Lt => search_word l w (S mid) (left + size - S mid) fuel
          | Gt => search_word l w left (mid - left) fuel
          end
      | None => false
      end
  | _, _ => false
  end.

Definition has_word (l : list TsLexeme) (w : string) : bool :=
  search_word l w 0 (length l) (length l).

Fixpoint eval_match (l : list TsLexeme) (q : TsQueryNode) : bool :=
  match q with
  | QLexeme w => has_word l w
  | QNot c => negb (eval_match l c)
  | QAnd a b => eval_match l a && eval_match l b
  | QOr a b => eval_match l a || eval_match l b
  end.

(** ** Text output *)

Local Open Scope string_scope.

Definition quote_code : N := 39.
Definition backslash : N := 92.

Definition quote_lexeme (w : string) : string :=
  "'" ++ replace_char quote_code "''" (replace_char backslash "\\" w) ++ "'".

Definition format_lexeme (x : TsLexeme) : string :=
  quote_lexeme (word x) ++
  match positions x with
  | [] => String.EmptyString
  | ps => ":" ++ join "," (pretty <$> ps)
  end.

Definition format_tsvector (l : list TsLexeme) : string := join " " (format_lexeme <$> l).

Definition priority (q : TsQueryNode) : nat :=
  match q with QOr _ _ => 0 | QAnd _ _ => 1 | QNot _ => 3 | QLexeme _ => 255 end.

Definition wrap (parent : nat) (q : TsQueryNode) (s : string) : string :=
  if decide (priority q < parent) then "( " ++ s ++ " )" else s.

Fixpoint infix (q : TsQueryNode) (parent : nat) : string :=
  wrap parent q
    match q with
    | QLexeme w => quote_lexeme w
    | QNot c => "!" ++ infix c 3
    | QAnd a b => infix a 1 ++ " & " ++ infix b 1
    | QOr a b => infix a 0 ++ " | " ++ infix b 0
    end.

Definition format_tsquery (root : option TsQueryNode) : string :=
  match root with Some q => infix q 0 | None => String.EmptyString end.

(** ** Text input *)

Definition tsvector_syntax (input : string) : RelError :=
  Syntax ("syntax error in tsvector: " ++ dquote ++ input ++ dquote).
Definition tsquery_syntax (input : string) : RelError :=
  Syntax ("syntax error in tsquery: " ++ dquote ++ input ++ dquote).

(** The body of a quoted lexeme, up to its closing quote. *)
Fixpoint quoted_body (l : list N) : option (list N * list N) :=
  match l with
  | [] => None
  | c :: l =>
      if (c =? quote_code)%N then
        match l with
        | d :: l' =>
            if (d =? quote_code)%N
            then match quoted_body l' with Some (w, r) => Some (quote_code :: w, r) | None => None end
            else Some ([], l)
        | [] => Some ([], [])
        end
      else if (c =? backslash)%N then
        match l with
        | d :: l' => match quoted_body l' with Some (w, r) => Some (d :: w, r) | None => None end
        | [] => None
        end
      else match quoted_body l with Some (w, r) => Some (c :: w, r) | None => None end
  end.

(** A bare lexeme, up to white space or a stop character. *)
Fixpoint bare_body (stop : list N) (l : list N) : option (list N * list N) :=
  match l with
  | [] => Some ([], [])
  | c :: l' =>
      if (c =? backslash)%N then
        match l' with
        | d :: l'' => match bare_body stop l'' with Some (w, r) => Some (d :: w, r) | None => None end
        | [] => None
        end
      else if negb (is_whitespace c) && negb (bool_decide (c ∈ stop)) then
        match bare_body stop l' with Some (w, r) => Some (c :: w, r) | None => None end
      else Some ([], l)
  end.

Definition non_empty (t : option (list N * list N)) : option (string * list N) :=
  match t with
  | Some ([], _) | None => None
  | Some (w, r) => Some (of_chars w, r)
  end.

Definition lexeme_token (stop : list N) (l : list N) : option (string * list N) :=
  match l with
  | c :: l' => if (c =? quote_code)%N then non_empty (quoted_body l') else non_empty (bare_body stop l)
  | [] => None
  end.

Fixpoint digit_run (l : list N) : list N * list N :=
  match l with
  | c :: l' => if is_ascii_digit c then let (ds, r) := digit_run l' in (c :: ds, r) else ([], l)
  | [] => ([], [])
  end.

Definition weight_label (digits : list N) (c : N) : string :=
  "tsvector position weight labels (" ++ dquote ++ of_chars (digits ++ [c]) ++ dquote ++
  ") are not supported (setweight is out of the full-text-search subset)".

Definition weights : list N := code <$> ["A"; "a"; "B"; "b"; "C"; "c"].
Definition default_weights : list N := code <$> ["D"; "d"].

(** The weight after a position: the default one is skipped, the others are
    refused. *)
Definition skip_weight (digits l : list N) : res (list N) :=
  match l with
  | c :: l' =>
      if bool_decide (c ∈ weights) then raise (FeatureNotSupported (weight_label digits c))
      else if bool_decide (c ∈ default_weights) then Ok l' else Ok l
  | [] => Ok l
  end.

(** The positions after a colon. *)
Fixpoint parse_positions (input : string) (l : list N) (fuel : nat) : res (list Z * list N) :=
  match fuel with
  | 0 => Err Panic
  | S fuel =>
      let '(digits, l) := digit_run l in
      let? pos := ok_or (parse_int 0 u32_max (of_chars digits)) (tsvector_syntax input) in
      if decide (pos = 0)%Z then raise (tsvector_syntax input)
      else
        let p := Z.min pos MAX_POS in
        let? l := skip_weight digits l in
        match l with
        | [] => Ok ([p], [])
        | c :: l' =>
            if (c =? code ",")%N then
              let? (ps, r) := parse_positions input l' fuel in Ok (p :: ps, r)
            else if is_whitespace c then Ok ([p], l)
            else raise (tsvector_syntax input)
        end
  end.

Definition entry_positions (input : string) (l : list N) : res (list Z * list N) :=
  match l with
  | c :: l' => if (c =? code ":")%N then parse_positions input l' (S (length l')) else Ok ([], l)
  | [] => Ok ([], l)
  end.

Fixpoint parse_entries (input : string) (l : list N) (fuel : nat) : res (list (string * list Z)) :=
  match skip_while is_whitespace l, fuel with
  | [], _ => Ok []
  | _, 0 => Err Panic
  | l, S fuel =>
      let? (w, l) := ok_or (lexeme_token [code ":"] l) (tsvector_syntax input) in
      let? (ps, l) := entry_positions input l in
      let? rest := parse_entries input l fuel in
      Ok ((w, ps) :: rest)
  end.

Definition parse_tsvector (input : string) : res (list TsLexeme) :=
  let? raw := parse_entries input (chars input) (length (chars input)) in
  Ok (normalize_lexemes raw).

Inductive QTok :=
| TokOpen
| TokClose
| TokAnd
| TokOr
| TokNot
| TokLexeme (w : string).

Definition phrase_operator : string :=
  "the tsquery phrase operator <-> is not supported (position-aware " ++
  "phrase search is out of the full-text-search subset)".

(** The label after a lexeme of a query, none of which is supported. *)
Definition label_error (input : string) (l : list N) : RelError :=
  let is_label c := in_range 65 68 c || in_range 97 100 c || (c =? code "*")%N in
  let label := (fix go l := match l with
                            | c :: l => if is_label c then c :: go l else []
                            | [] => []
                            end) l in
  match label with
  | [] => tsquery_syntax input
  | _ =>
      if bool_decide (code "*" ∈ label)
      then FeatureNotSupported "tsquery prefix matching (:*) is not supported"
      else FeatureNotSupported
             ("tsquery weight restrictions (" ++ dquote ++ ":" ++ of_chars label ++ dquote ++
              ") are not supported (setweight is out of the full-text-search subset)")
  end.

Definition query_stops : list N := code <$> ["("; ")"; "&"; "|"; "!"; ":"; "<"].

Definition operator_token (c : N) : option QTok :=
  if (c =? code "(")%N then Some TokOpen
  else if (c =? code ")")%N then Some TokClose
  else if (c =? code "&")%N then Some TokAnd
  else if (c =? code "|")%N then Some TokOr
  else if (c =? code "!")%N then Some TokNot
  else None.

Fixpoint tsquery_tokens (input : string) (l : list N) (fuel : nat) : res (list QTok) :=
  match skip_while is_whitespace l, fuel with
  | [], _ => Ok []
  | _, 0 => Err Panic
  | (c :: l') as l, S fuel =>
      match operator_token c with
      | Some t => let? ts := tsquery_tokens input l' fuel in Ok (t :: ts)
      | None =>
          if (c =? code "<")%N then raise (FeatureNotSupported phrase_operator)
          else
            let? (w, l) := ok_or (lexeme_token query_stops l) (tsquery_syntax input) in
            if bool_decide (l !! 0 = Some (code ":")) then raise (label_error input (tail l))
            else let? ts := tsquery_tokens input l fuel in Ok (TokLexeme w :: ts)
      end
  end.

(** The grammar; a call consumes a token within three levels of recursion. *)
Section grammar.
Context (input : string).
Let syntax : RelError := tsquery_syntax input.

Fixpoint parse_or (fuel : nat) (ts : list QTok) : res (TsQueryNode * list QTok) :=
  match fuel with
  | 0 => Err Panic
  | S fuel => let? (a, ts) := parse_and fuel ts in or_loop fuel a ts
  end
with or_loop (fuel : nat) (a : TsQueryNode) (ts : list QTok) : res (TsQueryNode * list QTok) :=
  match fuel, ts with
  | 0, _ => Err Panic
  | S fuel, TokOr :: ts => let? (b, ts) := parse_and fuel ts in or_loop fuel (QOr a b) ts
  | _, _ => Ok (a, ts)
  end
with parse_and (fuel : nat) (ts : list QTok) : res (TsQueryNode * list QTok) :=
  match fuel with
  | 0 => Err Panic
  | S fuel => let? (a, ts) := parse_not fuel ts in and_loop fuel a ts
  end
with and_loop (fuel : nat) (a : TsQueryNode) (ts : list QTok) : res (TsQueryNode * list QTok) :=
  match fuel, ts with
  | 0, _ => Err Panic
  | S fuel, TokAnd :: ts => let? (b, ts) := parse_not fuel ts in and_loop fuel (QAnd a b) ts
  | _, _ => Ok (a, ts)
  end
with parse_not (fuel : nat) (ts : list QTok) : res (TsQueryNode * list QTok) :=
  match fuel, ts with
  | 0, _ => Err Panic
  | S fuel, TokNot :: ts => let? (c, ts) := parse_not fuel ts in Ok (QNot c, ts)
  | S fuel, TokOpen :: ts =>
      let? (q, ts) := parse_or fuel ts in
      match ts with
      | TokClose :: ts => Ok (q, ts)
      | _ => raise syntax
      end
  | S _, TokLexeme w :: ts => Ok (QLexeme w, ts)
  | S _, _ => raise syntax
  end.
End grammar.

Definition parse_fuel_for (ts : list QTok) : nat := 3 * length ts + 3.

Definition parse_tsquery (input : string) : res (option TsQueryNode) :=
  let? ts := tsquery_tokens input (chars input) (length (chars input)) in
  match ts with
  | [] => Ok None
  | _ =>
      let? (q, rest) := parse_or input (parse_fuel_for ts) ts in
      match rest with
      | [] => Ok (Some q)
      | _ => raise (tsquery_syntax input)
      end
  end.
