(* ===== verification/FtsInv.v ===== *)
(** * Full-text search values: theory

    What the text forms of [Fts] preserve: a [tsvector] is read back unchanged, a
    [tsquery] up to the nesting of chains of one operator, which matching does not
    see; the parsers never run out of fuel; the lookup of a word is exact. *)

From S2P Require Import Prelude Utf8 RustString SqlTypes Fts.

(** ** Sorted input *)

Lemma insert_tail_last {A} (cmp : A -> A -> comparison) x l :
  match l with y :: _ => cmp x y <> Lt | [] => True end -> insert_tail cmp x l = x :: l.
Proof.
  destruct l as [|y l]; simpl; [done|]. unfold is_less. by destruct (cmp x y).
Qed.

(** Sorting leaves an ascending list as it is. *)
Lemma sort_by_id {A} (cmp : A -> A -> comparison) (l : list A) :
  (forall x y, cmp x y = Lt -> cmp y x <> Lt) ->
  StronglySorted (fun x y => cmp x y = Lt) l -> sort_by cmp l = l.
Proof.
  intros Hanti Hs. unfold sort_by, sort_rev.
  enough (forall acc, match acc with y :: _ => Forall (fun x => cmp y x = Lt) l | [] => True end ->
    foldl (fun acc x => insert_tail cmp x acc) acc l = reverse l ++ acc) as H.
  { by rewrite H, app_nil_r, reverse_involutive. }
  induction Hs as [|x l Hs IH Hx]; intros acc Hacc; [done|]. simpl.
  rewrite insert_tail_last.
  - rewrite IH by done. by rewrite reverse_cons, <- app_assoc.
  - destruct acc as [|y acc]; [done|]. apply Forall_cons_1 in Hacc as [Hy _]. auto.
Qed.

Lemma total_asym {A} (cmp : A -> A -> comparison) x y : Total cmp -> cmp x y = Lt -> cmp y x <> Lt.
Proof. intros HT Hxy. rewrite (total_antisym _ _ HT y x) by done. by rewrite Hxy. Qed.

Lemma Z_compare_total : Total Z.compare.
Proof.
  split; intros x y **.
  - by rewrite Z.compare_antisym.
  - by apply Z.compare_eq.
  - rewrite Z.compare_lt_iff in *. lia.
Qed.

(** ** The text of a [tsvector] *)

(** Entries as [normalize_lexemes] leaves them. *)
Record lexeme_ok (x : TsLexeme) : Prop := {
  lexeme_utf8 : utf8 (word x);
  lexeme_word : word x <> String.EmptyString;
  lexeme_sorted : StronglySorted (fun a b => Z.compare a b = Lt) (positions x);
  lexeme_range : Forall (fun p => 1 <= p <= MAX_POS)%Z (positions x);
  lexeme_count : length (positions x) <= MAX_NUM_POS
}.

Record tsvector_ok (l : list TsLexeme) : Prop := {
  tsvector_words : StronglySorted (fun a b => String.compare (word a) (word b) = Lt) l;
  tsvector_lexemes : Forall lexeme_ok l
}.

Definition escape (l : list N) : list N :=
  replace_chars quote_code [quote_code; quote_code]
    (replace_chars backslash [backslash; backslash] l).

Lemma replace_chars_cons c r x l :
  replace_chars c r (x :: l) = (if (x =? c)%N then r else [x]) ++ replace_chars c r l.
Proof. done. Qed.

Lemma replace_chars_scalar c r l :
  Forall (fun c => scalar c = true) r -> Forall (fun c => scalar c = true) l ->
  Forall (fun c => scalar c = true) (replace_chars c r l).
Proof.
  intros Hr. induction 1 as [|x l Hx _ IH]; [constructor|]. rewrite replace_chars_cons.
  apply Forall_app. split; [|done]. destruct (x =? c)%N; [done|by repeat constructor].
Qed.

Lemma chars_replace c r s :
  utf8 r -> utf8 s -> chars (replace_char c r s) = replace_chars c (chars r) (chars s).
Proof. intros Hr Hs. unfold replace_char. apply chars_of_chars. by apply replace_chars_scalar. Qed.

Lemma utf8_replace c r s : utf8 r -> utf8 s -> utf8 (replace_char c r s).
Proof. intros Hr Hs. unfold replace_char. apply utf8_of_chars. by apply replace_chars_scalar. Qed.

(** Strings that are literals. *)
Ltac literal := apply ascii_utf8; unfold ascii_string; vm_compute; by repeat constructor.

Ltac utf8_text := repeat first [assumption | apply utf8_replace | apply utf8_app].

Lemma quote_lexeme_chars w :
  utf8 w -> utf8 (quote_lexeme w) /\ chars (quote_lexeme w) = quote_code :: escape (chars w) ++ [quote_code].
Proof.
  intros Hw. unfold quote_lexeme.
  assert (H1 : utf8 "'") by literal. assert (H2 : utf8 "''") by literal.
  assert (H3 : utf8 "\\") by literal.
  assert (Hr : utf8 (replace_char backslash "\\" w)) by by apply utf8_replace.
  split; [utf8_text|].
  rewrite !chars_app by (try apply utf8_replace; done).
  by rewrite !chars_replace by (try apply utf8_replace; done).
Qed.

Lemma escape_cons x l :
  escape (x :: l) =
  (if (x =? backslash)%N then [backslash; backslash]
   else if (x =? quote_code)%N then [quote_code; quote_code] else [x]) ++ escape l.
Proof.
  unfold escape. rewrite replace_chars_cons. destruct (x =? backslash)%N; [done|].
  cbn [app]. by rewrite replace_chars_cons.
Qed.

(** The lexer undoes the quoting. *)
Lemma quoted_body_escape l r :
  match r with c :: _ => c <> quote_code | [] => True end ->
  quoted_body (escape l ++ quote_code :: r) = Some (l, r).
Proof.
  intros Hr. induction l as [|x l IH].
  { simpl. destruct r as [|c r]; [done|]. by rewrite (proj2 (N.eqb_neq _ _)). }
  rewrite escape_cons. destruct (x =? backslash)%N eqn:Eb; [|destruct (x =? quote_code)%N eqn:Eq].
  - apply N.eqb_eq in Eb as ->. cbn -[escape]. by rewrite IH.
  - apply N.eqb_eq in Eq as ->. cbn -[escape]. by rewrite IH.
  - cbn -[escape]. by rewrite Eq, Eb, IH.
Qed.

Lemma lexeme_token_quoted stop w r :
  w <> String.EmptyString -> match r with c :: _ => c <> quote_code | [] => True end ->
  lexeme_token stop (quote_code :: escape (chars w) ++ quote_code :: r) = Some (w, r).
Proof.
  intros Hw Hr. cbn [lexeme_token]. rewrite N.eqb_refl, quoted_body_escape by done.
  unfold non_empty. destruct (chars w) as [|c l] eqn:E.
  - destruct Hw. by apply chars_inj.
  - by rewrite <- E, of_chars_chars.
Qed.

(** Positions, with the commas between them. *)
Fixpoint position_chars (ps : list Z) : list N :=
  match ps with
  | [] => []
  | [p] => chars (pretty p)
  | p :: ps => chars (pretty p) ++ code "," :: position_chars ps
  end.

Definition lexeme_chars (x : TsLexeme) : list N :=
  quote_code :: escape (chars (word x)) ++
  quote_code :: match positions x with [] => [] | ps => code ":" :: position_chars ps end.

Lemma pretty_position_utf8 (p : Z) : (0 <= p)%Z -> utf8 (pretty p).
Proof.
  intros Hp. rewrite pretty_Z_nonneg by done. unfold utf8. apply digits_scalar.
  apply pretty_N_digits.
Qed.

Lemma join_positions ps :
  Forall (fun p => 0 <= p)%Z ps ->
  utf8 (join "," (pretty <$> ps)) /\ chars (join "," (pretty <$> ps)) = position_chars ps.
Proof.
  assert (Hc : utf8 ",") by literal.
  induction 1 as [|p ps Hp Hps [IH1 IH2]]; [split; [constructor|done]|].
  apply pretty_position_utf8 in Hp. destruct ps as [|q ps]; [done|].
  change (join "," (pretty <$> p :: q :: ps))
    with (pretty p ++ "," ++ join "," (pretty <$> q :: ps))%string.
  split; [utf8_text|]. rewrite !chars_app by done. by rewrite IH2.
Qed.

Lemma format_lexeme_chars x :
  lexeme_ok x -> utf8 (format_lexeme x) /\ chars (format_lexeme x) = lexeme_chars x.
Proof.
  intros Hx. destruct (quote_lexeme_chars (word x) (lexeme_utf8 _ Hx)) as [Hq Hqc].
  unfold format_lexeme, lexeme_chars. pose proof (lexeme_range _ Hx) as Hr.
  destruct (positions x) as [|p ps] eqn:E.
  { by rewrite append_nil_r. }
  assert (Hc : utf8 ":") by literal.
  destruct (join_positions (p :: ps)) as [Hj Hjc].
  { eapply Forall_impl; [exact Hr|]. simpl. lia. }
  split; [utf8_text|]. rewrite !chars_app by done. rewrite Hqc, Hjc. simpl.
  by rewrite <- app_assoc.
Qed.

Lemma digit_run_digits ds r :
  digits ds -> match r with c :: _ => is_ascii_digit c = false | [] => True end ->
  digit_run (ds ++ r) = (ds, r).
Proof.
  intros Hd Hr. induction Hd as [|c ds Hc _ IH]; simpl.
  - destruct r as [|c r]; [done|]. simpl. by rewrite Hr.
  - by rewrite Hc, IH.
Qed.

(** What may follow the positions of an entry. *)
Definition entry_end (r : list N) : Prop :=
  match r with c :: _ => c = 32%N | [] => True end.

Lemma position_run p r :
  (1 <= p <= MAX_POS)%Z -> match r with c :: _ => is_ascii_digit c = false | [] => True end ->
  digit_run (chars (pretty p) ++ r) = (chars (pretty p), r) /\
  parse_int 0 u32_max (of_chars (chars (pretty p))) = Some p.
Proof.
  intros Hp Hr. split.
  - apply digit_run_digits; [|done]. rewrite pretty_Z_nonneg by lia. apply pretty_N_digits.
  - rewrite of_chars_chars. apply parse_int_pretty; [lia|]. unfold MAX_POS, u32_max in *. lia.
Qed.

Lemma parse_positions_chars input ps r fuel :
  ps <> [] -> Forall (fun p => 1 <= p <= MAX_POS)%Z ps -> entry_end r -> length ps <= fuel ->
  parse_positions input (position_chars ps ++ r) fuel = Ok (ps, r).
Proof.
  intros Hne Hps Hr. revert fuel. induction Hps as [|p ps Hp Hps IH]; [done|].
  intros [|fuel] Hf; [simpl in Hf; lia|]. simpl in Hf.
  destruct ps as [|q ps].
  - destruct (position_run p r Hp) as [H1 H2].
    { destruct r as [|c r]; [done|]. by rewrite Hr. }
    cbn [parse_positions position_chars]. rewrite H1. cbv beta iota. rewrite H2. cbn [ok_or].
    rewrite decide_False by lia. rewrite Z.min_l by lia. unfold skip_weight.
    destruct r as [|c r]; [done|]. by rewrite Hr.
  - change (position_chars (p :: q :: ps))
      with (chars (pretty p) ++ code "," :: position_chars (q :: ps)).
    rewrite <- app_assoc. cbn [app].
    destruct (position_run p (code "," :: position_chars (q :: ps) ++ r) Hp) as [H1 H2]; [done|].
    cbn [parse_positions]. rewrite H1. cbv beta iota. rewrite H2. cbn [ok_or].
    rewrite decide_False by lia. rewrite Z.min_l by lia.
    change (skip_weight (chars (pretty p)) (code "," :: position_chars (q :: ps) ++ r))
      with (@Ok Fault _ (code "," :: position_chars (q :: ps) ++ r)).
    cbv beta iota. rewrite N.eqb_refl. by rewrite IH by (done || lia).
Qed.

Lemma position_chars_length ps : length ps <= S (length (position_chars ps)).
Proof.
  induction ps as [|p [|q ps] IH]; simpl; [lia|lia|]. rewrite length_app. simpl in *. lia.
Qed.

(** One entry is read back. *)
Lemma parse_entry input x r fuel :
  lexeme_ok x -> entry_end r ->
  parse_entries input (lexeme_chars x ++ r) (S fuel) =
  (let? rest := parse_entries input r fuel in Ok ((word x, positions x) :: rest)).
Proof.
  intros Hx Hr. unfold lexeme_chars. cbn [app]. rewrite <- app_assoc. cbn [app].
  set (ps := match positions x with [] => [] | _ => _ end).
  cbn [parse_entries]. rewrite skip_while_false by done.
  rewrite lexeme_token_quoted.
  2: apply Hx.
  2:{ unfold ps. destruct (positions x); [|done]. destruct r as [|c r]; [done|].
      cbn in *. by subst c. }
  cbn [ok_or]. unfold entry_positions, ps. pose proof (lexeme_range _ Hx) as Hp.
  destruct (positions x) as [|p qs] eqn:E.
  - destruct r as [|c r]; [done|]. unfold entry_end in Hr. subst c. done.
  - cbn [app]. rewrite N.eqb_refl.
    rewrite parse_positions_chars; [done|done|done|done|].
    rewrite length_app. pose proof (position_chars_length (p :: qs)). lia.
Qed.

Lemma parse_entries_space input r fuel :
  parse_entries input (32%N :: r) fuel = parse_entries input r fuel.
Proof. by destruct fuel. Qed.

Definition entries_chars (l : list TsLexeme) : list N :=
  (fix go l := match l with
               | [] => []
               | [x] => lexeme_chars x
               | x :: l => lexeme_chars x ++ 32%N :: go l
               end) l.

Lemma format_tsvector_chars l :
  Forall lexeme_ok l -> utf8 (format_tsvector l) /\ chars (format_tsvector l) = entries_chars l.
Proof.
  assert (Hs : utf8 " ") by literal. unfold format_tsvector.
  induction 1 as [|x l Hx _ [IH1 IH2]]; [split; [constructor|done]|].
  destruct (format_lexeme_chars x Hx) as [H1 H2]. destruct l as [|y l]; [done|].
  change (join " " (format_lexeme <$> x :: y :: l))
    with (format_lexeme x ++ " " ++ join " " (format_lexeme <$> y :: l))%string.
  split; [utf8_text|]. rewrite !chars_app by done. by rewrite H2, IH2.
Qed.

Lemma parse_entries_chars input l fuel :
  Forall lexeme_ok l -> length l <= fuel ->
  parse_entries input (entries_chars l) fuel = Ok ((fun x => (word x, positions x)) <$> l).
Proof.
  intros Hl. revert fuel. induction Hl as [|x l Hx Hl IH]; intros fuel Hf; [by destruct fuel|].
  destruct fuel as [|fuel]; [simpl in Hf; lia|]. destruct l as [|y l].
  - change (entries_chars [x]) with (lexeme_chars x). rewrite <- (app_nil_r (lexeme_chars x)).
    rewrite parse_entry by done. by destruct fuel.
  - change (entries_chars (x :: y :: l)) with (lexeme_chars x ++ 32%N :: entries_chars (y :: l)).
    rewrite parse_entry by done. rewrite parse_entries_space, IH by (simpl in *; lia). done.
Qed.

Lemma entries_chars_length l : length l <= length (entries_chars l).
Proof.
  induction l as [|x [|y l] IH]; [done|simpl; lia|].
  change (entries_chars (x :: y :: l)) with (lexeme_chars x ++ 32%N :: entries_chars (y :: l)).
  rewrite length_app. simpl in *. lia.
Qed.

(** ** Normalisation keeps what is already normal *)

Lemma merge_words_id out l :
  StronglySorted (fun a b => String.compare a.1 b.1 = Lt) l ->
  match out, l with x :: _, (w, _) :: _ => word x <> w | _, _ => True end ->
  merge_words out l = reverse out ++ ((fun p => {| word := p.1; positions := p.2 |}) <$> l).
Proof.
  intros Hs. revert out. induction Hs as [|[w ps] l Hs IH Hw]; intros out Hout; simpl.
  { by rewrite app_nil_r. }
  assert (Hnext : match l with (w', _) :: _ => w <> w' | [] => True end).
  { destruct l as [|[w' ps'] l]; [done|]. apply Forall_cons_1 in Hw as [Hw _]. simpl in Hw.
    intros ->. rewrite (total_refl _ _ w' string_compare_total I) in Hw. done. }
  destruct out as [|x out]; [by rewrite IH|]. rewrite decide_False by done.
  rewrite IH by done. by rewrite (reverse_cons (x :: out)), <- app_assoc.
Qed.

Lemma dedup_id l : StronglySorted (fun a b => Z.compare a b = Lt) l -> dedup l = l.
Proof.
  induction 1 as [|x l _ IH Hx]; [done|]. destruct l as [|y l]; [done|].
  apply Forall_cons_1 in Hx as [Hxy _]. cbn [dedup]. cbn [dedup] in IH.
  rewrite decide_False by (intros ->; by rewrite Z.compare_refl in Hxy). by f_equal.
Qed.

Lemma normalize_positions_id x : lexeme_ok x -> normalize_positions (positions x) = positions x.
Proof.
  intros Hx. unfold normalize_positions.
  assert (clamp <$> positions x = positions x) as ->.
  { pose proof (lexeme_range _ Hx) as Hr. induction Hr as [|p ps Hp _ IH]; [done|].
    rewrite fmap_cons, IH. f_equal. unfold clamp. lia. }
  rewrite sort_by_id by first [apply Hx|intros; by eapply total_asym; [apply Z_compare_total|]].
  rewrite dedup_id by apply Hx. apply take_ge, Hx.
Qed.

Lemma normalize_id l :
  tsvector_ok l -> normalize_lexemes ((fun x => (word x, positions x)) <$> l) = l.
Proof.
  intros [Hs Hl]. unfold normalize_lexemes.
  assert (Hs' : StronglySorted (fun a b => String.compare a.1 b.1 = Lt)
                  ((fun x => (word x, positions x)) <$> l)).
  { clear Hl. induction Hs as [|x l _ IH Hx]; constructor; [done|].
    apply Forall_fmap. eapply Forall_impl; [exact Hx|done]. }
  rewrite sort_by_id; [|intros ? ?; apply (total_asym String.compare), string_compare_total|done].
  rewrite merge_words_id; [|done|done]. rewrite reverse_nil, app_nil_l, <- !list_fmap_compose.
  clear Hs Hs'. induction Hl as [|x l Hx _ IH]; [done|]. rewrite fmap_cons, IH. f_equal.
  simpl. rewrite normalize_positions_id by done. by destruct x.
Qed.

(** A [tsvector] is read back from its text unchanged. *)
Lemma tsvector_read_back l : tsvector_ok l -> parse_tsvector (format_tsvector l) = Ok l.
Proof.
  intros Hl. unfold parse_tsvector.
  destruct (format_tsvector_chars l (tsvector_lexemes _ Hl)) as [_ ->].
  rewrite parse_entries_chars by (try apply Hl; apply entries_chars_length). cbv beta iota.
  by rewrite normalize_id.
Qed.

(** ** The text of a [tsquery] *)

(** The query that reading a text back gives: chains of one operator are nested
    to the left. *)
Fixpoint and_append (x y : TsQueryNode) : TsQueryNode :=
  match y with
  | QAnd a b => QAnd (and_append x a) b
  | _ => QAnd x y
  end.

Fixpoint or_append (x y : TsQueryNode) : TsQueryNode :=
  match y with
  | QOr a b => QOr (or_append x a) b
  | _ => QOr x y
  end.

Fixpoint nest (q : TsQueryNode) : TsQueryNode :=
  match q with
  | QLexeme w => QLexeme w
  | QNot c => QNot (nest c)
  | QAnd a b => and_append (nest a) (nest b)
  | QOr a b => or_append (nest a) (nest b)
  end.

Lemma eval_nest l q : eval_match l (nest q) = eval_match l q.
Proof.
  assert (Ha : forall x y, eval_match l (and_append x y) = eval_match l x && eval_match l y).
  { intros x y. induction y; simpl; try done. by rewrite IHy1, andb_assoc. }
  assert (Ho : forall x y, eval_match l (or_append x y) = eval_match l x || eval_match l y).
  { intros x y. induction y; simpl; try done. by rewrite IHy1, orb_assoc. }
  induction q; simpl; rewrite ?Ha, ?Ho; congruence.
Qed.

Lemma and_append_assoc x y z : and_append (and_append x y) z = and_append x (and_append y z).
Proof. induction z; simpl; congruence. Qed.

Lemma or_append_assoc x y z : or_append (or_append x y) z = or_append x (or_append y z).
Proof. induction z; simpl; congruence. Qed.

Lemma and_append_priority x y : priority (and_append x y) = 1.
Proof. by destruct y. Qed.

Lemma or_append_priority x y : priority (or_append x y) = 0.
Proof. by destruct y. Qed.

Lemma and_append_other x y : priority y <> 1 -> and_append x y = QAnd x y.
Proof. by destruct y. Qed.

Lemma or_append_other x y : priority y <> 0 -> or_append x y = QOr x y.
Proof. by destruct y. Qed.

Lemma nest_priority q : priority (nest q) = priority q.
Proof. destruct q; simpl; auto using and_append_priority, or_append_priority. Qed.

(** Lexemes that have a text. *)
Definition query_ok (q : TsQueryNode) : Prop :=
  Forall (fun w => utf8 w /\ w <> String.EmptyString) (lexemes q).

(** The tokens of the text. *)
Definition wrap_tokens (parent : nat) (q : TsQueryNode) (ts : list QTok) : list QTok :=
  if decide (priority q < parent) then TokOpen :: ts ++ [TokClose] else ts.

Fixpoint tokens (q : TsQueryNode) (parent : nat) : list QTok :=
  wrap_tokens parent q
    match q with
    | QLexeme w => [TokLexeme w]
    | QNot c => TokNot :: tokens c 3
    | QAnd a b => tokens a 1 ++ TokAnd :: tokens b 1
    | QOr a b => tokens a 0 ++ TokOr :: tokens b 0
    end.

Lemma tokens_wrap q p : tokens q p = wrap_tokens p q (tokens q 0).
Proof. destruct q; simpl; unfold wrap_tokens; simpl; repeat case_decide; done || lia. Qed.

Lemma infix_wrap q p : infix q p = wrap p q (infix q 0).
Proof. destruct q; simpl; unfold wrap; simpl; repeat case_decide; done || lia. Qed.

Lemma tsquery_tokens_space input r fuel :
  tsquery_tokens input (32%N :: r) fuel = tsquery_tokens input r fuel.
Proof. by destruct fuel. Qed.

(** [lexes s ts]: in front of a rest that starts with a space or is empty, the
    text [s] is read as the tokens [ts]. *)
Definition lexes (s : string) (ts : list QTok) : Prop :=
  utf8 s /\ length ts <= length (chars s) /\ forall input r fuel, entry_end r ->
    tsquery_tokens input (chars s ++ r) (length ts + fuel) =
    (let? rest := tsquery_tokens input r fuel in Ok (ts ++ rest)).

Lemma lexes_operator input c t r fuel :
  is_whitespace c = false -> operator_token c = Some t ->
  tsquery_tokens input (c :: r) (S fuel) =
  (let? rest := tsquery_tokens input r fuel in Ok (t :: rest)).
Proof. intros Hw Ht. cbn [tsquery_tokens]. rewrite skip_while_false by done. by rewrite Ht. Qed.

Lemma lexes_lexeme w : utf8 w -> w <> String.EmptyString -> lexes (quote_lexeme w) [TokLexeme w].
Proof.
  intros Hw Hne. destruct (quote_lexeme_chars w Hw) as [Hu Hc].
  split; [done|]. rewrite Hc. split; [simpl; lia|]. intros input r fuel Hr. cbn [app length Nat.add]. rewrite <- app_assoc. cbn [app].
  cbn [tsquery_tokens]. rewrite skip_while_false by done.
  change (operator_token quote_code) with (@None QTok). cbv iota.
  replace (quote_code =? code "<")%N with false by done.
  rewrite lexeme_token_quoted; [|done|by destruct r as [|c r]; [|unfold entry_end in Hr; subst c]].
  cbn [ok_or]. rewrite bool_decide_eq_false_2; [done|].
  destruct r as [|c r]; [done|]. unfold entry_end in Hr. by subst c.
Qed.

(** Texts joined by an operator between spaces. *)
Lemma lexes_binary s1 s2 ts1 ts2 op t :
  lexes s1 ts1 -> lexes s2 ts2 -> utf8 op -> (exists c, chars op = [c] /\ is_whitespace c = false /\
    operator_token c = Some t) ->
  lexes (s1 ++ (" " ++ op ++ " ") ++ s2) (ts1 ++ t :: ts2).
Proof.
  intros (U1 & L1 & H1) (U2 & L2 & H2) Uo (c & Hc & Hw & Ht). assert (Us : utf8 " ") by literal.
  split; [utf8_text|]. rewrite !chars_app by utf8_text. rewrite Hc. change (chars " ") with [32%N].
  split; [rewrite !length_app; simpl; lia|]. intros input r fuel Hr.
  rewrite length_app. cbn [length]. rewrite <- !app_assoc, <- Nat.add_assoc. cbn [app Nat.add].
  rewrite H1 by done. rewrite tsquery_tokens_space, (lexes_operator _ _ t) by done.
  rewrite tsquery_tokens_space, H2 by done.
  destruct (tsquery_tokens input r fuel); [|done]. by rewrite <- app_assoc.
Qed.

Lemma lexes_wrap q p s ts : lexes s ts -> lexes (wrap p q s) (wrap_tokens p q ts).
Proof.
  intros H. unfold wrap, wrap_tokens. case_decide; [|done]. destruct H as (U & L & H).
  assert (U1 : utf8 "( ") by literal. assert (U2 : utf8 " )") by literal.
  split; [utf8_text|]. rewrite !chars_app by utf8_text.
  change (chars "( ") with [code "("; 32%N]. change (chars " )") with [32%N; code ")"].
  split; [simpl; rewrite !length_app; simpl; lia|]. intros input r fuel Hr.
  cbn [length app]. rewrite length_app. cbn [length]. rewrite <- !app_assoc. cbn [app].
  cbn [Nat.add]. rewrite (lexes_operator _ _ TokOpen) by done.
  rewrite tsquery_tokens_space, <- Nat.add_assoc, H by done. cbn [Nat.add].
  rewrite tsquery_tokens_space, (lexes_operator _ _ TokClose) by done.
  destruct (tsquery_tokens input r fuel); [|done]. by rewrite <- app_assoc.
Qed.

Lemma infix_lexes q p : query_ok q -> lexes (infix q p) (tokens q p).
Proof.
  unfold query_ok. revert p. induction q as [w|c IH|a IHa b IHb|a IHa b IHb]; intros p Hq;
    cbn [infix tokens]; apply lexes_wrap; simpl in Hq.
  - apply Forall_singleton in Hq as [? ?]. by apply lexes_lexeme.
  - destruct (IH 3 Hq) as (U & L & H). assert (U1 : utf8 "!") by literal. split; [utf8_text|].
    rewrite chars_app by done. change (chars "!") with [code "!"].
    split; [simpl; lia|]. intros input r fuel Hr.
    cbn [app length Nat.add]. rewrite (lexes_operator _ _ TokNot) by done. rewrite H by done.
    by destruct (tsquery_tokens input r fuel).
  - apply Forall_app in Hq as [Ha Hb]. apply (lexes_binary _ _ _ _ "&"); [by apply IHa|by apply IHb|literal|].
    by exists (code "&").
  - apply Forall_app in Hq as [Ha Hb]. apply (lexes_binary _ _ _ _ "|"); [by apply IHa|by apply IHb|literal|].
    by exists (code "|").
Qed.

(** ** The grammar *)

(** More fuel changes only an exhausted run. *)
Definition extends {A} (r r' : res A) : Prop := r = Err Panic \/ r' = r.

Lemma extends_refl {A} (r : res A) : extends r r.
Proof. by right. Qed.

(** The parsers of fuel [f] against those of fuel [f']. *)
Definition fuel_extends (input : string) (f f' : nat) : Prop :=
  (forall ts, extends (parse_or input f ts) (parse_or input f' ts)) /\
  (forall a ts, extends (or_loop input f a ts) (or_loop input f' a ts)) /\
  (forall ts, extends (parse_and input f ts) (parse_and input f' ts)) /\
  (forall a ts, extends (and_loop input f a ts) (and_loop input f' a ts)) /\
  (forall ts, extends (parse_not input f ts) (parse_not input f' ts)).

(** The first call of a body is extended: either it is exhausted, or both
    bodies go on with the same result. *)
Ltac extend_call H :=
  let E := fresh in
  destruct H as [E|E]; rewrite E; [by left|];
  match goal with
  | |- extends (match ?m with _ => _ end) _ => destruct m as [[? ?]|]; [|apply extends_refl]
  end.

Lemma fuel_extends_step input f f' : fuel_extends input f f' -> fuel_extends input (S f) (S f').
Proof.
  intros (IH1 & IH2 & IH3 & IH4 & IH5). split_and!; intros.
  - simpl. extend_call (IH3 ts). apply IH2.
  - destruct ts as [|[] ts]; try apply extends_refl. simpl. extend_call (IH3 ts). apply IH2.
  - simpl. extend_call (IH5 ts). apply IH4.
  - destruct ts as [|[] ts]; try apply extends_refl. simpl. extend_call (IH5 ts). apply IH4.
  - destruct ts as [|[] ts]; try apply extends_refl; simpl.
    + extend_call (IH1 ts). apply extends_refl.
    + extend_call (IH5 ts). apply extends_refl.
Qed.

Lemma fuel_extends_le input f f' : f <= f' -> fuel_extends input f f'.
Proof.
  revert f'. induction f as [|f IH]; intros f' Hf.
  - split_and!; intros; by left.
  - destruct f' as [|f']; [lia|]. apply fuel_extends_step, IH. lia.
Qed.

(** Enough fuel: one unit for every token and every level of the grammar. *)
Definition ends {A} (r : res A) : Prop := r <> Err Panic.

(** The rest of a successful run is not longer than its input. *)
Definition shrinks (ts : list QTok) (k : nat) (r : res (TsQueryNode * list QTok)) : Prop :=
  match r with
  | Ok (_, ts') => length ts' + k <= length ts
  | Err e => e <> Panic
  end.

Lemma shrinks_mono ts ts' k k' r :
  length ts' + k' <= length ts + k -> shrinks ts' k r -> shrinks ts k' r.
Proof. intros Hl. destruct r as [[q r]|e]; simpl; [lia|done]. Qed.

Lemma parse_enough_fuel input f :
  (forall ts, 3 * length ts + 3 <= f -> shrinks ts 1 (parse_or input f ts)) /\
  (forall a ts, 3 * length ts + 1 <= f -> shrinks ts 0 (or_loop input f a ts)) /\
  (forall ts, 3 * length ts + 2 <= f -> shrinks ts 1 (parse_and input f ts)) /\
  (forall a ts, 3 * length ts + 1 <= f -> shrinks ts 0 (and_loop input f a ts)) /\
  (forall ts, 3 * length ts + 1 <= f -> shrinks ts 1 (parse_not input f ts)).
Proof.
  induction f as [|f (IH1 & IH2 & IH3 & IH4 & IH5)]; [split_and!; intros; lia|].
  split_and!.
  - intros ts Hf. simpl. specialize (IH3 ts ltac:(lia)).
    destruct (parse_and input f ts) as [[a r]|e]; simpl in IH3; [|done].
    eapply shrinks_mono; [|apply IH2; lia]. lia.
  - intros a [|[] ts] Hf; simpl; try lia. simpl in Hf. specialize (IH3 ts ltac:(lia)).
    destruct (parse_and input f ts) as [[b r]|e]; simpl in IH3; [|done].
    eapply shrinks_mono; [|apply IH2; lia]. simpl. lia.
  - intros ts Hf. simpl. specialize (IH5 ts ltac:(lia)).
    destruct (parse_not input f ts) as [[a r]|e]; simpl in IH5; [|done].
    eapply shrinks_mono; [|apply IH4; lia]. lia.
  - intros a [|[] ts] Hf; simpl; try lia. simpl in Hf. specialize (IH5 ts ltac:(lia)).
    destruct (parse_not input f ts) as [[b r]|e]; simpl in IH5; [|done].
    eapply shrinks_mono; [|apply IH4; lia]. simpl. lia.
  - intros [|[] ts] Hf; simpl; try done; try lia; simpl in Hf.
    + specialize (IH1 ts ltac:(lia)). destruct (parse_or input f ts) as [[q [|[] r]]|e]; simpl in *; done || lia.
    + specialize (IH5 ts ltac:(lia)). destruct (parse_not input f ts) as [[q r]|e]; simpl in *; done || lia.
Qed.

Section runs.
Context (input : string).
Implicit Types (ts r : list QTok) (out : TsQueryNode * list QTok).

(** A run with some fuel succeeds. *)
Definition runs_or ts out : Prop := exists f, parse_or input f ts = Ok out.
Definition runs_or_loop a ts out : Prop := exists f, or_loop input f a ts = Ok out.
Definition runs_and ts out : Prop := exists f, parse_and input f ts = Ok out.
Definition runs_and_loop a ts out : Prop := exists f, and_loop input f a ts = Ok out.
Definition runs_not ts out : Prop := exists f, parse_not input f ts = Ok out.

Lemma extends_ok {A} (r r' : res A) x : extends r r' -> r = Ok x -> r' = Ok x.
Proof. intros [->| ->]; done. Qed.

Lemma or_loop_ok f f' a ts x :
  f <= f' -> or_loop input f a ts = Ok x -> or_loop input f' a ts = Ok x.
Proof. intros (_ & H & _)%(fuel_extends_le input). by apply extends_ok. Qed.
Lemma parse_and_ok f f' ts x :
  f <= f' -> parse_and input f ts = Ok x -> parse_and input f' ts = Ok x.
Proof. intros (_ & _ & H & _)%(fuel_extends_le input). by apply extends_ok. Qed.
Lemma and_loop_ok f f' a ts x :
  f <= f' -> and_loop input f a ts = Ok x -> and_loop input f' a ts = Ok x.
Proof. intros (_ & _ & _ & H & _)%(fuel_extends_le input). by apply extends_ok. Qed.
Lemma parse_not_ok f f' ts x :
  f <= f' -> parse_not input f ts = Ok x -> parse_not input f' ts = Ok x.
Proof. intros (_ & _ & _ & _ & H)%(fuel_extends_le input). by apply extends_ok. Qed.

Lemma runs_or_intro ts a r out : runs_and ts (a, r) -> runs_or_loop a r out -> runs_or ts out.
Proof.
  intros [f1 H1] [f2 H2]. exists (S (f1 + f2)). simpl.
  rewrite (parse_and_ok f1 (f1 + f2) _ _ ltac:(lia) H1). apply (or_loop_ok f2); [lia|done].
Qed.

Lemma runs_or_loop_intro a ts b r out :
  runs_and ts (b, r) -> runs_or_loop (QOr a b) r out -> runs_or_loop a (TokOr :: ts) out.
Proof.
  intros [f1 H1] [f2 H2]. exists (S (f1 + f2)). simpl.
  rewrite (parse_and_ok f1 (f1 + f2) _ _ ltac:(lia) H1). apply (or_loop_ok f2); [lia|done].
Qed.

Lemma runs_and_intro ts a r out : runs_not ts (a, r) -> runs_and_loop a r out -> runs_and ts out.
Proof.
  intros [f1 H1] [f2 H2]. exists (S (f1 + f2)). simpl.
  rewrite (parse_not_ok f1 (f1 + f2) _ _ ltac:(lia) H1). apply (and_loop_ok f2); [lia|done].
Qed.

Lemma runs_and_loop_intro a ts b r out :
  runs_not ts (b, r) -> runs_and_loop (QAnd a b) r out -> runs_and_loop a (TokAnd :: ts) out.
Proof.
  intros [f1 H1] [f2 H2]. exists (S (f1 + f2)). simpl.
  rewrite (parse_not_ok f1 (f1 + f2) _ _ ltac:(lia) H1). apply (and_loop_ok f2); [lia|done].
Qed.

Lemma runs_or_loop_done a r : r !! 0 <> Some TokOr -> runs_or_loop a r (a, r).
Proof. intros Hr. exists 1. destruct r as [|[] r]; first [done | by destruct Hr]. Qed.

Lemma runs_and_loop_done a r : r !! 0 <> Some TokAnd -> runs_and_loop a r (a, r).
Proof. intros Hr. exists 1. destruct r as [|[] r]; first [done | by destruct Hr]. Qed.

Lemma runs_not_wrapped q ts r : runs_or (ts ++ TokClose :: r) (q, TokClose :: r) ->
  runs_not (TokOpen :: ts ++ TokClose :: r) (q, r).
Proof. intros [f H]. exists (S f). simpl. by rewrite H. Qed.

(** Where the text of [q] stands at each level, the parser of that level reads
    [nest q]; behind an operator it joins it to what was read before. *)
Definition reads_not q : Prop := forall r, runs_not (tokens q 3 ++ r) (nest q, r).
Definition reads_and q : Prop := forall r out,
  (runs_and_loop (nest q) r out -> runs_and (tokens q 1 ++ r) out) /\
  (forall a, runs_and_loop (and_append a (nest q)) r out ->
    runs_and_loop a (TokAnd :: tokens q 1 ++ r) out).
Definition reads_or q : Prop := forall r out, r !! 0 <> Some TokAnd ->
  (runs_or_loop (nest q) r out -> runs_or (tokens q 0 ++ r) out) /\
  (forall a, runs_or_loop (or_append a (nest q)) r out ->
    runs_or_loop a (TokOr :: tokens q 0 ++ r) out).

(** A query that the innermost parser reads is read by the one above it. *)
Lemma reads_and_of_not q :
  tokens q 1 = tokens q 3 -> priority q <> 1 -> reads_not q -> reads_and q.
Proof.
  intros Ht Hq Hn r out. rewrite Ht. split.
  - intros H. by eapply runs_and_intro; [apply Hn|].
  - intros a H. eapply runs_and_loop_intro; [apply Hn|].
    by rewrite and_append_other in H by by rewrite nest_priority.
Qed.

Lemma reads_or_of_and q :
  tokens q 0 = tokens q 1 -> priority q <> 0 -> reads_and q -> reads_or q.
Proof.
  intros Ht Hq Ha r out Hr. rewrite Ht. split.
  - intros H. eapply runs_or_intro; [|exact H]. apply Ha. by apply runs_and_loop_done.
  - intros a H. eapply runs_or_loop_intro; [apply Ha; by apply runs_and_loop_done|].
    by rewrite or_append_other in H by by rewrite nest_priority.
Qed.

Lemma reads_not_wrapped q : priority q < 3 -> reads_or q -> reads_not q.
Proof.
  intros Hp Ho r. rewrite tokens_wrap. unfold wrap_tokens. rewrite decide_True by done.
  cbn [app]. rewrite <- app_assoc. cbn [app]. apply runs_not_wrapped.
  by apply Ho; [|apply runs_or_loop_done].
Qed.

Lemma reads q : reads_not q /\ reads_and q /\ reads_or q.
Proof.
  induction q as [w|c [IH _]|a (_ & IHa & _) b (_ & IHb & _)|a (_ & _ & IHa) b (_ & _ & IHb)].
  - assert (Hn : reads_not (QLexeme w)) by (intros r; by exists 1).
    assert (Ha : reads_and (QLexeme w)) by by apply reads_and_of_not.
    split_and!; [done|done|by apply reads_or_of_and].
  - assert (Hn : reads_not (QNot c)).
    { intros r. destruct (IH r) as [f Hf]. exists (S f). simpl. by rewrite Hf. }
    assert (Ha : reads_and (QNot c)) by by apply reads_and_of_not.
    split_and!; [done|done|by apply reads_or_of_and].
  - assert (Ha : reads_and (QAnd a b)).
    { intros r out.
      change (tokens (QAnd a b) 1) with (tokens a 1 ++ TokAnd :: tokens b 1).
      rewrite <- app_assoc. cbn [app nest]. split.
      - intros H. apply IHa, IHb. done.
      - intros x H. apply IHa, IHb. by rewrite and_append_assoc. }
    assert (Ho : reads_or (QAnd a b)) by by apply reads_or_of_and.
    split_and!; [apply reads_not_wrapped; simpl; [lia|done]|done|done].
  - assert (Ho : reads_or (QOr a b)).
    { intros r out Hr.
      change (tokens (QOr a b) 0) with (tokens a 0 ++ TokOr :: tokens b 0).
      rewrite <- app_assoc. cbn [app nest]. split.
      - intros H. apply IHa; [done|]. by apply IHb.
      - intros x H. apply IHa; [done|]. apply IHb; [done|]. by rewrite or_append_assoc. }
    assert (Hn : reads_not (QOr a b)) by (apply reads_not_wrapped; simpl; [lia|done]).
    split_and!; [done|by apply reads_and_of_not|done].
Qed.
End runs.

Lemma tokens_cons q p : tokens q p <> [].
Proof.
  revert p. induction q; intros p; simpl; unfold wrap_tokens; case_decide; try done;
    destruct (tokens q1 _) eqn:E; by try apply IHq1 in E.
Qed.

Lemma parse_or_tokens input q :
  parse_or input (parse_fuel_for (tokens q 0)) (tokens q 0) = Ok (nest q, []).
Proof.
  destruct (reads input q) as (_ & _ & Ho). destruct (Ho [] (nest q, [])) as [H _]; [done|].
  rewrite app_nil_r in H. destruct H as [f Hf]; [by apply runs_or_loop_done|].
  destruct (parse_enough_fuel input (parse_fuel_for (tokens q 0))) as [He _].
  specialize (He (tokens q 0) ltac:(unfold parse_fuel_for; lia)).
  set (n := parse_fuel_for (tokens q 0)) in *.
  destruct (fuel_extends_le input n (n + f) ltac:(lia)) as [H1 _].
  destruct (fuel_extends_le input f (n + f) ltac:(lia)) as [H2 _].
  eapply extends_ok in Hf; [|apply H2]. destruct (H1 (tokens q 0)) as [E|E].
  - by rewrite E in He.
  - by rewrite <- E.
Qed.

(** A query is read back from its text with its chains nested to the left. *)
Lemma tsquery_read_back q :
  query_ok q -> parse_tsquery (format_tsquery (Some q)) = Ok (Some (nest q)).
Proof.
  intros Hq. unfold parse_tsquery. cbn [format_tsquery].
  destruct (infix_lexes q 0 Hq) as (_ & [k ->]%Nat.le_sum & Hl). specialize (Hl (infix q 0) [] k I). rewrite app_nil_r in Hl.
  rewrite Hl. replace (tsquery_tokens (infix q 0) [] k) with (@Ok Fault (list QTok) []) by by destruct k.
  cbv beta iota. rewrite app_nil_r. destruct (tokens q 0) as [|t ts] eqn:E.
  - by apply tokens_cons in E.
  - by rewrite <- E, parse_or_tokens.
Qed.

(** ** The parsers always end *)

(** A token takes its characters from the front of the input. *)
Lemma quoted_body_sub l w r :
  quoted_body l = Some (w, r) -> length r < length l /\ w ⊆ l /\ r ⊆ l.
Proof.
  enough (forall n l w r, length l <= n -> quoted_body l = Some (w, r) ->
    length r < length l /\ w ⊆ l /\ r ⊆ l) by eauto.
  clear. induction n as [|n IH]; intros [|c l] w r Hn; simpl in *; try done; try lia.
  destruct (c =? quote_code)%N eqn:Eq; [|destruct (c =? backslash)%N].
  - apply N.eqb_eq in Eq as ->. destruct l as [|d l]; [intros [= <- <-]; set_solver by lia|].
    destruct (d =? quote_code)%N; [|intros [= <- <-]; simpl; set_solver by lia].
    destruct (quoted_body l) as [[w' r']|] eqn:E; [|done]. intros [= <- <-].
    apply IH in E as (? & ? & ?); [|simpl in *; lia]. split; [simpl; lia|set_solver].
  - destruct l as [|d l]; [done|].
    destruct (quoted_body l) as [[w' r']|] eqn:E; [|done]. intros [= <- <-].
    apply IH in E as (? & ? & ?); [|simpl in *; lia]. split; [simpl; lia|set_solver].
  - destruct (quoted_body l) as [[w' r']|] eqn:E; [|done]. intros [= <- <-].
    apply IH in E as (? & ? & ?); [|simpl in *; lia]. split; [simpl; lia|set_solver].
Qed.

Lemma bare_body_sub stop l w r :
  bare_body stop l = Some (w, r) -> length w + length r <= length l /\ w ⊆ l /\ r ⊆ l.
Proof.
  enough (forall n l w r, length l <= n -> bare_body stop l = Some (w, r) ->
    length w + length r <= length l /\ w ⊆ l /\ r ⊆ l) by eauto.
  clear. induction n as [|n IH]; intros [|c l] w r Hn; simpl in *; try done; try lia;
    try (intros [= <- <-]; simpl; set_solver by lia).
  destruct (c =? backslash)%N.
  - destruct l as [|d l]; [done|].
    destruct (bare_body stop l) as [[w' r']|] eqn:E; [|done]. intros [= <- <-].
    apply IH in E as (? & ? & ?); [|simpl in *; lia]. split; [simpl; lia|set_solver].
  - case_match; [|intros [= <- <-]; simpl; set_solver by lia].
    destruct (bare_body stop l) as [[w' r']|] eqn:E; [|done]. intros [= <- <-].
    apply IH in E as (? & ? & ?); [|simpl in *; lia]. split; [simpl; lia|set_solver].
Qed.

Lemma lexeme_token_sub stop l w r :
  lexeme_token stop l = Some (w, r) ->
  length r < length l /\ r ⊆ l /\ exists cs, w = of_chars cs /\ cs <> [] /\ cs ⊆ l.
Proof.
  destruct l as [|c l]; [done|]. cbn [lexeme_token]. unfold non_empty.
  destruct (c =? quote_code)%N.
  - destruct (quoted_body l) as [[[|x w'] r']|] eqn:E; [done| |done]. intros [= <- <-].
    apply quoted_body_sub in E as (? & ? & ?). split; [simpl; lia|]. split; [set_solver|].
    exists (x :: w'). split; [done|]. set_solver.
  - destruct (bare_body stop (c :: l)) as [[[|x w'] r']|] eqn:E; [done| |done]. intros [= <- <-].
    apply bare_body_sub in E as (? & ? & ?). split; [simpl in *; lia|]. split; [set_solver|].
    exists (x :: w'). split; [done|]. set_solver.
Qed.

Lemma digit_run_sub l ds r : digit_run l = (ds, r) -> l = ds ++ r.
Proof.
  revert ds r. induction l as [|c l IH]; intros ds r; simpl; [by intros [= <- <-]|].
  destruct (is_ascii_digit c); [|by intros [= <- <-]].
  destruct (digit_run l) as [ds' r'] eqn:E. intros [= <- <-]. simpl. f_equal. by apply IH.
Qed.

(** [r] is what is left of [l]. *)
Definition suffix_of (r l : list N) : Prop := exists p, l = p ++ r.

Lemma suffix_refl l : suffix_of l l.
Proof. by exists []. Qed.

Lemma suffix_app p r l : suffix_of r l -> suffix_of r (p ++ l).
Proof. intros [q ->]. exists (p ++ q). apply app_assoc. Qed.

Lemma suffix_cons c r l : suffix_of r l -> suffix_of r (c :: l).
Proof. apply (suffix_app [c]). Qed.

Lemma suffix_length r l : suffix_of r l -> length r <= length l.
Proof. intros [p ->]. rewrite length_app. lia. Qed.

Lemma suffix_Forall (P : N -> Prop) r l : suffix_of r l -> Forall P l -> Forall P r.
Proof. by intros [p ->] [_ ?]%Forall_app. Qed.

Lemma suffix_trans r l m : suffix_of r l -> suffix_of l m -> suffix_of r m.
Proof. intros Hr [p ->]. by apply suffix_app. Qed.

#[local] Hint Resolve suffix_refl suffix_app suffix_cons : core.

(** A run that is not exhausted and leaves a suffix with [Q]. *)
Definition leaves {A} (l : list N) (Q : A -> Prop) (r : res (A * list N)) : Prop :=
  match r with
  | Ok (a, l') => suffix_of l' l /\ Q a
  | Err e => e <> Panic
  end.

Lemma skip_weight_suffix ds l :
  match skip_weight ds l with Ok l' => suffix_of l' l | Err e => e <> Panic end.
Proof. destruct l as [|c l]; [apply suffix_refl|]. unfold skip_weight. repeat case_match; simplify_eq; auto. Qed.

Lemma parse_int_nonneg hi s z : parse_int 0 hi s = Some z -> (0 <= z)%Z.
Proof.
  unfold parse_int. intros H. repeat case_match; simplify_eq/=;
    apply bind_Some in H as (? & ? & H); case_decide; simplify_eq; lia.
Qed.

Definition positions_ok : list Z -> Prop := Forall (fun p => 1 <= p <= MAX_POS)%Z.

Lemma parse_positions_ends input l fuel :
  length l < fuel -> leaves l positions_ok (parse_positions input l fuel).
Proof.
  revert l. induction fuel as [|fuel IH]; intros l Hf; [lia|]. cbn [parse_positions].
  destruct (digit_run l) as [ds l1] eqn:Ed. apply digit_run_sub in Ed as ->.
  rewrite length_app in Hf.
  destruct (parse_int 0 u32_max (of_chars ds)) as [pos|] eqn:Ep; cbn [ok_or]; [|done].
  apply parse_int_nonneg in Ep. case_decide; [done|].
  assert (Hp : (1 <= Z.min pos MAX_POS <= MAX_POS)%Z) by (unfold MAX_POS; lia).
  pose proof (skip_weight_suffix ds l1) as Hw. destruct (skip_weight ds l1) as [l2|e]; [|done].
  pose proof (suffix_length _ _ Hw). apply (suffix_app ds) in Hw.
  destruct l2 as [|c l2]; [split; [done|by apply Forall_singleton]|].
  destruct (c =? code ",")%N.
  - specialize (IH l2 ltac:(simpl in *; lia)).
    destruct (parse_positions input l2 fuel) as [[ps r]|e]; [|done]. destruct IH as [Hr Hps].
    split; [|by constructor]. eapply suffix_trans; [|exact Hw]. auto.
  - destruct (is_whitespace c); [|done]. split; [done|by apply Forall_singleton].
Qed.

Lemma entry_positions_ends input l : leaves l positions_ok (entry_positions input l).
Proof.
  destruct l as [|c l]; [split; [auto|constructor]|]. unfold entry_positions.
  case_match; [|split; [auto|constructor]].
  pose proof (parse_positions_ends input l (S (length l)) ltac:(lia)) as H1.
  destruct (parse_positions input l (S (length l))) as [[ps r]|]; [|done].
  destruct H1. by split; [auto|].
Qed.

Lemma skip_while_suffix p l : suffix_of (skip_while p l) l.
Proof. induction l as [|c l IH]; simpl; [auto|]. destruct (p c); auto. Qed.

(** The entries of a text: non-empty words with positions in range. *)
Definition entry_ok (e : string * list Z) : Prop :=
  utf8 e.1 /\ e.1 <> String.EmptyString /\ positions_ok e.2.

Lemma lexeme_token_ok stop l w r :
  Forall (fun c => scalar c = true) l -> lexeme_token stop l = Some (w, r) ->
  length r < length l /\ Forall (fun c => scalar c = true) r /\ utf8 w /\ w <> String.EmptyString.
Proof.
  intros Hs (Hl & Hr & cs & -> & Hne & Hcs)%lexeme_token_sub.
  assert (Hw : Forall (fun c => scalar c = true) cs) by (rewrite Forall_forall in *; auto).
  split_and!; [done|rewrite Forall_forall in *; auto|by apply utf8_of_chars|].
  intros H%(f_equal chars). by rewrite chars_of_chars in H.
Qed.

Lemma parse_entries_ends input l fuel :
  Forall (fun c => scalar c = true) l -> length l <= fuel ->
  match parse_entries input l fuel with Ok es => Forall entry_ok es | Err e => e <> Panic end.
Proof.
  revert l. induction fuel as [|fuel IH]; intros l Hs Hf; cbn [parse_entries];
    pose proof (skip_while_suffix is_whitespace l) as Hq;
    pose proof (suffix_length _ _ Hq); apply (suffix_Forall _ _ _ Hq) in Hs;
    destruct (skip_while is_whitespace l) as [|c l']; try done; [simpl in *; lia|].
  destruct (lexeme_token [code ":"] (c :: l')) as [[w r]|] eqn:Et; cbn [ok_or]; [|done].
  apply lexeme_token_ok in Et as (Hl & Hr & Hu & Hne); [|done].
  pose proof (entry_positions_ends input r) as Hps.
  destruct (entry_positions input r) as [[ps r']|e]; [|done]. destruct Hps as [Hr' Hps].
  pose proof (suffix_length _ _ Hr'). apply (suffix_Forall _ _ _ Hr') in Hr.
  specialize (IH r' Hr ltac:(simpl in *; lia)).
  destruct (parse_entries input r' fuel); [|done]. by constructor.
Qed.

(** ** What normalisation establishes *)

Lemma strongly_sorted_snoc {A} (R : A -> A -> Prop) l x :
  StronglySorted R l -> Forall (fun y => R y x) l -> StronglySorted R (l ++ [x]).
Proof.
  induction 1 as [|y l _ IH Hy]; intros Hx; simpl; [by repeat constructor|].
  apply Forall_cons_1 in Hx as [? ?]. constructor; [by apply IH|].
  apply Forall_app. split; [done|by constructor].
Qed.

Lemma strongly_sorted_reverse {A} (R : A -> A -> Prop) l :
  StronglySorted R l -> StronglySorted (fun x y => R y x) (reverse l).
Proof.
  induction 1 as [|x l _ IH Hx]; [constructor|]. rewrite reverse_cons.
  apply strongly_sorted_snoc; [done|]. by apply Forall_reverse.
Qed.

(** No element of a sorted list is less than one before it. *)
Lemma sort_by_sorted {A} (cmp : A -> A -> comparison) l :
  Total cmp -> StronglySorted (fun x y => cmp y x <> Lt) (sort_by cmp l).
Proof.
  intros HT. apply (strongly_sorted_reverse (desc cmp)).
  eapply (sort_rev_sorted cmp (fun _ => True)); [done|]. by apply Forall_true.
Qed.

Lemma sort_by_fmap {A K} (cmp : K -> K -> comparison) (key : A -> K) l :
  key <$> sort_by (fun a b => cmp (key a) (key b)) l = sort_by cmp (key <$> l).
Proof.
  unfold sort_by, sort_rev. rewrite fmap_reverse. f_equal.
  assert (Hi : forall x acc, key <$> insert_tail (fun a b => cmp (key a) (key b)) x acc =
    insert_tail cmp (key x) (key <$> acc)).
  { intros x acc. induction acc as [|y acc IH]; [done|]. csimpl. unfold is_less.
    destruct (cmp (key x) (key y)); csimpl; try done. by rewrite IH. }
  enough (forall acc, key <$> foldl (fun acc x => insert_tail (fun a b => cmp (key a) (key b)) x acc) acc l =
    foldl (fun acc x => insert_tail cmp x acc) (key <$> acc) (key <$> l)) as H by apply (H []).
  induction l as [|x l IH]; intros acc; csimpl; [done|]. by rewrite IH, Hi.
Qed.

Lemma dedup_elem l x : x ∈ dedup l -> x ∈ l.
Proof.
  induction l as [|y l IH]; [done|]. destruct l as [|z l]; [done|].
  cbn [dedup]. cbn [dedup] in IH. case_decide; [intros; right; auto|].
  intros [->|Hx]%elem_of_cons; [by left|right; auto].
Qed.

Lemma dedup_strict l :
  StronglySorted (fun x y => Z.compare y x <> Lt) l ->
  StronglySorted (fun x y => Z.compare x y = Lt) (dedup l).
Proof.
  induction 1 as [|x l Hs IH Hx]; [constructor|]. destruct l as [|y l]; [by repeat constructor|].
  cbn [dedup]. cbn [dedup] in IH. case_decide as Hxy; [done|]. constructor; [done|].
  apply Forall_forall. intros z Hz%(dedup_elem (y :: l)). apply Z.compare_lt_iff.
  apply StronglySorted_inv in Hs as [_ Hy]. rewrite Forall_forall in Hx, Hy.
  assert (Hy1 : Z.compare y x <> Lt) by (apply Hx; by left). rewrite Z.compare_lt_iff in Hy1.
  apply elem_of_cons in Hz as [->|Hz]; [lia|]. apply Hy in Hz. rewrite Z.compare_lt_iff in Hz. lia.
Qed.

Lemma strongly_sorted_take {A} (R : A -> A -> Prop) l n :
  StronglySorted R l -> StronglySorted R (take n l).
Proof.
  intros Hs. revert n. induction Hs as [|x l _ IH Hx]; intros [|n]; simpl; try constructor; auto.
  by apply Forall_take.
Qed.

Lemma normalize_positions_ok ps :
  StronglySorted (fun a b => Z.compare a b = Lt) (normalize_positions ps) /\
  Forall (fun p => 1 <= p <= MAX_POS)%Z (normalize_positions ps) /\
  length (normalize_positions ps) <= MAX_NUM_POS.
Proof.
  unfold normalize_positions. split_and!.
  - apply strongly_sorted_take, dedup_strict, sort_by_sorted, Z_compare_total.
  - apply Forall_take, Forall_forall. intros p Hp%dedup_elem. rewrite sort_by_perm in Hp.
    apply list_elem_of_fmap in Hp as (q & -> & _). unfold clamp, MAX_POS. lia.
  - rewrite length_take. lia.
Qed.

Lemma merge_words_strict out l :
  StronglySorted (fun x y => String.compare (word y) (word x) = Lt) out ->
  StronglySorted (fun a b => String.compare b.1 a.1 <> Lt) l ->
  match out with x :: _ => Forall (fun e => String.compare e.1 (word x) <> Lt) l | [] => True end ->
  StronglySorted (fun x y => String.compare (word x) (word y) = Lt) (merge_words out l).
Proof.
  intros Ho Hs. revert out Ho. induction Hs as [|[w ps] l Hs IH Hw]; intros out Ho Hout; simpl.
  { by apply (strongly_sorted_reverse _ _ Ho). }
  destruct out as [|x out]; [apply IH; [by repeat constructor|done]|].
  apply Forall_cons_1 in Hout as [Hx Hl]. simpl in Hx.
  case_decide as Heq.
  - apply IH; [|by rewrite <- Heq]. apply StronglySorted_inv in Ho as [Ho Hox].
    constructor; [done|]. simpl. by rewrite <- Heq.
  - apply IH; [|done]. constructor; [done|]. simpl.
    assert (Hxw : String.compare (word x) w = Lt).
    { rewrite (total_antisym _ _ string_compare_total) by done.
      destruct (String.compare w (word x)) eqn:E; try done.
      apply String.compare_eq_iff in E. by subst. }
    constructor; [done|]. apply StronglySorted_inv in Ho as [_ Hox].
    eapply Forall_impl; [exact Hox|]. simpl. intros y Hy.
    by apply (total_trans _ _ string_compare_total _ (word x) _).
Qed.

Lemma merge_words_words (P : string -> Prop) out l :
  Forall (fun x => P (word x)) out -> Forall (fun e => P e.1) l ->
  Forall (fun x => P (word x)) (merge_words out l).
Proof.
  intros Ho Hl. revert out Ho. induction Hl as [|[w ps] l Hw _ IH]; intros out Ho; simpl in *.
  { by apply Forall_reverse. }
  destruct Ho as [|x out Hx Ho]; [by apply IH; constructor|].
  case_decide; apply IH; by repeat constructor.
Qed.

(** Normalising gives sorted distinct words with sorted positions in range. *)
Lemma normalize_ok raw :
  Forall (fun e => utf8 e.1 /\ e.1 <> String.EmptyString) raw -> tsvector_ok (normalize_lexemes raw).
Proof.
  intros Hraw. unfold normalize_lexemes.
  set (m := merge_words [] _).
  assert (Hm : StronglySorted (fun x y => String.compare (word x) (word y) = Lt) m).
  { apply merge_words_strict; [constructor| |done].
    assert (Hk : StronglySorted (fun x y => String.compare y x <> Lt)
      (fst <$> sort_by (fun a b : string * list Z => String.compare a.1 b.1) raw)).
    { rewrite (sort_by_fmap String.compare fst). apply sort_by_sorted, string_compare_total. }
    revert Hk. generalize (sort_by (fun a b : string * list Z => String.compare a.1 b.1) raw).
    intros l. induction l as [|e l IH]; intros H; [constructor|].
    rewrite fmap_cons in H. apply StronglySorted_inv in H as [H1 H2]. constructor; [auto|].
    apply Forall_forall. intros x Hx. rewrite Forall_forall in H2. apply H2.
    apply list_elem_of_fmap. eauto. }
  assert (Hw : Forall (fun x => utf8 (word x) /\ word x <> String.EmptyString) m).
  { apply (merge_words_words (fun w => utf8 w /\ w <> String.EmptyString)); [constructor|].
    by rewrite sort_by_perm. }
  split.
  - clear Hw. induction Hm as [|x l _ IH Hx]; constructor; [done|]. by apply Forall_fmap.
  - apply Forall_fmap. eapply Forall_impl; [exact Hw|]. intros x [H1 H2].
    destruct (normalize_positions_ok (positions x)) as (? & ? & ?). by split.
Qed.

(** Reading a text gives a normal [tsvector] or an error, never a panic. *)
Lemma parse_tsvector_ok s :
  utf8 s -> match parse_tsvector s with Ok l => tsvector_ok l | Err e => e <> Panic end.
Proof.
  intros Hs. unfold parse_tsvector.
  pose proof (parse_entries_ends s (chars s) (length (chars s)) Hs ltac:(lia)) as He.
  destruct (parse_entries s (chars s) (length (chars s))) as [es|]; [|done].
  apply normalize_ok. eapply Forall_impl; [exact He|]. intros e (? & ? & ?). done.
Qed.

(** ** Queries *)

Definition token_ok (t : QTok) : Prop :=
  match t with TokLexeme w => utf8 w /\ w <> String.EmptyString | _ => True end.

Lemma operator_token_ok c t : operator_token c = Some t -> token_ok t.
Proof. unfold operator_token. intros. by repeat case_match; simplify_eq. Qed.

Lemma tsquery_tokens_ends input l fuel :
  Forall (fun c => scalar c = true) l -> length l <= fuel ->
  match tsquery_tokens input l fuel with Ok ts => Forall token_ok ts | Err e => e <> Panic end.
Proof.
  revert l. induction fuel as [|fuel IH]; intros l Hs Hf; cbn [tsquery_tokens];
    pose proof (skip_while_suffix is_whitespace l) as Hq;
    pose proof (suffix_length _ _ Hq); apply (suffix_Forall _ _ _ Hq) in Hs;
    destruct (skip_while is_whitespace l) as [|c l']; try done; [simpl in *; lia|].
  destruct (operator_token c) as [t|] eqn:Et.
  { apply Forall_cons_1 in Hs as [_ Hs]. specialize (IH l' Hs ltac:(simpl in *; lia)).
    destruct (tsquery_tokens input l' fuel); [|done]. constructor; [by eapply operator_token_ok|done]. }
  destruct (c =? code "<")%N; [done|].
  destruct (lexeme_token query_stops (c :: l')) as [[w r]|] eqn:El; cbn [ok_or]; [|done].
  apply lexeme_token_ok in El as (Hl & Hr & Hu & Hne); [|done].
  destruct (bool_decide (r !! 0 = Some (code ":"))); [done|].
  specialize (IH r Hr ltac:(simpl in *; lia)). destruct (tsquery_tokens input r fuel); [|done].
  by constructor.
Qed.

(** The lexemes of what is parsed are those of the tokens. *)
Definition parsed_ok (r : res (TsQueryNode * list QTok)) : Prop :=
  match r with Ok (q, ts) => query_ok q /\ Forall token_ok ts | Err _ => True end.

Lemma query_ok_binary a b : query_ok a -> query_ok b -> query_ok (QAnd a b) /\ query_ok (QOr a b).
Proof. unfold query_ok. simpl. intros. split; by apply Forall_app. Qed.

Lemma parse_lexemes_ok input f :
  (forall ts, Forall token_ok ts -> parsed_ok (parse_or input f ts)) /\
  (forall a ts, query_ok a -> Forall token_ok ts -> parsed_ok (or_loop input f a ts)) /\
  (forall ts, Forall token_ok ts -> parsed_ok (parse_and input f ts)) /\
  (forall a ts, query_ok a -> Forall token_ok ts -> parsed_ok (and_loop input f a ts)) /\
  (forall ts, Forall token_ok ts -> parsed_ok (parse_not input f ts)).
Proof.
  induction f as [|f (IH1 & IH2 & IH3 & IH4 & IH5)]; [done|]. split_and!.
  - intros ts Hts. simpl. specialize (IH3 ts Hts).
    destruct (parse_and input f ts) as [[a r]|]; [|done]. destruct IH3. auto.
  - intros a ts Ha Hts. destruct Hts as [|[] ts Ht Hts]; simpl; try (split; auto; by constructor).
    specialize (IH3 ts Hts). destruct (parse_and input f ts) as [[b r]|]; [|done].
    destruct IH3 as [Hb Hr]. apply IH2; [|done]. by apply query_ok_binary.
  - intros ts Hts. simpl. specialize (IH5 ts Hts).
    destruct (parse_not input f ts) as [[a r]|]; [|done]. destruct IH5. auto.
  - intros a ts Ha Hts. destruct Hts as [|[] ts Ht Hts]; simpl; try (split; auto; by constructor).
    specialize (IH5 ts Hts). destruct (parse_not input f ts) as [[b r]|]; [|done].
    destruct IH5 as [Hb Hr]. apply IH4; [|done]. by apply query_ok_binary.
  - intros ts Hts. destruct Hts as [|[] ts Ht Hts]; simpl; try done.
    + specialize (IH1 ts Hts). destruct (parse_or input f ts) as [[q [|[] r]]|]; try done.
      destruct IH1 as [? [_ ?]%Forall_cons_1]. done.
    + specialize (IH5 ts Hts). by destruct (parse_not input f ts) as [[q r]|].
    + split; [by apply Forall_singleton|done].
Qed.

(** Reading a text gives a query with non-empty lexemes or an error, never a
    panic. *)
Lemma parse_tsquery_ok s :
  utf8 s ->
  match parse_tsquery s with
  | Ok (Some q) => query_ok q
  | Ok None => True
  | Err e => e <> Panic
  end.
Proof.
  intros Hs. unfold parse_tsquery.
  pose proof (tsquery_tokens_ends s (chars s) (length (chars s)) Hs ltac:(lia)) as Ht.
  destruct (tsquery_tokens s (chars s) (length (chars s))) as [ts|]; [|done].
  destruct ts as [|t ts]; [done|]. set (n := parse_fuel_for (t :: ts)).
  destruct (parse_enough_fuel s n) as [He _]. destruct (parse_lexemes_ok s n) as [Hq _].
  specialize (He (t :: ts) ltac:(done)). specialize (Hq (t :: ts) Ht).
  destruct (parse_or s n (t :: ts)) as [[q [|]]|]; simpl in *; tauto || done.
Qed.

(** ** Matching *)

Lemma strongly_sorted_lookup {A} (R : A -> A -> Prop) l i j x y :
  StronglySorted R l -> l !! i = Some x -> l !! j = Some y -> i < j -> R x y.
Proof.
  intros Hs. revert i j. induction Hs as [|z l _ IH Hz]; intros i j Hi Hj Hij; [done|].
  destruct i as [|i], j as [|j]; try lia; simpl in *.
  - simplify_eq. rewrite Forall_forall in Hz. by eapply Hz, list_elem_of_lookup_2.
  - eapply (IH i j); eauto. lia.
Qed.

Lemma search_word_sound l w lo n fuel : search_word l w lo n fuel = true -> w ∈ word <$> l.
Proof.
  revert lo n. induction fuel as [|fuel IH]; intros lo [|n]; try done. cbn [search_word].
  destruct (l !! (lo + S n / 2)) as [x|] eqn:E; [|done].
  destruct (String.compare (word x) w) eqn:Ec; [|apply IH..].
  intros _. apply String.compare_eq_iff in Ec as <-. apply list_elem_of_fmap.
  eexists; split; [done|]. by eapply list_elem_of_lookup_2.
Qed.

Lemma search_word_complete l x i lo n fuel :
  StronglySorted (fun a b => String.compare (word a) (word b) = Lt) l -> l !! i = Some x ->
  lo <= i < lo + n -> lo + n <= length l -> n <= fuel -> search_word l (word x) lo n fuel = true.
Proof.
  intros Hs Hi. revert lo n. induction fuel as [|fuel IH]; intros lo n Hr Hl Hf; [lia|].
  destruct n as [|n]; [lia|]. cbn [search_word].
  assert (Hmid : S n / 2 <= n) by (apply Nat.lt_succ_r, Nat.div_lt; lia).
  destruct (lookup_lt_is_Some_2 l (lo + S n / 2)) as [y Hy]; [lia|]. rewrite Hy.
  assert (Hne : String.compare (word y) (word x) <> Eq -> i <> lo + S n / 2).
  { intros H ->. simplify_eq. by rewrite (total_refl _ _ _ string_compare_total I) in H. }
  destruct (String.compare (word y) (word x)) eqn:Ec; [done| |].
  - apply IH; [|lia..]. specialize (Hne ltac:(done)).
    destruct (decide (i < lo + S n / 2)) as [Hlt|]; [|lia].
    pose proof (strongly_sorted_lookup _ _ _ _ _ _ Hs Hi Hy Hlt) as Hxy. simpl in Hxy.
    by apply (total_asym _ _ _ string_compare_total) in Hxy.
  - apply IH; [|lia..]. specialize (Hne ltac:(done)).
    destruct (decide (lo + S n / 2 < i)) as [Hlt|]; [|lia].
    pose proof (strongly_sorted_lookup _ _ _ _ _ _ Hs Hy Hi Hlt) as Hyx. simpl in Hyx. congruence.
Qed.

(** The binary search finds the words of a sorted list, and no others. *)
Lemma has_word_spec l w : tsvector_ok l -> has_word l w = true <-> w ∈ word <$> l.
Proof.
  intros [Hs _]. unfold has_word. split; [apply search_word_sound|].
  intros (x & -> & [i Hi]%list_elem_of_lookup_1)%list_elem_of_fmap.
  apply (search_word_complete l x i); [done..| |lia|lia]. apply lookup_lt_Some in Hi. lia.
Qed.
