(* ===== verification/SqlValue.v ===== *)
(** * SQL values

    [relational/value.rs]: the runtime value model, its storage encoding, its text
    forms, comparison, index keys and casts.  Decimals, dates, times, UUIDs,
    base64 and the JSON text are third-party data: the class [Foreign] has a
    type for each and the functions of those crates that the source calls. *)

From S2P Require Import Prelude BTree Json Utf8 RustString RustFloat SqlTypes Fts.

Class Foreign := {
  foreign_unicode :: Unicode;
  foreign_json_text :: JsonText;
  json_from_str : string -> option Value;
  (* rust_decimal *)
  Decimal : Type;
  decimal_of_int : Z -> Decimal;
  decimal_of_f32 : float -> option Decimal;
  decimal_of_f64 : float -> option Decimal;
  decimal_to_f64 : Decimal -> option float;
  decimal_to_i64 : Decimal -> option Z;
  decimal_normalize : Decimal -> Decimal;
  decimal_text : Decimal -> string;
  decimal_from_str : string -> option Decimal;
  decimal_from_scientific : string -> option Decimal;
  decimal_cmp : Decimal -> Decimal -> comparison;
  (* uuid *)
  Uuid : Type;
  uuid_text : Uuid -> string;
  uuid_parse_str : string -> option Uuid;
  uuid_cmp : Uuid -> Uuid -> comparison;
  (* chrono: formats are the first argument *)
  NaiveDate : Type;
  date_format : string -> NaiveDate -> string;
  date_parse : string -> string -> option NaiveDate;
  date_cmp : NaiveDate -> NaiveDate -> comparison;
  NaiveTime : Type;
  time_format : string -> NaiveTime -> string;
  time_parse : string -> string -> option NaiveTime;
  time_cmp : NaiveTime -> NaiveTime -> comparison;
  NaiveDateTime : Type;
  datetime_format : string -> NaiveDateTime -> string;
  datetime_parse : string -> string -> option NaiveDateTime;
  datetime_cmp : NaiveDateTime -> NaiveDateTime -> comparison;
  datetime_date : NaiveDateTime -> NaiveDate;
  date_midnight : NaiveDate -> NaiveDateTime;
  DateTimeUtc : Type;
  utc_format : string -> DateTimeUtc -> string;
  utc_to_rfc3339 : DateTimeUtc -> string;
  utc_parse : string -> string -> option DateTimeUtc;
  utc_parse_rfc3339 : string -> option DateTimeUtc;
  utc_cmp : DateTimeUtc -> DateTimeUtc -> comparison;
  and_utc : NaiveDateTime -> DateTimeUtc;
  naive_utc : DateTimeUtc -> NaiveDateTime;
  (* base64, the standard engine *)
  base64_encode : string -> string;
  base64_decode : string -> option string
}.

Section value.
Context `{!Foreign}.

Inductive SqlValue :=
| VNull
| VBool (b : bool)
| VInt2 (n : Z)
| VInt4 (n : Z)
| VInt8 (n : Z)
| VFloat4 (f : float)
| VFloat8 (f : float)
| VNumeric (d : Decimal)
| VText (s : string)
| VBytea (s : string)
| VUuid (u : Uuid)
| VDate (d : NaiveDate)
| VTime (t : NaiveTime)
| VTimestamp (t : NaiveDateTime)
| VTimestamptz (t : DateTimeUtc)
| VJson (j : Value)
| VArray (items : list SqlValue)
| VCitext (s : string)
| VVector (v : list float)
| VHStore (m : list (string * option string))
| VLtree (path : string)
| VCube (ll ur : list float)
| VTsVector (v : list TsLexeme)
| VTsQuery (q : option TsQueryNode).

(** Induction with a hypothesis for the items of an array. *)
Section sql_value_ind.
Context (P : SqlValue -> Prop).
Hypothesis Hleaf : forall v, (forall items, v <> VArray items) -> P v.
Hypothesis Harray : forall items, Forall P items -> P (VArray items).

Fixpoint sql_value_ind' (v : SqlValue) : P v.
Proof.
  refine (match v with
          | VArray items =>
              Harray items ((fix go (l : list SqlValue) : Forall P l :=
                match l with
                | [] => List.Forall_nil P
                | x :: l => List.Forall_cons P x l (sql_value_ind' x) (go l)
                end) items)
          | _ => Hleaf _ _
          end); discriminate.
Defined.
End sql_value_ind.

Definition value_is_null (v : SqlValue) : bool := match v with VNull => true | _ => false end.

(** The runtime type of a value. *)
Fixpoint type_of (v : SqlValue) : SqlType :=
  match v with
  | VNull => TUnknown
  | VBool _ => TBoolean
  | VInt2 _ => TSmallInt
  | VInt4 _ => TInteger
  | VInt8 _ => TBigInt
  | VFloat4 _ => TReal
  | VFloat8 _ => TDoublePrecision
  | VNumeric _ => TNumeric None None
  | VText _ => TText
  | VBytea _ => TBytea
  | VUuid _ => TUuid
  | VDate _ => TDate
  | VTime _ => TTime
  | VTimestamp _ => TTimestamp
  | VTimestamptz _ => TTimestamptz
  | VJson _ => TJsonb
  | VArray items => TArray match items with x :: _ => type_of x | [] => TText end
  | VCitext _ => TCitext
  | VVector v => TVector (Some (N.of_nat (length v) mod 2 ^ 32)%N)
  | VHStore _ => THStore
  | VLtree _ => TLtree
  | VCube _ _ => TCube
  | VTsVector _ => TTsVector
  | VTsQuery _ => TTsQuery
  end.

Local Open Scope string_scope.

(** ** Storage encoding *)

Definition float_json (f : float) : Value :=
  match number_from_f64 f with Some n => Num n | None => Null end.

Definition hstore_json (v : option string) : Value :=
  match v with Some s => Str s | None => Null end.

Fixpoint encode_json (v : SqlValue) : Value :=
  match v with
  | VNull => Null
  | VBool b => Bool b
  | VInt2 n | VInt4 n | VInt8 n => Num (number_from_i64 n)
  | VFloat4 f => float_json (to_f64 f)
  | VFloat8 f => float_json f
  | VNumeric d => Str (decimal_text (decimal_normalize d))
  | VText s => Str s
  | VBytea b => Str (base64_encode b)
  | VUuid u => Str (uuid_text u)
  | VDate d => Str (date_format "%Y-%m-%d" d)
  | VTime t => Str (time_format "%H:%M:%S%.f" t)
  | VTimestamp t => Str (datetime_format "%Y-%m-%dT%H:%M:%S%.f" t)
  | VTimestamptz t => Str (utc_to_rfc3339 t)
  | VJson j => j
  | VArray items => Array (encode_json <$> items)
  | VCitext s => Str s
  | VVector v => Array ((fun f => float_json (to_f64 f)) <$> v)
  | VHStore m => Object (BTreeMap.of_list ((fun kv => (kv.1, hstore_json kv.2)) <$> m))
  | VLtree p => Str p
  | VCube ll ur =>
      Object (BTreeMap.of_list [("ll", Array (float_json <$> ll)); ("ur", Array (float_json <$> ur))])
  | VTsVector v => Str (format_tsvector v)
  | VTsQuery q => Str (format_tsquery q)
  end.

(** ** Parsing of text forms *)

Definition bad_text {A} (ty value : string) : res A := raise (InvalidTextRepresentation ty value).

Definition parse_date (s : string) : res SqlValue :=
  match date_parse "%Y-%m-%d" s with
  | Some d => Ok (VDate d)
  | None => bad_text "date" s
  end.

(** The first format that reads the text. *)
Definition first_format {A} (parse : string -> string -> option A) (formats : list string)
    (s : string) : option A :=
  head (omap (fun f => parse f s) formats).

Definition parse_time (s : string) : res SqlValue :=
  match first_format time_parse ["%H:%M:%S%.f"; "%H:%M:%S"; "%H:%M"] s with
  | Some t => Ok (VTime t)
  | None => bad_text "time" s
  end.

Definition timestamp_formats : list string :=
  ["%Y-%m-%d %H:%M:%S%.f"; "%Y-%m-%dT%H:%M:%S%.f"; "%Y-%m-%d %H:%M:%S"; "%Y-%m-%dT%H:%M:%S"].

Definition parse_naive (s : string) : option NaiveDateTime :=
  match first_format datetime_parse timestamp_formats s with
  | Some t => Some t
  | None =>
      match date_parse "%Y-%m-%d" s with
      | Some d => Some (date_midnight d)
      | None => naive_utc <$> utc_parse_rfc3339 s
      end
  end.

Definition parse_timestamp (s : string) : res SqlValue :=
  match parse_naive (trim s) with
  | Some t => Ok (VTimestamp t)
  | None => bad_text "timestamp" (trim s)
  end.

Definition timestamptz_formats : list string :=
  ["%Y-%m-%d %H:%M:%S%.f%#z"; "%Y-%m-%d %H:%M:%S%#z"; "%Y-%m-%dT%H:%M:%S%.f%#z"].

Definition parse_timestamptz (s : string) : res SqlValue :=
  let s := trim s in
  match utc_parse_rfc3339 s with
  | Some t => Ok (VTimestamptz t)
  | None =>
      match first_format utc_parse timestamptz_formats s with
      | Some t => Ok (VTimestamptz t)
      | None =>
          match parse_naive (trim s) with
          | Some t => Ok (VTimestamptz (and_utc t))
          | None => bad_text "timestamptz" s
          end
      end
  end.

(** Splitting the inside of an array literal at the commas outside quotes. *)
Fixpoint split_elems (l cur : list N) (in_quotes : bool) : list (list N) :=
  match l with
  | [] => [reverse cur]
  | c :: l =>
      if (c =? 34)%N then split_elems l (c :: cur) (negb in_quotes)
      else if (c =? backslash)%N then
        match l with
        | n :: l' => split_elems l' (n :: c :: cur) in_quotes
        | [] => [reverse (c :: cur)]
        end
      else if (c =? code ",")%N && negb in_quotes then reverse cur :: split_elems l [] in_quotes
      else split_elems l (c :: cur) in_quotes
  end.

Definition split_array_elems (s : string) : list string :=
  of_chars <$> split_elems (chars s) [] false.

Definition unquote_elem (raw : string) : string :=
  of_chars (replace_pair backslash backslash [backslash]
    (replace_pair backslash 34 [34%N] (chars (trim_matches 34 (trim raw))))).

Definition parse_array_text (from_text : string -> res SqlValue) (inner : SqlType) (text : string) :
    res SqlValue :=
  match strip_prefix "{" (trim text) ≫= strip_suffix "}" with
  | None => bad_text (name inner ++ "[]") text
  | Some body =>
      if decide (trim body = String.EmptyString) then Ok (VArray [])
      else
        let? items := traverse (fun raw =>
          if eq_ignore_ascii_case raw "null" then Ok VNull else from_text (unquote_elem raw))
          (split_array_elems body) in
        Ok (VArray items)
  end.

Definition parse_vector_text (text : string) : res (list float) :=
  match strip_prefix "[" (trim text) ≫= strip_suffix "]" with
  | None => bad_text "vector" text
  | Some body =>
      if decide (trim body = String.EmptyString) then bad_text "vector" text
      else traverse (fun p => ok_or (parse_f32 (trim p)) (InvalidTextRepresentation "vector" text))
             (split (code ",") body)
  end.

Definition check_vector_dims (v : list float) (dims : option N) : res unit :=
  match dims with
  | Some d =>
      if decide (N.of_nat (length v) mod 2 ^ 32 = d)%N then Ok tt
      else raise (DatatypeMismatch String.EmptyString ("vector(" ++ pretty d ++ ")")
                    ("vector(" ++ pretty (length v) ++ ")"))
  | None => Ok tt
  end.

(** One key or value of an [hstore] literal, and whether it was quoted. *)
Fixpoint hstore_quoted (l : list N) : option (list N * list N) :=
  match l with
  | [] => None
  | c :: l =>
      if (c =? 34)%N then Some ([], l)
      else if (c =? backslash)%N then
        match l with
        | d :: l' => match hstore_quoted l' with Some (w, r) => Some (d :: w, r) | None => None end
        | [] => None
        end
      else match hstore_quoted l with Some (w, r) => Some (c :: w, r) | None => None end
  end.

Definition hstore_stops : list N := [code ","; 34%N; code "="].

Definition hstore_token (l : list N) : option (string * bool * list N) :=
  match l with
  | c :: l' =>
      if (c =? 34)%N then
        match hstore_quoted l' with Some (w, r) => Some (of_chars w, true, r) | None => None end
      else
        match non_empty (bare_body hstore_stops l) with
        | Some (w, r) => Some (w, false, r)
        | None => None
        end
  | [] => None
  end.

Definition hstore_error (what text : string) : RelError :=
  Syntax ("syntax error in hstore: " ++ what ++ ", in " ++ dquote ++ text ++ dquote).

(** The arrow between a key and its value. *)
Definition skip_arrow (text : string) (l : list N) : res (list N) :=
  match l with
  | c :: d :: l' =>
      if (c =? code "=")%N && (d =? code ">")%N then Ok l'
      else raise (hstore_error "expected =>" text)
  | _ => raise (hstore_error "expected =>" text)
  end.

Fixpoint parse_hstore (text : string) (l : list N) (m : list (string * option string)) (fuel : nat) :
    res (list (string * option string)) :=
  match skip_while is_whitespace l, fuel with
  | [], _ => Ok m
  | _, 0 => Err Panic
  | l, S fuel =>
      let? (key, _, l) := ok_or (hstore_token l) (hstore_error "expected key" text) in
      let? l := skip_arrow text (skip_while is_whitespace l) in
      let? (val, quoted, l) :=
        ok_or (hstore_token (skip_while is_whitespace l)) (hstore_error "expected value" text) in
      let value := if negb quoted && eq_ignore_ascii_case val "null" then None else Some val in
      let m := BTreeMap.or_insert m key value in
      match skip_while is_whitespace l with
      | [] => Ok m
      | c :: l =>
          if (c =? code ",")%N then parse_hstore text l m fuel
          else raise (hstore_error "expected , or end" text)
      end
  end.

Definition parse_hstore_text (text : string) : res SqlValue :=
  let? m := parse_hstore text (chars text) [] (length (chars text)) in Ok (VHStore m).

(** The labels of an [ltree] path. *)
Definition ltree_labels (path : string) : list string :=
  if decide (path = String.EmptyString) then [] else split (code ".") path.

Definition label_ok (label : string) : bool :=
  bool_decide (label <> String.EmptyString) && bool_decide (length (chars label) <= 255) &&
  forallb (fun c => is_alphanumeric c || (c =? code "_")%N || (c =? code "-")%N) (chars label).

Definition parse_ltree_text (text : string) : res SqlValue :=
  let t := trim text in
  if decide (t = String.EmptyString) then Ok (VLtree String.EmptyString)
  else if forallb label_ok (split (code ".") t) then Ok (VLtree t)
  else raise (Syntax ("ltree syntax error in " ++ dquote ++ t ++ dquote)).

Definition parse_coords (text s : string) : res (list float) :=
  let s := trim s in
  if decide (s = String.EmptyString) then bad_text "cube" text
  else traverse (fun p => ok_or (parse_f64 (trim p)) (InvalidTextRepresentation "cube" text))
         (split (code ",") s).

Definition parse_corners (text t : string) : res SqlValue :=
  match strip_prefix "(" t with
  | Some rest =>
      match split_once (code ")") rest with
      | None => bad_text "cube" text
      | Some (inside, after) =>
          let? first := parse_coords text inside in
          let after := trim after in
          if decide (after = String.EmptyString) then Ok (VCube first first)
          else
            match strip_prefix "," after with
            | None => bad_text "cube" text
            | Some group =>
                match strip_prefix "(" (trim group) ≫= strip_suffix ")" with
                | None => bad_text "cube" text
                | Some inner =>
                    let? second := parse_coords text inner in
                    if decide (length first = length second) then Ok (VCube first second)
                    else bad_text "cube" text
                end
            end
      end
  | None => let? p := parse_coords text t in Ok (VCube p p)
  end.

Definition parse_cube_text (text : string) : res SqlValue :=
  let t := trim text in
  match strip_prefix "[" t with
  | Some inner =>
      match strip_suffix "]" inner with
      | Some t => parse_corners text (trim t)
      | None => bad_text "cube" text
      end
  | None => parse_corners text t
  end.
(** ** Text output *)

Definition format_float (f : float) : string :=
  if is_nan f then "NaN"
  else if is_infinite f then (if is_positive f then "Infinity" else "-Infinity")
  else display_f64 f.

Definition format_float_f32 (f : float) : string :=
  if is_nan f then "NaN"
  else if is_infinite f then (if is_positive f then "Infinity" else "-Infinity")
  else display_f32 f.

Definition format_vector (v : list float) : string :=
  "[" ++ join "," ((fun f => format_float (to_f64 f)) <$> v) ++ "]".

Definition hstore_quote (s : string) : string :=
  dquote ++ replace_char 34 ("\" ++ dquote) (replace_char backslash "\\" s) ++ dquote.

Definition hstore_pair (kv : string * option string) : string :=
  match kv.2 with
  | Some v => hstore_quote kv.1 ++ "=>" ++ hstore_quote v
  | None => hstore_quote kv.1 ++ "=>NULL"
  end.

(** Pairs are written by key length, then by key. *)
Definition hstore_order (a b : string * option string) : comparison :=
  then_with (Nat.compare (String.length a.1) (String.length b.1)) (String.compare a.1 b.1).

Definition format_hstore (m : list (string * option string)) : string :=
  join ", " (hstore_pair <$> sort_by hstore_order m).

Definition format_coords (v : list float) : string := join ", " (format_float <$> v).

Definition format_cube (ll ur : list float) : string :=
  if list_eqb SFeqb ll ur then "(" ++ format_coords ll ++ ")"
  else "(" ++ format_coords ll ++ "),(" ++ format_coords ur ++ ")".

Definition array_specials : list N := code <$> [","; "{"; "}"; dquote; "\"; " "].

Definition format_elem (is_array : bool) (t : option string) : string :=
  match t with
  | None => "NULL"
  | Some t =>
      if is_array then t
      else if bool_decide (t = String.EmptyString)
              || existsb (fun c => contains_char t c) array_specials
              || eq_ignore_ascii_case t "null"
      then dquote ++ replace_char 34 ("\" ++ dquote) (replace_char backslash "\\" t) ++ dquote
      else t
  end.

Definition is_array_value (v : SqlValue) : bool := match v with VArray _ => true | _ => false end.

(** PostgreSQL text output; [None] for NULL. *)
Fixpoint to_text (v : SqlValue) : option string :=
  match v with
  | VNull => None
  | VBool b => Some (if b then "t" else "f")
  | VInt2 n | VInt4 n | VInt8 n => Some (pretty n)
  | VFloat4 f => Some (format_float_f32 f)
  | VFloat8 f => Some (format_float f)
  | VNumeric d => Some (decimal_text (decimal_normalize d))
  | VText s => Some s
  | VBytea b => Some ("\x" ++ hex_encode b)
  | VUuid u => Some (uuid_text u)
  | VDate d => Some (date_format "%Y-%m-%d" d)
  | VTime t => Some (time_format "%H:%M:%S%.f" t)
  | VTimestamp t => Some (datetime_format "%Y-%m-%d %H:%M:%S%.f" t)
  | VTimestamptz t => Some (utc_format "%Y-%m-%d %H:%M:%S%.f%:z" t)
  | VJson j => Some (to_json j)
  | VArray items =>
      Some ("{" ++ join "," ((fun x => format_elem (is_array_value x) (to_text x)) <$> items) ++ "}")
  | VCitext s => Some s
  | VVector v => Some (format_vector v)
  | VHStore m => Some (format_hstore m)
  | VLtree p => Some p
  | VCube ll ur => Some (format_cube ll ur)
  | VTsVector v => Some (format_tsvector v)
  | VTsQuery q => Some (format_tsquery q)
  end.

(** ** Text input *)

Definition hex_value (c : N) : option N :=
  if is_ascii_digit c then Some (c - 48)%N
  else if in_range 97 102 c then Some (c - 87)%N
  else if in_range 65 70 c then Some (c - 55)%N
  else None.

(** [u8::from_str_radix] on two bytes, the first of which may be a plus sign. *)
Definition hex_pair (a b : N) : option N :=
  if (a =? code "+")%N then hex_value b
  else match hex_value a, hex_value b with
       | Some x, Some y => Some (16 * x + y)%N
       | _, _ => None
       end.

(** Slicing a string inside a character panics. *)
Definition at_boundary (l : list ascii) : bool :=
  match l with a :: _ => negb (cont a) | [] => true end.

Fixpoint hex_bytes (bad : RelError) (l : list ascii) : res (list ascii) :=
  match l with
  | a :: b :: l =>
      if at_boundary l then
        match hex_pair (byte_code a) (byte_code b) with
        | Some n => let? r := hex_bytes bad l in Ok (byte_of n :: r)
        | None => raise bad
        end
      else Err Panic
  | _ => Ok []
  end.

Definition hex_decode (bad : RelError) (s : string) : res string :=
  if Nat.even (String.length s) then
    let? l := hex_bytes bad (String.list_ascii_of_string s) in
    Ok (String.string_of_list_ascii l)
  else raise bad.

Definition parse_numeric (s : string) : option Decimal :=
  match decimal_from_str s with Some d => Some d | None => decimal_from_scientific s end.

Fixpoint from_text (ty : SqlType) (text : string) : res SqlValue :=
  let bad := InvalidTextRepresentation (name ty) text in
  match ty with
  | TBoolean =>
      let w := to_ascii_lowercase (trim text) in
      if bool_decide (w ∈ ["t"; "true"; "yes"; "on"; "1"]) then Ok (VBool true)
      else if bool_decide (w ∈ ["f"; "false"; "no"; "off"; "0"]) then Ok (VBool false)
      else raise bad
  | TSmallInt => let? n := ok_or (parse_int i16_min i16_max (trim text)) bad in Ok (VInt2 n)
  | TInteger => let? n := ok_or (parse_int i32_min i32_max (trim text)) bad in Ok (VInt4 n)
  | TBigInt => let? n := ok_or (parse_int i64_min i64_max (trim text)) bad in Ok (VInt8 n)
  | TReal => let? f := ok_or (parse_f32 (trim text)) bad in Ok (VFloat4 f)
  | TDoublePrecision => let? f := ok_or (parse_f64 (trim text)) bad in Ok (VFloat8 f)
  | TNumeric _ _ => let? d := ok_or (parse_numeric (trim text)) bad in Ok (VNumeric d)
  | TText | TVarchar _ | TChar _ => Ok (VText text)
  | TBytea =>
      let t := trim text in
      match strip_prefix "\x" t with
      | Some hex => let? b := hex_decode bad hex in Ok (VBytea b)
      | None => Ok (VBytea t)
      end
  | TUuid => let? u := ok_or (uuid_parse_str (trim text)) bad in Ok (VUuid u)
  | TDate => parse_date (trim text)
  | TTime => parse_time (trim text)
  | TTimestamp => parse_timestamp (trim text)
  | TTimestamptz => parse_timestamptz (trim text)
  | TJson | TJsonb => let? j := ok_or (json_from_str text) bad in Ok (VJson j)
  | TArray inner => parse_array_text (from_text inner) inner text
  | TCitext => Ok (VCitext text)
  | TVector dims =>
      let? v := parse_vector_text text in
      let? _ := check_vector_dims v dims in
      Ok (VVector v)
  | THStore => parse_hstore_text text
  | TLtree => parse_ltree_text text
  | TCube => parse_cube_text text
  | TTsVector => let? v := parse_tsvector text in Ok (VTsVector v)
  | TTsQuery => let? q := parse_tsquery text in Ok (VTsQuery q)
  | TUnknown => Ok (VText text)
  end.

(** ** Accessors *)

Definition value_as_f64 (v : SqlValue) : option float :=
  match v with
  | VInt2 n | VInt4 n | VInt8 n => Some (f64_of_Z n)
  | VFloat4 f => Some (to_f64 f)
  | VFloat8 f => Some f
  | VNumeric d => decimal_to_f64 d
  | _ => None
  end.

Definition value_as_i64 (v : SqlValue) : option Z :=
  match v with
  | VInt2 n | VInt4 n | VInt8 n => Some n
  | VNumeric d => decimal_to_i64 d
  | VFloat4 f | VFloat8 f => Some (float_to_int i64_min i64_max f)
  | _ => None
  end.

Definition value_as_decimal (v : SqlValue) : option Decimal :=
  match v with
  | VInt2 n | VInt4 n | VInt8 n => Some (decimal_of_int n)
  | VNumeric d => Some d
  | VFloat4 f => decimal_of_f32 f
  | VFloat8 f => decimal_of_f64 f
  | _ => None
  end.

Definition value_as_bool (v : SqlValue) : option bool :=
  match v with VBool b => Some b | _ => None end.

Definition value_as_str (v : SqlValue) : option string :=
  match v with VText s | VCitext s => Some s | _ => None end.

(** ** Index keys *)

Definition nul : string := String.String (byte_of 0) String.EmptyString.

Definition numeric_key (v : SqlValue) : string :=
  "n:" ++ match value_as_decimal v with
          | Some d => decimal_text (decimal_normalize d)
          | None => display_f64 (default S754_nan (value_as_f64 v))
          end.

(** The key under which a value is indexed. *)
Definition index_key (v : SqlValue) : string :=
  match v with
  | VNull => nul ++ "null"
  | VText s => "s:" ++ s
  | VCitext s => "s:" ++ to_lowercase s
  | VBool b => "b:" ++ (if b then "true" else "false")
  | VUuid u => "u:" ++ uuid_text u
  | VLtree p => "l:" ++ replace_char (code ".") nul p
  | v =>
      if is_numeric (type_of v) then numeric_key v
      else "x:" ++ default String.EmptyString (to_text v)
  end.

(** ** Comparison *)

(** [Iterator::cmp]: lexicographic, a proper prefix first. *)
Fixpoint lex_compare {A} (cmp : A -> A -> comparison) (xs ys : list A) : comparison :=
  match xs, ys with
  | [], [] => Eq
  | [], _ => Lt
  | _, [] => Gt
  | x :: xs, y :: ys => then_with (cmp x y) (lex_compare cmp xs ys)
  end.

Definition option_compare {A} (cmp : A -> A -> comparison) (x y : option A) : comparison :=
  match x, y with
  | None, None => Eq
  | None, _ => Lt
  | _, None => Gt
  | Some x, Some y => cmp x y
  end.

Definition bool_compare (a b : bool) : comparison :=
  match a, b with false, true => Lt | true, false => Gt | _, _ => Eq end.

(** Pairwise comparison that stops at the first pair that is not equal; the
    lengths decide when there is none. *)
Definition zip_compare {A} (cmp : A -> A -> option comparison) (xs ys : list A) : option comparison :=
  (fix go (xs' ys' : list A) : option comparison :=
     match xs', ys' with
     | x :: xs', y :: ys' =>
         match cmp x y with
         | Some Eq => go xs' ys'
         | other => other
         end
     | _, _ => Some (Nat.compare (length xs) (length ys))
     end) xs ys.

Definition zero_float : float := S754_zero false.
Definition coord (v : list float) (i : nat) : float := default zero_float (v !! i).

(** The first coordinate that differs, if there is one. *)
Fixpoint corner_compare (pick : float -> float -> float) (al au bl bu : list float) (idx : list nat) :
    option (option comparison) :=
  match idx with
  | [] => None
  | i :: idx =>
      match SFcompare (pick (coord al i) (coord au i)) (pick (coord bl i) (coord bu i)) with
      | Some Eq => corner_compare pick al au bl bu idx
      | other => Some other
      end
  end.

Definition cube_compare (al au bl bu : list float) : option comparison :=
  let idx := seq 0 (Nat.max (length al) (length bl)) in
  match corner_compare f64_min al au bl bu idx with
  | Some r => r
  | None =>
      match corner_compare f64_max al au bl bu idx with
      | Some r => r
      | None => Some (Nat.compare (length al) (length bl))
      end
  end.

Definition lexeme_compare (a b : TsLexeme) : comparison :=
  then_with (String.compare (word a) (word b)) (lex_compare Z.compare (positions a) (positions b)).

Definition numeric_compare (a b : SqlValue) : option comparison :=
  match value_as_decimal a, value_as_decimal b with
  | Some x, Some y => Some (decimal_cmp x y)
  | _, _ =>
      match value_as_f64 a, value_as_f64 b with
      | Some x, Some y => SFcompare x y
      | _, _ => None
      end
  end.

Definition text_compare (a b : SqlValue) : option comparison :=
  match to_text a, to_text b with
  | Some x, Some y => Some (String.compare x y)
  | _, _ => None
  end.

(** Three-valued comparison: [None] when a side is NULL or the values are not
    comparable. *)
Fixpoint compare (a b : SqlValue) {struct a} : option comparison :=
  if value_is_null a || value_is_null b then None
  else if is_numeric (type_of a) && is_numeric (type_of b) then numeric_compare a b
  else
    match a, b with
    | VBool x, VBool y => Some (bool_compare x y)
    | VText x, VText y => Some (String.compare x y)
    | VCitext x, VCitext y | VCitext x, VText y | VText x, VCitext y =>
        Some (String.compare (to_lowercase x) (to_lowercase y))
    | VVector x, VVector y => zip_compare SFcompare x y
    | VLtree x, VLtree y | VLtree x, VText y | VText x, VLtree y =>
        Some (lex_compare String.compare (ltree_labels x) (ltree_labels y))
    | VCube al au, VCube bl bu => cube_compare al au bl bu
    | VHStore x, VHStore y =>
        Some (lex_compare (pair_compare String.compare (option_compare String.compare)) x y)
    | VTsVector x, VTsVector y => Some (lex_compare lexeme_compare x y)
    | VUuid x, VUuid y => Some (uuid_cmp x y)
    | VBytea x, VBytea y => Some (String.compare x y)
    | VDate x, VDate y => Some (date_cmp x y)
    | VTime x, VTime y => Some (time_cmp x y)
    | VTimestamp x, VTimestamp y => Some (datetime_cmp x y)
    | VTimestamptz x, VTimestamptz y => Some (utc_cmp x y)
    | VTimestamp x, VTimestamptz y => Some (utc_cmp (and_utc x) y)
    | VTimestamptz x, VTimestamp y => Some (utc_cmp x (and_utc y))
    | VJson x, VJson y => Some (String.compare (to_json x) (to_json y))
    | VArray xs, VArray ys => zip_compare compare xs ys
    | _, _ => text_compare a b
    end.

Definition sql_eq (a b : SqlValue) : option bool :=
  (fun c => match c with Eq => true | _ => false end) <$> compare a b.

Definition truthy (v : SqlValue) : option bool := match v with VBool b => Some b | _ => None end.

(** ** Decoding *)

Definition json_as_i64 (v : Value) : option Z :=
  match v with
  | Num n =>
      match as_i64 n with
      | Some z => Some z
      | None => Some (float_to_int i64_min i64_max (as_f64 n))
      end
  | Str s => parse_int i64_min i64_max (trim s)
  | Bool b => Some (if b then 1 else 0)%Z
  | _ => None
  end.

Definition json_as_f64 (v : Value) : option float :=
  match v with
  | Num n => Some (as_f64 n)
  | Str s => parse_f64 (trim s)
  | _ => None
  end.

Definition json_as_str (v : Value) : option string :=
  match v with Str s => Some s | _ => None end.

Definition json_as_bool (v : Value) : option bool :=
  match v with Bool b => Some b | _ => None end.

Definition hstore_field (bad : RelError) (kv : string * Value) : res (string * option string) :=
  match kv.2 with
  | Null => Ok (kv.1, None)
  | Str s => Ok (kv.1, Some s)
  | _ => raise bad
  end.

Definition decode_numeric (bad : RelError) (v : Value) : res SqlValue :=
  match v with
  | Str s => let? d := ok_or (parse_numeric s) bad in Ok (VNumeric d)
  | Num _ => let? d := ok_or (decimal_from_str (to_json v)) bad in Ok (VNumeric d)
  | _ => raise bad
  end.

Definition decode_floats (bad : RelError) (v : option Value) : res (list float) :=
  let? items := ok_or (v ≫= as_array) bad in
  traverse (fun item => ok_or (json_as_f64 item) bad) items.

(** Decoding of the storage form by the column type. *)
Fixpoint decode_json (ty : SqlType) (v : Value) : res SqlValue :=
  if is_null v then Ok VNull
  else
    let bad t := InvalidTextRepresentation t (to_json v) in
    match ty with
    | TBoolean => let? b := ok_or (json_as_bool v) (bad "boolean") in Ok (VBool b)
    | TSmallInt => let? n := ok_or (json_as_i64 v) (bad "smallint") in Ok (VInt2 (wrap_signed 16 n))
    | TInteger => let? n := ok_or (json_as_i64 v) (bad "integer") in Ok (VInt4 (wrap_signed 32 n))
    | TBigInt => let? n := ok_or (json_as_i64 v) (bad "bigint") in Ok (VInt8 n)
    | TReal => let? f := ok_or (json_as_f64 v) (bad "real") in Ok (VFloat4 (to_f32 f))
    | TDoublePrecision =>
        let? f := ok_or (json_as_f64 v) (bad "double precision") in Ok (VFloat8 f)
    | TNumeric _ _ => decode_numeric (bad "numeric") v
    | TText | TVarchar _ | TChar _ =>
        let? s := ok_or (json_as_str v) (bad "text") in Ok (VText s)
    | TBytea =>
        let? s := ok_or (json_as_str v) (bad "bytea") in
        let? b := ok_or (base64_decode s) (bad "bytea") in Ok (VBytea b)
    | TUuid =>
        let? s := ok_or (json_as_str v) (bad "uuid") in
        let? u := ok_or (uuid_parse_str s) (bad "uuid") in Ok (VUuid u)
    | TDate => let? s := ok_or (json_as_str v) (bad "date") in parse_date s
    | TTime => let? s := ok_or (json_as_str v) (bad "time") in parse_time s
    | TTimestamp => let? s := ok_or (json_as_str v) (bad "timestamp") in parse_timestamp s
    | TTimestamptz => let? s := ok_or (json_as_str v) (bad "timestamptz") in parse_timestamptz s
    | TJson | TJsonb => Ok (VJson v)
    | TArray inner =>
        let? items := ok_or (as_array v) (bad "array") in
        let? vs := traverse (decode_json inner) items in
        Ok (VArray vs)
    | TCitext => let? s := ok_or (json_as_str v) (bad "citext") in Ok (VCitext s)
    | TVector dims =>
        let? fs := decode_floats (bad "vector") (Some v) in
        let fs := to_f32 <$> fs in
        let? _ := check_vector_dims fs dims in
        Ok (VVector fs)
    | THStore =>
        let? fields := ok_or (as_object v) (bad "hstore") in
        let? kvs := traverse (hstore_field (bad "hstore")) fields in
        Ok (VHStore (BTreeMap.of_list kvs))
    | TLtree => let? s := ok_or (json_as_str v) (bad "ltree") in parse_ltree_text s
    | TCube =>
        let? fields := ok_or (as_object v) (bad "cube") in
        let? ll := decode_floats (bad "cube") (BTreeMap.get fields "ll") in
        let? ur := decode_floats (bad "cube") (BTreeMap.get fields "ur") in
        if decide (length ll <> length ur \/ ll = []) then raise (bad "cube") else Ok (VCube ll ur)
    | TTsVector =>
        let? s := ok_or (json_as_str v) (bad "tsvector") in
        let? x := parse_tsvector s in Ok (VTsVector x)
    | TTsQuery =>
        let? s := ok_or (json_as_str v) (bad "tsquery") in
        let? x := parse_tsquery s in Ok (VTsQuery x)
    | TUnknown => Ok (VJson v)
    end.

(** ** Casts *)

Definition checked_int (r lo hi : float) (ty : SqlType) : res float :=
  if is_nan r || SFltb r lo || SFltb hi r then raise (NumericValueOutOfRange (name ty)) else Ok r.

(** The range of an integer type. *)
Definition int_range (ty : SqlType) : Z * Z :=
  match ty with
  | TSmallInt => (i16_min, i16_max)
  | TInteger => (i32_min, i32_max)
  | _ => (i64_min, i64_max)
  end.

Definition int_value (ty : SqlType) (n : Z) : SqlValue :=
  match ty with
  | TSmallInt => VInt2 n
  | TInteger => VInt4 n
  | _ => VInt8 n
  end.

Definition cannot_coerce (v : SqlValue) (ty : SqlType) : RelError :=
  CannotCoerce (name (type_of v)) (name ty).

Definition text_to_f64 (ty : SqlType) (s : string) : res float :=
  ok_or (parse_f64 (trim s)) (InvalidTextRepresentation (name ty) s).

(** To an integer type, through a float. *)
Definition cast_int (v : SqlValue) (ty : SqlType) : res SqlValue :=
  let? n :=
    match v with
    | VText s => text_to_f64 ty s
    | VBool b => Ok (f64_of_Z (if b then 1 else 0))
    | v => ok_or (value_as_f64 v) (cannot_coerce v ty)
    end in
  let '(lo, hi) := int_range ty in
  let? r := checked_int (f64_round n) (f64_of_Z lo) (f64_of_Z hi) ty in
  Ok (int_value ty (float_to_int lo hi r)).

Definition cast_f64 (v : SqlValue) (ty : SqlType) : res float :=
  match v with
  | VText s => text_to_f64 ty s
  | v => ok_or (value_as_f64 v) (cannot_coerce v ty)
  end.

Definition cast_vector (v : SqlValue) (dims : option N) : res SqlValue :=
  let? fs :=
    match v with
    | VVector fs => Ok fs
    | VText s | VCitext s => parse_vector_text s
    | VArray items =>
        traverse (fun it => let? f := ok_or (value_as_f64 it) (cannot_coerce v (TVector dims)) in
                            Ok (to_f32 f)) items
    | _ => raise (cannot_coerce v (TVector dims))
    end in
  let? _ := check_vector_dims fs dims in
  Ok (VVector fs).

Definition cast_temporal (v : SqlValue) (ty : SqlType) : res SqlValue :=
  match v, ty with
  | VText s, _ => from_text ty s
  | VTimestamp t, TDate => Ok (VDate (datetime_date t))
  | VTimestamptz t, TDate => Ok (VDate (datetime_date (naive_utc t)))
  | VTimestamp t, TTimestamptz => Ok (VTimestamptz (and_utc t))
  | VTimestamptz t, TTimestamp => Ok (VTimestamp (naive_utc t))
  | VDate _, TDate | VTime _, TTime | VTimestamp _, TTimestamp | VTimestamptz _, TTimestamptz => Ok v
  | _, _ => raise (cannot_coerce v ty)
  end.

Definition value_text (v : SqlValue) : string := default String.EmptyString (to_text v).

Fixpoint cast (ty : SqlType) (v : SqlValue) : res SqlValue :=
  if value_is_null v then Ok VNull
  else
    let bad := cannot_coerce v ty in
    match ty with
    | TBoolean =>
        match v with
        | VBool _ => Ok v
        | VText s => from_text ty s
        | v => if is_numeric (type_of v)
               then Ok (VBool (negb (SFeqb (default zero_float (value_as_f64 v)) zero_float)))
               else raise bad
        end
    | TSmallInt | TInteger | TBigInt => cast_int v ty
    | TReal => let? f := cast_f64 v ty in Ok (VFloat4 (to_f32 f))
    | TDoublePrecision => let? f := cast_f64 v ty in Ok (VFloat8 f)
    | TNumeric _ _ =>
        match v with
        | VText s => from_text ty s
        | v => let? d := ok_or (value_as_decimal v) bad in Ok (VNumeric d)
        end
    | TText | TVarchar _ | TChar _ => Ok (VText (value_text v))
    | TCitext => Ok (VCitext (value_text v))
    | TVector dims => cast_vector v dims
    | THStore =>
        match v with
        | VHStore _ => Ok v
        | VText s | VCitext s => parse_hstore_text s
        | _ => raise bad
        end
    | TLtree =>
        match v with
        | VLtree _ => Ok v
        | VText s | VCitext s => parse_ltree_text s
        | _ => raise bad
        end
    | TCube =>
        match v with
        | VCube _ _ => Ok v
        | VText s | VCitext s => parse_cube_text s
        | _ => raise bad
        end
    | TTsVector =>
        match v with
        | VTsVector _ => Ok v
        | VText s | VCitext s => from_text ty s
        | _ => raise bad
        end
    | TTsQuery =>
        match v with
        | VTsQuery _ => Ok v
        | VText s | VCitext s => from_text ty s
        | _ => raise bad
        end
    | TJson | TJsonb =>
        match v with
        | VJson _ => Ok v
        | VText s => let? j := ok_or (json_from_str s) bad in Ok (VJson j)
        | v => Ok (VJson (encode_json v))
        end
    | TUuid =>
        match v with
        | VUuid _ => Ok v
        | VText s => from_text ty s
        | _ => raise bad
        end
    | TDate | TTime | TTimestamp | TTimestamptz => cast_temporal v ty
    | TBytea =>
        match v with
        | VBytea _ => Ok v
        | VText s => Ok (VBytea s)
        | _ => raise bad
        end
    | TArray inner =>
        match v with
        | VArray items => let? vs := traverse (cast inner) items in Ok (VArray vs)
        | VText s => parse_array_text (from_text inner) inner s
        | _ => raise bad
        end
    | TUnknown => Ok v
    end.
End value.
