(* ===== verification/SqlTyping.v ===== *)
(** * Typing of SQL values

    The values of a type, and that reading a text, decoding a stored value and
    casting give values of the type they were asked for.  [sound] states a
    postcondition of a fallible function: a value it returns satisfies it, an
    error is always allowed, a panic only where said. *)

From S2P Require Import Prelude BTree Json Utf8 RustString RustFloat FloatExact SqlTypes Fts FtsInv SqlValue.

Abbreviation scalars := (Forall (fun c => scalar c = true)).

(** ** Postconditions *)

Definition sound {A} (panics : Prop) (Q : A -> Prop) (r : res A) : Prop :=
  match r with
  | Ok x => Q x
  | Err (Raise _) => True
  | Err Panic => panics
  end.

Lemma sound_bind {A B} P (R : A -> Prop) (Q : B -> Prop) (m : res A) (k : A -> res B) :
  sound P R m -> (forall x, R x -> sound P Q (k x)) -> sound P Q (let? x := m in k x).
Proof. intros Hm Hk. destruct m as [x|[e|]]; simpl in *; auto. Qed.

Lemma sound_mono {A} (P P' : Prop) (R Q : A -> Prop) (m : res A) :
  sound P R m -> (P -> P') -> (forall x, R x -> Q x) -> sound P' Q m.
Proof. destruct m as [x|[e|]]; simpl; auto. Qed.

Lemma sound_ok_or {A} P (Q : A -> Prop) o e :
  (forall x, o = Some x -> Q x) -> sound P Q (ok_or o e).
Proof. destruct o; simpl; auto. Qed.

Lemma sound_traverse {A B} P (Q : B -> Prop) (f : A -> res B) l :
  Forall (fun a => sound P Q (f a)) l ->
  sound P (fun bs => Forall Q bs /\ length bs = length l) (traverse f l).
Proof.
  intros Hl. induction Hl as [|a l Ha Hl IH]; simpl; [by split|].
  eapply sound_bind; [exact Ha|]. intros b Hb.
  eapply sound_bind; [exact IH|]. intros bs [Hbs Hlen]. simpl. split; [by constructor|by f_equal].
Qed.

(** A property of all elements, in a form that recursive definitions may use. *)
Definition all {A} (P : A -> Prop) : list A -> Prop :=
  fix go (l : list A) : Prop := match l with [] => True | x :: l => P x /\ go l end.

Lemma all_Forall {A} (P : A -> Prop) l : all P l <-> Forall P l.
Proof. induction l as [|x l IH]; simpl; [by split|]. by rewrite Forall_cons, IH. Qed.

(** ** Well-formed values *)

(** JSON values that [serde_json] can hold: UTF-8 texts and 64-bit integers. *)
Fixpoint json_ok (v : Value) : Prop :=
  match v with
  | Num (PosInt n) => in_u64 n
  | Num (NegInt z) => (i64_min <= z < 0)%Z
  | Str s => utf8 s
  | Array l => all json_ok l
  | Object m => all (fun kv => utf8 kv.1 /\ json_ok kv.2) m
  | _ => True
  end.

Section typing.
Context `{!Foreign}.

(** The texts that third-party functions return are UTF-8, as Rust strings
    are. *)
Class ForeignText := {
  json_text_utf8 : forall v, utf8 (to_json v);
  json_read_ok : forall s v, json_from_str s = Some v -> json_ok v;
  decimal_text_utf8 : forall d, utf8 (decimal_text d);
  uuid_text_utf8 : forall u, utf8 (uuid_text u);
  date_text_utf8 : forall f d, utf8 (date_format f d);
  time_text_utf8 : forall f t, utf8 (time_format f t);
  datetime_text_utf8 : forall f t, utf8 (datetime_format f t);
  utc_text_utf8 : forall f t, utf8 (utc_format f t);
  rfc3339_utf8 : forall t, utf8 (utc_to_rfc3339 t);
  base64_utf8 : forall s, utf8 (base64_encode s)
}.

Definition hstore_ok (m : list (string * option string)) : Prop :=
  BTreeMap.sorted m /\ Forall (fun kv => utf8 kv.1 /\ from_option utf8 True kv.2) m.

Definition ltree_ok (p : string) : Prop :=
  utf8 p /\ trim p = p /\ (p = String.EmptyString \/ forallb label_ok (split (code ".") p) = true).

(** Values that the code can hold: integers in range, UTF-8 texts, and the
    invariants of the extension types. *)
Fixpoint value_ok (v : SqlValue) : Prop :=
  match v with
  | VInt2 n => (i16_min <= n <= i16_max)%Z
  | VInt4 n => (i32_min <= n <= i32_max)%Z
  | VInt8 n => (i64_min <= n <= i64_max)%Z
  | VText s | VCitext s => utf8 s
  | VJson j => json_ok j
  | VArray items => all value_ok items
  | VHStore m => hstore_ok m
  | VLtree p => ltree_ok p
  | VCube ll ur => length ll = length ur /\ ll <> []
  | VTsVector l => tsvector_ok l
  | VTsQuery q => from_option query_ok True q
  | _ => True
  end.

(** The values of a type; NULL is one of every type. *)
Fixpoint shape (ty : SqlType) (v : SqlValue) : bool :=
  match ty, v with
  | _, VNull | TUnknown, _ => true
  | TBoolean, VBool _ | TSmallInt, VInt2 _ | TInteger, VInt4 _ | TBigInt, VInt8 _ => true
  | TReal, VFloat4 _ | TDoublePrecision, VFloat8 _ | TNumeric _ _, VNumeric _ => true
  | (TText | TVarchar _ | TChar _), VText _ | TCitext, VCitext _ => true
  | TBytea, VBytea _ | TUuid, VUuid _ => true
  | TDate, VDate _ | TTime, VTime _ => true
  | TTimestamp, VTimestamp _ | TTimestamptz, VTimestamptz _ => true
  | (TJson | TJsonb), VJson _ => true
  | TArray inner, VArray items => forallb (shape inner) items
  | TVector dims, VVector v =>
      match dims with Some d => bool_decide (N.of_nat (length v) mod 2 ^ 32 = d)%N | None => true end
  | THStore, VHStore _ | TLtree, VLtree _ | TCube, VCube _ _ => true
  | TTsVector, VTsVector _ | TTsQuery, VTsQuery _ => true
  | _, _ => false
  end.

Definition has_type (ty : SqlType) (v : SqlValue) : Prop := value_ok v /\ shape ty v = true.

(** Only a [bytea] text can make a conversion panic. *)
Fixpoint holds_bytea (ty : SqlType) : bool :=
  match ty with TBytea => true | TArray inner => holds_bytea inner | _ => false end.

Definition well_typed (ty : SqlType) : res SqlValue -> Prop :=
  sound (holds_bytea ty = true) (has_type ty).

(** ** Texts *)

Context `{!ForeignText}.

Lemma hex_encode_utf8 s : utf8 (hex_encode s).
Proof.
  apply utf8_of_chars, Forall_join, Forall_fmap, Forall_true. intros a.
  assert (Hd : forall n, (n < 16)%N -> scalar (hex_digit n) = true).
  { intros n Hn. unfold scalar, hex_digit. destruct (n <? 10)%N eqn:E.
    all: apply orb_true_iff; left; apply N.ltb_lt; lia. }
  pose proof (byte_code_lt a). constructor; [|constructor; [|done]]; apply Hd.
  - apply N.Div0.div_lt_upper_bound; lia.
  - by apply N.mod_lt.
Qed.

Lemma escape_quotes_utf8 s :
  utf8 s -> utf8 (dquote ++ replace_char 34 ("\" ++ dquote) (replace_char backslash "\\" s) ++ dquote).
Proof. intros Hs. assert (H1 : utf8 dquote) by literal. utf8_text; literal. Qed.

Lemma format_float_utf8 f : utf8 (format_float f).
Proof.
  unfold format_float. destruct (is_nan f); [literal|]. destruct (is_infinite f); [|apply display_float_utf8].
  destruct (is_positive f); literal.
Qed.

Lemma format_float_f32_utf8 f : utf8 (format_float_f32 f).
Proof.
  unfold format_float_f32. destruct (is_nan f); [literal|].
  destruct (is_infinite f); [|apply display_float_utf8]. destruct (is_positive f); literal.
Qed.

Lemma hstore_pair_utf8 kv : utf8 kv.1 /\ from_option utf8 True kv.2 -> utf8 (hstore_pair kv).
Proof.
  intros [Hk Hv]. unfold hstore_pair, hstore_quote. destruct (kv.2) as [v|]; simpl in Hv.
  - apply utf8_app; [by apply escape_quotes_utf8|]. apply utf8_app; [literal|].
    by apply escape_quotes_utf8.
  - apply utf8_app; [by apply escape_quotes_utf8|literal].
Qed.

Lemma format_hstore_utf8 m : hstore_ok m -> utf8 (format_hstore m).
Proof.
  intros [_ Hm]. apply join_utf8; [literal|]. apply Forall_fmap.
  rewrite sort_by_perm. eapply Forall_impl; [exact Hm|]. intros kv. apply hstore_pair_utf8.
Qed.

Lemma format_floats_utf8 sep (f : float -> string) v :
  utf8 sep -> (forall x, utf8 (f x)) -> utf8 (join sep (f <$> v)).
Proof. intros Hs Hf. apply join_utf8; [done|]. by apply Forall_fmap, Forall_true. Qed.

Lemma format_cube_utf8 ll ur : utf8 (format_cube ll ur).
Proof.
  assert (Hc : forall v, utf8 (format_coords v)).
  { intros v. apply format_floats_utf8; [literal|apply format_float_utf8]. }
  unfold format_cube. case_match; repeat apply utf8_app; try apply Hc; literal.
Qed.

Lemma format_elem_utf8 b t : from_option utf8 True t -> utf8 (format_elem b t).
Proof.
  destruct t as [t|]; simpl; [|intros _; literal]. intros Ht. destruct b; [done|].
  case_match; [by apply escape_quotes_utf8|done].
Qed.

(** The text of a value is UTF-8. *)
Lemma to_text_utf8 v : value_ok v -> from_option utf8 True (to_text v).
Proof.
  induction v as [v Hleaf|items IH] using sql_value_ind'.
  - destruct v; simpl; intros Hv; auto using json_text_utf8, decimal_text_utf8, uuid_text_utf8,
      date_text_utf8, time_text_utf8, datetime_text_utf8, utc_text_utf8, pretty_Z_utf8,
      format_float_utf8, format_float_f32_utf8, format_hstore_utf8, format_cube_utf8.
    + destruct b; literal.
    + apply utf8_app; [literal|apply hex_encode_utf8].
    + by destruct (Hleaf items).
    + repeat apply utf8_app; [literal| |literal].
      apply format_floats_utf8; [literal|]. intros f. apply format_float_utf8.
    + apply Hv.
    + apply format_tsvector_chars, Hv.
    + destruct q as [q|]; [by apply infix_lexes|literal].
  - cbn [to_text value_ok from_option]. rewrite all_Forall. intros Hi.
    repeat apply utf8_app; [literal| |literal]. apply join_utf8; [literal|].
    apply Forall_fmap. rewrite Forall_forall in *. intros x Hx. by apply format_elem_utf8, IH, Hi.
Qed.

Lemma value_text_utf8 v : value_ok v -> utf8 (value_text v).
Proof. intros Hv%to_text_utf8. unfold value_text. destruct (to_text v); [done|constructor]. Qed.

(** The stored form of a value is well-formed. *)
Lemma integer_ok z : (i64_min <= z <= i64_max)%Z -> json_ok (Num (number_from_i64 z)).
Proof.
  intros Hz. unfold number_from_i64. case_decide; simpl; [|lia].
  unfold in_u64, u64_modulus, i64_max in *. lia.
Qed.

Lemma encode_ok v : value_ok v -> json_ok (encode_json v).
Proof.
  assert (Hf : forall f, json_ok (float_json f)).
  { intros f. unfold float_json, number_from_f64. by destruct (f64_is_finite f). }
  assert (Hfs : forall (g : float -> float) l, all json_ok ((fun x => float_json (g x)) <$> l)).
  { intros g l. apply all_Forall, Forall_fmap, Forall_true. intros x. apply Hf. }
  induction v as [v Hleaf|items IH] using sql_value_ind'.
  - destruct v; simpl; intros Hv; auto using decimal_text_utf8, uuid_text_utf8, date_text_utf8,
      time_text_utf8, datetime_text_utf8, rfc3339_utf8, base64_utf8.
    1-3: apply integer_ok; unfold i16_min, i16_max, i32_min, i32_max, i64_min, i64_max in *; lia.
    + by destruct (Hleaf items).
    + apply all_Forall, BTreeMap.of_list_Forall, Forall_fmap. destruct Hv as [_ Hm].
      eapply Forall_impl; [exact Hm|]. intros [k [x|]] [Hk Hx]; split; done.
    + apply Hv.
    + split; [split; [literal|apply (Hfs id)]|]. split; [split; [literal|apply (Hfs id)]|done].
    + apply format_tsvector_chars, Hv.
    + destruct q as [q|]; [by apply infix_lexes|literal].
  - cbn [encode_json value_ok json_ok]. rewrite !all_Forall. intros Hi. apply Forall_fmap.
    rewrite Forall_forall in *. intros x Hx. by apply IH, Hi.
Qed.

(** ** Reading texts *)

Lemma hstore_quoted_sub l w r :
  hstore_quoted l = Some (w, r) -> length r < length l /\ w ⊆ l /\ r ⊆ l.
Proof.
  enough (forall n l w r, length l <= n -> hstore_quoted l = Some (w, r) ->
    length r < length l /\ w ⊆ l /\ r ⊆ l) by eauto.
  clear. induction n as [|n IH]; intros [|c l] w r Hn; simpl in *; try done; try lia.
  destruct (c =? 34)%N; [intros [= <- <-]; set_solver by lia|]. destruct (c =? backslash)%N.
  - destruct l as [|d l]; [done|].
    destruct (hstore_quoted l) as [[w' r']|] eqn:E; [|done]. intros [= <- <-].
    apply IH in E as (? & ? & ?); [|simpl in *; lia]. split; [simpl; lia|set_solver].
  - destruct (hstore_quoted l) as [[w' r']|] eqn:E; [|done]. intros [= <- <-].
    apply IH in E as (? & ? & ?); [|simpl in *; lia]. split; [simpl; lia|set_solver].
Qed.

Lemma hstore_token_ok l w q r :
  scalars l -> hstore_token l = Some (w, q, r) -> length r < length l /\ scalars r /\ utf8 w.
Proof.
  intros Hs. destruct l as [|c l]; [done|]. cbn [hstore_token]. destruct (c =? 34)%N.
  - destruct (hstore_quoted l) as [[w' r']|] eqn:E; [|done]. intros [= <- <- <-].
    apply hstore_quoted_sub in E as (Hl & Hw & Hr). apply Forall_cons in Hs as [_ Hs].
    split; [simpl; lia|]. rewrite Forall_forall in *. split; [by auto|].
    apply utf8_of_chars, Forall_forall. auto.
  - unfold non_empty. destruct (bare_body hstore_stops (c :: l)) as [[[|x w'] r']|] eqn:E; [done| |done].
    intros [= <- <- <-]. apply bare_body_sub in E as (Hl & Hw & Hr).
    split; [simpl in *; lia|]. rewrite Forall_forall in *. split; [by auto|].
    apply (utf8_of_chars (x :: w')), Forall_forall. auto.
Qed.

Lemma skip_space_ok l :
  scalars l -> length (skip_while is_whitespace l) <= length l /\ scalars (skip_while is_whitespace l).
Proof.
  intros Hs. pose proof (skip_while_suffix is_whitespace l) as Hq.
  split; [by apply suffix_length|by apply (suffix_Forall _ _ _ Hq)].
Qed.

Lemma skip_arrow_ok text l :
  scalars l -> sound False (fun r => length r <= length l /\ scalars r) (skip_arrow text l).
Proof.
  intros Hs. destruct l as [|c [|d l]]; simpl; try done. case_match; simpl; [|done].
  do 2 apply Forall_cons in Hs as [_ Hs]. by split; [lia|].
Qed.

Lemma parse_hstore_sound text fuel l m :
  scalars l -> length l <= fuel -> hstore_ok m ->
  sound False hstore_ok (parse_hstore text l m fuel).
Proof.
  revert l m. induction fuel as [|fuel IH]; intros l m Hs Hf Hm; cbn [parse_hstore];
    destruct (skip_space_ok l Hs) as [Hl1 Hs1];
    destruct (skip_while is_whitespace l) as [|c l1]; try done; [simpl in *; lia|].
  apply (sound_bind _ (fun t => length t.2 < length (c :: l1) /\ scalars t.2 /\ utf8 t.1.1)).
  { apply sound_ok_or. intros [[w q] r] Ht. by apply hstore_token_ok in Ht. }
  intros [[key q1] l2] (Hl2 & Hs2 & Hk). destruct (skip_space_ok l2 Hs2) as [Hl3 Hs3].
  eapply sound_bind; [by apply skip_arrow_ok|]. intros l4 [Hl4 Hs4].
  destruct (skip_space_ok l4 Hs4) as [Hl5 Hs5].
  apply (sound_bind _ (fun t => length t.2 < length (skip_while is_whitespace l4)
                                /\ scalars t.2 /\ utf8 t.1.1)).
  { apply sound_ok_or. intros [[w q] r] Ht. by apply hstore_token_ok in Ht. }
  intros [[val q2] l6] (Hl6 & Hs6 & Hv). cbn [fst snd length] in *.
  destruct (skip_space_ok l6 Hs6) as [Hl7 Hs7].
  set (value := if negb q2 && _ then None else Some val).
  assert (Hm' : hstore_ok (BTreeMap.or_insert m key value)).
  { destruct Hm as [Hm1 Hm2]. split; [by apply BTreeMap.or_insert_sorted|].
    apply BTreeMap.or_insert_Forall; [|done]. split; [done|]. unfold value.
    by destruct (negb q2 && _). }
  destruct (skip_while is_whitespace l6) as [|c' l7]; [done|]. destruct (c' =? code ",")%N; [|done].
  apply IH; [by apply Forall_cons in Hs7 as [_ ?]|simpl in *; lia|done].
Qed.

Lemma parse_hstore_text_sound text : utf8 text -> well_typed THStore (parse_hstore_text text).
Proof.
  intros Ht. unfold parse_hstore_text. eapply sound_bind.
  - eapply sound_mono; [apply parse_hstore_sound; [done|done|]|done|intros x Hx; exact Hx].
    split; constructor.
  - intros m Hm. by split.
Qed.

Lemma parse_ltree_text_sound text : utf8 text -> well_typed TLtree (parse_ltree_text text).
Proof.
  intros Ht. unfold parse_ltree_text. case_decide as Hd.
  - repeat split; [constructor|by left].
  - destruct (forallb _ _) eqn:E; [|done]. split; [|done].
    split; [by apply trim_utf8|]. split; [by apply trim_idem|by right].
Qed.

Lemma parse_coords_sound P text s : sound P (fun v => v <> []) (parse_coords text s).
Proof.
  unfold parse_coords. case_decide; [done|].
  eapply sound_mono; [apply (sound_traverse P (fun _ => True))| |]; [|done|].
  - apply Forall_true. intros p. by apply sound_ok_or.
  - intros v [_ Hlen] ->. unfold split in Hlen. rewrite length_fmap in Hlen.
    destruct (split_list (code ",") (chars (trim s))) eqn:E; [by apply split_list_cons in E|done].
Qed.

Lemma parse_cube_text_sound text : well_typed TCube (parse_cube_text text).
Proof.
  assert (Hc : forall t, well_typed TCube (parse_corners text t)).
  { intros t. unfold parse_corners. destruct (strip_prefix "(" t) as [rest|].
    - destruct (split_once (code ")") rest) as [[inside after]|]; [|done].
      eapply sound_bind; [apply parse_coords_sound|]. intros first Hf. cbv beta in Hf.
      case_decide; [by repeat split|]. destruct (strip_prefix "," _) as [group|]; [|done].
      destruct (strip_prefix "(" (trim group) ≫= strip_suffix ")") as [inner|]; [|done].
      eapply sound_bind; [apply parse_coords_sound|]. intros second Hs.
      case_decide; [by repeat split|done].
    - eapply sound_bind; [apply parse_coords_sound|]. intros p Hp. by repeat split. }
  unfold parse_cube_text. destruct (strip_prefix "[" (trim text)) as [inner|]; [|apply Hc].
  destruct (strip_suffix "]" inner); [apply Hc|done].
Qed.

Lemma check_vector_dims_sound P v dims :
  sound P (fun _ => shape (TVector dims) (VVector v) = true) (check_vector_dims v dims).
Proof.
  unfold check_vector_dims. destruct dims as [d|]; [|done]. case_decide; [|done].
  simpl. by apply bool_decide_eq_true_2.
Qed.

Lemma hex_decode_sound bad s : sound True (fun _ => True) (hex_decode bad s).
Proof. destruct (hex_decode bad s) as [|[]]; done. Qed.

Lemma parse_int_range lo hi s z : parse_int lo hi s = Some z -> (lo <= z <= hi)%Z.
Proof.
  unfold parse_int. intros Hp. repeat case_match; simplify_eq/=;
    apply bind_Some in Hp as (? & ? & Hp); case_decide; simplify_eq; lia.
Qed.

Lemma temporal_sound :
  (forall s, well_typed TDate (parse_date s)) /\ (forall s, well_typed TTime (parse_time s)) /\
  (forall s, well_typed TTimestamp (parse_timestamp s)) /\
  (forall s, well_typed TTimestamptz (parse_timestamptz s)).
Proof.
  split_and!; intros s; unfold parse_date, parse_time, parse_timestamp, parse_timestamptz;
    repeat case_match; done.
Qed.
End typing.
