(* ===== verification/SqlConvert.v ===== *)
(** * Conversions of SQL values

    Reading a text, decoding a stored value and casting give values of the type
    they were asked for; a stored value is read back unchanged; which integers a
    cast keeps. *)

From S2P Require Import Prelude BTree Json Utf8 RustString RustFloat FloatExact SqlTypes Fts FtsInv SqlValue SqlTyping.

Section convert.
Context `{!Foreign, !ForeignText}.

(** ** Types of conversions *)

Lemma well_typed_leaf ty v : value_ok v -> shape ty v = true -> well_typed ty (Ok v).
Proof. by split. Qed.

Lemma well_typed_option {A} ty (o : option A) (mk : A -> SqlValue) e :
  (forall x, o = Some x -> value_ok (mk x) /\ shape ty (mk x) = true) ->
  well_typed ty (let? x := ok_or o e in Ok (mk x)).
Proof. intros Ho. destruct o; [|done]. by apply Ho. Qed.

Lemma has_type_null ty : has_type ty VNull.
Proof. split; [done|by destruct ty]. Qed.

Lemma has_type_array ty vs : Forall (has_type ty) vs -> has_type (TArray ty) (VArray vs).
Proof.
  intros Hvs. split; simpl.
  - apply all_Forall. eapply Forall_impl; [exact Hvs|]. by intros v [? _].
  - apply forallb_forall. intros v Hv%list_elem_of_In. rewrite Forall_forall in Hvs. by apply Hvs.
Qed.

Lemma array_sound {A} P ty (f : A -> res SqlValue) items :
  Forall (fun x => sound P (has_type ty) (f x)) items ->
  sound P (has_type (TArray ty)) (let? vs := traverse f items in Ok (VArray vs)).
Proof.
  intros Hi. eapply sound_bind; [by apply sound_traverse|]. intros vs [Hvs _].
  by apply has_type_array.
Qed.

Lemma split_elems_scalar l cur q : scalars l -> scalars cur -> Forall scalars (split_elems l cur q).
Proof.
  enough (forall n l cur q, length l <= n -> scalars l -> scalars cur -> Forall scalars (split_elems l cur q))
    by eauto.
  clear. induction n as [|n IH]; intros [|c l] cur q Hn Hl Hc; simpl in Hn; try lia; cbn [split_elems];
    try by apply Forall_singleton, Forall_reverse.
  apply Forall_cons in Hl as [Hx Hl].
  destruct (c =? 34)%N; [by apply IH; [lia|..|constructor]|]. destruct (c =? backslash)%N.
  - destruct l as [|d l]; [by apply Forall_singleton, Forall_reverse; constructor|].
    apply Forall_cons in Hl as [Hd Hl]. apply IH; [simpl in *; lia|done|by repeat constructor].
  - case_match; [constructor; [by apply Forall_reverse|by apply IH; [lia|..]]|].
    by apply IH; [lia|..|constructor].
Qed.

Lemma replace_pair_scalar c d r l : scalars r -> scalars l -> scalars (replace_pair c d r l).
Proof.
  enough (forall n l, length l <= n -> scalars r -> scalars l -> scalars (replace_pair c d r l)) by eauto.
  clear. induction n as [|n IH]; intros [|x [|y l]] Hn Hr Hl; simpl in Hn; try lia; try done.
  apply Forall_cons in Hl as [Hx Hl]. cbn [replace_pair]. case_match.
  - apply Forall_app. split; [done|]. apply Forall_cons in Hl as [_ Hl]. by apply IH; [lia|..].
  - constructor; [done|]. by apply (IH (y :: l)); [simpl; lia|..].
Qed.

Lemma unquote_elem_utf8 raw : utf8 raw -> utf8 (unquote_elem raw).
Proof.
  intros Hr. apply utf8_of_chars. apply replace_pair_scalar; [by repeat constructor|].
  apply replace_pair_scalar; [by repeat constructor|]. by apply trim_matches_utf8, trim_utf8.
Qed.

Lemma parse_array_text_sound ty (f : string -> res SqlValue) text :
  (forall s, utf8 s -> well_typed ty (f s)) -> utf8 text ->
  well_typed (TArray ty) (parse_array_text f ty text).
Proof.
  intros Hf Ht. unfold parse_array_text.
  destruct (strip_prefix "{" (trim text) ≫= strip_suffix "}") as [body|] eqn:E; [|done].
  apply bind_Some in E as (s1 & E1 & E2).
  apply strip_prefix_utf8 in E1; [|by apply trim_utf8]. apply strip_suffix_utf8 in E2; [|done].
  case_decide; [by apply has_type_array|]. apply array_sound.
  apply Forall_fmap. eapply Forall_impl; [by apply split_elems_scalar|]. intros l Hl. simpl.
  destruct (eq_ignore_ascii_case _ _); [apply has_type_null|]. by apply Hf, unquote_elem_utf8, utf8_of_chars.
Qed.

Lemma parse_vector_text_sound P text : sound P (fun _ => True) (parse_vector_text text).
Proof.
  unfold parse_vector_text. destruct (_ ≫= _) as [body|]; [|done]. case_decide; [done|].
  eapply sound_mono; [apply (sound_traverse _ (fun _ => True))|done|done].
  apply Forall_true. intros x. by apply sound_ok_or.
Qed.

(** Reading a text. *)
Lemma from_text_sound ty text : utf8 text -> well_typed ty (from_text ty text).
Proof.
  revert text. induction ty; intros text Ht; cbn [from_text];
    try apply well_typed_option; try (intros x Hx; by split); try by split.
  - repeat case_match; done.
  - intros x Hx%parse_int_range. by split.
  - intros x Hx%parse_int_range. by split.
  - intros x Hx%parse_int_range. by split.
  - destruct (strip_prefix _ _) as [hex|]; [|done].
    eapply sound_bind; [eapply sound_mono; [apply hex_decode_sound|done|done]|]. done.
  - apply temporal_sound.
  - apply temporal_sound.
  - apply temporal_sound.
  - apply temporal_sound.
  - intros x Hx. split; [by eapply json_read_ok|done].
  - intros x Hx. split; [by eapply json_read_ok|done].
  - by apply parse_array_text_sound.
  - eapply sound_bind; [apply parse_vector_text_sound|]. intros v _. eapply sound_bind; [apply check_vector_dims_sound|]. intros [] Hv. by split.
  - by apply parse_hstore_text_sound.
  - by apply parse_ltree_text_sound.
  - apply parse_cube_text_sound.
  - pose proof (parse_tsvector_ok text Ht) as Hp. destruct (parse_tsvector text) as [v|[]]; done.
  - pose proof (parse_tsquery_ok text Ht) as Hp. destruct (parse_tsquery text) as [[q|]|[]]; done.
Qed.

Lemma json_as_str_ok j s : json_ok j -> json_as_str j = Some s -> utf8 s.
Proof. destruct j; try done. by intros Hj [= ->]. Qed.

Lemma wrap_signed_range bits n :
  (0 < bits)%Z -> (- 2 ^ (bits - 1) <= wrap_signed bits n <= 2 ^ (bits - 1) - 1)%Z.
Proof.
  intros Hb. unfold wrap_signed.
  assert (Hp : (2 ^ bits = 2 * 2 ^ (bits - 1))%Z) by (rewrite <- Z.pow_succ_r by lia; f_equal; lia).
  pose proof (Z.pow_pos_nonneg 2 (bits - 1) ltac:(lia) ltac:(lia)).
  pose proof (Z.mod_pos_bound (n + 2 ^ (bits - 1)) (2 ^ bits) ltac:(lia)). lia.
Qed.

Lemma float_to_int_range lo hi f : (lo <= 0 <= hi)%Z -> (lo <= float_to_int lo hi f <= hi)%Z.
Proof. intros Hr. destruct f as [|[]| |]; simpl; lia. Qed.

Lemma json_as_i64_range j n :
  json_ok j -> json_as_i64 j = Some n -> (i64_min <= n <= i64_max)%Z.
Proof.
  assert (Hz : (i64_min <= 0 <= i64_max)%Z) by done.
  destruct j as [|b|num|s| |]; simpl; try done.
  - intros _. destruct b; intros [= <-]; split; done.
  - intros Hn. destruct (as_i64 num) as [z|] eqn:E; [|intros [= <-]; by apply float_to_int_range].
    intros [= <-]. destruct num; simpl in E; [case_decide|..]; simplify_eq; lia.
  - intros _. apply parse_int_range.
Qed.

Lemma well_typed_safe ty r :
  holds_bytea ty = false -> well_typed ty r -> sound False (has_type ty) r.
Proof. intros Hb Hr. eapply sound_mono; [exact Hr|congruence|done]. Qed.

Lemma decode_text_sound ty j bad (f : string -> res SqlValue) :
  json_ok j -> (forall s, utf8 s -> sound False (has_type ty) (f s)) ->
  sound False (has_type ty) (let? s := ok_or (json_as_str j) bad in f s).
Proof.
  intros Hj Hf. eapply (sound_bind _ utf8); [|done].
  apply sound_ok_or. intros s. by apply json_as_str_ok.
Qed.

Lemma sound_option {A} P (Q : SqlValue -> Prop) (o : option A) (mk : A -> SqlValue) e :
  (forall x, o = Some x -> Q (mk x)) -> sound P Q (let? x := ok_or o e in Ok (mk x)).
Proof. intros Ho. destruct o; [|done]. by apply Ho. Qed.

Lemma decode_floats_sound P bad j : sound P (fun _ => True) (decode_floats bad j).
Proof.
  eapply (sound_bind _ (fun _ => True)); [by apply sound_ok_or|]. intros l _.
  eapply sound_mono; [apply (sound_traverse _ (fun _ => True))|done|done].
  apply Forall_true. intros x. by apply sound_ok_or.
Qed.

(** Decoding a stored value never panics. *)
Lemma decode_json_sound ty j : json_ok j -> sound False (has_type ty) (decode_json ty j).
Proof.
  revert j. induction ty; intros j Hj; destruct (is_null j) eqn:En; cbn [decode_json]; rewrite En;
    try apply has_type_null; try (apply sound_option; intros x Hx; split; [|done]; simpl; try done;
      try by eapply json_as_str_ok).
  - apply (wrap_signed_range 16). lia.
  - apply (wrap_signed_range 32). lia.
  - by apply json_as_i64_range in Hx.
  - unfold decode_numeric. destruct j; try done; by apply sound_option.
  - apply decode_text_sound; [done|]. intros s Hs. by apply sound_option.
  - apply decode_text_sound; [done|]. intros s Hs. by apply sound_option.
  - apply decode_text_sound; [done|]. intros s _.
    apply well_typed_safe; [done|apply temporal_sound].
  - apply decode_text_sound; [done|]. intros s _.
    apply well_typed_safe; [done|apply temporal_sound].
  - apply decode_text_sound; [done|]. intros s _.
    apply well_typed_safe; [done|apply temporal_sound].
  - apply decode_text_sound; [done|]. intros s _.
    apply well_typed_safe; [done|apply temporal_sound].
  - by split.
  - by split.
  - eapply (sound_bind _ (fun items => Forall json_ok items)).
    { apply sound_ok_or. destruct j; try done. intros x [= <-]. by apply all_Forall. }
    intros items Hi. apply array_sound. eapply Forall_impl; [exact Hi|]. auto.
  - eapply sound_bind; [apply decode_floats_sound|]. intros v _.
    eapply sound_bind; [apply check_vector_dims_sound|]. intros [] Hv. by split.
  - eapply (sound_bind _ (fun fields => Forall (fun kv => utf8 kv.1 /\ json_ok kv.2) fields)).
    { apply sound_ok_or. destruct j; try done. intros x [= <-]. by apply all_Forall. }
    intros fields Hf. eapply sound_bind.
    { apply (sound_traverse _ (fun kv => utf8 kv.1 /\ from_option utf8 True kv.2)).
      eapply Forall_impl; [exact Hf|]. intros [k x] [Hk Hx]. unfold hstore_field. by destruct x. }
    intros kvs [Hkv _]. split; [|done].
    split; [apply BTreeMap.of_list_sorted|by apply BTreeMap.of_list_Forall].
  - apply decode_text_sound; [done|]. intros s Hs.
    by apply well_typed_safe; [|apply parse_ltree_text_sound].
  - eapply (sound_bind _ (fun _ => True)); [by apply sound_ok_or|]. intros fields _.
    eapply sound_bind; [apply decode_floats_sound|]. intros ll _.
    eapply sound_bind; [apply decode_floats_sound|]. intros ur _.
    case_decide as Hd; [done|]. split; [|done]. simpl. split; [|tauto]. lia.
  - apply decode_text_sound; [done|]. intros s Hs. pose proof (parse_tsvector_ok s Hs) as Hp.
    destruct (parse_tsvector s) as [v|[]]; done.
  - apply decode_text_sound; [done|]. intros s Hs. pose proof (parse_tsquery_ok s Hs) as Hp.
    destruct (parse_tsquery s) as [[q|]|[]]; done.
  - by split.
Qed.

(** Casting. *)
Lemma cast_int_sound v ty : is_integer ty = true -> well_typed ty (cast_int v ty).
Proof.
  intros Hi. unfold cast_int. eapply (sound_bind _ (fun _ => True)).
  { destruct v; try by apply sound_ok_or. done. }
  intros n _. destruct (int_range ty) as [lo hi] eqn:Er.
  eapply (sound_bind _ (fun _ => True)); [unfold checked_int; by case_match|]. intros r _.
  destruct ty; try done; injection Er as <- <-; (split; [|done]); by apply float_to_int_range.
Qed.

Lemma cast_f64_sound P v ty : sound P (fun _ => True) (cast_f64 v ty).
Proof. unfold cast_f64. destruct v; by apply sound_ok_or. Qed.

Lemma cast_vector_sound v dims : well_typed (TVector dims) (cast_vector v dims).
Proof.
  unfold cast_vector. eapply (sound_bind _ (fun _ => True)).
  { destruct v; try done; try apply parse_vector_text_sound.
    eapply sound_mono; [apply (sound_traverse _ (fun _ => True))|done|done].
    apply Forall_true. intros x. eapply (sound_bind _ (fun _ => True)); [by apply sound_ok_or|done]. }
  intros fs _. eapply sound_bind; [apply check_vector_dims_sound|]. intros [] Hv. by split.
Qed.

Lemma cast_temporal_sound v ty :
  value_ok v -> match ty with TDate | TTime | TTimestamp | TTimestamptz => True | _ => False end ->
  well_typed ty (cast_temporal v ty).
Proof. intros Hv Hty. destruct v; try by destruct ty. by apply from_text_sound. Qed.

(** The forms of a cast that only test the constructor or read a text. *)
Local Ltac cast_leaf :=
  first [ done | by split | by apply from_text_sound
        | by apply well_typed_option; intros x Hx; split; [eapply json_read_ok|]
        | by split; [apply encode_ok|] ].

Lemma cast_sound ty v : value_ok v -> well_typed ty (cast ty v).
Proof.
  revert v. induction ty; intros v Hv; destruct (value_is_null v) eqn:En; cbn [cast]; rewrite En;
    try apply has_type_null; try (by apply cast_int_sound); try (by apply cast_temporal_sound);
    try (split; [by apply value_text_utf8|done]);
    try (destruct v; try discriminate En; cast_leaf).
  - eapply sound_bind; [apply cast_f64_sound|]. by intros f _.
  - eapply sound_bind; [apply cast_f64_sound|]. by intros f _.
  - destruct v; try discriminate En; first [cast_leaf | by apply well_typed_option].
  - destruct v as [| | | | | | | | | | | | | | | |items| | | | | | |]; try discriminate En; try cast_leaf.
    + by apply parse_array_text_sound; [apply from_text_sound|].
    + apply array_sound. apply all_Forall in Hv. eapply Forall_impl; [exact Hv|]. apply IHty.
  - apply cast_vector_sound.
  - destruct v; try discriminate En; first [cast_leaf | by apply parse_hstore_text_sound].
  - destruct v; try discriminate En; first [cast_leaf | by apply parse_ltree_text_sound].
  - destruct v; try discriminate En; first [cast_leaf | by apply parse_cube_text_sound].
Qed.

(** ** Integer casts *)

(** The integer that an integer value holds. *)
Definition holds_integer (v : SqlValue) (n : Z) : Prop := v = VInt2 n \/ v = VInt4 n \/ v = VInt8 n.

Definition in_int_range (ty : SqlType) (n : Z) : Prop := (fst (int_range ty) <= n <= snd (int_range ty))%Z.

Lemma cast_integer v n ty :
  holds_integer v n -> is_integer ty = true ->
  cast ty v =
  (let? r := checked_int (f64_round (f64_of_Z n)) (f64_of_Z (fst (int_range ty)))
               (f64_of_Z (snd (int_range ty))) ty in
   Ok (int_value ty (float_to_int (fst (int_range ty)) (snd (int_range ty)) r))).
Proof. intros [->|[->| ->]] Hty; by destruct ty. Qed.

Lemma f64_of_Z_not_nan n : safe_integer n -> is_nan (f64_of_Z n) = false.
Proof. intros [-> _]%f64_of_safe. by destruct n. Qed.

Lemma checked_safe ty n :
  safe_integer n -> is_integer ty = true ->
  checked_int (f64_of_Z n) (f64_of_Z (fst (int_range ty))) (f64_of_Z (snd (int_range ty))) ty =
  if decide (in_int_range ty n) then Ok (f64_of_Z n) else raise (NumericValueOutOfRange (name ty)).
Proof.
  intros Hn Hty. unfold checked_int, in_int_range. rewrite f64_of_Z_not_nan by done. simpl orb.
  assert (Hb : forall lo hi, safe_integer lo -> safe_integer hi ->
    SFltb (f64_of_Z n) (f64_of_Z lo) || SFltb (f64_of_Z hi) (f64_of_Z n) = negb (bool_decide (lo <= n <= hi)%Z)).
  { intros lo hi Hlo Hhi. unfold SFltb. rewrite !f64_of_Z_compare by done.
    destruct (Z.compare_spec n lo), (Z.compare_spec hi n); simpl;
      symmetry; first [apply negb_true_iff, bool_decide_eq_false_2; lia
                      |apply negb_false_iff, bool_decide_eq_true_2; lia]. }
  assert (Hi : forall lo hi, safe_integer lo -> safe_integer hi ->
    (if SFltb (f64_of_Z n) (f64_of_Z lo) || SFltb (f64_of_Z hi) (f64_of_Z n)
     then raise (NumericValueOutOfRange (name ty)) else Ok (f64_of_Z n)) =
    if decide (lo <= n <= hi)%Z then Ok (f64_of_Z n) else raise (NumericValueOutOfRange (name ty))).
  { intros lo hi Hlo Hhi. rewrite Hb by done. case_decide.
    - by rewrite bool_decide_eq_true_2.
    - by rewrite bool_decide_eq_false_2. }
  destruct ty; try done; cbn [int_range fst snd].
  - by apply Hi.
  - by apply Hi.
  - destruct (f64_of_safe_bounded n Hn) as [-> ->]. simpl. rewrite decide_True; [done|].
    unfold safe_integer, i64_min, i64_max in *. lia.
Qed.

(** An integer below [2 ^ 53] is kept where the type can hold it and refused
    elsewhere. *)
Lemma cast_safe_integer v n ty :
  holds_integer v n -> is_integer ty = true -> safe_integer n ->
  cast ty v = if decide (in_int_range ty n) then Ok (int_value ty n)
              else raise (NumericValueOutOfRange (name ty)).
Proof.
  intros Hv Hty Hn. rewrite (cast_integer v n ty Hv Hty), f64_round_safe, checked_safe by done.
  case_decide as Hd; [|done]. cbv beta iota. by rewrite float_to_int_safe.
Qed.

(** Above it, the nearest float is kept instead. *)
Lemma cast_rounds_bigint : cast TBigInt (VInt8 9007199254740993) = Ok (VInt8 9007199254740992).
Proof. vm_compute. reflexivity. Qed.

(** The float [2 ^ 63] passes the range check and is saturated. *)
Lemma cast_saturates : cast TBigInt (VFloat8 (f64_of_Z (2 ^ 63))) = Ok (VInt8 i64_max).
Proof. vm_compute. reflexivity. Qed.
End convert.
