(* ===== verification/SqlStorage.v ===== *)
(** * Stored SQL values

    What [encode_json] writes, [decode_json] reads back at the type of the
    column, for the values that have a stored form: finite floats, normalised
    decimals, JSON other than [null], queries nested to the left. *)

From S2P Require Import Prelude BTree Json Utf8 RustString RustFloat FloatExact SqlTypes Fts FtsInv SqlValue SqlTyping SqlConvert.

Section storage.
Context `{!Foreign, !ForeignText}.

(** The crates' texts are read back. *)
Class ForeignStorage := {
  decimal_read_back : forall d,
    decimal_from_str (decimal_text (decimal_normalize d)) = Some (decimal_normalize d);
  uuid_read_back : forall u, uuid_parse_str (uuid_text u) = Some u;
  base64_read_back : forall s, base64_decode (base64_encode s) = Some s
}.

(** The dates and times whose text is read back. *)
Definition date_ok (d : NaiveDate) : Prop := date_parse "%Y-%m-%d" (date_format "%Y-%m-%d" d) = Some d.
Definition time_ok (t : NaiveTime) : Prop :=
  time_parse "%H:%M:%S%.f" (time_format "%H:%M:%S%.f" t) = Some t.
Definition timestamp_ok (t : NaiveDateTime) : Prop :=
  let s := datetime_format "%Y-%m-%dT%H:%M:%S%.f" t in
  trim s = s /\ datetime_parse "%Y-%m-%d %H:%M:%S%.f" s = None /\
  datetime_parse "%Y-%m-%dT%H:%M:%S%.f" s = Some t.
Definition timestamptz_ok (t : DateTimeUtc) : Prop :=
  let s := utc_to_rfc3339 t in trim s = s /\ utc_parse_rfc3339 s = Some t.

Definition finite_f32 (f : float) : Prop := valid_f32 f = true /\ f64_is_finite f = true.

(** Values that have a stored form. *)
Fixpoint storable (v : SqlValue) : Prop :=
  match v with
  | VFloat4 f => finite_f32 f
  | VFloat8 f => f64_is_finite f = true
  | VNumeric d => decimal_normalize d = d
  | VDate d => date_ok d
  | VTime t => time_ok t
  | VTimestamp t => timestamp_ok t
  | VTimestamptz t => timestamptz_ok t
  | VJson j => is_null j = false
  | VArray items => all storable items
  | VVector v => Forall finite_f32 v
  | VCube ll ur => Forall (fun f => f64_is_finite f = true) (ll ++ ur)
  | VTsQuery (Some q) => nest q = q
  | _ => True
  end.

Fixpoint column_type (ty : SqlType) : bool :=
  match ty with TUnknown => false | TArray inner => column_type inner | _ => true end.

Lemma traverse_fmap {A B C} (f : A -> B) (g : B -> res C) l :
  traverse g (f <$> l) = traverse (fun x => g (f x)) l.
Proof. induction l as [|x l IH]; [done|]. cbn. by rewrite IH. Qed.

Lemma traverse_ok {A B} (f : A -> res B) (g : A -> B) l :
  Forall (fun x => f x = Ok (g x)) l -> traverse f l = Ok (g <$> l).
Proof. induction 1 as [|x l Hx _ IH]; [done|]. cbn. by rewrite Hx, IH. Qed.

Lemma float_json_read f : f64_is_finite f = true -> json_as_f64 (float_json f) = Some f.
Proof. intros Hf. unfold float_json, number_from_f64. by rewrite Hf. Qed.

Lemma float_json_not_null f : f64_is_finite f = true -> is_null (float_json f) = false.
Proof. intros Hf. unfold float_json, number_from_f64. by rewrite Hf. Qed.

Lemma decode_floats_read bad (g : float -> float) l :
  Forall (fun f => f64_is_finite (g f) = true) l ->
  decode_floats bad (Some (Array ((fun f => float_json (g f)) <$> l))) = Ok (g <$> l).
Proof.
  intros Hl. unfold decode_floats. simpl. rewrite traverse_fmap. apply traverse_ok.
  eapply Forall_impl; [exact Hl|]. intros f Hf. simpl in Hf. by rewrite float_json_read.
Qed.

Lemma number_read n : (i64_min <= n <= i64_max)%Z -> as_i64 (number_from_i64 n) = Some n.
Proof.
  intros Hn. unfold number_from_i64. case_decide as Hz; [|done]. simpl.
  rewrite decide_True by lia. f_equal. lia.
Qed.

Lemma integer_read n :
  (i64_min <= n <= i64_max)%Z -> json_as_i64 (Num (number_from_i64 n)) = Some n.
Proof. intros Hn. simpl. by rewrite number_read. Qed.

Lemma wrap_signed_id bits n :
  (0 < bits)%Z -> (- 2 ^ (bits - 1) <= n <= 2 ^ (bits - 1) - 1)%Z -> wrap_signed bits n = n.
Proof.
  intros Hb Hn. unfold wrap_signed.
  assert (Hp : (2 ^ bits = 2 * 2 ^ (bits - 1))%Z) by (rewrite <- Z.pow_succ_r by lia; f_equal; lia).
  rewrite Z.mod_small; lia.
Qed.

Lemma hstore_read bad m :
  hstore_ok m ->
  traverse (hstore_field bad) (BTreeMap.of_list ((fun kv => (kv.1, hstore_json kv.2)) <$> m)) = Ok m.
Proof.
  intros [Hs _]. rewrite BTreeMap.of_list_id.
  - rewrite traverse_fmap. rewrite (traverse_ok _ id); [by rewrite list_fmap_id|].
    apply Forall_true. by intros [k [v|]].
  - unfold BTreeMap.sorted. rewrite <- list_fmap_compose. exact Hs.
Qed.

Lemma encode_not_null v :
  storable v -> value_is_null v = false -> is_null (encode_json v) = false.
Proof.
  intros Hs Hn. destruct v; try done.
  - destruct Hs. by apply float_json_not_null, f32_widened_finite.
  - by apply float_json_not_null.
Qed.

Context `{!ForeignStorage}.

Lemma cube_read ll ur bad1 bad2 :
  Forall (fun f => f64_is_finite f = true) (ll ++ ur) ->
  let fields := BTreeMap.of_list [("ll", Array (float_json <$> ll)); ("ur", Array (float_json <$> ur))] in
  decode_floats bad1 (BTreeMap.get fields "ll") = Ok ll /\
  decode_floats bad2 (BTreeMap.get fields "ur") = Ok ur.
Proof.
  intros [Hl Hu]%Forall_app. split.
  - etrans; [apply (decode_floats_read bad1 id ll Hl)|]. by rewrite list_fmap_id.
  - etrans; [apply (decode_floats_read bad2 id ur Hu)|]. by rewrite list_fmap_id.
Qed.

Lemma vector_read bad v : Forall finite_f32 v ->
  decode_floats bad (Some (Array ((fun f => float_json (to_f64 f)) <$> v))) = Ok (to_f64 <$> v) /\
  to_f32 <$> (to_f64 <$> v) = v.
Proof.
  intros Hv. split.
  - apply decode_floats_read. eapply Forall_impl; [exact Hv|]. intros f [? ?]. by apply f32_widened_finite.
  - rewrite <- list_fmap_compose. rewrite <- (list_fmap_id v) at 2. apply list_fmap_ext.
    intros i f Hf. rewrite Forall_lookup in Hv. by apply f32_round_trip, (Hv i).
Qed.

Lemma ltree_read p : ltree_ok p -> parse_ltree_text p = Ok (VLtree p).
Proof.
  intros (_ & Ht & Hl). unfold parse_ltree_text. rewrite Ht. case_decide as Hp; [by subst|].
  destruct Hl as [->|Hl]; [done|]. by rewrite Hl.
Qed.

Lemma timestamp_read t :
  timestamp_ok t -> parse_timestamp (datetime_format "%Y-%m-%dT%H:%M:%S%.f" t) = Ok (VTimestamp t).
Proof.
  intros (Ht & Hn & Hp). unfold parse_timestamp, parse_naive, first_format, timestamp_formats.
  rewrite Ht. cbn [omap list_omap]. by rewrite Hn, Hp.
Qed.

Lemma time_read t : time_ok t -> parse_time (time_format "%H:%M:%S%.f" t) = Ok (VTime t).
Proof. intros Ht. unfold parse_time, first_format. cbn [omap list_omap]. by rewrite Ht. Qed.

(** A stored value is read back. *)
Lemma decode_encode ty v :
  has_type ty v -> column_type ty = true -> storable v -> decode_json ty (encode_json v) = Ok v.
Proof.
  revert v. induction ty; intros v [Hv Hsh] Hc Hs;
    (destruct (value_is_null v) eqn:En; [by destruct v|]);
    pose proof (encode_not_null v Hs En) as Hj;
    cbn [decode_json]; rewrite Hj; destruct v; try discriminate; cbn [encode_json json_as_str ok_or];
    try done.
  - simpl in Hv. rewrite integer_read by (unfold i16_min, i16_max, i64_min, i64_max in *; lia). simpl.
    by rewrite (wrap_signed_id 16).
  - simpl in Hv. rewrite integer_read by (unfold i32_min, i32_max, i64_min, i64_max in *; lia). simpl.
    by rewrite (wrap_signed_id 32).
  - by rewrite integer_read.
  - destruct Hs. rewrite float_json_read by (by apply f32_widened_finite). cbn [ok_or].
    by rewrite f32_round_trip.
  - by rewrite float_json_read.
  - simpl. unfold parse_numeric. rewrite decimal_read_back. simpl. by rewrite Hs.
  - by rewrite base64_read_back.
  - by rewrite uuid_read_back.
  - unfold parse_date. by rewrite Hs.
  - by apply time_read.
  - by apply timestamp_read.
  - destruct Hs as [Ht Hr]. unfold parse_timestamptz. by rewrite Ht, Hr.
  - simpl. simpl in Hv, Hs, Hsh. rewrite all_Forall in Hv, Hs. rewrite traverse_fmap.
    rewrite (traverse_ok _ id); [by rewrite list_fmap_id|].
    rewrite Forall_forall in *. intros x Hx. apply IHty; [|done|by auto].
    split; [by auto|]. rewrite forallb_forall in Hsh. apply Hsh. by apply list_elem_of_In.
  - destruct (vector_read (InvalidTextRepresentation "vector" (to_json (encode_json (VVector v)))) v Hs)
      as [Hr Hb]. cbn [encode_json] in Hr. rewrite Hr. rewrite Hb.
    unfold check_vector_dims. destruct dims as [d|]; [|done]. simpl in Hsh.
    apply bool_decide_eq_true_1 in Hsh. by rewrite decide_True.
  - cbn [as_object ok_or]. rewrite hstore_read by done. rewrite BTreeMap.of_list_id; [done|]. apply Hv.
  - by apply ltree_read.
  - cbn [as_object ok_or].
    edestruct (cube_read ll ur) as [Hl Hu]; [exact Hs|]. rewrite Hl, Hu.
    destruct Hv as [Hlen Hne]. rewrite decide_False; [done|]. intros [?|?]; done.
  - by rewrite tsvector_read_back.
  - destruct q as [q|]; [|done]. rewrite tsquery_read_back by done. simpl in Hs. by rewrite Hs.
Qed.
End storage.
