(* ===== verification/SqlCatalog.v ===== *)
(** * The relational catalog

    [relational/catalog.rs]: schemas, tables, constraints, indexes, sequences,
    views, functions, text search dictionaries, embedding rules and extensions,
    one definition per method of [Catalog].  Expressions and queries are kept as
    their SQL text, as in the source. *)

From S2P Require Import Prelude BTree OrdMap Utf8 RustString SqlTypes.

Record QualifiedName := mk_qualified { q_schema : string; q_name : string }.

#[global] Instance qualified_eq_dec : EqDecision QualifiedName.
Proof. solve_decision. Defined.

#[global] Instance qualified_countable : Countable QualifiedName.
Proof.
  apply (inj_countable' (fun q => (q_schema q, q_name q)) (fun p => mk_qualified p.1 p.2)).
  by intros [].
Defined.

Definition qualified_compare (a b : QualifiedName) : comparison :=
  then_with (String.compare (q_schema a) (q_schema b)) (String.compare (q_name a) (q_name b)).

Lemma qualified_total : Total qualified_compare.
Proof.
  pose proof string_compare_total as Ht. split; unfold qualified_compare, then_with.
  - intros x y _ _. rewrite (total_antisym _ _ Ht (q_schema x)), (total_antisym _ _ Ht (q_name x)) by done.
    by destruct (String.compare (q_schema y) (q_schema x)).
  - intros [a b] [c d] _ _. simpl. destruct (String.compare a c) eqn:E; try done.
    intros Hb. apply (total_eq _ _ Ht) in E, Hb; [|done..]. by subst.
  - intros [a b] [c d] [e f] _ _ _. simpl.
    destruct (String.compare a c) eqn:E1; [|intros _|done].
    + apply (total_eq _ _ Ht) in E1; [|done..]. subst. intros Hbd.
      destruct (String.compare c e) eqn:E2; [|done..]. intros Hdf. by apply (total_trans _ _ Ht b d f).
    + destruct (String.compare c e) eqn:E2; [|intros _|done].
      * intros _. apply (total_eq _ _ Ht) in E2; [|done..]. subst. by rewrite E1.
      * by rewrite (total_trans _ _ Ht a c e).
Qed.

#[global] Instance qualified_ordered : Ordered QualifiedName :=
  { ord_compare := qualified_compare; ord_total := qualified_total }.

#[global] Instance string_ordered : Ordered string :=
  { ord_compare := String.compare; ord_total := string_compare_total }.

Local Open Scope string_scope.

Definition to_string_qualified (q : QualifiedName) : string := q_schema q ++ "." ++ q_name q.

(** The key of a map in the stored catalog. *)
Definition unit_separator : N := 31.
Definition serialize_qualified (q : QualifiedName) : string :=
  q_schema q ++ of_chars [unit_separator] ++ q_name q.
Definition deserialize_qualified (s : string) : option QualifiedName :=
  match split_once unit_separator s with
  | Some (schema, name) => Some (mk_qualified schema name)
  | None => None
  end.

(** ** Data *)

Record Schema := mk_schema { schema_name : string; schema_oid : N; schema_owner : string }.

Record Column := mk_column {
  column_name : string;
  column_ty : SqlType;
  column_nullable : bool;
  column_default : option string;
  column_identity_sequence : option string;
  column_ordinal : nat
}.

Record PrimaryKey := mk_primary_key { pk_name : string; pk_key_columns : list string }.
Record UniqueConstraint := mk_unique { unique_name : string; unique_columns : list string }.

Inductive ReferentialAction := NoAction | Restrict | Cascade | SetNull | SetDefault.

Definition action_as_sql (a : ReferentialAction) : string :=
  match a with
  | NoAction => "NO ACTION"
  | Restrict => "RESTRICT"
  | Cascade => "CASCADE"
  | SetNull => "SET NULL"
  | SetDefault => "SET DEFAULT"
  end.

Inductive MatchType := MatchSimple | MatchFull.
Inductive Deferrable := NotDeferrable | DeferrableImmediate | DeferrableDeferred.

Definition is_deferrable (d : Deferrable) : bool :=
  match d with NotDeferrable => false | _ => true end.
Definition initially_deferred (d : Deferrable) : bool :=
  match d with DeferrableDeferred => true | _ => false end.

Record ForeignKey := mk_foreign_key {
  fk_name : string;
  fk_columns : list string;
  fk_ref_schema : string;
  fk_ref_table : string;
  fk_ref_columns : list string;
  fk_on_delete : ReferentialAction;
  fk_on_update : ReferentialAction;
  fk_match_type : MatchType;
  fk_deferrable : Deferrable
}.

Record CheckConstraint := mk_check { check_name : string; check_expr : string }.

Inductive PolicyCmd := PolicyAll | PolicySelect | PolicyInsert | PolicyUpdate | PolicyDelete.
Record Policy := mk_policy {
  policy_name : string;
  policy_cmd : PolicyCmd;
  policy_roles : list string;
  policy_using : option string;
  policy_check : option string;
  policy_permissive : bool
}.

Inductive TriggerTiming := TimingBefore | TimingAfter | TimingInsteadOf.
Inductive TriggerLevel := LevelRow | LevelStatement.
Inductive TriggerEventDef := EventInsert | EventUpdate (columns : list string) | EventDelete | EventTruncate.
Record TriggerDef := mk_trigger {
  trigger_oid : N;
  trigger_name : string;
  trigger_timing : TriggerTiming;
  trigger_events : list TriggerEventDef;
  trigger_level : TriggerLevel;
  trigger_when : option string;
  trigger_function_schema : string;
  trigger_function_name : string;
  trigger_enabled : bool;
  trigger_is_constraint : bool;
  trigger_deferrable : bool;
  trigger_initially_deferred : bool;
  trigger_referencing_old : option string;
  trigger_referencing_new : option string;
  trigger_on_view : bool
}.

Record Table := mk_table {
  table_oid : N;
  table_schema : string;
  table_name : string;
  table_columns : list Column;
  table_primary_key : option PrimaryKey;
  table_uniques : list UniqueConstraint;
  table_foreign_keys : list ForeignKey;
  table_checks : list CheckConstraint;
  table_storage_collection : string;
  table_rls_enabled : bool;
  table_rls_forced : bool;
  table_policies : list Policy;
  table_triggers : list TriggerDef;
  (* column name -> position, rebuilt from the columns *)
  table_column_map : gmap string nat
}.

Record Index := mk_index {
  index_oid : N;
  index_name : string;
  index_schema : string;
  index_table : string;
  index_columns : list string;
  index_unique : bool;
  index_primary : bool;
  index_method : string;
  index_opclasses : list string;
  index_with_options : list (string * string)
}.

Record Sequence := mk_sequence {
  seq_schema : string;
  seq_name : string;
  seq_current : Z;
  seq_increment : Z;
  seq_start : Z
}.

Record EmbeddingRuleDef := mk_rule {
  rule_schema : string;
  rule_table : string;
  rule_text_column : string;
  rule_vector_column : string;
  rule_model : string;
  rule_policy : string
}.

Record View := mk_view {
  view_oid : N;
  view_schema : string;
  view_name : string;
  view_query : string;
  view_columns : list string;
  view_triggers : list TriggerDef
}.

Inductive FunctionLanguage := LangSql | LangPlPgSql.
Inductive FunctionVolatility := Immutable | Stable | Volatile.
Record FunctionArgDef := mk_arg { arg_name : string; arg_ty : SqlType }.
Record FunctionDef := mk_function {
  fn_oid : N;
  fn_schema : string;
  fn_name : string;
  fn_args : list FunctionArgDef;
  fn_return_type : SqlType;
  fn_language : FunctionLanguage;
  fn_volatility : FunctionVolatility;
  fn_strict : bool;
  fn_body : string;
  fn_returns_trigger : bool
}.

Inductive DropFunctionByName := Removed | NotFound | Ambiguous.

Record TsDictionaryDef := mk_dictionary {
  dict_name : string;
  dict_schema : string;
  dict_oid : N;
  dict_synonyms : list (string * list string);
  dict_thesaurus_entries : list (string * list string)
}.

Record Catalog := mk_catalog {
  database : string;
  schemas : list (string * Schema);
  tables : list (QualifiedName * Table);
  indexes : list (QualifiedName * Index);
  sequences : list (QualifiedName * Sequence);
  views : list (QualifiedName * View);
  next_oid : N;
  search_path : list string;
  extensions : list (string * string);
  functions : list FunctionDef;
  ts_dictionaries : list TsDictionaryDef;
  embedding_rules : list EmbeddingRuleDef;
  (* (schema, table) -> names of the indexes of the table *)
  table_to_indexes : gmap (string * string) (list QualifiedName)
}.

(** ** Tables *)

Definition column_positions (columns : list Column) : gmap string nat :=
  foldl (fun m ic => <[column_name ic.2 := ic.1]> m) ∅ (imap pair columns).

Definition rebuild_column_map (t : Table) : Table :=
  mk_table (table_oid t) (table_schema t) (table_name t) (table_columns t) (table_primary_key t)
    (table_uniques t) (table_foreign_keys t) (table_checks t) (table_storage_collection t)
    (table_rls_enabled t) (table_rls_forced t) (table_policies t) (table_triggers t)
    (column_positions (table_columns t)).

(** The column at the mapped position; a position outside the columns panics. *)
Definition column (t : Table) (name : string) : res (option Column) :=
  match table_column_map t !! name with
  | Some i => match table_columns t !! i with Some c => Ok (Some c) | None => Err Panic end
  | None => Ok None
  end.

Definition column_index (t : Table) (name : string) : option nat := table_column_map t !! name.

Definition policy (t : Table) (name : string) : option Policy :=
  snd <$> list_find (fun p => policy_name p = name) (table_policies t).
Definition trigger (t : Table) (name : string) : option TriggerDef :=
  snd <$> list_find (fun p => trigger_name p = name) (table_triggers t).

Definition table_qualified (t : Table) : QualifiedName := mk_qualified (table_schema t) (table_name t).

Definition pk_columns (t : Table) : list string :=
  match table_primary_key t with Some pk => pk_key_columns pk | None => [] end.

Definition arity (f : FunctionDef) : nat := length (fn_args f).

(** ** Updates of one field *)
Definition with_schemas (c : Catalog) x : Catalog :=
  mk_catalog (database c) x (tables c) (indexes c) (sequences c) (views c) (next_oid c)
    (search_path c) (extensions c) (functions c) (ts_dictionaries c) (embedding_rules c)
    (table_to_indexes c).
Definition with_tables (c : Catalog) x : Catalog :=
  mk_catalog (database c) (schemas c) x (indexes c) (sequences c) (views c) (next_oid c)
    (search_path c) (extensions c) (functions c) (ts_dictionaries c) (embedding_rules c)
    (table_to_indexes c).
Definition with_indexes (c : Catalog) x : Catalog :=
  mk_catalog (database c) (schemas c) (tables c) x (sequences c) (views c) (next_oid c)
    (search_path c) (extensions c) (functions c) (ts_dictionaries c) (embedding_rules c)
    (table_to_indexes c).
Definition with_sequences (c : Catalog) x : Catalog :=
  mk_catalog (database c) (schemas c) (tables c) (indexes c) x (views c) (next_oid c) (search_path
    c) (extensions c) (functions c) (ts_dictionaries c) (embedding_rules c) (table_to_indexes c).
Definition with_views (c : Catalog) x : Catalog :=
  mk_catalog (database c) (schemas c) (tables c) (indexes c) (sequences c) x (next_oid c)
    (search_path c) (extensions c) (functions c) (ts_dictionaries c) (embedding_rules c)
    (table_to_indexes c).
Definition with_next_oid (c : Catalog) x : Catalog :=
  mk_catalog (database c) (schemas c) (tables c) (indexes c) (sequences c) (views c) x
    (search_path c) (extensions c) (functions c) (ts_dictionaries c) (embedding_rules c)
    (table_to_indexes c).
Definition with_extensions (c : Catalog) x : Catalog :=
  mk_catalog (database c) (schemas c) (tables c) (indexes c) (sequences c) (views c) (next_oid c)
    (search_path c) x (functions c) (ts_dictionaries c) (embedding_rules c) (table_to_indexes c).
Definition with_functions (c : Catalog) x : Catalog :=
  mk_catalog (database c) (schemas c) (tables c) (indexes c) (sequences c) (views c) (next_oid c)
    (search_path c) (extensions c) x (ts_dictionaries c) (embedding_rules c) (table_to_indexes c).
Definition with_ts_dictionaries (c : Catalog) x : Catalog :=
  mk_catalog (database c) (schemas c) (tables c) (indexes c) (sequences c) (views c) (next_oid c)
    (search_path c) (extensions c) (functions c) x (embedding_rules c) (table_to_indexes c).
Definition with_embedding_rules (c : Catalog) x : Catalog :=
  mk_catalog (database c) (schemas c) (tables c) (indexes c) (sequences c) (views c) (next_oid c)
    (search_path c) (extensions c) (functions c) (ts_dictionaries c) x (table_to_indexes c).
Definition with_table_to_indexes (c : Catalog) x : Catalog :=
  mk_catalog (database c) (schemas c) (tables c) (indexes c) (sequences c) (views c) (next_oid c)
    (search_path c) (extensions c) (functions c) (ts_dictionaries c) (embedding_rules c) x.

Definition with_foreign_keys (t : Table) (fks : list ForeignKey) : Table :=
  mk_table (table_oid t) (table_schema t) (table_name t) (table_columns t) (table_primary_key t)
    (table_uniques t) fks (table_checks t) (table_storage_collection t) (table_rls_enabled t)
    (table_rls_forced t) (table_policies t) (table_triggers t) (table_column_map t).

Definition with_storage_collection (t : Table) (name : string) : Table :=
  mk_table (table_oid t) (table_schema t) (table_name t) (table_columns t) (table_primary_key t)
    (table_uniques t) (table_foreign_keys t) (table_checks t) name (table_rls_enabled t)
    (table_rls_forced t) (table_policies t) (table_triggers t) (table_column_map t).

(** ** The catalog *)

Definition FIRST_USER_OID : N := 16384.

(** [u32], wrapping. *)
Definition allocate_oid (c : Catalog) : N * Catalog :=
  (next_oid c, with_next_oid c ((next_oid c + 1) mod 2 ^ 32)%N).

Definition add_schema (c : Catalog) (name : string) : Catalog :=
  let '(oid, c) := allocate_oid c in
  with_schemas c (OrdMap.insert (schemas c) name (mk_schema name oid "guardian")).

(** A new catalog: the system schemas, [public], and the extension [plpgsql]. *)
Definition catalog_new (database : string) : Catalog :=
  let c := mk_catalog database [] [] [] [] [] FIRST_USER_OID ["public"] [("plpgsql", "1.0")]
             [] [] [] ∅ in
  add_schema (add_schema (add_schema c "pg_catalog") "information_schema") "public".

(** The reverse map of the stored indexes. *)
Definition reverse_indexes (idx : list (QualifiedName * Index)) :
    gmap (string * string) (list QualifiedName) :=
  foldl (fun m qi =>
    let k := (index_schema qi.2, index_table qi.2) in
    <[k := (default [] (m !! k) ++ [qi.1])%list]> m) ∅ idx.

(** Loading the stored form: the reverse map is not stored. *)
Definition catalog_load (raw : Catalog) : Catalog :=
  with_table_to_indexes raw (reverse_indexes (indexes raw)).

(** *** Extensions *)

Definition SIDECAR_MARKER : string := "@sidecar".
Definition strip_sidecar_marker (version : string) : string :=
  default version (strip_suffix SIDECAR_MARKER version).
Definition has_sidecar_marker (version : string) : bool :=
  bool_decide (is_Some (strip_suffix SIDECAR_MARKER version)).

Definition extension_version (c : Catalog) (name : string) : option string :=
  strip_sidecar_marker <$> OrdMap.get (extensions c) name.
Definition extension_installed (c : Catalog) (name : string) : bool :=
  OrdMap.contains_key (extensions c) name.
Definition extension_is_sidecar (c : Catalog) (name : string) : bool :=
  match OrdMap.get (extensions c) name with Some v => has_sidecar_marker v | None => false end.

Definition put_extension (c : Catalog) (name version : string) : bool * Catalog :=
  (bool_decide (OrdMap.get (extensions c) name = None),
   with_extensions c (OrdMap.insert (extensions c) name version)).
Definition install_extension (c : Catalog) (name version : string) : bool * Catalog :=
  put_extension c name version.
Definition install_sidecar_extension (c : Catalog) (name version : string) : bool * Catalog :=
  put_extension c name (version ++ SIDECAR_MARKER).
Definition uninstall_extension (c : Catalog) (name : string) : bool * Catalog :=
  (extension_installed c name, with_extensions c (OrdMap.remove (extensions c) name)).
Definition set_extension_version (c : Catalog) (name version : string) : bool * Catalog :=
  match OrdMap.get (extensions c) name with
  | Some v =>
      let v' := if has_sidecar_marker v then version ++ SIDECAR_MARKER else version in
      (true, with_extensions c (OrdMap.alter (extensions c) name (fun _ => v')))
  | None => (false, c)
  end.

(** *** Tables *)

Definition get_table (c : Catalog) (q : QualifiedName) : option Table := OrdMap.get (tables c) q.
Definition has_table (c : Catalog) (q : QualifiedName) : bool := OrdMap.contains_key (tables c) q.
Definition get_view (c : Catalog) (q : QualifiedName) : option View := OrdMap.get (views c) q.

Definition require_table (c : Catalog) (q : QualifiedName) : res Table :=
  ok_or (get_table c q) (UndefinedTable (to_string_qualified q)).

Definition has_relation (c : Catalog) (q : QualifiedName) : bool :=
  OrdMap.contains_key (tables c) q || OrdMap.contains_key (views c) q.

Definition resolve_table_name (c : Catalog) (schema : option string) (name : string) :
    option QualifiedName :=
  match schema with
  | Some s => if has_relation c (mk_qualified s name) then Some (mk_qualified s name) else None
  | None => snd <$> list_find (fun q => has_relation c q = true)
              ((fun s => mk_qualified s name) <$> search_path c)
  end.

Definition creation_schema (c : Catalog) (schema : option string) : res string :=
  match schema with
  | Some s => if OrdMap.contains_key (schemas c) s then Ok s else raise (UndefinedSchema s)
  | None => Ok (default "public" (head (search_path c)))
  end.

Definition insert_table (c : Catalog) (t : Table) : res Catalog :=
  let q := table_qualified t in
  if has_relation c q then raise (DuplicateTable (to_string_qualified q))
  else if OrdMap.contains_key (schemas c) (table_schema t) then
    let t := if decide (table_storage_collection t = String.EmptyString)
             then with_storage_collection t ("__gdb_sql_rows_" ++ pretty (table_oid t)) else t in
    Ok (with_tables c (OrdMap.insert (tables c) q (rebuild_column_map t)))
  else raise (UndefinedSchema (table_schema t)).

Definition references (q : QualifiedName) (fk : ForeignKey) : bool :=
  bool_decide (fk_ref_schema fk = q_schema q) && bool_decide (fk_ref_table fk = q_name q).

Definition referencing_foreign_keys (c : Catalog) (q : QualifiedName) :
    list (QualifiedName * ForeignKey) :=
  mjoin ((fun qt => (fun fk => (table_qualified qt.2, fk)) <$>
                      filter (fun fk => references q fk = true) (table_foreign_keys qt.2))
         <$> tables c).

Definition foreign_keys_in (c : Catalog) (name s : string) : list (QualifiedName * ForeignKey) :=
  mjoin ((fun qt => (fun fk => (table_qualified qt.2, fk)) <$>
                      filter (fun fk => fk_name fk = name) (table_foreign_keys qt.2))
         <$> filter (fun qt => table_schema qt.2 = s) (tables c)).

Definition foreign_keys_named (c : Catalog) (schema : option string) (name : string) :
    list (QualifiedName * ForeignKey) :=
  default [] (snd <$> list_find (fun l => l <> [])
    (foreign_keys_in c name <$> match schema with Some s => [s] | None => search_path c end)).

(** The foreign keys of other tables that refer to the table, its indexes and
    the sequences of its columns go with it. *)
Definition drop_table_qualified (c : Catalog) (q : QualifiedName) : res (Table * Catalog) :=
  let? table := ok_or (get_table c q) (UndefinedTable (to_string_qualified q)) in
  let keep t := with_foreign_keys t (filter (fun fk => references q fk = false) (table_foreign_keys t)) in
  let c := with_tables c ((fun qt => (qt.1, keep qt.2)) <$> OrdMap.remove (tables c) q) in
  let c := with_indexes c (filter (fun qi => ~ (index_schema qi.2 = q_schema q /\ index_table qi.2 = q_name q))
                             (indexes c)) in
  let c := with_table_to_indexes c (delete (q_schema q, q_name q) (table_to_indexes c)) in
  let c := foldl (fun c col =>
    match column_identity_sequence col with
    | Some seq => with_sequences c (OrdMap.remove (sequences c) (mk_qualified (q_schema q) seq))
    | None => c
    end) c (table_columns table) in
  Ok (table, c).

(** *** Schemas *)

Definition has_schema (c : Catalog) (name : string) : bool := OrdMap.contains_key (schemas c) name.

Definition create_schema (c : Catalog) (name : string) (if_not_exists : bool) : res Catalog :=
  if has_schema c name then
    if if_not_exists then Ok c else raise (DuplicateSchema name)
  else Ok (add_schema c name).

Definition drop_schema (c : Catalog) (name : string) (if_exists cascade : bool) : res Catalog :=
  if has_schema c name then
    let names := filter (fun q => q_schema q = name) (tables c).*1 in
    if bool_decide (names <> []) && negb cascade then
      raise (FeatureNotSupported
        ("cannot drop schema " ++ name ++ " because it contains objects (use CASCADE)"))
    else
      let? c := try_fold (fun c q => let? tc := drop_table_qualified c q in Ok tc.2) c names in
      Ok (with_schemas c (OrdMap.remove (schemas c) name))
  else if if_exists then Ok c else raise (UndefinedSchema name).

(** *** Indexes *)

Definition indexes_for_table (c : Catalog) (schema table : string) : list Index :=
  match table_to_indexes c !! (schema, table) with
  | Some names => omap (OrdMap.get (indexes c)) names
  | None => []
  end.

Definition get_index (c : Catalog) (q : QualifiedName) : option Index := OrdMap.get (indexes c) q.

Definition insert_index (c : Catalog) (i : Index) : res Catalog :=
  let q := mk_qualified (index_schema i) (index_name i) in
  if OrdMap.contains_key (indexes c) q then raise (DuplicateIndex (to_string_qualified q))
  else
    let k := (index_schema i, index_table i) in
    let c := with_table_to_indexes c (<[k := (default [] (table_to_indexes c !! k) ++ [q])%list]> (table_to_indexes c)) in
    Ok (with_indexes c (OrdMap.insert (indexes c) q i)).

Definition remove_index (c : Catalog) (q : QualifiedName) (i : Index) : Catalog :=
  let c := with_indexes c (OrdMap.remove (indexes c) q) in
  let k := (index_schema i, index_table i) in
  match table_to_indexes c !! k with
  | Some names =>
      let names := filter (fun iq => iq <> q) names in
      with_table_to_indexes c
        (if decide (names = []) then delete k (table_to_indexes c) else <[k := names]> (table_to_indexes c))
  | None => c
  end.

Definition drop_index_at (c : Catalog) (q : QualifiedName) (if_exists : bool) : res Catalog :=
  match get_index c q with
  | Some i => Ok (remove_index c q i)
  | None => if if_exists then Ok c else raise (UndefinedIndex (to_string_qualified q))
  end.

Definition drop_index (c : Catalog) (schema : option string) (name : string) (if_exists : bool) :
    res Catalog :=
  match schema with
  | Some s => drop_index_at c (mk_qualified s name) if_exists
  | None =>
      match list_find (fun q => OrdMap.contains_key (indexes c) q = true)
              ((fun s => mk_qualified s name) <$> search_path c) with
      | Some (_, q) => drop_index_at c q if_exists
      | None => if if_exists then Ok c else raise (UndefinedIndex name)
      end
  end.

(** *** Sequences *)

Definition create_sequence (c : Catalog) (schema name : string) : Catalog :=
  with_sequences c (OrdMap.or_insert (sequences c) (mk_qualified schema name)
    (mk_sequence schema name 0 1 1)).

Definition set_current (v : Z) (s : Sequence) : Sequence :=
  mk_sequence (seq_schema s) (seq_name s) v (seq_increment s) (seq_start s).

(** [i64], wrapping. *)
Definition next_sequence_value (c : Catalog) (schema name : string) : res (Z * Catalog) :=
  let q := mk_qualified schema name in
  let? s := ok_or (OrdMap.get (sequences c) q)
              (UndefinedObject ("sequence " ++ schema ++ "." ++ name)) in
  let next := if decide (seq_current s = 0)%Z then seq_start s
              else wrap_signed 64 (seq_current s + seq_increment s) in
  Ok (next, with_sequences c (OrdMap.alter (sequences c) q (set_current next))).

Definition observe_sequence_value (c : Catalog) (schema name : string) (value : Z) : Catalog :=
  with_sequences c (OrdMap.alter (sequences c) (mk_qualified schema name) (fun s =>
    if (seq_current s <? value)%Z then set_current value s else s)).

(** *** Views *)

Definition insert_view (c : Catalog) (v : View) : res Catalog :=
  let q := mk_qualified (view_schema v) (view_name v) in
  if has_relation c q then raise (DuplicateTable (to_string_qualified q))
  else Ok (with_views c (OrdMap.insert (views c) q v)).

Definition drop_view (c : Catalog) (q : QualifiedName) (if_exists : bool) : res Catalog :=
  match get_view c q with
  | Some _ => Ok (with_views c (OrdMap.remove (views c) q))
  | None => if if_exists then Ok c else raise (UndefinedTable (to_string_qualified q))
  end.

(** *** Functions *)

(** [schema.map(|s| x == s).unwrap_or(true)] *)
Definition in_schema (schema : option string) (x : string) : bool :=
  match schema with Some s => bool_decide (x = s) | None => true end.

Definition same_signature (schema name : string) (n : nat) (f : FunctionDef) : Prop :=
  fn_schema f = schema /\ fn_name f = name /\ arity f = n.
#[global] Instance same_signature_dec schema name n f : Decision (same_signature schema name n f).
Proof. unfold same_signature. apply _. Defined.

Definition function_position (c : Catalog) (name : string) (n : nat) (schema : string) : option nat :=
  fst <$> list_find (same_signature schema name n) (functions c).

Definition resolve_function_index (c : Catalog) (schema : option string) (name : string) (n : nat) :
    option nat :=
  match schema with
  | Some s => function_position c name n s
  | None => head (omap (function_position c name n) (search_path c))
  end.

Definition find_function (c : Catalog) (schema : option string) (name : string) (n : nat) :
    option FunctionDef :=
  resolve_function_index c schema name n ≫= fun i => functions c !! i.

Definition insert_function (c : Catalog) (def : FunctionDef) : res Catalog :=
  match list_find (same_signature (fn_schema def) (fn_name def) (arity def)) (functions c) with
  | Some _ => raise (DuplicateFunction
      ("function " ++ dquote ++ fn_name def ++ dquote ++ " already exists with same argument count"))
  | None => Ok (with_functions c (functions c ++ [def])%list)
  end.

Definition with_fn_oid (def : FunctionDef) (oid : N) : FunctionDef :=
  mk_function oid (fn_schema def) (fn_name def) (fn_args def) (fn_return_type def) (fn_language def)
    (fn_volatility def) (fn_strict def) (fn_body def) (fn_returns_trigger def).

Definition replace_function (c : Catalog) (def : FunctionDef) : Catalog :=
  match list_find (same_signature (fn_schema def) (fn_name def) (arity def)) (functions c) with
  | Some (i, f) => with_functions c (<[i := with_fn_oid def (fn_oid f)]> (functions c))
  | None => with_functions c (functions c ++ [def])%list
  end.

Definition drop_function (c : Catalog) (schema : option string) (name : string) (n : nat) :
    bool * Catalog :=
  match resolve_function_index c schema name n with
  | Some i => (true, with_functions c (delete i (functions c)))
  | None => (false, c)
  end.

Definition drop_function_by_name (c : Catalog) (schema : option string) (name : string) :
    DropFunctionByName * Catalog :=
  let matches := filter (fun i_f => fn_name i_f.2 = name /\
                           in_schema schema (fn_schema i_f.2) = true)
                   (imap pair (functions c)) in
  match matches with
  | [] => (NotFound, c)
  | [(i, _)] => (Removed, with_functions c (delete i (functions c)))
  | _ => (Ambiguous, c)
  end.

(** *** Embedding rules and dictionaries *)

Definition same_rule (schema table column : string) (r : EmbeddingRuleDef) : Prop :=
  rule_schema r = schema /\ rule_table r = table /\ rule_vector_column r = column.
#[global] Instance same_rule_dec schema table column r : Decision (same_rule schema table column r).
Proof. unfold same_rule. apply _. Defined.

Definition put_embedding_rule (c : Catalog) (rule : EmbeddingRuleDef) : Catalog :=
  with_embedding_rules c
    (filter (fun r => ~ same_rule (rule_schema rule) (rule_table rule) (rule_vector_column rule) r)
       (embedding_rules c) ++ [rule])%list.

Definition drop_embedding_rule (c : Catalog) (schema table column : string) : bool * Catalog :=
  let kept := filter (fun r => ~ same_rule schema table column r) (embedding_rules c) in
  (bool_decide (length kept <> length (embedding_rules c)), with_embedding_rules c kept).

Definition insert_ts_dictionary (c : Catalog) (def : TsDictionaryDef) (if_not_exists : bool) : res Catalog :=
  match list_find (fun d => dict_schema d = dict_schema def /\ dict_name d = dict_name def)
          (ts_dictionaries c) with
  | Some _ =>
      if if_not_exists then Ok c
      else raise (DuplicateObject ("text search dictionary " ++ dquote ++ dict_schema def ++ "."
                                   ++ dict_name def ++ dquote))
  | None => Ok (with_ts_dictionaries c (ts_dictionaries c ++ [def])%list)
  end.

Definition drop_ts_dictionary (c : Catalog) (schema : option string) (name : string)
    (if_exists : bool) : res (bool * Catalog) :=
  match list_find (fun d => dict_name d = name /\ in_schema schema (dict_schema d) = true)
          (ts_dictionaries c) with
  | Some (i, _) => Ok (true, with_ts_dictionaries c (delete i (ts_dictionaries c)))
  | None =>
      if if_exists then Ok (false, c)
      else raise (UndefinedObject ("text search dictionary " ++ dquote ++ name ++ dquote))
  end.
