(* ===== verification/TableStore.v ===== *)
(** * Secondary indexes and loaded tables

    [relational/index.rs] and [sql/store.rs]: index keys, secondary indexes, the
    in-memory view of a table with its indexes, and the stored form of a row. *)

From S2P Require Import Prelude BTree Json Utf8 RustString RustFloat SqlTypes Fts SqlValue OrdMap SqlCatalog.

(** A row: column name -> value. *)
Abbreviation RowValues := (list (string * SqlValue)).

Section store.
Context `{!Foreign}.
Local Open Scope string_scope.

(** ** Keys *)

Definition SEP : string := of_chars [31%N].
Definition null_key : string := of_chars [1114110%N].

(** [None] when a value is NULL. *)
Definition composite_key (values : list SqlValue) : option string :=
  if existsb value_is_null values then None else Some (join SEP (index_key <$> values)).

Definition ordered_part (v : SqlValue) : string := if value_is_null v then null_key else index_key v.

(** NULLs are included and sort last. *)
Definition ordered_key (values : list SqlValue) : string := join SEP (ordered_part <$> values).

(** ** Secondary indexes *)

Definition set_remove (s : list string) (x : string) : list string := filter (fun y => y <> x) s.

Record SecondaryIndex := mk_secondary {
  index_map : list (string * list string);
  enforces_unique : bool
}.

Definition index_new (unique : bool) : SecondaryIndex := mk_secondary [] unique.
Definition index_clear (i : SecondaryIndex) : SecondaryIndex := mk_secondary [] (enforces_unique i).

Definition index_insert (i : SecondaryIndex) (key row_id : string) : SecondaryIndex :=
  mk_secondary
    (BTreeMap.insert (index_map i) key
       (BTreeSet.insert (default [] (BTreeMap.get (index_map i) key)) row_id))
    (enforces_unique i).

Definition index_remove (i : SecondaryIndex) (key row_id : string) : SecondaryIndex :=
  match BTreeMap.get (index_map i) key with
  | Some s =>
      let s := set_remove s row_id in
      mk_secondary
        (if decide (s = []) then BTreeMap.remove (index_map i) key else BTreeMap.insert (index_map i) key s)
        (enforces_unique i)
  | None => i
  end.

Definition index_get (i : SecondaryIndex) (key : string) : list string :=
  default [] (BTreeMap.get (index_map i) key).

Definition unique_occupant (i : SecondaryIndex) (key : string) : option string :=
  BTreeMap.get (index_map i) key ≫= head.

Inductive Bound := Included (k : string) | Excluded (k : string) | Unbounded.

Definition above (lo : Bound) (k : string) : bool :=
  match lo, String.compare k (match lo with Included x | Excluded x => x | Unbounded => k end) with
  | Included _, (Gt | Eq) | Excluded _, Gt | Unbounded, _ => true
  | _, _ => false
  end.
Definition below (hi : Bound) (k : string) : bool :=
  match hi, String.compare k (match hi with Included x | Excluded x => x | Unbounded => k end) with
  | Included _, (Lt | Eq) | Excluded _, Lt | Unbounded, _ => true
  | _, _ => false
  end.

(** [BTreeMap::range] panics on a range that ends before it starts. *)
Definition bad_range (lo hi : Bound) : bool :=
  match lo, hi with
  | Excluded a, Excluded b => match String.compare a b with Lt => false | _ => true end
  | Included a, Included b | Included a, Excluded b | Excluded a, Included b =>
      match String.compare a b with Gt => true | _ => false end
  | _, _ => false
  end.

Definition index_range (i : SecondaryIndex) (lo hi : Bound) : res (list string) :=
  if bad_range lo hi then Err Panic
  else Ok (BTreeSet.from (mjoin (filter (fun ks => above lo ks.1 && below hi ks.1 = true) (index_map i)).*2)).

Definition index_is_empty (i : SecondaryIndex) : bool := bool_decide (index_map i = []).

(** ** Loaded tables *)

Definition F_ID : string := "_id".
Definition F_SCHEMA : string := "__schema".
Definition F_TABLE : string := "__table".
Definition F_VERSION : string := "__version".
Definition F_DELETED : string := "__deleted".

Record LoadedIndex := mk_loaded_index { lindex_meta : Index; lindex_data : SecondaryIndex }.

Record LoadedTable := mk_loaded {
  meta : Table;
  rows : list (string * RowValues);
  versions : list (string * Z);
  lindexes : list LoadedIndex
}.

(** A missing column reads as NULL. *)
Definition row_value (values : RowValues) (c : string) : SqlValue := default VNull (BTreeMap.get values c).

Definition index_values (i : Index) (values : RowValues) : list SqlValue :=
  row_value values <$> index_columns i.

Definition map_data (f : Index -> SecondaryIndex -> SecondaryIndex) (li : LoadedIndex) : LoadedIndex :=
  mk_loaded_index (lindex_meta li) (f (lindex_meta li) (lindex_data li)).

(** The indexes with a row entered or taken out. *)
Definition enter_row (row_id : string) (values : RowValues) : LoadedIndex -> LoadedIndex :=
  map_data (fun m d => index_insert d (ordered_key (index_values m values)) row_id).
Definition leave_row (row_id : string) (values : RowValues) : LoadedIndex -> LoadedIndex :=
  map_data (fun m d => index_remove d (ordered_key (index_values m values)) row_id).

Definition rebuild_indexes (t : LoadedTable) : LoadedTable :=
  mk_loaded (meta t) (rows t) (versions t)
    (foldl (fun l kv => enter_row kv.1 kv.2 <$> l)
       (map_data (fun _ d => index_clear d) <$> lindexes t) (rows t)).

Definition describe_key (columns : list string) (values : list SqlValue) : string :=
  "Key (" ++ join ", " columns ++ ")=(" ++ join ", " ((fun v => default "null" (to_text v)) <$> values)
  ++ ") already exists.".

Fixpoint check_unique_indexes (l : list LoadedIndex) (values : RowValues) (exclude : option string) :
    res unit :=
  match l with
  | [] => Ok tt
  | li :: l =>
      let m := lindex_meta li in
      let key_vals := index_values m values in
      if negb (index_unique m) || bool_decide (composite_key key_vals = None)
      then check_unique_indexes l values exclude
      else if forallb (fun rid => bool_decide (Some rid = exclude))
                (index_get (lindex_data li) (ordered_key key_vals))
      then check_unique_indexes l values exclude
      else raise (UniqueViolation (index_name m) (describe_key (index_columns m) key_vals))
  end.

Definition check_unique (t : LoadedTable) (values : RowValues) (exclude : option string) : res unit :=
  check_unique_indexes (lindexes t) values exclude.

(** [i64], wrapping. *)
Definition bump_version (t : LoadedTable) (row_id : string) : list (string * Z) :=
  BTreeMap.insert (versions t) row_id
    (wrap_signed 64 (default 0 (BTreeMap.get (versions t) row_id) + 1)%Z).

Definition apply_insert (t : LoadedTable) (row_id : string) (values : RowValues) : LoadedTable :=
  mk_loaded (meta t) (BTreeMap.insert (rows t) row_id values) (bump_version t row_id)
    (enter_row row_id values <$> lindexes t).

Definition apply_update (t : LoadedTable) (row_id : string) (values : RowValues) : LoadedTable :=
  let l := match BTreeMap.get (rows t) row_id with
           | Some old => leave_row row_id old <$> lindexes t
           | None => lindexes t
           end in
  mk_loaded (meta t) (BTreeMap.insert (rows t) row_id values) (bump_version t row_id)
    (enter_row row_id values <$> l).

Definition apply_delete (t : LoadedTable) (row_id : string) : LoadedTable :=
  match BTreeMap.get (rows t) row_id with
  | Some old => mk_loaded (meta t) (BTreeMap.remove (rows t) row_id) (versions t)
                  (leave_row row_id old <$> lindexes t)
  | None => t
  end.

Fixpoint index_on (l : list LoadedIndex) (column : string) : option LoadedIndex :=
  match l with
  | [] => None
  | li :: l => if decide (index_columns (lindex_meta li) = [column]) then Some li else index_on l column
  end.

Definition index_lookup_eq (t : LoadedTable) (column : string) (value : SqlValue) : option (list string) :=
  match index_on (lindexes t) column with
  | Some li => Some (if value_is_null value then [] else index_get (lindex_data li) (ordered_key [value]))
  | None => None
  end.

Definition version_of (t : LoadedTable) (row_id : string) : Z := default 1%Z (BTreeMap.get (versions t) row_id).

(** ** Stored rows *)

Definition json_bool (v : Value) : option bool := match v with Bool b => Some b | _ => None end.
Definition json_i64 (v : Value) : option Z := match v with Num n => as_i64 n | _ => None end.

(** The columns in order, each taken out of the document. *)
Fixpoint decode_columns (cols : list Column) (obj : list (string * Value)) (values : RowValues) :
    res RowValues :=
  match cols with
  | [] => Ok values
  | col :: cols =>
      let raw := default Null (BTreeMap.get obj (column_name col)) in
      let? value := decode_json (column_ty col) raw in
      decode_columns cols (BTreeMap.remove obj (column_name col))
        (BTreeMap.insert values (column_name col) value)
  end.

(** [None] for a deleted row. *)
Definition decode_row_owned (t : Table) (doc : Value) : res (option (string * RowValues * Z)) :=
  match doc with
  | Object obj =>
      if default false (BTreeMap.get obj F_DELETED ≫= json_bool) then Ok None
      else
        let? id := ok_or (BTreeMap.get obj F_ID ≫= json_as_str) (Storage "row document missing _id") in
        let version := default 1%Z (BTreeMap.get obj F_VERSION ≫= json_i64) in
        let? values := decode_columns (table_columns t) obj [] in
        Ok (Some (id, values, version))
  | _ => raise (Storage "row document is not an object")
  end.

Definition encode_row (t : Table) (row_id : string) (values : RowValues) (version : Z) : Value :=
  let obj := BTreeMap.of_list
    [(F_ID, Str row_id); (F_SCHEMA, Str (table_schema t)); (F_TABLE, Str (table_name t));
     (F_VERSION, Num (number_from_i64 version)); (F_DELETED, Bool false)] in
  Object (foldl (fun obj col =>
    BTreeMap.insert obj (column_name col)
      (from_option encode_json Null (BTreeMap.get values (column_name col)))) obj (table_columns t)).

(** Loading a table from its stored rows; a row that cannot be decoded fails it. *)
Definition build (t : Table) (docs : list (string * Value)) (index_defs : list Index) : res LoadedTable :=
  let? rv := try_fold (fun rv doc =>
    let? r := decode_row_owned t doc.2 in
    match r with
    | Some (id, values, version) =>
        Ok (BTreeMap.insert rv.1 id values, BTreeMap.insert rv.2 id version)
    | None => Ok rv
    end) ([], []) docs in
  Ok (rebuild_indexes (mk_loaded t rv.1 rv.2
    ((fun m => mk_loaded_index m (index_new (index_unique m)))
     <$> filter (fun m => index_method m <> "hnsw") index_defs))).

(** The row id made of the primary key. *)
Definition derive_row_id (t : Table) (values : RowValues) : option string :=
  match pk_columns t with
  | [] => None
  | pk =>
      let parts := row_value values <$> pk in
      if existsb value_is_null parts then None else Some (join SEP (index_key <$> parts))
  end.

Inductive Mutation :=
| Put (collection row_id : string) (doc : Value)
| Delete (collection row_id : string)
| Truncate (collection : string).
End store.
