(* ===== verification/TableStoreInv.v ===== *)
(** * Loaded tables: theory

    The indexes of a loaded table hold exactly its rows, whatever mutations were
    applied, and are those that a rebuild from the rows gives; the uniqueness
    check accepts a row exactly when no other row has its key; a stored row is
    read back. *)

From S2P Require Import Prelude BTree Json Utf8 RustString RustFloat SqlTypes Fts FtsInv SqlValue SqlTyping SqlConvert SqlStorage OrdMap SqlCatalog TableStore.

Section theory.
Context `{!Foreign}.

(** ** Secondary indexes *)

Record index_ok (d : SecondaryIndex) : Prop := {
  index_keys_sorted : BTreeMap.sorted (index_map d);
  index_sets_ok : Forall (fun ks => BTreeSet.sorted ks.2 /\ ks.2 <> []) (index_map d)
}.

Lemma index_get_insert d k r k' r' :
  r' ∈ index_get (index_insert d k r) k' <-> (k' = k /\ r' = r) \/ r' ∈ index_get d k'.
Proof.
  unfold index_get, index_insert. simpl. rewrite BTreeMap.get_insert. case_decide as Hk; [|naive_solver].
  subst. simpl. rewrite BTreeSet.elem_of_insert. naive_solver.
Qed.

Lemma index_get_remove d k r k' r' :
  r' ∈ index_get (index_remove d k r) k' <-> r' ∈ index_get d k' /\ ~ (k' = k /\ r' = r).
Proof.
  unfold index_get, index_remove. destruct (BTreeMap.get (index_map d) k) as [s|] eqn:E.
  - simpl. assert (Hs : forall x, x ∈ set_remove s r <-> x ∈ s /\ x <> r).
    { intros x. unfold set_remove. rewrite list_elem_of_filter. tauto. }
    case_decide as Hn.
    + rewrite BTreeMap.get_remove. case_decide as Hk; [|naive_solver]. subst. rewrite E. simpl.
      rewrite Hn in Hs. split; [by intros ?%not_elem_of_nil|]. intros [Hr Hne]. apply Hs. naive_solver.
    + rewrite BTreeMap.get_insert. case_decide as Hk; [|naive_solver]. subst. rewrite E. simpl.
      rewrite Hs. naive_solver.
  - split; [|tauto]. intros Hr. split; [done|]. intros [-> ->]. rewrite E in Hr.
    by apply not_elem_of_nil in Hr.
Qed.

Lemma get_set_ok d k s : index_ok d -> BTreeMap.get (index_map d) k = Some s -> BTreeSet.sorted s /\ s <> [].
Proof.
  intros [_ Hs] Hg%BTreeMap.get_Some_elem. rewrite Forall_forall in Hs. by apply (Hs (k, s)).
Qed.

Lemma index_insert_ok d k r : index_ok d -> index_ok (index_insert d k r).
Proof.
  intros Hd. split; simpl.
  - apply BTreeMap.insert_sorted, Hd.
  - apply BTreeMap.insert_Forall; [|apply Hd]. simpl. split.
    + apply BTreeSet.set_insert_sorted.
      destruct (BTreeMap.get (index_map d) k) as [s|] eqn:E; [by apply (get_set_ok d k)|constructor].
    + intros Hn. assert (Hr : r ∈ BTreeSet.insert (default [] (BTreeMap.get (index_map d) k)) r)
        by (apply BTreeSet.elem_of_insert; by left).
      rewrite Hn in Hr. by apply not_elem_of_nil in Hr.
Qed.

Lemma remove_sorted_map {V} (m : list (string * V)) k : BTreeMap.sorted m -> BTreeMap.sorted (BTreeMap.remove m k).
Proof. apply BTreeMap.map_filter_sorted. Qed.

Lemma remove_Forall {V} (P : string * V -> Prop) m k : Forall P m -> Forall P (BTreeMap.remove m k).
Proof. unfold BTreeMap.remove. rewrite !Forall_forall. intros Hm x [_ Hx]%list_elem_of_filter. auto. Qed.

Lemma index_remove_ok d k r : index_ok d -> index_ok (index_remove d k r).
Proof.
  intros Hd. unfold index_remove. destruct (BTreeMap.get (index_map d) k) as [s|] eqn:E; [|done].
  pose proof (get_set_ok d k s Hd E) as [Hs _]. destruct Hd as [Hm Hf].
  case_decide as Hn; split; simpl; auto using remove_sorted_map, remove_Forall, BTreeMap.insert_sorted.
  apply BTreeMap.insert_Forall; [|done]. split; [|done]. by apply BTreeSet.filter_sorted.
Qed.

(** An index is determined by its entries. *)
Lemma index_ext d d' :
  index_ok d -> index_ok d' -> enforces_unique d = enforces_unique d' ->
  (forall k r, r ∈ index_get d k <-> r ∈ index_get d' k) -> d = d'.
Proof.
  intros Hd Hd' Hu Heq. destruct d as [m u], d' as [m' u']. simpl in Hu. subst u'. f_equal.
  apply BTreeMap.sorted_ext; [apply Hd|apply Hd'|]. intros k. specialize (Heq k).
  unfold index_get in Heq. simpl in Heq.
  destruct (BTreeMap.get m k) as [s|] eqn:E, (BTreeMap.get m' k) as [s'|] eqn:E'; simpl in Heq.
  - f_equal. destruct (get_set_ok _ k s Hd E), (get_set_ok _ k s' Hd' E').
    by apply BTreeSet.set_sorted_ext.
  - destruct (get_set_ok _ k s Hd E) as [_ Hne]. destruct s as [|x s]; [done|].
    destruct (Heq x) as [Hx _]. exfalso. eapply not_elem_of_nil, Hx. left.
  - destruct (get_set_ok _ k s' Hd' E') as [_ Hne]. destruct s' as [|x s]; [done|].
    destruct (Heq x) as [_ Hx]. exfalso. eapply not_elem_of_nil, Hx. left.
  - done.
Qed.

(** ** Loaded tables *)

(** The entries of an index are the rows, under their keys. *)
Definition index_exact (m : Index) (d : SecondaryIndex) (rs : list (string * RowValues)) : Prop :=
  forall key rid, rid ∈ index_get d key <->
    exists row, BTreeMap.get rs rid = Some row /\ ordered_key (index_values m row) = key.

Record table_ok (t : LoadedTable) : Prop := {
  rows_sorted : BTreeMap.sorted (rows t);
  indexes_ok : Forall (fun li => index_ok (lindex_data li)) (lindexes t);
  indexes_exact : Forall (fun li => index_exact (lindex_meta li) (lindex_data li) (rows t)) (lindexes t)
}.

Lemma enter_exact rid row rs li :
  BTreeMap.get rs rid = None -> index_exact (lindex_meta li) (lindex_data li) rs ->
  index_exact (lindex_meta li) (lindex_data (enter_row rid row li)) (BTreeMap.insert rs rid row).
Proof.
  intros Hnew Hex key r. simpl. rewrite index_get_insert, (Hex key r), BTreeMap.get_insert. case_decide as Hr.
  - subst. rewrite Hnew. naive_solver.
  - naive_solver.
Qed.

Lemma leave_exact rid row rs li :
  BTreeMap.get rs rid = Some row -> index_exact (lindex_meta li) (lindex_data li) rs ->
  index_exact (lindex_meta li) (lindex_data (leave_row rid row li)) (BTreeMap.remove rs rid).
Proof.
  intros Hrow Hex key r. simpl. rewrite index_get_remove, (Hex key r), BTreeMap.get_remove. case_decide as Hr.
  - subst. rewrite Hrow. naive_solver.
  - naive_solver.
Qed.

(** A new row. *)
Lemma apply_insert_ok t rid row :
  BTreeMap.get (rows t) rid = None -> table_ok t -> table_ok (apply_insert t rid row).
Proof.
  intros Hnew [Hs Hi He]. split; simpl; [by apply BTreeMap.insert_sorted|..]; apply Forall_fmap.
  - eapply Forall_impl; [exact Hi|]. intros li. apply index_insert_ok.
  - eapply Forall_impl; [exact He|]. intros li Hli. exact (enter_exact rid row _ li Hnew Hli).
Qed.

Lemma apply_delete_ok t rid : table_ok t -> table_ok (apply_delete t rid).
Proof.
  intros [Hs Hi He]. unfold apply_delete.
  destruct (BTreeMap.get (rows t) rid) as [old|] eqn:E; [|by split].
  split; simpl; [by apply remove_sorted_map|..]; apply Forall_fmap.
  - eapply Forall_impl; [exact Hi|]. intros li. apply index_remove_ok.
  - eapply Forall_impl; [exact He|]. intros li Hli. exact (leave_exact rid old _ li E Hli).
Qed.

(** Replacing a row is taking it out and entering the new one. *)
Lemma insert_remove_rows (rs : list (string * RowValues)) rid row :
  BTreeMap.sorted rs -> BTreeMap.insert (BTreeMap.remove rs rid) rid row = BTreeMap.insert rs rid row.
Proof.
  intros Hs. apply BTreeMap.sorted_ext.
  - by apply BTreeMap.insert_sorted, remove_sorted_map.
  - by apply BTreeMap.insert_sorted.
  - intros k. rewrite !BTreeMap.get_insert, BTreeMap.get_remove. by repeat case_decide.
Qed.

Lemma apply_update_ok t rid row : table_ok t -> table_ok (apply_update t rid row).
Proof.
  intros Ht. unfold apply_update. destruct (BTreeMap.get (rows t) rid) as [old|] eqn:E.
  - pose proof (apply_delete_ok t rid Ht) as Hd. unfold apply_delete in Hd. rewrite E in Hd.
    apply (apply_insert_ok _ rid row) in Hd.
    + destruct Hd as [Hs Hi He]. simpl in *. rewrite insert_remove_rows in Hs, He by apply Ht.
      by split.
    + simpl. rewrite BTreeMap.get_remove. by rewrite decide_True.
  - by apply (apply_insert_ok t rid row).
Qed.

(** Rebuilding from the rows. *)
Lemma index_clear_ok d : index_ok (index_clear d).
Proof. split; constructor. Qed.

Lemma rebuild_exact l (rs done : list (string * RowValues)) :
  BTreeMap.sorted (done ++ rs) ->
  Forall (fun li => index_ok (lindex_data li)) l ->
  Forall (fun li => index_exact (lindex_meta li) (lindex_data li) done) l ->
  let l' := foldl (fun l kv => enter_row kv.1 kv.2 <$> l) l rs in
  Forall (fun li => index_ok (lindex_data li)) l' /\
  Forall (fun li => index_exact (lindex_meta li) (lindex_data li) (done ++ rs)) l'.
Proof.
  revert l done. induction rs as [|[rid row] rs IH]; intros l don Hs Hi He; [by rewrite app_nil_r|].
  pose proof (BTreeMap.sorted_before don rid row rs Hs) as Hlast.
  cbn [foldl fst snd]. replace (don ++ (rid, row) :: rs) with ((don ++ [(rid, row)]) ++ rs) in *
    by by rewrite <- app_assoc.
  rewrite <- (BTreeMap.insert_last don rid row Hlast) in *.
  apply IH; [done|..]; apply Forall_fmap.
  - eapply Forall_impl; [exact Hi|]. intros li. apply index_insert_ok.
  - assert (Hnew : BTreeMap.get don rid = None).
    { apply BTreeMap.get_None. intros Hin%Hlast. by rewrite (proj2 (BTreeMap.compare_eq rid rid)) in Hin. }
    eapply Forall_impl; [exact He|]. intros li Hli. exact (enter_exact rid row _ li Hnew Hli).
Qed.

Lemma rebuild_indexes_ok t : BTreeMap.sorted (rows t) -> table_ok (rebuild_indexes t).
Proof.
  intros Hs. unfold rebuild_indexes.
  destruct (rebuild_exact (map_data (fun _ d => index_clear d) <$> lindexes t) (rows t) []) as [Hi He].
  - done.
  - apply Forall_fmap, Forall_true. intros li. apply index_clear_ok.
  - apply Forall_fmap, Forall_true. intros li key rid. split; [by intros ?%not_elem_of_nil|by intros (? & ? & _)].
  - by split.
Qed.

(** Tables with the same rows and the same index definitions have the same
    indexes. *)
Definition same_defs (l l' : list LoadedIndex) : Prop :=
  Forall2 (fun li li' => lindex_meta li = lindex_meta li' /\
                         enforces_unique (lindex_data li) = enforces_unique (lindex_data li')) l l'.

Lemma indexes_determined t t' :
  table_ok t -> table_ok t' -> rows t = rows t' -> same_defs (lindexes t) (lindexes t') ->
  lindexes t = lindexes t'.
Proof.
  intros [_ Hi He] [_ Hi' He'] Hr Hd. rewrite Hr in He. revert Hi He Hi' He'.
  induction Hd as [|[m d] [m' d'] l l' [Hm Hu] Hd IH]; [done|].
  intros [Hd1 Hi]%Forall_cons [He1 He]%Forall_cons [Hd1' Hi']%Forall_cons [He1' He']%Forall_cons.
  simpl in *. subst m'. f_equal; [|by apply IH]. f_equal. apply index_ext; [done..|].
  intros k r. by rewrite (He1 k r), (He1' k r).
Qed.

Lemma enter_rows_defs (rs : list (string * RowValues)) l l' :
  same_defs l l' -> same_defs l (foldl (fun l kv => enter_row kv.1 kv.2 <$> l) l' rs).
Proof.
  revert l'. induction rs as [|[rid row] rs IH]; intros l' Hd; [done|]. apply IH.
  eapply Forall2_fmap_r, Forall2_impl; [exact Hd|]. by intros li li'.
Qed.

(** Keeping the indexes up to date gives what a rebuild gives. *)
Lemma maintained_is_rebuilt t : table_ok t -> rebuild_indexes t = t.
Proof.
  intros Ht. pose proof (rebuild_indexes_ok t (rows_sorted _ Ht)) as Hr.
  assert (Hl : lindexes t = lindexes (rebuild_indexes t)).
  { apply indexes_determined; [done..|]. apply enter_rows_defs.
    apply Forall2_fmap_r, Forall_Forall2_diag, Forall_true. done. }
  unfold rebuild_indexes in *. simpl in Hl. rewrite <- Hl. by destruct t.
Qed.

(** ** Keys *)

Lemma parts_not_null vs : existsb value_is_null vs = false -> ordered_part <$> vs = index_key <$> vs.
Proof.
  intros E. apply list_fmap_ext. intros i v Hv. unfold ordered_part.
  destruct (value_is_null v) eqn:En; [|done].
  assert (existsb value_is_null vs = true); [|congruence].
  apply existsb_exists. exists v. split; [|done]. by apply list_elem_of_In, list_elem_of_lookup_2 with i.
Qed.

Lemma composite_ordered vs k : composite_key vs = Some k -> ordered_key vs = k.
Proof.
  unfold composite_key, ordered_key. destruct (existsb value_is_null vs) eqn:E; [done|]. intros [= <-].
  by rewrite parts_not_null.
Qed.

Lemma composite_none vs : composite_key vs = None <-> exists v, v ∈ vs /\ value_is_null v = true.
Proof.
  unfold composite_key. destruct (existsb value_is_null vs) eqn:E; split; try done.
  - intros _. apply existsb_exists in E as (v & Hv & Hn). exists v. by rewrite list_elem_of_In.
  - intros (v & Hv & Hn). exfalso. assert (existsb value_is_null vs = true); [|congruence].
    apply existsb_exists. exists v. by rewrite <- list_elem_of_In.
Qed.

(** A text without the separator. *)
Definition plain (s : string) : Prop := byte_of 31 ∉ String.list_ascii_of_string s.

Lemma plain_cons a s : plain (String.String a s) <-> a <> byte_of 31 /\ plain s.
Proof. unfold plain. simpl. rewrite not_elem_of_cons. naive_solver. Qed.

Lemma SEP_byte s : (SEP ++ s)%string = String.String (byte_of 31) s.
Proof. done. Qed.

(** The part before the first separator. *)
Lemma plain_prefix x y r r' :
  plain x -> plain y -> (x ++ SEP ++ r = y ++ SEP ++ r')%string -> x = y /\ r = r'.
Proof.
  rewrite !SEP_byte. revert y. induction x as [|a x IH]; intros [|b y] Hx Hy Heq.
  - by injection Heq as ->.
  - injection Heq as <- _. by apply plain_cons in Hy as [? _].
  - injection Heq as -> _. by apply plain_cons in Hx as [? _].
  - apply plain_cons in Hx as [_ Hx], Hy as [_ Hy].
    injection Heq as <- Heq. apply IH in Heq as [-> ->]; done.
Qed.

Lemma plain_no_sep x y r : plain y -> (x ++ SEP ++ r)%string <> y.
Proof.
  intros Hy <-. revert Hy. rewrite SEP_byte. induction x as [|a x IH]; intros Hy.
  - by apply plain_cons in Hy as [? _].
  - apply IH. by apply (plain_cons a) in Hy as [_ ?].
Qed.

Lemma join_cons x xs : xs <> [] -> join SEP (x :: xs) = (x ++ SEP ++ join SEP xs)%string.
Proof. by destruct xs. Qed.

(** Joined texts without separators are told apart. *)
Lemma join_inj xs ys :
  Forall plain xs -> Forall plain ys -> length xs = length ys -> join SEP xs = join SEP ys -> xs = ys.
Proof.
  revert ys. induction xs as [|x xs IH]; intros [|y ys]; try done.
  intros [Hx Hxs]%Forall_cons [Hy Hys]%Forall_cons [= Hlen] Heq.
  destruct xs as [|x' xs], ys as [|y' ys]; try done; [simpl in Heq; by subst|].
  rewrite !join_cons in Heq by done. apply plain_prefix in Heq as [-> Heq]; [|done..].
  f_equal. by apply IH.
Qed.

Lemma index_key_tag v :
  value_is_null v = false -> exists t s, index_key v = String.String t (String.String ":" s) /\ t <> byte_of 244.
Proof. destruct v; try done; intros _; eexists _, _; (split; [reflexivity|done]). Qed.

Lemma ordered_part_null v w :
  ordered_part v = ordered_part w -> value_is_null v = value_is_null w.
Proof.
  unfold ordered_part. destruct (value_is_null v) eqn:Ev, (value_is_null w) eqn:Ew; try done; intros Heq.
  - destruct (index_key_tag w Ew) as (t & s & Hk & Ht). rewrite Hk in Heq. by injection Heq as <-.
  - destruct (index_key_tag v Ev) as (t & s & Hk & Ht). rewrite Hk in Heq. by injection Heq as ->.
Qed.

Definition plain_values (vs : list SqlValue) : Prop := Forall (fun v => plain (ordered_part v)) vs.

Lemma ordered_key_inj vs ws :
  plain_values vs -> plain_values ws -> length vs = length ws -> ordered_key vs = ordered_key ws ->
  ordered_part <$> vs = ordered_part <$> ws.
Proof.
  intros Hv Hw Hlen Heq. apply join_inj; [by apply Forall_fmap..|by rewrite !length_fmap|done].
Qed.

(** Equal parts, equal composite key. *)
Lemma parts_composite vs ws : ordered_part <$> vs = ordered_part <$> ws -> composite_key vs = composite_key ws.
Proof.
  intros Heq. assert (Hn : existsb value_is_null vs = existsb value_is_null ws).
  { revert ws Heq. induction vs as [|v vs IH]; intros [|w ws]; try done. intros [= Hp Heq].
    simpl. by rewrite (ordered_part_null v w Hp), (IH ws Heq). }
  unfold composite_key. rewrite Hn. destruct (existsb value_is_null ws) eqn:E; [done|].
  by rewrite <- !parts_not_null, Heq.
Qed.

(** ** Uniqueness *)

(** No other row has the key of the new values in a unique index. *)
Definition no_conflict (t : LoadedTable) (values : RowValues) (exclude : option string) : Prop :=
  Forall (fun li => index_unique (lindex_meta li) = true ->
    composite_key (index_values (lindex_meta li) values) <> None ->
    forall rid row, BTreeMap.get (rows t) rid = Some row ->
      ordered_key (index_values (lindex_meta li) row) = ordered_key (index_values (lindex_meta li) values) ->
      Some rid = exclude) (lindexes t).

Lemma check_unique_spec t values exclude :
  table_ok t ->
  match check_unique t values exclude with
  | Ok _ => no_conflict t values exclude
  | Err (Raise (UniqueViolation _ _)) => ~ no_conflict t values exclude
  | Err _ => False
  end.
Proof.
  intros [_ _ He]. unfold check_unique, no_conflict. generalize (rows t) He. clear He. intros rs He.
  set (P := fun li => index_unique (lindex_meta li) = true -> _).
  assert (Hskip : forall li l, P li ->
    match check_unique_indexes l values exclude with
    | Ok _ => Forall P l
    | Err (Raise (UniqueViolation _ _)) => ~ Forall P l
    | Err _ => False
    end -> match check_unique_indexes l values exclude with
    | Ok _ => Forall P (li :: l)
    | Err (Raise (UniqueViolation _ _)) => ~ Forall P (li :: l)
    | Err _ => False
    end).
  { intros li l Hli. destruct (check_unique_indexes l values exclude) as [|[[]|]]; try done;
      rewrite Forall_cons; tauto. }
  induction He as [|li l Hex He IH]; [by constructor|]. cbn [check_unique_indexes].
  destruct (index_unique (lindex_meta li)) eqn:Hu; cbn [negb orb].
  2: { apply Hskip; [|done]. intros ?. congruence. }
  case_bool_decide as Hk; [by apply Hskip; [intros _ Hne|]|]. destruct (forallb _ _) eqn:Hf.
  - apply Hskip; [|done]. rewrite forallb_forall in Hf. intros _ _ rid row Hg Heq.
    apply (bool_decide_eq_true_1 _), Hf, list_elem_of_In, Hex. by exists row.
  - rewrite Forall_cons. intros [Hli _]. apply not_true_iff_false in Hf. apply Hf, forallb_forall.
    intros rid (row & Hg & Heq)%list_elem_of_In%Hex. apply bool_decide_eq_true_2. by apply (Hli Hu Hk rid row).
Qed.

(** Rows with the same key in a unique index are one row. *)
Definition unique_ok (t : LoadedTable) : Prop :=
  forall rid row, BTreeMap.get (rows t) rid = Some row -> no_conflict t row (Some rid).

(** ** Lookups *)

Lemma index_on_elem l column li :
  index_on l column = Some li -> li ∈ l /\ index_columns (lindex_meta li) = [column].
Proof.
  induction l as [|x l IH]; [done|]. cbn [index_on]. case_decide; [intros [= ->]; split; [left|done]|].
  intros [? ?]%IH. split; [by right|done].
Qed.

(** An index lookup finds the rows that a scan for the key finds. *)
Lemma lookup_is_scan t column value ids :
  table_ok t -> index_lookup_eq t column value = Some ids ->
  forall rid, rid ∈ ids <->
    value_is_null value = false /\ exists row, BTreeMap.get (rows t) rid = Some row /\
      value_is_null (row_value row column) = false /\ index_key (row_value row column) = index_key value.
Proof.
  intros [_ _ He]. unfold index_lookup_eq.
  destruct (index_on (lindexes t) column) as [li|] eqn:E; [|done]. intros [= <-] rid.
  apply index_on_elem in E as [Hli Hc]. rewrite Forall_forall in He.
  destruct (value_is_null value) eqn:En; [split; [by intros ?%not_elem_of_nil|by intros [? _]]|].
  rewrite (He li Hli (ordered_key [value]) rid). unfold index_values. rewrite Hc. csimpl.
  unfold ordered_key. csimpl. split.
  - intros (row & Hg & Hp). split; [done|]. exists row. split; [done|].
    pose proof (ordered_part_null _ _ Hp) as Hn. rewrite En in Hn. split; [done|].
    unfold ordered_part in Hp. by rewrite Hn, En in Hp.
  - intros (_ & row & Hg & Hn & Hk). exists row. split; [done|]. unfold ordered_part. by rewrite Hn, En.
Qed.

(** ** Stored rows *)

Definition reserved : list string := [F_ID; F_SCHEMA; F_TABLE; F_VERSION; F_DELETED].

Definition column_names (t : Table) : list string := column_name <$> table_columns t.

(** A row that has a stored form. *)
Definition row_storable (t : Table) (row : RowValues) : Prop :=
  Forall (fun col => let v := row_value row (column_name col) in
    has_type (column_ty col) v /\ column_type (column_ty col) = true /\ storable v) (table_columns t).

(** The values of the columns, in the order of the columns. *)
Definition column_values (t : Table) (row : RowValues) : RowValues :=
  (fun col => (column_name col, row_value row (column_name col))) <$> table_columns t.

Context `{!ForeignText, !ForeignStorage}.

Lemma decode_columns_spec cols row obj acc :
  NoDup (column_name <$> cols) ->
  Forall (fun col => let v := row_value row (column_name col) in
    has_type (column_ty col) v /\ column_type (column_ty col) = true /\ storable v) cols ->
  (forall col, col ∈ cols ->
    BTreeMap.get obj (column_name col) = Some (encode_json (row_value row (column_name col)))) ->
  decode_columns cols obj acc =
  Ok (foldl (fun m kv => BTreeMap.insert m kv.1 kv.2) acc
        ((fun col => (column_name col, row_value row (column_name col))) <$> cols)).
Proof.
  revert obj acc. induction cols as [|col cols IH]; intros obj acc Hnd Hok Hobj; [done|].
  apply NoDup_cons in Hnd as [Hnew Hnd]. apply Forall_cons in Hok as [(Ht & Hc & Hs) Hok].
  cbn [decode_columns]. rewrite Hobj by left. cbn [from_option id]. rewrite decode_encode by done.
  rewrite IH; [done..|]. intros col' Hcol'. rewrite BTreeMap.get_remove, decide_False; [by apply Hobj; right|].
  intros Heq. apply Hnew. rewrite <- Heq. by apply list_elem_of_fmap_2.
Qed.

Lemma encode_fields cols values obj k :
  BTreeMap.get (foldl (fun obj col => BTreeMap.insert obj (column_name col)
      (from_option encode_json Null (BTreeMap.get values (column_name col)))) obj cols) k =
  if decide (k ∈ column_name <$> cols) then Some (encode_json (row_value values k)) else BTreeMap.get obj k.
Proof.
  revert obj. induction cols as [|col cols IH]; intros obj; [done|]. cbn [foldl]. rewrite IH.
  rewrite fmap_cons, BTreeMap.get_insert. destruct (decide (k ∈ column_name <$> cols)) as [Hk|Hk].
  - rewrite (decide_True (P := k ∈ _ :: _)) by by right. done.
  - destruct (decide (k = column_name col)) as [->|Hne].
    + rewrite (decide_True (P := _ ∈ _ :: _)) by left. f_equal. unfold row_value.
      by destruct (BTreeMap.get values (column_name col)).
    + rewrite (decide_False (P := k ∈ _ :: _)); [done|]. by intros [?|?]%elem_of_cons.
Qed.

(** A row is read back from its stored form. *)
Lemma decode_encode_row t rid row version :
  NoDup (column_names t) -> (forall c, c ∈ column_names t -> c ∉ reserved) ->
  row_storable t row -> (i64_min <= version <= i64_max)%Z ->
  decode_row_owned t (encode_row t rid row version) =
  Ok (Some (rid, BTreeMap.of_list (column_values t row), version)).
Proof.
  intros Hnd Hres Hok Hver. unfold encode_row, decode_row_owned.
  assert (Hf : forall k, k ∈ reserved -> k ∉ column_name <$> table_columns t)
    by (intros k Hk Hin; by apply (Hres k)).
  rewrite encode_fields, decide_False by by apply Hf; set_solver.
  rewrite encode_fields, decide_False by by apply Hf; set_solver.
  rewrite encode_fields, decide_False by by apply Hf; set_solver.
  cbn [ok_or]. rewrite decode_columns_spec with (row := row); [|done..|].
  - set (obj := BTreeMap.of_list [_; _; _; _; _]).
    replace (BTreeMap.get obj F_DELETED) with (Some (Bool false)) by done.
    replace (BTreeMap.get obj F_ID) with (Some (Str rid)) by done.
    replace (BTreeMap.get obj F_VERSION) with (Some (Num (number_from_i64 version))) by done.
    simpl. by rewrite number_read.
  - intros col Hcol. rewrite encode_fields, decide_True; [done|]. by apply list_elem_of_fmap_2.
Qed.

(** ** Loading *)

Lemma build_sorted t docs acc rv :
  BTreeMap.sorted acc.1 ->
  try_fold (fun (rv : list (string * RowValues) * list (string * Z)) (doc : string * Value) =>
    let? r := decode_row_owned t doc.2 in
    match r with
    | Some (id, values, version) => Ok (BTreeMap.insert rv.1 id values, BTreeMap.insert rv.2 id version)
    | None => Ok rv
    end) acc docs = Ok rv -> BTreeMap.sorted rv.1.
Proof.
  revert acc. induction docs as [|doc docs IH]; intros acc Hs; cbn [try_fold]; [by intros [= <-]|].
  destruct (decode_row_owned t doc.2) as [[[[id values] version]|]|]; [| |done]; apply IH; [|done].
  by apply BTreeMap.insert_sorted.
Qed.

(** A table that loads satisfies the invariant. *)
Lemma build_ok t docs defs lt : build t docs defs = Ok lt -> table_ok lt /\ meta lt = t.
Proof.
  unfold build. destruct (try_fold _ _ docs) as [rv|] eqn:E; [|done]. intros [= <-].
  split; [|done]. apply rebuild_indexes_ok. simpl. eapply build_sorted; [|exact E]. constructor.
Qed.

(** The documents of the rows. *)
Definition stored_rows (lt : LoadedTable) : list (string * Value) :=
  (fun kv => (kv.1, encode_row (meta lt) kv.1 kv.2 (version_of lt kv.1))) <$> rows lt.

(** Rows that have the columns of the table and no others. *)
Definition row_full (t : Table) (row : RowValues) : Prop := BTreeMap.of_list (column_values t row) = row.

Record rows_storable (lt : LoadedTable) : Prop := {
  columns_distinct : NoDup (column_names (meta lt));
  columns_free : forall c, c ∈ column_names (meta lt) -> c ∉ reserved;
  rows_stored : Forall (fun kv => row_full (meta lt) kv.2 /\ row_storable (meta lt) kv.2 /\
                          (i64_min <= version_of lt kv.1 <= i64_max)%Z) (rows lt)
}.

Lemma reload_rows lt rs vs docs :
  NoDup (column_names (meta lt)) -> (forall c, c ∈ column_names (meta lt) -> c ∉ reserved) ->
  Forall (fun kv => row_full (meta lt) kv.2 /\ row_storable (meta lt) kv.2 /\
                    (i64_min <= version_of lt kv.1 <= i64_max)%Z) docs ->
  try_fold (fun (rv : list (string * RowValues) * list (string * Z)) (doc : string * Value) =>
    let? r := decode_row_owned (meta lt) doc.2 in
    match r with
    | Some (id, values, version) => Ok (BTreeMap.insert rv.1 id values, BTreeMap.insert rv.2 id version)
    | None => Ok rv
    end) (rs, vs) ((fun kv => (kv.1, encode_row (meta lt) kv.1 kv.2 (version_of lt kv.1))) <$> docs) =
  Ok (foldl (fun m kv => BTreeMap.insert m kv.1 kv.2) rs docs,
      foldl (fun m kv => BTreeMap.insert m kv.1 (version_of lt kv.1)) vs docs).
Proof.
  intros Hnd Hfree Hdocs. revert rs vs. induction Hdocs as [|[rid row] docs (Hfull & Hst & Hv) _ IH];
    intros rs vs; [done|]. rewrite fmap_cons. cbn [try_fold fst snd foldl].
  cbn [fst snd] in *. rewrite decode_encode_row by done. unfold row_full in Hfull. rewrite Hfull. apply IH.
Qed.

(** Loading the stored rows of a table gives the table back. *)
Lemma build_stored lt defs :
  table_ok lt -> rows_storable lt ->
  lindex_meta <$> lindexes lt = filter (fun m => index_method m <> "hnsw"%string) defs ->
  Forall (fun li => enforces_unique (lindex_data li) = index_unique (lindex_meta li)) (lindexes lt) ->
  exists lt', build (meta lt) (stored_rows lt) defs = Ok lt' /\ meta lt' = meta lt /\ rows lt' = rows lt /\
    lindexes lt' = lindexes lt.
Proof.
  intros Hok [Hnd Hfree Hrows] Hdefs Hu. unfold build, stored_rows. rewrite reload_rows by done.
  pose proof (BTreeMap.of_list_id (rows lt) (rows_sorted _ Hok)) as Hid. unfold BTreeMap.of_list in Hid.
  rewrite Hid. eexists. split; [done|]. split; [done|]. split; [done|].
  apply indexes_determined; [by apply rebuild_indexes_ok, Hok|done..|].
  assert (Hsym : same_defs (lindexes lt) (lindexes (rebuild_indexes (mk_loaded (meta lt) (rows lt)
    (foldl (fun m kv => BTreeMap.insert m kv.1 (version_of lt kv.1)) [] (rows lt))
    ((fun m => mk_loaded_index m (index_new (index_unique m)))
     <$> filter (fun m => index_method m <> "hnsw"%string) defs))))).
  { apply enter_rows_defs. cbn [lindexes]. rewrite <- Hdefs, <- !list_fmap_compose. apply Forall2_fmap_r, Forall_Forall2_diag.
    eapply Forall_impl; [exact Hu|]. by intros li Hli. }
  eapply Forall2_flip, Forall2_impl; [exact Hsym|]. by intros li li' [-> ->].
Qed.
End theory.
