(* ===== verification/RelStorage.v ===== *)
(** * The storage of the relational engine

    [relational/storage.rs]: the trait [RelationalStorage] as a class, its
    contract as a second class, and [MemoryStorage], which satisfies it.
    Collections are documents by row id; the change counters are unbounded
    here ([u64] in the code). *)

From S2P Require Import Prelude BTree Json SqlTypes.

Class RelationalStorage (S : Type) := {
  scan : S -> string -> res (list (string * Value));
  storage_get : S -> string -> string -> res (option Value);
  storage_put : S -> string -> string -> Value -> res S;
  storage_delete : S -> string -> string -> res S;
  storage_truncate : S -> string -> res S;
  load_catalog_doc : S -> res (option Value);
  save_catalog_doc : S -> Value -> res S;
  generation : S -> string -> option N
}.

(** The change counter of [c] advances from [s] to [s'], and no other. *)
Definition advances {S} `{!RelationalStorage S} (s s' : S) (c : string) : Prop :=
  (forall g, generation s c = Some g -> exists g', generation s' c = Some g' /\ (g < g')%N) /\
  (generation s c = None -> generation s' c = None) /\
  forall c', c' <> c -> generation s' c' = generation s c'.

(** What the documentation of the trait promises: reads show the documents,
    writes change one of them, and the counter of a collection advances with
    every change. *)
Class StorageContract (S : Type) `{!RelationalStorage S} := {
  storage_ok : S -> Prop;
  docs : S -> string -> list (string * Value);
  catalog_doc : S -> option Value;
  docs_sorted s c : storage_ok s -> BTreeMap.sorted (docs s c);
  scan_docs s c l : storage_ok s -> scan s c = Ok l -> l = docs s c;
  get_docs s c r d : storage_ok s -> storage_get s c r = Ok d -> d = BTreeMap.get (docs s c) r;
  put_docs s c r d s' : storage_ok s -> storage_put s c r d = Ok s' ->
    storage_ok s' /\ docs s' c = BTreeMap.insert (docs s c) r d /\ (forall c', c' <> c -> docs s' c' = docs s c') /\
    catalog_doc s' = catalog_doc s /\ advances s s' c;
  delete_docs s c r s' : storage_ok s -> storage_delete s c r = Ok s' ->
    storage_ok s' /\ docs s' c = BTreeMap.remove (docs s c) r /\ (forall c', c' <> c -> docs s' c' = docs s c') /\
    catalog_doc s' = catalog_doc s /\ advances s s' c;
  truncate_docs s c s' : storage_ok s -> storage_truncate s c = Ok s' ->
    storage_ok s' /\ docs s' c = [] /\ (forall c', c' <> c -> docs s' c' = docs s c') /\
    catalog_doc s' = catalog_doc s /\ advances s s' c;
  load_catalog_docs s j : storage_ok s -> load_catalog_doc s = Ok j -> j = catalog_doc s;
  save_catalog_docs s j s' : storage_ok s -> save_catalog_doc s j = Ok s' ->
    storage_ok s' /\ docs s' = docs s /\ catalog_doc s' = Some j /\ generation s' = generation s
}.

(** ** The storage in memory *)

Module MemoryStorage.
Record t := mk {
  collections : list (string * list (string * Value));
  catalog : option Value;
  generations : list (string * N)
}.

Definition new : t := mk [] None [].

Definition count (s : t) (collection : string) : nat :=
  default 0 (length <$> BTreeMap.get (collections s) collection).

Definition bump (s : t) (collection : string) : t :=
  mk (collections s) (catalog s)
    (BTreeMap.insert (generations s) collection
       (default 0 (BTreeMap.get (generations s) collection) + 1)%N).

Definition scan (s : t) (collection : string) : res (list (string * Value)) :=
  Ok (default [] (BTreeMap.get (collections s) collection)).

Definition get (s : t) (collection row_id : string) : res (option Value) :=
  Ok (BTreeMap.get (collections s) collection ≫= fun c => BTreeMap.get c row_id).

Definition with_collections (s : t) (c : list (string * list (string * Value))) : t :=
  mk c (catalog s) (generations s).

Definition put (s : t) (collection row_id : string) (doc : Value) : res t :=
  let c := default [] (BTreeMap.get (collections s) collection) in
  Ok (bump (with_collections s (BTreeMap.insert (collections s) collection (BTreeMap.insert c row_id doc))) collection).

Definition delete (s : t) (collection row_id : string) : res t :=
  let s := match BTreeMap.get (collections s) collection with
           | Some c => with_collections s (BTreeMap.insert (collections s) collection (BTreeMap.remove c row_id))
           | None => s
           end in
  Ok (bump s collection).

Definition truncate (s : t) (collection : string) : res t :=
  let s := match BTreeMap.get (collections s) collection with
           | Some c => with_collections s (BTreeMap.insert (collections s) collection [])
           | None => s
           end in
  Ok (bump s collection).

Definition load_catalog (s : t) : res (option Value) := Ok (catalog s).
Definition save_catalog (s : t) (doc : Value) : res t := Ok (mk (collections s) (Some doc) (generations s)).

Definition generation (s : t) (collection : string) : option N :=
  Some (default 0%N (BTreeMap.get (generations s) collection)).

#[global] Instance relational : RelationalStorage t := {
  scan := scan;
  storage_get := get;
  storage_put := put;
  storage_delete := delete;
  storage_truncate := truncate;
  load_catalog_doc := load_catalog;
  save_catalog_doc := save_catalog;
  generation := generation
}.

Definition ok (s : t) : Prop := forall c l, BTreeMap.get (collections s) c = Some l -> BTreeMap.sorted l.
Definition documents (s : t) (c : string) : list (string * Value) := default [] (BTreeMap.get (collections s) c).

Lemma documents_sorted s c : ok s -> BTreeMap.sorted (documents s c).
Proof.
  intros Hok. unfold documents. destruct (BTreeMap.get (collections s) c) as [l|] eqn:E; [by eapply Hok|constructor].
Qed.

Lemma bump_advances s s' c : generations s' = generations s -> advances s (bump s' c) c.
Proof.
  intros Hg. unfold advances. cbn [RelStorage.generation relational]. unfold generation, bump. cbn [generations].
  rewrite Hg. split; [|split; [done|]].
  - intros g [= <-]. eexists. split; [done|]. rewrite BTreeMap.get_insert, decide_True by done. simpl. lia.
  - intros c' Hne. by rewrite BTreeMap.get_insert, decide_False.
Qed.

(** One collection replaced. *)
Lemma replace_collection s c l :
  ok s -> BTreeMap.sorted l ->
  let s' := bump (with_collections s (BTreeMap.insert (collections s) c l)) c in
  ok s' /\ documents s' c = l /\ (forall c', c' <> c -> documents s' c' = documents s c') /\
  catalog s' = catalog s /\ advances s s' c.
Proof.
  intros Hok Hl s'. split; [|split; [|split; [|split]]].
  - intros c' l'. cbn [s' bump with_collections collections]. rewrite BTreeMap.get_insert.
    case_decide; [by intros [= <-]|apply Hok].
  - unfold documents. cbn [s' bump with_collections collections]. by rewrite BTreeMap.get_insert, decide_True.
  - intros c' Hne. unfold documents. cbn [s' bump with_collections collections].
    by rewrite BTreeMap.get_insert, decide_False.
  - done.
  - by apply bump_advances.
Qed.

(** A change of a collection that is not there. *)
Lemma missing_collection s c :
  ok s -> BTreeMap.get (collections s) c = None ->
  let s' := bump s c in
  ok s' /\ documents s' c = [] /\ (forall c', c' <> c -> documents s' c' = documents s c') /\
  catalog s' = catalog s /\ advances s s' c.
Proof.
  intros Hok Hc s'. split; [exact Hok|]. split; [unfold documents; cbn; by rewrite Hc|]. split; [done|].
  split; [done|]. by apply bump_advances.
Qed.

#[global] Program Instance contract : StorageContract t := {
  storage_ok := ok;
  docs := documents;
  catalog_doc := catalog
}.
Next Obligation. intros. by apply documents_sorted. Qed.
Next Obligation. intros s c l _ [= <-]. done. Qed.
Next Obligation. intros s c r d _ [= <-]. unfold documents. by destruct (BTreeMap.get (collections s) c). Qed.
Next Obligation.
  intros s c r d s' Hok [= <-]. apply (replace_collection s c); [done|].
  apply BTreeMap.insert_sorted. exact (documents_sorted s c Hok).
Qed.
Next Obligation.
  intros s c r s' Hok. cbn [storage_delete relational]. unfold delete.
  pose proof (documents_sorted s c Hok) as Hs.
  destruct (BTreeMap.get (collections s) c) as [l|] eqn:E; intros [= <-]; cbn [default].
  - unfold documents in Hs. rewrite E in Hs.
    destruct (replace_collection s c (BTreeMap.remove l r)) as (H1 & H2 & H3 & H4 & H5); [done|by apply BTreeMap.map_filter_sorted|].
    split_and!; try done. rewrite H2. unfold documents. by rewrite E.
  - destruct (missing_collection s c) as (H1 & H2 & H3 & H4 & H5); [done|done|].
    split_and!; try done. rewrite H2. unfold documents. by rewrite E.
Qed.
Next Obligation.
  intros s c s' Hok. cbn [storage_truncate relational]. unfold truncate.
  destruct (BTreeMap.get (collections s) c) as [l|] eqn:E; intros [= <-].
  - apply replace_collection; [done|constructor].
  - by apply missing_collection.
Qed.
Next Obligation. intros s j _ [= <-]. done. Qed.
Next Obligation. intros s j s' Hok [= <-]. done. Qed.
End MemoryStorage.
