(* ===== verification/SqlExec.v ===== *)
(** * Statement execution

    [sql/exec.rs], [sql/rls.rs] and the helpers of [sql/dml.rs] that statements
    share: the execution context, constraint modes, row security, and the checks
    and coercions of a row.  Expressions are those of the SQL parser; the class
    [Evaluator] has the evaluator of expressions and the interpreter of trigger
    functions, about which nothing is assumed. *)

From S2P Require Import Prelude BTree Json Utf8 RustString RustFloat SqlTypes Fts SqlValue OrdMap Lock SqlCatalog TableStore.

(** The syntax of expressions, and the parser. *)
Class SqlSyntax := {
  Expr : Type;
  (* [parser::parse_expr]; an error with its text *)
  parse_expr : string -> result (RelError * string) Expr;
  (* the first projected expression of [SELECT text] *)
  parse_select : string -> res (option Expr)
}.

Section exec.
Context `{!Foreign, !SqlSyntax}.
Local Open Scope string_scope.

(** ** The context *)

Record ConstraintModes := mk_modes {
  all_deferred : option bool;
  named : gmap (QualifiedName * string) bool
}.

(** Whether a constraint is checked at commit. *)
Definition is_deferred (cm : ConstraintModes) (table : QualifiedName) (fk : ForeignKey) : bool :=
  if negb (is_deferrable (fk_deferrable fk)) then false
  else match named cm !! (table, fk_name fk) with
       | Some v => v
       | None => default (initially_deferred (fk_deferrable fk)) (all_deferred cm)
       end.

Inductive DeferredFkCheck :=
| DeferredChild (child : QualifiedName) (fk : ForeignKey) (key : string) (key_vals : list SqlValue)
| DeferredReferenced (parent child : QualifiedName) (fk : ForeignKey) (key : string) (key_vals : list SqlValue)
| DeferredNullMix (child : QualifiedName) (fk : ForeignKey) (row_key : string).

Definition identity (c : DeferredFkCheck) : QualifiedName * string :=
  match c with
  | DeferredChild child fk _ _ | DeferredReferenced _ child fk _ _ | DeferredNullMix child fk _ =>
      (child, fk_name fk)
  end.

Record CompiledPolicy := mk_compiled {
  compiled_cmd : PolicyCmd;
  compiled_permissive : bool;
  compiled_using : option Expr;
  compiled_check : option Expr
}.

Record RlsContext := mk_rls {
  rls_policies : gmap QualifiedName (list CompiledPolicy);
  rls_select_rows : gmap QualifiedName (list string);
  rls_dml_rows : gmap QualifiedName (list string)
}.

(** ** Rows of a query *)

Record FieldRef := mk_field { field_table : option string; field_name : string; field_ty : SqlType }.
Record Frame := mk_frame { frame_schema : list FieldRef; frame_row : list SqlValue }.
Record RowSet := mk_row_set { set_schema : list FieldRef; set_rows : list (list SqlValue) }.

Inductive TriggerOp := OpInsert | OpUpdate | OpDelete | OpTruncate.

(** The firing of a constraint trigger that waits for the end of the transaction. *)
Record DeferredTriggerFiring := mk_firing {
  firing_trigger : TriggerDef;
  firing_table : Table;
  firing_op : TriggerOp;
  firing_old : option RowValues;
  firing_new : option RowValues
}.

(** The fields that statements on tables use; [cte] has the named row sets that
    are in scope. *)
Record Exec := mk_exec {
  catalog : Catalog;
  loaded : gmap QualifiedName LoadedTable;
  mutations : list Mutation;
  catalog_dirty : bool;
  cte : gmap string RowSet;
  username : string;
  pending_locks : list (LockObject * LockMode * LockScope);
  rls : RlsContext;
  constraint_modes : option ConstraintModes;
  deferred_checks : list DeferredFkCheck;
  deferred_triggers : list DeferredTriggerFiring
}.

Definition with_catalog (x : Exec) (c : Catalog) (dirty : bool) : Exec :=
  mk_exec c (loaded x) (mutations x) dirty (cte x) (username x) (pending_locks x) (rls x)
    (constraint_modes x) (deferred_checks x) (deferred_triggers x).
Definition with_loaded (x : Exec) (l : gmap QualifiedName LoadedTable) : Exec :=
  mk_exec (catalog x) l (mutations x) (catalog_dirty x) (cte x) (username x) (pending_locks x) (rls x)
    (constraint_modes x) (deferred_checks x) (deferred_triggers x).
Definition with_cte (x : Exec) (c : gmap string RowSet) : Exec :=
  mk_exec (catalog x) (loaded x) (mutations x) (catalog_dirty x) c (username x) (pending_locks x) (rls x)
    (constraint_modes x) (deferred_checks x) (deferred_triggers x).
Definition push_mutation (x : Exec) (m : Mutation) : Exec :=
  mk_exec (catalog x) (loaded x) (mutations x ++ [m])%list (catalog_dirty x) (cte x) (username x)
    (pending_locks x) (rls x) (constraint_modes x) (deferred_checks x) (deferred_triggers x).
Definition record_pending (x : Exec) (o : LockObject) (m : LockMode) (s : LockScope) : Exec :=
  mk_exec (catalog x) (loaded x) (mutations x) (catalog_dirty x) (cte x) (username x)
    (pending_locks x ++ [(o, m, s)])%list (rls x) (constraint_modes x) (deferred_checks x)
    (deferred_triggers x).
Definition with_rls (x : Exec) (r : RlsContext) : Exec :=
  mk_exec (catalog x) (loaded x) (mutations x) (catalog_dirty x) (cte x) (username x) (pending_locks x) r
    (constraint_modes x) (deferred_checks x) (deferred_triggers x).
Definition with_modes (x : Exec) (m : option ConstraintModes) : Exec :=
  mk_exec (catalog x) (loaded x) (mutations x) (catalog_dirty x) (cte x) (username x) (pending_locks x) (rls x)
    m (deferred_checks x) (deferred_triggers x).
Definition push_deferred (x : Exec) (c : DeferredFkCheck) : Exec :=
  mk_exec (catalog x) (loaded x) (mutations x) (catalog_dirty x) (cte x) (username x) (pending_locks x)
    (rls x) (constraint_modes x) (deferred_checks x ++ [c])%list (deferred_triggers x).
Definition push_firing (x : Exec) (f : DeferredTriggerFiring) : Exec :=
  mk_exec (catalog x) (loaded x) (mutations x) (catalog_dirty x) (cte x) (username x) (pending_locks x)
    (rls x) (constraint_modes x) (deferred_checks x) (deferred_triggers x ++ [f])%list.

(** ** Frames *)

(** The schema of a table's columns under an alias. *)
Definition schema_of (t : Table) (alias : string) : list FieldRef :=
  (fun c => mk_field (Some alias) (column_name c) (column_ty c)) <$> table_columns t.
Definition row_tuple (t : Table) (values : RowValues) : list SqlValue :=
  (fun c => row_value values (column_name c)) <$> table_columns t.
Definition row_frame (t : Table) (alias : string) (values : RowValues) : Frame :=
  mk_frame (schema_of t alias) (row_tuple t values).

(** What a trigger function is called with. *)
Record TriggerInvocation := mk_invocation {
  inv_name : string;
  inv_table : Table;
  inv_op : TriggerOp;
  inv_timing : TriggerTiming;
  inv_level : TriggerLevel;
  inv_old : option RowValues;
  inv_new : option RowValues
}.

(** Evaluation of expressions, and the interpreter of trigger functions. *)
Class Evaluator := {
  eval : Exec -> Expr -> list Frame -> res SqlValue;
  call_trigger_function : Exec -> FunctionDef -> TriggerInvocation -> res (Exec * option RowValues)
}.

Context `{!Evaluator}.

(** ** Checks of a row *)

Definition eval_default (x : Exec) (default_sql : string) : res SqlValue :=
  let? e := parse_select default_sql in
  match e with Some e => eval x e [] | None => Ok VNull end.

(** CHECK passes unless it evaluates to FALSE. *)
Fixpoint run_checks (x : Exec) (t : Table) (values : RowValues) (checks : list CheckConstraint) : res unit :=
  match checks with
  | [] => Ok tt
  | check :: checks =>
      let? e := parse_select (check_expr check) in
      match e with
      | Some e =>
          let? v := eval x e [row_frame t (table_name t) values] in
          if decide (truthy v = Some false) then raise (CheckViolation (table_name t) (check_name check))
          else run_checks x t values checks
      | None => run_checks x t values checks
      end
  end.
Definition check_constraints (x : Exec) (t : Table) (values : RowValues) : res unit :=
  run_checks x t values (table_checks t).

Fixpoint check_not_null (t : Table) (values : RowValues) (cols : list Column) : res unit :=
  match cols with
  | [] => Ok tt
  | col :: cols =>
      if negb (column_nullable col) && value_is_null (row_value values (column_name col))
      then raise (NotNullViolation (column_name col) (table_name t))
      else check_not_null t values cols
  end.

Definition check_row_constraints (x : Exec) (t : Table) (values : RowValues) : res unit :=
  let? _ := check_not_null t values (table_columns t) in
  check_constraints x t values.

Definition check_unique_for (x : Exec) (q : QualifiedName) (values : RowValues) (exclude : option string) :
    res unit :=
  match loaded x !! q with
  | Some l => check_unique l values exclude
  | None => Ok tt
  end.

(** An error of the cast becomes a type mismatch; a panic stays one. *)
Definition coerce_to (value : SqlValue) (ty : SqlType) (column : string) : res SqlValue :=
  if value_is_null value then Ok VNull
  else match cast ty value with
       | Ok v => Ok v
       | Err (Raise _) => raise (DatatypeMismatch column (name ty) (name (type_of value)))
       | Err Panic => Err Panic
       end.

Definition coerce_to_col (value : SqlValue) (t : Table) (col : string) : res SqlValue :=
  let? c := column t col in
  let? c := ok_or c (UndefinedColumn col) in
  coerce_to value (column_ty c) col.

(** ** Row security *)

Definition BYPASS_ROLES : list string := ["service_role"].
Definition OWNER_ROLES : list string := ["postgres"; "guardian"].

Definition role_bypasses_rls (role : string) : bool :=
  bool_decide (role ∈ BYPASS_ROLES) || bool_decide (role ∈ OWNER_ROLES).
Definition role_bypasses_rls_on (role : string) (t : Table) : bool :=
  bool_decide (role ∈ BYPASS_ROLES) || (bool_decide (role ∈ OWNER_ROLES) && negb (table_rls_forced t)).

Inductive Phase := PhaseUsing | PhaseCheck.

(** WITH CHECK falls back to USING. *)
Definition expr_for (p : CompiledPolicy) (phase : Phase) : option Expr :=
  match phase with
  | PhaseUsing => compiled_using p
  | PhaseCheck => match compiled_check p with Some e => Some e | None => compiled_using p end
  end.

Definition parse_stored (text : option string) (policy : string) : res (option Expr) :=
  match text with
  | None => Ok None
  | Some t =>
      match parse_expr t with
      | Ok e => Ok (Some e)
      | Err e => raise (Internal ("stored expression of policy " ++ dquote ++ policy ++ dquote
                                  ++ " failed to parse: " ++ e.2))
      end
  end.

Definition applies_to_role (p : Policy) (role : string) : bool :=
  bool_decide (policy_roles p = []) || bool_decide (role ∈ policy_roles p).

Definition compile_policies (t : Table) (role : string) : res (list CompiledPolicy) :=
  traverse (fun p =>
    let? u := parse_stored (policy_using p) (policy_name p) in
    let? k := parse_stored (policy_check p) (policy_name p) in
    Ok (mk_compiled (policy_cmd p) (policy_permissive p) u k))
    (filter (fun p => applies_to_role p role = true) (table_policies t)).

#[global] Instance policy_cmd_eq_dec : EqDecision PolicyCmd.
Proof. solve_decision. Defined.

Definition covers (p : CompiledPolicy) (cmd : PolicyCmd) : bool :=
  bool_decide (compiled_cmd p = PolicyAll) || bool_decide (compiled_cmd p = cmd).

(** Permissive policies are ORed, restrictive ones ANDed; once a permissive
    policy has passed, the others are not evaluated. *)
Fixpoint policies_pass (x : Exec) (policies : list CompiledPolicy) (cmd : PolicyCmd) (phase : Phase)
    (frame : Frame) (permissive_ok : bool) : res bool :=
  match policies with
  | [] => Ok permissive_ok
  | p :: policies =>
      if covers p cmd then
        match expr_for p phase with
        | None => policies_pass x policies cmd phase frame permissive_ok
        | Some e =>
            let? pass :=
              if compiled_permissive p && permissive_ok then Ok true
              else let? v := eval x e [frame] in Ok (bool_decide (truthy v = Some true)) in
            if compiled_permissive p then policies_pass x policies cmd phase frame (permissive_ok || pass)
            else if pass then policies_pass x policies cmd phase frame permissive_ok
            else Ok false
        end
      else policies_pass x policies cmd phase frame permissive_ok
  end.

Definition rls_row_passes (x : Exec) (q : QualifiedName) (cmd : PolicyCmd) (phase : Phase) (frame : Frame) :
    res bool :=
  match rls_policies (rls x) !! q with
  | None => Ok true
  | Some policies => policies_pass x policies cmd phase frame false
  end.

Definition rls_check_new_row (x : Exec) (q : QualifiedName) (t : Table) (values : RowValues)
    (cmd : PolicyCmd) : res unit :=
  match rls_policies (rls x) !! q with
  | None => Ok tt
  | Some _ =>
      let? ok := rls_row_passes x q cmd PhaseCheck (row_frame t (table_name t) values) in
      if ok then Ok tt
      else raise (InsufficientPrivilege
        ("new row violates row-level security policy for table " ++ dquote ++ table_name t ++ dquote))
  end.

Definition rls_old_row_visible (x : Exec) (q : QualifiedName) (t : Table) (values : RowValues)
    (cmd : PolicyCmd) : res bool :=
  match rls_policies (rls x) !! q with
  | None => Ok true
  | Some _ => rls_row_passes x q cmd PhaseUsing (row_frame t (table_name t) values)
  end.

Definition rls_dml_hidden (x : Exec) (q : QualifiedName) : option (list string) :=
  match rls_dml_rows (rls x) !! q with
  | Some h => if decide (h = []) then None else Some h
  | None => None
  end.
Definition rls_select_hidden (x : Exec) (q : QualifiedName) : option (list string) :=
  match rls_select_rows (rls x) !! q with
  | Some h => if decide (h = []) then None else Some h
  | None => None
  end.

Definition enforced (x : Exec) : list QualifiedName :=
  sort_by qualified_compare (fst <$> filter (fun ql =>
    table_rls_enabled (meta ql.2) && negb (role_bypasses_rls_on (username x) (meta ql.2)) = true)
    (map_to_list (loaded x))).

Definition compile_table (x : Exec) (q : QualifiedName) : res Exec :=
  match loaded x !! q with
  | Some l =>
      let? ps := compile_policies (meta l) (username x) in
      Ok (with_rls x (mk_rls (<[q := ps]> (rls_policies (rls x))) (rls_select_rows (rls x))
                        (rls_dml_rows (rls x))))
  | None => Err Panic
  end.

(** The rows that the role may not see, and those that the command may not change. *)
Fixpoint hide_rows (x : Exec) (q : QualifiedName) (t : Table) (cmd : option PolicyCmd)
    (rs : list (string * RowValues)) (select_hidden dml_hidden : list string) :
    res (list string * list string) :=
  match rs with
  | [] => Ok (select_hidden, dml_hidden)
  | (rid, values) :: rs =>
      let frame := row_frame t (table_name t) values in
      let? ok := rls_row_passes x q PolicySelect PhaseUsing frame in
      let select_hidden := if ok then select_hidden else BTreeSet.insert select_hidden rid in
      let? dml_hidden :=
        match cmd with
        | Some cmd =>
            let? ok := rls_row_passes x q cmd PhaseUsing frame in
            Ok (if ok then dml_hidden else BTreeSet.insert dml_hidden rid)
        | None => Ok dml_hidden
        end in
      hide_rows x q t cmd rs select_hidden dml_hidden
  end.

Definition hide_table (target : option (QualifiedName * PolicyCmd)) (x : Exec) (q : QualifiedName) :
    res Exec :=
  match loaded x !! q with
  | Some l =>
      let cmd := match target with
                 | Some (tq, cmd) => if decide (tq = q) then Some cmd else None
                 | None => None
                 end in
      let? hs := hide_rows x q (meta l) cmd (rows l) [] [] in
      let dml := match cmd with
                 | Some _ => <[q := hs.2]> (rls_dml_rows (rls x))
                 | None => rls_dml_rows (rls x)
                 end in
      Ok (with_rls x (mk_rls (rls_policies (rls x)) (<[q := hs.1]> (rls_select_rows (rls x))) dml))
  | None => Err Panic
  end.

(** [target]: the table that an UPDATE or DELETE statement names, and its command. *)
Definition init_rls (x : Exec) (target : option (QualifiedName * PolicyCmd)) : res Exec :=
  if bool_decide (username x ∈ BYPASS_ROLES) then Ok x
  else
    let keys := enforced x in
    let? x := try_fold compile_table x keys in
    try_fold (hide_table target) x keys.
End exec.
