(* ===== verification/SqlTrigger.v ===== *)
(** * Triggers

    [sql/trigger.rs]: which triggers of a table fire, in which order, what they
    see and what their results do.  The interpreter of the functions is a
    parameter. *)

From S2P Require Import Prelude BTree Json Utf8 RustString RustFloat SqlTypes Fts SqlValue OrdMap Lock SqlCatalog TableStore SqlExec.

Section triggers.
Context `{!Foreign, !SqlSyntax, !Evaluator}.
Local Open Scope string_scope.

#[global] Instance trigger_timing_eq_dec : EqDecision TriggerTiming.
Proof. solve_decision. Defined.
#[global] Instance trigger_level_eq_dec : EqDecision TriggerLevel.
Proof. solve_decision. Defined.
#[global] Instance trigger_op_eq_dec : EqDecision TriggerOp.
Proof. solve_decision. Defined.

Definition build_rowset_for_table (t : Table) (alias : string) (rs : list RowValues) : RowSet :=
  mk_row_set (schema_of t alias) (row_tuple t <$> rs).

Definition event_matches (op : TriggerOp) (set_cols : option (list string)) (e : TriggerEventDef) : bool :=
  match e, op with
  | EventInsert, OpInsert | EventDelete, OpDelete | EventTruncate, OpTruncate => true
  | EventUpdate columns, OpUpdate =>
      bool_decide (columns = []) ||
      match set_cols with
      | Some s => existsb (fun c => bool_decide (c ∈ s)) columns
      | None => false
      end
  | _, _ => false
  end.

(** In the order of their names; triggers of one name keep their order. *)
Definition triggers_for (t : Table) (timing : TriggerTiming) (level : TriggerLevel) (op : TriggerOp)
    (set_cols : option (list string)) : list TriggerDef :=
  sort_by (fun a b => String.compare (trigger_name a) (trigger_name b))
    (filter (fun trg => existsb (event_matches op set_cols) (trigger_events trg) = true)
      (filter (fun trg => trigger_enabled trg = true /\ trigger_timing trg = timing /\ trigger_level trg = level)
        (table_triggers t))).

Definition coerce_trigger_row (t : Table) (row : RowValues) : res RowValues :=
  try_fold (fun out cv =>
    let? v := coerce_to_col cv.2 t cv.1 in Ok (BTreeMap.insert out cv.1 v)) [] row.

Definition resolve_trigger_function (x : Exec) (trg : TriggerDef) : res FunctionDef :=
  ok_or (find_function (catalog x) (Some (trigger_function_schema trg)) (trigger_function_name trg) 0)
    (UndefinedFunction (trigger_function_name trg ++ "()")).

(** The condition sees the rows as [old] and [new]. *)
Definition trigger_when_passes (x : Exec) (trg : TriggerDef) (t : Table) (old new : option RowValues) : res bool :=
  match trigger_when trg with
  | None => Ok true
  | Some text =>
      match parse_expr text with
      | Err e => raise e.1
      | Ok e =>
          let frames := (match old with Some r => [row_frame t "old" r] | None => [] end ++
                         match new with Some r => [row_frame t "new" r] | None => [] end)%list in
          let? v := eval x e frames in Ok (bool_decide (truthy v = Some true))
      end
  end.

(** ** Row triggers *)

(** The row goes through the triggers; [None] suppresses it. *)
Fixpoint before_row (t : Table) (op : TriggerOp) (old : option RowValues) (triggers : list TriggerDef)
    (x : Exec) (new : option RowValues) : res (Exec * option RowValues) :=
  match triggers with
  | [] => Ok (x, match op with
                 | OpDelete => old
                 | OpInsert | OpUpdate => new
                 | OpTruncate => None
                 end)
  | trg :: triggers =>
      let? pass := trigger_when_passes x trg t old new in
      if negb pass then before_row t op old triggers x new
      else
        let? def := resolve_trigger_function x trg in
        let? xr := call_trigger_function x def
          (mk_invocation (trigger_name trg) t op TimingBefore LevelRow old
             (if decide (op = OpDelete) then None else new)) in
        match op, xr.2 with
        | OpTruncate, _ | OpDelete, Some _ => before_row t op old triggers xr.1 new
        | _, None => Ok (xr.1, None)
        | _, Some row =>
            let? row := coerce_trigger_row t row in before_row t op old triggers xr.1 (Some row)
        end
  end.

Definition fire_before_row (x : Exec) (t : Table) (op : TriggerOp) (old new : option RowValues)
    (set_cols : option (list string)) : res (Exec * option RowValues) :=
  before_row t op old (triggers_for t TimingBefore LevelRow op set_cols) x new.

(** Whether a constraint trigger now waits for the end of the transaction. *)
Definition trigger_deferred (x : Exec) (t : Table) (trg : TriggerDef) : bool :=
  trigger_is_constraint trg && trigger_deferrable trg &&
  match constraint_modes x with
  | Some modes =>
      match named modes !! (table_qualified t, trigger_name trg) with
      | Some v => v
      | None => default (trigger_initially_deferred trg) (all_deferred modes)
      end
  | None => false
  end.

Definition after_row (t : Table) (op : TriggerOp) (old new : option RowValues) (x : Exec) (trg : TriggerDef) :
    res Exec :=
  let? pass := trigger_when_passes x trg t old new in
  if negb pass then Ok x
  else if trigger_deferred x t trg then Ok (push_firing x (mk_firing trg t op old new))
  else
    let? def := resolve_trigger_function x trg in
    let? xr := call_trigger_function x def
      (mk_invocation (trigger_name trg) t op TimingAfter LevelRow old new) in
    Ok xr.1.

Definition fire_after_row (x : Exec) (t : Table) (op : TriggerOp) (old new : option RowValues)
    (set_cols : option (list string)) : res Exec :=
  try_fold (after_row t op old new) x (triggers_for t TimingAfter LevelRow op set_cols).

(** ** Statement triggers *)

(** The rows of the statement are in scope under the names that the trigger
    gives them, while it runs. *)
Definition statement_trigger (t : Table) (timing : TriggerTiming) (op : TriggerOp) (new_rows old_rows : list RowValues)
    (x : Exec) (trg : TriggerDef) : res Exec :=
  let bind (x : Exec) (alias : option string) rs :=
    match alias with
    | Some a => with_cte x (<[a := build_rowset_for_table t a rs]> (cte x))
    | None => x
    end in
  let unbind (x : Exec) (alias : option string) :=
    match alias with Some a => with_cte x (delete a (cte x)) | None => x end in
  let x := bind (bind x (trigger_referencing_new trg) new_rows) (trigger_referencing_old trg) old_rows in
  let? def := resolve_trigger_function x trg in
  let? xr := call_trigger_function x def (mk_invocation (trigger_name trg) t op timing LevelStatement None None) in
  Ok (unbind (unbind xr.1 (trigger_referencing_new trg)) (trigger_referencing_old trg)).

Definition fire_statement_triggers_ex (x : Exec) (t : Table) (timing : TriggerTiming) (op : TriggerOp)
    (set_cols : option (list string)) (new_rows old_rows : list RowValues) : res Exec :=
  try_fold (statement_trigger t timing op new_rows old_rows) x (triggers_for t timing LevelStatement op set_cols).

Definition fire_statement_triggers (x : Exec) (t : Table) (timing : TriggerTiming) (op : TriggerOp)
    (set_cols : option (list string)) : res Exec :=
  fire_statement_triggers_ex x t timing op set_cols [] [].

(** ** Views *)

(** A table with the columns of a view, for its triggers. *)
Definition synthetic_table_for_view (v : View) : Table :=
  rebuild_column_map
    (mk_table (view_oid v) (view_schema v) (view_name v)
       (imap (fun i c => mk_column c TText true None None i) (view_columns v))
       None [] [] [] ("view:" ++ view_schema v ++ "." ++ view_name v) false false [] [] ∅).

Fixpoint instead_of_row (t : Table) (op : TriggerOp) (old : option RowValues) (triggers : list TriggerDef)
    (x : Exec) (new : option RowValues) : res (Exec * option RowValues) :=
  match triggers with
  | [] => Ok (x, if decide (op = OpDelete) then old else new)
  | trg :: triggers =>
      let? def := resolve_trigger_function x trg in
      let? xr := call_trigger_function x def
        (mk_invocation (trigger_name trg) t op TimingInsteadOf LevelRow old new) in
      match op, xr.2 with
      | OpTruncate, _ | OpDelete, Some _ => instead_of_row t op old triggers xr.1 new
      | _, None => Ok (xr.1, None)
      | _, Some row => instead_of_row t op old triggers xr.1 (Some row)
      end
  end.

Definition fire_instead_of_row (x : Exec) (view_q : QualifiedName) (op : TriggerOp) (old new : option RowValues)
    (set_cols : option (list string)) : res (Exec * option RowValues) :=
  match get_view (catalog x) view_q with
  | None => Ok (x, new)
  | Some v =>
      instead_of_row (synthetic_table_for_view v) op old
        (sort_by (fun a b => String.compare (trigger_name a) (trigger_name b))
          (filter (fun trg => trigger_enabled trg = true /\ trigger_timing trg = TimingInsteadOf /\
             trigger_level trg = LevelRow /\ existsb (event_matches op set_cols) (trigger_events trg) = true)
             (view_triggers v))) x new
  end.

(** ** The end of the transaction *)

Definition fire_one_deferred (x : Exec) (f : DeferredTriggerFiring) : res Exec :=
  let? def := resolve_trigger_function x (firing_trigger f) in
  let? xr := call_trigger_function x def
    (mk_invocation (trigger_name (firing_trigger f)) (firing_table f) (firing_op f) TimingAfter LevelRow
       (firing_old f) (firing_new f)) in
  Ok xr.1.

Definition fire_deferred (x : Exec) (firings : list DeferredTriggerFiring) : res Exec :=
  try_fold fire_one_deferred x firings.
End triggers.
