(* ===== verification/ForeignKeys.v ===== *)
(** * Foreign keys

    [sql/fk.rs], and [write_update] of [sql/dml.rs]: the check of a child row, the
    referential actions that follow a removed or rewritten parent row, and the
    checks postponed to the end of the transaction. *)

From S2P Require Import Prelude BTree Json Utf8 RustString RustFloat SqlTypes Fts SqlValue OrdMap Lock SqlCatalog TableStore SqlExec SqlTrigger.

Section foreign_keys.
Context `{!Foreign, !SqlSyntax, !Evaluator}.
Local Open Scope string_scope.

Definition MAX_RI_STEPS : N := 1000000.
Definition MAX_CASCADE_DEPTH : N := 25.

(** A row that the statement removed or rewrote. *)
Inductive RiWork :=
| WorkDeleted (table : QualifiedName) (row : RowValues) (cascade_depth : N)
| WorkUpdated (table : QualifiedName) (old new : RowValues).

(** A check at the end of the statement. *)
Record PendingCheck := mk_pending {
  pending_parent : QualifiedName;
  pending_child : QualifiedName;
  pending_fk : ForeignKey;
  pending_key : string;
  pending_key_vals : list SqlValue
}.

(** The child's key columns, and the parent's referenced columns. *)
Definition fk_values (fk : ForeignKey) (row : RowValues) : list SqlValue := row_value row <$> fk_columns fk.
Definition ref_values (fk : ForeignKey) (row : RowValues) : list SqlValue := row_value row <$> fk_ref_columns fk.

Definition display_vals (vals : list SqlValue) : string :=
  join ", " ((fun v => default "null" (to_text v)) <$> vals).

(** ** The tables that a statement may touch *)

Definition name_set_insert (s : list QualifiedName) (q : QualifiedName) : list QualifiedName :=
  fst <$> OrdMap.insert ((fun q => (q, tt)) <$> s) q tt.

(** Children in the order of a queue; [fuel] bounds the number of tables. *)
Fixpoint ripple_children (c : Catalog) (root : QualifiedName) (queue written : list QualifiedName)
    (fuel : nat) : list QualifiedName :=
  match queue, fuel with
  | [], _ | _, 0 => written
  | q :: queue, S fuel =>
      let '(queue, written) := foldl (fun st cf =>
        let '(queue, written) := st in
        if bool_decide (cf.1 <> root) && bool_decide (cf.1 ∉ written)
        then ((queue ++ [cf.1])%list, name_set_insert written cf.1) else (queue, written))
        (queue, written) (referencing_foreign_keys c q) in
      ripple_children c root queue written fuel
  end.

Definition fk_ripple (c : Catalog) (root : QualifiedName) (include_children : bool) :
    list QualifiedName * list QualifiedName :=
  let written := if include_children
                 then ripple_children c root [root] [] (S (length (tables c))) else [] in
  let read := foldl (fun read q =>
    match get_table c q with
    | Some t => foldl (fun read fk =>
        match resolve_table_name c (Some (fk_ref_schema fk)) (fk_ref_table fk) with
        | Some p => name_set_insert read p
        | None => read
        end) read (table_foreign_keys t)
    | None => read
    end) [] (root :: written) in
  (written, read).

(** ** Lookups *)

Definition fk_is_deferred (x : Exec) (table_q : QualifiedName) (fk : ForeignKey) : bool :=
  match constraint_modes x with Some cm => is_deferred cm table_q fk | None => false end.

Definition fk_parent (x : Exec) (fk : ForeignKey) : res QualifiedName :=
  ok_or (resolve_table_name (catalog x) (Some (fk_ref_schema fk)) (fk_ref_table fk))
    (UndefinedTable (fk_ref_schema fk ++ "." ++ fk_ref_table fk)).

Definition fk_loaded (x : Exec) (q : QualifiedName) : res LoadedTable :=
  ok_or (loaded x !! q)
    (Internal ("foreign-key table " ++ to_string_qualified q ++ " was not preloaded")).

(** The first index on exactly these columns. *)
Definition index_over (l : list LoadedIndex) (cols : list string) : option LoadedIndex :=
  snd <$> list_find (fun li => index_columns (lindex_meta li) = cols) l.

Definition parent_has_key (l : LoadedTable) (fk : ForeignKey) (key : string) : bool :=
  match index_over (lindexes l) (fk_ref_columns fk) with
  | Some li => bool_decide (index_get (lindex_data li) key <> [])
  | None => existsb (fun kv => bool_decide (composite_key (ref_values fk kv.2) = Some key)) (rows l)
  end.

Definition fk_parent_has_key (x : Exec) (parent_q : QualifiedName) (fk : ForeignKey) (key : string) : res bool :=
  let? l := fk_loaded x parent_q in Ok (parent_has_key l fk key).

Definition matching_children (l : LoadedTable) (fk : ForeignKey) (key : string) : list (string * RowValues) :=
  match index_over (lindexes l) (fk_columns fk) with
  | Some li => omap (fun rid => (fun r => (rid, r)) <$> BTreeMap.get (rows l) rid)
                 (index_get (lindex_data li) key)
  | None => filter (fun kv => composite_key (fk_values fk kv.2) = Some key) (rows l)
  end.

Definition fk_matching_children (x : Exec) (child_q : QualifiedName) (fk : ForeignKey) (key : string) :
    res (list (string * RowValues)) :=
  let? l := fk_loaded x child_q in Ok (matching_children l fk key).

Definition fk_child_row_shape_exists (x : Exec) (child_q : QualifiedName) (fk : ForeignKey) (row_key : string) :
    res bool :=
  let? l := fk_loaded x child_q in
  Ok (existsb (fun kv => bool_decide (ordered_key (fk_values fk kv.2) = row_key)) (rows l)).

(** ** The child side *)

Definition null_mix_detail : string := "MATCH FULL does not allow mixing of null and nonnull key values.".

Definition not_present_detail (fk : ForeignKey) (vals : list SqlValue) : string :=
  "Key (" ++ join ", " (fk_columns fk) ++ ")=(" ++ display_vals vals ++ ") is not present in table "
  ++ dquote ++ fk_ref_table fk ++ dquote ++ ".".

Definition null_count (vals : list SqlValue) : nat := length (filter (fun v => value_is_null v = true) vals).

(** Every key column has a value: a parent row must have the key. *)
Definition fk_check_key (x : Exec) (t : Table) (fk : ForeignKey) (vals : list SqlValue) : res Exec :=
  match composite_key vals with
  | None => Err Panic
  | Some key =>
      let? parent_q := fk_parent x fk in
      let? found := fk_parent_has_key x parent_q fk key in
      if (found : bool) then Ok x
      else if fk_is_deferred x (table_qualified t) fk
      then Ok (push_deferred x (DeferredChild (table_qualified t) fk key vals))
      else raise (ForeignKeyViolation (table_name t) (fk_name fk) (not_present_detail fk vals))
  end.

Definition fk_check_one (x : Exec) (t : Table) (fk : ForeignKey) (row : RowValues) : res Exec :=
  let vals := fk_values fk row in
  let nulls := null_count vals in
  match fk_match_type fk with
  | MatchSimple => if decide (0 < nulls)%nat then Ok x else fk_check_key x t fk vals
  | MatchFull =>
      if decide (nulls = length vals) then Ok x
      else if decide (0 < nulls)%nat then
        if fk_is_deferred x (table_qualified t) fk
        then Ok (push_deferred x (DeferredNullMix (table_qualified t) fk (ordered_key vals)))
        else raise (ForeignKeyViolation (table_name t) (fk_name fk) null_mix_detail)
      else fk_check_key x t fk vals
  end.

(** On an update, keys that did not change are not checked again. *)
Definition fk_check_child (x : Exec) (t : Table) (new : RowValues) (old : option RowValues) : res Exec :=
  try_fold (fun x fk =>
    match old with
    | Some old =>
        if decide (ordered_key (fk_values fk old) = ordered_key (fk_values fk new)) then Ok x
        else fk_check_one x t fk new
    | None => fk_check_one x t fk new
    end) x (table_foreign_keys t).

(** ** Writing rows *)

(** A changed primary key moves the row to its new id. *)
Definition write_update (x : Exec) (q : QualifiedName) (collection : string) (t : Table) (row_id : string)
    (new_values : RowValues) : res Exec :=
  let new_id := default row_id (derive_row_id t new_values) in
  match loaded x !! q with
  | None => Err Panic
  | Some l =>
      if decide (new_id <> row_id) then
        let l := apply_delete l row_id in
        let x := push_mutation x (Delete collection row_id) in
        let version := version_of l new_id in
        let l := apply_insert l new_id new_values in
        let doc := encode_row t new_id new_values version in
        Ok (push_mutation (with_loaded x (<[q := l]> (loaded x))) (Put collection new_id doc))
      else
        let l := apply_update l row_id new_values in
        let version := version_of l row_id in
        let doc := encode_row t row_id new_values version in
        Ok (push_mutation (with_loaded x (<[q := l]> (loaded x))) (Put collection row_id doc))
  end.

Definition ri_delete_child (x : Exec) (child_q : QualifiedName) (rid : string) : res Exec :=
  let? l := fk_loaded x child_q in
  let x := record_pending x (Lock.Row (table_oid (meta l)) rid) ForUpdate Transaction in
  let x := with_loaded x (<[child_q := apply_delete l rid]> (loaded x)) in
  Ok (push_mutation x (Delete (table_storage_collection (meta l)) rid)).

(** The values of all columns, as one key. *)
Definition row_key (t : Table) (row : RowValues) : string := ordered_key (row_tuple t row).

(** A row rewritten by an action: checked like an update, and nothing is done
    when nothing changed. *)
Definition ri_update_child (x : Exec) (child_q : QualifiedName) (rid : string) (old new : RowValues)
    (queue : list RiWork) : res (Exec * list RiWork) :=
  let? l := fk_loaded x child_q in
  let t := meta l in
  if decide (row_key t old = row_key t new) then Ok (x, queue)
  else
    let? _ := check_not_null t new (table_columns t) in
    let? _ := check_constraints x t new in
    let? _ := check_unique_for x child_q new (Some rid) in
    let? x := fk_check_child x t new (Some old) in
    let x := record_pending x (Lock.Row (table_oid t) rid) ForUpdate Transaction in
    let? x := write_update x child_q (table_storage_collection t) t rid new in
    Ok (x, (queue ++ [WorkUpdated child_q old new])%list).

(** The row with its key columns set to their defaults. *)
Definition ri_defaults_for (x : Exec) (child_q : QualifiedName) (fk : ForeignKey) (row : RowValues) :
    res (Exec * RowValues) :=
  let? l := fk_loaded x child_q in
  let t := meta l in
  try_fold (fun st cname =>
    let '(x, new) := st in
    let? col := column t cname in
    let? col := ok_or col (UndefinedColumn cname) in
    let? xv :=
      match column_identity_sequence col with
      | Some seq =>
          let? nc := next_sequence_value (catalog x) (table_schema t) seq in
          let? v := coerce_to_col (VInt8 nc.1) t cname in
          Ok (with_catalog x nc.2 true, v)
      | None =>
          match column_default col with
          | Some def =>
              let? v := eval_default x def in
              if value_is_null v then Ok (x, VNull)
              else let? v := coerce_to_col v t cname in Ok (x, v)
          | None => Ok (x, VNull)
          end
      end in
    Ok (xv.1, BTreeMap.insert new cname xv.2)) (x, row) (fk_columns fk).

(** ** The parent side *)

(** The state of the loop over the work: the context, the queue and the checks
    left for the end. *)
Abbreviation RiState := (Exec * list RiWork * list PendingCheck)%type.

Definition ri_queue_or_check (st : RiState) (parent_q child_q : QualifiedName) (fk : ForeignKey)
    (key : string) (key_vals : list SqlValue) : RiState :=
  let '(x, queue, checks) := st in
  if fk_is_deferred x child_q fk
  then (push_deferred x (DeferredReferenced parent_q child_q fk key key_vals), queue, checks)
  else (x, queue, (checks ++ [mk_pending parent_q child_q fk key key_vals])%list).

Definition set_columns (row : RowValues) (cvs : list (string * SqlValue)) : RowValues :=
  foldl (fun row cv => BTreeMap.insert row cv.1 cv.2) row cvs.

(** Each matching child rewritten. *)
Definition ri_rewrite_children (st : RiState) (child_q : QualifiedName) (fk : ForeignKey) (key : string)
    (rewrite : Exec -> RowValues -> res (Exec * RowValues)) : res RiState :=
  let '(x, queue, checks) := st in
  let? children := fk_matching_children x child_q fk key in
  let? xq := try_fold (fun xq child =>
    let? xn := rewrite xq.1 child.2 in
    ri_update_child xn.1 child_q child.1 child.2 xn.2 xq.2) (x, queue) children in
  Ok (xq, checks).

Definition to_nulls (fk : ForeignKey) (x : Exec) (row : RowValues) : res (Exec * RowValues) :=
  Ok (x, set_columns row ((fun c => (c, VNull)) <$> fk_columns fk)).

(** The new key, coerced to the types of the child's columns. *)
Definition to_new_key (child_meta : Table) (fk : ForeignKey) (new_vals : list SqlValue) (x : Exec)
    (row : RowValues) : res (Exec * RowValues) :=
  let? row := try_fold (fun row ic =>
    let v := default VNull (new_vals !! ic.1) in
    let? v := if value_is_null v then Ok VNull else coerce_to_col v child_meta ic.2 in
    Ok (BTreeMap.insert row ic.2 v)) row (imap pair (fk_columns fk)) in
  Ok (x, row).

(** A matching child deleted, with its row triggers. *)
Definition ri_cascade_delete (child_q : QualifiedName) (child_table : option Table) (depth : N)
    (xq : Exec * list RiWork) (child : string * RowValues) : res (Exec * list RiWork) :=
  let '(x, queue) := xq in
  let trg := match child_table with
             | Some t => if existsb trigger_enabled (table_triggers t) then Some t else None
             | None => None
             end in
  let? xr := match trg with
             | Some t => fire_before_row x t OpDelete (Some child.2) None None
             | None => Ok (x, Some child.2)
             end in
  match xr.2 with
  | None => Ok (xr.1, queue)
  | Some _ =>
      let? x := ri_delete_child xr.1 child_q child.1 in
      let queue := (queue ++ [WorkDeleted child_q child.2 ((depth + 1) mod 2 ^ 32)%N])%list in
      match trg with
      | Some t => let? x := fire_after_row x t OpDelete (Some child.2) None None in Ok (x, queue)
      | None => Ok (x, queue)
      end
  end.

Definition ri_delete_action (parent_q : QualifiedName) (row : RowValues) (depth : N) (st : RiState)
    (cf : QualifiedName * ForeignKey) : res RiState :=
  let '(child_q, fk) := cf in
  let key_vals := ref_values fk row in
  match composite_key key_vals with
  | None => Ok st
  | Some key =>
      match fk_on_delete fk with
      | NoAction => Ok (ri_queue_or_check st parent_q child_q fk key key_vals)
      | Restrict =>
          let '(x, queue, checks) := st in
          Ok (x, queue, (checks ++ [mk_pending parent_q child_q fk key key_vals])%list)
      | Cascade =>
          let '(x, queue, checks) := st in
          let child_table := get_table (catalog x) child_q in
          let? children := fk_matching_children x child_q fk key in
          let? xq := try_fold (ri_cascade_delete child_q child_table depth) (x, queue) children in
          Ok (xq, checks)
      | SetNull => ri_rewrite_children st child_q fk key (to_nulls fk)
      | SetDefault =>
          let? st := ri_rewrite_children st child_q fk key (fun x r => ri_defaults_for x child_q fk r) in
          Ok (ri_queue_or_check st parent_q child_q fk key key_vals)
      end
  end.

Definition ri_on_delete (st : RiState) (parent_q : QualifiedName) (row : RowValues) (depth : N) : res RiState :=
  try_fold (ri_delete_action parent_q row depth) st (referencing_foreign_keys (catalog st.1.1) parent_q).

Definition ri_update_action (parent_q : QualifiedName) (old new : RowValues) (st : RiState)
    (cf : QualifiedName * ForeignKey) : res RiState :=
  let '(child_q, fk) := cf in
  let old_vals := ref_values fk old in
  match composite_key old_vals with
  | None => Ok st
  | Some key =>
      let new_vals := ref_values fk new in
      if decide (ordered_key old_vals = ordered_key new_vals) then Ok st
      else
        match fk_on_update fk with
        | NoAction => Ok (ri_queue_or_check st parent_q child_q fk key old_vals)
        | Restrict =>
            let '(x, queue, checks) := st in
            Ok (x, queue, (checks ++ [mk_pending parent_q child_q fk key old_vals])%list)
        | Cascade =>
            let? l := fk_loaded st.1.1 child_q in
            ri_rewrite_children st child_q fk key (to_new_key (meta l) fk new_vals)
        | SetNull => ri_rewrite_children st child_q fk key (to_nulls fk)
        | SetDefault =>
            let? st := ri_rewrite_children st child_q fk key (fun x r => ri_defaults_for x child_q fk r) in
            Ok (ri_queue_or_check st parent_q child_q fk key old_vals)
        end
  end.

Definition ri_on_update (st : RiState) (parent_q : QualifiedName) (old new : RowValues) : res RiState :=
  try_fold (ri_update_action parent_q old new) st (referencing_foreign_keys (catalog st.1.1) parent_q).

Definition ri_referenced_error (parent_q child_q : QualifiedName) (fk : ForeignKey) (key_vals : list SqlValue) :
    RelError :=
  ForeignKeyViolationReferenced (q_name parent_q) (fk_name fk) (q_name child_q)
    ("Key (" ++ join ", " (fk_ref_columns fk) ++ ")=(" ++ display_vals key_vals
     ++ ") is still referenced from table " ++ dquote ++ q_name child_q ++ dquote ++ ".").

Definition ri_step (st : RiState) (item : RiWork) : res RiState :=
  match item with
  | WorkDeleted table row depth =>
      if (MAX_CASCADE_DEPTH <? depth)%N
      then raise (StatementTooComplex
        "FK CASCADE DELETE depth limit exceeded — too many levels of cascades (max 25)")
      else ri_on_delete st table row depth
  | WorkUpdated table old new => ri_on_update st table old new
  end.

(** The work, breadth first; [steps] are left. *)
Fixpoint ri_loop (steps : nat) (st : RiState) : res (Exec * list PendingCheck) :=
  match st with
  | (x, [], checks) => Ok (x, checks)
  | (x, item :: queue, checks) =>
      match steps with
      | 0 => raise (Internal "foreign-key referential actions did not terminate")
      | S steps => let? st := ri_step (x, queue, checks) item in ri_loop steps st
      end
  end.

(** Satisfied if a parent row has the key or no child row refers to it. *)
Definition run_pending_check (x : Exec) (c : PendingCheck) : res unit :=
  let? found := fk_parent_has_key x (pending_parent c) (pending_fk c) (pending_key c) in
  if (found : bool) then Ok tt
  else
    let? children := fk_matching_children x (pending_child c) (pending_fk c) (pending_key c) in
    match children with
    | [] => Ok tt
    | _ => raise (ri_referenced_error (pending_parent c) (pending_child c) (pending_fk c) (pending_key_vals c))
    end.

Definition fk_apply_referential_actions (x : Exec) (work : list RiWork) : res Exec :=
  let? xc := ri_loop (N.to_nat MAX_RI_STEPS) (x, work, []) in
  let? _ := traverse (run_pending_check xc.1) xc.2 in
  Ok xc.1.

(** ** The end of the transaction *)

Definition table_name_of (x : Exec) (q : QualifiedName) : string :=
  match get_table (catalog x) q with Some t => table_name t | None => q_name q end.

Definition run_deferred_check (x : Exec) (c : DeferredFkCheck) : res unit :=
  match c with
  | DeferredChild child fk key key_vals =>
      let? parent_q := fk_parent x fk in
      let? found := fk_parent_has_key x parent_q fk key in
      if (found : bool) then Ok tt
      else
        let? children := fk_matching_children x child fk key in
        match children with
        | [] => Ok tt
        | _ => raise (ForeignKeyViolation (table_name_of x child) (fk_name fk) (not_present_detail fk key_vals))
        end
  | DeferredReferenced parent child fk key key_vals =>
      run_pending_check x (mk_pending parent child fk key key_vals)
  | DeferredNullMix child fk row_key =>
      let? found := fk_child_row_shape_exists x child fk row_key in
      if (found : bool) then raise (ForeignKeyViolation (table_name_of x child) (fk_name fk) null_mix_detail)
      else Ok tt
  end.

Definition fk_drain_deferred (x : Exec) (checks : list DeferredFkCheck) : res unit :=
  let? _ := traverse (run_deferred_check x) checks in Ok tt.
End foreign_keys.
