(* ===== verification/Dml.v ===== *)
(** * INSERT, UPDATE and DELETE

    [sql/dml.rs], for a statement on a table: building rows, conflicts, the write
    loops and what follows them.  The statement comes with its expressions, a
    query in an INSERT as the function that runs it; [uuids] are the new UUIDs. *)

From S2P Require Import Prelude BTree Json Utf8 RustString RustFloat SqlTypes Fts SqlValue OrdMap Lock SqlCatalog TableStore SqlExec SqlTrigger ForeignKeys.

Section dml.
Context `{!Foreign, !SqlSyntax, !Evaluator}.
Local Open Scope string_scope.

Definition Assignments : Type := list (string * Expr).

Inductive OnConflictAction :=
| DoNothing
| DoUpdate (assignments : Assignments) (selection : option Expr).

Record OnConflict := mk_on_conflict {
  conflict_target : option (list string);
  conflict_action : OnConflictAction
}.

Definition has_triggers (t : Table) : bool := bool_decide (table_triggers t <> []).

(** ** Building rows *)

Definition build_column (t : Table) (provided : RowValues) (st : Exec * RowValues) (col : Column) :
    res (Exec * RowValues) :=
  let '(x, values) := st in
  let coerce v := coerce_to v (column_ty col) (column_name col) in
  let? xv :=
    match BTreeMap.get provided (column_name col) with
    | Some p => if value_is_null p then Ok (x, VNull) else let? v := coerce p in Ok (x, v)
    | None =>
        match column_identity_sequence col with
        | Some seq =>
            let? nc := next_sequence_value (catalog x) (table_schema t) seq in
            let? v := coerce (VInt8 nc.1) in
            Ok (with_catalog x nc.2 true, v)
        | None =>
            match column_default col with
            | Some def =>
                let? v := eval_default x def in
                if value_is_null v then Ok (x, VNull) else let? v := coerce v in Ok (x, v)
            | None => Ok (x, VNull)
            end
        end
    end in
  Ok (xv.1, BTreeMap.insert values (column_name col) xv.2).

(** Provided values, then the sequence, then the default. *)
Definition build_row (x : Exec) (t : Table) (provided : RowValues) : res (Exec * RowValues) :=
  try_fold (build_column t provided) (x, []) (table_columns t).

Definition observe_serials (x : Exec) (t : Table) (values : RowValues) : Exec :=
  foldl (fun x col =>
    match column_identity_sequence col, BTreeMap.get values (column_name col) ≫= value_as_i64 with
    | Some seq, Some v =>
        with_catalog x (observe_sequence_value (catalog x) (table_schema t) seq v) (catalog_dirty x)
    | _, _ => x
    end) x (table_columns t).

Definition on_target (target : option (list string)) (m : Index) : bool :=
  match target with Some t => bool_decide (index_columns m = t) | None => true end.

(** A row that conflicts on the target, or on any unique index. *)
Fixpoint conflict_in (l : list LoadedIndex) (values : RowValues) (target : option (list string)) :
    option string :=
  match l with
  | [] => None
  | li :: l =>
      let m := lindex_meta li in
      let key_vals := index_values m values in
      if negb (index_unique m) || negb (on_target target m)
         || bool_decide (composite_key key_vals = None)
      then conflict_in l values target
      else match head (index_get (lindex_data li) (ordered_key key_vals)) with
           | Some rid => Some rid
           | None => conflict_in l values target
           end
  end.

Definition find_conflict (x : Exec) (q : QualifiedName) (values : RowValues) (target : option (list string)) :
    option string :=
  loaded x !! q ≫= fun l => conflict_in (lindexes l) values target.

(** ** INSERT *)

Definition row_of (x : Exec) (q : QualifiedName) (rid : string) : option RowValues :=
  loaded x !! q ≫= fun l => BTreeMap.get (rows l) rid.

(** The assignments of DO UPDATE, evaluated on the existing and the proposed
    row; [None] when the condition is not true. *)
Definition apply_conflict_update (x : Exec) (t : Table) (existing_id : string) (excluded : RowValues)
    (assignments : Assignments) (selection : option Expr) : res (option RowValues) :=
  let? existing := ok_or (row_of x (table_qualified t) existing_id) (Internal "conflict row vanished") in
  let frames := [row_frame t (table_name t) existing; row_frame t "excluded" excluded] in
  let? selected :=
    match selection with
    | Some sel => let? v := eval x sel frames in Ok (bool_decide (truthy v = Some true))
    | None => Ok true
    end in
  if (selected : bool) then
    let? new_values := try_fold (fun row a =>
      let? v := eval x a.2 frames in
      let? v := coerce_to_col v t a.1 in
      Ok (BTreeMap.insert row a.1 v)) existing assignments in
    let? _ := check_constraints x t new_values in
    Ok (Some new_values)
  else Ok None.

Inductive AfterRowEvent := AfterInsert (new : RowValues) | AfterUpdate (old new : RowValues).

(** The state of the insert loop: the context, the rows written and the events
    of the AFTER ROW triggers. *)
Abbreviation InsertState := (Exec * list RowValues * list AfterRowEvent)%type.

(** The conflicting row rewritten by DO UPDATE. *)
Definition insert_update (q : QualifiedName) (t : Table) (referenced : bool) (set_cols : option (list string)) (st : InsertState)
    (existing_id : string) (values : RowValues) (assignments : Assignments) (selection : option Expr) :
    res InsertState :=
  let '(x, inserted, events) := st in
  let existing := default [] (row_of x q existing_id) in
  let? visible := rls_old_row_visible x q t existing PolicyUpdate in
  if negb visible then
    raise (InsufficientPrivilege
      ("new row violates row-level security policy (USING expression) for table " ++ dquote
       ++ table_name t ++ dquote))
  else
    let? new_vals := apply_conflict_update x t existing_id values assignments selection in
    match new_vals with
    | None => Ok st
    | Some new_vals =>
        let? xn := if has_triggers t
                   then fire_before_row x t OpUpdate (Some existing) (Some new_vals) set_cols
                   else Ok (x, Some new_vals) in
        match xn.2 with
        | None => Ok (xn.1, inserted, events)
        | Some new_vals =>
            let x := xn.1 in
            let? _ := if has_triggers t then check_row_constraints x t new_vals else Ok tt in
            let? _ := rls_check_new_row x q t new_vals PolicyUpdate in
            let? x := fk_check_child x t new_vals (Some existing) in
            let? x := write_update x q (table_storage_collection t) t existing_id new_vals in
            let? x := if referenced
                      then fk_apply_referential_actions x [WorkUpdated q existing new_vals]
                      else Ok x in
            Ok (x, (inserted ++ [new_vals])%list,
                if has_triggers t then (events ++ [AfterUpdate existing new_vals])%list else events)
        end
    end.

(** A new row: uniqueness, foreign keys, then the write. *)
Definition insert_fresh (q : QualifiedName) (t : Table) (st : InsertState) (row_id : string) (values : RowValues) :
    res InsertState :=
  let '(x, inserted, events) := st in
  let? _ := check_unique_for x q values None in
  let? x := fk_check_child x t values None in
  let x := observe_serials x t values in
  match loaded x !! q with
  | None => Err Panic
  | Some l =>
      let version := version_of l row_id in
      let x := with_loaded x (<[q := apply_insert l row_id values]> (loaded x)) in
      let x := push_mutation x (Put (table_storage_collection t) row_id (encode_row t row_id values version)) in
      Ok (x, (inserted ++ [values])%list,
          if has_triggers t then (events ++ [AfterInsert values])%list else events)
  end.

Definition insert_one (q : QualifiedName) (t : Table) (referenced : bool) (on : option OnConflict)
    (set_cols : option (list string)) (st : InsertState) (row : string * RowValues) : res InsertState :=
  let '(row_id, values) := row in
  let x := st.1.1 in
  let? _ := rls_check_new_row x q t values PolicyInsert in
  match find_conflict x q values (on ≫= conflict_target), conflict_action <$> on with
  | Some _, Some DoNothing => Ok st
  | Some existing_id, Some (DoUpdate assignments selection) =>
      insert_update q t referenced set_cols st existing_id values assignments selection
  | Some _, None =>
      let? _ := check_unique_for x q values None in insert_fresh q t st row_id values
  | None, _ => insert_fresh q t st row_id values
  end.

(** The rows with their defaults, BEFORE ROW triggers and row checks, and their ids. *)
Definition prepare_row (t : Table) (st : Exec * list (string * RowValues)) (row : RowValues * string) :
    res (Exec * list (string * RowValues)) :=
  let '(x, prepared) := st in
  let '(provided, uuid) := row in
  let? xv := build_row x t provided in
  let? xv := if has_triggers t then fire_before_row xv.1 t OpInsert None (Some xv.2) None
             else Ok (xv.1, Some xv.2) in
  match xv.2 with
  | None => Ok (xv.1, prepared)
  | Some values =>
      let? _ := check_row_constraints xv.1 t values in
      Ok (xv.1, (prepared ++ [(default uuid (derive_row_id t values), values)])%list)
  end.

Definition fire_after_event (t : Table) (set_cols : option (list string)) (x : Exec) (e : AfterRowEvent) : res Exec :=
  match e with
  | AfterInsert new => fire_after_row x t OpInsert None (Some new) None
  | AfterUpdate old new => fire_after_row x t OpUpdate (Some old) (Some new) set_cols
  end.

Definition assigned (assignments : Assignments) : list string := BTreeSet.from assignments.*1.

(** The columns that DO UPDATE sets, for a table with triggers. *)
Definition conflict_set_cols (t : Table) (on : option OnConflict) : option (list string) :=
  match conflict_action <$> on with
  | Some (DoUpdate assignments _) => if has_triggers t then Some (assigned assignments) else None
  | _ => None
  end.

Definition is_do_update (on : option OnConflict) : bool :=
  match conflict_action <$> on with Some (DoUpdate _ _) => true | _ => false end.

Inductive InsertSource :=
| DefaultValues
| Values (rows : list (list (option Expr)))
| Query (select : Exec -> res (list (list SqlValue))).

Definition insert_columns (t : Table) (columns : list string) : list string :=
  if bool_decide (columns = []) then column_name <$> table_columns t else columns.

Definition wrong_width {A} (cols : list string) (row : list A) : RelError :=
  Syntax ("INSERT has " ++ pretty (length cols) ++ " target columns but " ++ pretty (length row) ++ " values").

(** A cell [None] is the keyword DEFAULT, which leaves the column absent. *)
Definition values_row (x : Exec) (cols : list string) (row : list (option Expr)) : res RowValues :=
  if bool_decide (length row <> length cols) then raise (wrong_width cols row)
  else try_fold (fun m ce =>
    match ce.2 with
    | None => Ok m
    | Some e => let? v := eval x e [] in Ok (BTreeMap.insert m ce.1 v)
    end) [] (zip cols row).

Definition query_row (cols : list string) (row : list SqlValue) : res RowValues :=
  if bool_decide (length row <> length cols) then raise (wrong_width cols row)
  else Ok (BTreeMap.of_list (zip cols row)).

Definition provided_rows (x : Exec) (cols : list string) (source : InsertSource) : res (list RowValues) :=
  match source with
  | DefaultValues => Ok [[]]
  | Values rows => traverse (values_row x cols) rows
  | Query select => let? rs := select x in traverse (query_row cols) rs
  end.

Definition exec_insert (x : Exec) (q : QualifiedName) (columns : list string) (source : InsertSource)
    (uuids : nat -> string) (on : option OnConflict) : res (Exec * list RowValues) :=
  let? t := require_table (catalog x) q in
  let set_cols := conflict_set_cols t on in
  let? x := if has_triggers t then fire_statement_triggers x t TimingBefore OpInsert None else Ok x in
  let? x := if has_triggers t && is_do_update on
            then fire_statement_triggers x t TimingBefore OpUpdate set_cols else Ok x in
  let? provided := provided_rows x (insert_columns t columns) source in
  let? xp := try_fold (prepare_row t) (x, []) (imap (fun i row => (row, uuids i)) provided) in
  let referenced := bool_decide (referencing_foreign_keys (catalog xp.1) q <> []) in
  let? st := try_fold (insert_one q t referenced on set_cols) (xp.1, [], []) xp.2 in
  let '(x, inserted, events) := st in
  if has_triggers t then
    let? x := try_fold (fire_after_event t set_cols) x events in
    let? x := if is_do_update on then fire_statement_triggers x t TimingAfter OpUpdate set_cols else Ok x in
    let? x := fire_statement_triggers_ex x t TimingAfter OpInsert None inserted [] in
    Ok (x, inserted)
  else Ok (x, inserted).

(** ** UPDATE *)

(** The rows that row security does not hide. *)
Definition snapshot (x : Exec) (q : QualifiedName) : list (string * RowValues) :=
  match loaded x !! q with
  | Some l =>
      match rls_dml_hidden x q with
      | Some h => filter (fun kv => kv.1 ∉ h) (rows l)
      | None => rows l
      end
  | None => []
  end.

Definition row_matches (x : Exec) (t : Table) (alias : string) (selection : option Expr) (values : RowValues) :
    res bool :=
  match selection with
  | Some sel => let? v := eval x sel [row_frame t alias values] in Ok (bool_decide (truthy v = Some true))
  | None => Ok true
  end.

Definition assign (x : Exec) (t : Table) (alias : string) (assignments : Assignments) (values : RowValues) :
    res RowValues :=
  try_fold (fun row a =>
    let? v := eval x a.2 [row_frame t alias values] in
    let? v := coerce_to_col v t a.1 in
    Ok (BTreeMap.insert row a.1 v)) values assignments.

Abbreviation UpdateTarget := (string * RowValues * RowValues)%type.

Definition update_target (q : QualifiedName) (t : Table) (alias : string) (assignments : Assignments)
    (selection : option Expr) (set_cols : option (list string)) (st : Exec * list UpdateTarget)
    (row : string * RowValues) : res (Exec * list UpdateTarget) :=
  let '(x, targets) := st in
  let '(rid, values) := row in
  let? matched := row_matches x t alias selection values in
  if negb matched then Ok st
  else
    let? new_values := assign x t alias assignments values in
    let? xn := if has_triggers t
               then fire_before_row x t OpUpdate (Some values) (Some new_values) set_cols
               else Ok (x, Some new_values) in
    match xn.2 with
    | None => Ok (xn.1, targets)
    | Some new_values =>
        let? _ := check_row_constraints xn.1 t new_values in
        let? _ := rls_check_new_row xn.1 q t new_values PolicyUpdate in
        Ok (xn.1, (targets ++ [(rid, values, new_values)])%list)
    end.

(** One row written; a referenced table leaves work for the referential actions. *)
Definition update_one (q : QualifiedName) (t : Table) (referenced : bool) (st : Exec * list RiWork)
    (target : UpdateTarget) : res (Exec * list RiWork) :=
  let '(x, work) := st in
  let '(rid, old_values, new_values) := target in
  let x := record_pending x (Lock.Row (table_oid t) rid) ForUpdate Transaction in
  let? _ := check_unique_for x q new_values (Some rid) in
  let? x := fk_check_child x t new_values (Some old_values) in
  let x := observe_serials x t new_values in
  let? x := write_update x q (table_storage_collection t) t rid new_values in
  Ok (x, if referenced then (work ++ [WorkUpdated q old_values new_values])%list else work).

Definition exec_update (x : Exec) (q : QualifiedName) (alias : string) (assignments : Assignments)
    (selection : option Expr) : res (Exec * list RowValues) :=
  let? t := require_table (catalog x) q in
  let set_cols := if has_triggers t then Some (assigned assignments) else None in
  let? x := if has_triggers t then fire_statement_triggers x t TimingBefore OpUpdate set_cols else Ok x in
  let? xt := try_fold (update_target q t alias assignments selection set_cols) (x, []) (snapshot x q) in
  let '(x, targets) := xt in
  let referenced := bool_decide (referencing_foreign_keys (catalog x) q <> []) in
  let? xw := try_fold (update_one q t referenced) (x, []) targets in
  let? x := fk_apply_referential_actions xw.1 xw.2 in
  let updated := snd <$> targets in
  if has_triggers t then
    let? x := try_fold (fun x ut => fire_after_row x t OpUpdate (Some ut.1.2) (Some ut.2) set_cols) x targets in
    let? x := fire_statement_triggers x t TimingAfter OpUpdate set_cols in
    Ok (x, updated)
  else Ok (x, updated).

(** ** DELETE *)

Definition delete_target (t : Table) (alias : string) (selection : option Expr)
    (st : Exec * list (string * RowValues)) (row : string * RowValues) : res (Exec * list (string * RowValues)) :=
  let '(x, targets) := st in
  let? matched := row_matches x t alias selection row.2 in
  if negb matched then Ok st
  else
    let? xr := if has_triggers t then fire_before_row x t OpDelete (Some row.2) None None
               else Ok (x, Some row.2) in
    Ok (xr.1, match xr.2 with Some _ => (targets ++ [row])%list | None => targets end).

Definition delete_one (q : QualifiedName) (t : Table) (x : Exec) (row : string * RowValues) : res Exec :=
  match loaded x !! q with
  | None => Err Panic
  | Some l =>
      let x := with_loaded x (<[q := apply_delete l row.1]> (loaded x)) in
      Ok (push_mutation x (Delete (table_storage_collection t) row.1))
  end.

Definition exec_delete (x : Exec) (q : QualifiedName) (alias : string) (selection : option Expr) :
    res (Exec * list RowValues) :=
  let? t := require_table (catalog x) q in
  let? x := if has_triggers t then fire_statement_triggers x t TimingBefore OpDelete None else Ok x in
  let? xt := try_fold (delete_target t alias selection) (x, []) (snapshot x q) in
  let '(x, targets) := xt in
  let x := foldl (fun x row => record_pending x (Lock.Row (table_oid t) row.1) ForUpdate Transaction) x targets in
  match loaded x !! q with
  | None => Err Panic
  | Some _ =>
      let? x := try_fold (delete_one q t) x targets in
      let deleted := snd <$> targets in
      let? x := if bool_decide (referencing_foreign_keys (catalog x) q <> [])
                then fk_apply_referential_actions x ((fun row => WorkDeleted q row 1) <$> deleted)
                else Ok x in
      if has_triggers t then
        let? x := try_fold (fun x row => fire_after_row x t OpDelete (Some row) None None) x deleted in
        let? x := fire_statement_triggers x t TimingAfter OpDelete None in
        Ok (x, deleted)
      else Ok (x, deleted)
  end.
End dml.
