(* ===== verification/ForeignKeysInv.v ===== *)
(** * Foreign keys: theory

    Referential integrity of the loaded tables, up to the checks and the work
    that are still to be done ([integrity]), and that the checks, the writes and
    the referential actions keep it. *)

From S2P Require Import Prelude BTree Json Utf8 RustString RustFloat FloatExact SqlTypes Fts FtsInv SqlValue SqlTyping SqlConvert OrdMap Lock SqlCatalog TableStore TableStoreInv SqlExec SqlTrigger ForeignKeys.

(** The texts of numbers and UUIDs have no separator. *)
Class ForeignKeyText `{!Foreign} := {
  decimal_plain : forall d, plain (decimal_text d);
  uuid_plain : forall u, plain (uuid_text u)
}.

(** The checks that earlier statements of the transaction deferred. *)
Class Earlier `{!Foreign} := earlier : list DeferredFkCheck.

Section keys.
Context `{!Foreign, !ForeignText, !ForeignKeyText, !SqlSyntax, !Evaluator, !Earlier}.

(** ** Key values *)

(** The values of a column of a key, by its type. *)
Definition key_typed (ty : SqlType) (v : SqlValue) : Prop :=
  match ty with
  | TSmallInt | TInteger | TBigInt => v = VNull \/ exists n, v = int_value ty n /\ in_int_range ty n
  | TUuid => v = VNull \/ exists u, v = VUuid u
  | TText => v = VNull \/ exists s, v = VText s
  | _ => True
  end.

Definition plain_type (ty : SqlType) : bool :=
  match ty with TSmallInt | TInteger | TBigInt | TUuid => true | _ => false end.

Lemma plain_app s t : plain s -> plain t -> plain (s ++ t).
Proof.
  induction s as [|a s IH]; [done|]. intros [Ha Hs]%plain_cons Ht. change (String.String a s ++ t)%string with (String.String a (s ++ t)).
  apply plain_cons. auto.
Qed.

Lemma key_typed_plain ty v : plain_type ty = true -> key_typed ty v -> plain (ordered_part v).
Proof.
  assert (Hnull : plain (ordered_part VNull)) by (apply (bool_decide_eq_true_1 _); vm_compute; reflexivity).
  assert (Hint : forall n, plain ("n:" ++ decimal_text (decimal_normalize (decimal_of_int n)))).
  { intros n. apply plain_app; [|apply decimal_plain].
    apply (bool_decide_eq_true_1 _). vm_compute. reflexivity. }
  assert (Hu : forall u, plain ("u:" ++ uuid_text u)).
  { intros u. apply plain_app; [|apply uuid_plain]. apply (bool_decide_eq_true_1 _). vm_compute. reflexivity. }
  destruct ty; try done; intros _ [->|Hx]; try done;
    first [destruct Hx as (n & -> & _); apply Hint | destruct Hx as (u & ->); apply Hu].
Qed.

Lemma coerce_key v ty c w : coerce_to v ty c = Ok w -> key_typed ty w.
Proof.
  unfold coerce_to. destruct (value_is_null v) eqn:En; [intros [= <-]; destruct ty; by try left|].
  destruct (cast ty v) as [u|[e|]] eqn:Ec; [|done..]. intros [= ->].
  assert (Hi : is_integer ty = true -> cast ty v = cast_int v ty -> key_typed ty w).
  { intros Hi Hc. pose proof (cast_int_sound v ty Hi) as Hs. rewrite <- Hc, Ec in Hs.
    destruct Hs as [Hv Hs]. destruct ty; try done; destruct w; try done;
      first [by left | right; eexists; by split]. }
  destruct ty; try done; simpl in Ec; rewrite En in Ec; try by apply Hi; [|simpl; rewrite En].
  - injection Ec as <-. right. by eexists.
  - destruct v; try discriminate Ec; [|injection Ec as <-; right; by eexists].
    simpl in Ec. destruct (uuid_parse_str _); [|done]. injection Ec as <-. right. by eexists.
Qed.

(** Key lists that can be told apart by their keys. *)
Definition separable (vs ws : list SqlValue) : Prop :=
  length vs = length ws /\ (length vs = 1 \/ plain_values vs /\ plain_values ws).

Lemma separable_parts vs ws :
  separable vs ws -> ordered_key vs = ordered_key ws -> ordered_part <$> vs = ordered_part <$> ws.
Proof.
  intros [Hlen [Hone|[Hv Hw]]] Heq; [|by apply ordered_key_inj].
  destruct vs as [|v [|]], ws as [|w [|]]; try done. unfold ordered_key in Heq. csimpl in Heq. csimpl. by rewrite Heq.
Qed.

Lemma separable_composite vs ws k :
  separable vs ws -> composite_key vs = Some k -> ordered_key ws = k -> composite_key ws = Some k.
Proof.
  intros Hs Hk Ho. rewrite <- Hk. symmetry. apply parts_composite, separable_parts; [done|].
  by rewrite Ho, (composite_ordered vs k).
Qed.

Lemma append_inj_r (x y z : string) : (x ++ z = y ++ z)%string -> x = y.
Proof.
  assert (Hlen : forall s t, String.length (s ++ t) = String.length s + String.length t).
  { intros s t. induction s as [|a s IH]; [done|].
    change (String.String a s ++ t)%string with (String.String a (s ++ t)). simpl. by rewrite IH. }
  revert y. induction x as [|a x IH]; intros [|b y] Heq; [done|..].
  - apply (f_equal String.length) in Heq. rewrite !Hlen in Heq. simpl in Heq. lia.
  - apply (f_equal String.length) in Heq. rewrite !Hlen in Heq. simpl in Heq. lia.
  - injection Heq as -> Heq. f_equal. by apply IH.
Qed.

(** Joined texts whose parts are equal or have no separator. *)
Lemma join_mixed xs ys :
  Forall2 (fun x y => x = y \/ plain x /\ plain y) xs ys -> join SEP xs = join SEP ys -> xs = ys.
Proof.
  induction 1 as [|x y xs ys Hxy Hrest IH]; [done|]. intros Heq.
  destruct xs as [|x' xs], ys as [|y' ys]; [simpl in Heq; by subst|by inversion Hrest..|].
  rewrite !join_cons in Heq by done. destruct Hxy as [->|[Hx Hy]].
  - f_equal. apply IH. by apply (inj (String.app _)), (inj (String.app _)) in Heq.
  - apply plain_prefix in Heq as [-> Heq]; [|done..]. f_equal. by apply IH.
Qed.

(** Joined texts that differ in one part. *)
Lemma join_differs_once l x y r : join SEP (l ++ x :: r) = join SEP (l ++ y :: r) -> x = y.
Proof.
  induction l as [|a l IH]; cbn [app].
  - destruct r as [|b r]; [done|]. rewrite (join_cons x), (join_cons y) by done. apply append_inj_r.
  - rewrite (join_cons a (l ++ x :: r)), (join_cons a (l ++ y :: r)) by by destruct l. intros Heq. apply IH.
    by apply (inj (String.app _)), (inj (String.app _)) in Heq.
Qed.

(** ** Schemas *)

Definition fk_target (fk : ForeignKey) : QualifiedName := mk_qualified (fk_ref_schema fk) (fk_ref_table fk).

Definition plain_column (t : Table) (c : string) : Prop :=
  exists col, column t c = Ok (Some col) /\ plain_type (column_ty col) = true.

(** Columns whose values can be told apart by their keys: one column, or columns
    without separators. *)
Definition key_columns (t : Table) (cols : list string) : Prop :=
  length cols = 1 \/ Forall (plain_column t) cols.

(** Casting a parent's key to the child's type keeps the key. *)
Definition same_keys (parent child : SqlType) : bool :=
  match parent, child with
  | (TSmallInt | TInteger), (TSmallInt | TInteger | TBigInt) | TUuid, TUuid | TText, TText => true
  | _, _ => false
  end.

Definition cascades (t parent : Table) (c rc : string) : Prop :=
  exists col pcol, column t c = Ok (Some col) /\ column parent rc = Ok (Some pcol) /\
    same_keys (column_ty pcol) (column_ty col) = true.

Record fk_ok (c : Catalog) (t : Table) (fk : ForeignKey) : Prop := {
  fk_nonempty : fk_columns fk <> [];
  fk_arity : length (fk_columns fk) = length (fk_ref_columns fk);
  fk_distinct : NoDup (fk_columns fk);
  fk_known : forall a, a ∈ fk_columns fk -> a ∈ column_names t;
  fk_keys : key_columns t (fk_columns fk);
  fk_ref_keys : forall pt, get_table c (fk_target fk) = Some pt -> key_columns pt (fk_ref_columns fk);
  fk_cascades : forall pt, get_table c (fk_target fk) = Some pt -> fk_on_update fk = Cascade ->
    Forall2 (cascades t pt) (fk_columns fk) (fk_ref_columns fk)
}.

Record table_def_ok (c : Catalog) (q : QualifiedName) (t : Table) : Prop := {
  def_name : table_qualified t = q;
  def_no_triggers : table_triggers t = [];
  def_distinct : NoDup (column_names t);
  def_columns : forall col, col ∈ table_columns t -> column t (column_name col) = Ok (Some col);
  def_pk : forall k, k ∈ pk_columns t ->
    exists col, col ∈ table_columns t /\ column_name col = k /\ column_nullable col = false;
  def_fks : Forall (fk_ok c t) (table_foreign_keys t)
}.

Record schema_ok (c : Catalog) : Prop := {
  schema_sorted : OrdMap.sorted (tables c);
  schema_tables : forall q t, get_table c q = Some t -> table_def_ok c q t
}.

(** ** Loaded tables *)

Definition typed_row (t : Table) (row : RowValues) : Prop :=
  forall c col, column t c = Ok (Some col) -> key_typed (column_ty col) (row_value row c).

(** With a primary key, a row is stored under its key, and a unique index guards it. *)
Definition ids_ok (l : LoadedTable) : Prop :=
  pk_columns (meta l) <> [] ->
  (exists m, m ∈ lindex_meta <$> lindexes l /\ index_unique m = true /\ index_columns m = pk_columns (meta l)) /\
  forall rid row, BTreeMap.get (rows l) rid = Some row -> derive_row_id (meta l) row = Some rid.

(** No two rows have the same key in a unique index. *)
Definition keys_unique (l : LoadedTable) : Prop :=
  forall m r v r' v', m ∈ lindex_meta <$> lindexes l -> index_unique m = true ->
    BTreeMap.get (rows l) r = Some v -> BTreeMap.get (rows l) r' = Some v' ->
    composite_key (index_values m v) <> None -> composite_key (index_values m v') <> None ->
    ordered_key (index_values m v) = ordered_key (index_values m v') -> r = r'.

(** No row has NULL where the column does not allow it. *)
Definition rows_not_null (l : LoadedTable) : Prop :=
  forall rid row, BTreeMap.get (rows l) rid = Some row -> check_not_null (meta l) row (table_columns (meta l)) = Ok tt.

Record state_ok (c : Catalog) (q : QualifiedName) (l : LoadedTable) : Prop := {
  st_meta : get_table c q = Some (meta l);
  st_table : table_ok l;
  st_typed : forall rid row, BTreeMap.get (rows l) rid = Some row -> typed_row (meta l) row;
  st_ids : ids_ok l;
  st_unique : keys_unique l;
  st_not_null : rows_not_null l
}.

Record db_ok (x : Exec) : Prop := {
  db_schema : schema_ok (catalog x);
  db_tables : forall q l, loaded x !! q = Some l -> state_ok (catalog x) q l
}.

(** ** Integrity *)

(** What a row owes to a foreign key: a parent with a key, or that MATCH FULL
    keys do not mix NULLs and values. *)
Inductive Need := NeedKey (key : string) | NeedNoMix (row_key : string).

Definition fk_need (fk : ForeignKey) (row : RowValues) : option Need :=
  let vals := fk_values fk row in
  match fk_match_type fk with
  | MatchSimple => NeedKey <$> composite_key vals
  | MatchFull =>
      if decide (null_count vals = length vals) then None
      else match composite_key vals with
           | Some k => Some (NeedKey k)
           | None => Some (NeedNoMix (ordered_key vals))
           end
  end.

Definition has_parent (x : Exec) (fk : ForeignKey) (key : string) : Prop :=
  exists l rid row, loaded x !! fk_target fk = Some l /\ BTreeMap.get (rows l) rid = Some row /\
    composite_key (ref_values fk row) = Some key.

Definition satisfied (x : Exec) (fk : ForeignKey) (need : Need) : Prop :=
  match need with NeedKey k => has_parent x fk k | NeedNoMix _ => False end.

(** What is still to be checked: the needs of a row for which nothing is claimed. *)
Definition Cover : Type := QualifiedName -> ForeignKey -> string -> Need -> Prop.

(** Every row of a loaded table has what it owes to the foreign keys between
    loaded tables, unless it is covered. *)
Definition integrity (x : Exec) (C : Cover) : Prop :=
  forall q l fk rid row need,
    loaded x !! q = Some l -> fk ∈ table_foreign_keys (meta l) -> is_Some (loaded x !! fk_target fk) ->
    BTreeMap.get (rows l) rid = Some row -> fk_need fk row = Some need ->
    satisfied x fk need \/ C q fk rid need.

Lemma integrity_mono x C C' :
  integrity x C ->
  (forall q l fk rid row need, loaded x !! q = Some l -> fk ∈ table_foreign_keys (meta l) ->
     BTreeMap.get (rows l) rid = Some row -> fk_need fk row = Some need ->
     C q fk rid need -> satisfied x fk need \/ C' q fk rid need) ->
  integrity x C'.
Proof. intros Hi HC q l fk rid row need Hq Hfk Hp Hr Hn. destruct (Hi q l fk rid row need) as [?|?]; eauto. Qed.

(** ** One row changed *)

(** [l'] is [l] without the row [gone] and with the row [new]. *)
Definition changed (l l' : LoadedTable) (gone : option string) (new : option (string * RowValues)) : Prop :=
  meta l' = meta l /\ forall r, BTreeMap.get (rows l') r =
    match new with
    | Some (rid, v) => if decide (r = rid) then Some v
                       else if decide (Some r = gone) then None else BTreeMap.get (rows l) r
    | None => if decide (Some r = gone) then None else BTreeMap.get (rows l) r
    end.

(** The row that goes takes its keys with it; the new row must have what it owes. *)
Lemma integrity_change x x' q l l' gone new C C' :
  integrity x C -> loaded x !! q = Some l -> loaded x' = <[q := l']> (loaded x) -> changed l l' gone new ->
  (forall q' fk r need, C q' fk r need -> ~ (q' = q /\ Some r = gone) -> C' q' fk r need) ->
  (forall rid v fk need, new = Some (rid, v) -> fk ∈ table_foreign_keys (meta l) ->
     is_Some (loaded x !! fk_target fk) -> fk_need fk v = Some need ->
     satisfied x fk need \/ C' q fk rid need) ->
  (forall rid old q' ql fk r k, gone = Some rid -> BTreeMap.get (rows l) rid = Some old ->
     loaded x !! q' = Some ql -> fk ∈ table_foreign_keys (meta ql) -> fk_target fk = q ->
     composite_key (ref_values fk old) = Some k ->
     (forall rid' v, new = Some (rid', v) -> composite_key (ref_values fk v) <> Some k) ->
     C' q' fk r (NeedKey k)) ->
  (forall rid v old, new = Some (rid, v) -> BTreeMap.get (rows l) rid = Some old -> gone = Some rid) ->
  integrity x' C'.
Proof.
  intros Hi Hl Hx' [Hm Hrows] HC Hnew Hlost Hfresh q' ql' fk r row need Hq' Hfk Hp Hr Hneed.
  assert (Hql : exists ql, loaded x !! q' = Some ql /\ meta ql = meta ql').
  { rewrite Hx' in Hq'. destruct (decide (q' = q)) as [->|Hne].
    - rewrite lookup_insert_eq in Hq'. injection Hq' as <-. by exists l.
    - rewrite lookup_insert_ne in Hq' by done. by exists ql'. }
  destruct Hql as (ql & Hql & Hmeta). rewrite <- Hmeta in Hfk.
  assert (Hp' : is_Some (loaded x !! fk_target fk)).
  { rewrite Hx' in Hp. destruct (decide (fk_target fk = q)) as [->|Hne]; [by rewrite Hl|].
    by rewrite lookup_insert_ne in Hp. }
  assert (Hbefore : satisfied x fk need \/ C' q' fk r need).
  { assert (Hcase : (exists v, q' = q /\ new = Some (r, v) /\ v = row) \/
      (BTreeMap.get (rows ql) r = Some row /\ ~ (q' = q /\ Some r = gone))).
    { rewrite Hx' in Hq'. destruct (decide (q' = q)) as [->|Hne].
      - rewrite lookup_insert_eq in Hq'. injection Hq' as <-. rewrite Hl in Hql. injection Hql as <-.
        rewrite Hrows in Hr. destruct new as [[rid v]|]; repeat case_decide; naive_solver.
      - rewrite lookup_insert_ne, Hql in Hq' by done. injection Hq' as <-. naive_solver. }
    destruct Hcase as [(v & -> & Hn & ->)|[Hrow Hng]].
    - rewrite Hl in Hql. injection Hql as <-. by apply (Hnew r row).
    - destruct (Hi q' ql fk r row need) as [?|?]; eauto. }
  destruct Hbefore as [Hsat|]; [|by right]. destruct need as [k|k]; [|done].
  destruct Hsat as (pl & prid & prow & Hpl & Hprow & Hk). unfold satisfied, has_parent. rewrite Hx'.
  destruct (decide (fk_target fk = q)) as [Ht|Hne].
  2: { left. exists pl, prid, prow. by rewrite lookup_insert_ne. }
  rewrite Ht in Hpl |- *. rewrite Hl in Hpl. injection Hpl as <-. rewrite lookup_insert_eq.
  destruct (decide (Some prid = gone)) as [<-|Hng].
  - destruct new as [[rid v]|]; [|right; by apply (Hlost prid prow q' ql fk r k)].
    destruct (decide (composite_key (ref_values fk v) = Some k)) as [Hv|Hv].
    + left. exists l', rid, v. rewrite Hrows, decide_True by done. done.
    + right. apply (Hlost prid prow q' ql fk r k); try done. by intros rid' v' [= <- <-].
  - left. exists l', prid, prow. split; [done|]. split; [|done]. rewrite Hrows.
    destruct new as [[rid v]|]; [|by rewrite decide_False].
    rewrite decide_False; [by rewrite decide_False|]. intros ->. by apply Hng; symmetry; apply (Hfresh rid v prow).
Qed.

(** ** Lookups *)

Lemma typed_plain t cols row :
  typed_row t row -> Forall (plain_column t) cols -> plain_values (row_value row <$> cols).
Proof.
  intros Hrow Hc. apply Forall_fmap. eapply Forall_impl; [exact Hc|]. intros c (col & Hcol & Hty).
  eapply key_typed_plain; [exact Hty|]. by apply Hrow.
Qed.

Lemma key_columns_separable t t' cols cols' row row' :
  key_columns t cols -> key_columns t' cols' -> length cols = length cols' ->
  typed_row t row -> typed_row t' row' -> separable (row_value row <$> cols) (row_value row' <$> cols').
Proof.
  intros Hc Hc' Hlen Hr Hr'. split; [by rewrite !length_fmap|]. rewrite length_fmap.
  destruct Hc as [?|Hc]; [by left|]. destruct Hc' as [?|Hc']; [left; congruence|].
  right. split; eauto using typed_plain.
Qed.

Lemma separable_sym vs ws : separable vs ws -> separable ws vs.
Proof. intros [Hl [?|[? ?]]]; (split; [done|]); [left; congruence|by right]. Qed.

Lemma null_count_zero vals : null_count vals = 0 <-> composite_key vals <> None.
Proof.
  unfold null_count. rewrite length_zero_iff_nil, composite_none. split.
  - intros Hf (v & Hv & Hn). assert (Hin : v ∈ filter (fun v => value_is_null v = true) vals)
      by by apply list_elem_of_filter. rewrite Hf in Hin. by apply not_elem_of_nil in Hin.
  - intros Hn. destruct (filter _ vals) as [|v f] eqn:Hf; [done|]. exfalso. apply Hn. exists v.
    assert (Hin : v ∈ filter (fun v => value_is_null v = true) vals) by (rewrite Hf; left).
    apply list_elem_of_filter in Hin. tauto.
Qed.

Lemma null_count_parts vs ws : ordered_part <$> vs = ordered_part <$> ws -> null_count vs = null_count ws.
Proof.
  revert ws. unfold null_count. induction vs as [|v vs IH]; intros [|w ws]; try done.
  intros [= Hp Heq]. rewrite !filter_cons, (ordered_part_null v w Hp).
  destruct (decide (value_is_null w = true)); cbn [length]; by rewrite (IH ws Heq).
Qed.

(** Rows with the same keys owe the same. *)
Lemma need_parts fk a b :
  ordered_part <$> fk_values fk a = ordered_part <$> fk_values fk b -> fk_need fk a = fk_need fk b.
Proof.
  intros Heq. assert (Hl : length (fk_values fk a) = length (fk_values fk b)) by (unfold fk_values; by rewrite !length_fmap).
  unfold fk_need, ordered_key. by rewrite (null_count_parts _ _ Heq), (parts_composite _ _ Heq), Hl, Heq.
Qed.

Lemma need_key fk row k : fk_need fk row = Some (NeedKey k) -> composite_key (fk_values fk row) = Some k.
Proof.
  unfold fk_need. destruct (fk_match_type fk), (composite_key _); try done; try case_decide; try done;
    by intros [= ->].
Qed.

Lemma key_need fk row k :
  fk_columns fk <> [] -> composite_key (fk_values fk row) = Some k -> fk_need fk row = Some (NeedKey k).
Proof.
  intros Hne Hk. unfold fk_need. rewrite Hk. destruct (fk_match_type fk); [done|]. rewrite decide_False; [done|].
  rewrite (proj2 (null_count_zero _)) by congruence. unfold fk_values. rewrite length_fmap.
  by destruct (fk_columns fk).
Qed.

Lemma fk_parent_target x fk p : fk_parent x fk = Ok p -> p = fk_target fk.
Proof.
  unfold fk_parent, resolve_table_name, ok_or. destruct (has_relation _ _); [|done]. by intros [= <-].
Qed.

Lemma index_over_spec l cols li :
  index_over l cols = Some li -> li ∈ l /\ index_columns (lindex_meta li) = cols.
Proof.
  unfold index_over. destruct (list_find _ l) as [[i y]|] eqn:E; [|done]. intros [= ->].
  apply list_find_Some in E as (Hi & Hc & _). split; [by eapply list_elem_of_lookup_2|done].
Qed.

Lemma indexed_key l li cols key rid :
  table_ok l -> index_over (lindexes l) cols = Some li ->
  rid ∈ index_get (lindex_data li) key <->
  exists row, BTreeMap.get (rows l) rid = Some row /\ ordered_key (row_value row <$> cols) = key.
Proof.
  intros [_ _ He] [Hli <-]%index_over_spec. rewrite Forall_forall in He. apply (He li Hli).
Qed.

(** A parent is found exactly when it is there. *)
Lemma parent_has_key_spec l fk vals k :
  table_ok l -> composite_key vals = Some k ->
  (forall rid row, BTreeMap.get (rows l) rid = Some row -> separable vals (ref_values fk row)) ->
  parent_has_key l fk k = true <->
  exists rid row, BTreeMap.get (rows l) rid = Some row /\ composite_key (ref_values fk row) = Some k.
Proof.
  intros Hok Hk Hsep. unfold parent_has_key.
  destruct (index_over (lindexes l) (fk_ref_columns fk)) as [li|] eqn:E.
  - rewrite bool_decide_eq_true. split.
    + intros Hne. destruct (index_get (lindex_data li) k) as [|rid rs] eqn:Eg; [done|].
      assert (Hin : rid ∈ index_get (lindex_data li) k) by (rewrite Eg; left).
      apply (indexed_key l li (fk_ref_columns fk)) in Hin as (row & Hr & Ho); [|done..]. exists rid, row. split; [done|].
      eapply separable_composite; [by eapply Hsep|exact Hk|exact Ho].
    + intros (rid & row & Hr & Hc) Hn. eapply not_elem_of_nil. rewrite <- Hn.
      apply (indexed_key l li (fk_ref_columns fk)); [done..|]. exists row. split; [done|]. by apply composite_ordered.
  - rewrite existsb_exists. split.
    + intros ([rid row] & Hin & Hc%bool_decide_eq_true). exists rid, row. split; [|done].
      apply BTreeMap.elem_get; [apply Hok|by apply list_elem_of_In].
    + intros (rid & row & Hr & Hc). exists (rid, row). split; [|by apply bool_decide_eq_true].
      apply list_elem_of_In. by apply BTreeMap.get_Some_elem.
Qed.

Lemma set_sorted_NoDup s : BTreeSet.sorted s -> NoDup s.
Proof.
  induction 1 as [|a s Hs IH Hall]; constructor; [|done].
  intros Hin. rewrite Forall_forall in Hall. apply Hall in Hin.
  by rewrite (proj2 (BTreeMap.compare_eq _ _)) in Hin.
Qed.

(** The matching children are the rows with the key, each once. *)
Lemma matching_children_spec l fk vals k :
  table_ok l -> composite_key vals = Some k ->
  (forall rid row, BTreeMap.get (rows l) rid = Some row -> separable vals (fk_values fk row)) ->
  NoDup (matching_children l fk k).*1 /\
  forall rid row, (rid, row) ∈ matching_children l fk k <->
    BTreeMap.get (rows l) rid = Some row /\ composite_key (fk_values fk row) = Some k.
Proof.
  intros Hok Hk Hsep. unfold matching_children.
  destruct (index_over (lindexes l) (fk_columns fk)) as [li|] eqn:E.
  - split.
    + pose proof (index_over_spec _ _ _ E) as [Hli _].
      assert (Hs : NoDup (index_get (lindex_data li) k)).
      { unfold index_get. destruct (BTreeMap.get _ k) as [s|] eqn:Eg; [|constructor].
        apply set_sorted_NoDup. destruct Hok as [_ Hi _]. rewrite Forall_forall in Hi.
        by apply (get_set_ok _ _ _ (Hi li Hli) Eg). }
      induction Hs as [|rid rs Hnew Hs IH]; [constructor|]. csimpl.
      destruct (BTreeMap.get (rows l) rid) as [row|]; [|done]. csimpl. constructor; [|done].
      intros ([r v] & -> & Hin)%list_elem_of_fmap. apply list_elem_of_omap in Hin as (r' & Hr' & Hf).
      destruct (BTreeMap.get (rows l) r'); [|done]. simpl in Hf. injection Hf as -> ->. done.
    + intros rid row. rewrite list_elem_of_omap. split.
      * intros (r & Hin & Hf). destruct (BTreeMap.get (rows l) r) as [v|] eqn:Er; [|done]. simpl in Hf.
        injection Hf as -> ->. split; [done|].
        apply (indexed_key l li (fk_columns fk)) in Hin as (v & Hv & Ho); [|done..]. rewrite Er in Hv. injection Hv as <-.
        eapply separable_composite; [by eapply Hsep|exact Hk|exact Ho].
      * intros [Hr Hc]. exists rid. rewrite Hr. split; [|done].
        apply (indexed_key l li (fk_columns fk)); [done..|]. exists row. split; [done|]. by apply composite_ordered.
  - split.
    + apply BTreeMap.keys_NoDup, BTreeMap.map_filter_sorted, Hok.
    + intros rid row. rewrite list_elem_of_filter, BTreeMap.elem_get by apply Hok. simpl. tauto.
Qed.

(** ** The child side *)

Definition deferred_for (d : DeferredFkCheck) (q : QualifiedName) (fk : ForeignKey) (need : Need) : Prop :=
  match d with
  | DeferredChild c f k _ => c = q /\ f = fk /\ need = NeedKey k
  | DeferredReferenced p c f k _ => c = q /\ f = fk /\ p = fk_target fk /\ need = NeedKey k
  | DeferredNullMix c f k => c = q /\ f = fk /\ need = NeedNoMix k
  end.

Definition deferred_cover (ds : list DeferredFkCheck) : Cover :=
  fun q fk _ need => exists d, d ∈ earlier ++ ds /\ deferred_for d q fk need.

Lemma deferred_cover_app ds ds' q fk rid need :
  deferred_cover ds q fk rid need -> deferred_cover (ds ++ ds') q fk rid need.
Proof. intros (d & Hd & Hf). exists d. split; [|done]. rewrite app_assoc. apply elem_of_app. by left. Qed.

Lemma deferred_cover_last ds d q fk rid need :
  deferred_for d q fk need -> deferred_cover (ds ++ [d]) q fk rid need.
Proof. intros Hf. exists d. split; [|done]. rewrite app_assoc. apply elem_of_app. right. left. Qed.

(** Nothing changed but the deferred checks. *)
Record deferred_more (x x' : Exec) : Prop := {
  more_catalog : catalog x' = catalog x;
  more_loaded : loaded x' = loaded x;
  more_deferred : exists ds, deferred_checks x' = deferred_checks x ++ ds
}.

Lemma deferred_more_refl x : deferred_more x x.
Proof. split; [done..|]. exists []. by rewrite app_nil_r. Qed.

Lemma deferred_more_trans x y z : deferred_more x y -> deferred_more y z -> deferred_more x z.
Proof.
  intros [Hc Hl [ds Hd]] [Hc' Hl' [ds' Hd']]. split; [congruence..|].
  exists (ds ++ ds'). by rewrite Hd', Hd, app_assoc.
Qed.

Lemma deferred_more_cover x x' q fk rid need :
  deferred_more x x' -> deferred_cover (deferred_checks x) q fk rid need ->
  deferred_cover (deferred_checks x') q fk rid need.
Proof. intros [_ _ [ds ->]]. apply deferred_cover_app. Qed.

Lemma db_ok_more x x' : deferred_more x x' -> db_ok x -> db_ok x'.
Proof. intros [Hc Hl _] [Hs Ht]. split; rewrite Hc; [done|]. by rewrite Hl. Qed.

Lemma table_fk_ok c q t fk : schema_ok c -> get_table c q = Some t -> fk ∈ table_foreign_keys t -> fk_ok c t fk.
Proof.
  intros [_ Hs] Ht Hfk. pose proof (def_fks _ _ _ (Hs q t Ht)) as Hf. rewrite Forall_forall in Hf. by apply Hf.
Qed.

(** The keys of children and parents can be told apart. *)
Lemma parent_separable c q t fk pt row prow :
  schema_ok c -> get_table c q = Some t -> fk ∈ table_foreign_keys t -> get_table c (fk_target fk) = Some pt ->
  typed_row t row -> typed_row pt prow -> separable (fk_values fk row) (ref_values fk prow).
Proof.
  intros Hs Ht Hfk Hpt Hr Hpr. destruct (table_fk_ok c q t fk Hs Ht Hfk) as [_ Ha _ _ Hk Hrk _].
  by apply (key_columns_separable t pt); auto.
Qed.

Lemma child_separable c q t fk row row' :
  schema_ok c -> get_table c q = Some t -> fk ∈ table_foreign_keys t ->
  typed_row t row -> typed_row t row' -> separable (fk_values fk row) (fk_values fk row').
Proof.
  intros Hs Ht Hfk Hr Hr'. destruct (table_fk_ok c q t fk Hs Ht Hfk) as [_ _ _ _ Hk _ _].
  by apply (key_columns_separable t t).
Qed.

(** Rows with the same ordered key owe the same. *)
Lemma need_unchanged c q t fk row row' :
  schema_ok c -> get_table c q = Some t -> fk ∈ table_foreign_keys t ->
  typed_row t row -> typed_row t row' -> ordered_key (fk_values fk row) = ordered_key (fk_values fk row') ->
  fk_need fk row = fk_need fk row'.
Proof. intros Hs Ht Hfk Hr Hr' Heq. by eapply need_parts, separable_parts, Heq; eapply child_separable. Qed.

Lemma has_parent_found x q t fk row k l :
  db_ok x -> get_table (catalog x) q = Some t -> fk ∈ table_foreign_keys t -> typed_row t row ->
  composite_key (fk_values fk row) = Some k -> loaded x !! fk_target fk = Some l ->
  parent_has_key l fk k = true <-> has_parent x fk k.
Proof.
  intros Hdb Ht Hfk Hr Hk Hl. destruct (db_tables _ Hdb _ _ Hl) as [Hm Hok Hty _ _ _].
  rewrite (parent_has_key_spec l fk (fk_values fk row) k Hok Hk).
  - unfold has_parent. rewrite Hl. naive_solver.
  - intros rid prow Hp. apply (parent_separable (catalog x) q t fk (meta l)); [apply Hdb|done..|]. by eapply Hty.
Qed.

Lemma fk_check_key_ok x t fk row k rid x' :
  db_ok x -> get_table (catalog x) (table_qualified t) = Some t -> fk ∈ table_foreign_keys t ->
  typed_row t row -> composite_key (fk_values fk row) = Some k ->
  fk_check_key x t fk (fk_values fk row) = Ok x' ->
  deferred_more x x' /\
  (has_parent x fk k \/ deferred_cover (deferred_checks x') (table_qualified t) fk rid (NeedKey k)).
Proof.
  intros Hdb Ht Hfk Hr Hk. unfold fk_check_key, fk_parent_has_key, fk_loaded. rewrite Hk.
  destruct (fk_parent x fk) as [p|] eqn:Ep; [|done]. apply fk_parent_target in Ep as ->. cbv beta iota.
  destruct (loaded x !! fk_target fk) as [l|] eqn:El; [|done]. cbn [ok_or].
  destruct (parent_has_key l fk k) eqn:Ef.
  - intros [= <-]. split; [apply deferred_more_refl|]. left.
    by apply (has_parent_found x (table_qualified t) t fk row k l).
  - destruct (fk_is_deferred x (table_qualified t) fk); [|done]. intros [= <-]. split.
    + split; [done..|]. by eexists.
    + right. by apply deferred_cover_last.
Qed.

Lemma fk_check_one_ok x t fk row rid x' :
  db_ok x -> get_table (catalog x) (table_qualified t) = Some t -> fk ∈ table_foreign_keys t ->
  typed_row t row -> fk_check_one x t fk row = Ok x' ->
  deferred_more x x' /\ forall need, fk_need fk row = Some need ->
    satisfied x fk need \/ deferred_cover (deferred_checks x') (table_qualified t) fk rid need.
Proof.
  intros Hdb Ht Hfk Hr Hc. unfold fk_check_one in Hc. unfold fk_need.
  set (vals := fk_values fk row) in *.
  assert (Hkey : forall k, composite_key vals = Some k -> fk_check_key x t fk vals = Ok x' ->
    deferred_more x x' /\ forall need, Some (NeedKey k) = Some need ->
      satisfied x fk need \/ deferred_cover (deferred_checks x') (table_qualified t) fk rid need).
  { intros k Hk Hx. destruct (fk_check_key_ok x t fk row k rid x') as [? ?]; [done..|]. split; [done|].
    by intros need [= <-]. }
  pose proof (null_count_zero vals) as Hz.
  destruct (composite_key vals) as [k|] eqn:Ek.
  - assert (Hn : null_count vals = 0) by by apply Hz. rewrite Hn in *.
    destruct (fk_match_type fk); [by apply (Hkey k)|].
    destruct (decide (0 = length vals)); [|by apply (Hkey k)].
    injection Hc as <-. split; [apply deferred_more_refl|done].
  - assert (Hn : 0 < null_count vals) by (destruct (null_count vals); [by destruct (proj1 Hz)|lia]).
    destruct (fk_match_type fk); rewrite (decide_True (P := 0 < null_count vals)) in Hc by done.
    + injection Hc as <-. split; [apply deferred_more_refl|done].
    + destruct (decide (null_count vals = length vals)).
      { injection Hc as <-. split; [apply deferred_more_refl|done]. }
      destruct (fk_is_deferred x (table_qualified t) fk); [|done]. injection Hc as <-. split.
      * split; [done..|]. by eexists.
      * intros need [= <-]. right. by apply deferred_cover_last.
Qed.

(** What a checked row owes to a foreign key: as before, satisfied, or deferred. *)
Definition checked (x x' : Exec) (t : Table) (new : RowValues) (old : option RowValues) (fk : ForeignKey) : Prop :=
  forall rid need, fk_need fk new = Some need ->
    (exists o, old = Some o /\ ordered_key (fk_values fk o) = ordered_key (fk_values fk new)) \/
    satisfied x fk need \/ deferred_cover (deferred_checks x') (table_qualified t) fk rid need.

Lemma checked_more x x1 x' x2 t new old fk :
  deferred_more x x1 -> deferred_more x' x2 -> checked x1 x' t new old fk -> checked x x2 t new old fk.
Proof.
  intros [_ Hl _] Hm Hc rid need Hn. destruct (Hc rid need Hn) as [?|[?|?]]; [by left|right; left|right; right].
  - destruct need; [|done]. unfold satisfied, has_parent in *. by rewrite Hl in *.
  - by eapply deferred_more_cover.
Qed.

Lemma fk_check_child_ok x t new old x' :
  db_ok x -> get_table (catalog x) (table_qualified t) = Some t -> typed_row t new ->
  fk_check_child x t new old = Ok x' ->
  deferred_more x x' /\ Forall (checked x x' t new old) (table_foreign_keys t).
Proof.
  intros Hdb Ht Hnew. unfold fk_check_child.
  assert (Hsub : Forall (fun fk => fk ∈ table_foreign_keys t) (table_foreign_keys t)) by by apply Forall_forall.
  revert Hsub. generalize (table_foreign_keys t) at 2 3 4. intros fks Hsub.
  match goal with |- try_fold ?f x fks = _ -> _ => set (step := f) end. revert x Hdb Ht.
  induction Hsub as [|fk fks Hfk Hsub IH]; intros x Hdb Ht.
  { intros [= <-]. split; [apply deferred_more_refl|by constructor]. }
  cbn [try_fold].
  assert (Hstep : forall r : res Exec,
    (forall x1, r = Ok x1 -> deferred_more x x1 /\ checked x x1 t new old fk) ->
    (let? x1 := r in try_fold step x1 fks) = Ok x' ->
    deferred_more x x' /\ Forall (checked x x' t new old) (fk :: fks)).
  { intros [x1|] Hr Hrest; [|done]. destruct (Hr x1 eq_refl) as [Hm Hchk].
    destruct (IH x1) as [Hm' Hall]; [by eapply db_ok_more|by rewrite (more_catalog _ _ Hm)|done|].
    split; [by eapply deferred_more_trans|]. constructor.
    - by eapply checked_more, Hchk; [apply deferred_more_refl|].
    - eapply Forall_impl; [exact Hall|]. intros f Hf. by eapply checked_more, Hf; [|apply deferred_more_refl]. }
  apply Hstep. intros x1 Hx1.
  assert (Hone : fk_check_one x t fk new = Ok x1 -> deferred_more x x1 /\ checked x x1 t new old fk).
  { intros Ho. split; [by apply (fk_check_one_ok x t fk new String.EmptyString x1)|].
    intros rid need Hn. right. by eapply fk_check_one_ok. }
  unfold step in Hx1. destruct old as [old|]; [case_decide as Heq|]; [|by apply Hone..].
  injection Hx1 as <-. split; [apply deferred_more_refl|]. intros rid need _. left. by exists old.
Qed.
End keys.
