(* ===== verification/ForeignKeyActions.v ===== *)
(** * Referential actions keep integrity

    Writing a row, the rewriting and deleting of child rows, the loop over the
    work, and the checks at the end of the statement and of the transaction. *)

From S2P Require Import Prelude BTree Json Utf8 RustString RustFloat FloatExact SqlTypes Fts FtsInv SqlValue SqlTyping SqlConvert OrdMap Lock SqlCatalog TableStore TableStoreInv SqlExec SqlTrigger ForeignKeys ForeignKeysInv.

Section actions.
Context `{!Foreign, !ForeignText, !ForeignKeyText, !SqlSyntax, !Evaluator, !Earlier}.

Abbreviation RiState := (Exec * list RiWork * list PendingCheck)%type.

(** ** Row ids *)

Lemma check_not_null_spec t v cols :
  check_not_null t v cols = Ok tt ->
  Forall (fun col => column_nullable col = false -> value_is_null (row_value v (column_name col)) = false) cols.
Proof.
  induction cols as [|col cols IH]; [constructor|]. cbn [check_not_null].
  destruct (column_nullable col) eqn:En, (value_is_null (row_value v (column_name col))) eqn:E; cbn [negb andb];
    try done; intros Hc; constructor; auto; congruence.
Qed.

Lemma derive_composite t v :
  derive_row_id t v = match pk_columns t with [] => None | pk => composite_key (row_value v <$> pk) end.
Proof. unfold derive_row_id, composite_key. by destruct (pk_columns t). Qed.

Lemma not_null_id c q t v :
  table_def_ok c q t -> check_not_null t v (table_columns t) = Ok tt -> pk_columns t <> [] ->
  exists id, derive_row_id t v = Some id.
Proof.
  intros Hd Hn%check_not_null_spec Hpk. rewrite derive_composite. pose proof (def_pk _ _ _ Hd) as Hk.
  destruct (pk_columns t) as [|k pk] eqn:E; [done|]. destruct (composite_key _) as [id|] eqn:Ec; [by exists id|].
  apply composite_none in Ec as (w & (a & -> & Ha)%list_elem_of_fmap & Hw).
  destruct (Hk a Ha) as (col & Hcol & <- & Hnull). rewrite Forall_forall in Hn. by rewrite (Hn col Hcol Hnull) in Hw.
Qed.

(** The id of a row that passes the uniqueness check is free. *)
Lemma id_free l v exclude id old :
  table_ok l -> ids_ok l -> check_unique l v exclude = Ok tt -> derive_row_id (meta l) v = Some id ->
  BTreeMap.get (rows l) id = Some old -> Some id = exclude.
Proof.
  intros Hok Hids Hu Hid Hold. pose proof (check_unique_spec l v exclude Hok) as Hs. rewrite Hu in Hs.
  rewrite derive_composite in Hid. destruct (pk_columns (meta l)) as [|k pk] eqn:Epk; [done|].
  destruct Hids as [(m & Hm & Huni & Hcols) Hrows]; [by rewrite Epk|].
  apply list_elem_of_fmap in Hm as (li & -> & Hli). unfold no_conflict in Hs. rewrite Forall_forall in Hs.
  specialize (Hs li Hli Huni). unfold index_values in Hs. rewrite Hcols, Epk in Hs.
  apply (Hs ltac:(congruence) id old Hold). apply Hrows in Hold. rewrite derive_composite, Epk in Hold.
  by rewrite (composite_ordered _ _ Hold), (composite_ordered _ _ Hid).
Qed.

(** ** Writing *)

Lemma insert_changed l rid v : changed l (apply_insert l rid v) None (Some (rid, v)).
Proof. split; [done|]. intros r. simpl. rewrite BTreeMap.get_insert. by repeat case_decide. Qed.

Lemma delete_changed l rid : changed l (apply_delete l rid) (Some rid) None.
Proof.
  unfold apply_delete. destruct (BTreeMap.get (rows l) rid) eqn:E; split; try done; intros r; simpl.
  - rewrite BTreeMap.get_remove. by repeat case_decide; simplify_eq.
  - by case_decide; simplify_eq.
Qed.

Lemma update_changed l rid v : changed l (apply_update l rid v) (Some rid) (Some (rid, v)).
Proof. split; [done|]. intros r. simpl. rewrite BTreeMap.get_insert. by repeat case_decide; simplify_eq. Qed.

Lemma changed_trans l l1 l2 rid new :
  changed l l1 (Some rid) None -> changed l1 l2 None (Some new) -> changed l l2 (Some rid) (Some new).
Proof.
  intros [Hm Hr] [Hm' Hr']. split; [congruence|]. intros r. rewrite Hr'. destruct new as [rid' v].
  by repeat case_decide; rewrite ?Hr; repeat case_decide.
Qed.

Lemma metas_mapped f (l : list LoadedIndex) : lindex_meta <$> (map_data f <$> l) = lindex_meta <$> l.
Proof. by rewrite <- list_fmap_compose. Qed.

Lemma apply_metas l rid v :
  lindex_meta <$> lindexes (apply_insert l rid v) = lindex_meta <$> lindexes l /\
  lindex_meta <$> lindexes (apply_delete l rid) = lindex_meta <$> lindexes l /\
  lindex_meta <$> lindexes (apply_update l rid v) = lindex_meta <$> lindexes l.
Proof.
  unfold apply_insert, apply_delete, apply_update, enter_row, leave_row.
  destruct (BTreeMap.get (rows l) rid); cbn [lindexes]; by rewrite !metas_mapped.
Qed.

Lemma state_ok_change c q l l' gone new :
  state_ok c q l -> changed l l' gone new -> table_ok l' ->
  lindex_meta <$> lindexes l' = lindex_meta <$> lindexes l ->
  (forall rid v, new = Some (rid, v) ->
     typed_row (meta l) v /\ (pk_columns (meta l) <> [] -> derive_row_id (meta l) v = Some rid) /\
     check_not_null (meta l) v (table_columns (meta l)) = Ok tt /\ no_conflict l v gone) ->
  state_ok c q l'.
Proof.
  intros [Hm Hok Hty Hids Huq Hnn] [Hmeta Hrows] Hok' Hmetas Hnew.
  assert (Hrow : forall rid row, BTreeMap.get (rows l') rid = Some row ->
    BTreeMap.get (rows l) rid = Some row /\ Some rid <> gone \/ new = Some (rid, row)).
  { intros rid row. rewrite Hrows. destruct new as [[r v]|]; repeat case_decide; intros; simplify_eq; auto. }
  assert (Hclash : forall m r v r' v', m ∈ lindex_meta <$> lindexes l -> index_unique m = true ->
    BTreeMap.get (rows l) r = Some v -> Some r <> gone -> new = Some (r', v') ->
    composite_key (index_values m v') <> None -> ordered_key (index_values m v) = ordered_key (index_values m v') -> False).
  { intros m r v r' v' (li & -> & Hli)%list_elem_of_fmap Hu Hr Hg Hn Hc Ho. destruct (Hnew r' v' Hn) as (_ & _ & _ & Hno).
    unfold no_conflict in Hno. rewrite Forall_forall in Hno. by apply Hg, (Hno li Hli Hu Hc r v). }
  split; rewrite ?Hmeta; [done..| | | |].
  - intros rid row [[? _]|?]%Hrow; [by eapply Hty|by eapply Hnew].
  - intros Hpk. rewrite Hmeta, Hmetas in *. destruct (Hids Hpk) as [Hi Hd]. split; [done|].
    intros rid row [[? _]|?]%Hrow; [by apply Hd|by apply Hnew].
  - intros m r v r' v'. rewrite Hmetas. intros Hin Hu [[Hr Hg]|Hr]%Hrow [[Hr' Hg']|Hr']%Hrow Hc Hc' Ho.
    + by eapply Huq.
    + by destruct (Hclash m r v r' v').
    + by destruct (Hclash m r' v' r v).
    + congruence.
  - intros rid row. rewrite Hmeta. intros [[? _]|?]%Hrow; [by eapply Hnn|by eapply Hnew].
Qed.

(** What a write of one row of [q] leaves alone. *)
Record wrote (x x' : Exec) (q : QualifiedName) (l : LoadedTable) (gone : option string)
    (new : option (string * RowValues)) : Prop := {
  wrote_db : db_ok x';
  wrote_catalog : catalog x' = catalog x;
  wrote_deferred : deferred_checks x' = deferred_checks x;
  wrote_table : exists l', loaded x' = <[q := l']> (loaded x) /\ changed l l' gone new;
  wrote_fresh : forall rid v old, new = Some (rid, v) -> BTreeMap.get (rows l) rid = Some old -> gone = Some rid
}.

Lemma db_ok_insert x x' q l' :
  db_ok x -> state_ok (catalog x) q l' -> catalog x' = catalog x -> loaded x' = <[q := l']> (loaded x) -> db_ok x'.
Proof.
  intros [Hs Ht] Hl' Hc Hl. split; rewrite Hc; [done|]. rewrite Hl. intros q' l.
  destruct (decide (q' = q)) as [->|Hne]; [rewrite lookup_insert_eq; by intros [= <-]|].
  rewrite lookup_insert_ne by done. apply Ht.
Qed.

Lemma write_update_ok x q coll l rid old new x' :
  db_ok x -> loaded x !! q = Some l -> BTreeMap.get (rows l) rid = Some old -> typed_row (meta l) new ->
  check_not_null (meta l) new (table_columns (meta l)) = Ok tt -> check_unique l new (Some rid) = Ok tt ->
  write_update x q coll (meta l) rid new = Ok x' ->
  exists rid', wrote x x' q l (Some rid) (Some (rid', new)).
Proof.
  intros Hdb Hl Hold Hty Hnn Hu. pose proof (db_tables _ Hdb _ _ Hl) as Hst.
  pose proof (schema_tables _ (db_schema _ Hdb) _ _ (st_meta _ _ _ Hst)) as Hdef.
  pose proof (st_table _ _ _ Hst) as Hok.
  assert (Hid : pk_columns (meta l) <> [] ->
    derive_row_id (meta l) new = Some (default rid (derive_row_id (meta l) new))).
  { intros Hpk. by destruct (not_null_id _ _ _ _ Hdef Hnn Hpk) as [id ->]. }
  assert (Hfree : forall old', BTreeMap.get (rows l) (default rid (derive_row_id (meta l) new)) = Some old' ->
    Some rid = Some (default rid (derive_row_id (meta l) new))).
  { intros old'. destruct (derive_row_id (meta l) new) as [id|] eqn:Ed; [|done]. simpl. intros Ho.
    symmetry. by apply (id_free l new (Some rid) id old' Hok (st_ids _ _ _ Hst)). }
  unfold write_update. rewrite Hl. set (new_id := default rid (derive_row_id (meta l) new)) in *.
  destruct (apply_metas l rid new) as (_ & Hmd & Hmu).
  assert (Hgo : forall l', changed l l' (Some rid) (Some (new_id, new)) -> table_ok l' ->
    lindex_meta <$> lindexes l' = lindex_meta <$> lindexes l ->
    forall y, catalog y = catalog x -> deferred_checks y = deferred_checks x ->
      loaded y = <[q := l']> (loaded x) -> exists rid', wrote x y q l (Some rid) (Some (rid', new))).
  { intros l' Hch Hok' Hmetas y Hc Hd Hly. exists new_id. split; [|done..|by exists l'|].
    - eapply db_ok_insert; [done| |done|done]. eapply state_ok_change; [done..|]. intros ? ? [= <- <-].
      pose proof (check_unique_spec l new (Some rid) Hok) as Hs. by rewrite Hu in Hs.
    - intros r v o [= <- <-] Ho. by apply (Hfree o). }
  case_decide as Hne; intros [= <-].
  - eapply Hgo; [| | |done..].
    + eapply changed_trans; [apply delete_changed|apply insert_changed].
    + apply apply_insert_ok; [|by apply apply_delete_ok].
      rewrite (proj2 (delete_changed l rid)). case_decide; [congruence|].
      destruct (BTreeMap.get (rows l) new_id) as [o|] eqn:Eo; [|done]. specialize (Hfree o eq_refl). congruence.
    + destruct (apply_metas (apply_delete l rid) new_id new) as (-> & _ & _). apply Hmd.
  - eapply Hgo; [|by apply apply_update_ok|done..].
    rewrite Hne. apply update_changed.
Qed.

Lemma delete_row_ok x x' q l rid :
  db_ok x -> loaded x !! q = Some l -> catalog x' = catalog x -> deferred_checks x' = deferred_checks x ->
  loaded x' = <[q := apply_delete l rid]> (loaded x) -> wrote x x' q l (Some rid) None.
Proof.
  intros Hdb Hl Hc Hd Hx'. split; [|done..|by eexists; split; [done|apply delete_changed]|done].
  pose proof (db_tables _ Hdb _ _ Hl) as Hst. eapply db_ok_insert; [done| |done|done].
  eapply state_ok_change; [done|apply delete_changed|apply apply_delete_ok, Hst|by apply (apply_metas l rid [])|done].
Qed.

Lemma deferred_more_pending x o m sc : deferred_more x (record_pending x o m sc).
Proof. split; [done..|]. exists []. by rewrite app_nil_r. Qed.

(** A checked row written in place of another. *)
Lemma rewrite_integrity x x1 y x' q l rid old rid' new C C' :
  db_ok x -> integrity x C -> loaded x !! q = Some l -> BTreeMap.get (rows l) rid = Some old ->
  typed_row (meta l) new -> Forall (checked x x1 (meta l) new (Some old)) (table_foreign_keys (meta l)) ->
  loaded y = loaded x -> deferred_checks y = deferred_checks x1 ->
  wrote y x' q l (Some rid) (Some (rid', new)) ->
  (forall q' fk r need, C q' fk r need -> ~ (q' = q /\ r = rid) -> C' q' fk r need) ->
  (forall fk need, C q fk rid need -> fk_need fk old = Some need -> fk_need fk new = Some need -> C' q fk rid' need) ->
  (forall q' fk r need, deferred_cover (deferred_checks x') q' fk r need -> C' q' fk r need) ->
  (forall q' ql fk r k, loaded x !! q' = Some ql -> fk ∈ table_foreign_keys (meta ql) -> fk_target fk = q ->
     composite_key (ref_values fk old) = Some k -> composite_key (ref_values fk new) <> Some k ->
     C' q' fk r (NeedKey k)) ->
  integrity x' C'.
Proof.
  intros Hdb Hi Hl Hold Hty Hchk Hly Hdy [_ _ Hd (l' & Hl' & Hch) Hfresh] HC Hkeep Hdef Hlost.
  pose proof (db_tables _ Hdb _ _ Hl) as Hst. rewrite Hly in Hl'.
  eapply (integrity_change x x' q l l' (Some rid) (Some (rid', new)) C C'); try done.
  - intros q' fk r need HCr Hne. apply (HC q' fk r need HCr). intros [-> ->]. by apply Hne.
  - intros r v fk need [= <- <-] Hfk Hp Hn. rewrite Forall_forall in Hchk.
    destruct (Hchk fk Hfk rid' need Hn) as [(o & [= <-] & Ho)|[?|?]]; [|by left|].
    + assert (Hno : fk_need fk old = Some need).
      { rewrite <- Hn. eapply need_unchanged; [apply Hdb|apply Hst|done|by eapply Hst|done|done]. }
      destruct (Hi q l fk rid old need) as [?|?]; [done..|by left|]. right. by apply Hkeep.
    + right. apply Hdef. rewrite Hd, Hdy.
      by rewrite (def_name _ _ _ (schema_tables _ (db_schema _ Hdb) _ _ (st_meta _ _ _ Hst))) in *.
  - intros r o q' ql fk r' k [= <-] Ho Hq' Hfk Ht Hk Hnew. rewrite Hold in Ho. injection Ho as <-.
    apply (Hlost q' ql); try done. by eapply Hnew.
Qed.

(** ** Work *)

Definition work_cover (w : RiWork) : Cover := fun q fk _ need =>
  exists k, need = NeedKey k /\
  match w with
  | WorkDeleted p row _ => fk_target fk = p /\ composite_key (ref_values fk row) = Some k
  | WorkUpdated p old new => fk_target fk = p /\ composite_key (ref_values fk old) = Some k /\
      ordered_key (ref_values fk old) <> ordered_key (ref_values fk new)
  end.

Definition queue_cover (ws : list RiWork) : Cover := fun q fk r need =>
  exists w, w ∈ ws /\ work_cover w q fk r need.

Definition pending_cover (cs : list PendingCheck) : Cover := fun q fk _ need =>
  exists c, c ∈ cs /\ pending_child c = q /\ pending_fk c = fk /\ pending_parent c = fk_target fk /\
    need = NeedKey (pending_key c).

(** What a state of the loop still has to do. *)
Definition state_cover (st : RiState) : Cover := fun q fk r need =>
  let '(x, queue, checks) := st in
  deferred_cover (deferred_checks x) q fk r need \/ queue_cover queue q fk r need \/
  pending_cover checks q fk r need.

Definition either (C D : Cover) : Cover := fun q fk r need => C q fk r need \/ D q fk r need.

(** The rows of an item of work are rows of its table. *)
Definition work_ok (c : Catalog) (w : RiWork) : Prop :=
  match w with
  | WorkDeleted p row _ => exists t, get_table c p = Some t /\ typed_row t row
  | WorkUpdated p old new => exists t, get_table c p = Some t /\ typed_row t old /\ typed_row t new
  end.

Record ri_inv (st : RiState) (E : Cover) : Prop := {
  inv_db : db_ok st.1.1;
  inv_integrity : integrity st.1.1 (either (state_cover st) E);
  inv_work : Forall (work_ok (catalog st.1.1)) st.1.2
}.

Lemma ri_inv_mono st E E' :
  ri_inv st E ->
  (forall q l fk r row need, loaded st.1.1 !! q = Some l -> fk ∈ table_foreign_keys (meta l) ->
     BTreeMap.get (rows l) r = Some row -> fk_need fk row = Some need ->
     E q fk r need -> satisfied st.1.1 fk need \/ either (state_cover st) E' q fk r need) ->
  ri_inv st E'.
Proof.
  intros [Hd Hi Hw] HE. split; [done| |done]. eapply integrity_mono; [exact Hi|].
  intros q l fk r row need Hq Hfk Hr Hn [?|?]; [right; by left|]. by apply (HE q l fk r row need).
Qed.

(** More work covers more. *)
Lemma queue_cover_app ws ws' q fk r need :
  queue_cover (ws ++ ws') q fk r need <-> queue_cover ws q fk r need \/ queue_cover ws' q fk r need.
Proof. unfold queue_cover. setoid_rewrite elem_of_app. naive_solver. Qed.

Lemma queue_cover_one w q fk r need : queue_cover [w] q fk r need <-> work_cover w q fk r need.
Proof. unfold queue_cover. setoid_rewrite list_elem_of_singleton. naive_solver. Qed.

Lemma lost_key x q l q' ql fk old new k r :
  db_ok x -> loaded x !! q = Some l -> loaded x !! q' = Some ql -> fk ∈ table_foreign_keys (meta ql) ->
  fk_target fk = q -> typed_row (meta l) old -> typed_row (meta l) new ->
  composite_key (ref_values fk old) = Some k -> composite_key (ref_values fk new) <> Some k ->
  work_cover (WorkUpdated q old new) q' fk r (NeedKey k).
Proof.
  intros Hdb Hl Hql Hfk Ht Ho Hn Hk Hne. exists k. split; [done|]. split; [done|]. split; [done|]. intros Heq.
  apply Hne. rewrite <- Hk. symmetry. apply parts_composite, separable_parts; [|done].
  pose proof (db_tables _ Hdb _ _ Hl) as Hst. pose proof (db_tables _ Hdb _ _ Hql) as Hst'.
  destruct (table_fk_ok _ _ _ fk (db_schema _ Hdb) (st_meta _ _ _ Hst') Hfk) as [_ _ _ _ _ Hrk _].
  assert (Hkc : key_columns (meta l) (fk_ref_columns fk)) by (apply Hrk; rewrite Ht; apply Hst).
  by apply (key_columns_separable (meta l) (meta l)).
Qed.

(** ** Child rows rewritten *)

(** The row key shows a change of the row. *)
Definition row_key_exact (t : Table) (old new : RowValues) : Prop :=
  row_key t old = row_key t new -> ordered_part <$> row_tuple t old = ordered_part <$> row_tuple t new.

Lemma tuple_parts t old new (cols : list string) :
  ordered_part <$> row_tuple t old = ordered_part <$> row_tuple t new -> (forall a, a ∈ cols -> a ∈ column_names t) ->
  ordered_part <$> (row_value old <$> cols) = ordered_part <$> (row_value new <$> cols).
Proof.
  intros Heq Hsub. rewrite <- !list_fmap_compose. apply list_fmap_ext. intros i a Ha. simpl.
  apply list_elem_of_lookup_2, Hsub in Ha. unfold column_names in Ha.
  apply list_elem_of_fmap in Ha as (col & -> & [j Hj]%list_elem_of_lookup_1).
  apply (f_equal (lookup j)) in Heq. unfold row_tuple in Heq. rewrite !list_lookup_fmap, Hj in Heq.
  simpl in Heq. by injection Heq.
Qed.

Lemma ri_update_child_ok x queue checks q rid old new l E E' x' queue' :
  ri_inv (x, queue, checks) E -> loaded x !! q = Some l -> BTreeMap.get (rows l) rid = Some old ->
  typed_row (meta l) new -> row_key_exact (meta l) old new ->
  (forall q' fk r need, E q' fk r need -> ~ (q' = q /\ r = rid) -> E' q' fk r need) ->
  (forall rid' fk need, E q fk rid need -> fk_need fk old = Some need -> fk_need fk new = Some need ->
     E' q fk rid' need) ->
  ri_update_child x q rid old new queue = Ok (x', queue') ->
  ri_inv (x', queue', checks) E' /\ catalog x' = catalog x /\
  exists l', loaded x' = <[q := l']> (loaded x) /\ meta l' = meta l /\
    forall r v, r <> rid -> BTreeMap.get (rows l) r = Some v -> BTreeMap.get (rows l') r = Some v.
Proof.
  intros [Hdb Hi Hw] Hl Hold Hty Hrk HE Hkeep. cbn [fst snd] in *.
  pose proof (db_tables _ Hdb _ _ Hl) as Hst.
  pose proof (schema_tables _ (db_schema _ Hdb) _ _ (st_meta _ _ _ Hst)) as Hdef.
  unfold ri_update_child, fk_loaded. rewrite Hl. cbn [ok_or]. case_decide as Hsame.
  { intros [= <- <-]. split; [|split; [done|]; exists l; by rewrite insert_id]. split; [done| |done].
    cbn [fst snd]. intros q' ql fk r row need Hq' Hfk Hp Hr Hn.
    destruct (Hi q' ql fk r row need) as [?|[?|HEr]]; [done..|by left| |].
    { right. by left. }
    right. right. destruct (decide (q' = q)) as [->|Hne]; [|apply HE; naive_solver].
    destruct (decide (r = rid)) as [->|Hne]; [|apply HE; naive_solver].
    rewrite Hl in Hq'. injection Hq' as <-. rewrite Hold in Hr. injection Hr as <-. apply Hkeep; [done..|].
    rewrite <- Hn. symmetry. apply need_parts. apply tuple_parts with (meta l); [by apply Hrk|].
    apply (fk_known _ _ _ (table_fk_ok _ _ _ fk (db_schema _ Hdb) (st_meta _ _ _ Hst) Hfk)). }
  destruct (check_not_null _ _ _) as [[]|] eqn:Enn; [|done]. destruct (check_constraints _ _ _); [|done].
  unfold check_unique_for. rewrite Hl. destruct (check_unique l new (Some rid)) as [[]|] eqn:Eu; [|done].
  destruct (fk_check_child x (meta l) new (Some old)) as [x1|] eqn:Ec; [|done].
  destruct (fk_check_child_ok x (meta l) new (Some old) x1) as [Hm Hchk]; [done| |done..|].
  { rewrite (def_name _ _ _ Hdef). apply Hst. }
  set (y := record_pending x1 _ _ _). destruct (write_update y _ _ _ _ _) as [x2|] eqn:Ewr; [|done].
  intros [= <- <-]. destruct (write_update_ok y q (table_storage_collection (meta l)) l rid old new x2) as [rid' Hwr]; try done.
  { apply (db_ok_more x1 y); [apply deferred_more_pending|by apply (db_ok_more x x1)]. }
  { unfold y. simpl. by rewrite (more_loaded _ _ Hm). }
  pose proof Hwr as [Hdb2 Hc2 Hd2 (l' & Hl' & Hch) Hfresh].
  assert (Hly : loaded y = loaded x) by apply Hm. assert (Hdy : deferred_checks y = deferred_checks x1) by done.
  assert (Hcy : catalog y = catalog x) by apply Hm. split; [split; [done| |]|].
  - eapply (rewrite_integrity x x1 y x2); try done; cbn [fst snd].
    + intros q' fk r need [[Hdc|[Hqc|Hpc]]|HEr] Hne; [left; left|left; right; left|left; right; right|right; by apply HE].
      * rewrite Hd2, Hdy. by eapply deferred_more_cover.
      * apply queue_cover_app. by left.
      * done.
    + intros fk need [[Hdc|[Hqc|Hpc]]|HEr] Ho Hn; [left; left|left; right; left|left; right; right|right; by eapply Hkeep].
      * rewrite Hd2, Hdy. by eapply deferred_more_cover.
      * apply queue_cover_app. by left.
      * done.
    + intros q' fk r need Hdc. left. by left.
    + intros q' ql fk r k Hql Hfk Ht Hk Hne. left. right. left. apply queue_cover_app. right. apply queue_cover_one.
      apply (lost_key x q l q' ql); try done. by eapply (st_typed _ _ _ Hst).
  - cbn [fst snd]. rewrite Hc2, Hcy. apply Forall_app. split; [done|]. constructor; [|constructor].
    exists (meta l). split; [apply Hst|]. split; [by eapply Hst|done].
  - rewrite Hc2, Hcy. split; [done|]. exists l'. rewrite Hl', Hly. split; [done|]. destruct Hch as [Hmeta Hrows].
    split; [done|]. intros r v Hr Hv. rewrite Hrows. rewrite decide_False.
    + rewrite decide_False; [done|]. congruence.
    + intros ->. specialize (Hfresh rid' new v eq_refl Hv). congruence.
Qed.

(** ** New values *)

Lemma row_value_insert row a v b : row_value (BTreeMap.insert row a v) b = if decide (b = a) then v else row_value row b.
Proof. unfold row_value. rewrite BTreeMap.get_insert. by case_decide. Qed.

Lemma key_typed_null ty : key_typed ty VNull.
Proof. destruct ty; by try left. Qed.

Lemma typed_insert t row a v :
  typed_row t row -> (forall col, column t a = Ok (Some col) -> key_typed (column_ty col) v) ->
  typed_row t (BTreeMap.insert row a v).
Proof. intros Hr Hv b col Hc. rewrite row_value_insert. case_decide; subst; auto. Qed.

Lemma coerce_col_key v t a w :
  coerce_to_col v t a = Ok w ->
  exists col, column t a = Ok (Some col) /\ coerce_to v (column_ty col) a = Ok w /\ key_typed (column_ty col) w.
Proof.
  unfold coerce_to_col. destruct (column t a) as [[col|]|]; [|done..]. cbn [ok_or]. intros Hc. exists col.
  split; [done|]. split; [done|]. by apply coerce_key in Hc.
Qed.

Lemma coerced_typed v t a w :
  coerce_to_col v t a = Ok w -> forall col, column t a = Ok (Some col) -> key_typed (column_ty col) w.
Proof. intros (col' & Hc & _ & Hk)%coerce_col_key col Hcol. rewrite Hcol in Hc. by injection Hc as <-. Qed.

Lemma coerce_same_key parent child v a w :
  key_typed parent v -> same_keys parent child = true -> value_is_null v = false ->
  coerce_to v child a = Ok w -> ordered_part w = ordered_part v.
Proof.
  intros Hk Hs Hn. unfold coerce_to. rewrite Hn.
  assert (Hint : forall n, holds_integer v n -> (i32_min <= n <= i32_max)%Z -> is_integer child = true ->
    match cast child v with
    | Ok v => Ok v
    | Err (Raise _) => raise (DatatypeMismatch a (name child) (name (type_of v)))
    | Err Panic => Err Panic
    end = Ok w -> ordered_part w = ordered_part v).
  { intros n Hv Hr Hi. rewrite (cast_safe_integer v n child Hv Hi); [|unfold safe_integer, i32_min, i32_max in *; lia].
    case_decide; [|done]. intros [= <-]. destruct Hv as [->|[->| ->]]; by destruct child. }
  destruct parent; try done; (destruct Hk as [->|Hk]; [done|]).
  - destruct Hk as (n & -> & Hr). apply (Hint n); [by left| |by destruct child].
    unfold in_int_range, int_range, fst, snd, i16_min, i16_max, i32_min, i32_max in *. lia.
  - destruct Hk as (n & -> & Hr). apply (Hint n); [by right; left|done|by destruct child].
  - destruct Hk as (s' & ->). destruct child; try done. by intros [= <-].
  - destruct Hk as (u & ->). destruct child; try done. by intros [= <-].
Qed.

(** ** What may change of the catalog: its sequences *)

Record reseq (x x' : Exec) : Prop := {
  reseq_loaded : loaded x' = loaded x;
  reseq_tables : tables (catalog x') = tables (catalog x);
  reseq_deferred : deferred_checks x' = deferred_checks x
}.

Lemma reseq_refl x : reseq x x.
Proof. done. Qed.

Lemma reseq_trans x y z : reseq x y -> reseq y z -> reseq x z.
Proof. intros [? ? ?] [? ? ?]. split; congruence. Qed.

Lemma schema_ok_tables c c' : tables c' = tables c -> schema_ok c -> schema_ok c'.
Proof.
  intros Ht [Hs Hd]. split; [by rewrite Ht|]. unfold get_table in *. rewrite Ht. intros q t Hq.
  destruct (Hd q t Hq) as [? ? ? ? ? Hf]. split; [done..|]. eapply Forall_impl; [exact Hf|].
  intros fk [? ? ? ? ? Hr Hc]. split; try done; unfold get_table in *; by rewrite Ht.
Qed.

Lemma db_ok_reseq x x' : reseq x x' -> db_ok x -> db_ok x'.
Proof.
  intros [Hl Ht _] [Hs Hd]. split; [by eapply schema_ok_tables|]. rewrite Hl. intros q l Hq.
  destruct (Hd q l Hq) as [? ? ? ? ? ?]. split; try done. unfold get_table in *. by rewrite Ht.
Qed.

Lemma integrity_reseq x x' C : loaded x' = loaded x -> integrity x C -> integrity x' C.
Proof.
  intros Hl Hi q l fk r row need. rewrite Hl. intros Hq Hfk Hp Hr Hn.
  destruct (Hi q l fk r row need) as [Hs|?]; [done..| |by right]. left.
  destruct need; [|done]. unfold satisfied, has_parent in *. by rewrite Hl.
Qed.

Lemma work_ok_tables c c' w : tables c' = tables c -> work_ok c w -> work_ok c' w.
Proof. intros Ht. unfold work_ok, get_table. by rewrite Ht. Qed.

Lemma ri_inv_reseq x x' queue checks E :
  reseq x x' -> ri_inv (x, queue, checks) E -> ri_inv (x', queue, checks) E.
Proof.
  intros Hq [Hd Hi Hw]. pose proof Hq as [Hl Ht Hde]. split; cbn [fst snd] in *.
  - by eapply db_ok_reseq.
  - unfold state_cover in *. rewrite Hde. by eapply integrity_reseq.
  - eapply Forall_impl; [exact Hw|]. intros w. by apply work_ok_tables.
Qed.

(** ** Row keys *)

Definition same_outside (fk : ForeignKey) (old new : RowValues) : Prop :=
  forall a, a ∉ fk_columns fk -> row_value new a = row_value old a.

Lemma row_key_exact_outside c q t fk old new :
  table_def_ok c q t -> fk_ok c t fk -> typed_row t old -> typed_row t new -> same_outside fk old new ->
  row_key_exact t old new.
Proof.
  intros Hd Hfk Ho Hn Hout Heq. unfold row_key, ordered_key in Heq. destruct (fk_keys _ _ _ Hfk) as [Hone|Hpl].
  - destruct (fk_columns fk) as [|a [|]] eqn:Ec; try done.
    assert (Ha : a ∈ column_names t) by (apply (fk_known _ _ _ Hfk); rewrite Ec; left).
    unfold column_names in Ha. apply list_elem_of_fmap in Ha as (col & -> & (l1 & l2 & Hs)%list_elem_of_split).
    pose proof (def_distinct _ _ _ Hd) as Hnd. unfold column_names in Hnd.
    unfold row_tuple in *. rewrite Hs in *.
    assert (Hother : forall l : list Column, (forall c, c ∈ l -> column_name c <> column_name col) ->
      ordered_part <$> ((fun c => row_value new (column_name c)) <$> l) =
      ordered_part <$> ((fun c => row_value old (column_name c)) <$> l)).
    { intros l Hl. rewrite <- !list_fmap_compose. apply list_fmap_ext. intros i c' Hc'. simpl. f_equal. apply Hout.
      rewrite Ec, list_elem_of_singleton. by eapply Hl, list_elem_of_lookup_2. }
    rewrite fmap_app, fmap_cons in Hnd. apply NoDup_app in Hnd as (_ & Hd1 & Hd2). apply NoDup_cons in Hd2 as [Hd2 _].
    assert (E1 : forall c, c ∈ l1 -> column_name c <> column_name col).
    { intros c' Hc' He. apply (Hd1 (column_name c')); [by apply list_elem_of_fmap_2|]. rewrite He. left. }
    assert (E2 : forall c, c ∈ l2 -> column_name c <> column_name col).
    { intros c' Hc' He. apply Hd2. rewrite <- He. by apply list_elem_of_fmap_2. }
    apply Hother in E1, E2. rewrite !fmap_app, !fmap_cons, E1, E2 in Heq |- *.
    apply join_differs_once in Heq. by rewrite Heq.
  - apply join_mixed; [|done]. unfold row_tuple. rewrite <- !list_fmap_compose.
    apply Forall2_fmap, Forall_Forall2_diag, Forall_true. intros col. simpl.
    destruct (decide (column_name col ∈ fk_columns fk)) as [Hin|Hin]; [|left; by rewrite Hout].
    rewrite Forall_forall in Hpl. destruct (Hpl _ Hin) as (col' & Hc' & Hty).
    right. split; eapply key_typed_plain; eauto.
Qed.
End actions.
