(* ===== verification/ForeignKeyLoop.v ===== *)
(** * The loop over referential actions

    Every action leaves the child rows with what they owe, or with checks and
    work that cover them; the loop and the checks at its end leave integrity up
    to the deferred checks, and those give integrity. *)

From S2P Require Import Prelude BTree Json Utf8 RustString RustFloat FloatExact SqlTypes Fts FtsInv SqlValue SqlTyping SqlConvert OrdMap Lock SqlCatalog TableStore TableStoreInv SqlExec SqlTrigger ForeignKeys ForeignKeysInv ForeignKeyActions.

Section loop.
Context `{!Foreign, !ForeignText, !ForeignKeyText, !SqlSyntax, !Evaluator, !Earlier}.

Abbreviation RiState := (Exec * list RiWork * list PendingCheck)%type.

(** ** Rewriting the matching children *)

Definition for_key (q : QualifiedName) (fk : ForeignKey) (k : string) : Cover :=
  fun q' fk' _ need => q' = q /\ fk' = fk /\ need = NeedKey k.

Definition remaining (q : QualifiedName) (fk : ForeignKey) (k : string) (l : list (string * RowValues)) : Cover :=
  fun q' fk' r need => for_key q fk k q' fk' r need /\ r ∈ l.*1.

(** A cover that does not look at the row. *)
Definition any_row (B : Cover) : Prop := forall q fk r r' need, B q fk r need -> B q fk r' need.

(** What an action may make of a child row: its key is no longer [k], or [B] covers it. *)
Definition rewriter_ok (c : Catalog) (q : QualifiedName) (t : Table) (fk : ForeignKey) (k : string) (B : Cover)
    (rewrite : Exec -> RowValues -> res (Exec * RowValues)) : Prop :=
  forall x l row x1 new, tables (catalog x) = tables c -> loaded x !! q = Some l -> meta l = t -> typed_row t row ->
    rewrite x row = Ok (x1, new) ->
    reseq x x1 /\ typed_row t new /\ same_outside fk row new /\
    (fk_need fk new <> Some (NeedKey k) \/ forall r, B q fk r (NeedKey k)).

Lemma rewrite_loop c q t fk k B rewrite children x queue checks l x' queue' :
  rewriter_ok c q t fk k B rewrite -> any_row B -> schema_ok c -> get_table c q = Some t -> fk ∈ table_foreign_keys t ->
  tables (catalog x) = tables c -> loaded x !! q = Some l -> meta l = t -> NoDup children.*1 ->
  (forall rid row, (rid, row) ∈ children -> BTreeMap.get (rows l) rid = Some row) ->
  ri_inv (x, queue, checks) (either B (remaining q fk k children)) ->
  try_fold (fun xq child => let? xn := rewrite xq.1 child.2 in
    ri_update_child xn.1 q child.1 child.2 xn.2 xq.2) (x, queue) children = Ok (x', queue') ->
  ri_inv (x', queue', checks) B /\ tables (catalog x') = tables c.
Proof.
  intros Hrw HB Hs Ht Hfk. revert x queue l.
  induction children as [|[rid row] rest IH]; intros x queue l Htab Hl Hm Hnd Hrows Hinv; cbn [try_fold].
  { intros [= <- <-]. split; [|done]. eapply ri_inv_mono; [exact Hinv|]. intros q' l' f r v need _ _ _ _ [?|[_ Hr]].
    - right. by right.
    - by apply not_elem_of_nil in Hr. }
  cbn [fst snd]. destruct (rewrite x row) as [[x1 new]|] eqn:Er; [|done]. cbn [fst snd].
  assert (Hrow : BTreeMap.get (rows l) rid = Some row) by (apply Hrows; left).
  assert (Hty : typed_row t row).
  { rewrite <- Hm. by eapply (st_typed _ _ _ (db_tables _ (inv_db _ _ Hinv) q l Hl)). }
  destruct (Hrw x l row x1 new) as (Hq & Hnew & Hout & Hgone); [done..|].
  destruct (ri_update_child x1 q rid row new queue) as [[x2 queue2]|] eqn:Eu; [|done]. intros Hrest.
  apply NoDup_cons in Hnd as [Hrid Hnd].
  destruct (ri_update_child_ok x1 queue checks q rid row new l
    (either B (remaining q fk k ((rid, row) :: rest))) (either B (remaining q fk k rest)) x2 queue2)
    as (Hinv2 & Hc2 & l2 & Hl2 & Hm2 & Hkeep); [..|done|].
  - by eapply ri_inv_reseq.
  - by rewrite (reseq_loaded _ _ Hq).
  - done.
  - by rewrite Hm.
  - rewrite Hm. apply (row_key_exact_outside c q t fk); [by apply Hs|by eapply table_fk_ok|done..].
  - intros q' f r need [?|[(-> & -> & ->) Hr]] Hne; [by left|]. right. split; [done|].
    csimpl in Hr. apply elem_of_cons in Hr as [->|?]; [|done]. by destruct Hne.
  - intros rid' f need [?|[(_ & -> & ->) Hr]] Ho Hn; [left; by eapply HB|]. left. destruct Hgone as [?|?]; [done|auto].
  - apply (IH x2 queue2 l2); [| |congruence|done| |done|done].
    + by rewrite Hc2, (reseq_tables _ _ Hq).
    + by rewrite Hl2, lookup_insert_eq.
    + intros r v Hr. apply Hkeep; [|apply Hrows; by right]. intros ->. apply Hrid.
      apply list_elem_of_fmap. by exists (rid, v).
Qed.

(** The parent row whose key the children have. *)
Definition key_of (c : Catalog) (fk : ForeignKey) (k : string) : Prop :=
  exists pt prow, get_table c (fk_target fk) = Some pt /\ typed_row pt prow /\
    composite_key (ref_values fk prow) = Some k.

Lemma children_of x q l fk k :
  db_ok x -> loaded x !! q = Some l -> fk ∈ table_foreign_keys (meta l) -> key_of (catalog x) fk k ->
  NoDup (matching_children l fk k).*1 /\
  forall rid row, (rid, row) ∈ matching_children l fk k <->
    BTreeMap.get (rows l) rid = Some row /\ composite_key (fk_values fk row) = Some k.
Proof.
  intros Hdb Hl Hfk (pt & prow & Hpt & Hty & Hk). destruct (db_tables _ Hdb _ _ Hl) as [Hm Hok Ht _ _ _].
  apply (matching_children_spec l fk (ref_values fk prow) k Hok Hk). intros rid row Hr.
  apply separable_sym. apply (parent_separable (catalog x) q (meta l) fk pt); [apply Hdb|done..|by eapply Ht|done].
Qed.

Lemma rewrite_children_ok x queue checks q fk k B rewrite t st' :
  get_table (catalog x) q = Some t -> fk ∈ table_foreign_keys t -> key_of (catalog x) fk k ->
  rewriter_ok (catalog x) q t fk k B rewrite -> any_row B ->
  ri_inv (x, queue, checks) (either B (for_key q fk k)) ->
  ri_rewrite_children (x, queue, checks) q fk k rewrite = Ok st' ->
  ri_inv st' B /\ tables (catalog st'.1.1) = tables (catalog x) /\ st'.2 = checks.
Proof.
  intros Ht Hfk Hkey Hrw HB Hinv. pose proof (inv_db _ _ Hinv) as Hdb. cbn [fst] in Hdb.
  unfold ri_rewrite_children, fk_matching_children, fk_loaded.
  destruct (loaded x !! q) as [l|] eqn:El; [|done]. cbn [ok_or].
  assert (Hm : meta l = t).
  { pose proof (st_meta _ _ _ (db_tables _ Hdb q l El)) as Hm. rewrite Ht in Hm. by injection Hm as ->. }
  destruct (children_of x q l fk k) as [Hnd Hch]; [done..|by rewrite Hm|done|].
  destruct (try_fold _ (x, queue) _) as [[x' queue']|] eqn:Ef; [|done]. intros [= <-]. cbn [fst snd].
  destruct (rewrite_loop (catalog x) q t fk k B rewrite (matching_children l fk k) x queue checks l x' queue')
    as [? ?]; try done.
  - apply Hdb.
  - by intros rid row [? _]%Hch.
  - eapply ri_inv_mono; [exact Hinv|]. cbn [fst]. intros q' l' f r row need Hq' Hf Hr Hn [?|(-> & -> & ->)].
    { right. right. by left. }
    right. right. right. split; [done|]. rewrite El in Hq'. injection Hq' as <-. apply list_elem_of_fmap.
    exists (r, row). split; [done|]. apply Hch. split; [done|]. by apply need_key.
Qed.

(** ** The actions on a row *)

(** A loop that sets columns of the key, one after the other. *)
Lemma set_loop {A} (f : Exec * RowValues -> A -> res (Exec * RowValues)) (col_of : A -> string) t fk l x row x' row' :
  (forall x row a x1 row1, f (x, row) a = Ok (x1, row1) -> typed_row t row -> loaded x !! table_qualified t <> None ->
     reseq x x1 /\ exists v, row1 = BTreeMap.insert row (col_of a) v /\
       forall col, column t (col_of a) = Ok (Some col) -> key_typed (column_ty col) v) ->
  Forall (fun a => col_of a ∈ fk_columns fk) l -> typed_row t row -> loaded x !! table_qualified t <> None ->
  try_fold f (x, row) l = Ok (x', row') -> reseq x x' /\ typed_row t row' /\ same_outside fk row row'.
Proof.
  intros Hf Hl. revert x row. induction Hl as [|a l Ha Hl IH]; intros x row Hty Hld; cbn [try_fold].
  { intros [= <- <-]. done. }
  destruct (f (x, row) a) as [[x1 row1]|] eqn:E; [|done]. intros Hrest.
  destruct (Hf x row a x1 row1) as (Hq & v & -> & Hv); [done..|].
  destruct (IH x1 (BTreeMap.insert row (col_of a) v)) as (Hq' & Hty' & Hout); [|by rewrite (reseq_loaded _ _ Hq)|done|].
  { by apply typed_insert. }
  split; [by eapply reseq_trans|]. split; [done|]. intros b Hb. rewrite Hout, row_value_insert by done.
  rewrite decide_False; [done|]. by intros ->.
Qed.

(** *** SET NULL *)

Lemma nulls_value row (cols : list string) a :
  row_value (set_columns row ((fun c => (c, VNull)) <$> cols)) a =
  if decide (a ∈ cols) then VNull else row_value row a.
Proof.
  unfold set_columns. revert row. induction cols as [|b cols IH]; intros row; [done|].
  rewrite fmap_cons. cbn [foldl fst snd]. rewrite IH, row_value_insert.
  destruct (decide (a ∈ cols)); [by rewrite (decide_True (P := a ∈ b :: cols)) by by right|].
  destruct (decide (a = b)) as [->|Hne]; [by rewrite (decide_True (P := b ∈ b :: cols)) by left|].
  rewrite (decide_False (P := a ∈ b :: cols)); [done|]. by intros [?|?]%elem_of_cons.
Qed.

Lemma null_values fk row :
  fk_values fk (set_columns row ((fun c => (c, VNull)) <$> fk_columns fk)) = replicate (length (fk_columns fk)) VNull.
Proof.
  unfold fk_values. apply list_eq. intros i. rewrite list_lookup_fmap.
  destruct (fk_columns fk !! i) as [a|] eqn:E; simpl.
  - rewrite nulls_value, decide_True by by eapply list_elem_of_lookup_2.
    symmetry. apply lookup_replicate_2. by eapply lookup_lt_Some.
  - symmetry. apply lookup_replicate_None. by apply lookup_ge_None.
Qed.

Lemma null_count_nulls n : null_count (replicate n VNull) = n.
Proof. induction n as [|n IH]; [done|]. unfold null_count in *. simpl. by rewrite IH. Qed.

Lemma to_nulls_ok c q t fk k B : fk_ok c t fk -> rewriter_ok c q t fk k B (to_nulls fk).
Proof.
  intros Hfk x l row x1 new _ _ _ Hty [= <- <-]. split; [done|]. split; [|split].
  - intros a col Hc. rewrite nulls_value. case_decide; [apply key_typed_null|by apply Hty].
  - intros a Ha. by rewrite nulls_value, decide_False.
  - left. unfold fk_need. rewrite null_values, null_count_nulls, length_replicate.
    destruct (fk_match_type fk); [|by rewrite decide_True].
    pose proof (fk_nonempty _ _ _ Hfk). by destruct (fk_columns fk).
Qed.

(** *** SET DEFAULT *)

Lemma next_sequence_tables c sch nm n c' : next_sequence_value c sch nm = Ok (n, c') -> tables c' = tables c.
Proof. unfold next_sequence_value. destruct (OrdMap.get _ _); [|done]. by intros [= _ <-]. Qed.

Lemma ri_defaults_ok c q t fk k B :
  table_qualified t = q -> (forall r, B q fk r (NeedKey k)) ->
  rewriter_ok c q t fk k B (fun x r => ri_defaults_for x q fk r).
Proof.
  intros Hq HB x l row x1 new Ht Hl Hm Hty. unfold ri_defaults_for, fk_loaded. rewrite Hl. cbn [ok_or]. rewrite Hm.
  intros Hf. eapply (set_loop _ id t fk) in Hf as (Hq' & Hty' & Hout); [by auto|..].
  - clear. intros x row a x1 row1 Hstep Hty _. cbn [id].
    destruct (column t a) as [[col|]|] in Hstep; [|done..]. cbn [ok_or] in Hstep. revert Hstep.
    destruct (column_identity_sequence col) as [seq|].
    + destruct (next_sequence_value _ _ _) as [[n c']|] eqn:En; [|done]. cbn [fst snd].
      destruct (coerce_to_col _ t a) as [v|] eqn:Ev; [|done]. cbn [fst snd]. intros [= <- <-].
      split; [split; [done|by apply next_sequence_tables in En|done]|]. exists v. split; [done|].
      by apply (coerced_typed _ _ _ _ Ev).
    + destruct (column_default col) as [def|].
      * destruct (eval_default x def) as [v|]; [|done]. destruct (value_is_null v) eqn:Env.
        { cbn [fst snd]. intros [= <- <-]. split; [done|]. exists VNull. split; [done|].
          intros ? _. apply key_typed_null. }
        destruct (coerce_to_col v t a) as [w|] eqn:Ev; [|done]. cbn [fst snd]. intros [= <- <-].
        split; [done|]. exists w. split; [done|].
        by apply (coerced_typed _ _ _ _ Ev).
      * cbn [fst snd]. intros [= <- <-]. split; [done|]. exists VNull. split; [done|].
        intros ? _. apply key_typed_null.
  - by apply Forall_forall.
  - done.
  - by rewrite Hq, Hl.
Qed.

(** *** ON UPDATE CASCADE *)

Definition new_key_step (t : Table) (vals : list SqlValue) (row : RowValues) (ic : nat * string) : res RowValues :=
  let v := default VNull (vals !! ic.1) in
  let? v := if value_is_null v then Ok VNull else coerce_to_col v t ic.2 in
  Ok (BTreeMap.insert row ic.2 v).

Lemma new_key_step_ok t vals row ic row' :
  (forall col, column t ic.2 = Ok (Some col) ->
     exists pty, key_typed pty (default VNull (vals !! ic.1)) /\ same_keys pty (column_ty col) = true) ->
  new_key_step t vals row ic = Ok row' ->
  exists w, row' = BTreeMap.insert row ic.2 w /\ ordered_part w = ordered_part (default VNull (vals !! ic.1)) /\
    forall col, column t ic.2 = Ok (Some col) -> key_typed (column_ty col) w.
Proof.
  intros Hcol. unfold new_key_step. set (v := default VNull (vals !! ic.1)) in *.
  destruct (value_is_null v) eqn:En.
  - intros [= <-]. exists VNull. split; [done|]. split; [by destruct v|]. intros col _. apply key_typed_null.
  - destruct (coerce_to_col v t ic.2) as [w|] eqn:E; [|done]. intros [= <-]. exists w. split; [done|].
    split; [|by apply (coerced_typed _ _ _ _ E)].
    apply coerce_col_key in E as (col & Hc & Hw & _). destruct (Hcol col Hc) as (pty & Hk & Hs).
    by eapply coerce_same_key.
Qed.

Lemma new_key_loop t vals l row row' :
  Forall (fun ic => forall col, column t ic.2 = Ok (Some col) ->
    exists pty, key_typed pty (default VNull (vals !! ic.1)) /\ same_keys pty (column_ty col) = true) l ->
  NoDup l.*2 -> typed_row t row -> try_fold (new_key_step t vals) row l = Ok row' ->
  typed_row t row' /\ (forall a, a ∉ l.*2 -> row_value row' a = row_value row a) /\
  Forall (fun ic => ordered_part (row_value row' ic.2) = ordered_part (default VNull (vals !! ic.1))) l.
Proof.
  intros Hl. revert row. induction Hl as [|ic l Hic Hl IH]; intros row Hnd Hty; cbn [try_fold].
  { by intros [= <-]. }
  destruct (new_key_step t vals row ic) as [row1|] eqn:E; [|done]. intros Hrest.
  apply new_key_step_ok in E as (w & -> & Hw & Hk); [|done]. rewrite fmap_cons in *. apply NoDup_cons in Hnd as [Hnew Hnd].
  destruct (IH (BTreeMap.insert row ic.2 w)) as (Hty' & Hout & Hall); [done|by apply typed_insert|done|].
  split; [done|]. split.
  - intros a [Ha Ha']%not_elem_of_cons. by rewrite Hout, row_value_insert, decide_False.
  - constructor; [|done]. by rewrite Hout, row_value_insert, decide_True.
Qed.

Lemma to_new_key_ok c q t fk k B pt old new :
  fk_ok c t fk -> fk_on_update fk = Cascade -> get_table c (fk_target fk) = Some pt -> typed_row pt new ->
  composite_key (ref_values fk old) = Some k -> ordered_key (ref_values fk old) <> ordered_key (ref_values fk new) ->
  rewriter_ok c q t fk k B (to_new_key t fk (ref_values fk new)).
Proof.
  intros Hfk Hup Hpt Hnew Hk Hne x l row x1 row1 _ _ _ Hty. unfold to_new_key.
  set (vals := ref_values fk new) in *.
  match goal with |- context [try_fold ?f row ?l] => change f with (new_key_step t vals); set (ics := l) end.
  assert (Hsnd : ics.*2 = fk_columns fk) by
    (apply list_eq; intros i; unfold ics; rewrite list_lookup_fmap, list_lookup_imap; by destruct (fk_columns fk !! i)).
  assert (Hics : forall i a, (i, a) ∈ ics <-> fk_columns fk !! i = Some a).
  { intros i a. unfold ics. rewrite list_elem_of_lookup. setoid_rewrite list_lookup_imap.
    setoid_rewrite fmap_Some. naive_solver. }
  destruct (try_fold (new_key_step t vals) row ics) as [row2|] eqn:Ef; [|done]. intros [= <- <-].
  destruct (new_key_loop t vals ics row row2) as (Hty' & Hout & Hall); [|by rewrite Hsnd; apply Hfk|done..|].
  { apply Forall_forall. intros [i a] Hi%Hics col Hcol. cbn [fst snd] in *.
    pose proof (fk_cascades _ _ _ Hfk pt Hpt Hup) as Hc.
    destruct (Forall2_lookup_l _ _ _ _ _ Hc Hi) as (rc & Hrc & col' & pcol & Hcol' & Hpcol & Hs).
    rewrite Hcol in Hcol'. injection Hcol' as <-. exists (column_ty pcol). split; [|done].
    unfold vals, ref_values. rewrite list_lookup_fmap, Hrc. simpl. by apply Hnew. }
  rewrite Hsnd in Hout. split; [done|]. split; [done|]. split; [done|]. left. intros Hn%need_key.
  apply Hne. rewrite (composite_ordered _ _ Hk), <- (composite_ordered _ _ Hn). unfold ordered_key. f_equal.
  apply list_eq. intros i. unfold fk_values. rewrite !list_lookup_fmap. rewrite Forall_forall in Hall.
  destruct (fk_columns fk !! i) as [a|] eqn:Ei; simpl.
  - pose proof (Hall (i, a) (proj2 (Hics i a) Ei)) as Hp. cbn [fst snd] in Hp. rewrite Hp.
    pose proof (fk_arity _ _ _ Hfk) as Ha. apply lookup_lt_Some in Ei.
    destruct (vals !! i) as [v|] eqn:Ev; [done|]. exfalso. apply lookup_ge_None in Ev. unfold vals, ref_values in Ev.
    rewrite length_fmap in Ev. lia.
  - apply lookup_ge_None in Ei. destruct (vals !! i) as [v|] eqn:Ev; [|done]. exfalso.
    apply lookup_lt_Some in Ev. unfold vals, ref_values in Ev. rewrite length_fmap, <- (fk_arity _ _ _ Hfk) in Ev. lia.
Qed.

(** *** ON DELETE CASCADE *)

Lemma delete_integrity x x' q l rid old C C' :
  integrity x C -> loaded x !! q = Some l -> BTreeMap.get (rows l) rid = Some old ->
  wrote x x' q l (Some rid) None ->
  (forall q' fk r need, C q' fk r need -> ~ (q' = q /\ r = rid) -> C' q' fk r need) ->
  (forall q' ql fk r k, loaded x !! q' = Some ql -> fk ∈ table_foreign_keys (meta ql) -> fk_target fk = q ->
     composite_key (ref_values fk old) = Some k -> C' q' fk r (NeedKey k)) ->
  integrity x' C'.
Proof.
  intros Hi Hl Hold [_ _ _ (l' & Hl' & Hch) _] HC Hlost.
  eapply (integrity_change x x' q l l' (Some rid) None C C'); try done.
  - intros q' fk r need Hc Hne. apply (HC q' fk r need Hc). intros [-> ->]. by apply Hne.
  - intros r o q' ql fk r' k [= <-] Ho Hq' Hfk Ht Hk _. rewrite Hold in Ho. injection Ho as <-. by eapply Hlost.
Qed.

Lemma cascade_loop c q t fk k B depth children x queue checks l x' queue' :
  schema_ok c -> get_table c q = Some t -> tables (catalog x) = tables c -> loaded x !! q = Some l -> meta l = t ->
  NoDup children.*1 -> (forall rid row, (rid, row) ∈ children -> BTreeMap.get (rows l) rid = Some row) ->
  ri_inv (x, queue, checks) (either B (remaining q fk k children)) ->
  try_fold (ri_cascade_delete q (Some t) depth) (x, queue) children = Ok (x', queue') ->
  ri_inv (x', queue', checks) B /\ tables (catalog x') = tables c.
Proof.
  intros Hs Ht. pose proof (schema_tables _ Hs q t Ht) as Hdef. revert x queue l.
  induction children as [|[rid row] rest IH]; intros x queue l Htab Hl Hm Hnd Hrows Hinv; cbn [try_fold].
  { intros [= <- <-]. split; [|done]. eapply ri_inv_mono; [exact Hinv|]. intros q' l' f r v need _ _ _ _ [?|[_ Hr]].
    - right. by right.
    - by apply not_elem_of_nil in Hr. }
  unfold ri_cascade_delete at 1. rewrite (def_no_triggers _ _ _ Hdef). cbn [existsb fst snd].
  unfold ri_delete_child, fk_loaded. rewrite Hl. cbn [ok_or]. intros Hrest.
  match goal with Hr : try_fold _ (?y, ?w) rest = _ |- _ => set (x1 := y) in Hr; set (queue1 := w) in Hr end.
  assert (Hrow : BTreeMap.get (rows l) rid = Some row) by (apply Hrows; left).
  apply NoDup_cons in Hnd as [Hrid Hnd]. destruct Hinv as [Hdb Hi Hw]. cbn [fst snd] in *.
  pose proof (delete_row_ok x x1 q l rid Hdb Hl eq_refl eq_refl eq_refl) as Hwr.
  apply (IH x1 queue1 (apply_delete l rid)); [done|by apply lookup_insert_eq| |done| | |done].
  - by rewrite (proj1 (delete_changed l rid)).
  - intros r v Hr. rewrite (proj2 (delete_changed l rid)). rewrite decide_False; [apply Hrows; by right|].
    intros [= ->]. apply Hrid. apply list_elem_of_fmap. by exists (rid, v).
  - split; cbn [fst snd].
    + apply Hwr.
    + eapply (delete_integrity x x1 q l rid row); [exact Hi|done..| |].
      * intros q' f r need [[Hd|[Hq|Hp]]|[HB|[(-> & -> & ->) Hr]]] Hne.
        -- left. by left.
        -- left. right. left. apply queue_cover_app. by left.
        -- left. right. by right.
        -- right. by left.
        -- right. right. split; [done|]. csimpl in Hr. apply elem_of_cons in Hr as [->|?]; [|done]. by destruct Hne.
      * intros q' ql f r key Hq' Hf Htg Hk. left. right. left. apply queue_cover_app. right. apply queue_cover_one.
        by exists key.
    + apply Forall_app. split; [done|]. constructor; [|constructor]. exists (meta l).
      pose proof (db_tables _ Hdb q l Hl) as Hst. split; [apply Hst|by eapply Hst].
Qed.

(** ** The actions of an item *)

Lemma referencing_spec c p q fk :
  schema_ok c -> (q, fk) ∈ referencing_foreign_keys c p <->
  fk_target fk = p /\ exists t, get_table c q = Some t /\ fk ∈ table_foreign_keys t.
Proof.
  intros [Hsort Hs]. unfold referencing_foreign_keys. rewrite list_elem_of_join. setoid_rewrite list_elem_of_fmap.
  assert (Href : forall fk, references p fk = true <-> fk_target fk = p).
  { intros f. unfold references, fk_target. rewrite andb_true_iff, !bool_decide_eq_true. destruct p as [ps pn]. simpl.
    split; [by intros [-> ->]|by intros [= -> ->]]. }
  split.
  - intros (l & Hin & [q' t] & -> & Ht). apply list_elem_of_fmap in Hin as (f & [= -> ->] & Hf).
    apply list_elem_of_filter in Hf as [Hr Hf]. apply Href in Hr. split; [done|]. cbn [fst snd] in *.
    apply OrdMap.ord_elem_get in Ht; [|done]. exists t. rewrite (def_name _ _ _ (Hs q' t Ht)). done.
  - intros (Hp & t & Ht & Hf). eexists. split; [|exists (q, t); split; [done|by apply OrdMap.ord_get_Some_elem]].
    apply list_elem_of_fmap. exists fk. cbn [snd]. rewrite (def_name _ _ _ (Hs q t Ht)). split; [done|].
    apply list_elem_of_filter. split; [by apply Href|done].
Qed.

(** The children that an item of work still has to visit. *)
Definition todo (item : RiWork) (cfs : list (QualifiedName * ForeignKey)) : Cover :=
  fun q fk r need => (q, fk) ∈ cfs /\ work_cover item q fk r need.

Lemma todo_any_row item cfs : any_row (todo item cfs).
Proof. by intros q fk r r' need [? ?]. Qed.

Lemma add_pending x queue checks p q fk k vals B :
  fk_target fk = p -> ri_inv (x, queue, checks) (either B (for_key q fk k)) ->
  ri_inv (x, queue, checks ++ [mk_pending p q fk k vals]) B.
Proof.
  intros Hp [Hd Hi Hw]. split; [done| |done]. cbn [fst snd] in *. eapply integrity_mono; [exact Hi|].
  intros q' l f r row need _ _ _ _ [[?|[?|(c & Hc & ?)]]|[?|(-> & -> & ->)]]; right.
  - left. by left.
  - left. right. by left.
  - left. right. right. exists c. split; [|done]. apply elem_of_app. by left.
  - by right.
  - left. right. right. eexists. split; [apply elem_of_app; right; left|]. done.
Qed.

Lemma queue_or_check_ok st p q fk k vals B :
  fk_target fk = p -> ri_inv st (either B (for_key q fk k)) ->
  ri_inv (ri_queue_or_check st p q fk k vals) B /\
  tables (catalog (ri_queue_or_check st p q fk k vals).1.1) = tables (catalog st.1.1).
Proof.
  destruct st as [[x queue] checks]. intros Hp Hinv. unfold ri_queue_or_check.
  destruct (fk_is_deferred x q fk); (split; [|done]); [|by apply add_pending].
  destruct Hinv as [Hd Hi Hw]. split; cbn [fst snd] in *; [|..|done].
  - apply (db_ok_more x); [|done]. split; [done..|]. by eexists.
  - eapply integrity_reseq; [|eapply integrity_mono; [exact Hi|]]; [done|].
    intros q' l f r row need _ _ _ _ [[?|[?|?]]|[?|(-> & -> & ->)]]; right.
    + left. left. by apply deferred_cover_app.
    + left. right. by left.
    + left. right. by right.
    + by right.
    + left. left. by apply deferred_cover_last.
Qed.

Lemma todo_split st item q fk cfs k :
  ri_inv st (todo item ((q, fk) :: cfs)) ->
  (forall r need, work_cover item q fk r need -> need = NeedKey k) ->
  ri_inv st (either (todo item cfs) (for_key q fk k)).
Proof.
  intros Hinv Hk. eapply ri_inv_mono; [exact Hinv|]. intros q' l f r row need _ _ _ _ [Hin Hw]. right. right.
  apply elem_of_cons in Hin as [[= -> ->]|Hin]; [right|by left]. split; [done|]. split; [done|]. by eapply Hk.
Qed.

Lemma todo_skip st item q fk cfs :
  ri_inv st (todo item ((q, fk) :: cfs)) -> (forall r need, ~ work_cover item q fk r need) ->
  ri_inv st (todo item cfs).
Proof.
  intros Hinv Hk. eapply ri_inv_mono; [exact Hinv|]. intros q' l f r row need _ _ _ _ [Hin Hw]. right. right.
  apply elem_of_cons in Hin as [[= -> ->]|Hin]; [by destruct (Hk r need)|done].
Qed.

(** The invariant during an item: the child is visited with the key [k]. *)
Record visiting (x : Exec) (p q : QualifiedName) (fk : ForeignKey) (t pt : Table) : Prop := {
  visit_child : get_table (catalog x) q = Some t;
  visit_fk : fk ∈ table_foreign_keys t;
  visit_parent : get_table (catalog x) p = Some pt;
  visit_target : fk_target fk = p
}.

Lemma rewriting_ok x queue checks p q fk k t pt row B rewrite st' :
  visiting x p q fk t pt -> typed_row pt row -> composite_key (ref_values fk row) = Some k -> any_row B ->
  rewriter_ok (catalog x) q t fk k B rewrite ->
  ri_inv (x, queue, checks) (either B (for_key q fk k)) ->
  ri_rewrite_children (x, queue, checks) q fk k rewrite = Ok st' ->
  ri_inv st' B /\ tables (catalog st'.1.1) = tables (catalog x).
Proof.
  intros [Ht Hfk Hpt Htg] Hty Hk HB Hrw Hinv Hr.
  eapply rewrite_children_ok in Hr as (? & ? & _); [done|done|done| |done..]. exists pt, row. by rewrite Htg.
Qed.

(** SET DEFAULT leaves the key to be checked. *)
Lemma defaulting_ok x queue checks p q fk k vals t pt row B st' :
  visiting x p q fk t pt -> table_qualified t = q -> typed_row pt row ->
  composite_key (ref_values fk row) = Some k -> any_row B ->
  ri_inv (x, queue, checks) (either B (for_key q fk k)) ->
  (let? st := ri_rewrite_children (x, queue, checks) q fk k (fun x r => ri_defaults_for x q fk r) in
   Ok (ri_queue_or_check st p q fk k vals)) = Ok st' ->
  ri_inv st' B /\ tables (catalog st'.1.1) = tables (catalog x).
Proof.
  intros Hv Hq Hty Hk HB Hinv. destruct (ri_rewrite_children _ _ _ _ _) as [st|] eqn:E; [|done]. intros [= <-].
  eapply (rewriting_ok x queue checks p q fk k t pt row (either B (for_key q fk k))) in E as [Hst Htab]; try done.
  - destruct (queue_or_check_ok st p q fk k vals B) as [? Ht2]; [by apply Hv|done|]. split; [done|]. by rewrite Ht2.
  - intros q' f r r' need [?|?]; [left; by eapply HB|by right].
  - apply ri_defaults_ok; [done|]. intros r. by right.
  - eapply ri_inv_mono; [exact Hinv|]. intros. right. right. by left.
Qed.

Lemma ri_delete_action_ok p q fk t pt row depth cfs st st' :
  visiting st.1.1 p q fk t pt -> typed_row pt row ->
  ri_inv st (todo (WorkDeleted p row depth) ((q, fk) :: cfs)) ->
  ri_delete_action p row depth st (q, fk) = Ok st' ->
  ri_inv st' (todo (WorkDeleted p row depth) cfs) /\ tables (catalog st'.1.1) = tables (catalog st.1.1).
Proof.
  destruct st as [[x queue] checks]. cbn [fst]. intros Hv Hty Hinv. pose proof (inv_db _ _ Hinv) as Hdb. cbn [fst] in Hdb.
  pose proof Hv as [Ht Hfk Hpt Htg]. pose proof (schema_tables _ (db_schema _ Hdb) q t Ht) as Hdef.
  unfold ri_delete_action. destruct (composite_key (ref_values fk row)) as [k|] eqn:Ek.
  2: { intros [= <-]. split; [|done]. eapply todo_skip; [done|]. intros r need (k & _ & _ & Hk). congruence. }
  apply (todo_split _ _ _ _ _ k) in Hinv; [|intros r need (k' & -> & _ & Hk'); congruence].
  pose proof (todo_any_row (WorkDeleted p row depth) cfs) as HB. destruct (fk_on_delete fk).
  - intros [= <-]. by apply (queue_or_check_ok (x, queue, checks) p q fk k (ref_values fk row)).
  - intros [= <-]. split; [|done]. by apply add_pending.
  - rewrite Ht. unfold fk_matching_children, fk_loaded. destruct (loaded x !! q) as [l|] eqn:El; [|done]. cbn [ok_or].
    destruct (try_fold _ _ _) as [[x' queue']|] eqn:Ef; [|done]. intros [= <-]. cbn [fst snd].
    assert (Hm : meta l = t).
    { pose proof (st_meta _ _ _ (db_tables _ Hdb q l El)) as Hm. rewrite Ht in Hm. by injection Hm as ->. }
    destruct (children_of x q l fk k) as [Hnd Hch]; [done..|by rewrite Hm|exists pt, row; by rewrite Htg|].
    eapply (cascade_loop (catalog x) q t fk k) in Ef; [done|apply Hdb|done..|by intros rid v [? _]%Hch|].
    eapply ri_inv_mono; [exact Hinv|]. cbn [fst]. intros q' l' f r v need Hq' Hf Hr Hn [?|(-> & -> & ->)].
    { right. right. by left. }
    right. right. right. split; [done|]. rewrite El in Hq'. injection Hq' as <-. apply list_elem_of_fmap.
    exists (r, v). split; [done|]. apply Hch. split; [done|]. by apply need_key.
  - apply (rewriting_ok x queue checks p q fk k t pt row); try done. apply to_nulls_ok.
    eapply table_fk_ok; [apply Hdb|done|done].
  - apply (defaulting_ok x queue checks p q fk k _ t pt row); try done. apply Hdef.
Qed.

Lemma ri_update_action_ok p q fk t pt old new cfs st st' :
  visiting st.1.1 p q fk t pt -> typed_row pt old -> typed_row pt new ->
  ri_inv st (todo (WorkUpdated p old new) ((q, fk) :: cfs)) ->
  ri_update_action p old new st (q, fk) = Ok st' ->
  ri_inv st' (todo (WorkUpdated p old new) cfs) /\ tables (catalog st'.1.1) = tables (catalog st.1.1).
Proof.
  destruct st as [[x queue] checks]. cbn [fst]. intros Hv Hold Hnew Hinv.
  pose proof (inv_db _ _ Hinv) as Hdb. cbn [fst] in Hdb.
  pose proof Hv as [Ht Hfk Hpt Htg]. pose proof (schema_tables _ (db_schema _ Hdb) q t Ht) as Hdef.
  unfold ri_update_action. destruct (composite_key (ref_values fk old)) as [k|] eqn:Ek.
  2: { intros [= <-]. split; [|done]. eapply todo_skip; [done|]. intros r need (k & _ & _ & Hk & _). congruence. }
  case_decide as Hsame.
  { intros [= <-]. split; [|done]. eapply todo_skip; [done|]. by intros r need (k' & _ & _ & _ & Hne). }
  apply (todo_split _ _ _ _ _ k) in Hinv; [|intros r need (k' & -> & _ & Hk' & _); congruence].
  pose proof (todo_any_row (WorkUpdated p old new) cfs) as HB.
  assert (Hok : fk_ok (catalog x) t fk) by (eapply table_fk_ok; [apply Hdb|done|done]).
  destruct (fk_on_update fk) eqn:Eu.
  - intros [= <-]. by apply (queue_or_check_ok (x, queue, checks) p q fk k (ref_values fk old)).
  - intros [= <-]. split; [|done]. by apply add_pending.
  - unfold fk_loaded. cbn [fst]. destruct (loaded x !! q) as [l|] eqn:El; [|done]. cbn [ok_or].
    assert (Hm : meta l = t).
    { pose proof (st_meta _ _ _ (db_tables _ Hdb q l El)) as Hm. rewrite Ht in Hm. by injection Hm as ->. }
    rewrite Hm. apply (rewriting_ok x queue checks p q fk k t pt old); try done.
    by apply (to_new_key_ok (catalog x) q t fk k _ pt old); try done; rewrite Htg.
  - apply (rewriting_ok x queue checks p q fk k t pt old); try done. by apply to_nulls_ok.
  - apply (defaulting_ok x queue checks p q fk k _ t pt old); try done. apply Hdef.
Qed.

(** ** The loop *)

Lemma visit_all c p pt item (f : RiState -> QualifiedName * ForeignKey -> res RiState) cfs st st' :
  (forall q fk t cfs st st', visiting st.1.1 p q fk t pt -> ri_inv st (todo item ((q, fk) :: cfs)) ->
     f st (q, fk) = Ok st' -> ri_inv st' (todo item cfs) /\ tables (catalog st'.1.1) = tables (catalog st.1.1)) ->
  schema_ok c -> get_table c p = Some pt -> Forall (fun cf => cf ∈ referencing_foreign_keys c p) cfs ->
  tables (catalog st.1.1) = tables c -> ri_inv st (todo item cfs) -> try_fold f st cfs = Ok st' ->
  ri_inv st' (todo item []) /\ tables (catalog st'.1.1) = tables c.
Proof.
  intros Hf Hs Hp Hcfs. revert st. induction Hcfs as [|[q fk] cfs Hcf Hcfs IH]; intros st Ht Hinv; cbn [try_fold].
  { by intros [= <-]. }
  destruct (f st (q, fk)) as [st1|] eqn:E; [|done]. apply referencing_spec in Hcf as (Htg & t & Hq & Hfk); [|done].
  destruct (Hf q fk t cfs st st1) as [Hinv1 Ht1]; [|done..|].
  - split; try done; unfold get_table in *; by rewrite Ht.
  - apply IH; [by rewrite Ht1|done].
Qed.

(** Nothing is left to cover. *)
Definition nothing : Cover := fun _ _ _ _ => False.

Lemma todo_start x queue checks item p pt :
  get_table (catalog x) p = Some pt ->
  (forall q fk r need, work_cover item q fk r need -> fk_target fk = p) ->
  ri_inv (x, queue, checks) (work_cover item) ->
  ri_inv (x, queue, checks) (todo item (referencing_foreign_keys (catalog x) p)).
Proof.
  intros Hp Hw Hinv. pose proof (inv_db _ _ Hinv) as Hdb. eapply ri_inv_mono; [exact Hinv|].
  cbn [fst] in *. intros q l fk r row need Hl Hfk _ _ Hc. right. right. split; [|done].
  apply referencing_spec; [apply Hdb|]. split; [by eapply Hw|]. exists (meta l).
  split; [|done]. apply (st_meta _ _ _ (db_tables _ Hdb q l Hl)).
Qed.

Lemma ri_step_ok x queue checks item st' :
  ri_inv (x, queue, checks) (work_cover item) -> work_ok (catalog x) item ->
  ri_step (x, queue, checks) item = Ok st' ->
  ri_inv st' nothing /\ tables (catalog st'.1.1) = tables (catalog x).
Proof.
  intros Hinv Hw. pose proof (inv_db _ _ Hinv) as Hdb. cbn [fst] in Hdb.
  assert (Hend : forall st', ri_inv st' (todo item []) -> ri_inv st' nothing).
  { intros st Hst. eapply ri_inv_mono; [exact Hst|]. intros q l fk r row need _ _ _ _ [Hin _].
    by apply not_elem_of_nil in Hin. }
  assert (Hall : forall c p, Forall (fun cf => cf ∈ referencing_foreign_keys c p) (referencing_foreign_keys c p))
    by (intros; by apply Forall_forall).
  destruct item as [p row depth|p old new]; cbn [ri_step].
  - destruct Hw as (pt & Hpt & Hty). case_match; [done|]. intros Hf.
    eapply (todo_start x queue checks _ p pt) in Hinv; [|done|by intros q fk r need (k & _ & ? & _)].
    apply (visit_all (catalog x) p pt (WorkDeleted p row depth)) in Hf as [? ?];
      [by auto| |apply Hdb|done|apply Hall|done|done].
    intros q fk t cfs st st1 Hv. by apply (ri_delete_action_ok p q fk t pt).
  - destruct Hw as (pt & Hpt & Hold & Hnew). intros Hf.
    eapply (todo_start x queue checks _ p pt) in Hinv; [|done|by intros q fk r need (k & _ & ? & _)].
    apply (visit_all (catalog x) p pt (WorkUpdated p old new)) in Hf as [? ?];
      [by auto| |apply Hdb|done|apply Hall|done|done].
    intros q fk t cfs st st1 Hv. by apply (ri_update_action_ok p q fk t pt).
Qed.

Lemma ri_loop_ok steps x queue checks x' checks' :
  ri_inv (x, queue, checks) nothing -> ri_loop steps (x, queue, checks) = Ok (x', checks') ->
  ri_inv (x', [], checks') nothing /\ tables (catalog x') = tables (catalog x).
Proof.
  revert x queue checks. induction steps as [|steps IH]; intros x [|item queue] checks Hinv; cbn [ri_loop];
    try by intros [= <- <-].
  destruct (ri_step (x, queue, checks) item) as [[[x1 queue1] checks1]|] eqn:E; [|done]. intros Hrest.
  destruct Hinv as [Hdb Hi Hw]. cbn [fst snd] in *. apply Forall_cons in Hw as [Hitem Hw].
  apply ri_step_ok in E as [Hinv1 Ht1]; [| |done].
  - apply IH in Hrest as [? Ht]; [|done]. split; [done|]. by rewrite Ht.
  - split; cbn [fst snd]; [done| |done]. eapply integrity_mono; [exact Hi|].
    intros q l fk r row need _ _ _ _ [[?|[(w & Hin & Hc)|?]]|[]]; right.
    + left. by left.
    + apply elem_of_cons in Hin as [->|Hin]; [by right|]. left. right. left. by exists w.
    + left. right. by right.
Qed.

(** ** The checks *)

Lemma traverse_elem {A B} (f : A -> res B) l bs : traverse f l = Ok bs -> forall a, a ∈ l -> exists b, f a = Ok b.
Proof.
  revert bs. induction l as [|a l IH]; intros bs; cbn [traverse]; [by intros _ a ?%not_elem_of_nil|].
  destruct (f a) as [b|] eqn:E; [|done]. fold (traverse f). destruct (traverse f l) as [bs'|] eqn:El; [|done].
  intros _ a' [->|Hin]%elem_of_cons; [by exists b|]. by eapply IH.
Qed.

(** A check that passes is satisfied for every row with the key. *)
Lemma pending_check_ok x c u q l rid row :
  db_ok x -> run_pending_check x c = Ok u -> pending_child c = q -> pending_parent c = fk_target (pending_fk c) ->
  loaded x !! q = Some l -> pending_fk c ∈ table_foreign_keys (meta l) -> BTreeMap.get (rows l) rid = Some row ->
  composite_key (fk_values (pending_fk c) row) = Some (pending_key c) ->
  has_parent x (pending_fk c) (pending_key c).
Proof.
  intros Hdb Hrun <- Hp Hl Hfk Hrow Hk. pose proof (db_tables _ Hdb _ _ Hl) as [Hm Hok Hty _ _ _].
  unfold run_pending_check, fk_parent_has_key, fk_matching_children, fk_loaded in Hrun. rewrite Hp, Hl in Hrun.
  destruct (loaded x !! fk_target (pending_fk c)) as [pl|] eqn:El; [|done]. cbn [ok_or] in Hrun.
  destruct (parent_has_key pl _ _) eqn:Ef.
  { apply (has_parent_found x (pending_child c) (meta l) (pending_fk c) row (pending_key c) pl) in Ef; try done.
    by eapply Hty. }
  destruct (matching_children_spec l (pending_fk c) (fk_values (pending_fk c) row) (pending_key c)) as [_ Hch]; [done..| |].
  { intros r v Hr. apply (child_separable (catalog x) (pending_child c) (meta l)); [apply Hdb|done..|by eapply Hty|by eapply Hty]. }
  destruct (matching_children l _ _) as [|? ?]; [|done].
  exfalso. eapply not_elem_of_nil. apply (Hch rid row). done.
Qed.

(** The statement's referential actions and checks. *)
Lemma referential_actions_ok x work x' :
  ri_inv (x, work, []) nothing -> fk_apply_referential_actions x work = Ok x' ->
  db_ok x' /\ integrity x' (deferred_cover (deferred_checks x')) /\ tables (catalog x') = tables (catalog x).
Proof.
  intros Hinv. unfold fk_apply_referential_actions. generalize (N.to_nat MAX_RI_STEPS). intros steps.
  destruct (ri_loop steps (x, work, [])) as [[y checks]|] eqn:E; [|done]. cbn [fst snd].
  destruct (traverse _ checks) as [us|] eqn:Et; [|done]. intros [= <-].
  apply ri_loop_ok in E as [[Hdb Hi _] Ht]; [|done]. cbn [fst snd] in *. split; [done|]. split; [|done].
  eapply integrity_mono; [exact Hi|].
  intros q l fk r row need Hl Hfk Hr Hn [[?|[(w & Hw & _)|(c & Hc & Hq & <- & Hp & ->)]]|[]]; [by right| |].
  - by apply not_elem_of_nil in Hw.
  - left. destruct (traverse_elem _ _ _ Et c Hc) as [u Hu].
    eapply pending_check_ok; eauto. by apply need_key.
Qed.

(** A deferred check that passes gives the rows that it is for what they owe. *)
Lemma deferred_check_ok x d v q l fk r row need :
  db_ok x -> run_deferred_check x d = Ok v -> deferred_for d q fk need ->
  loaded x !! q = Some l -> fk ∈ table_foreign_keys (meta l) -> BTreeMap.get (rows l) r = Some row ->
  fk_need fk row = Some need -> satisfied x fk need.
Proof.
  intros Hdb Hv Hfor Hl Hfk Hr Hn. pose proof (db_tables _ Hdb _ _ Hl) as [Hm Hok Hty _ _ _].
  destruct d as [c f k vals|p c f k vals|c f k]; cbn [deferred_for] in Hfor; unfold run_deferred_check in Hv.
  - destruct Hfor as (-> & -> & ->). apply (pending_check_ok x (mk_pending (fk_target fk) q fk k vals) tt q l r row);
      try done; [|by apply need_key]. destruct (fk_parent x fk) as [p|] eqn:Ep; [|done].
    apply fk_parent_target in Ep as ->. unfold run_pending_check. simpl.
    destruct (fk_parent_has_key x (fk_target fk) fk k) as [[]|]; [done| |done].
    destruct (fk_matching_children x q fk k) as [[|]|]; done.
  - destruct Hfor as (-> & -> & -> & ->).
    apply (pending_check_ok x (mk_pending (fk_target fk) q fk k vals) v q l r row); try done. by apply need_key.
  - destruct Hfor as (-> & -> & ->). unfold fk_child_row_shape_exists, fk_loaded in Hv. rewrite Hl in Hv.
    cbn [ok_or] in Hv. destruct (existsb _ _) eqn:Ee; [done|]. exfalso.
    assert (existsb (fun kv => bool_decide (ordered_key (fk_values fk kv.2) = k)) (rows l) = true); [|congruence].
    apply existsb_exists. exists (r, row). split; [by apply list_elem_of_In, BTreeMap.get_Some_elem|].
    apply bool_decide_eq_true. unfold fk_need in Hn. simpl.
    destruct (fk_match_type fk), (composite_key _); try done; try case_decide; try done; by injection Hn.
Qed.

(** The end of the transaction: what was deferred holds. *)
Lemma drain_ok x u :
  db_ok x -> integrity x (deferred_cover (deferred_checks x)) ->
  fk_drain_deferred x (earlier ++ deferred_checks x) = Ok u -> integrity x nothing.
Proof.
  intros Hdb Hi. unfold fk_drain_deferred. destruct (traverse _ _) as [us|] eqn:Et; [|done]. intros _.
  eapply integrity_mono; [exact Hi|]. intros q l fk r row need Hl Hfk Hr Hn (d & Hd & Hfor). left.
  destruct (traverse_elem _ _ _ Et d Hd) as [v Hv]. by eapply deferred_check_ok.
Qed.
End loop.
