(* ===== verification/DmlInv.v ===== *)
(** * Statements keep referential integrity

    INSERT, UPDATE and DELETE on tables without triggers leave the loaded tables
    consistent, up to the checks that they deferred. *)

From S2P Require Import Prelude BTree Json Utf8 RustString RustFloat FloatExact SqlTypes Fts FtsInv SqlValue SqlTyping SqlConvert OrdMap Lock SqlCatalog TableStore TableStoreInv SqlExec SqlTrigger ForeignKeys Dml ForeignKeysInv ForeignKeyActions ForeignKeyLoop.

Section statements.
Context `{!Foreign, !ForeignText, !ForeignKeyText, !SqlSyntax, !Evaluator, !Earlier}.

(** The tables of a transaction, between statements. *)
Record consistent (x : Exec) : Prop := {
  con_db : db_ok x;
  con_integrity : integrity x (deferred_cover (deferred_checks x))
}.

Lemma consistent_inv x : consistent x <-> ri_inv (x, [], []) nothing.
Proof.
  split.
  - intros [Hd Hi]. split; [done| |constructor]. eapply integrity_mono; [exact Hi|].
    intros. right. left. by left.
  - intros [Hd Hi _]. split; [done|]. eapply integrity_mono; [exact Hi|]. cbn [fst].
    intros q l fk r row need _ _ _ _ [[?|[(w & Hw & _)|(c & Hc & _)]]|[]]; 
      [by right|by apply not_elem_of_nil in Hw|by apply not_elem_of_nil in Hc].
Qed.

Lemma no_triggers c q t : schema_ok c -> get_table c q = Some t -> has_triggers t = false.
Proof.
  intros [_ Hs] Ht. unfold has_triggers. rewrite (def_no_triggers _ _ _ (Hs q t Ht)). done.
Qed.

Lemma require_get c q t : require_table c q = Ok t -> get_table c q = Some t.
Proof. unfold require_table. destruct (get_table c q); [by intros [= ->]|done]. Qed.

(** ** Values *)

Lemma observe_serials_reseq x t v : reseq x (observe_serials x t v).
Proof.
  unfold observe_serials. generalize (table_columns t). intros cols. revert x.
  induction cols as [|col cols IH]; intros x; [done|]. cbn [foldl]. eapply reseq_trans; [|apply IH].
  destruct (column_identity_sequence col); [|done]. by destruct (_ ≫= _).
Qed.

Lemma build_column_ok c q t provided x values col x' values' :
  table_def_ok c q t -> col ∈ table_columns t -> typed_row t values ->
  build_column t provided (x, values) col = Ok (x', values') -> reseq x x' /\ typed_row t values'.
Proof.
  intros Hd Hcol Hty. unfold build_column.
  assert (Hput : forall v, key_typed (column_ty col) v -> typed_row t (BTreeMap.insert values (column_name col) v)).
  { intros v Hv. apply typed_insert; [done|]. intros col' Hc. rewrite (def_columns _ _ _ Hd col Hcol) in Hc.
    by injection Hc as <-. }
  assert (Hco : forall v w, coerce_to v (column_ty col) (column_name col) = Ok w ->
    typed_row t (BTreeMap.insert values (column_name col) w)) by (intros v w Hw%coerce_key; by apply Hput).
  assert (Hnull : typed_row t (BTreeMap.insert values (column_name col) VNull)) by apply Hput, key_typed_null.
  destruct (BTreeMap.get provided (column_name col)) as [p|].
  - destruct (value_is_null p); [by intros [= <- <-]|].
    destruct (coerce_to p _ _) as [w|] eqn:Ew; [|done]. intros [= <- <-]. split; [done|]. by eapply Hco.
  - destruct (column_identity_sequence col) as [seq|].
    + destruct (next_sequence_value _ _ _) as [[n c']|] eqn:En; [|done]. cbn [fst snd].
      destruct (coerce_to (VInt8 n) _ _) as [w|] eqn:Ew; [|done]. intros [= <- <-]. split; [|by eapply Hco].
      split; [done|by apply next_sequence_tables in En|done].
    + destruct (column_default col) as [def|]; [|by intros [= <- <-]].
      destruct (eval_default x def) as [v|]; [|done]. destruct (value_is_null v); [by intros [= <- <-]|].
      destruct (coerce_to v _ _) as [w|] eqn:Ew; [|done]. intros [= <- <-]. split; [done|]. by eapply Hco.
Qed.

Lemma build_row_ok c q t provided x x' values :
  table_def_ok c q t -> build_row x t provided = Ok (x', values) -> reseq x x' /\ typed_row t values.
Proof.
  intros Hd. unfold build_row.
  assert (Hsub : Forall (fun col => col ∈ table_columns t) (table_columns t)) by by apply Forall_forall.
  assert (Hnil : typed_row t []) by (intros a col _; apply key_typed_null).
  revert Hsub Hnil. generalize (table_columns t) at 2 3. intros cols Hsub. generalize (@nil (string * SqlValue)).
  revert x. induction Hsub as [|col cols Hcol Hsub IH]; intros x row Hty; cbn [try_fold]; [by intros [= <- <-]|].
  destruct (build_column t provided (x, row) col) as [[x1 row1]|] eqn:E; [|done]. intros Hrest.
  eapply build_column_ok in E as [Hq Hty1]; [|done..]. destruct (IH x1 row1) as [? ?]; [done..|].
  split; [by eapply reseq_trans|done].
Qed.

Lemma assign_ok x t alias asg row row' : typed_row t row -> assign x t alias asg row = Ok row' -> typed_row t row'.
Proof.
  intros Hty. unfold assign. generalize [row_frame t alias row]. intros frames. revert row Hty.
  induction asg as [|[a e] asg IH]; intros row Hty; cbn [try_fold]; [by intros [= <-]|]. cbn [fst snd].
  destruct (eval x e frames) as [v|]; [|done]. destruct (coerce_to_col v t a) as [w|] eqn:Ew; [|done].
  apply IH. apply typed_insert; [done|]. by apply (coerced_typed _ _ _ _ Ew).
Qed.

Lemma row_constraints_not_null x t v : check_row_constraints x t v = Ok tt -> check_not_null t v (table_columns t) = Ok tt.
Proof. unfold check_row_constraints. by destruct (check_not_null _ _ _) as [[]|]. Qed.

(** ** UPDATE *)

Definition target_ok (t : Table) (rs : list (string * RowValues)) (target : string * RowValues * RowValues) : Prop :=
  BTreeMap.get rs target.1.1 = Some target.1.2 /\ typed_row t target.2 /\
  check_not_null t target.2 (table_columns t) = Ok tt.

Lemma update_targets_ok q t alias asg sel rs0 snap x acc x' targets :
  has_triggers t = false -> NoDup (acc.*1.*1 ++ snap.*1) ->
  Forall (fun kv => BTreeMap.get rs0 kv.1 = Some kv.2 /\ typed_row t kv.2) snap -> Forall (target_ok t rs0) acc ->
  try_fold (update_target q t alias asg sel None) (x, acc) snap = Ok (x', targets) ->
  x' = x /\ Forall (target_ok t rs0) targets /\ NoDup targets.*1.*1.
Proof.
  intros Htr Hnd Hsnap. revert acc Hnd. induction Hsnap as [|[rid row] snap [Hrow Hty] Hsnap IH]; intros acc Hnd Hacc;
    cbn [try_fold].
  { intros [= <- <-]. by rewrite app_nil_r in Hnd. }
  unfold update_target at 1. rewrite Htr. cbn [fst snd] in *.
  assert (Hskip : NoDup (acc.*1.*1 ++ snap.*1)).
  { rewrite fmap_cons in Hnd. apply NoDup_app in Hnd as (? & Hd & [? ?]%NoDup_cons).
    apply NoDup_app. split; [done|]. split; [|done]. intros a Ha ?. apply (Hd a Ha). by right. }
  destruct (row_matches x t alias sel row) as [[]|]; [|by apply IH|done]. cbn [negb].
  destruct (assign x t alias asg row) as [new|] eqn:Ea; [|done]. cbn [fst snd].
  destruct (check_row_constraints x t new) as [[]|] eqn:Ec; [|done].
  destruct (rls_check_new_row x q t new PolicyUpdate) as [[]|]; [|done]. apply IH.
  - rewrite !fmap_app, <- app_assoc. done.
  - apply Forall_app. split; [done|]. constructor; [|constructor]. split; [done|].
    split; [by eapply assign_ok|by eapply row_constraints_not_null].
Qed.

(** Whether foreign keys refer to the table. *)
Definition is_referenced (c : Catalog) (q : QualifiedName) : bool := bool_decide (referencing_foreign_keys c q <> []).

Lemma not_referenced x q q' l fk :
  db_ok x -> is_referenced (catalog x) q = false -> loaded x !! q' = Some l -> fk ∈ table_foreign_keys (meta l) ->
  fk_target fk <> q.
Proof.
  intros Hdb Hr Hl Hfk Ht. unfold is_referenced in Hr. apply bool_decide_eq_false, dec_stable in Hr.
  eapply not_elem_of_nil. rewrite <- Hr. apply (referencing_spec (catalog x) q q' fk); [apply Hdb|]. split; [done|].
  exists (meta l). split; [|done]. apply (st_meta _ _ _ (db_tables _ Hdb q' l Hl)).
Qed.

Lemma referenced_tables c c' q : tables c' = tables c -> is_referenced c' q = is_referenced c q.
Proof. intros Ht. unfold is_referenced, referencing_foreign_keys. by rewrite Ht. Qed.

Lemma update_one_ok q l x work rid old new x' work' :
  ri_inv (x, work, []) nothing -> loaded x !! q = Some l -> target_ok (meta l) (rows l) (rid, old, new) ->
  update_one q (meta l) (is_referenced (catalog x) q) (x, work) (rid, old, new) = Ok (x', work') ->
  ri_inv (x', work', []) nothing /\ tables (catalog x') = tables (catalog x) /\
  exists l', loaded x' = <[q := l']> (loaded x) /\ meta l' = meta l /\
    forall r v, r <> rid -> BTreeMap.get (rows l) r = Some v -> BTreeMap.get (rows l') r = Some v.
Proof.
  intros [Hdb Hi Hw] Hl (Hold & Hty & Hnn). cbn [fst snd] in *. pose proof (db_tables _ Hdb q l Hl) as Hst.
  pose proof (schema_tables _ (db_schema _ Hdb) _ _ (st_meta _ _ _ Hst)) as Hdef.
  unfold update_one. set (x0 := record_pending x _ _ _).
  assert (Hdb0 : db_ok x0) by (eapply db_ok_more, Hdb; apply deferred_more_pending).
  unfold check_unique_for. change (loaded x0) with (loaded x). rewrite Hl.
  destruct (check_unique l new (Some rid)) as [[]|] eqn:Eu; [|done].
  destruct (fk_check_child x0 (meta l) new (Some old)) as [x1|] eqn:Ec; [|done].
  destruct (fk_check_child_ok x0 (meta l) new (Some old) x1) as [Hm Hchk]; [done| |done..|].
  { rewrite (def_name _ _ _ Hdef). apply Hst. }
  set (y := observe_serials x1 (meta l) new). pose proof (observe_serials_reseq x1 (meta l) new : reseq x1 y) as Hy.
  assert (Hly : loaded y = loaded x) by (rewrite (reseq_loaded _ _ Hy), (more_loaded _ _ Hm); done).
  assert (Hdy : deferred_checks y = deferred_checks x1) by apply Hy.
  assert (Hty0 : tables (catalog y) = tables (catalog x)) by (rewrite (reseq_tables _ _ Hy), (more_catalog _ _ Hm); done).
  destruct (write_update y _ _ _ _ _) as [x2|] eqn:Ewr; [|done]. intros [= <- <-].
  destruct (write_update_ok y q (table_storage_collection (meta l)) l rid old new x2) as [rid' Hwr]; try done.
  { by apply (db_ok_reseq x1 y Hy), (db_ok_more x0 x1). }
  { by rewrite Hly. }
  pose proof Hwr as [Hdb2 Hc2 Hd2 (l' & Hl' & Hch) Hfresh].
  set (work' := if is_referenced (catalog x) q then _ else _).
  assert (Hmore : forall q' fk r need, state_cover (x, work, []) q' fk r need -> state_cover (x2, work', []) q' fk r need).
  { intros q' fk r need [Hdc|[Hqc|Hpc]]; [left|right; left|right; by right].
    - rewrite Hd2, Hdy. by apply (deferred_more_cover x0 x1).
    - unfold work'. destruct (is_referenced _ _); [|done]. apply queue_cover_app. by left. }
  split; [split; cbn [fst snd]; [done| |]|split].
  - eapply (rewrite_integrity x0 x1 y x2 q l rid old rid' new (either (state_cover (x, work, [])) nothing));
      try done.
    + intros q' fk r need [?|[]] _. left. by apply Hmore.
    + intros fk need [Hc|[]] _ _. left. apply Hmore. exact Hc.
    + intros q' fk r need Hdc. left. by left.
    + intros q' ql fk r k Hql Hfk Ht Hk Hne. left. right. left. unfold work'.
      destruct (is_referenced (catalog x) q) eqn:Er.
      * apply queue_cover_app. right. apply queue_cover_one.
        apply (lost_key x q l q' ql); try done. by eapply (st_typed _ _ _ Hst).
      * by destruct (not_referenced x q q' ql fk Hdb Er Hql Hfk).
  - rewrite Hc2. assert (Hw2 : Forall (work_ok (catalog y)) work).
    { eapply Forall_impl; [exact Hw|]. intros w. by apply work_ok_tables. }
    unfold work'. destruct (is_referenced _ _); [|done]. apply Forall_app. split; [done|]. constructor; [|constructor].
    exists (meta l). split; [unfold get_table; rewrite Hty0; apply Hst|]. split; [by eapply (st_typed _ _ _ Hst)|done].
  - by rewrite Hc2.
  - exists l'. rewrite Hl', Hly. split; [done|]. destruct Hch as [Hmeta Hrows]. split; [done|].
    intros r v Hr Hv. rewrite Hrows, decide_False; [rewrite decide_False; [done|congruence]|].
    intros ->. specialize (Hfresh rid' new v eq_refl Hv). congruence.
Qed.

Lemma update_loop_ok c q t targets x work l x' work' :
  tables (catalog x) = tables c -> loaded x !! q = Some l -> meta l = t -> Forall (target_ok t (rows l)) targets ->
  NoDup targets.*1.*1 -> ri_inv (x, work, []) nothing ->
  try_fold (update_one q t (is_referenced c q)) (x, work) targets = Ok (x', work') ->
  ri_inv (x', work', []) nothing /\ tables (catalog x') = tables c.
Proof.
  revert x work l. induction targets as [|[[rid old] new] targets IH]; intros x work l Ht Hl Hm Hok Hnd Hinv;
    cbn [try_fold]; [by intros [= <- <-]|].
  destruct (update_one _ _ _ _ _) as [[x1 work1]|] eqn:E; [|done]. intros Hrest.
  rewrite <- (referenced_tables _ _ q Ht), <- Hm in E. apply Forall_cons in Hok as [Hone Hok].
  rewrite !fmap_cons in Hnd. apply NoDup_cons in Hnd as [Hrid Hnd].
  destruct (update_one_ok q l x work rid old new x1 work1) as (Hinv1 & Ht1 & l1 & Hl1 & Hm1 & Hkeep); [done..|by rewrite Hm|done|].
  eapply (IH x1 work1 l1); [by rewrite Ht1|by rewrite Hl1, lookup_insert_eq|by rewrite Hm1| |done..].
  rewrite Forall_forall in Hok |- *. intros tg Htg. destruct (Hok tg Htg) as (Hr & ? & ?). split; [|done].
  apply Hkeep; [|done]. intros Heq. apply Hrid. cbn [fst snd]. rewrite <- Heq. by do 2 apply list_elem_of_fmap_2.
Qed.

Lemma snapshot_rows x q l :
  loaded x !! q = Some l -> table_ok l -> (forall rid row, BTreeMap.get (rows l) rid = Some row -> typed_row (meta l) row) ->
  Forall (fun kv => BTreeMap.get (rows l) kv.1 = Some kv.2 /\ typed_row (meta l) kv.2) (snapshot x q) /\
  NoDup (snapshot x q).*1.
Proof.
  intros Hl Hok Hty. unfold snapshot. rewrite Hl.
  assert (Hs : forall m, BTreeMap.sorted m -> (forall kv, kv ∈ m -> kv ∈ rows l) ->
    Forall (fun kv => BTreeMap.get (rows l) kv.1 = Some kv.2 /\ typed_row (meta l) kv.2) m /\ NoDup m.*1).
  { intros m Hm Hsub. split; [|by apply BTreeMap.keys_NoDup]. apply Forall_forall. intros [rid row] Hin%Hsub.
    apply BTreeMap.elem_get in Hin; [|apply Hok]. split; [done|by eapply Hty]. }
  destruct (rls_dml_hidden x q) as [h|]; apply Hs; try done; try apply Hok.
  - apply BTreeMap.map_filter_sorted, Hok.
  - intros kv. rewrite list_elem_of_filter. tauto.
Qed.

Lemma exec_update_ok x q alias asg sel x' out :
  consistent x -> exec_update x q alias asg sel = Ok (x', out) ->
  consistent x' /\ tables (catalog x') = tables (catalog x).
Proof.
  intros Hcon. unfold exec_update. destruct (require_table (catalog x) q) as [t|] eqn:Et; [|done].
  apply require_get in Et. pose proof (con_db _ Hcon) as Hdb. rewrite (no_triggers _ _ _ (db_schema _ Hdb) Et).
  destruct (try_fold (update_target _ _ _ _ _ _) _ _) as [[x1 targets]|] eqn:E1; [|done].
  assert (Hno : forall x2, fk_apply_referential_actions x [] = Ok x2 -> x2 = x).
  { intros x2. unfold fk_apply_referential_actions. generalize (N.to_nat MAX_RI_STEPS). by intros [|n] [= <-]. }
  destruct (loaded x !! q) as [l|] eqn:El.
  2: { unfold snapshot in E1. rewrite El in E1. injection E1 as <- <-. cbn [try_fold fst snd].
       destruct (fk_apply_referential_actions x []) as [x2|] eqn:E2; [|done]. intros [= <- _].
       by rewrite (Hno x2 eq_refl). }
  pose proof (db_tables _ Hdb q l El) as Hst. assert (Hm : meta l = t).
  { pose proof (st_meta _ _ _ Hst) as Hm. rewrite Et in Hm. by injection Hm as ->. }
  destruct (snapshot_rows x q l El (st_table _ _ _ Hst) (st_typed _ _ _ Hst)) as [Hsnap Hnd]. rewrite Hm in Hsnap.
  eapply (update_targets_ok q t alias asg sel (rows l)) in E1 as (-> & Htg & Hndt); [|by eapply no_triggers; [apply Hdb|]|done..].
  destruct (try_fold (update_one _ _ _) _ _) as [[x2 work]|] eqn:E2; [|done]. cbn [fst snd].
  eapply (update_loop_ok (catalog x) q t targets x [] l) in E2 as [Hinv Ht2]; [|done..|by apply consistent_inv].
  destruct (fk_apply_referential_actions x2 work) as [x3|] eqn:E3; [|done]. intros [= <- _].
  apply referential_actions_ok in E3 as (? & ? & Ht3); [|done]. split; [by split|]. by rewrite Ht3.
Qed.

(** ** DELETE *)

Lemma delete_targets_ok t alias sel snap x acc x' targets :
  has_triggers t = false -> try_fold (delete_target t alias sel) (x, acc) snap = Ok (x', targets) ->
  x' = x /\ exists picked, targets = acc ++ picked /\ sublist picked snap.
Proof.
  intros Htr. revert acc. induction snap as [|row snap IH]; intros acc; cbn [try_fold].
  { intros [= <- <-]. split; [done|]. exists []. by rewrite app_nil_r. }
  unfold delete_target at 1. rewrite Htr. destruct (row_matches x t alias sel row.2) as [[]|]; [..|done]; cbn [negb fst snd].
  - intros (-> & picked & -> & Hsub)%IH. split; [done|]. exists (row :: picked). rewrite <- app_assoc.
    split; [done|]. by constructor.
  - intros (-> & picked & -> & Hsub)%IH. split; [done|]. exists picked. split; [done|]. by constructor.
Qed.

Definition deleted_work (q : QualifiedName) (c : Catalog) (rs : list RowValues) : list RiWork :=
  if is_referenced c q then (fun row => WorkDeleted q row 1%N) <$> rs else [].

Lemma delete_loop_ok c q targets done x l x' :
  tables (catalog x) = tables c -> loaded x !! q = Some l ->
  Forall (fun kv => BTreeMap.get (rows l) kv.1 = Some kv.2) targets -> NoDup targets.*1 ->
  ri_inv (x, deleted_work q c done, []) nothing ->
  try_fold (delete_one q (meta l)) x targets = Ok x' ->
  ri_inv (x', deleted_work q c (done ++ targets.*2), []) nothing /\ tables (catalog x') = tables c.
Proof.
  revert x l done. induction targets as [|[rid row] targets IH]; intros x l don Ht Hl Hok Hnd Hinv; cbn [try_fold].
  { intros [= <-]. by rewrite app_nil_r. }
  unfold delete_one at 1. rewrite Hl. intros Hrest.
  match goal with Hr : try_fold _ ?y targets = _ |- _ => set (x1 := y) in Hr end. cbn [fst snd] in *.
  apply Forall_cons in Hok as [Hrow Hok]. rewrite fmap_cons in Hnd. apply NoDup_cons in Hnd as [Hrid Hnd].
  destruct Hinv as [Hdb Hi Hw]. cbn [fst snd] in *. pose proof (db_tables _ Hdb q l Hl) as Hst.
  pose proof (delete_row_ok x x1 q l rid Hdb Hl eq_refl eq_refl eq_refl) as Hwr.
  rewrite fmap_cons. cbn [snd]. rewrite cons_middle, app_assoc.
  rewrite <- (proj1 (delete_changed l rid)) in Hrest.
  apply (IH x1 (apply_delete l rid) (don ++ [row])); [done|by apply lookup_insert_eq| |done| |done].
  - rewrite Forall_forall in Hok |- *. intros kv Hkv. rewrite (proj2 (delete_changed l rid)).
    rewrite decide_False; [by apply Hok|]. intros [= Heq]. apply Hrid. rewrite <- Heq. by apply list_elem_of_fmap_2.
  - assert (Hwork : deleted_work q c (don ++ [row]) =
      deleted_work q c don ++ (if is_referenced c q then [WorkDeleted q row 1%N] else [])).
    { unfold deleted_work. destruct (is_referenced c q); [|done]. by rewrite fmap_app. }
    rewrite Hwork. split; cbn [fst snd].
    + apply Hwr.
    + eapply (delete_integrity x x1 q l rid row); [exact Hi|done..| |].
      * intros q' f r need [[?|[?|?]]|[]] _; left; [by left| |right; by right]. right. left.
        apply queue_cover_app. by left.
      * intros q' ql f r k Hq' Hf Htg Hk. left. right. left. apply queue_cover_app. right.
        destruct (is_referenced c q) eqn:Er; [apply queue_cover_one; by exists k|].
        rewrite <- (referenced_tables _ _ q Ht) in Er. by destruct (not_referenced x q q' ql f Hdb Er Hq' Hf).
    + apply Forall_app. split; [done|]. destruct (is_referenced c q); [|constructor]. constructor; [|constructor].
      exists (meta l). split; [apply Hst|by eapply (st_typed _ _ _ Hst)].
Qed.

Lemma exec_delete_ok x q alias sel x' out :
  consistent x -> exec_delete x q alias sel = Ok (x', out) ->
  consistent x' /\ tables (catalog x') = tables (catalog x).
Proof.
  intros Hcon. unfold exec_delete. destruct (require_table (catalog x) q) as [t|] eqn:Et; [|done].
  apply require_get in Et. pose proof (con_db _ Hcon) as Hdb. rewrite (no_triggers _ _ _ (db_schema _ Hdb) Et).
  destruct (try_fold (delete_target _ _ _) _ _) as [[x1 targets]|] eqn:E1; [|done].
  apply delete_targets_ok in E1 as (-> & picked & Hpick & Hsub); [|by eapply no_triggers; [apply Hdb|]].
  rewrite app_nil_l in Hpick. subst picked.
  set (y := foldl _ x targets). assert (Hy : reseq x y).
  { unfold y. clear. revert x. induction targets as [|row targets IH]; intros x; [done|]. cbn [foldl].
    eapply reseq_trans; [|apply IH]. done. }
  rewrite (reseq_loaded _ _ Hy). destruct (loaded x !! q) as [l|] eqn:El; [|done].
  pose proof (db_tables _ Hdb q l El) as Hst. assert (Hm : meta l = t).
  { pose proof (st_meta _ _ _ Hst) as Hm. rewrite Et in Hm. by injection Hm as ->. }
  destruct (snapshot_rows x q l El (st_table _ _ _ Hst) (st_typed _ _ _ Hst)) as [Hsnap Hnd].
  destruct (try_fold (delete_one _ _) _ _) as [x2|] eqn:E2; [|done]. rewrite <- Hm in E2.
  apply (delete_loop_ok (catalog x) q targets [] y l) in E2 as [Hinv Ht2].
  2: apply Hy. 2: by rewrite (reseq_loaded _ _ Hy). 2: { rewrite Forall_forall in Hsnap |- *. intros kv Hkv.
    apply Hsnap. by eapply elem_of_sublist. }
  2: { by eapply sublist_NoDup, fmap_sublist. }
  2: { unfold deleted_work. rewrite fmap_nil. replace (if is_referenced _ _ then [] else []) with (@nil RiWork) by by case_match.
       eapply ri_inv_reseq; [done|by apply consistent_inv]. }
  rewrite app_nil_l in Hinv. fold (is_referenced (catalog x2) q). rewrite (referenced_tables _ _ q Ht2).
  unfold deleted_work in Hinv. destruct (is_referenced (catalog x) q).
  - destruct (fk_apply_referential_actions x2 _) as [x3|] eqn:E3; [|done]. intros [= <- _].
    apply referential_actions_ok in E3 as (? & ? & Ht3); [|done]. split; [by split|]. by rewrite Ht3.
  - intros [= <- _]. split; [by apply consistent_inv|done].
Qed.

(** ** INSERT *)

(** The new UUIDs are distinct, and not the id of a row. *)
Definition fresh_ids (x : Exec) (q : QualifiedName) (uuids : nat -> string) : Prop :=
  (forall i j, uuids i = uuids j -> i = j) /\
  forall l i, loaded x !! q = Some l -> BTreeMap.get (rows l) (uuids i) = None.

(** Only the table [q] changed, and it kept its rows. *)
Definition rows_kept (q : QualifiedName) (x x' : Exec) : Prop :=
  (forall q', q' <> q -> loaded x' !! q' = loaded x !! q') /\
  forall l, loaded x !! q = Some l -> exists l', loaded x' !! q = Some l' /\
    forall r v, BTreeMap.get (rows l) r = Some v -> BTreeMap.get (rows l') r = Some v.

Lemma rows_kept_refl q x x' : loaded x' = loaded x -> rows_kept q x x'.
Proof. intros Hl. unfold rows_kept. rewrite Hl. split; [done|]. intros l Hq. by exists l. Qed.

Lemma rows_kept_trans q x y z : rows_kept q x y -> rows_kept q y z -> rows_kept q x z.
Proof.
  intros [Hxy Kxy] [Hyz Kyz]. split; [intros q' Hne; by rewrite Hyz, Hxy|].
  intros l Hl. destruct (Kxy l Hl) as (l' & Hl' & Hk). destruct (Kyz l' Hl') as (l'' & Hl'' & Hk'). exists l''. eauto.
Qed.

(** A prepared row: its id is its key, or one of the UUIDs from [i] on. *)
Definition prepared_ok (t : Table) (uuids : nat -> string) (bound : nat) (row : string * RowValues) : Prop :=
  typed_row t row.2 /\ check_not_null t row.2 (table_columns t) = Ok tt /\
  (derive_row_id t row.2 = Some row.1 \/ pk_columns t = [] /\ exists i, i < bound /\ row.1 = uuids i).

Lemma prepare_ok c q t uuids provided x acc n x' prepared :
  table_def_ok c q t -> has_triggers t = false -> (forall i j, uuids i = uuids j -> i = j) ->
  Forall (prepared_ok t uuids n) acc -> (pk_columns t = [] -> NoDup acc.*1) ->
  try_fold (prepare_row t) (x, acc) (imap (fun i row => (row, uuids (n + i))) provided) = Ok (x', prepared) ->
  reseq x x' /\ Forall (prepared_ok t uuids (n + length provided)) prepared /\ (pk_columns t = [] -> NoDup prepared.*1).
Proof.
  intros Hd Htr Hinj. revert x acc n. induction provided as [|row provided IH]; intros x acc n Hacc Hnd.
  { intros [= <- <-]. simpl. by rewrite Nat.add_0_r. }
  rewrite imap_cons. cbn [try_fold]. rewrite Nat.add_0_r. unfold prepare_row at 1. rewrite Htr.
  destruct (build_row x t row) as [[x1 values]|] eqn:Eb; [|done]. cbn [fst snd].
  eapply build_row_ok in Eb as [Hq Hty]; [|done].
  destruct (check_row_constraints x1 t values) as [[]|] eqn:Ec; [|done]. apply row_constraints_not_null in Ec. intros Hrest.
  rewrite (imap_ext _ (fun i row => (row, uuids (S n + i)))) in Hrest.
  2: { intros i r _. simpl. by rewrite Nat.add_succ_r. }
  assert (Hlift : forall m r, m <= S n -> prepared_ok t uuids m r -> prepared_ok t uuids (S n) r).
  { intros m r Hm (? & ? & [?|(? & i & Hi & ?)]); (split; [done|split; [done|]]); [by left|].
    right. split; [done|]. exists i. split; [lia|done]. }
  apply IH in Hrest as (Hq' & Hok & Hnd').
  - split; [by eapply reseq_trans|]. cbn [length]. by rewrite Nat.add_succ_r.
  - apply Forall_app. split; [eapply Forall_impl; [exact Hacc|]; intros r; apply Hlift; lia|].
    constructor; [|constructor]. split; [done|]. split; [done|]. cbn [fst snd].
    destruct (pk_columns t) as [|k pk] eqn:Epk.
    + right. split; [done|]. exists n. split; [lia|]. unfold derive_row_id. by rewrite Epk.
    + left. destruct (not_null_id c q t values Hd Ec) as [id ->]; [by rewrite Epk|]. done.
  - intros Hpk. rewrite fmap_app. apply NoDup_app. split; [by apply Hnd|]. split; [|apply NoDup_singleton].
    intros a (r & -> & Hr)%list_elem_of_fmap Ha. cbn [fst] in Ha. apply list_elem_of_singleton in Ha.
    rewrite Forall_forall in Hacc. destruct (Hacc r Hr) as (_ & _ & [Hid|(_ & i & Hi & Hid)]).
    + unfold derive_row_id in Hid. by rewrite Hpk in Hid.
    + unfold derive_row_id in Ha. rewrite Hpk in Ha. simpl in Ha. rewrite Hid in Ha. apply Hinj in Ha. lia.
Qed.

Lemma insert_fresh_ok c q l x inserted rid values x' inserted' events :
  ri_inv (x, [], []) nothing -> loaded x !! q = Some l -> typed_row (meta l) values ->
  check_not_null (meta l) values (table_columns (meta l)) = Ok tt -> tables (catalog x) = tables c ->
  (derive_row_id (meta l) values = Some rid \/ pk_columns (meta l) = [] /\ BTreeMap.get (rows l) rid = None) ->
  insert_fresh q (meta l) (x, inserted, []) rid values = Ok (x', inserted', events) -> has_triggers (meta l) = false ->
  ri_inv (x', [], []) nothing /\ tables (catalog x') = tables c /\ events = [] /\
  rows_kept q x x' /\
  exists l', loaded x' = <[q := l']> (loaded x) /\ meta l' = meta l /\
    forall r, r <> rid -> BTreeMap.get (rows l') r = BTreeMap.get (rows l) r.
Proof.
  intros [Hdb Hi Hw] Hl Hty Hnn Ht Hid Hins Htr. cbn [fst snd] in *. pose proof (db_tables _ Hdb q l Hl) as Hst.
  pose proof (schema_tables _ (db_schema _ Hdb) _ _ (st_meta _ _ _ Hst)) as Hdef.
  unfold insert_fresh, check_unique_for in Hins. rewrite Hl in Hins.
  destruct (check_unique l values None) as [[]|] eqn:Eu; [|done].
  assert (Hnone : BTreeMap.get (rows l) rid = None).
  { destruct Hid as [Hid|[_ ?]]; [|done]. destruct (BTreeMap.get (rows l) rid) as [old|] eqn:Eo; [|done].
    by apply (id_free l values None rid old (st_table _ _ _ Hst) (st_ids _ _ _ Hst)) in Eo. }
  destruct (fk_check_child x (meta l) values None) as [x1|] eqn:Ec; [|done].
  destruct (fk_check_child_ok x (meta l) values None x1) as [Hm Hchk]; [done| |done..|].
  { rewrite (def_name _ _ _ Hdef). apply Hst. }
  set (y := observe_serials x1 (meta l) values) in *.
  pose proof (observe_serials_reseq x1 (meta l) values : reseq x1 y) as Hy.
  assert (Hly : loaded y = loaded x) by (rewrite (reseq_loaded _ _ Hy); apply Hm).
  rewrite Hly, Hl, Htr in Hins. injection Hins as <- <- <-.
  match goal with |- ri_inv (?z, _, _) _ /\ _ => set (x2 := z) end.
  assert (Hl2 : loaded x2 = <[q := apply_insert l rid values]> (loaded x)) by done.
  assert (Ht2 : tables (catalog x2) = tables (catalog x)).
  { change (catalog x2) with (catalog y). rewrite (reseq_tables _ _ Hy). by rewrite (more_catalog _ _ Hm). }
  assert (Hdby : db_ok y) by by apply (db_ok_reseq x1 y Hy), (db_ok_more x x1).
  assert (Hsty : state_ok (catalog y) q (apply_insert l rid values)).
  { eapply state_ok_change; [apply (db_tables _ Hdby q l); by rewrite Hly|apply insert_changed|..].
    - apply apply_insert_ok; [done|apply Hst].
    - by apply (apply_metas l rid values).
    - intros r v [= <- <-]. split; [done|]. split; [intros Hpk; by destruct Hid as [?|[? _]]|].
      pose proof (check_unique_spec l values None (st_table _ _ _ Hst)) as Hs. by rewrite Eu in Hs. }
  split; [split; cbn [fst snd]|].
  - apply (db_ok_insert y x2 q (apply_insert l rid values)); [done..|]. by rewrite Hl2, Hly.
  - eapply (integrity_change x x2 q l _ None (Some (rid, values)) (either (state_cover (x, [], [])) nothing)); try done.
    + apply insert_changed.
    + intros q' fk r need [[Hdc|[?|?]]|[]] _; left; [left|right; by left|right; by right].
      change (deferred_checks x2) with (deferred_checks y). rewrite (reseq_deferred _ _ Hy).
      by apply (deferred_more_cover x x1).
    + intros r v fk need [= <- <-] Hfk Hp Hn. rewrite Forall_forall in Hchk.
      destruct (Hchk fk Hfk rid need Hn) as [(o & ? & _)|[?|Hdc]]; [done|by left|]. right. left. left.
      change (deferred_checks x2) with (deferred_checks y). rewrite (reseq_deferred _ _ Hy).
      by rewrite (def_name _ _ _ Hdef) in Hdc.
    + intros r v old [= <- <-] Ho. congruence.
  - constructor.
  - split; [by rewrite Ht2|]. split; [done|]. split.
    { split; [intros q' Hne; by rewrite Hl2, lookup_insert_ne|]. intros l' Hl'. rewrite Hl in Hl'. injection Hl' as <-.
      rewrite Hl2, lookup_insert_eq. eexists. split; [done|]. intros r v Hr.
      rewrite (proj2 (insert_changed l rid values)). by rewrite decide_False by congruence. }
    eexists. split; [done|]. split; [done|]. intros r Hr.
    rewrite (proj2 (insert_changed l rid values)). by rewrite decide_False.
Qed.

(** Inserting a row with no DO UPDATE: the row is skipped or written. *)
Lemma insert_one_cases q t referenced on cols st row st' :
  is_do_update on = false -> insert_one q t referenced on cols st row = Ok st' ->
  st' = st \/ insert_fresh q t st row.1 row.2 = Ok st'.
Proof.
  intros Hon. destruct row as [rid values]. unfold insert_one. cbn [fst snd].
  destruct (rls_check_new_row _ _ _ _ _) as [[]|]; [|done]. destruct on as [[target []]|]; cbn in Hon |- *; try done.
  - destruct (find_conflict _ _ _ _); [intros [= <-]; by left|by right].
  - destruct (find_conflict _ _ _ _); [|by right]. destruct (check_unique_for _ _ _ _); [by right|done].
Qed.

Lemma insert_loop_ok c q t referenced on cols uuids n prepared x inserted l x' inserted' events :
  is_do_update on = false -> has_triggers t = false -> Forall (prepared_ok t uuids n) prepared ->
  (pk_columns t = [] -> NoDup prepared.*1) ->
  (pk_columns t = [] -> Forall (fun row => BTreeMap.get (rows l) row.1 = None) prepared) ->
  ri_inv (x, [], []) nothing -> tables (catalog x) = tables c -> loaded x !! q = Some l -> meta l = t ->
  try_fold (insert_one q t referenced on cols) (x, inserted, []) prepared = Ok (x', inserted', events) ->
  ri_inv (x', [], []) nothing /\ tables (catalog x') = tables c /\ rows_kept q x x'.
Proof.
  intros Hon Htr Hok. revert x inserted l. induction Hok as [|[rid values] prepared (Hty & Hnn & Hid) Hok IH];
    intros x inserted l Hnd Hfree Hinv Ht Hl Hm; cbn [try_fold];
    [intros [= <- _ _]; split_and!; [done..|by apply rows_kept_refl]|].
  destruct (insert_one q t referenced on cols (x, inserted, []) (rid, values)) as [[[x1 ins1] ev1]|] eqn:E; [|done].
  intros Hrest. cbn [fst snd] in *.
  assert (Hnd' : pk_columns t = [] -> NoDup prepared.*1).
  { intros Hpk. specialize (Hnd Hpk). rewrite fmap_cons in Hnd. by apply NoDup_cons in Hnd as [_ ?]. }
  assert (Hfree' : pk_columns t = [] -> Forall (fun row => BTreeMap.get (rows l) row.1 = None) prepared).
  { intros Hpk. by apply Hfree, Forall_cons in Hpk as [_ ?]. }
  apply insert_one_cases in E as [[= -> -> ->]|E]; [|cbn [fst snd] in E|done]; [by apply (IH x inserted l)|].
  rewrite <- Hm in E, Hty, Hnn, Hid, Htr.
  eapply (insert_fresh_ok c) in E as (Hinv1 & Ht1 & -> & Hkept & l1 & Hl1 & Hm1 & Hkeep); [|done..| |done].
  - destruct (IH x1 ins1 l1) as (? & ? & ?); try done; [|by rewrite Hl1, lookup_insert_eq|congruence|
      split_and!; [done..|by eapply rows_kept_trans]].
    intros Hpk. specialize (Hfree' Hpk). specialize (Hnd Hpk). rewrite fmap_cons in Hnd. apply NoDup_cons in Hnd as [Hrid _].
    rewrite Forall_forall in Hfree' |- *. intros r Hr. rewrite Hkeep; [by apply Hfree'|].
    intros Heq. apply Hrid. cbn [fst]. rewrite <- Heq. by apply list_elem_of_fmap_2.
  - destruct Hid as [?|[Hpk _]]; [by left|]. right. split; [done|]. rewrite Hm in Hpk. by apply Hfree, Forall_cons in Hpk as [? _].
Qed.

Lemma insert_not_loaded q t referenced on cols x inserted row st' :
  db_ok x -> loaded x !! q = None -> get_table (catalog x) q = Some t -> typed_row t row.2 ->
  insert_one q t referenced on cols (x, inserted, []) row <> Ok st'.
Proof.
  intros Hdb Hl Ht Hty. destruct row as [rid values]. unfold insert_one. cbn [fst snd] in *.
  destruct (rls_check_new_row _ _ _ _ _) as [[]|]; [|done]. unfold find_conflict. rewrite Hl. cbn [mbind option_bind].
  unfold insert_fresh, check_unique_for. rewrite Hl.
  destruct (fk_check_child x t values None) as [x1|] eqn:Ec; [|by destruct on].
  apply fk_check_child_ok in Ec as [Hm _]; [|done| |done].
  - rewrite (reseq_loaded _ _ (observe_serials_reseq x1 t values)), (more_loaded _ _ Hm), Hl. by destruct on.
  - by rewrite (def_name _ _ _ (schema_tables _ (db_schema _ Hdb) _ _ Ht)).
Qed.

Lemma exec_insert_ok x q columns source uuids on x' out :
  consistent x -> is_do_update on = false -> fresh_ids x q uuids ->
  exec_insert x q columns source uuids on = Ok (x', out) ->
  consistent x' /\ tables (catalog x') = tables (catalog x) /\ rows_kept q x x'.
Proof.
  intros Hcon Hon [Hinj Hnew]. unfold exec_insert. destruct (require_table (catalog x) q) as [t|] eqn:Et; [|done].
  apply require_get in Et. pose proof (con_db _ Hcon) as Hdb.
  pose proof (no_triggers _ _ _ (db_schema _ Hdb) Et) as Htr. rewrite Htr. cbn [andb].
  destruct (provided_rows _ _ _) as [provided|]; [|done].
  destruct (try_fold (prepare_row t) _ _) as [[x1 prepared]|] eqn:E1; [|done]. cbn [fst snd].
  eapply (prepare_ok (catalog x) q t uuids provided x [] 0) in E1 as (Hq & Hok & Hnd);
    [|by apply (db_schema _ Hdb)|done..|constructor|constructor].
  destruct (try_fold (insert_one _ _ _ _ _) _ _) as [[[x2 inserted] events]|] eqn:E2; [|done]. intros [= <- _].
  assert (Hinv : ri_inv (x1, [], []) nothing) by (eapply ri_inv_reseq; [done|by apply consistent_inv]).
  destruct (loaded x1 !! q) as [l|] eqn:El.
  - assert (Hm : meta l = t).
    { pose proof (st_meta _ _ _ (db_tables _ (inv_db _ _ Hinv) q l El)) as Hm. cbn [fst] in Hm.
      unfold get_table in Et, Hm. rewrite (reseq_tables _ _ Hq), Et in Hm. by injection Hm as ->. }
    eapply (insert_loop_ok (catalog x) q t) in E2 as (Hinv2 & Ht2 & Hk); [..|exact El|done]; try done.
    + split; [by apply consistent_inv|]. split; [done|].
      eapply rows_kept_trans; [apply rows_kept_refl, (reseq_loaded _ _ Hq)|done].
    + intros Hpk. eapply Forall_impl; [exact Hok|]. intros [rid v] (_ & _ & [Hid|(_ & i & _ & ->)]).
      * unfold derive_row_id in Hid. by rewrite Hpk in Hid.
      * cbn [fst]. apply Hnew. by rewrite <- (reseq_loaded _ _ Hq).
    + apply Hq.
  - destruct prepared as [|[rid v] prepared].
    + injection E2 as <- _ _. split; [by apply consistent_inv|]. split; [apply Hq|apply rows_kept_refl, (reseq_loaded _ _ Hq)].
    + exfalso. apply Forall_cons in Hok as [(Hty & _ & _) _]. cbn [try_fold] in E2.
      destruct (insert_one _ _ _ _ _ _ _) as [st|] eqn:E; [|done].
      eapply (insert_not_loaded q t); [apply (inv_db _ _ Hinv)|exact El| |exact Hty|exact E].
      unfold get_table in *. cbn [fst]. by rewrite (reseq_tables _ _ Hq).
Qed.

(** ** Transactions *)

(** One statement on a table. *)
Inductive txn_step (x : Exec) : Exec -> Prop :=
| step_insert q columns source uuids on x' out :
    is_do_update on = false -> fresh_ids x q uuids ->
    exec_insert x q columns source uuids on = Ok (x', out) -> txn_step x x'
| step_update q alias assignments selection x' out :
    exec_update x q alias assignments selection = Ok (x', out) -> txn_step x x'
| step_delete q alias selection x' out :
    exec_delete x q alias selection = Ok (x', out) -> txn_step x x'.

Lemma txn_consistent x x' : consistent x -> rtc txn_step x x' -> consistent x'.
Proof.
  intros Hx. induction 1 as [|x y z Hstep _ IH]; [done|]. apply IH. destruct Hstep.
  - by eapply exec_insert_ok.
  - by eapply exec_update_ok.
  - by eapply exec_delete_ok.
Qed.
End statements.
