(* ===== verification/WriteLog.v ===== *)
(** * The writes of a statement

    Statements change the loaded tables row by row, each change with its
    mutation, in the tables of a set that is closed under references. *)

From S2P Require Import Prelude BTree Json Utf8 RustString RustFloat SqlTypes Fts SqlValue SqlTyping SqlConvert OrdMap Lock SqlCatalog TableStore TableStoreInv SqlExec SqlTrigger ForeignKeys Dml.

Section log.
Context `{!Foreign, !SqlSyntax, !Evaluator}.

(** ** Steps *)

(** Equal but for the values of sequences. *)
Definition same_schema (c c' : Catalog) : Prop := c' = with_sequences c (sequences c').

Lemma same_schema_refl c : same_schema c c.
Proof. by destruct c. Qed.

Lemma same_schema_trans a b c : same_schema a b -> same_schema b c -> same_schema a c.
Proof. unfold same_schema. intros -> ->. done. Qed.

Lemma same_schema_tables c c' : same_schema c c' -> tables c' = tables c.
Proof. by intros ->. Qed.

Definition in_i64 (n : Z) : Prop := (i64_min <= n <= i64_max)%Z.
Definition versions_ok (l : LoadedTable) : Prop := forall rid, in_i64 (version_of l rid).

(** Checks are deferred in a transaction only; no trigger is. *)
Record undeferred (x x' : Exec) : Prop := {
  un_modes : constraint_modes x' = constraint_modes x;
  un_checks : constraint_modes x = None -> deferred_checks x' = deferred_checks x;
  un_triggers : deferred_triggers x' = deferred_triggers x
}.

Definition index_metas (l : LoadedTable) : list Index := lindex_meta <$> lindexes l.

(** One row of a table in [W] changed, with its mutation, or no row. *)
Inductive wstep (W : QualifiedName -> Prop) (x x' : Exec) : Prop :=
| w_silent :
    undeferred x x' -> loaded x' = loaded x -> mutations x' = mutations x -> same_schema (catalog x) (catalog x') -> wstep W x x'
| w_put q l l' rid row version :
    undeferred x x' -> W q -> loaded x !! q = Some l -> loaded x' = <[q := l']> (loaded x) ->
    meta l' = meta l -> index_metas l' = index_metas l -> rows l' = BTreeMap.insert (rows l) rid row ->
    (versions_ok l -> versions_ok l' /\ in_i64 version) ->
    mutations x' = mutations x ++ [Put (table_storage_collection (meta l)) rid (encode_row (meta l) rid row version)] ->
    catalog x' = catalog x -> wstep W x x'
| w_delete q l l' rid :
    undeferred x x' -> W q -> loaded x !! q = Some l -> loaded x' = <[q := l']> (loaded x) ->
    meta l' = meta l -> index_metas l' = index_metas l -> rows l' = BTreeMap.remove (rows l) rid ->
    (versions_ok l -> versions_ok l') ->
    mutations x' = mutations x ++ [Delete (table_storage_collection (meta l)) rid] ->
    catalog x' = catalog x -> wstep W x x'.

Definition writes (W : QualifiedName -> Prop) : relation Exec := rtc (wstep W).

(** The loaded tables are those of the catalog. *)
Definition metas_ok (x : Exec) : Prop :=
  forall q l, loaded x !! q = Some l -> get_table (catalog x) q = Some (meta l).

Lemma wstep_schema W x x' : wstep W x x' -> same_schema (catalog x) (catalog x').
Proof. destruct 1; [done|..]; by match goal with H : catalog _ = _ |- _ => rewrite H; apply same_schema_refl end. Qed.

Lemma writes_schema W x x' : writes W x x' -> same_schema (catalog x) (catalog x').
Proof.
  induction 1 as [|x y z Hst _ IH]; [apply same_schema_refl|]. eapply same_schema_trans; [by eapply wstep_schema|done].
Qed.

Lemma get_table_schema c c' q : same_schema c c' -> get_table c' q = get_table c q.
Proof. by intros ->. Qed.

Lemma wstep_metas W x x' : metas_ok x -> wstep W x x' -> metas_ok x'.
Proof.
  intros Hm Hw q' l'' Hl''. rewrite (get_table_schema _ _ _ (wstep_schema _ _ _ Hw)).
  destruct Hw as [_ Hl _ _|q l l' rid row v _ _ Hl Hx Hmeta _ _ _ _ _|q l l' rid _ _ Hl Hx Hmeta _ _ _ _ _].
  - rewrite Hl in Hl''. by apply Hm.
  - rewrite Hx in Hl''. apply lookup_insert_Some in Hl'' as [[<- <-]|[_ Hl'']]; [|by apply Hm].
    rewrite Hmeta. by apply Hm.
  - rewrite Hx in Hl''. apply lookup_insert_Some in Hl'' as [[<- <-]|[_ Hl'']]; [|by apply Hm].
    rewrite Hmeta. by apply Hm.
Qed.

Lemma writes_metas W x x' : metas_ok x -> writes W x x' -> metas_ok x'.
Proof. intros Hm. induction 1 as [|x y z Hst _ IH]; [done|]. apply IH. by eapply wstep_metas. Qed.

Lemma writes_silent W x x' :
  undeferred x x' -> loaded x' = loaded x -> mutations x' = mutations x -> same_schema (catalog x) (catalog x') -> writes W x x'.
Proof. intros. apply rtc_once. by apply w_silent. Qed.

(** ** Rows *)

Lemma remove_absent {V} (m : list (string * V)) k : BTreeMap.get m k = None -> BTreeMap.remove m k = m.
Proof.
  unfold BTreeMap.remove. induction m as [|[a w] m IH]; [done|]. cbn [BTreeMap.get]. case_decide; [done|].
  intros Hm. rewrite filter_cons, decide_True by (simpl; congruence). by rewrite IH.
Qed.

Lemma map_data_metas f (l : list LoadedIndex) : lindex_meta <$> (map_data f <$> l) = lindex_meta <$> l.
Proof. rewrite <- list_fmap_compose. by apply list_fmap_ext. Qed.

Lemma apply_delete_rows l rid :
  meta (apply_delete l rid) = meta l /\ rows (apply_delete l rid) = BTreeMap.remove (rows l) rid /\
  versions (apply_delete l rid) = versions l /\ index_metas (apply_delete l rid) = index_metas l.
Proof.
  unfold apply_delete. destruct (BTreeMap.get (rows l) rid) as [old|] eqn:E.
  - repeat split. unfold index_metas. apply map_data_metas.
  - split; [done|]. split; [|done]. symmetry. by apply remove_absent.
Qed.

Lemma apply_insert_metas l rid row : index_metas (apply_insert l rid row) = index_metas l.
Proof. apply map_data_metas. Qed.

Lemma apply_update_metas l rid row : index_metas (apply_update l rid row) = index_metas l.
Proof.
  unfold index_metas, apply_update. cbn [lindexes]. unfold enter_row. rewrite map_data_metas.
  destruct (BTreeMap.get (rows l) rid); [apply map_data_metas|done].
Qed.

#[local] Hint Resolve apply_insert_metas apply_update_metas : core.

Lemma bump_versions l l' rid : versions l' = bump_version l rid -> versions_ok l -> versions_ok l'.
Proof.
  intros Hv Hok r. unfold version_of. rewrite Hv. unfold bump_version. rewrite BTreeMap.get_insert.
  case_decide; [|apply Hok]. cbn [default]. apply (wrap_signed_range 64). lia.
Qed.

Lemma same_versions l l' : versions l' = versions l -> versions_ok l -> versions_ok l'.
Proof. intros Hv Hok r. unfold version_of. rewrite Hv. apply Hok. Qed.

Lemma write_update_writes (W : QualifiedName -> Prop) x q t rid new x' :
  W q -> metas_ok x -> get_table (catalog x) q = Some t ->
  write_update x q (table_storage_collection t) t rid new = Ok x' -> writes W x x'.
Proof.
  intros HW Hm Ht. unfold write_update. destruct (loaded x !! q) as [l|] eqn:El; [|done].
  pose proof (Hm q l El) as Hml. rewrite Ht in Hml. injection Hml as ->.
  destruct (decide _) as [Hne|Heq]; intros [= <-].
  - destruct (apply_delete_rows l rid) as (Hdm & Hdr & Hdv & Hdi).
    set (y := push_mutation (with_loaded x (<[q := apply_delete l rid]> (loaded x)))
                (Delete (table_storage_collection (meta l)) rid)).
    eapply rtc_l; [apply (w_delete W x y q l (apply_delete l rid) rid); try done; by apply same_versions|].
    apply rtc_once. set (nid := default rid (derive_row_id (meta l) new)).
    apply (w_put W y _ q (apply_delete l rid) (apply_insert (apply_delete l rid) nid new) nid new
             (version_of (apply_delete l rid) nid)); try done.
    + unfold y. cbn [push_mutation with_loaded loaded]. by rewrite lookup_insert_eq.
    + unfold y. cbn [push_mutation with_loaded loaded]. by rewrite insert_insert_eq.
    + intros Hok. split; [by eapply bump_versions|]. apply Hok.
    + cbn [push_mutation with_loaded mutations]. by rewrite Hdm.
  - apply rtc_once. apply (w_put W x _ q l (apply_update l rid new) rid new
      (version_of (apply_update l rid new) rid)); try done.
    intros Hok.
    assert (Hok' : versions_ok (apply_update l rid new)) by by eapply bump_versions. split; [done|apply Hok'].
Qed.

Lemma insert_writes (W : QualifiedName -> Prop) x q l rid row :
  W q -> loaded x !! q = Some l ->
  writes W x (push_mutation (with_loaded x (<[q := apply_insert l rid row]> (loaded x)))
    (Put (table_storage_collection (meta l)) rid (encode_row (meta l) rid row (version_of l rid)))).
Proof.
  intros HW Hl. apply rtc_once. apply (w_put W x _ q l (apply_insert l rid row) rid row (version_of l rid)); try done.
  intros Hok. split; [by eapply bump_versions|]. apply Hok.
Qed.

Lemma delete_writes (W : QualifiedName -> Prop) x x1 q l rid :
  W q -> loaded x !! q = Some l -> undeferred x x1 -> loaded x1 = loaded x -> mutations x1 = mutations x -> catalog x1 = catalog x ->
  writes W x (push_mutation (with_loaded x1 (<[q := apply_delete l rid]> (loaded x1)))
    (Delete (table_storage_collection (meta l)) rid)).
Proof.
  intros HW Hl [] Hx1 Hm Hc. destruct (apply_delete_rows l rid) as (Hdm & Hdr & Hdv & Hdi). apply rtc_once.
  apply (w_delete W x _ q l (apply_delete l rid) rid); try done.
  - cbn [push_mutation with_loaded loaded]. by rewrite Hx1.
  - by apply same_versions.
  - cbn [push_mutation with_loaded mutations]. by rewrite Hm.
Qed.

(** ** Folds *)

(** A fold whose steps write and keep an invariant. *)
Lemma fold_writes {St A} (W : QualifiedName -> Prop) (ex : St -> Exec) (Inv : St -> Prop)
    (f : St -> A -> res St) l s s' :
  (forall s a s', a ∈ l -> Inv s -> f s a = Ok s' -> writes W (ex s) (ex s') /\ Inv s') ->
  Inv s -> try_fold f s l = Ok s' -> writes W (ex s) (ex s') /\ Inv s'.
Proof.
  revert s. induction l as [|a l IH]; intros s Hf Hs; cbn [try_fold]; [intros [= <-]; by split; [apply rtc_refl|]|].
  destruct (f s a) as [s1|] eqn:E; [|done]. intros Hl.
  destruct (Hf s a s1) as [Hw Hs1]; [left|done..|].
  destruct (IH s1) as [Hw' Hs']; [intros; by eapply Hf; [right|..]|done..|].
  split; [by etrans|done].
Qed.

(** ** Referential actions *)

Definition work_table (w : RiWork) : QualifiedName :=
  match w with WorkDeleted q _ _ | WorkUpdated q _ _ => q end.

Section closed.
Variables (c : Catalog) (W : QualifiedName -> Prop).
Hypothesis closed : forall q child fk, W q -> (child, fk) ∈ referencing_foreign_keys c q -> W child.
Hypothesis triggerless : forall q t, get_table c q = Some t -> table_triggers t = [].

(** What holds of the context during a statement. *)
Record running (x : Exec) : Prop := {
  run_schema : same_schema c (catalog x);
  run_metas : metas_ok x
}.

Lemma running_writes x x' : running x -> writes W x x' -> running x'.
Proof.
  intros [Hs Hm] Hw. split; [|by eapply writes_metas]. eapply same_schema_trans; [done|by eapply writes_schema].
Qed.

Lemma running_referencing x q : running x -> referencing_foreign_keys (catalog x) q = referencing_foreign_keys c q.
Proof. intros [-> _]. done. Qed.

Lemma running_table x q : running x -> get_table (catalog x) q = get_table c q.
Proof. intros [-> _]. done. Qed.

(** Steps that write and leave the context running. *)
Definition fine (x x' : Exec) : Prop := writes W x x' /\ running x'.

Lemma fine_refl x : running x -> fine x x.
Proof. intros Hx. split; [apply rtc_refl|done]. Qed.

Lemma fine_trans x y z : fine x y -> fine y z -> fine x z.
Proof. intros [Hxy _] [Hyz Hz]. split; [by etrans|done]. Qed.

Lemma fine_writes x x' : running x -> writes W x x' -> fine x x'.
Proof. intros Hx Hw. split; [done|by eapply running_writes]. Qed.

Lemma fine_silent x x' :
  running x -> undeferred x x' -> loaded x' = loaded x -> mutations x' = mutations x -> same_schema (catalog x) (catalog x') -> fine x x'.
Proof. intros. by apply fine_writes, writes_silent. Qed.

Lemma fold_fine {A} (f : Exec -> A -> res Exec) l x x' :
  (forall x a x', running x -> f x a = Ok x' -> fine x x') ->
  running x -> try_fold f x l = Ok x' -> fine x x'.
Proof.
  intros Hf Hx Hl. destruct (fold_writes W id running f l x x') as [? ?]; [|done..|by split].
  intros s a s' _ Hs Hfs. by destruct (Hf s a s' Hs Hfs).
Qed.

Lemma fine_deferred x q fk d : running x -> fk_is_deferred x q fk = true -> fine x (push_deferred x d).
Proof.
  intros Hx Hd. apply fine_silent; [done| |done..|apply same_schema_refl]. split; [done| |done].
  unfold fk_is_deferred in Hd. intros Hn. by rewrite Hn in Hd.
Qed.

Lemma check_one_silent x t fk row x' :
  running x -> fk_check_one x t fk row = Ok x' -> fine x x'.
Proof.
  intros Hx. unfold fk_check_one, fk_check_key. intros Hc.
  assert (Hp : x' = x \/ fk_is_deferred x (table_qualified t) fk = true /\ exists d, x' = push_deferred x d);
    [|destruct Hp as [->|[Hd [d ->]]]; [by apply fine_refl|by eapply fine_deferred]].
  destruct (composite_key _); destruct (fk_match_type fk); repeat case_decide; simplify_eq; eauto;
    try (destruct (fk_is_deferred _ _ _) eqn:Ed; simplify_eq; eauto; fail).
  all: destruct (fk_parent x fk) as [p|]; [|done]; destruct (fk_parent_has_key x p fk _) as [[]|]; simplify_eq; eauto;
    destruct (fk_is_deferred _ _ _) eqn:Ed; simplify_eq; eauto.
Qed.

Lemma check_child_silent x t new old x' :
  running x -> fk_check_child x t new old = Ok x' -> fine x x'.
Proof.
  intros Hx. apply fold_fine; [|done]. clear. intros x fk x' Hx. destruct old as [old|].
  - case_decide; [intros [= <-]; by apply fine_refl|]. by apply check_one_silent.
  - by apply check_one_silent.
Qed.

Lemma update_child_fine x q rid old new queue x' queue' :
  W q -> running x -> Forall (fun w => W (work_table w)) queue ->
  ri_update_child x q rid old new queue = Ok (x', queue') ->
  fine x x' /\ Forall (fun w => W (work_table w)) queue'.
Proof.
  intros HW Hx Hq. unfold ri_update_child, fk_loaded. destruct (loaded x !! q) as [l|] eqn:El; [|done]. cbn [ok_or].
  case_decide; [intros [= <- <-]; by split; [apply fine_refl|]|].
  destruct (check_not_null _ _ _); [|done]. destruct (check_constraints _ _ _); [|done].
  destruct (check_unique_for _ _ _ _); [|done].
  destruct (fk_check_child x (meta l) new (Some old)) as [x1|] eqn:E1; [|done].
  apply check_child_silent in E1; [|done].
  destruct (write_update _ _ _ _ _ _) as [x2|] eqn:E2; [|done]. intros [= <- <-].
  split; [|apply Forall_app; split; [done|by constructor]].
  set (y := record_pending x1 _ _ _) in E2.
  assert (Hy : fine x1 y) by (apply fine_silent; [apply E1|done|done|done|apply same_schema_refl]).
  eapply fine_trans; [exact E1|]. eapply fine_trans; [exact Hy|].
  eapply fine_writes; [apply Hy|]. eapply write_update_writes; [done|apply Hy| |exact E2].
  rewrite (running_table _ _ (proj2 Hy)), <- (running_table x q Hx). by apply (run_metas x Hx).
Qed.

(** Rewriters leave the rows alone. *)
Definition silent_rewriter (rewrite : Exec -> RowValues -> res (Exec * RowValues)) : Prop :=
  forall x row x' row', running x -> rewrite x row = Ok (x', row') -> fine x x'.

Lemma to_nulls_silent fk : silent_rewriter (to_nulls fk).
Proof. intros x row x' row' Hx [= <- _]. by apply fine_refl. Qed.

Lemma to_new_key_silent m fk vals : silent_rewriter (to_new_key m fk vals).
Proof.
  intros x row x' row' Hx. unfold to_new_key. destruct (try_fold _ _ _); [|done]. intros [= <- _]. by apply fine_refl.
Qed.

Lemma next_sequence_schema a sch nm n b : next_sequence_value a sch nm = Ok (n, b) -> same_schema a b.
Proof. unfold next_sequence_value. destruct (OrdMap.get _ _); [|done]. by intros [= _ <-]. Qed.

Lemma observe_sequence_schema a sch nm n : same_schema a (observe_sequence_value a sch nm n).
Proof. done. Qed.

Lemma with_catalog_fine x c' dirty : running x -> same_schema (catalog x) c' -> fine x (with_catalog x c' dirty).
Proof. intros Hx Hc. by apply fine_silent. Qed.

Lemma defaults_silent q fk : silent_rewriter (fun x r => ri_defaults_for x q fk r).
Proof.
  intros x row x' row' Hx. unfold ri_defaults_for, fk_loaded. destruct (loaded x !! q) as [l|]; [|done]. cbn [ok_or].
  intros Hf. eapply (fold_writes W fst (fun st => running st.1)) in Hf; [exact Hf| |exact Hx].
  clear. intros [x row] a [x' row'] _ Hx. cbn [fst] in *.
  destruct (column (meta l) a) as [[col|]|]; [|done..]. cbn [ok_or].
  destruct (column_identity_sequence col) as [seq|].
  - destruct (next_sequence_value _ _ _) as [[n c']|] eqn:En; [|done]. cbn [fst snd].
    destruct (coerce_to_col _ _ _); [|done]. intros [= <- _]. apply with_catalog_fine; [done|].
    by eapply next_sequence_schema.
  - destruct (column_default col) as [def|]; [|intros [= <- _]; by apply fine_refl].
    destruct (eval_default x def) as [v|]; [|done]. destruct (value_is_null v); [intros [= <- _]; by apply fine_refl|].
    destruct (coerce_to_col _ _ _); [|done]. intros [= <- _]. by apply fine_refl.
Qed.

(** The work of a state is on tables in [W]. *)
Definition ri_fine (st : Exec * list RiWork * list PendingCheck) : Prop :=
  running st.1.1 /\ Forall (fun w => W (work_table w)) st.1.2.

Lemma rewrite_children_fine st q fk k rewrite st' :
  W q -> silent_rewriter rewrite -> ri_fine st -> ri_rewrite_children st q fk k rewrite = Ok st' ->
  writes W st.1.1 st'.1.1 /\ ri_fine st'.
Proof.
  destruct st as [[x queue] checks]. intros HW Hrw [Hx Hq]. cbn [fst snd] in *. unfold ri_rewrite_children.
  destruct (fk_matching_children x q fk k) as [children|]; [|done].
  destruct (try_fold _ _ children) as [[x1 queue1]|] eqn:E; [|done]. intros [= <-].
  eapply (fold_writes W fst (fun xq => running xq.1 /\ Forall (fun w => W (work_table w)) xq.2)) in E;
    [exact E| |done].
  clear -HW Hrw. intros [x queue] [rid row] [x' queue'] _ [Hx Hq]. cbn [fst snd] in *.
  destruct (rewrite x row) as [[x1 new]|] eqn:E; [|done]. cbn [fst snd]. intros Hu.
  apply Hrw in E; [|done]. apply update_child_fine in Hu as [Hu Hq']; [|done|apply E|done].
  pose proof (fine_trans _ _ _ E Hu) as [? ?]. done.
Qed.

Lemma cascade_delete_fine q t depth xq child xq' :
  W q -> get_table c q = Some t -> running xq.1 -> Forall (fun w => W (work_table w)) xq.2 ->
  ri_cascade_delete q (Some t) depth xq child = Ok xq' ->
  writes W xq.1 xq'.1 /\ running xq'.1 /\ Forall (fun w => W (work_table w)) xq'.2.
Proof.
  destruct xq as [x queue]. intros HW Ht Hx Hq. unfold ri_cascade_delete. rewrite (triggerless q t Ht). cbn [existsb].
  unfold ri_delete_child, fk_loaded. cbn [fst snd] in *. destruct (loaded x !! q) as [l|] eqn:El; [|done]. cbn [ok_or].
  intros [= <-]. cbn [fst snd].
  assert (Hf : fine x (push_mutation (with_loaded (record_pending x (Lock.Row (table_oid (meta l)) child.1) ForUpdate
      Transaction) (<[q:=apply_delete l child.1]> (loaded x))) (Delete (table_storage_collection (meta l)) child.1))).
  { apply fine_writes; [done|]. by apply (delete_writes W x (record_pending x _ _ _)). }
  destruct Hf as [? ?]. split; [done|]. split; [done|]. apply Forall_app. split; [done|]. by constructor.
Qed.

Lemma queue_or_check_fine st p q fk k vals :
  ri_fine st -> let st' := ri_queue_or_check st p q fk k vals in writes W st.1.1 st'.1.1 /\ ri_fine st'.
Proof.
  destruct st as [[x queue] checks]. intros [Hx Hq]. unfold ri_queue_or_check.
  destruct (fk_is_deferred x q fk) eqn:Ed; cbn [fst snd] in *; [|split; [apply rtc_refl|done]].
  destruct (fine_deferred x q fk (DeferredReferenced p q fk k vals) Hx Ed) as [? ?]. done.
Qed.

Lemma action_fine p q fk k vals st st' (action : ReferentialAction)
    (cascade : Exec -> list RiWork -> list PendingCheck -> res (Exec * list RiWork * list PendingCheck)) :
  W q -> ri_fine st ->
  (forall x queue checks st', ri_fine (x, queue, checks) -> cascade x queue checks = Ok st' ->
     writes W x st'.1.1 /\ ri_fine st') ->
  match action with
  | NoAction => Ok (ri_queue_or_check st p q fk k vals)
  | Restrict => let '(x, queue, checks) := st in Ok (x, queue, (checks ++ [mk_pending p q fk k vals])%list)
  | Cascade => cascade st.1.1 st.1.2 st.2
  | SetNull => ri_rewrite_children st q fk k (to_nulls fk)
  | SetDefault =>
      let? st := ri_rewrite_children st q fk k (fun x r => ri_defaults_for x q fk r) in
      Ok (ri_queue_or_check st p q fk k vals)
  end = Ok st' -> writes W st.1.1 st'.1.1 /\ ri_fine st'.
Proof.
  intros HW Hst Hc. destruct action.
  - intros [= <-]. by apply queue_or_check_fine.
  - destruct st as [[x queue] checks]. intros [= <-]. split; [apply rtc_refl|done].
  - destruct st as [[x queue] checks]. by apply Hc.
  - by apply rewrite_children_fine, Hst; [|apply to_nulls_silent].
  - destruct (ri_rewrite_children _ _ _ _ _) as [st1|] eqn:E; [|done]. intros [= <-].
    apply rewrite_children_fine in E as [Hw Hst1]; [|done|apply defaults_silent|done].
    destruct (queue_or_check_fine st1 p q fk k vals Hst1) as [Hw' Hst']. split; [by etrans|done].
Qed.

Lemma delete_action_fine p row depth st cf st' :
  W cf.1 -> is_Some (get_table c cf.1) -> ri_fine st -> ri_delete_action p row depth st cf = Ok st' ->
  writes W st.1.1 st'.1.1 /\ ri_fine st'.
Proof.
  destruct cf as [q fk]. intros HW [t Ht] Hst. unfold ri_delete_action. cbn [fst] in *.
  destruct (composite_key (ref_values fk row)) as [k|]; [|intros [= <-]; split; [apply rtc_refl|done]].
  intros Ha. eapply (action_fine p q fk k (ref_values fk row) st st' (fk_on_delete fk)
    (fun x queue checks => let? children := fk_matching_children x q fk k in
       let? xq := try_fold (ri_cascade_delete q (get_table (catalog x) q) depth) (x, queue) children in Ok (xq, checks)));
    [done|done| |by destruct st as [[??]?]].
  clear -HW Ht triggerless. intros x queue checks st' [Hx Hq]. cbn [fst snd] in *.
  destruct (fk_matching_children x q fk k) as [children|]; [|done]. rewrite (running_table x q Hx), Ht.
  destruct (try_fold _ _ children) as [[x1 queue1]|] eqn:E; [|done]. intros [= <-].
  eapply (fold_writes W fst (fun xq => running xq.1 /\ Forall (fun w => W (work_table w)) xq.2)) in E;
    [exact E| |done].
  intros xq child xq' _ [Hxq Hqq] Hd. by eapply cascade_delete_fine in Hd.
Qed.

Lemma update_action_fine p old new st cf st' :
  W cf.1 -> ri_fine st -> ri_update_action p old new st cf = Ok st' ->
  writes W st.1.1 st'.1.1 /\ ri_fine st'.
Proof.
  destruct cf as [q fk]. intros HW Hst. unfold ri_update_action. cbn [fst] in *.
  destruct (composite_key (ref_values fk old)) as [k|]; [|intros [= <-]; split; [apply rtc_refl|done]].
  case_decide; [intros [= <-]; split; [apply rtc_refl|done]|].
  intros Ha. eapply (action_fine p q fk k (ref_values fk old) st st' (fk_on_update fk)
    (fun x queue checks => let? l := fk_loaded x q in
       ri_rewrite_children (x, queue, checks) q fk k (to_new_key (meta l) fk (ref_values fk new))));
    [done|done| |by destruct st as [[??]?]].
  clear -HW. intros x queue checks st' Hst. destruct (fk_loaded x q) as [l|]; [|done].
  by apply rewrite_children_fine, Hst; [|apply to_new_key_silent].
Qed.

Lemma step_fine st w st' :
  W (work_table w) -> ri_fine st ->
  (forall q child fk, (child, fk) ∈ referencing_foreign_keys c q -> is_Some (get_table c child)) ->
  ri_step st w = Ok st' -> writes W st.1.1 st'.1.1 /\ ri_fine st'.
Proof.
  intros HW Hst Hknown. destruct w as [p row depth|p old new]; cbn [ri_step work_table] in *.
  - destruct (MAX_CASCADE_DEPTH <? depth)%N; [done|]. unfold ri_on_delete.
    rewrite (running_referencing _ p (proj1 Hst)).
    apply (fold_writes W (fun st => st.1.1) ri_fine); [|done]. intros s [q fk] s' Hin Hs.
    apply delete_action_fine; [by eapply closed|by eapply Hknown|done].
  - unfold ri_on_update. rewrite (running_referencing _ p (proj1 Hst)).
    apply (fold_writes W (fun st => st.1.1) ri_fine); [|done]. intros s [q fk] s' Hin Hs.
    apply update_action_fine; [by eapply closed|done].
Qed.

Hypothesis known : forall q child fk, (child, fk) ∈ referencing_foreign_keys c q -> is_Some (get_table c child).

Lemma loop_fine steps st x checks :
  ri_fine st -> ri_loop steps st = Ok (x, checks) -> fine st.1.1 x.
Proof.
  revert st. induction steps as [|steps IH]; intros [[y [|w queue]] cs] [Hy Hq]; cbn [ri_loop].
  - intros [= <- _]. by apply fine_refl.
  - done.
  - intros [= <- _]. by apply fine_refl.
  - cbn [fst snd] in *. apply Forall_cons in Hq as [Hw Hq].
    destruct (ri_step (y, queue, cs) w) as [st1|] eqn:E; [|done]. intros Hl.
    apply step_fine in E as [Hw1 Hst1]; [|done|by split|done]. cbn [fst] in Hw1.
    apply IH in Hl; [|done]. eapply fine_trans; [|exact Hl]. split; [done|apply Hst1].
Qed.

Lemma actions_fine x work x' :
  running x -> Forall (fun w => W (work_table w)) work -> fk_apply_referential_actions x work = Ok x' -> fine x x'.
Proof.
  intros Hx Hw. unfold fk_apply_referential_actions. generalize (N.to_nat MAX_RI_STEPS). intros steps.
  destruct (ri_loop steps (x, work, [])) as [[y checks]|] eqn:E; [|done]. cbn [fst snd].
  destruct (traverse _ checks); [|done]. intros [= <-]. by apply (loop_fine steps (x, work, []) y checks).
Qed.

(** ** Statements *)

Lemma observe_fine x t v : running x -> fine x (observe_serials x t v).
Proof.
  unfold observe_serials. generalize (table_columns t). intros cols. revert x.
  induction cols as [|col cols IH]; intros x Hx; [by apply fine_refl|]. cbn [foldl].
  set (y := match column_identity_sequence col with Some _ => _ | None => _ end).
  assert (Hy : fine x y).
  { unfold y. destruct (column_identity_sequence col); [|by apply fine_refl].
    destruct (_ ≫= _); [|by apply fine_refl]. by apply with_catalog_fine. }
  eapply fine_trans; [exact Hy|]. apply IH, Hy.
Qed.

Lemma targets_fine q t alias asg sel cols st row st' :
  has_triggers t = false -> running st.1 -> update_target q t alias asg sel cols st row = Ok st' -> fine st.1 st'.1.
Proof.
  destruct st as [x targets], row as [rid values]. intros Ht Hx. unfold update_target. cbn [fst] in *. rewrite Ht.
  destruct (row_matches _ _ _ _ _) as [[]|]; [|intros [= <-]; by apply fine_refl|done]. cbn [negb].
  destruct (assign _ _ _ _ _); [|done]. cbn [fst snd].
  destruct (check_row_constraints _ _ _); [|done]. destruct (rls_check_new_row _ _ _ _ _); [|done].
  intros [= <-]. by apply fine_refl.
Qed.

Lemma update_one_fine q t referenced st target st' :
  W q -> get_table c q = Some t -> running st.1 -> Forall (fun w => W (work_table w)) st.2 ->
  update_one q t referenced st target = Ok st' ->
  writes W st.1 st'.1 /\ running st'.1 /\ Forall (fun w => W (work_table w)) st'.2.
Proof.
  destruct st as [x work], target as [[rid old] new]. intros HW Ht Hx Hq. unfold update_one. cbn [fst snd] in *.
  set (y := record_pending x _ _ _). assert (Hy : fine x y) by (by apply fine_silent; [..|apply same_schema_refl]).
  destruct (check_unique_for _ _ _ _); [|done].
  destruct (fk_check_child y t new (Some old)) as [x1|] eqn:E1; [|done].
  apply check_child_silent in E1; [|apply Hy].
  pose proof (observe_fine x1 t new (proj2 E1)) as Ho.
  destruct (write_update _ _ _ _ _ _) as [x2|] eqn:E2; [|done]. intros [= <-]. cbn [fst snd].
  apply (write_update_writes W) in E2; [|done|apply Ho|by rewrite (running_table _ _ (proj2 Ho))].
  pose proof (fine_trans _ _ _ Hy (fine_trans _ _ _ E1 (fine_trans _ _ _ Ho (fine_writes _ _ (proj2 Ho) E2)))) as [? ?].
  split; [done|]. split; [done|]. destruct referenced; [|done]. apply Forall_app. split; [done|by constructor].
Qed.

Lemma no_table_triggers q t : get_table c q = Some t -> has_triggers t = false.
Proof. intros Ht. unfold has_triggers. by rewrite (triggerless q t Ht). Qed.

Lemma exec_update_writes x q alias asg sel x' out :
  W q -> running x -> exec_update x q alias asg sel = Ok (x', out) -> fine x x'.
Proof.
  intros HW Hx. unfold exec_update, require_table. rewrite (running_table x q Hx).
  destruct (get_table c q) as [t|] eqn:Et; [|done]. cbn [ok_or]. rewrite (no_table_triggers q t Et).
  destruct (try_fold (update_target _ _ _ _ _ _) _ _) as [[x1 targets]|] eqn:E1; [|done].
  eapply (fold_writes W fst (fun st => running st.1)) in E1; [|clear -Et triggerless; intros st row st' _ Hst Hu;
    by eapply targets_fine in Hu; [|eapply no_table_triggers|]|done]. cbn [fst] in E1.
  destruct (try_fold (update_one _ _ _) _ _) as [[x2 work]|] eqn:E2; [|done].
  eapply (fold_writes W fst (fun st => running st.1 /\ Forall (fun w => W (work_table w)) st.2)) in E2;
    [|clear -HW Et; intros st target st' _ [Hst Hq] Hu; by eapply update_one_fine|split; [apply E1|constructor]].
  cbn [fst snd] in *. destruct E1 as [Hw1 Hx1], E2 as [Hw2 [Hx2 Hq2]].
  destruct (fk_apply_referential_actions x2 work) as [x3|] eqn:E3; [|done]. intros [= <- _].
  apply actions_fine in E3; [|done..]. eapply fine_trans; [by split; [exact Hw1|]|].
  eapply fine_trans; [by split; [exact Hw2|]|done].
Qed.

Lemma delete_one_fine q t x row x' :
  W q -> get_table c q = Some t -> running x -> delete_one q t x row = Ok x' -> fine x x'.
Proof.
  intros HW Ht Hx. unfold delete_one. destruct (loaded x !! q) as [l|] eqn:El; [|done]. intros [= <-].
  pose proof (run_metas x Hx q l El) as Hm. rewrite (running_table x q Hx), Ht in Hm. injection Hm as ->.
  apply fine_writes; [done|]. by apply (delete_writes W x x).
Qed.

Lemma exec_delete_writes x q alias sel x' out :
  W q -> running x -> exec_delete x q alias sel = Ok (x', out) -> fine x x'.
Proof.
  intros HW Hx. unfold exec_delete, require_table. rewrite (running_table x q Hx).
  destruct (get_table c q) as [t|] eqn:Et; [|done]. cbn [ok_or]. rewrite (no_table_triggers q t Et).
  destruct (try_fold (delete_target _ _ _) _ _) as [[x1 targets]|] eqn:E1; [|done].
  assert (Hx1 : x1 = x).
  { assert (Hf : forall l st st', try_fold (delete_target t alias sel) st l = Ok st' -> st'.1 = st.1).
    { clear -Et triggerless. induction l as [|row l IH]; intros [y ts] st'; cbn [try_fold]; [by intros [= <-]|].
      unfold delete_target at 1. rewrite (no_table_triggers q t Et).
      destruct (row_matches _ _ _ _ _) as [[]|]; [| |done]; cbn [negb]; intros Hl; by apply IH in Hl. }
    apply Hf in E1. done. }
  subst x1. set (y := foldl _ x targets).
  assert (Hy : fine x y).
  { unfold y. clear -Hx. revert x Hx. induction targets as [|row targets IH]; intros x Hx; [by apply fine_refl|].
    cbn [foldl]. match goal with |- fine _ (foldl _ ?y _) => assert (Hf : fine x y) end.
    { by apply fine_silent; [..|apply same_schema_refl]. }
    eapply fine_trans; [exact Hf|]. apply IH, Hf. }
  destruct (loaded y !! q); [|done].
  destruct (try_fold (delete_one q t) y targets) as [x2|] eqn:E2; [|done].
  apply fold_fine in E2; [|intros; by eapply delete_one_fine|apply Hy].
  destruct (bool_decide _).
  - destruct (fk_apply_referential_actions x2 _) as [x3|] eqn:E3; [|done]. intros [= <- _].
    apply actions_fine in E3; [|apply E2|by apply Forall_fmap, Forall_fmap, Forall_true].
    eapply fine_trans; [exact Hy|]. by eapply fine_trans.
  - intros [= <- _]. by eapply fine_trans.
Qed.
Lemma build_column_fine t provided st col st' :
  running st.1 -> build_column t provided st col = Ok st' -> fine st.1 st'.1.
Proof.
  destruct st as [x values]. cbn [fst]. intros Hx. unfold build_column.
  destruct (BTreeMap.get provided _) as [p|].
  { destruct (value_is_null p); [intros [= <-]; by apply fine_refl|].
    destruct (coerce_to _ _ _); [|done]. intros [= <-]. by apply fine_refl. }
  destruct (column_identity_sequence col) as [seq|].
  - destruct (next_sequence_value _ _ _) as [[n c']|] eqn:En; [|done]. cbn [fst snd].
    destruct (coerce_to _ _ _); [|done]. intros [= <-]. apply with_catalog_fine; [done|].
    by eapply next_sequence_schema.
  - destruct (column_default col) as [def|]; [|intros [= <-]; by apply fine_refl].
    destruct (eval_default x def) as [v|]; [|done]. destruct (value_is_null v); [intros [= <-]; by apply fine_refl|].
    destruct (coerce_to _ _ _); [|done]. intros [= <-]. by apply fine_refl.
Qed.

Lemma prepare_row_fine t st row st' :
  has_triggers t = false -> running st.1 -> prepare_row t st row = Ok st' -> fine st.1 st'.1.
Proof.
  destruct st as [x prepared], row as [provided uuid]. cbn [fst]. intros Ht Hx. unfold prepare_row. rewrite Ht.
  destruct (build_row x t provided) as [[x1 values]|] eqn:E; [|done]. cbn [fst snd].
  destruct (check_row_constraints _ _ _); [|done]. intros [= <-]. cbn [fst].
  eapply (fold_writes W fst (fun st => running st.1)) in E; [exact E| |done].
  intros st col st' _ Hst Hb. by apply build_column_fine in Hb.
Qed.

Lemma insert_fresh_fine q t st rid values st' :
  W q -> get_table c q = Some t -> running st.1.1 -> insert_fresh q t st rid values = Ok st' -> fine st.1.1 st'.1.1.
Proof.
  destruct st as [[x inserted] events]. cbn [fst]. intros HW Ht Hx. unfold insert_fresh.
  destruct (check_unique_for _ _ _ _); [|done].
  destruct (fk_check_child x t values None) as [x1|] eqn:E1; [|done]. apply check_child_silent in E1; [|done].
  pose proof (observe_fine x1 t values (proj2 E1)) as Ho. set (y := observe_serials x1 t values) in *.
  destruct (loaded y !! q) as [l|] eqn:El; [|done]. intros [= <-]. cbn [fst].
  pose proof (run_metas y (proj2 Ho) q l El) as Hm. rewrite (running_table y q (proj2 Ho)), Ht in Hm. injection Hm as ->.
  eapply fine_trans; [exact E1|]. eapply fine_trans; [exact Ho|].
  apply fine_writes; [apply Ho|]. by apply insert_writes.
Qed.

Lemma insert_update_fine q t referenced cols st rid values asg sel st' :
  W q -> get_table c q = Some t -> running st.1.1 ->
  insert_update q t referenced cols st rid values asg sel = Ok st' -> fine st.1.1 st'.1.1.
Proof.
  destruct st as [[x inserted] events]. cbn [fst]. intros HW Ht Hx. unfold insert_update.
  rewrite (no_table_triggers q t Ht). destruct (rls_old_row_visible _ _ _ _ _) as [[]|]; [|done..]. cbn [negb].
  destruct (apply_conflict_update _ _ _ _ _ _) as [[new|]|]; [|intros [= <-]; by apply fine_refl|done]. cbn [fst snd].
  destruct (rls_check_new_row _ _ _ _ _); [|done].
  destruct (fk_check_child _ _ _ _) as [x1|] eqn:E1; [|done]. apply check_child_silent in E1; [|done].
  destruct (write_update _ _ _ _ _ _) as [x2|] eqn:E2; [|done].
  apply (write_update_writes W) in E2; [|done|apply E1|by rewrite (running_table _ _ (proj2 E1))].
  apply fine_writes in E2; [|apply E1]. pose proof (fine_trans _ _ _ E1 E2) as E3.
  destruct referenced; [|intros [= <-]; done].
  destruct (fk_apply_referential_actions x2 _) as [x3|] eqn:E4; [|done]. intros [= <-]. cbn [fst].
  apply actions_fine in E4; [|apply E3|by constructor]. by eapply fine_trans.
Qed.

Lemma insert_one_fine q t referenced on cols st row st' :
  W q -> get_table c q = Some t -> running st.1.1 ->
  insert_one q t referenced on cols st row = Ok st' -> fine st.1.1 st'.1.1.
Proof.
  destruct row as [rid values]. intros HW Ht Hx. unfold insert_one.
  destruct (rls_check_new_row _ _ _ _ _); [|done].
  destruct (find_conflict _ _ _ _) as [existing|]; [|by apply insert_fresh_fine].
  destruct (conflict_action <$> on) as [[|asg sel]|].
  - intros [= <-]. by apply fine_refl.
  - by apply insert_update_fine.
  - destruct (check_unique_for _ _ _ _); [|done]. by apply insert_fresh_fine.
Qed.

Lemma exec_insert_writes x q cols source uuids on x' out :
  W q -> running x -> exec_insert x q cols source uuids on = Ok (x', out) -> fine x x'.
Proof.
  intros HW Hx. unfold exec_insert, require_table. rewrite (running_table x q Hx).
  destruct (get_table c q) as [t|] eqn:Et; [|done]. cbn [ok_or]. rewrite (no_table_triggers q t Et). cbn [andb].
  destruct (provided_rows _ _ _) as [provided|]; [|done].
  destruct (try_fold (prepare_row t) _ _) as [[x1 prepared]|] eqn:E1; [|done]. cbn [fst snd].
  eapply (fold_writes W fst (fun st => running st.1)) in E1; [|clear -Et triggerless; intros st row st' _ Hst Hp;
    by eapply prepare_row_fine in Hp; [|eapply no_table_triggers|]|done]. cbn [fst] in E1.
  destruct (try_fold (insert_one _ _ _ _ _) _ _) as [[[x2 inserted] events]|] eqn:E2; [|done]. intros [= <- _].
  eapply (fold_writes W (fun st : Exec * list RowValues * list AfterRowEvent => st.1.1) (fun st => running st.1.1)) in E2;
    [|intros st row st' _ Hst Hi; by eapply insert_one_fine in Hi|apply E1]. cbn [fst] in E2.
  eapply fine_trans; [exact E1|exact E2].
Qed.

End closed.
End log.
