(* ===== verification/SqlEngine.v ===== *)
(** * The SQL engine

    [sql/engine.rs]: sessions, transactions and the life of a statement: load the
    tables it names, execute it, then stage its writes in the open transaction or
    apply them to the storage.

    A handler is a function of the engine state (the shared database and one
    session) that returns the new state with a result or an error; an error keeps
    the changes made before it.  A handler that has to wait for a lock returns no
    result: the lock manager itself is modelled in [Lock].  The statements are
    those of [Dml] and, as functions of the execution context, all others.
    Left out: the vector index, session variables, timeouts, the forwarding of
    statements to a PostgreSQL server, and the time of change events. *)

From S2P Require Import Prelude BTree Json Utf8 RustString RustFloat SqlTypes Fts SqlValue OrdMap Lock SqlCatalog TableStore RelStorage SqlExec SqlTrigger ForeignKeys Dml.

(** The JSON form of the catalog, by serde. *)
Class CatalogCodec := {
  catalog_to_json : Catalog -> result string Value;
  catalog_of_json : Value -> result string Catalog
}.

(** What reading the stored form restores. *)
Definition catalog_reload (c : Catalog) : Catalog :=
  catalog_load (with_tables c ((fun qt => (qt.1, rebuild_column_map qt.2)) <$> tables c)).

Class CatalogCodecLaw `{!CatalogCodec} := {
  catalog_round_trip c j : catalog_to_json c = Ok j -> catalog_of_json j = Ok (catalog_reload c)
}.

#[global] Instance N_ordered : Ordered N := { ord_compare := N.compare; ord_total := N_compare_total }.

Section engine.
Context {S : Type} `{!RelationalStorage S, !Foreign, !SqlSyntax, !Evaluator, !CatalogCodec}.
Local Open Scope string_scope.

(** ** State *)

Record CachedTable := mk_cached { cached_generation : N; cached : LoadedTable }.

Inductive ChangeOp := ChangeInsert | ChangeUpdate | ChangeDelete.
Record ChangeEvent := mk_event {
  event_schema : string;
  event_table : string;
  event_op : ChangeOp;
  event_old : option Value;
  event_new : option Value
}.

(** [listening]: a listener is registered; [delivered]: what it has received. *)
Record Database := mk_database {
  storage : S;
  db_name : string;
  locks : LockManager.t;
  table_cache : gmap string CachedTable;
  listening : bool;
  delivered : list ChangeEvent
}.

(** Row id -> the document written, or [None] for a deleted row. *)
Abbreviation RowOverlay := (gmap string (option Value)).

Record Transaction := mk_transaction {
  txn_catalog : Catalog;
  txn_catalog_dirty : bool;
  overlay : gmap string RowOverlay;
  truncated : gset string;
  aborted : bool;
  txn_modes : ConstraintModes;
  pending_deferred : list DeferredFkCheck;
  pending_triggers : list DeferredTriggerFiring
}.

Record Session := mk_session {
  session_user : string;
  txn : option Transaction;
  session_id : SessionId
}.

Record Engine := mk_engine { db : Database; session : Session }.

Definition with_storage (s : Engine) (st : S) : Engine :=
  mk_engine (mk_database st (db_name (db s)) (locks (db s)) (table_cache (db s)) (listening (db s))
               (delivered (db s))) (session s).
Definition with_locks (s : Engine) (l : LockManager.t) : Engine :=
  mk_engine (mk_database (storage (db s)) (db_name (db s)) l (table_cache (db s)) (listening (db s))
               (delivered (db s))) (session s).
Definition with_cache (s : Engine) (c : gmap string CachedTable) : Engine :=
  mk_engine (mk_database (storage (db s)) (db_name (db s)) (locks (db s)) c (listening (db s))
               (delivered (db s))) (session s).
Definition with_delivered (s : Engine) (es : list ChangeEvent) : Engine :=
  mk_engine (mk_database (storage (db s)) (db_name (db s)) (locks (db s)) (table_cache (db s))
               (listening (db s)) es) (session s).
Definition with_txn (s : Engine) (t : option Transaction) : Engine :=
  mk_engine (db s) (mk_session (session_user (session s)) t (session_id (session s))).
Definition with_aborted (t : Transaction) (b : bool) : Transaction :=
  mk_transaction (txn_catalog t) (txn_catalog_dirty t) (overlay t) (truncated t) b (txn_modes t)
    (pending_deferred t) (pending_triggers t).

(** ** Handlers *)

Definition handler (A : Type) : Type := Engine -> Engine * option (res A).

#[global] Instance handler_ret : MRet handler := fun A x s => (s, Some (Ok x)).
#[global] Instance handler_bind : MBind handler := fun A B k m s =>
  match m s with
  | (s, Some (Ok x)) => k x s
  | (s, Some (Err e)) => (s, Some (Err e))
  | (s, None) => (s, None)
  end.

Definition lift {A} (r : res A) : handler A := fun s => (s, Some r).
Definition gets {A} (f : Engine -> A) : handler A := fun s => (s, Some (Ok (f s))).
Definition modify (f : Engine -> Engine) : handler unit := fun s => (f s, Some (Ok tt)).

(** A read or a write of the storage. *)
Definition reading {A} (f : S -> res A) : handler A := fun s => (s, Some (f (storage (db s)))).
Definition writing (f : S -> res S) : handler unit := fun s =>
  match f (storage (db s)) with
  | Ok st => (with_storage s st, Some (Ok tt))
  | Err e => (s, Some (Err e))
  end.

(** [if let Err(e) = m { f; return Err(e) }] *)
Definition on_error {A} (m : handler A) (f : Engine -> Engine) : handler A := fun s =>
  match m s with
  | (s, Some (Err e)) => (f s, Some (Err e))
  | r => r
  end.

Fixpoint for_each {A} (l : list A) (f : A -> handler unit) : handler unit :=
  match l with
  | [] => mret tt
  | x :: l => f x ≫= fun _ => for_each l f
  end.

(** ** Locks *)

Definition lock_result (r : result LockError Acquired) : res unit :=
  match r with
  | Ok _ => Ok tt
  | Err (Lock.LockNotAvailable o) => raise (SqlTypes.LockNotAvailable o)
  | Err (Lock.DeadlockDetected d) => raise (SqlTypes.DeadlockDetected d)
  end.

Definition acquire (o : LockObject) (m : LockMode) (scope : LockScope) (wait : WaitPolicy) : handler unit :=
  fun s =>
    let '(l, r) := LockManager.acquire_check (locks (db s)) (session_id (session s)) o m scope wait in
    (with_locks s l, lock_result <$> r).

Definition release (s : Engine) : Engine :=
  with_locks s (LockManager.release_transaction (locks (db s)) (session_id (session s))).

(** ** The catalog *)

Definition load_catalog : handler Catalog :=
  doc ← reading load_catalog_doc;
  match doc with
  | Some json =>
      lift match catalog_of_json json with
           | Ok c => Ok c
           | Err e => raise (Storage ("corrupt catalog: " ++ e))
           end
  | None => gets (fun s => catalog_new (db_name (db s)))
  end.

Definition save_catalog (c : Catalog) : handler unit :=
  match catalog_to_json c with
  | Ok json => writing (fun st => save_catalog_doc st json)
  | Err e => lift (raise (Storage ("serialize catalog: " ++ e)))
  end.

Definition invalidate_table_cache : handler unit := modify (fun s => with_cache s ∅).

Definition current_catalog : handler Catalog :=
  t ← gets (fun s => txn (session s));
  match t with Some t => mret (txn_catalog t) | None => load_catalog end.

(** ** Tables *)

Definition cached_table (collection : string) (gen : N) (build : list (string * Value) -> res LoadedTable) :
    handler LoadedTable :=
  hit ← gets (fun s => table_cache (db s) !! collection);
  match hit with
  | Some c => if decide (cached_generation c = gen) then mret (cached c) else
      docs ← reading (fun st => scan st collection);
      built ← lift (build docs);
      if (gen <=? cached_generation c)%N then mret (cached c)
      else modify (fun s => with_cache s (<[collection := mk_cached gen built]> (table_cache (db s)))) ≫= fun _ =>
           mret built
  | None =>
      docs ← reading (fun st => scan st collection);
      built ← lift (build docs);
      modify (fun s => with_cache s (<[collection := mk_cached gen built]> (table_cache (db s)))) ≫= fun _ =>
      mret built
  end.

Definition index_defs (c : Catalog) (q : QualifiedName) : list Index :=
  indexes_for_table c (q_schema q) (q_name q).

(** The documents with the staged writes of a transaction. *)
Definition overlay_docs (ov : RowOverlay) (m : list (string * Value)) : list (string * Value) :=
  map_fold (fun rid val m =>
    match val with Some doc => BTreeMap.insert m rid doc | None => BTreeMap.remove m rid end) m ov.

Definition merge_docs (truncated : bool) (ov : option RowOverlay) (docs : list (string * Value)) :
    list (string * Value) :=
  overlay_docs (default ∅ ov) (if truncated then [] else BTreeMap.of_list docs).

Definition load_table (c : Catalog) (q : QualifiedName) : handler (option LoadedTable) :=
  match get_table c q with
  | None => mret None
  | Some t =>
      let collection := table_storage_collection t in
      let defs := index_defs c q in
      tx ← gets (fun s => txn (session s));
      let trunc := match tx with Some tx => bool_decide (collection ∈ truncated tx) | None => false end in
      let ov := tx ≫= fun tx => overlay tx !! collection in
      let dirty := match tx with Some tx => txn_catalog_dirty tx | None => false end in
      if negb trunc && negb (bool_decide (is_Some ov)) && negb dirty then
        gen ← reading (fun st => Ok (generation st collection));
        match gen with
        | Some gen =>
            built ← cached_table collection gen (fun docs => build t docs defs);
            mret (Some built)
        | None =>
            docs ← reading (fun st => scan st collection);
            built ← lift (build t docs defs);
            mret (Some built)
        end
      else
        docs ← (if trunc then mret [] else reading (fun st => scan st collection));
        built ← lift (build t (merge_docs trunc ov docs) defs);
        mret (Some built)
  end.

(** The same for a transaction that was taken out of the session. *)
Definition load_table_with_overlay (c : Catalog) (q : QualifiedName) (over : gmap string RowOverlay)
    (trunc : gset string) : handler (option LoadedTable) :=
  match get_table c q with
  | None => mret None
  | Some t =>
      let collection := table_storage_collection t in
      docs ← reading (fun st => scan st collection);
      let is_truncated := bool_decide (collection ∈ trunc) in
      let ov := over !! collection in
      let docs := if is_truncated || bool_decide (is_Some ov) then merge_docs is_truncated ov docs else docs in
      built ← lift (build t docs (index_defs c q));
      mret (Some built)
  end.

(** The tables that [load] finds for the names, each once. *)
Fixpoint load_all (load : QualifiedName -> handler (option LoadedTable)) (names : list QualifiedName)
    (tables : gmap QualifiedName LoadedTable) : handler (gmap QualifiedName LoadedTable) :=
  match names with
  | [] => mret tables
  | q :: names =>
      if decide (is_Some (tables !! q)) then load_all load names tables
      else
        l ← load q;
        load_all load names (match l with Some l => <[q := l]> tables | None => tables end)
  end.

Definition exec_new (c : Catalog) (tables : gmap QualifiedName LoadedTable) (user : string) : Exec :=
  mk_exec c tables [] false ∅ user [] (mk_rls ∅ ∅ ∅) None [] [].

(** ** Writes *)

(** The document of a row that is there. *)
Definition live (doc : option Value) : option Value :=
  match doc with
  | Some (Object obj) =>
      match BTreeMap.get obj F_ID ≫= json_as_str with
      | Some _ => if default false (BTreeMap.get obj F_DELETED ≫= json_bool) then None else doc
      | None => None
      end
  | _ => None
  end.

(** Writes of documents that are not rows of a table give no event. *)
Definition push_change (events : list ChangeEvent) (old new : option Value) : list ChangeEvent :=
  let event op (source : Value) :=
    match source with
    | Object obj =>
        match BTreeMap.get obj F_TABLE ≫= json_as_str with
        | Some table =>
            (events ++ [mk_event (default "public" (BTreeMap.get obj F_SCHEMA ≫= json_as_str)) table op
                          (live old) (live new)])%list
        | None => events
        end
    | _ => events
    end in
  match live old, live new with
  | None, Some n => event ChangeInsert n
  | Some _, Some n => event ChangeUpdate n
  | Some o, None => event ChangeDelete o
  | None, None => events
  end.

(** One write, with its event when somebody listens. *)
Definition write_row (watch : bool) (events : list ChangeEvent) (collection row_id : string) (doc : option Value) :
    handler (list ChangeEvent) :=
  events ← (if watch then
              old ← reading (fun st => storage_get st collection row_id);
              mret (push_change events old doc)
            else mret events);
  writing (fun st => match doc with
                     | Some doc => storage_put st collection row_id doc
                     | None => storage_delete st collection row_id
                     end) ≫= fun _ =>
  mret events.

Definition emit_changes (events : list ChangeEvent) : handler unit :=
  modify (fun s => if listening (db s) then with_delivered s (delivered (db s) ++ events)%list else s).

Fixpoint write_mutations (watch : bool) (events : list ChangeEvent) (ms : list Mutation) :
    handler (list ChangeEvent) :=
  match ms with
  | [] => mret events
  | m :: ms =>
      events ← match m with
               | Put collection row_id doc => write_row watch events collection row_id (Some doc)
               | Delete collection row_id => write_row watch events collection row_id None
               | Truncate collection =>
                   writing (fun st => storage_truncate st collection) ≫= fun _ => mret events
               end;
      write_mutations watch events ms
  end.

Definition apply_mutations (ms : list Mutation) : handler unit :=
  watch ← gets (fun s => listening (db s));
  events ← write_mutations watch [] ms;
  emit_changes events.

(** ** Transactions *)

Definition stage_one (t : gmap string RowOverlay * gset string) (m : Mutation) :
    gmap string RowOverlay * gset string :=
  let '(over, trunc) := t in
  match m with
  | Put collection row_id doc =>
      (<[collection := <[row_id := Some doc]> (default ∅ (over !! collection))]> over, trunc)
  | Delete collection row_id =>
      (<[collection := <[row_id := None]> (default ∅ (over !! collection))]> over, trunc)
  | Truncate collection => (delete collection over, {[collection]} ∪ trunc)
  end.

Definition stage_mutations (over : gmap string RowOverlay) (trunc : gset string) (ms : list Mutation) :
    gmap string RowOverlay * gset string :=
  foldl stage_one (over, trunc) ms.

Inductive ExecResult := Tag (command : string) | Affected (rows : list RowValues).

Definition begin : handler ExecResult :=
  t ← gets (fun s => txn (session s));
  (match t with
   | Some _ => mret tt
   | None =>
       c ← load_catalog;
       modify (fun s => with_txn s (Some (mk_transaction c false ∅ ∅ false (mk_modes None ∅) [] [])))
   end) ≫= fun _ =>
  mret (Tag "BEGIN").

(** Every table that a batch of deferred checks needs. *)
Definition deferred_check_tables (checks : list DeferredFkCheck) (c : Catalog) : list QualifiedName :=
  foldl (fun set d =>
    match d with
    | DeferredChild child fk _ _ =>
        let set := name_set_insert set child in
        match resolve_table_name c (Some (fk_ref_schema fk)) (fk_ref_table fk) with
        | Some p => name_set_insert set p
        | None => set
        end
    | DeferredReferenced parent child _ _ _ => name_set_insert (name_set_insert set parent) child
    | DeferredNullMix child _ _ => name_set_insert set child
    end) [] checks.

Definition check_deferred (c : Catalog) (over : gmap string RowOverlay) (trunc : gset string)
    (checks : list DeferredFkCheck) : handler unit :=
  match checks with
  | [] => mret tt
  | _ =>
      tables ← load_all (fun q => load_table_with_overlay c q over trunc) (deferred_check_tables checks c) ∅;
      user ← gets (fun s => session_user (session s));
      lift (fk_drain_deferred (exec_new c tables user) checks)
  end.

(** The writes of the trigger functions go to the storage at once. *)
Definition fire_deferred_triggers (c : Catalog) (over : gmap string RowOverlay) (trunc : gset string)
    (firings : list DeferredTriggerFiring) : handler unit :=
  match firings with
  | [] => mret tt
  | _ =>
      tables ← load_all (fun q => load_table_with_overlay c q over trunc)
        ((fun qt => table_qualified qt.2) <$> SqlCatalog.tables c) ∅;
      user ← gets (fun s => session_user (session s));
      x ← lift (fire_deferred (exec_new c tables user) firings);
      apply_mutations (mutations x)
  end.

Definition truncate_all (cs : list string) : handler unit :=
  for_each cs (fun c => writing (fun st => storage_truncate st c)).

Fixpoint write_overlay (watch : bool) (events : list ChangeEvent)
    (ws : list (string * string * option Value)) : handler (list ChangeEvent) :=
  match ws with
  | [] => mret events
  | (collection, row_id, doc) :: ws =>
      events ← write_row watch events collection row_id doc;
      write_overlay watch events ws
  end.

(** The staged rows, in the order of the maps. *)
Definition overlay_writes (over : gmap string RowOverlay) : list (string * string * option Value) :=
  mjoin ((fun cr => (fun rv => (cr.1, rv.1, rv.2)) <$> map_to_list cr.2) <$> map_to_list over).

Definition commit : handler ExecResult :=
  tx ← gets (fun s => txn (session s));
  modify (fun s => with_txn s None) ≫= fun _ =>
  match tx with
  | None => modify release ≫= fun _ => mret (Tag "COMMIT")
  | Some tx =>
      if aborted tx then modify release ≫= fun _ => mret (Tag "ROLLBACK")
      else
        on_error (check_deferred (txn_catalog tx) (overlay tx) (truncated tx) (pending_deferred tx)) release ≫= fun _ =>
        on_error (fire_deferred_triggers (txn_catalog tx) (overlay tx) (truncated tx) (pending_triggers tx)) release ≫= fun _ =>
        watch ← gets (fun s => listening (db s));
        truncate_all (elements (truncated tx)) ≫= fun _ =>
        events ← write_overlay watch [] (overlay_writes (overlay tx));
        (if txn_catalog_dirty tx then save_catalog (txn_catalog tx) ≫= fun _ => invalidate_table_cache
         else mret tt) ≫= fun _ =>
        emit_changes events ≫= fun _ =>
        modify release ≫= fun _ => mret (Tag "COMMIT")
  end.

Definition rollback : handler ExecResult :=
  modify (fun s => release (with_txn s None)) ≫= fun _ => mret (Tag "ROLLBACK").

(** ** Statements *)

(** A name with an optional schema. *)
Abbreviation NameRef := (option string * string)%type.

Inductive Command :=
| Begin
| Commit
| Rollback
| Insert (target : NameRef) (columns : list string) (source : InsertSource) (uuids : nat -> string)
    (on : option OnConflict)
| Update (target : NameRef) (alias : string) (assignments : Assignments) (selection : option Expr)
| DeleteFrom (target : NameRef) (alias : string) (selection : option Expr)
| LockTable (targets : list NameRef) (mode : LockMode) (nowait : bool)
| Other (plan : Catalog -> list (N * LockMode)) (run : Exec -> res (Exec * list RowValues)).

(** A statement with the tables that its text names beside the target, and those
    that it only reads. *)
Record Statement := mk_statement {
  stmt_names : list NameRef;
  stmt_reads : list NameRef;
  command : Command
}.

(** Walks over the syntax trees of third-party types: the tables that a policy
    names, the statements in the body of a function; and statements on views. *)
Class EngineSyntax := {
  expr_names : Expr -> list NameRef;
  body_statements : FunctionDef -> list Statement;
  exec_on_view : Exec -> QualifiedName -> Command -> res (Exec * list RowValues)
}.
Context `{!EngineSyntax}.

(** The target of a change, and whether its referencing tables may be written. *)
Definition fk_dml_target (cmd : Command) : option (NameRef * bool) :=
  match cmd with
  | Insert target _ _ _ on => Some (target, is_do_update on)
  | Update target _ _ _ | DeleteFrom target _ _ => Some (target, true)
  | _ => None
  end.

Definition resolve (c : Catalog) (n : NameRef) : option QualifiedName := resolve_table_name c n.1 n.2.

Definition fk_preload (c : Catalog) (cmd : Command) : list NameRef :=
  match fk_dml_target cmd with
  | Some (target, include_children) =>
      match resolve c target with
      | Some q =>
          let '(written, read) := fk_ripple c q include_children in
          (fun fq => (Some (q_schema fq), q_name fq)) <$> (written ++ read)%list
      | None => []
      end
  | None => []
  end.

Definition table_mode_rank (m : LockMode) : N :=
  match m with
  | AccessShare => 0
  | RowShare => 1
  | RowExclusive => 2
  | ShareUpdateExclusive => 3
  | Share => 4
  | ShareRowExclusive => 5
  | Exclusive => 6
  | AccessExclusive => 7
  | _ => 0
  end.

(** One mode per table, the strongest, in the order of the tables' ids. *)
Definition strongest (plan : list (N * LockMode)) : list (N * LockMode) :=
  foldl (fun m om =>
    let m := OrdMap.or_insert m om.1 om.2 in
    OrdMap.alter m om.1 (fun old => if (table_mode_rank old <? table_mode_rank om.2)%N then om.2 else old))
    [] plan.

Definition lock_name (c : Catalog) (mode : LockMode) (n : NameRef) : option (N * LockMode) :=
  (fun t => (table_oid t, mode)) <$> (resolve c n ≫= get_table c).

Definition command_plan (c : Catalog) (stmt : Statement) : list (N * LockMode) :=
  match command stmt with
  | Insert target _ _ _ _ | Update target _ _ _ | DeleteFrom target _ _ =>
      (omap (lock_name c RowExclusive) [target] ++ omap (lock_name c AccessShare) (stmt_reads stmt))%list
  | Other plan _ => plan c
  | _ => []
  end.

Definition ripple_plan (c : Catalog) (cmd : Command) : list (N * LockMode) :=
  match fk_dml_target cmd with
  | Some (target, include_children) =>
      match resolve c target with
      | Some q =>
          let '(written, read) := fk_ripple c q include_children in
          let plan mode qs := omap (fun fq => (fun t => (table_oid t, mode)) <$> get_table c fq) qs in
          (plan RowExclusive written ++ plan RowShare read)%list
      | None => []
      end
  | None => []
  end.

Definition is_dml (cmd : Command) : bool :=
  match cmd with Insert _ _ _ _ _ | Update _ _ _ _ | DeleteFrom _ _ _ => true | _ => false end.

(** The plans of the statements in function bodies do not look into function
    bodies again. *)
Definition stmt_lock_plan (c : Catalog) (stmt : Statement) (bodies : list Statement) : list (N * LockMode) :=
  strongest (command_plan c stmt ++ ripple_plan c (command stmt) ++
             mjoin ((fun b => strongest (command_plan c b ++ ripple_plan c (command b))) <$> bodies))%list.

Definition table_lock_plan (c : Catalog) (stmt : Statement) : list (N * LockMode) :=
  stmt_lock_plan c stmt
    (if is_dml (command stmt) then mjoin (body_statements <$> functions c) else []).

(** The tables that the row security of the named tables needs. *)
Definition policy_names (c : Catalog) (names : list NameRef) : list NameRef :=
  mjoin ((fun n =>
    match resolve c n ≫= get_table c with
    | Some t =>
        if table_rls_enabled t then
          mjoin ((fun p => mjoin ((fun text => match parse_expr text with
                                               | Ok e => expr_names e
                                               | Err _ => []
                                               end)
                   <$> (option_list (policy_using p) ++ option_list (policy_check p))%list))
            <$> table_policies t)
        else []
    | None => []
    end) <$> names).

(** The target of a change and the tables that the text names. *)
Definition collect_stmt (stmt : Statement) : list NameRef :=
  (option_list (fst <$> fk_dml_target (command stmt)) ++ stmt_names stmt)%list.

Definition preload_names (c : Catalog) (stmt : Statement) : list QualifiedName :=
  let names := (collect_stmt stmt ++ fk_preload c (command stmt))%list in
  let names := (names ++ policy_names c names)%list in
  omap (resolve c) (names ++ mjoin (collect_stmt <$> mjoin (body_statements <$> functions c)))%list.

Definition rls_target (c : Catalog) (cmd : Command) : option (QualifiedName * PolicyCmd) :=
  match cmd with
  | Update target _ _ _ => (fun q => (q, PolicyUpdate)) <$> resolve c target
  | DeleteFrom target _ _ => (fun q => (q, PolicyDelete)) <$> resolve c target
  | _ => None
  end.

(** The target of a change: a table, or a view. *)
Definition on_target_table (x : Exec) (cmd : Command) (target : NameRef)
    (run : QualifiedName -> res (Exec * list RowValues)) : res (Exec * list RowValues) :=
  let? q := ok_or (resolve (catalog x) target) (UndefinedTable target.2) in
  match get_view (catalog x) q with
  | Some _ => exec_on_view x q cmd
  | None => run q
  end.

Definition dispatch (x : Exec) (cmd : Command) : res (Exec * list RowValues) :=
  match cmd with
  | Insert target columns source uuids on =>
      on_target_table x cmd target (fun q => exec_insert x q columns source uuids on)
  | Update target alias assignments selection =>
      on_target_table x cmd target (fun q => exec_update x q alias assignments selection)
  | DeleteFrom target alias selection =>
      on_target_table x cmd target (fun q => exec_delete x q alias selection)
  | Other _ run => run x
  | _ => Ok (x, [])
  end.

Definition exec_lock_table (c : Catalog) (targets : list NameRef) (mode : LockMode) (nowait : bool) :
    handler ExecResult :=
  for_each targets (fun target =>
    q ← lift (ok_or (resolve c target) (UndefinedTable target.2));
    t ← lift (require_table c q);
    acquire (Lock.Table (table_oid t)) mode Lock.Transaction (if nowait then NoWait else Wait)) ≫= fun _ =>
  mret (Tag "LOCK TABLE").

(** The writes of a statement go to the transaction, or to the storage. *)
Definition finish (x : Exec) : handler unit :=
  tx ← gets (fun s => txn (session s));
  match tx with
  | Some tx =>
      let st := stage_mutations (overlay tx) (truncated tx) (mutations x) in
      modify (fun s => with_txn s (Some
        (mk_transaction (catalog x) (txn_catalog_dirty tx || catalog_dirty x) st.1 st.2 (aborted tx)
           (txn_modes tx) (pending_deferred tx ++ deferred_checks x)%list
           (pending_triggers tx ++ deferred_triggers x)%list)))
  | None =>
      apply_mutations (mutations x) ≫= fun _ =>
      (if catalog_dirty x then save_catalog (catalog x) ≫= fun _ => invalidate_table_cache else mret tt) ≫= fun _ =>
      modify release
  end.

(** The statement once its table locks are held: the context after it. *)
Definition run_statement (c : Catalog) (stmt : Statement) : handler (Exec * list RowValues) :=
  tables ← load_all (load_table c) (preload_names c stmt) ∅;
  s ← gets session;
  x ← lift (init_rls (with_modes (exec_new c tables (session_user s)) (txn_modes <$> txn s))
              (rls_target c (command stmt)));
  lift (dispatch x (command stmt)).

Definition locked_statement (stmt : Statement) : handler (Exec * list RowValues) :=
  c ← current_catalog;
  for_each (table_lock_plan c stmt)
    (fun om => acquire (Lock.Table om.1) om.2 Lock.Transaction Wait) ≫= fun _ =>
  run_statement c stmt.

Definition execute_inner (stmt : Statement) : handler ExecResult :=
  match command stmt with
  | LockTable targets mode nowait =>
      c ← current_catalog;
      exec_lock_table c targets mode nowait
  | _ =>
      xr ← locked_statement stmt;
      for_each (pending_locks xr.1) (fun oms => acquire oms.1.1 oms.1.2 oms.2 Wait) ≫= fun _ =>
      finish xr.1 ≫= fun _ =>
      mret (Affected xr.2)
  end.

(** An error aborts the transaction, or releases the locks of the statement. *)
Definition fail_statement (s : Engine) : Engine :=
  match txn (session s) with
  | Some tx => with_txn s (Some (with_aborted tx true))
  | None => release s
  end.

Definition guarded {A} (m : handler A) : handler A :=
  tx ← gets (fun s => txn (session s));
  if match tx with Some tx => aborted tx | None => false end then lift (raise InFailedTransaction)
  else on_error m fail_statement.

Definition execute_one (stmt : Statement) : handler ExecResult :=
  match command stmt with
  | Begin => begin
  | Commit => commit
  | Rollback => rollback
  | _ => guarded (execute_inner stmt)
  end.

(** ** SET CONSTRAINTS *)

Definition constraint_identities (c : Catalog) (names : list NameRef) (deferred : bool) :
    res (list (QualifiedName * string)) :=
  try_fold (fun ids n =>
    match foreign_keys_named c n.1 n.2 with
    | [] => raise (UndefinedObject ("constraint " ++ dquote ++ n.2 ++ dquote ++ " does not exist"))
    | matches =>
        try_fold (fun ids qf =>
          if deferred && negb (is_deferrable (fk_deferrable qf.2))
          then raise (WrongObjectType ("constraint " ++ dquote ++ fk_name qf.2 ++ dquote ++ " is not deferrable"))
          else Ok (ids ++ [(qf.1, fk_name qf.2)])%list) ids matches
    end) [] names.

Definition set_modes (m : ConstraintModes) (all : bool) (ids : list (QualifiedName * string)) (deferred : bool) :
    ConstraintModes :=
  if all then mk_modes (Some deferred) ∅
  else mk_modes (all_deferred m) (foldl (fun named id => <[id := deferred]> named) (named m) ids).

Definition with_checks (t : Transaction) (m : ConstraintModes) (checks : list DeferredFkCheck) : Transaction :=
  mk_transaction (txn_catalog t) (txn_catalog_dirty t) (overlay t) (truncated t) (aborted t) m checks
    (pending_triggers t).

(** [names = None] is ALL.  IMMEDIATE runs the pending checks that it covers. *)
Definition set_constraints_inner (names : option (list NameRef)) (deferred : bool) : handler ExecResult :=
  c ← current_catalog;
  ids ← lift (constraint_identities c (default [] names) deferred);
  let all := bool_decide (names = None) in
  let covered (d : DeferredFkCheck) := all || bool_decide (identity d ∈ ids) in
  tx ← gets (fun s => txn (session s));
  match tx with
  | None => mret (Tag "SET CONSTRAINTS")
  | Some tx =>
      let m := set_modes (txn_modes tx) all ids deferred in
      if deferred then
        modify (fun s => with_txn s (Some (with_checks tx m (pending_deferred tx)))) ≫= fun _ =>
        mret (Tag "SET CONSTRAINTS")
      else
        modify (fun s => with_txn s (Some (with_checks tx m
          (filter (fun d => covered d = false) (pending_deferred tx))))) ≫= fun _ =>
        check_deferred c (overlay tx) (truncated tx)
          (filter (fun d => covered d = true) (pending_deferred tx)) ≫= fun _ =>
        mret (Tag "SET CONSTRAINTS")
  end.

Definition execute_set_constraints (names : option (list NameRef)) (deferred : bool) : handler ExecResult :=
  guarded (set_constraints_inner names deferred).
End engine.
