(* ===== verification/SqlEngineInv.v ===== *)
(** * The SQL engine: theory

    What the handlers of the engine keep, and what a transaction writes. *)

From S2P Require Import Prelude BTree Json Utf8 RustString RustFloat SqlTypes Fts SqlValue OrdMap Lock SqlCatalog TableStore RelStorage SqlExec SqlTrigger ForeignKeys Dml SqlEngine.

Section engine_inv.
Context {S : Type} `{!RelationalStorage S, !StorageContract S, !Foreign, !SqlSyntax, !Evaluator, !CatalogCodec, !EngineSyntax}.
Local Open Scope string_scope.
Implicit Types (s : Engine (S := S)) (st : S) (P : Engine (S := S) -> Prop).

(** ** Handlers that keep a predicate *)

(** Whatever the result: a value, an error or none. *)
Definition keeps {A} P (m : handler A) : Prop := forall s, P s -> P (m s).1.

Lemma keeps_bind {A B} P (m : handler A) (k : A -> handler B) :
  keeps P m -> (forall a, keeps P (k a)) -> keeps P (m ≫= k).
Proof.
  intros Hm Hk s Hs. unfold mbind, handler_bind. specialize (Hm s Hs).
  destruct (m s) as [s1 [[a|e]|]]; [|done..]. by apply Hk.
Qed.

(** A handler that reads a part of the state, which then is known. *)
Lemma keeps_gets {A B} P (f : Engine -> A) (k : A -> handler B) :
  (forall s, P s -> P (k (f s) s).1) -> keeps P (gets f ≫= k).
Proof. intros Hk s Hs. by apply Hk. Qed.

Lemma keeps_ret {A} P (a : A) : keeps P (mret a).
Proof. by intros s Hs. Qed.

Lemma keeps_lift {A} P (r : res A) : keeps P (lift r).
Proof. by intros s Hs. Qed.

Lemma keeps_reading {A} P (f : S -> res A) : keeps P (reading f).
Proof. by intros s Hs. Qed.

Lemma keeps_modify P f : (forall s, P s -> P (f s)) -> keeps P (modify f).
Proof. intros Hf s Hs. by apply Hf. Qed.

Lemma keeps_on_error {A} P (m : handler A) f :
  keeps P m -> (forall s, P s -> P (f s)) -> keeps P (on_error m f).
Proof.
  intros Hm Hf s Hs. unfold on_error. specialize (Hm s Hs). destruct (m s) as [s1 [[a|e]|]]; [done| |done]. by apply Hf.
Qed.

Lemma keeps_for_each {A} P (l : list A) f : (forall a, keeps P (f a)) -> keeps P (for_each l f).
Proof.
  intros Hf. induction l as [|a l IH]; [apply keeps_ret|]. cbn [for_each]. by apply keeps_bind; [|intros _].
Qed.

(** Predicates that do not depend on the locks and the cache. *)
Record durable P : Prop := {
  durable_locks : forall s l, P s -> P (with_locks s l);
  durable_cache : forall s c, P s -> P (with_cache s c)
}.

Lemma keeps_acquire P o m scope wait : durable P -> keeps P (acquire o m scope wait).
Proof.
  intros HP s Hs. unfold acquire. destruct (LockManager.acquire_check _ _ _ _ _ _) as [l r]. by apply durable_locks.
Qed.

Lemma keeps_release P s : durable P -> P s -> P (release s).
Proof. intros HP Hs. unfold release. by apply (durable_locks P HP). Qed.

Lemma keeps_load_catalog P : keeps P load_catalog.
Proof.
  apply keeps_bind; [apply keeps_reading|]. intros [j|]; [apply keeps_lift|]. by intros s Hs.
Qed.

Lemma keeps_current_catalog P : keeps P current_catalog.
Proof.
  apply keeps_bind; [by intros s Hs|]. intros [t|]; [apply keeps_ret|apply keeps_load_catalog].
Qed.

Lemma keeps_cached_table P collection gen build : durable P -> keeps P (cached_table collection gen build).
Proof.
  intros HP. unfold cached_table.
  assert (Hbuild : forall k : LoadedTable -> handler LoadedTable, (forall b, keeps P (k b)) ->
    keeps P (docs ← reading (fun st => scan st collection); built ← lift (build docs); k built)).
  { intros k Hk. apply keeps_bind; [apply keeps_reading|]. intros docs. apply keeps_bind; [apply keeps_lift|done]. }
  assert (Hput : forall b, keeps P (modify (fun s => with_cache s (<[collection := mk_cached gen b]> (table_cache (db s))))
    ≫= fun _ => mret b)).
  { intros b. apply keeps_bind; [|intros _; apply keeps_ret]. apply keeps_modify. intros s Hs. by apply durable_cache. }
  apply keeps_bind; [by intros s Hs|]. intros [c|]; [|by apply Hbuild].
  case_decide; [apply keeps_ret|]. apply Hbuild. intros b. destruct (gen <=? cached_generation c)%N; [apply keeps_ret|done].
Qed.

Lemma keeps_load_table P c q : durable P -> keeps P (load_table c q).
Proof.
  intros HP. unfold load_table. destruct (get_table c q) as [t|]; [|apply keeps_ret].
  apply keeps_bind; [by intros s Hs|]. intros tx. cbv zeta.
  generalize (match tx with Some tx => bool_decide (table_storage_collection t ∈ truncated tx) | None => false end).
  intros trunc. destruct (_ && _).
  - apply keeps_bind; [apply keeps_reading|]. intros [gen|].
    + apply keeps_bind; [by apply keeps_cached_table|]. intros b. apply keeps_ret.
    + apply keeps_bind; [apply keeps_reading|]. intros ds. apply keeps_bind; [apply keeps_lift|intros b; apply keeps_ret].
  - apply keeps_bind; [destruct trunc; [apply keeps_ret|apply keeps_reading]|]. intros ds.
    apply keeps_bind; [apply keeps_lift|intros b; apply keeps_ret].
Qed.

Lemma keeps_load_overlay P c q over trunc : keeps P (load_table_with_overlay c q over trunc).
Proof.
  unfold load_table_with_overlay. destruct (get_table c q) as [t|]; [|apply keeps_ret].
  apply keeps_bind; [apply keeps_reading|]. intros ds. apply keeps_bind; [apply keeps_lift|intros b; apply keeps_ret].
Qed.

Lemma keeps_load_all P load names tables : (forall q, keeps P (load q)) -> keeps P (load_all load names tables).
Proof.
  intros Hl. revert tables. induction names as [|q names IH]; intros tables; [apply keeps_ret|]. cbn [load_all].
  case_decide; [apply IH|]. apply keeps_bind; [apply Hl|]. intros l. apply IH.
Qed.

Lemma keeps_check_deferred P c over trunc checks : keeps P (check_deferred c over trunc checks).
Proof.
  unfold check_deferred. destruct checks as [|d checks]; [apply keeps_ret|].
  apply keeps_bind; [apply keeps_load_all; intros; apply keeps_load_overlay|]. intros tables.
  apply keeps_bind; [by intros s Hs|]. intros user. apply keeps_lift.
Qed.

(** ** Inside a transaction *)

(** The storage and the delivered events are [st] and [es], and a transaction is
    open. *)
Definition private st (es : list ChangeEvent) s : Prop :=
  storage (db s) = st /\ delivered (db s) = es /\ is_Some (txn (session s)).

Lemma private_durable st es : durable (private st es).
Proof. by split; intros s x. Qed.

Lemma keeps_finish st es x : keeps (private st es) (finish x).
Proof.
  apply keeps_gets. intros s (Hst & Hes & [tx Htx]). rewrite Htx. by split_and!; [..|eexists].
Qed.

Lemma keeps_locked_statement P stmt : durable P -> keeps P (locked_statement stmt).
Proof.
  intros HP. apply keeps_bind; [apply keeps_current_catalog|]. intros c.
  apply keeps_bind; [apply keeps_for_each; intros; by apply keeps_acquire|]. intros _.
  apply keeps_bind; [apply keeps_load_all; intros; by apply keeps_load_table|]. intros tables.
  apply keeps_bind; [by intros s Hs|]. intros ses. apply keeps_bind; [apply keeps_lift|]. intros x. apply keeps_lift.
Qed.

Lemma keeps_lock_table P c targets mode nowait : durable P -> keeps P (exec_lock_table c targets mode nowait).
Proof.
  intros HP. apply keeps_bind; [|intros _; apply keeps_ret]. apply keeps_for_each. intros target.
  apply keeps_bind; [apply keeps_lift|]. intros q. apply keeps_bind; [apply keeps_lift|]. intros t. by apply keeps_acquire.
Qed.

Lemma keeps_execute_inner st es stmt : keeps (private st es) (execute_inner stmt).
Proof.
  pose proof (private_durable st es) as HP.
  assert (Hrun : keeps (private st es) (xr ← locked_statement stmt;
    for_each (pending_locks xr.1) (fun oms => acquire oms.1.1 oms.1.2 oms.2 Wait) ≫= fun _ =>
    finish xr.1 ≫= fun _ => mret (Affected xr.2))).
  { apply keeps_bind; [by apply keeps_locked_statement|]. intros xr.
    apply keeps_bind; [apply keeps_for_each; intros; by apply keeps_acquire|]. intros _.
    apply keeps_bind; [apply keeps_finish|intros _; apply keeps_ret]. }
  unfold execute_inner. destruct (command stmt); try exact Hrun.
  apply keeps_bind; [apply keeps_current_catalog|]. intros c. by apply keeps_lock_table.
Qed.

Lemma keeps_guarded {A} st es (m : handler A) : keeps (private st es) m -> keeps (private st es) (guarded m).
Proof.
  intros Hm. apply keeps_bind; [by intros s Hs|]. intros tx. case_match; [apply keeps_lift|].
  apply keeps_on_error; [done|]. intros s (Hst & Hes & [tx' Htx]). unfold fail_statement. rewrite Htx.
  by split_and!; [..|eexists].
Qed.

(** Statements other than those that end the transaction. *)
Definition ends_transaction (stmt : Statement) : bool :=
  match command stmt with Commit | Rollback => true | _ => false end.

Lemma keeps_execute_one st es stmt :
  ends_transaction stmt = false -> keeps (private st es) (execute_one stmt).
Proof.
  unfold ends_transaction, execute_one. intros He.
  pose proof (keeps_guarded st es _ (keeps_execute_inner st es stmt)) as Hg.
  destruct (command stmt); try discriminate He; try exact Hg.
  apply keeps_gets. intros s (Hst & Hes & [tx Htx]). rewrite Htx. by split_and!; [..|eexists].
Qed.

Lemma keeps_set_constraints st es names deferred :
  keeps (private st es) (execute_set_constraints names deferred).
Proof.
  apply keeps_guarded. apply keeps_bind; [apply keeps_current_catalog|]. intros c.
  apply keeps_bind; [apply keeps_lift|]. intros ids. apply keeps_gets. intros s Hs.
  destruct (txn (session s)) as [tx|] eqn:E; [|by apply keeps_ret].
  destruct deferred.
  - destruct Hs as (Hst & Hes & _). by split_and!; [..|eexists].
  - assert (Hk : forall tx' checks, keeps (private st es) (modify (fun s => with_txn s (Some tx')) ≫= fun _ =>
      check_deferred c (overlay tx) (truncated tx) checks ≫= fun _ => mret (Tag "SET CONSTRAINTS"))).
    { intros tx' checks. apply keeps_bind; [apply keeps_modify; intros s' (? & ? & _); by split_and!; [..|eexists]|].
      intros _. apply keeps_bind; [apply keeps_check_deferred|intros _; apply keeps_ret]. }
    by apply Hk.
Qed.

(** ** Documents *)

Definition Docs : Type := list (string * Value).

(** One document written or removed. *)
Definition set_doc (m : Docs) (rid : string) (doc : option Value) : Docs :=
  match doc with Some d => BTreeMap.insert m rid d | None => BTreeMap.remove m rid end.

Lemma get_set_doc m rid doc r :
  BTreeMap.get (set_doc m rid doc) r = if decide (r = rid) then doc else BTreeMap.get m r.
Proof. destruct doc; [apply BTreeMap.get_insert|apply BTreeMap.get_remove]. Qed.

Lemma set_doc_sorted m rid doc : BTreeMap.sorted m -> BTreeMap.sorted (set_doc m rid doc).
Proof. destruct doc; [apply BTreeMap.insert_sorted|apply BTreeMap.map_filter_sorted]. Qed.

Lemma overlay_spec (ov : gmap string (option Value)) m :
  BTreeMap.sorted m ->
  BTreeMap.sorted (overlay_docs ov m) /\
  forall r, BTreeMap.get (overlay_docs ov m) r = match ov !! r with Some v => v | None => BTreeMap.get m r end.
Proof.
  intros Hm. unfold overlay_docs. apply (map_fold_weak_ind (fun (m' : Docs) ov => BTreeMap.sorted m' /\
    forall r, BTreeMap.get m' r = match ov !! r with Some v => v | None => BTreeMap.get m r end)); [done|].
  intros rid val ov' m' Hnone [Hs Hg]. change (match val with Some doc => BTreeMap.insert m' rid doc
    | None => BTreeMap.remove m' rid end) with (set_doc m' rid val).
  split; [by apply set_doc_sorted|]. intros r. rewrite get_set_doc. case_decide as Hr.
  - subst. by rewrite lookup_insert_eq.
  - rewrite lookup_insert_ne by done. apply Hg.
Qed.

(** The effect of a mutation on the documents of a collection. *)
Definition mutate_docs (c : string) (m : Docs) (mu : Mutation) : Docs :=
  match mu with
  | Put c' rid doc => if decide (c' = c) then set_doc m rid (Some doc) else m
  | Delete c' rid => if decide (c' = c) then set_doc m rid None else m
  | Truncate c' => if decide (c' = c) then [] else m
  end.

(** What a transaction shows of a collection. *)
Definition staged_docs (over : gmap string (gmap string (option Value))) (trunc : gset string) (c : string) (m : Docs) : Docs :=
  overlay_docs (default ∅ (over !! c)) (if bool_decide (c ∈ trunc) then [] else m).

Lemma merge_staged over trunc c m :
  BTreeMap.sorted m -> merge_docs (bool_decide (c ∈ trunc)) (over !! c) m = staged_docs over trunc c m.
Proof. intros Hm. unfold merge_docs, staged_docs. by rewrite BTreeMap.of_list_id. Qed.

Lemma staged_spec over trunc c m :
  BTreeMap.sorted m ->
  BTreeMap.sorted (staged_docs over trunc c m) /\
  forall r, BTreeMap.get (staged_docs over trunc c m) r =
    match over !! c ≫= lookup r with
    | Some v => v
    | None => if bool_decide (c ∈ trunc) then None else BTreeMap.get m r
    end.
Proof.
  intros Hm. unfold staged_docs. destruct (overlay_spec (default ∅ (over !! c)) (if bool_decide (c ∈ trunc) then [] else m))
    as [Hs Hg]; [case_bool_decide; [constructor|done]|].
  split; [done|]. intros r. rewrite Hg.
  assert (Hr : default ∅ (over !! c) !! r = over !! c ≫= lookup r)
    by (destruct (over !! c); [done|apply lookup_empty]).
  rewrite Hr. destruct (over !! c ≫= lookup r); [done|]. by case_bool_decide.
Qed.

Lemma staged_empty c m : staged_docs ∅ ∅ c m = m.
Proof. done. Qed.

(** Staging a mutation changes what the transaction shows as the mutation says. *)
Lemma stage_one_docs over trunc mu c m :
  BTreeMap.sorted m ->
  staged_docs (stage_one (over, trunc) mu).1 (stage_one (over, trunc) mu).2 c m =
  mutate_docs c (staged_docs over trunc c m) mu.
Proof.
  intros Hm. pose proof (staged_spec over trunc c m Hm) as [Hs Hg].
  assert (Hw : forall c' rid doc,
    staged_docs (<[c' := <[rid := doc]> (default ∅ (over !! c'))]> over) trunc c m =
    if decide (c' = c) then set_doc (staged_docs over trunc c m) rid doc else staged_docs over trunc c m).
  { intros c' rid doc.
    destruct (staged_spec (<[c' := <[rid := doc]> (default ∅ (over !! c'))]> over) trunc c m Hm) as [Hs' Hg'].
    destruct (decide (c' = c)) as [->|Hc]; (apply BTreeMap.sorted_ext; [done|by try apply set_doc_sorted|]).
    - intros r. rewrite Hg', lookup_insert_eq, get_set_doc, Hg. cbn [mbind option_bind].
      destruct (decide (r = rid)) as [->|Hr]; [by rewrite lookup_insert_eq|].
      rewrite lookup_insert_ne by done. destruct (over !! c); [done|]. cbn [default]. by rewrite lookup_empty.
    - intros r. rewrite Hg', lookup_insert_ne by done. by rewrite Hg. }
  destruct mu as [c' rid doc|c' rid|c']; cbn [stage_one mutate_docs fst snd]; [apply Hw|apply Hw|].
  unfold staged_docs. destruct (decide (c' = c)) as [->|Hne].
  - rewrite lookup_delete_eq, bool_decide_true by set_solver. done.
  - rewrite lookup_delete_ne by done. by rewrite (bool_decide_ext (c ∈ {[c']} ∪ trunc) (c ∈ trunc)) by set_solver.
Qed.

Lemma stage_docs over trunc ms c m :
  BTreeMap.sorted m ->
  staged_docs (stage_mutations over trunc ms).1 (stage_mutations over trunc ms).2 c m =
  foldl (mutate_docs c) (staged_docs over trunc c m) ms.
Proof.
  intros Hm. unfold stage_mutations. revert over trunc. induction ms as [|mu ms IH]; intros over trunc; [done|].
  cbn [foldl]. rewrite <- (stage_one_docs over trunc mu c m) by done.
  destruct (stage_one (over, trunc) mu) as [over' trunc']. apply IH.
Qed.

(** ** Writes *)

Lemma bind_ok {A B} (m : handler A) (k : A -> handler B) s s'' b :
  (m ≫= k) s = (s'', Some (Ok b)) <-> exists a s', m s = (s', Some (Ok a)) /\ k a s' = (s'', Some (Ok b)).
Proof.
  unfold mbind, handler_bind. split.
  - destruct (m s) as [s' [[a|e]|]]; [|done..]. intros Hk. by exists a, s'.
  - intros (a & s' & -> & Hk). done.
Qed.

(** The change counters never go back, and tell when documents changed. *)
Definition counted st st' : Prop :=
  forall c, match generation st c, generation st' c with
            | Some g, Some g' => (g <= g')%N /\ (g = g' -> docs st' c = docs st c)
            | None, None => True
            | _, _ => False
            end.

Lemma counted_refl st : counted st st.
Proof. intros c. by destruct (generation st c). Qed.

Lemma counted_trans st st' st'' : counted st st' -> counted st' st'' -> counted st st''.
Proof.
  intros Ha Hb c. specialize (Ha c). specialize (Hb c).
  destruct (generation st c), (generation st' c), (generation st'' c); try done.
  destruct Ha as [? Hd1], Hb as [? Hd2]. split; [lia|]. intros Heq. rewrite Hd2 by lia. apply Hd1. lia.
Qed.

Lemma advances_counted st st' c :
  advances st st' c -> (forall c', c' <> c -> docs st' c' = docs st c') -> counted st st'.
Proof.
  intros (Hs & Hn & Ho) Hd c'. destruct (decide (c' = c)) as [->|Hne].
  - destruct (generation st c) as [g|].
    + destruct (Hs g eq_refl) as (g' & -> & Hg). split; [lia|]. lia.
    + by rewrite Hn.
  - rewrite Ho by done. destruct (generation st c'); [|done]. split; [lia|]. intros _. by apply Hd.
Qed.

(** The state with another storage, whose documents are given by [f]. *)
Definition stored st st' (f : string -> Docs -> Docs) : Prop :=
  storage_ok st' /\ (forall c, docs st' c = f c (docs st c)) /\ catalog_doc st' = catalog_doc st /\ counted st st'.

Lemma stored_refl st : storage_ok st -> stored st st (fun _ m => m).
Proof. intros Hok. split_and!; [done..|apply counted_refl]. Qed.

Lemma stored_trans st st' st'' f g : stored st st' f -> stored st' st'' g -> stored st st'' (fun c m => g c (f c m)).
Proof.
  intros (_ & Hd & Hc & Hg) (Hok & Hd' & Hc' & Hg'). split_and!; [done| |congruence|by eapply counted_trans].
  intros c. by rewrite Hd', Hd.
Qed.

Lemma with_storage_twice s st st' : with_storage (with_storage s st) st' = with_storage s st'.
Proof. done. Qed.

Lemma with_storage_same s : with_storage s (storage (db s)) = s.
Proof. by destruct s as [[] ?]. Qed.

Definition set_in (c rid : string) (doc : option Value) (c' : string) (m : Docs) : Docs :=
  if decide (c = c') then set_doc m rid doc else m.

(** A storage that never fails, as the one in memory. *)
Class Reliable := {
  get_total st c r : exists d, storage_get st c r = Ok d;
  put_total st c r d : exists st', storage_put st c r d = Ok st';
  delete_total st c r : exists st', storage_delete st c r = Ok st';
  truncate_total st c : exists st', storage_truncate st c = Ok st';
  save_total st j : exists st', save_catalog_doc st j = Ok st'
}.

(** [m] only writes the storage, as [f] says: without an error when the storage
    is reliable. *)
Definition only_writes {A} (m : handler A) (f : string -> Docs -> Docs) : Prop :=
  (forall s s' a, storage_ok (storage (db s)) -> m s = (s', Some (Ok a)) ->
     exists st', s' = with_storage s st' /\ stored (storage (db s)) st' f) /\
  (Reliable -> forall s, storage_ok (storage (db s)) -> exists s' a, m s = (s', Some (Ok a))).

Lemma only_writes_bind {A B} (m : handler A) (k : A -> handler B) f g :
  only_writes m f -> (forall a, only_writes (k a) g) -> only_writes (m ≫= k) (fun c d => g c (f c d)).
Proof.
  intros [Hm Hmr] Hk. split.
  - intros s s'' b Hok (a & s' & Ha & Hb)%bind_ok. destruct (Hm s s' a Hok Ha) as (st' & -> & Hst').
    destruct (proj1 (Hk a) (with_storage s st') s'' b) as (st'' & -> & Hst''); [apply Hst'|done|].
    exists st''. split; [done|]. by eapply stored_trans.
  - intros Hr s Hok. destruct (Hmr Hr s Hok) as (s' & a & Ha). destruct (Hm s s' a Hok Ha) as (st' & -> & Hst').
    destruct (proj2 (Hk a) Hr (with_storage s st')) as (s'' & b & Hb); [apply Hst'|].
    exists s'', b. apply bind_ok. eauto.
Qed.

Lemma only_writes_ret {A} (a : A) : only_writes (mret a) (fun _ m => m).
Proof.
  split; [|intros _ s _; by eexists _, _]. intros s s' a' Hok [= <- _]. exists (storage (db s)).
  split; [by rewrite with_storage_same|by apply stored_refl].
Qed.

Lemma only_writes_ext {A} (m : handler A) f g :
  (forall c d, f c d = g c d) -> only_writes m f -> only_writes m g.
Proof.
  intros Hfg [Hm Hr]. split; [|done]. intros s s' a Hok Ha. destruct (Hm s s' a Hok Ha) as (st' & -> & Hs & Hd & Hc & Hg).
  exists st'. split; [done|]. split_and!; [done| |done..]. intros c. by rewrite Hd.
Qed.

Lemma only_writes_writing (op : S -> res S) f :
  (forall st st', storage_ok st -> op st = Ok st' -> stored st st' f) ->
  (Reliable -> forall st, exists st', op st = Ok st') -> only_writes (writing op) f.
Proof.
  intros Hop Htotal. split; unfold writing.
  - intros s s' a Hok. destruct (op (storage (db s))) as [st'|] eqn:E; [|done]. intros [= <- _]. exists st'. eauto.
  - intros Hr s _. destruct (Htotal Hr (storage (db s))) as [st' ->]. by eexists _, _.
Qed.

Lemma only_writes_gets {A B} (g : Engine -> A) (k : A -> handler B) f :
  (forall a, only_writes (k a) f) -> only_writes (gets g ≫= k) f.
Proof.
  intros Hk. split; [intros s; apply (Hk (g s))|]. intros Hr s. apply (Hk (g s)). done.
Qed.

Lemma only_writes_row watch events c rid doc :
  only_writes (write_row watch events c rid doc) (set_in c rid doc).
Proof.
  unfold write_row. apply (only_writes_ext _ (fun c' d => (fun c' d => d) c' (set_in c rid doc c' d))); [done|].
  apply only_writes_bind with (f := fun _ d => d) (g := set_in c rid doc).
  - destruct watch; [|apply only_writes_ret]. split.
    + intros s s' a Hok (old & s1 & Hr & [= <- _])%bind_ok. injection Hr as <- _. exists (storage (db s)).
      split; [by rewrite with_storage_same|by apply stored_refl].
    + intros Hr s _. destruct (get_total (storage (db s)) c rid) as [d Hd]. eexists s, _. apply bind_ok. eexists d, s.
      unfold reading. by rewrite Hd.
  - intros events'. apply (only_writes_bind _ _ (set_in c rid doc) (fun _ d => d)); [|intros _; apply only_writes_ret].
    apply only_writes_writing.
    + intros st st' Hok Hop. unfold stored, set_in. destruct doc as [doc|].
      * apply put_docs in Hop as (? & Hd & Hne & ? & Ha); [|done].
        split_and!; [done| |done|by eapply advances_counted]. intros c'. case_decide; [by subst|by apply Hne].
      * apply delete_docs in Hop as (? & Hd & Hne & ? & Ha); [|done].
        split_and!; [done| |done|by eapply advances_counted]. intros c'. case_decide; [by subst|by apply Hne].
    + intros Hr st. destruct doc; [apply put_total|apply delete_total].
Qed.

Lemma only_writes_truncate c :
  only_writes (writing (fun st => storage_truncate st c)) (fun c' m => if decide (c = c') then [] else m).
Proof.
  apply only_writes_writing.
  - intros st st' Hok Hop. apply truncate_docs in Hop as (? & Hd & Hne & ? & Ha); [|done].
    split_and!; [done| |done|by eapply advances_counted]. intros c'. case_decide; [by subst|by apply Hne].
  - intros Hr st. apply truncate_total.
Qed.

Lemma only_writes_mutations watch events ms :
  only_writes (write_mutations watch events ms) (fun c d => foldl (mutate_docs c) d ms).
Proof.
  revert events. induction ms as [|mu ms IH]; intros events; [apply only_writes_ret|]. cbn [write_mutations foldl].
  apply (only_writes_bind _ _ (fun c d => mutate_docs c d mu) (fun c d => foldl (mutate_docs c) d ms)); [|intros; apply IH].
  destruct mu as [c rid doc|c rid|c]; cbn [mutate_docs].
  - apply only_writes_row.
  - apply only_writes_row.
  - apply (only_writes_bind _ _ _ (fun _ d => d)); [apply only_writes_truncate|intros _; apply only_writes_ret].
Qed.

Lemma only_writes_truncate_all cs :
  only_writes (truncate_all cs) (fun c m => if bool_decide (c ∈ cs) then [] else m).
Proof.
  unfold truncate_all. induction cs as [|c cs IH]; [apply only_writes_ret|]. cbn [for_each].
  eapply only_writes_ext; [|apply (only_writes_bind _ _ _ _ (only_writes_truncate c) (fun _ => IH))].
  intros c' d. cbn beta. destruct (decide (c = c')) as [->|Hne].
  - rewrite (bool_decide_true (c' ∈ c' :: cs)) by left. by case_bool_decide.
  - by rewrite (bool_decide_ext (c' ∈ c :: cs) (c' ∈ cs)) by set_solver.
Qed.

Lemma only_writes_overlay watch events ws :
  only_writes (write_overlay watch events ws) (fun c d => foldl (fun d w => set_in w.1.1 w.1.2 w.2 c d) d ws).
Proof.
  revert events. induction ws as [|[[c rid] doc] ws IH]; intros events; [apply only_writes_ret|]. cbn [write_overlay foldl].
  apply (only_writes_bind _ _ (set_in c rid doc) (fun c d => foldl (fun d w => set_in w.1.1 w.1.2 w.2 c d) d ws));
    [apply only_writes_row|intros; apply IH].
Qed.

(** ** The end of a transaction *)

Lemma get_set_in c rid doc c' m r :
  BTreeMap.get (set_in c rid doc c' m) r = if decide ((c, rid) = (c', r)) then doc else BTreeMap.get m r.
Proof.
  unfold set_in. destruct (decide (c = c')) as [->|Hne]; [|by rewrite decide_False by congruence].
  rewrite get_set_doc. repeat case_decide; congruence.
Qed.

Lemma fold_writes_get c (ws : list (string * string * option Value)) m r v :
  (forall w, w ∈ ws -> w.1 = (c, r) -> w.2 = v) ->
  (BTreeMap.get m r = v \/ exists w, w ∈ ws /\ w.1 = (c, r)) ->
  BTreeMap.get (foldl (fun d w => set_in w.1.1 w.1.2 w.2 c d) m ws) r = v.
Proof.
  revert m. induction ws as [|w ws IH]; intros m Hv Hm; cbn [foldl].
  - by destruct Hm as [?|(w & []%not_elem_of_nil & _)].
  - apply IH; [intros; by apply Hv; [right|]|]. rewrite get_set_in, <- surjective_pairing.
    destruct (decide (w.1 = (c, r))) as [Hw|Hw]; [left; by apply Hv; [left|]|].
    destruct Hm as [?|(w' & [->|Hin]%elem_of_cons & Hk)]; [by left|done|right; eauto].
Qed.

Lemma elem_of_overlay_writes over c r v :
  (c, r, v) ∈ overlay_writes over <-> over !! c ≫= lookup r = Some v.
Proof.
  unfold overlay_writes. rewrite list_elem_of_join. split.
  - intros (l & Hin & ([c' rs] & -> & Hc%elem_of_map_to_list)%list_elem_of_fmap).
    apply list_elem_of_fmap in Hin as ([r' v'] & [= -> -> ->] & Hr%elem_of_map_to_list). cbn [fst snd] in *.
    rewrite Hc. cbn. done.
  - destruct (over !! c) as [rs|] eqn:Hc; [|done]. cbn. intros Hr.
    exists ((fun rv => (c, rv.1, rv.2)) <$> map_to_list rs). split.
    + apply list_elem_of_fmap. exists (r, v). split; [done|]. by apply elem_of_map_to_list.
    + apply list_elem_of_fmap. exists (c, rs). split; [done|]. by apply elem_of_map_to_list.
Qed.

Lemma fold_writes_sorted c ws m :
  BTreeMap.sorted m -> BTreeMap.sorted (foldl (fun d w => set_in w.1.1 w.1.2 w.2 c d) m ws).
Proof.
  revert m. induction ws as [|w ws IH]; intros m Hm; [done|]. cbn [foldl]. apply IH. unfold set_in.
  case_decide; [by apply set_doc_sorted|done].
Qed.

(** Truncating, then writing the staged rows, stores what the transaction shows. *)
Lemma published over (trunc : gset string) c m :
  BTreeMap.sorted m ->
  foldl (fun d w => set_in w.1.1 w.1.2 w.2 c d) (if bool_decide (c ∈ elements trunc) then [] else m)
    (overlay_writes over) = staged_docs over trunc c m.
Proof.
  intros Hm. destruct (staged_spec over trunc c m Hm) as [Hs Hg].
  assert (Hb : bool_decide (c ∈ elements trunc) = bool_decide (c ∈ trunc)) by (apply bool_decide_ext; set_solver).
  rewrite Hb. clear Hb.
  apply BTreeMap.sorted_ext; [apply fold_writes_sorted; case_bool_decide; [constructor|done]|done|].
  intros r. rewrite Hg. apply fold_writes_get.
  - intros [[c' r'] v] Hin [= -> ->]. apply elem_of_overlay_writes in Hin. by rewrite Hin.
  - destruct (over !! c ≫= lookup r) as [v|] eqn:E.
    + right. exists (c, r, v). split; [by apply elem_of_overlay_writes|done].
    + left. by case_bool_decide.
Qed.

(** What a session sees of a collection. *)
Definition session_docs s (c : string) : Docs :=
  match txn (session s) with
  | Some tx => staged_docs (overlay tx) (truncated tx) c (docs (storage (db s)) c)
  | None => docs (storage (db s)) c
  end.

Lemma load_overlay_total c over trunc names tables s :
  (load_all (fun q => load_table_with_overlay c q over trunc) names tables s).2 <> None.
Proof.
  revert tables s. induction names as [|q names IH]; intros tables s; [done|]. cbn [load_all].
  case_decide; [apply IH|]. unfold mbind, handler_bind, load_table_with_overlay at 1.
  destruct (get_table c q) as [t|]; [|apply IH]. unfold mbind, handler_bind, reading.
  destruct (scan _ _) as [ds|]; [|done]. cbn [lift]. unfold lift. destruct (build _ _ _); [|done]. apply IH.
Qed.

Lemma check_deferred_quiet s c over trunc checks s' r :
  check_deferred c over trunc checks s = (s', r) -> s' = s /\ r <> None.
Proof.
  intros Hc. pose proof (keeps_check_deferred (eq s) c over trunc checks s eq_refl) as Hk. rewrite Hc in Hk.
  split; [done|]. intros ->. unfold check_deferred in Hc. destruct checks as [|d checks]; [done|].
  unfold mbind, handler_bind in Hc.
  pose proof (load_overlay_total c over trunc (deferred_check_tables (d :: checks) c) ∅ s) as Hl.
  destruct (load_all _ _ _ _) as [s1 [[tables|e]|]]; [|done|done]. done.
Qed.

Lemma gets_step {A B} (f : Engine -> A) (k : A -> handler B) s : (gets f ≫= k) s = k (f s) s.
Proof. done. Qed.

Lemma modify_step {B} f (k : unit -> handler B) s : (modify f ≫= k) s = k tt (f s).
Proof. done. Qed.

Lemma ret_step {A B} (a : A) (k : A -> handler B) s : ((mret a : handler A) ≫= k) s = k a s.
Proof. done. Qed.

Lemma bind_step {A B} (m : handler A) (k : A -> handler B) s s' a :
  m s = (s', Some (Ok a)) -> (m ≫= k) s = k a s'.
Proof. unfold mbind, handler_bind. by intros ->. Qed.

Lemma bind_fails {A B} (m : handler A) (k : A -> handler B) s s' e :
  m s = (s', Some (Err e)) -> (m ≫= k) s = (s', Some (Err e)).
Proof. unfold mbind, handler_bind. by intros ->. Qed.

Lemma on_error_step {A} (m : handler A) f s s' a : m s = (s', Some (Ok a)) -> on_error m f s = (s', Some (Ok a)).
Proof. unfold on_error. by intros ->. Qed.

Lemma on_error_fails {A} (m : handler A) f s s' e : m s = (s', Some (Err e)) -> on_error m f s = (f s', Some (Err e)).
Proof. unfold on_error. by intros ->. Qed.

(** The state after writes and their events. *)
Definition wrote s s' (f : string -> Docs -> Docs) : Prop :=
  exists st' es, s' = with_delivered (with_storage s st') es /\ stored (storage (db s)) st' f.

Lemma apply_mutations_wrote ms s s' u :
  storage_ok (storage (db s)) -> apply_mutations ms s = (s', Some (Ok u)) ->
  wrote s s' (fun c d => foldl (mutate_docs c) d ms).
Proof.
  intros Hok. unfold apply_mutations. rewrite gets_step. intros (es & s1 & Hw & [= <-])%bind_ok.
  destruct (proj1 (only_writes_mutations (listening (db s)) [] ms) s s1 es Hok Hw) as (st' & -> & Hst').
  destruct s as [[st nm lk tc li de] ses]. cbn [with_storage db listening].
  destruct li; [by eexists st', _|]. by exists st', de.
Qed.

Lemma apply_mutations_total `{!Reliable} ms s :
  storage_ok (storage (db s)) -> exists s', apply_mutations ms s = (s', Some (Ok tt)).
Proof.
  intros Hok. unfold apply_mutations. rewrite gets_step.
  destruct (proj2 (only_writes_mutations (listening (db s)) [] ms) _ s Hok) as (s1 & es & Hw).
  eexists. by rewrite (bind_step _ _ _ _ _ Hw).
Qed.

(** Deferred triggers fail without effect, or write. *)
Lemma fire_deferred_outcome `{!Reliable} c over trunc firings s :
  storage_ok (storage (db s)) ->
  (exists e, fire_deferred_triggers c over trunc firings s = (s, Some (Err e))) \/
  (exists s' ms, fire_deferred_triggers c over trunc firings s = (s', Some (Ok tt)) /\
     wrote s s' (fun c d => foldl (mutate_docs c) d ms) /\ (firings = [] -> ms = [])).
Proof.
  intros Hok. destruct firings as [|f firings].
  { right. exists s, []. split; [done|]. split; [|done]. exists (storage (db s)), (delivered (db s)).
    split; [by destruct s as [[] ?]|by apply stored_refl]. }
  unfold fire_deferred_triggers. set (names := (fun qt => table_qualified qt.2) <$> SqlCatalog.tables c).
  pose proof (load_overlay_total c over trunc names ∅ s) as Hn.
  pose proof (keeps_load_all (eq s) (fun q => load_table_with_overlay c q over trunc) names ∅
    (fun q => keeps_load_overlay _ _ _ _ _) s eq_refl) as Hs.
  destruct (load_all _ names ∅ s) as [s1 [[tables|e]|]] eqn:E; cbn [fst snd] in *; [subst s1|subst s1|done].
  - rewrite (bind_step _ _ _ _ _ E), gets_step. unfold lift.
    destruct (fire_deferred _ _) as [x|e] eqn:Ef.
    + right. destruct (apply_mutations_total (mutations x) s Hok) as [s' Hs']. exists s', (mutations x).
      split; [done|]. split; [by eapply apply_mutations_wrote|done].
    + left. by exists e.
  - left. exists e. by rewrite (bind_fails _ _ _ _ _ E).
Qed.

(** ** COMMIT *)

Lemma save_catalog_wrote c s s' u :
  storage_ok (storage (db s)) -> save_catalog c s = (s', Some (Ok u)) ->
  exists j st', catalog_to_json c = Ok j /\ s' = with_storage s st' /\ storage_ok st' /\
    docs st' = docs (storage (db s)) /\ catalog_doc st' = Some j /\ counted (storage (db s)) st'.
Proof.
  intros Hok. unfold save_catalog. destruct (catalog_to_json c) as [j|]; [|done]. unfold writing.
  destruct (save_catalog_doc _ j) as [st'|] eqn:E; [|done]. intros [= <- _].
  apply save_catalog_docs in E as (? & Hd & ? & Hg); [|done]. exists j, st'. split_and!; try done.
  intros c'. rewrite Hg, Hd. by destruct (generation (storage (db s)) c').
Qed.

Lemma save_catalog_total `{!Reliable} c s :
  is_ok (catalog_to_json c) = true -> exists s', save_catalog c s = (s', Some (Ok tt)).
Proof.
  unfold save_catalog. destruct (catalog_to_json c) as [j|]; [|done]. intros _. unfold writing.
  destruct (save_total (storage (db s)) j) as [st' ->]. by eexists.
Qed.

(** What COMMIT does with the transaction [tx]. *)
Definition committed s s' (tx : Transaction) (ms : list Mutation) : Prop :=
  storage_ok (storage (db s')) /\
  (forall c, docs (storage (db s')) c =
     staged_docs (overlay tx) (truncated tx) c (foldl (mutate_docs c) (docs (storage (db s)) c) ms)) /\
  (if txn_catalog_dirty tx
   then exists j, catalog_to_json (txn_catalog tx) = Ok j /\ catalog_doc (storage (db s')) = Some j
   else catalog_doc (storage (db s')) = catalog_doc (storage (db s))) /\
  counted (storage (db s)) (storage (db s')) /\
  table_cache (db s') = (if txn_catalog_dirty tx then ∅ else table_cache (db s)).

Lemma mutate_sorted c m mu : BTreeMap.sorted m -> BTreeMap.sorted (mutate_docs c m mu).
Proof.
  intros Hm. destruct mu; cbn [mutate_docs]; case_decide; try done; [by apply set_doc_sorted..|constructor].
Qed.

Lemma mutations_sorted c m ms : BTreeMap.sorted m -> BTreeMap.sorted (foldl (mutate_docs c) m ms).
Proof. revert m. induction ms; intros m Hm; [done|]. cbn [foldl]. eauto using mutate_sorted. Qed.

Lemma commit_outcome `{!Reliable} s tx s' r :
  storage_ok (storage (db s)) -> txn (session s) = Some tx -> is_ok (catalog_to_json (txn_catalog tx)) = true ->
  commit s = (s', r) ->
  session s' = session (with_txn s None) /\ locks (db s') = locks (db (release s)) /\
  match r with
  | Some (Ok out) =>
      if aborted tx then out = Tag "ROLLBACK" /\ s' = release (with_txn s None)
      else out = Tag "COMMIT" /\ exists ms, (pending_triggers tx = [] -> ms = []) /\ committed s s' tx ms
  | Some (Err _) => aborted tx = false /\ s' = release (with_txn s None)
  | None => False
  end.
Proof.
  intros Hok Htx Hj. unfold commit. rewrite gets_step, modify_step, Htx. set (s0 := with_txn s None).
  destruct (aborted tx) eqn:Ha; [intros [= <- <-]; done|].
  destruct (check_deferred (txn_catalog tx) (overlay tx) (truncated tx) (pending_deferred tx) s0) as [s1 r1] eqn:E1.
  pose proof (check_deferred_quiet _ _ _ _ _ _ _ E1) as [-> Hr1]. destruct r1 as [[[]|e]|]; [| |done].
  2: { erewrite bind_fails by (by apply on_error_fails). intros [= <- <-]. done. }
  erewrite bind_step by (by apply on_error_step). clear E1 Hr1.
  destruct (fire_deferred_outcome (txn_catalog tx) (overlay tx) (truncated tx) (pending_triggers tx) s0 Hok)
    as [[e E2]|(s2 & ms & E2 & (st2 & es & -> & Hst2) & Hms)].
  { erewrite bind_fails by (by apply on_error_fails). intros [= <- <-]. done. }
  erewrite bind_step by (by apply on_error_step). rewrite gets_step. set (s2 := with_delivered _ es).
  destruct (proj2 (only_writes_truncate_all (elements (truncated tx))) _ s2 ltac:(apply Hst2)) as (s3 & u & E3).
  destruct (proj1 (only_writes_truncate_all (elements (truncated tx))) s2 s3 u ltac:(apply Hst2) E3) as (st3 & -> & Hst3).
  rewrite (bind_step _ _ _ _ _ E3). clear E3 u. set (s3 := with_storage s2 st3).
  set (ws := overlay_writes (overlay tx)).
  destruct (proj2 (only_writes_overlay (listening (db s2)) [] ws) _ s3 ltac:(apply Hst3)) as (s4 & events & E4).
  destruct (proj1 (only_writes_overlay (listening (db s2)) [] ws) s3 s4 events ltac:(apply Hst3) E4) as (st4 & -> & Hst4).
  rewrite (bind_step _ _ _ _ _ E4). clear E4.
  pose proof (stored_trans _ _ _ _ _ (stored_trans _ _ _ _ _ Hst2 Hst3) Hst4) as (Hok4 & Hd4 & Hc4 & Hg4).
  assert (Hd : forall c, docs st4 c =
    staged_docs (overlay tx) (truncated tx) c (foldl (mutate_docs c) (docs (storage (db s)) c) ms)).
  { intros c. rewrite Hd4. apply published, mutations_sorted. by apply docs_sorted. }
  destruct (txn_catalog_dirty tx) eqn:Hdirty.
  - destruct (save_catalog_total (txn_catalog tx) (with_storage s3 st4) Hj) as [s5 E5].
    destruct (save_catalog_wrote _ (with_storage s3 st4) s5 tt Hok4 E5) as (j & st5 & Hjs & -> & Hok5 & Hd5 & Hc5 & Hg5).
    erewrite bind_step by (erewrite bind_step by exact E5; reflexivity). unfold emit_changes. rewrite !modify_step.
    intros [= <- <-]. destruct (listening _); (do 2 (split; [done|]); split; [done|]; exists ms; split; [done|];
      split; [exact Hok5|]; split; [intros c; cbn; rewrite Hd5; apply Hd|]; rewrite Hdirty; split; [by exists j|];
      split; [by eapply counted_trans|done]).
  - rewrite ret_step. unfold emit_changes. rewrite !modify_step.
    intros [= <- <-]. destruct (listening _); (do 2 (split; [done|]); split; [done|]; exists ms; split; [done|];
      split; [exact Hok4|]; split; [exact Hd|]; rewrite Hdirty; split; [exact Hc4|]; split; [exact Hg4|done]).
Qed.
End engine_inv.
