(* ===== verification/StoredTables.v ===== *)
(** * Tables and their documents

    The documents of a collection are the encoded rows of its table, and stay so
    when a statement's writes are carried out on them. *)

From S2P Require Import Prelude BTree Json Utf8 RustString RustFloat SqlTypes Fts SqlValue SqlTyping SqlConvert SqlStorage OrdMap Lock SqlCatalog TableStore TableStoreInv RelStorage SqlExec SqlTrigger ForeignKeys Dml WriteLog SqlEngine SqlEngineInv.

Section stored.
Context `{!Foreign, !ForeignText, !ForeignStorage, !SqlSyntax, !Evaluator}.

(** ** Loading *)

(** Every document is the encoding of the row with its id, and every row has one. *)
Definition encoded (t : Table) (m : Docs) (rs : list (string * RowValues)) : Prop :=
  forall rid, match BTreeMap.get m rid, BTreeMap.get rs rid with
              | Some d, Some row => exists version, in_i64 version /\ d = encode_row t rid row version
              | None, None => True
              | _, _ => False
              end.

(** Rows whose encoding determines them. *)
Definition readable (t : Table) (rs : list (string * RowValues)) : Prop :=
  Forall (fun kv => row_full t kv.2 /\ row_storable t kv.2) rs.

(** Columns that a document can hold beside the fields of the system. *)
Definition columns_fit (t : Table) : Prop :=
  NoDup (column_names t) /\ forall a, a ∈ column_names t -> a ∉ reserved.

Lemma decode_all t rs (l : Docs) (a : list (string * RowValues)) (b : list (string * Z)) :
  columns_fit t ->
  (forall rid d, (rid, d) ∈ l -> exists row version, BTreeMap.get rs rid = Some row /\ row_full t row /\
     row_storable t row /\ in_i64 version /\ d = encode_row t rid row version) ->
  BTreeMap.sorted a -> (forall rid v, BTreeMap.get b rid = Some v -> in_i64 v) ->
  exists a' b', try_fold (fun (rv : list (string * RowValues) * list (string * Z)) (doc : string * Value) =>
      let? r := decode_row_owned t doc.2 in
      match r with
      | Some (id, values, version) => Ok (BTreeMap.insert rv.1 id values, BTreeMap.insert rv.2 id version)
      | None => Ok rv
      end) (a, b) l = Ok (a', b') /\
    BTreeMap.sorted a' /\ (forall rid v, BTreeMap.get b' rid = Some v -> in_i64 v) /\
    forall rid, BTreeMap.get a' rid = if decide (rid ∈ l.*1) then BTreeMap.get rs rid else BTreeMap.get a rid.
Proof.
  intros [Hnd Hfree]. revert a b. induction l as [|[rid d] l IH]; intros a b Hl Ha Hb.
  { exists a, b. cbn [try_fold]. split_and!; try done. }
  destruct (Hl rid d) as (row & version & Hrow & Hfull & Hst & Hv & ->); [left|]. cbn [try_fold snd].
  rewrite decode_encode_row by done. rewrite Hfull. cbn [fst snd].
  destruct (IH (BTreeMap.insert a rid row) (BTreeMap.insert b rid version)) as (a' & b' & E & Hs' & Hb' & Hg).
  - intros r d' Hin. apply Hl. by right.
  - by apply BTreeMap.insert_sorted.
  - intros r v. rewrite BTreeMap.get_insert. case_decide; [by intros [= <-]|apply Hb].
  - exists a', b'. split_and!; [done..|]. intros r. rewrite Hg, BTreeMap.get_insert, fmap_cons. cbn [fst].
    destruct (decide (r ∈ l.*1)); [by rewrite decide_True by (by right)|].
    destruct (decide (r = rid)) as [->|Hne]; [by rewrite decide_True by left|].
    by rewrite decide_False by (rewrite elem_of_cons; tauto).
Qed.

(** Loading the documents gives the rows back. *)
Lemma encoded_build t m rs defs :
  columns_fit t -> BTreeMap.sorted m -> BTreeMap.sorted rs -> readable t rs -> encoded t m rs ->
  exists l, build t m defs = Ok l /\ meta l = t /\ rows l = rs /\ versions_ok l /\
    index_metas l = filter (fun i => index_method i <> "hnsw"%string) defs.
Proof.
  intros Hc Hm Hrs Hrd Henc. unfold build.
  destruct (decode_all t rs m [] [] Hc) as (a & b & -> & Ha & Hb & Hg).
  - intros rid d Hin. apply (BTreeMap.elem_get m rid d Hm) in Hin. specialize (Henc rid). rewrite Hin in Henc.
    destruct (BTreeMap.get rs rid) as [row|] eqn:Er; [|done]. destruct Henc as (v & Hv & ->).
    apply BTreeMap.get_Some_elem in Er as Hin'. unfold readable in Hrd. rewrite Forall_forall in Hrd. destruct (Hrd _ Hin'). by exists row, v.
  - constructor.
  - done.
  - eexists. split; [done|]. assert (Hrows : a = rs).
    { apply BTreeMap.sorted_ext; [done..|]. intros r. rewrite Hg. case_decide as Hr; [done|]. specialize (Henc r).
      apply BTreeMap.get_None in Hr. rewrite Hr in Henc. by destruct (BTreeMap.get rs r). }
    unfold rebuild_indexes, index_metas. cbn [meta rows versions lindexes fst snd]. split_and!; try done.
    + intros r. unfold version_of. cbn [versions]. destruct (BTreeMap.get b r) as [v|] eqn:E; [by apply (Hb r)|done].
    + assert (Hf : forall (rs : list (string * RowValues)) (l : list LoadedIndex),
        lindex_meta <$> foldl (fun l kv => enter_row kv.1 kv.2 <$> l) l rs = lindex_meta <$> l).
      { clear. induction rs as [|kv rs IH]; intros l; [done|]. cbn [foldl]. rewrite IH. apply map_data_metas. }
      rewrite Hf, map_data_metas, <- list_fmap_compose. apply list_fmap_id.
Qed.

(** ** Writing *)

Lemma encoded_put t m rs rid row version :
  in_i64 version -> encoded t m rs ->
  encoded t (set_doc m rid (Some (encode_row t rid row version))) (BTreeMap.insert rs rid row).
Proof.
  intros Hv Henc r. rewrite get_set_doc, BTreeMap.get_insert. destruct (decide (r = rid)) as [->|]; [eauto|apply Henc].
Qed.

Lemma encoded_delete t m rs rid : encoded t m rs -> encoded t (set_doc m rid None) (BTreeMap.remove rs rid).
Proof. intros Henc r. rewrite get_set_doc, BTreeMap.get_remove. destruct (decide (r = rid)); [done|apply Henc]. Qed.

(** What a statement does to a table, and its mutations to the documents. *)
Record table_effect (W : QualifiedName -> Prop) (ms : list Mutation) (q : QualifiedName) (l l' : LoadedTable) : Prop := {
  te_meta : meta l' = meta l;
  te_indexes : index_metas l' = index_metas l;
  te_kept : W q \/ l' = l;
  te_versions : versions_ok l -> versions_ok l';
  te_docs : forall m, versions_ok l -> encoded (meta l) m (rows l) ->
    encoded (meta l) (foldl (mutate_docs (table_storage_collection (meta l))) m ms) (rows l')
}.

Definition loaded_collection (W : QualifiedName -> Prop) (x : Exec) (coll : string) : Prop :=
  exists q l, W q /\ loaded x !! q = Some l /\ table_storage_collection (meta l) = coll.

Record effect (W : QualifiedName -> Prop) (x x' : Exec) (ms : list Mutation) : Prop := {
  ef_mutations : mutations x' = mutations x ++ ms;
  ef_undeferred : undeferred x x';
  ef_schema : same_schema (catalog x) (catalog x');
  ef_tables : forall q, option_Forall2 (table_effect W ms q) (loaded x !! q) (loaded x' !! q);
  ef_others : forall coll m, ~ loaded_collection W x coll -> foldl (mutate_docs coll) m ms = m
}.

Definition distinct_collections (x : Exec) : Prop :=
  forall q q' l l', loaded x !! q = Some l -> loaded x !! q' = Some l' ->
    table_storage_collection (meta l) = table_storage_collection (meta l') -> q = q'.

Lemma undeferred_trans x y z : undeferred x y -> undeferred y z -> undeferred x z.
Proof.
  intros [Ha Hb Hc] [Ha' Hb' Hc']. split; [congruence| |congruence]. intros Hn. rewrite Hb' by congruence. by apply Hb.
Qed.

Lemma table_effect_refl W q l : table_effect W [] q l l.
Proof. by split; try right. Qed.

Lemma effect_refl W x : effect W x x [].
Proof.
  split; [by rewrite app_nil_r|done|apply same_schema_refl| |done].
  intros q. destruct (loaded x !! q); constructor. apply table_effect_refl.
Qed.

Lemma table_effect_trans W ms ms' q l l' l'' :
  table_effect W ms q l l' -> table_effect W ms' q l' l'' -> table_effect W (ms ++ ms') q l l''.
Proof.
  intros [Hm Hi Hk Hv Hd] [Hm' Hi' Hk' Hv' Hd']. split; [congruence|congruence| |auto|].
  - destruct Hk as [?| ->]; [by left|]. destruct Hk' as [?| ->]; [by left|by right].
  - intros m Hok Henc. rewrite foldl_app. rewrite Hm in Hd'. apply Hd'; auto.
Qed.

Lemma loaded_collection_effect W x y ms coll :
  effect W x y ms -> loaded_collection W y coll -> loaded_collection W x coll.
Proof.
  intros He (q & l & Hq & Hl & Hc). pose proof (ef_tables _ _ _ _ He q) as Ht. rewrite Hl in Ht.
  inversion Ht as [l0 ? Hte Heq|]; subst. exists q, l0. split_and!; [done..|]. by rewrite <- (te_meta _ _ _ _ _ Hte).
Qed.

Lemma effect_trans W x y z ms ms' : effect W x y ms -> effect W y z ms' -> effect W x z (ms ++ ms').
Proof.
  intros Hxy Hyz. split.
  - by rewrite (ef_mutations _ _ _ _ Hyz), (ef_mutations _ _ _ _ Hxy), app_assoc.
  - eapply undeferred_trans; [apply Hxy|apply Hyz].
  - eapply same_schema_trans; [apply Hxy|apply Hyz].
  - intros q. pose proof (ef_tables _ _ _ _ Hxy q) as Ha. pose proof (ef_tables _ _ _ _ Hyz q) as Hb.
    destruct Ha; inversion Hb; subst; constructor. by eapply table_effect_trans.
  - intros coll m Hc. rewrite foldl_app, (ef_others _ _ _ _ Hxy) by done. apply (ef_others _ _ _ _ Hyz).
    intros Hc'. apply Hc. by eapply loaded_collection_effect.
Qed.

Lemma distinct_effect W x y ms : effect W x y ms -> distinct_collections x -> distinct_collections y.
Proof.
  intros He Hd q q' l l' Hl Hl' Hc. pose proof (ef_tables _ _ _ _ He q) as Ha. pose proof (ef_tables _ _ _ _ He q') as Hb.
  rewrite Hl in Ha. rewrite Hl' in Hb. inversion Ha as [l0 ? Hta Heq|]; inversion Hb as [l0' ? Htb Heq'|]; subst.
  eapply (Hd q q' l0 l0'); [done..|]. by rewrite <- (te_meta _ _ _ _ _ Hta), <- (te_meta _ _ _ _ _ Htb).
Qed.

(** One row of the table [q] changed, by the mutation [mu] of its collection. *)
Lemma row_effect (W : QualifiedName -> Prop) x x' mu q l l' :
  distinct_collections x -> W q -> loaded x !! q = Some l -> loaded x' = <[q := l']> (loaded x) ->
  undeferred x x' -> catalog x' = catalog x -> mutations x' = mutations x ++ [mu] ->
  (forall coll m, table_storage_collection (meta l) <> coll -> mutate_docs coll m mu = m) ->
  table_effect W [mu] q l l' -> effect W x x' [mu].
Proof.
  intros Hd HW Hl Hx' Hu Hcat Hmu Hother Hte. split; [done|done|rewrite Hcat; apply same_schema_refl|..].
  - intros q'. rewrite Hx'. destruct (decide (q' = q)) as [->|Hne]; [rewrite Hl, lookup_insert_eq; by constructor|].
    rewrite lookup_insert_ne by done. destruct (loaded x !! q') as [l0|] eqn:E; constructor.
    assert (Hc : table_storage_collection (meta l) <> table_storage_collection (meta l0))
      by (intros Hc; apply Hne; by eapply (Hd q' q l0 l)).
    split; [done..|by right|done|]. intros m _ Henc. cbn [foldl]. by rewrite Hother.
  - intros coll m Hc. cbn [foldl]. apply Hother. intros Heq. apply Hc. by exists q, l.
Qed.

Lemma wstep_effect W x x' : distinct_collections x -> wstep W x x' -> exists ms, effect W x x' ms.
Proof.
  intros Hd [Hu Hl Hm Hs|q l l' rid row v Hu HW Hl Hx' Hmeta Hix Hrows Hv Hmu Hc|
             q l l' rid Hu HW Hl Hx' Hmeta Hix Hrows Hv Hmu Hc].
  - exists []. split; [by rewrite app_nil_r|done|done| |done]. intros q. rewrite Hl.
    destruct (loaded x !! q); constructor. apply table_effect_refl.
  - eexists. eapply row_effect; try done.
    + intros coll m Hne. cbn [mutate_docs]. by rewrite decide_False.
    + split; [done|done|by left|intros Hok; by destruct (Hv Hok)|]. intros m Hok Henc. cbn [foldl mutate_docs].
      rewrite decide_True, Hrows by done. apply encoded_put; [by destruct (Hv Hok)|done].
  - eexists. eapply row_effect; try done.
    + intros coll m Hne. cbn [mutate_docs]. by rewrite decide_False.
    + split; [done|done|by left|done|]. intros m Hok Henc. cbn [foldl mutate_docs].
      rewrite decide_True, Hrows by done. by apply encoded_delete.
Qed.

Lemma writes_effect W x x' : distinct_collections x -> writes W x x' -> exists ms, effect W x x' ms.
Proof.
  intros Hd. induction 1 as [x|x y z Hstep _ IH]; [exists []; apply effect_refl|].
  destruct (wstep_effect W x y Hd Hstep) as [ms He]. destruct IH as [ms' He']; [by eapply distinct_effect|].
  exists (ms ++ ms'). by eapply effect_trans.
Qed.
End stored.
