(* ===== verification/FkRipple.v ===== *)
(** * The tables that a statement loads

    The tables that referential actions may write ([fk_ripple]) are closed under
    references, and a statement loads them together with their parents. *)

From S2P Require Import Prelude BTree Json Utf8 RustString RustFloat FloatExact SqlTypes Fts FtsInv SqlValue SqlTyping SqlConvert OrdMap Lock SqlCatalog TableStore TableStoreInv RelStorage SqlExec SqlTrigger ForeignKeys Dml ForeignKeysInv SqlEngine.

Section ripple.
Context `{!Foreign, !SqlSyntax, !Evaluator}.

Lemma elem_of_name_set s q q' : q' ∈ name_set_insert s q <-> q' = q \/ q' ∈ s.
Proof.
  unfold name_set_insert. rewrite OrdMap.ord_insert_keys, <- list_fmap_compose.
  replace ((fst ∘ (fun q => (q, tt))) <$> s) with s by (symmetry; apply list_fmap_id). done.
Qed.

(** The names of the tables. *)
Definition names (c : Catalog) : list QualifiedName := (fun qt => table_qualified qt.2) <$> tables c.

Lemma referencing_known c q child fk :
  (child, fk) ∈ referencing_foreign_keys c q ->
  child ∈ names c /\ exists k t, (k, t) ∈ tables c /\ child = table_qualified t /\ fk ∈ table_foreign_keys t /\
    references q fk = true.
Proof.
  unfold referencing_foreign_keys. rewrite list_elem_of_join.
  intros (l & Hin & ([k t] & -> & Ht)%list_elem_of_fmap).
  apply list_elem_of_fmap in Hin as (f & [= -> ->] & [Hr Hf]%list_elem_of_filter). cbn [snd] in *. split.
  - apply list_elem_of_fmap. by exists (k, t).
  - by exists k, t.
Qed.

(** ** The closure *)

Section closure.
Variables (c : Catalog) (root : QualifiedName).

Definition reached (written : list QualifiedName) (q : QualifiedName) : Prop := q = root \/ q ∈ written.

(** The tables not yet written. *)
Definition unwritten (written : list QualifiedName) : nat := length (filter (fun q => q ∉ written) (names c)).

Lemma unwritten_insert written q : q ∈ names c -> q ∉ written -> unwritten (name_set_insert written q) < unwritten written.
Proof.
  intros Hq Hw. apply filter_length_lt with q; [done..| |].
  - intros Hn. apply Hn, elem_of_name_set. by left.
  - intros y Hy Hin. apply Hy, elem_of_name_set. by right.
Qed.

(** One round: the children of a table are queued unless they were before. *)
Lemma push_children l queue written queue' written' :
  Forall (fun cf => cf.1 ∈ names c) l ->
  foldl (fun st (cf : QualifiedName * ForeignKey) =>
    let '(queue, written) := st in
    if bool_decide (cf.1 <> root) && bool_decide (cf.1 ∉ written)
    then ((queue ++ [cf.1])%list, name_set_insert written cf.1) else (queue, written))
    (queue, written) l = (queue', written') ->
  length queue' + unwritten written' <= length queue + unwritten written /\
  (forall q, q ∈ queue -> q ∈ queue') /\ (forall q, q ∈ written -> q ∈ written') /\
  (forall q, q ∈ written' -> q ∈ written \/ q ∈ queue') /\
  Forall (fun cf => reached written' cf.1) l.
Proof.
  revert queue written. induction l as [|[child fk] l IH]; intros queue written Hk.
  { intros [= <- <-]. split_and!; eauto. }
  apply Forall_cons in Hk as [Hc Hk]. cbn [foldl fst].
  destruct (decide (child <> root /\ child ∉ written)) as [[Hr Hw]|Hno].
  - rewrite !bool_decide_true by done. cbn [andb]. intros (Hlen & Hq & Hwr & Hnew & Hl)%IH; [|done].
    pose proof (unwritten_insert written child Hc Hw). rewrite length_app in Hlen. cbn [length] in Hlen.
    assert (Hin : child ∈ queue') by (apply Hq, elem_of_app; right; left).
    split_and!.
    + lia.
    + intros q Hin'. apply Hq, elem_of_app. by left.
    + intros q Hin'. apply Hwr, elem_of_name_set. by right.
    + intros q [[->|?]%elem_of_name_set|?]%Hnew; auto.
    + constructor; [|done]. right. apply Hwr, elem_of_name_set. by left.
  - assert (Hb : bool_decide (child <> root) && bool_decide (child ∉ written) = false).
    { apply not_true_iff_false. intros Ht. apply Hno. apply andb_prop in Ht as [Ha Hb].
      by apply bool_decide_eq_true in Ha, Hb. }
    rewrite Hb. intros (Hlen & Hq & Hwr & Hnew & Hl)%IH; [|done]. split_and!; try done. constructor; [|done].
    destruct (decide (child = root)) as [->|Hr]; [by left|]. right. apply Hwr. cbn [fst].
    destruct (decide (child ∈ written)); [done|]. by destruct Hno.
Qed.

Lemma ripple_closed queue written fuel :
  length queue + unwritten written <= fuel ->
  (forall q, reached written q -> q ∉ queue -> Forall (fun cf => reached written cf.1) (referencing_foreign_keys c q)) ->
  forall q, reached (ripple_children c root queue written fuel) q ->
    Forall (fun cf => reached (ripple_children c root queue written fuel) cf.1) (referencing_foreign_keys c q).
Proof.
  revert queue written. induction fuel as [|fuel IH]; intros [|q0 queue] written Hfuel Hinv q; cbn [ripple_children].
  - intros Hq. apply Hinv; [done|apply not_elem_of_nil].
  - cbn [length] in Hfuel. lia.
  - intros Hq. apply Hinv; [done|apply not_elem_of_nil].
  - destruct (foldl _ _ _) as [queue' written'] eqn:E. apply push_children in E as (Hlen & Hqs & Hws & Hnew & Hl).
    2: { apply Forall_forall. intros [child fk] Hin. by apply (referencing_known c q0 child fk). }
    apply IH; [cbn [length] in Hfuel; lia|]. intros q1 Hq1 Hn.
    destruct (decide (q1 = q0)) as [->|Hne]; [done|].
    assert (Hold : Forall (fun cf => reached written cf.1) (referencing_foreign_keys c q1)).
    { apply Hinv.
      - destruct Hq1 as [?|[?|?]%Hnew]; [by left|by right|done].
      - intros [->|Hin]%elem_of_cons; [done|]. by apply Hn, Hqs. }
    eapply Forall_impl; [exact Hold|]. intros cf [?|?]; [by left|right; auto].
Qed.

Definition written_tables : list QualifiedName := ripple_children c root [root] [] (S (length (tables c))).

Lemma written_closed q child fk :
  reached written_tables q -> (child, fk) ∈ referencing_foreign_keys c q -> reached written_tables child.
Proof.
  intros Hq Hin. assert (Hf : Forall (fun cf => reached written_tables cf.1) (referencing_foreign_keys c q)).
  { apply ripple_closed; [|intros q' [->|[]%not_elem_of_nil] Hn; exfalso; apply Hn; left|done].
    unfold unwritten, names. cbn [length].
    assert (Hlen : forall l : list QualifiedName, length (filter (fun q => q ∉ []) l) <= length l).
    { intros l. apply length_filter. }
    specialize (Hlen ((fun qt => table_qualified qt.2) <$> tables c)). rewrite length_fmap in Hlen. lia. }
  rewrite Forall_forall in Hf. by apply (Hf (child, fk)).
Qed.

Lemma ripple_known queue written fuel q :
  q ∈ ripple_children c root queue written fuel -> q ∈ written \/ q ∈ names c.
Proof.
  revert queue written. induction fuel as [|fuel IH]; intros [|q0 queue] written; cbn [ripple_children]; try by left.
  assert (Hf : forall l queue written, Forall (fun cf : QualifiedName * ForeignKey => cf.1 ∈ names c) l -> forall q,
    q ∈ (foldl (fun st (cf : QualifiedName * ForeignKey) =>
      let '(queue, written) := st in
      if bool_decide (cf.1 <> root) && bool_decide (cf.1 ∉ written)
      then ((queue ++ [cf.1])%list, name_set_insert written cf.1) else (queue, written))
      (queue, written) l).2 -> q ∈ written \/ q ∈ names c).
  { clear. induction l as [|cf l IHl]; intros queue written Hl q; [by left|]. apply Forall_cons in Hl as [Hc Hl].
    cbn [foldl]. destruct (_ && _); intros Hq%IHl; try done. destruct Hq as [[->|?]%elem_of_name_set|?]; auto. }
  specialize (Hf (referencing_foreign_keys c q0) queue written).
  destruct (foldl _ _ _) as [queue' written']. intros [Hq|Hq]%IH; [|by right]. apply Hf; [|done].
  apply Forall_forall. intros [child fk] Hin. by apply (referencing_known c q0 child fk).
Qed.
End closure.

(** ** What a statement loads *)

Lemma elem_of_parents c (qs : list QualifiedName) read0 q t fk p :
  q ∈ qs -> get_table c q = Some t -> fk ∈ table_foreign_keys t ->
  resolve_table_name c (Some (fk_ref_schema fk)) (fk_ref_table fk) = Some p ->
  p ∈ foldl (fun read q =>
    match get_table c q with
    | Some t => foldl (fun read fk =>
        match resolve_table_name c (Some (fk_ref_schema fk)) (fk_ref_table fk) with
        | Some p => name_set_insert read p
        | None => read
        end) read (table_foreign_keys t)
    | None => read
    end) read0 qs.
Proof.
  set (add := fun read fk => match resolve_table_name c (Some (fk_ref_schema fk)) (fk_ref_table fk) with
                             | Some p => name_set_insert read p | None => read end).
  assert (Hmono : forall fks read, p ∈ read -> p ∈ foldl add read fks).
  { induction fks as [|f fks IH]; intros read Hp; [done|]. cbn [foldl]. apply IH. unfold add.
    destruct (resolve_table_name _ _ _); [|done]. apply elem_of_name_set. by right. }
  assert (Hadd : forall fks read, fk ∈ fks ->
    resolve_table_name c (Some (fk_ref_schema fk)) (fk_ref_table fk) = Some p -> p ∈ foldl add read fks).
  { induction fks as [|f fks IH]; intros read Hin Hp; [by apply not_elem_of_nil in Hin|]. cbn [foldl].
    apply elem_of_cons in Hin as [<-|Hin]; [|by apply IH]. apply Hmono. unfold add. rewrite Hp.
    apply elem_of_name_set. by left. }
  intros Hq Ht Hfk Hp. revert read0. induction qs as [|q' qs IH]; intros read0; [by apply not_elem_of_nil in Hq|].
  cbn [foldl]. apply elem_of_cons in Hq as [<-|Hq]; [|by apply IH]. rewrite Ht. fold add.
  assert (Hin : p ∈ foldl add read0 (table_foreign_keys t)) by auto. clear IH. revert Hin.
  generalize (foldl add read0 (table_foreign_keys t)). induction qs as [|q' qs IH]; intros read Hin; [done|]. cbn [foldl].
  apply IH. destruct (get_table c q'); [by apply Hmono|done].
Qed.

Lemma ripple_parents c root inc q t fk p :
  q ∈ root :: (fk_ripple c root inc).1 -> get_table c q = Some t -> fk ∈ table_foreign_keys t ->
  resolve_table_name c (Some (fk_ref_schema fk)) (fk_ref_table fk) = Some p -> p ∈ (fk_ripple c root inc).2.
Proof. unfold fk_ripple. apply elem_of_parents. Qed.

Lemma resolve_some c sch nm p : resolve_table_name c (Some sch) nm = Some p -> p = mk_qualified sch nm.
Proof. unfold resolve_table_name. destruct (has_relation _ _); [|done]. by intros [= <-]. Qed.

Lemma resolve_known c q : is_Some (get_table c q) -> resolve_table_name c (Some (q_schema q)) (q_name q) = Some q.
Proof.
  intros [t Ht]. unfold resolve_table_name, has_relation, OrdMap.contains_key. destruct q as [sch nm]. cbn [q_schema q_name].
  unfold get_table in Ht. rewrite Ht. done.
Qed.

Context `{!EngineSyntax}.

Lemma preload_collected c stmt n q :
  n ∈ collect_stmt stmt ++ fk_preload c (command stmt) -> resolve c n = Some q -> q ∈ preload_names c stmt.
Proof.
  intros Hn Hq. unfold preload_names. apply list_elem_of_omap. exists n. split; [|done].
  apply elem_of_app. left. apply elem_of_app. by left.
Qed.

(** The values of sequences do not matter. *)
Lemma preload_sequences c sequences stmt : preload_names (with_sequences c sequences) stmt = preload_names c stmt.
Proof.
  assert (Hr : forall fuel root queue written,
    ripple_children (with_sequences c sequences) root queue written fuel = ripple_children c root queue written fuel).
  { induction fuel as [|fuel IH]; intros root [|q queue] written; [done..|]. cbn [ripple_children].
    change (referencing_foreign_keys (with_sequences c sequences) q) with (referencing_foreign_keys c q).
    destruct (foldl _ _ _) as [queue' written']. apply IH. }
  unfold preload_names. assert (Hp : fk_preload (with_sequences c sequences) (command stmt) = fk_preload c (command stmt)).
  { unfold fk_preload. destruct (fk_dml_target (command stmt)) as [[target inc]|]; [|done].
    change (resolve (with_sequences c sequences) target) with (resolve c target).
    destruct (resolve c target) as [q|]; [|done]. unfold fk_ripple. cbn [tables with_sequences]. by rewrite Hr. }
  by rewrite Hp.
Qed.

Section target.
Variables (c : Catalog) (stmt : Statement) (target : option string * string) (include_children : bool) (q : QualifiedName).
Hypothesis is_target : fk_dml_target (command stmt) = Some (target, include_children).
Hypothesis resolved : resolve c target = Some q.

Lemma target_preloaded : q ∈ preload_names c stmt.
Proof.
  apply preload_collected with target; [|done]. apply elem_of_app. left. unfold collect_stmt.
  rewrite is_target. cbn. left.
Qed.

Lemma ripple_preloaded p :
  p ∈ (fk_ripple c q include_children).1 ++ (fk_ripple c q include_children).2 -> is_Some (get_table c p) ->
  p ∈ preload_names c stmt.
Proof.
  intros Hp Ht. apply preload_collected with (Some (q_schema p), q_name p); [|by apply resolve_known].
  apply elem_of_app. right. unfold fk_preload. rewrite is_target, resolved.
  destruct (fk_ripple c q include_children) as [written read]. apply list_elem_of_fmap. by exists p.
Qed.

(** The parents of the tables that may be written. *)
Lemma parents_preloaded p t fk :
  p ∈ q :: (fk_ripple c q include_children).1 -> get_table c p = Some t -> fk ∈ table_foreign_keys t ->
  is_Some (get_table c (fk_target fk)) -> fk_target fk ∈ preload_names c stmt.
Proof.
  intros Hp Ht Hfk Hpt. apply ripple_preloaded; [|done]. apply elem_of_app. right.
  eapply ripple_parents; [done..|]. by apply (resolve_known c (fk_target fk)).
Qed.

(** The tables that may be written, when the referencing tables are among them. *)
Lemma written_preloaded p :
  include_children = true -> schema_ok c -> reached q (written_tables c q) p -> is_Some (get_table c q) ->
  p ∈ preload_names c stmt.
Proof.
  intros Hi Hs [->|Hp] Hq; [apply target_preloaded|]. apply ripple_preloaded.
  - apply elem_of_app. left. unfold fk_ripple. by rewrite Hi.
  - apply ripple_known in Hp as [[]%not_elem_of_nil|([k t] & -> & Ht)%list_elem_of_fmap]. cbn [snd].
    apply OrdMap.ord_elem_get in Ht; [|apply Hs].
    rewrite (def_name _ _ _ (schema_tables _ Hs k t Ht)). by exists t.
Qed.
End target.
End ripple.
