(* ===== verification/EngineTables.v ===== *)
(** * Loading tables

    The shared table cache is transparent: a statement sees the tables built from
    the documents that its session sees. *)

From S2P Require Import Prelude BTree Json Utf8 RustString RustFloat SqlTypes Fts SqlValue OrdMap Lock SqlCatalog TableStore RelStorage SqlExec SqlTrigger ForeignKeys Dml WriteLog SqlEngine SqlEngineInv.

Section loading.
Context {S : Type} `{!RelationalStorage S, !StorageContract S, !Foreign, !SqlSyntax, !Evaluator, !CatalogCodec, !EngineSyntax}.
Implicit Types (s : Engine (S := S)) (st : S).

(** The schema of the database. *)
Variable c : Catalog.
Hypothesis distinct : forall q q' t t', get_table c q = Some t -> get_table c q' = Some t' ->
  table_storage_collection t = table_storage_collection t' -> q = q'.

(** The table [q] as a session sees it, and as it is stored. *)
Definition shown s (q : QualifiedName) (t : Table) (l : LoadedTable) : Prop :=
  build t (session_docs s (table_storage_collection t)) (index_defs c q) = Ok l.

(** ** The cache *)

(** A cached table at the current generation is the stored one. *)
Definition cache_ok s : Prop :=
  forall coll e g, table_cache (db s) !! coll = Some e -> generation (storage (db s)) coll = Some g ->
    (cached_generation e <= g)%N /\
    (cached_generation e = g -> forall q t, get_table c q = Some t -> table_storage_collection t = coll ->
       build t (docs (storage (db s)) coll) (index_defs c q) = Ok (cached e)).

Lemma cache_ok_insert s q t g l :
  cache_ok s -> get_table c q = Some t -> generation (storage (db s)) (table_storage_collection t) = Some g ->
  build t (docs (storage (db s)) (table_storage_collection t)) (index_defs c q) = Ok l ->
  cache_ok (with_cache s (<[table_storage_collection t := mk_cached g l]> (table_cache (db s)))).
Proof.
  intros Hok Ht Hg Hb coll e g'. cbn [with_cache db table_cache storage]. rewrite lookup_insert_Some.
  intros [[<- <-]|[_ He]]; [|by apply Hok]. rewrite Hg. intros [= <-]. cbn [cached_generation cached]. split; [lia|].
  intros _ q' t' Ht' Hc. assert (q' = q) as -> by by eapply distinct. congruence.
Qed.

(** Writes that are counted leave no stale table at the current generation. *)
Lemma cache_ok_counted s s' :
  cache_ok s -> counted (storage (db s)) (storage (db s')) -> table_cache (db s') = table_cache (db s) -> cache_ok s'.
Proof.
  intros Hok Hc Ht coll e g' He Hg'. rewrite Ht in He. specialize (Hc coll). rewrite Hg' in Hc.
  destruct (generation (storage (db s)) coll) as [g|] eqn:Hg; [|done]. destruct Hc as [Hle Hd].
  destruct (Hok coll e g He Hg) as [Hle' Hb]. split; [lia|]. intros Heq. rewrite Hd by lia. apply Hb. lia.
Qed.

Lemma cache_ok_empty s : table_cache (db s) = ∅ -> cache_ok s.
Proof. intros Hn coll e g. by rewrite Hn, lookup_empty. Qed.

(** ** Loading *)

(** Only the cache changed, and it is still coherent. *)
Definition cached_only s s' : Prop := (exists ca, s' = with_cache s ca) /\ cache_ok s'.

Lemma cached_only_refl s : cache_ok s -> cached_only s s.
Proof. intros Hok. split; [|done]. exists (table_cache (db s)). by destruct s as [[] ?]. Qed.

Lemma cached_only_trans s s1 s2 : cached_only s s1 -> cached_only s1 s2 -> cached_only s s2.
Proof. intros [[ca ->] _] [[ca' ->] Hok]. split; [|done]. by exists ca'. Qed.

Lemma session_docs_cache s ca : session_docs (with_cache s ca) = session_docs s.
Proof. done. Qed.

Lemma cached_table_spec s q t g s' l :
  storage_ok (storage (db s)) -> cache_ok s -> get_table c q = Some t ->
  generation (storage (db s)) (table_storage_collection t) = Some g ->
  cached_table (table_storage_collection t) g (fun docs => build t docs (index_defs c q)) s = (s', Some (Ok l)) ->
  cached_only s s' /\ build t (docs (storage (db s)) (table_storage_collection t)) (index_defs c q) = Ok l.
Proof.
  intros Hst Hok Ht Hg. unfold cached_table. rewrite gets_step.
  set (coll := table_storage_collection t).
  assert (Hload : forall k : LoadedTable -> handler LoadedTable,
    (docs ← reading (fun st => scan st coll); built ← lift (build t docs (index_defs c q)); k built) s = (s', Some (Ok l)) ->
    exists b, build t (docs (storage (db s)) coll) (index_defs c q) = Ok b /\ k b s = (s', Some (Ok l))).
  { intros k (ds & s1 & Hr & (b & s2 & Hb & Hk)%bind_ok)%bind_ok. unfold reading in Hr. injection Hr as <- Hr.
    apply scan_docs in Hr as ->; [|done]. unfold lift in Hb. injection Hb as <- Hb. by exists b. }
  assert (Hput : forall b, build t (docs (storage (db s)) coll) (index_defs c q) = Ok b ->
    (modify (fun s => with_cache s (<[coll := mk_cached g b]> (table_cache (db s)))) ≫= fun _ => mret b) s =
      (s', Some (Ok l)) ->
    cached_only s s' /\ build t (docs (storage (db s)) coll) (index_defs c q) = Ok l).
  { intros b Hb. rewrite modify_step. intros [= <- <-]. split; [|done]. split; [by eexists|].
    by apply (cache_ok_insert s q t). }
  destruct (table_cache (db s) !! coll) as [e|] eqn:He.
  - destruct (Hok coll e g He Hg) as [Hle Hb]. case_decide as Heq.
    + intros [= <- <-]. split; [by apply cached_only_refl|by apply Hb].
    + intros (b & Hbuild & Hk)%Hload. replace (g <=? cached_generation e)%N with false in Hk
        by (symmetry; apply N.leb_gt; lia). by apply (Hput b).
  - intros (b & Hbuild & Hk)%Hload. by apply (Hput b).
Qed.

Lemma load_table_spec cat s q t s' l :
  same_schema c cat -> storage_ok (storage (db s)) -> cache_ok s -> get_table c q = Some t ->
  load_table cat q s = (s', Some (Ok l)) -> cached_only s s' /\ exists lt, l = Some lt /\ shown s q t lt.
Proof.
  intros Hcat Hst Hok Ht. unfold load_table. rewrite (get_table_schema _ _ _ Hcat), Ht.
  assert (Hdefs : index_defs cat q = index_defs c q) by by rewrite Hcat. rewrite Hdefs, gets_step. cbv zeta.
  set (coll := table_storage_collection t).
  pose proof (docs_sorted (storage (db s)) coll Hst) as Hsorted.
  assert (Hscan : forall (f : Docs -> Docs),
    (docs ← reading (fun st => scan st coll); built ← lift (build t (f docs) (index_defs c q)); mret (Some built)) s =
      (s', Some (Ok l)) ->
    s' = s /\ exists lt, l = Some lt /\ build t (f (docs (storage (db s)) coll)) (index_defs c q) = Ok lt).
  { intros f (ds & s1 & Hr & (b & s2 & Hb & [= <- <-])%bind_ok)%bind_ok. unfold reading in Hr. injection Hr as <- Hr.
    apply scan_docs in Hr as ->; [|done]. unfold lift in Hb. injection Hb as <- Hb. split; [done|]. by exists b. }
  destruct (txn (session s)) as [tx|] eqn:Etx.
  2: { cbn. unfold shown, session_docs. rewrite Etx. fold coll.
       intros (gen & s1 & [= <- <-] & Hk)%bind_ok. destruct (generation _ coll) as [g|] eqn:Eg.
       - apply bind_ok in Hk as (b & s1 & Hb & [= <- <-]). apply cached_table_spec in Hb as [? ?]; [|done..]. eauto.
       - apply (Hscan (fun d => d)) in Hk as (-> & lt & -> & Hb). split; [by apply cached_only_refl|eauto]. }
  unfold shown, session_docs. rewrite Etx. fold coll. cbn [mbind option_bind].
  destruct (decide (coll ∈ truncated tx)) as [Htr|Htr].
  - rewrite bool_decide_true by done. cbn [negb andb]. rewrite ret_step.
    intros (b & s1 & Hb & [= <- <-])%bind_ok. unfold lift in Hb. injection Hb as <- Hb. split; [by apply cached_only_refl|].
    exists b. split; [done|]. rewrite <- Hb. unfold staged_docs, merge_docs. by rewrite bool_decide_true.
  - rewrite bool_decide_false by done. cbn [negb andb].
    assert (Hm : merge_docs false (overlay tx !! coll) (docs (storage (db s)) coll) =
      staged_docs (overlay tx) (truncated tx) coll (docs (storage (db s)) coll)).
    { rewrite <- merge_staged by done. by rewrite bool_decide_false. }
    destruct (negb (bool_decide (is_Some (overlay tx !! coll))) && negb (txn_catalog_dirty tx)) eqn:Eclean.
    + apply andb_prop in Eclean as [Eov _]. apply negb_true_iff, bool_decide_eq_false in Eov.
      assert (Hnone : overlay tx !! coll = None) by (by apply eq_None_not_Some).
      rewrite <- Hm, Hnone. unfold merge_docs. rewrite BTreeMap.of_list_id by done. cbn [default].
      change (overlay_docs ∅ (docs (storage (db s)) coll)) with (docs (storage (db s)) coll).
      intros (gen & s1 & [= <- <-] & Hk)%bind_ok. destruct (generation _ coll) as [g|] eqn:Eg.
      * apply bind_ok in Hk as (b & s1 & Hb & [= <- <-]). apply cached_table_spec in Hb as [? ?]; [|done..]. eauto.
      * apply (Hscan (fun d => d)) in Hk as (-> & lt & -> & Hb). split; [by apply cached_only_refl|eauto].
    + intros (-> & lt & -> & Hb)%(Hscan (merge_docs false (overlay tx !! coll))). rewrite Hm in Hb.
      split; [by apply cached_only_refl|eauto].
Qed.

(** The tables of a list of names, each loaded as [P] says. *)
Lemma load_all_spec (R : Engine -> Prop) (P : QualifiedName -> Table -> LoadedTable -> Prop)
    (load : QualifiedName -> handler (option LoadedTable)) names tables s s' tables' :
  (forall q s l s', R s -> load q s = (s', Some (Ok l)) ->
     R s' /\ match get_table c q with Some t => exists lt, l = Some lt /\ P q t lt | None => l = None end) ->
  (forall q l, tables !! q = Some l -> exists t, get_table c q = Some t /\ P q t l) ->
  R s -> load_all load names tables s = (s', Some (Ok tables')) ->
  R s' /\ (forall q l, tables' !! q = Some l -> exists t, get_table c q = Some t /\ P q t l) /\
  (forall q, is_Some (tables !! q) \/ q ∈ names /\ is_Some (get_table c q) -> is_Some (tables' !! q)).
Proof.
  intros Hload. revert tables s. induction names as [|q names IH]; intros tables s Htab HR; cbn [load_all].
  { intros [= <- <-]. split_and!; [done..|]. intros q [?|[[]%not_elem_of_nil _]]. done. }
  case_decide as Hin.
  - intros (HR' & Hp & Hall)%IH; [|done..]. split_and!; [done..|]. intros q' [?|[[->|?]%elem_of_cons ?]]; auto.
  - intros (l & s1 & Hl & Hrest)%bind_ok. apply Hload in Hl as [HR1 Hl]; [|done].
    apply IH in Hrest as (HR' & Hp & Hall); [|destruct l as [lt|]; [|done]|done].
    + split_and!; [done..|]. intros q' Hq'. apply Hall. destruct Hq' as [Hq'|[Hq' Ht']].
      * left. destruct l; [|done]. destruct (decide (q' = q)) as [->|]; [by rewrite lookup_insert_eq|by rewrite lookup_insert_ne].
      * apply elem_of_cons in Hq' as [->|]; [|by right]. left. destruct Ht' as [t Ht]. rewrite Ht in Hl.
        destruct Hl as (lt & -> & _). by rewrite lookup_insert_eq.
    + intros q' l' [[<- <-]|[_ Hl']]%lookup_insert_Some; [|by apply Htab].
      destruct (get_table c q) as [t|]; [|done]. destruct Hl as (lt' & [= <-] & HP). by exists t.
Qed.

Lemma load_tables_spec cat names s s' tables :
  same_schema c cat -> storage_ok (storage (db s)) -> cache_ok s ->
  load_all (load_table cat) names ∅ s = (s', Some (Ok tables)) ->
  cached_only s s' /\ (forall q l, tables !! q = Some l -> exists t, get_table c q = Some t /\ shown s q t l) /\
  (forall q, q ∈ names -> is_Some (get_table c q) -> is_Some (tables !! q)).
Proof.
  intros Hcat Hst Hok Hl. eapply (load_all_spec (cached_only s) (shown s)) in Hl as (Hs' & Hp & Hall).
  - split_and!; [done..|]. intros q Hq Ht. apply Hall. by right.
  - intros q s1 l s2 [[ca ->] Hok1] Hq. destruct (get_table c q) as [t|] eqn:Et.
    + destruct (load_table_spec cat (with_cache s ca) q t s2 l) as [Hc (lt & -> & Hsh)]; [done..|]. split; [|by exists lt].
      eapply cached_only_trans; [|exact Hc]. split; [by eexists|done].
    + unfold load_table in Hq. rewrite (get_table_schema _ _ _ Hcat), Et in Hq. injection Hq as <- <-.
      split; [|done]. split; [by eexists|done].
  - intros q l. by rewrite lookup_empty.
  - by apply cached_only_refl.
Qed.

Lemma load_overlay_spec cat names over trunc s s' tables :
  same_schema c cat -> storage_ok (storage (db s)) ->
  load_all (fun q => load_table_with_overlay cat q over trunc) names ∅ s = (s', Some (Ok tables)) ->
  s' = s /\
  (forall q l, tables !! q = Some l -> exists t, get_table c q = Some t /\
     build t (staged_docs over trunc (table_storage_collection t) (docs (storage (db s)) (table_storage_collection t)))
       (index_defs c q) = Ok l) /\
  (forall q, q ∈ names -> is_Some (get_table c q) -> is_Some (tables !! q)).
Proof.
  intros Hcat Hst Hl. eapply (load_all_spec (eq s) (fun q t l => build t (staged_docs over trunc
    (table_storage_collection t) (docs (storage (db s)) (table_storage_collection t))) (index_defs c q) = Ok l)) in Hl
    as (<- & Hp & Hall).
  - split_and!; [done..|]. intros q Hq Ht. apply Hall. by right.
  - intros q s1 l s2 <- Hq. unfold load_table_with_overlay in Hq. rewrite (get_table_schema _ _ _ Hcat) in Hq.
    destruct (get_table c q) as [t|]; [|by injection Hq as <- <-].
    apply bind_ok in Hq as (ds & s1 & Hr & (b & s2' & Hb & [= <- <-])%bind_ok). unfold reading in Hr. injection Hr as <- Hr.
    apply scan_docs in Hr as ->; [|done]. unfold lift in Hb. injection Hb as <- Hb. split; [done|]. exists b. split; [done|].
    assert (Hdefs : index_defs cat q = index_defs c q) by by rewrite Hcat. rewrite Hdefs in Hb. rewrite <- Hb. f_equal.
    pose proof (docs_sorted (storage (db s)) (table_storage_collection t) Hst) as Hsorted.
    rewrite <- merge_staged by done. set (coll := table_storage_collection t) in *.
    destruct (bool_decide (coll ∈ trunc)) eqn:Etr; [done|]. cbn [orb].
    destruct (over !! coll) as [ov|] eqn:Eov; [by rewrite bool_decide_true|].
    rewrite bool_decide_false by (by intros [? ?]). unfold merge_docs. by rewrite BTreeMap.of_list_id.
  - intros q l. by rewrite lookup_empty.
  - done.
Qed.

(** ** Loads that fail *)

Lemma cached_table_calm s q t g :
  storage_ok (storage (db s)) -> cache_ok s -> get_table c q = Some t ->
  generation (storage (db s)) (table_storage_collection t) = Some g ->
  cached_only s (cached_table (table_storage_collection t) g (fun docs => build t docs (index_defs c q)) s).1.
Proof.
  intros Hst Hok Ht Hg.
  destruct (cached_table _ g _ s) as [s' [[l|e]|]] eqn:E; [by apply (cached_table_spec s q t g) in E as [? _]|..].
  all: replace (s', _).1 with s; [by apply cached_only_refl|]; cbn [fst].
  all: unfold cached_table in E; rewrite gets_step in E; unfold mbind, handler_bind, reading, lift, modify in E.
  all: destruct (table_cache (db s) !! _) as [ca|]; [case_decide; [done|]|].
  all: destruct (scan (storage (db s)) _) as [ds|]; [|by injection E as <- _].
  all: destruct (build t ds _); [|by injection E as <- _]; try done.
  all: by destruct (g <=? cached_generation ca)%N.
Qed.

Lemma load_table_calm cat s q :
  same_schema c cat -> storage_ok (storage (db s)) -> cache_ok s -> cached_only s (load_table cat q s).1.
Proof.
  intros Hcat Hst Hok. unfold load_table. rewrite (get_table_schema _ _ _ Hcat).
  destruct (get_table c q) as [t|] eqn:Et; [|by apply cached_only_refl].
  assert (Hdefs : index_defs cat q = index_defs c q) by by rewrite Hcat. rewrite Hdefs, gets_step. cbv zeta.
  set (coll := table_storage_collection t).
  assert (Hread : forall (f : Docs -> Docs) (m : handler Docs), (m s).1 = s ->
    ((docs ← m; built ← lift (build t (f docs) (index_defs c q)); mret (Some built)) s).1 = s).
  { intros f m Hm. unfold mbind, handler_bind, lift. destruct (m s) as [s1 [[ds|]|]]; cbn [fst] in *; subst; try done.
    by destruct (build t (f ds) _). }
  destruct (txn (session s)) as [tx|]; cbn [negb andb mbind option_bind].
  - destruct (bool_decide (coll ∈ truncated tx)); cbn [negb andb].
    + rewrite (Hread (merge_docs true (overlay tx !! coll))) by done. by apply cached_only_refl.
    + destruct (negb _ && negb _).
      2: { rewrite (Hread (merge_docs false (overlay tx !! coll))) by done. by apply cached_only_refl. }
      unfold mbind at 1, handler_bind at 1, reading at 1. destruct (generation _ coll) as [g|] eqn:Eg.
      2: { rewrite (Hread (fun d => d)) by done. by apply cached_only_refl. }
      pose proof (cached_table_calm s q t g Hst Hok Et Eg) as Hc. unfold mbind, handler_bind.
      by destruct (cached_table _ _ _ s) as [s1 [[l|]|]].
  - rewrite bool_decide_false by (by intros [? ?]). cbn [negb andb].
    unfold mbind at 1, handler_bind at 1, reading at 1. destruct (generation _ coll) as [g|] eqn:Eg.
    2: { rewrite (Hread (fun d => d)) by done. by apply cached_only_refl. }
    pose proof (cached_table_calm s q t g Hst Hok Et Eg) as Hc. unfold mbind, handler_bind.
    by destruct (cached_table _ _ _ s) as [s1 [[l|]|]].
Qed.
End loading.
