(* ===== verification/EngineViews.v ===== *)
(** * Consistent documents

    A view is what is seen of every collection: the stored documents, or those
    with the writes of a transaction.  A statement that runs on the tables it
    loaded takes a consistent view to a consistent one. *)

From S2P Require Import Prelude BTree Json Utf8 RustString RustFloat FloatExact SqlTypes Fts FtsInv SqlValue SqlTyping SqlConvert SqlStorage OrdMap Lock SqlCatalog TableStore TableStoreInv RelStorage SqlExec SqlTrigger.
From S2P Require Import ForeignKeys Dml ForeignKeysInv ForeignKeyActions ForeignKeyLoop DmlInv WriteLog SqlEngine SqlEngineInv StoredTables FkRipple EngineTables.

Section views.
Context `{!Foreign, !ForeignText, !ForeignStorage, !ForeignKeyText, !SqlSyntax, !Evaluator}.

(** The schema: tables without triggers, each with a collection of its own, and no views. *)
Record database_ok (c : Catalog) : Prop := {
  do_schema : schema_ok c;
  do_distinct : forall q q' t t', get_table c q = Some t -> get_table c q' = Some t' ->
    table_storage_collection t = table_storage_collection t' -> q = q';
  do_columns : forall q t, get_table c q = Some t -> columns_fit t;
  do_views : views c = [];
  do_reload : catalog_reload c = c
}.

Variable c : Catalog.
Hypothesis schema : database_ok c.

Abbreviation collection := table_storage_collection.

(** ** Views *)

(** The table that the documents of a view show. *)
Record shows (D : string -> Docs) (q : QualifiedName) (t : Table) (l : LoadedTable) : Prop := {
  sh_build : build t (D (collection t)) (index_defs c q) = Ok l;
  sh_encoded : encoded t (D (collection t)) (rows l);
  sh_readable : readable t (rows l);
  sh_versions : versions_ok l
}.

(** Every table can be loaded, and the tables together are consistent but for
    the checks [ds]. *)
Record view_ok (D : string -> Docs) (ds : list DeferredFkCheck) (ts : gmap QualifiedName LoadedTable) : Prop := {
  vw_sorted : forall coll, BTreeMap.sorted (D coll);
  vw_tables : forall q, option_Forall2 (shows D q) (get_table c q) (ts !! q);
  vw_consistent : consistent (H4 := ds) (exec_new c ts EmptyString)
}.

Lemma view_ok_ext D D' ds ts : (forall coll, D coll = D' coll) -> view_ok D ds ts -> view_ok D' ds ts.
Proof.
  intros Heq [Hs Ht Hc]. split; [intros coll; by rewrite <- Heq| |done].
  intros q. specialize (Ht q). destruct Ht as [t l [Hb He Hr Hv]|]; constructor. split; rewrite <- ?Heq; done.
Qed.

Lemma shows_unique D q t l l' : shows D q t l -> build t (D (collection t)) (index_defs c q) = Ok l' -> l' = l.
Proof. intros [Hb _ _ _] Hb'. congruence. Qed.

Lemma shows_indexes D q t l :
  get_table c q = Some t -> BTreeMap.sorted (D (collection t)) -> shows D q t l ->
  meta l = t /\ table_ok l /\ index_metas l = filter (fun i => index_method i <> "hnsw"%string) (index_defs c q).
Proof.
  intros Ht Hs [Hb Henc Hr Hv]. destruct (build_ok _ _ _ _ Hb) as [Hok Hm]. split; [done|]. split; [done|].
  destruct (encoded_build t (D (collection t)) (rows l) (index_defs c q)) as (l' & Hb' & _ & _ & _ & Hi);
    [by eapply do_columns|done|apply Hok|done|done|]. rewrite Hb in Hb'. by injection Hb' as <-.
Qed.

(** ** The tables of a statement *)

(** Tables with the same rows, up to versions. *)
Record alike (l l' : LoadedTable) : Prop := {
  al_meta : meta l' = meta l;
  al_rows : rows l' = rows l;
  al_indexes : index_metas l' = index_metas l
}.

Lemma state_ok_alike cat q l l' : alike l l' -> table_ok l' -> state_ok cat q l -> state_ok cat q l'.
Proof.
  intros [Hm Hr Hi] Hok [Sm St Sty Si Su Sn]. unfold index_metas in Hi. split; [by rewrite Hm|done|..].
  - intros rid row. rewrite Hr, Hm. apply Sty.
  - unfold ids_ok. rewrite Hm, Hr, Hi. apply Si.
  - unfold keys_unique. rewrite Hr, Hi. apply Su.
  - unfold rows_not_null. rewrite Hm, Hr. apply Sn.
Qed.

Lemma state_ok_tables cat cat' q l : tables cat' = tables cat -> state_ok cat q l -> state_ok cat' q l.
Proof. intros Ht [Sm St Sty Si Su Sn]. split; try done. unfold get_table in *. by rewrite Ht. Qed.

(** A statement's context on some of the tables of a view. *)
Record started (ts : gmap QualifiedName LoadedTable) (x : Exec) : Prop := {
  go_schema : same_schema c (catalog x);
  go_loaded : loaded x ⊆ ts;
  go_mutations : mutations x = [];
  go_deferred : deferred_checks x = [];
  go_triggers : deferred_triggers x = []
}.

Lemma started_consistent D ds ts x : view_ok D ds ts -> started ts x -> consistent (H4 := ds) x.
Proof.
  intros [_ _ [[Hs Ht] Hi]] [Hc Hl _ Hd _]. cbn [exec_new catalog loaded deferred_checks] in *.
  pose proof (same_schema_tables _ _ Hc) as Htab. split; [split|].
  - by eapply schema_ok_tables.
  - intros q l Hq. eapply state_ok_tables; [exact Htab|]. apply Ht. by eapply lookup_weaken.
  - intros q l fk rid row need Hq Hfk Hp Hr Hn. rewrite Hd.
    assert (Hp' : is_Some (ts !! fk_target fk)) by (destruct Hp as [pl Hp]; exists pl; by eapply lookup_weaken).
    destruct (Hi q l fk rid row need (lookup_weaken _ _ _ _ Hq Hl) Hfk Hp' Hr Hn) as [Hsat|?].
    + left. destruct need as [k|]; [|done]. destruct Hsat as (pl & prid & prow & Hpl & Hrest).
      exists pl, prid, prow. split; [|done]. destruct Hp as [pl' Hp].
      change (ts !! fk_target fk = Some pl) in Hpl. rewrite (lookup_weaken _ _ _ _ Hp Hl) in Hpl. by injection Hpl as <-.
    + by right.
Qed.

(** Tables that were not loaded do not miss the change: a row that changed has
    its parents at hand, and a table whose children are not at hand kept its rows. *)
Record framed (x x' : Exec) : Prop := {
  fr_parents : forall q l l' fk, loaded x !! q = Some l -> loaded x' !! q = Some l' ->
    fk ∈ table_foreign_keys (meta l) -> is_Some (get_table c (fk_target fk)) ->
    is_Some (loaded x !! fk_target fk) \/ rows l' = rows l;
  fr_children : forall q t fk l l', get_table c q = Some t -> fk ∈ table_foreign_keys t ->
    loaded x !! fk_target fk = Some l -> loaded x' !! fk_target fk = Some l' ->
    is_Some (loaded x !! q) \/ forall r v, BTreeMap.get (rows l) r = Some v -> BTreeMap.get (rows l') r = Some v
}.

(** ** After the statement *)

Lemma effect_some W x x' ms q l :
  effect W x x' ms -> loaded x !! q = Some l -> exists l', loaded x' !! q = Some l' /\ table_effect W ms q l l'.
Proof.
  intros He Hl. pose proof (ef_tables _ _ _ _ He q) as Ht. rewrite Hl in Ht. destruct (loaded x' !! q) as [l'|]; inversion Ht. eauto.
Qed.

Section after.
Variables (D : string -> Docs) (ds : list DeferredFkCheck) (ts : gmap QualifiedName LoadedTable).
Variables (W : QualifiedName -> Prop) (x x' : Exec) (ms : list Mutation).
Hypothesis view : view_ok D ds ts.
Hypothesis start : started ts x.
Hypothesis eff : effect W x x' ms.
Hypothesis consistent' : consistent (H4 := ds) x'.
Hypothesis frame : framed x x'.
Hypothesis readable' : forall q l, loaded x' !! q = Some l -> readable (meta l) (rows l).

Definition mutated (coll : string) : Docs := foldl (mutate_docs coll) (D coll) ms.

(** The table as the new documents show it. *)
Definition reloaded (q : QualifiedName) (l : LoadedTable) : LoadedTable :=
  match build (meta l) (mutated (collection (meta l))) (index_defs c q) with Ok b => b | Err _ => l end.

Definition reloaded_tables : gmap QualifiedName LoadedTable := map_imap (fun q l => Some (reloaded q l)) ts.

Lemma view_table q l : ts !! q = Some l -> exists t, get_table c q = Some t /\ shows D q t l.
Proof.
  intros Hl. pose proof (vw_tables _ _ _ view q) as Hv. rewrite Hl in Hv. inversion Hv as [t ? Hs Heq|]; subst. eauto.
Qed.

(** The table after the statement: the one in the context, or the old one. *)
Definition now (q : QualifiedName) (l : LoadedTable) : LoadedTable := default l (loaded x' !! q).

Lemma reloaded_spec q t l :
  get_table c q = Some t -> ts !! q = Some l ->
  shows mutated q t (reloaded q l) /\ alike (now q l) (reloaded q l) /\
  (loaded x !! q = None -> now q l = l).
Proof.
  intros Ht Hl. destruct (view_table q l Hl) as (t' & Ht' & Hsh). rewrite Ht in Ht'. injection Ht' as <-.
  destruct (shows_indexes D q t l Ht (vw_sorted _ _ _ view _) Hsh) as (Hm & Hok & Hi).
  assert (Hsorted : BTreeMap.sorted (mutated (collection t))) by apply mutations_sorted, (vw_sorted _ _ _ view).
  unfold reloaded, now. rewrite Hm. pose proof (ef_tables _ _ _ _ eff q) as Hte.
  destruct (loaded x !! q) as [l0|] eqn:E0; inversion Hte as [? l' Hte' Heq Heq'|Heq]; subst; cbn [default].
  - pose proof (lookup_weaken _ _ _ _ E0 (go_loaded _ _ start)) as Hl0. rewrite Hl in Hl0. injection Hl0 as <-.
    assert (Hl' : loaded x' !! q = Some l') by done.
    pose proof (te_docs _ _ _ _ _ Hte' (D (collection (meta l))) (sh_versions _ _ _ _ Hsh) (sh_encoded _ _ _ _ Hsh)) as Henc.
    pose proof (readable' q l' Hl') as Hr. rewrite (te_meta _ _ _ _ _ Hte') in Hr.
    destruct (encoded_build (meta l) (mutated (collection (meta l))) (rows l') (index_defs c q))
      as (b & Hb & Hbm & Hbr & Hbv & Hbi);
      [by eapply do_columns|done|apply (st_table _ _ _ (db_tables _ (con_db _ consistent') q l' Hl'))|done|done|].
    rewrite Hb. split; [|split; [change (id l') with l'|done]].
    + split; rewrite ?Hbr; done.
    + split; [by rewrite (te_meta _ _ _ _ _ Hte')|done|]. by rewrite (te_indexes _ _ _ _ _ Hte'), Hi.
  - assert (Hsame : mutated (collection (meta l)) = D (collection (meta l))).
    { apply (ef_others _ _ _ _ eff). intros (q' & l' & _ & Hl' & Hc).
      destruct (view_table q' l' (lookup_weaken _ _ _ _ Hl' (go_loaded _ _ start))) as (t' & Ht' & Hsh').
      pose proof (proj1 (shows_indexes D q' t' l' Ht' (vw_sorted _ _ _ view _) Hsh')) as Hm'.
      assert (q' = q) as ->; [|congruence]. eapply do_distinct; [done|exact Ht'|exact Ht|by rewrite <- Hm']. }
    rewrite Hsame, (sh_build _ _ _ _ Hsh). split; [|done]. destruct Hsh. split; rewrite ?Hsame; done.
Qed.

Lemma reloaded_lookup q : reloaded_tables !! q = reloaded q <$> ts !! q.
Proof. unfold reloaded_tables. rewrite map_lookup_imap. by destruct (ts !! q). Qed.

Lemma reloaded_some q b :
  reloaded_tables !! q = Some b ->
  exists t l, get_table c q = Some t /\ ts !! q = Some l /\ b = reloaded q l.
Proof.
  rewrite reloaded_lookup. destruct (ts !! q) as [l|] eqn:El; [|done]. intros [= <-].
  destruct (view_table q l El) as (t & Ht & _). by exists t, l.
Qed.

Lemma now_loaded q l : ts !! q = Some l -> is_Some (loaded x !! q) -> loaded x !! q = Some l /\ loaded x' !! q = Some (now q l).
Proof.
  intros Hl [l0 Hl0]. pose proof (lookup_weaken _ _ _ _ Hl0 (go_loaded _ _ start)) as Heq.
  rewrite Hl in Heq. injection Heq as <-. split; [done|]. unfold now.
  destruct (effect_some _ _ _ _ _ _ eff Hl0) as (l' & -> & _). done.
Qed.

(** A parent row that is still there after the statement. *)
Lemma parent_now fk k l rid row :
  ts !! fk_target fk = Some l -> BTreeMap.get (rows (now (fk_target fk) l)) rid = Some row ->
  composite_key (ref_values fk row) = Some k -> satisfied (exec_new c reloaded_tables EmptyString) fk (NeedKey k).
Proof.
  intros Hl Hr Hk. destruct (view_table _ l Hl) as (t & Ht & _). destruct (reloaded_spec _ t l Ht Hl) as (_ & Ha & _).
  exists (reloaded (fk_target fk) l), rid, row. split; [|by rewrite (al_rows _ _ Ha)].
  change (reloaded_tables !! fk_target fk = Some (reloaded (fk_target fk) l)). by rewrite reloaded_lookup, Hl.
Qed.

(** What the old tables owe each other, after the statement. *)
Lemma old_need q t l fk rid row need :
  get_table c q = Some t -> ts !! q = Some l -> fk ∈ table_foreign_keys t -> is_Some (ts !! fk_target fk) ->
  (is_Some (loaded x !! fk_target fk) -> loaded x !! q = None) ->
  BTreeMap.get (rows l) rid = Some row -> fk_need fk row = Some need ->
  satisfied (exec_new c reloaded_tables EmptyString) fk need \/ deferred_cover (H4 := ds) [] q fk rid need.
Proof.
  intros Ht Hl Hfk Hp Hchild Hr Hn. destruct (view_table q l Hl) as (t' & Ht' & Hsh). rewrite Ht in Ht'. injection Ht' as <-.
  destruct (shows_indexes D q t l Ht (vw_sorted _ _ _ view _) Hsh) as (Hm & _ & _). rewrite <- Hm in Hfk.
  destruct (con_integrity _ (vw_consistent _ _ _ view) q l fk rid row need Hl Hfk Hp Hr Hn) as [Hsat|?]; [|by right].
  left. destruct need as [k|]; [|done]. destruct Hsat as (pl & prid & prow & Hpl & Hprow & Hk).
  change (ts !! fk_target fk = Some pl) in Hpl. apply (parent_now fk k pl prid prow); [done| |done].
  destruct (loaded x !! fk_target fk) as [pl0|] eqn:Epl.
  - destruct (now_loaded _ pl Hpl) as [Hpl0 Hpl']; [by rewrite Epl|].
    destruct (fr_children _ _ frame q t fk pl (now (fk_target fk) pl)) as [[l0 Hl0]|Hkept]; [done|by rewrite <- Hm|done..| |by apply Hkept].
    rewrite Hchild in Hl0 by (by rewrite <- Epl, Hpl0). done.
  - destruct (view_table _ pl Hpl) as (pt & Hpt & _).
    destruct (reloaded_spec _ pt pl Hpt Hpl) as (_ & _ & Hsame). by rewrite (Hsame Epl).
Qed.

(** The tables as the new documents show them. *)
Abbreviation after := (exec_new c reloaded_tables EmptyString).

Lemma reloaded_state q b : reloaded_tables !! q = Some b -> state_ok c q b.
Proof.
  intros Hb. destruct (reloaded_some q b Hb) as (t & l & Ht & Hl & ->).
  destruct (reloaded_spec q t l Ht Hl) as (Hsh & Ha & Hnot).
  eapply state_ok_alike; [exact Ha|by eapply build_ok, Hsh|].
  destruct (loaded x !! q) as [l0|] eqn:E0.
  * destruct (now_loaded q l Hl) as [_ Hl']; [by rewrite E0|].
    eapply state_ok_tables; [|by apply (db_tables _ (con_db _ consistent'))].
    rewrite (same_schema_tables _ _ (ef_schema _ _ _ _ eff)). by rewrite (same_schema_tables _ _ (go_schema _ _ start)).
  * rewrite Hnot by done. by apply (db_tables _ (con_db _ (vw_consistent _ _ _ view))).
Qed.

Lemma reloaded_integrity : integrity after (deferred_cover (H4 := (ds ++ deferred_checks x')%list) []).
Proof.
  intros q b fk rid row need Hb Hfk Hp Hr Hn. destruct (reloaded_some q b Hb) as (t & l & Ht & Hl & ->).
  destruct (reloaded_spec q t l Ht Hl) as (Hsh & [Hm Hrows _] & Hnot).
  destruct (shows_indexes mutated q t _ Ht (mutations_sorted _ _ _ (vw_sorted _ _ _ view _)) Hsh) as (Hbm & _ & _).
  rewrite Hbm in Hfk. rewrite Hrows in Hr.
  assert (Hp' : is_Some (ts !! fk_target fk)).
  { change (is_Some (reloaded_tables !! fk_target fk)) in Hp. rewrite reloaded_lookup in Hp.
    by destruct (ts !! fk_target fk); [|destruct Hp]. }
  assert (Hmore : deferred_cover (H4 := ds) [] q fk rid need ->
    deferred_cover (H4 := (ds ++ deferred_checks x')%list) [] q fk rid need).
  { intros (d & Hd & Hf). exists d. split; [|done]. rewrite app_nil_r in Hd |- *. apply elem_of_app. by left. }
  assert (Hold : (is_Some (loaded x !! fk_target fk) -> loaded x !! q = None) -> BTreeMap.get (rows l) rid = Some row ->
    satisfied (exec_new c reloaded_tables EmptyString) fk need \/
    deferred_cover (H4 := (ds ++ deferred_checks x')%list) [] q fk rid need).
  { intros Hc Hr'. destruct (old_need q t l fk rid row need) as [?|?]; eauto. }
  destruct (loaded x !! q) as [l0|] eqn:E0; [|apply Hold; [done|by rewrite Hnot in Hr]].
  destruct (now_loaded q l Hl) as [Hl0 Hl']; [by rewrite E0|].
  destruct (loaded x !! fk_target fk) as [pl|] eqn:Ep.
  * destruct (con_integrity _ consistent' q (now q l) fk rid row need Hl') as [Hsat|(d & Hd & Hf)]; [..|done|done| |].
    -- by rewrite <- Hm, Hbm.
    -- destruct (effect_some _ _ _ _ _ _ eff Ep) as (pl' & -> & _). done.
    -- left. destruct need as [k|]; [|done]. destruct Hsat as (pl' & prid & prow & Hpl' & Hprow & Hk).
       pose proof (lookup_weaken _ _ _ _ Ep (go_loaded _ _ start)) as Hpts.
       apply (parent_now fk k pl prid prow); [done| |done]. unfold now. by rewrite Hpl'.
    -- right. exists d. split; [|done]. rewrite app_nil_r. by apply Hd.
  * apply Hold; [by intros [? ?]|]. destruct (fr_parents _ _ frame q l (now q l) fk) as [[? ?]|Hsame]; [done|done|..].
    -- destruct (view_table q l Hl) as (t' & Ht' & Hsh'). rewrite Ht in Ht'. injection Ht' as <-.
       by rewrite (proj1 (shows_indexes D q t l Ht (vw_sorted _ _ _ view _) Hsh')).
    -- destruct Hp' as [pl Hpl]. destruct (view_table _ pl Hpl) as (pt & Hpt & _). by exists pt.
    -- congruence.
    -- by rewrite <- Hsame.
Qed.

Lemma statement_view : view_ok mutated (ds ++ deferred_checks x') reloaded_tables.
Proof.
  split.
  - intros coll. apply mutations_sorted, (vw_sorted _ _ _ view).
  - intros q. rewrite reloaded_lookup. pose proof (vw_tables _ _ _ view q) as Hv.
    destruct (get_table c q) as [t|] eqn:Et, (ts !! q) as [l|] eqn:El; inversion Hv; constructor.
    by apply (reloaded_spec q t l).
  - split; [split; [apply (do_schema _ schema)|exact reloaded_state]|exact reloaded_integrity].
Qed.
End after.
End views.
