(* ===== verification/EngineStatements.v ===== *)
(** * Statements on a view

    INSERT, UPDATE and DELETE take a consistent view to a consistent one, up to
    the checks they deferred; those checks, when they pass, give consistency. *)

From S2P Require Import Prelude BTree Json Utf8 RustString RustFloat FloatExact SqlTypes Fts FtsInv SqlValue SqlTyping SqlConvert SqlStorage OrdMap Lock SqlCatalog TableStore TableStoreInv RelStorage SqlExec SqlTrigger.
From S2P Require Import ForeignKeys Dml ForeignKeysInv ForeignKeyActions ForeignKeyLoop DmlInv WriteLog SqlEngine SqlEngineInv StoredTables FkRipple EngineTables EngineViews.

Section statements.
Context `{!Foreign, !ForeignText, !ForeignStorage, !ForeignKeyText, !SqlSyntax, !Evaluator, !EngineSyntax}.
Variable c : Catalog.
Hypothesis schema : database_ok c.

(** ** Frames *)

Lemma triggerless q t : get_table c q = Some t -> table_triggers t = [].
Proof. intros Ht. apply (def_no_triggers _ _ _ (schema_tables _ (do_schema _ schema) q t Ht)). Qed.

Lemma referencing_tables q child fk :
  (child, fk) ∈ referencing_foreign_keys c q -> is_Some (get_table c child).
Proof.
  intros (_ & k & t & Ht & -> & _)%referencing_known. apply OrdMap.ord_elem_get in Ht; [|apply (do_schema _ schema)].
  rewrite (def_name _ _ _ (schema_tables _ (do_schema _ schema) k t Ht)). by exists t.
Qed.

Lemma target_references q t fk :
  get_table c q = Some t -> fk ∈ table_foreign_keys t -> (q, fk) ∈ referencing_foreign_keys c (fk_target fk).
Proof.
  intros Ht Hfk. unfold referencing_foreign_keys. apply list_elem_of_join.
  exists ((fun f => (table_qualified t, f)) <$> filter (fun f => references (fk_target fk) f = true) (table_foreign_keys t)).
  split.
  - apply list_elem_of_fmap. exists fk. rewrite (def_name _ _ _ (schema_tables _ (do_schema _ schema) q t Ht)).
    split; [done|]. apply list_elem_of_filter. split; [|done]. unfold references, fk_target. cbn [q_schema q_name].
    by rewrite !bool_decide_true.
  - apply list_elem_of_fmap. exists (q, t). split; [done|]. by apply OrdMap.ord_get_Some_elem.
Qed.

(** The tables that the statement needs are loaded, as the catalog has them. *)
Record preloaded (stmt : Statement) (x : Exec) : Prop := {
  pre_loaded : forall q, q ∈ preload_names c stmt -> is_Some (get_table c q) -> is_Some (loaded x !! q);
  pre_metas : forall q l, loaded x !! q = Some l -> get_table c q = Some (meta l)
}.

Section target.
Variables (stmt : Statement) (target : option string * string) (include_children : bool) (q : QualifiedName).
Variables (x x' : Exec) (W : QualifiedName -> Prop) (ms : list Mutation).
Hypothesis is_target : fk_dml_target (command stmt) = Some (target, include_children).
Hypothesis resolved : resolve c target = Some q.
Hypothesis pre : preloaded stmt x.

(** The parents of a written table are loaded. *)
Lemma parents_loaded p l fk :
  p ∈ q :: (fk_ripple c q include_children).1 -> loaded x !! p = Some l -> fk ∈ table_foreign_keys (meta l) ->
  is_Some (get_table c (fk_target fk)) -> is_Some (loaded x !! fk_target fk).
Proof.
  intros Hp Hl Hfk Ht. apply (pre_loaded _ _ pre); [|done].
  apply (parents_preloaded c stmt target include_children q is_target resolved p (meta l)); [done| |done..].
  by apply (pre_metas _ _ pre).
Qed.

Lemma written_framed :
  include_children = true -> is_Some (get_table c q) -> effect (reached q (written_tables c q)) x x' ms -> framed c x x'.
Proof.
  intros Hi Hq He. split.
  - intros p l l' fk Hl Hl' Hfk Ht. destruct (effect_some _ _ _ _ _ _ He Hl) as (l2 & Hl2 & Hte). rewrite Hl' in Hl2.
    injection Hl2 as <-. destruct (te_kept _ _ _ _ _ Hte) as [Hw| ->]; [left|by right].
    apply (parents_loaded p l fk); [|done..]. unfold fk_ripple. rewrite Hi. cbn [fst].
    destruct Hw as [->|Hw]; [left|by right].
  - intros child t fk l l' Ht Hfk Hl Hl'. destruct (effect_some _ _ _ _ _ _ He Hl) as (l2 & Hl2 & Hte). rewrite Hl' in Hl2.
    injection Hl2 as <-. destruct (te_kept _ _ _ _ _ Hte) as [Hw| ->]; [left|by right].
    apply (pre_loaded _ _ pre); [|by exists t]. eapply written_preloaded; [done..|apply schema| |done].
    eapply written_closed; [exact Hw|by eapply target_references].
Qed.

Lemma kept_framed : rows_kept q x x' -> framed c x x'.
Proof.
  intros [Hother Hkept]. split.
  - intros p l l' fk Hl Hl' Hfk Ht. destruct (decide (p = q)) as [->|Hne].
    + left. apply (parents_loaded q l fk); [left|done..].
    + right. rewrite Hother, Hl in Hl' by done. by injection Hl' as <-.
  - intros child t fk l l' Ht Hfk Hl Hl'. right. destruct (decide (fk_target fk = q)) as [Heq|Hne].
    + rewrite Heq in *. destruct (Hkept l Hl) as (l2 & Hl2 & Hk). rewrite Hl' in Hl2. by injection Hl2 as <-.
    + rewrite Hother, Hl in Hl' by done. by injection Hl' as <-.
Qed.
End target.

(** ** Statements *)

(** What a statement leaves of a view [D] with the checks [ds]: its mutations make
    the documents show its tables. *)
Definition leaves (D : string -> Docs) (ds : list DeferredFkCheck) (x x' : Exec) : Prop :=
  same_schema c (catalog x') /\ undeferred x x' /\
  exists ts, view_ok c (fun coll => foldl (mutate_docs coll) (D coll) (mutations x')) (ds ++ deferred_checks x') ts /\
    forall q l, loaded x' !! q = Some l -> exists b, ts !! q = Some b /\ rows b = rows l.

Section on_view.
Variables (D : string -> Docs) (ds : list DeferredFkCheck) (ts : gmap QualifiedName LoadedTable).
Variables (stmt : Statement) (x x' : Exec).
Hypothesis view : view_ok c D ds ts.
Hypothesis start : started c ts x.
Hypothesis pre : preloaded stmt x.
Hypothesis readable' : forall q l, loaded x' !! q = Some l -> readable (meta l) (rows l).

Lemma start_running : running c x.
Proof.
  split; [apply start|]. intros q l Hl. rewrite (get_table_schema _ _ _ (go_schema _ _ _ start)).
  by apply (pre_metas _ _ pre).
Qed.

Lemma start_distinct : distinct_collections x.
Proof.
  intros q q' l l' Hl Hl' Hc. eapply (do_distinct _ schema); [by apply (pre_metas _ _ pre)..|done].
Qed.

Lemma effect_leaves W :
  consistent (H4 := ds) x' -> writes W x x' -> (forall ms, effect W x x' ms -> framed c x x') -> leaves D ds x x'.
Proof.
  intros Hcon Hw Hframe. destruct (writes_effect W x x' start_distinct Hw) as [ms He].
  split; [eapply same_schema_trans; [apply start|apply He]|]. split; [apply He|].
  rewrite (ef_mutations _ _ _ _ He), (go_mutations _ _ _ start). eexists.
  split; [eapply (statement_view c schema D ds ts W x x' ms); eauto|]. intros q l Hl.
  pose proof (ef_tables _ _ _ _ He q) as Hte. rewrite Hl in Hte.
  destruct (loaded x !! q) as [l0|] eqn:El0; [|by inversion Hte].
  pose proof (lookup_weaken _ _ _ _ El0 (go_loaded _ _ _ start)) as Hts.
  destruct (view_table c D ds ts view q l0 Hts) as (t & Ht & _).
  destruct (reloaded_spec c schema D ds ts W x x' ms) with (q := q) (t := t) (l := l0) as (_ & Ha & _); try done.
  exists (reloaded c D ms q l0). split; [by rewrite reloaded_lookup, Hts|]. rewrite (al_rows _ _ Ha). unfold now. by rewrite Hl.
Qed.

Lemma insert_leaves target q columns source uuids on out :
  fk_dml_target (command stmt) = Some (target, false) -> resolve c target = Some q -> is_do_update on = false ->
  fresh_ids x q uuids -> exec_insert x q columns source uuids on = Ok (x', out) -> leaves D ds x x'.
Proof.
  intros Ht Hq Hon Hfresh He. pose proof (started_consistent c D ds ts x view start) as Hcon.
  destruct (exec_insert_ok x q columns source uuids on x' out Hcon Hon Hfresh He) as (Hcon' & _ & Hkept).
  destruct (exec_insert_writes c (fun _ => True) ltac:(done) triggerless referencing_tables x q columns source uuids on x' out
    I start_running He) as [Hw _].
  apply (effect_leaves (fun _ => True)); [done..|]. intros ms _. by eapply kept_framed.
Qed.

Lemma write_leaves target q :
  fk_dml_target (command stmt) = Some (target, true) -> resolve c target = Some q -> is_Some (get_table c q) ->
  consistent (H4 := ds) x' -> fine c (reached q (written_tables c q)) x x' -> leaves D ds x x'.
Proof.
  intros Ht Hq Hqt Hcon' [Hw _]. apply (effect_leaves (reached q (written_tables c q))); [done..|]. intros ms He.
  by eapply written_framed.
Qed.

Lemma update_leaves target q alias asg sel out :
  fk_dml_target (command stmt) = Some (target, true) -> resolve c target = Some q ->
  exec_update x q alias asg sel = Ok (x', out) -> leaves D ds x x'.
Proof.
  intros Ht Hq He. pose proof (started_consistent c D ds ts x view start) as Hcon.
  destruct (exec_update_ok x q alias asg sel x' out Hcon He) as (Hcon' & _).
  apply (write_leaves target q); [done..| |done|].
  - unfold exec_update, require_table in He. rewrite (get_table_schema _ _ _ (go_schema _ _ _ start)) in He.
    by destruct (get_table c q).
  - eapply exec_update_writes; [apply written_closed|apply triggerless|apply referencing_tables|by left|apply start_running|exact He].
Qed.

Lemma delete_leaves target q alias sel out :
  fk_dml_target (command stmt) = Some (target, true) -> resolve c target = Some q ->
  exec_delete x q alias sel = Ok (x', out) -> leaves D ds x x'.
Proof.
  intros Ht Hq He. pose proof (started_consistent c D ds ts x view start) as Hcon.
  destruct (exec_delete_ok x q alias sel x' out Hcon He) as (Hcon' & _).
  apply (write_leaves target q); [done..| |done|].
  - unfold exec_delete, require_table in He. rewrite (get_table_schema _ _ _ (go_schema _ _ _ start)) in He.
    by destruct (get_table c q).
  - eapply exec_delete_writes; [apply written_closed|apply triggerless|apply referencing_tables|by left|apply start_running|exact He].
Qed.

(** A query changes neither rows nor tables. *)
Definition query (run : Exec -> res (Exec * list RowValues)) : Prop :=
  forall x x' out, run x = Ok (x', out) ->
    loaded x' = loaded x /\ mutations x' = mutations x /\ undeferred x x' /\ deferred_checks x' = deferred_checks x /\
    same_schema (catalog x) (catalog x').

Lemma query_leaves run out : query run -> run x = Ok (x', out) -> leaves D ds x x'.
Proof.
  intros Hq Hr. destruct (Hq x x' out Hr) as (Hl & Hm & Hu & Hd & Hs).
  split; [eapply same_schema_trans; [apply start|done]|]. split; [done|]. exists ts.
  rewrite Hm, (go_mutations _ _ _ start), Hd, (go_deferred _ _ _ start), app_nil_r. split; [exact view|].
  intros q l. rewrite Hl. intros Hl'. exists l. split; [|done]. by eapply lookup_weaken, (go_loaded _ _ _ start).
Qed.
End on_view.

(** ** Deferred checks *)

Lemma elem_of_check_tables checks cat d p :
  d ∈ checks ->
  match d with
  | DeferredChild child fk _ _ => p = child
  | DeferredReferenced parent child _ _ _ => p = parent \/ p = child
  | DeferredNullMix child _ _ => p = child
  end -> p ∈ deferred_check_tables checks cat.
Proof.
  unfold deferred_check_tables. match goal with |- _ -> _ -> _ ∈ foldl ?f _ _ => set (add := f) end.
  assert (Hmono : forall l set, p ∈ set -> p ∈ foldl add set l).
  { induction l as [|d' l IH]; intros set Hp; [done|]. cbn [foldl]. apply IH. unfold add.
    destruct d'; [destruct (resolve_table_name _ _ _)|..]; rewrite ?elem_of_name_set; auto. }
  intros Hd Hp. generalize ([] : list QualifiedName). induction checks as [|d' checks IH]; intros set;
    [by apply not_elem_of_nil in Hd|]. cbn [foldl]. apply elem_of_cons in Hd as [<-|Hd]; [|by apply IH].
  apply Hmono. unfold add. destruct d; [destruct (resolve_table_name _ _ _)|..]; rewrite ?elem_of_name_set; naive_solver.
Qed.

(** A context with the tables of the checks [ds'], on which these pass, leaves the
    other checks. *)
Lemma drained_view D ds ds' rest ts x u :
  view_ok c D ds ts -> started c ts x ->
  (forall d, d ∈ ds -> d ∈ ds' \/ d ∈ rest) ->
  (forall q, q ∈ deferred_check_tables ds' (catalog x) -> is_Some (get_table c q) -> is_Some (loaded x !! q)) ->
  fk_drain_deferred x ds' = Ok u -> view_ok c D rest ts.
Proof.
  intros Hv Hstart Hsplit Hpre Hdrain. pose proof (started_consistent c D ds ts x Hv Hstart) as [Hdb _].
  destruct Hv as [Hs Ht [Hdbt Hi]]. split; [done..|]. split; [done|].
  unfold fk_drain_deferred in Hdrain. destruct (traverse _ _) as [us|] eqn:Et; [|done].
  intros q l fk rid row need Hl Hfk Hp Hr Hn.
  destruct (Hi q l fk rid row need Hl Hfk Hp Hr Hn) as [?|(d & Hd & Hfor)]; [by left|]. rewrite app_nil_r in Hd.
  destruct (Hsplit d Hd) as [Hd'|Hd']; [left|right; exists d; split; [by rewrite app_nil_r|done]].
  destruct (traverse_elem _ _ _ Et d Hd') as [v Hv].
  assert (Hlx : loaded x !! q = Some l).
  { change (ts !! q = Some l) in Hl. assert (Hin : is_Some (loaded x !! q)).
    { apply Hpre; [|by exists (meta l); apply (st_meta _ _ _ (db_tables _ Hdbt q l Hl))].
      apply (elem_of_check_tables _ _ d); [done|].
      destruct d; cbn [deferred_for] in Hfor; [by destruct Hfor as (-> & _)|right; naive_solver|by destruct Hfor as (-> & _)]. }
    destruct Hin as [l0 Hl0]. pose proof (lookup_weaken _ _ _ _ Hl0 (go_loaded _ _ _ Hstart)). congruence. }
  pose proof (deferred_check_ok x d v q l fk rid row need Hdb Hv Hfor Hlx Hfk Hr Hn) as Hsat.
  destruct need as [k|]; [|done]. destruct Hsat as (pl & prid & prow & Hpl & Hrest). exists pl, prid, prow. split; [|done].
  by eapply lookup_weaken; [|apply (go_loaded _ _ _ Hstart)].
Qed.
End statements.
