(* ===== verification/EngineConsistency.v ===== *)
(** * Consistency of the engine

    The invariant of the engine with one session at a time: what is stored is
    consistent, and so is what an open transaction sees but for the checks it
    deferred.  Every statement keeps it, whatever its outcome. *)

From S2P Require Import Prelude BTree Json Utf8 RustString RustFloat FloatExact SqlTypes Fts FtsInv SqlValue SqlTyping SqlConvert SqlStorage OrdMap Lock SqlCatalog TableStore TableStoreInv RelStorage SqlExec SqlTrigger.
From S2P Require Import ForeignKeys Dml ForeignKeysInv ForeignKeyActions ForeignKeyLoop DmlInv WriteLog SqlEngine SqlEngineInv StoredTables FkRipple EngineTables EngineViews EngineStatements.

Section consistency.
Context {S : Type} `{!RelationalStorage S, !StorageContract S, !Reliable}.
Context `{!Foreign, !ForeignText, !ForeignStorage, !ForeignKeyText, !SqlSyntax, !Evaluator, !EngineSyntax}.
Context `{!CatalogCodec, !CatalogCodecLaw}.
Implicit Types (s : Engine (S := S)) (st : S).

Variable c : Catalog.
Hypothesis schema : database_ok c.
Hypothesis encodable : forall cat, same_schema c cat -> is_ok (catalog_to_json cat) = true.

(** The checks that the open transaction still owes. *)
Definition pending s : list DeferredFkCheck :=
  match txn (session s) with Some tx => pending_deferred tx | None => [] end.

Record engine_ok s : Prop := {
  eo_storage : storage_ok (storage (db s));
  eo_catalog : exists j cat, catalog_doc (storage (db s)) = Some j /\ catalog_of_json j = Ok cat /\ same_schema c cat;
  eo_txn : forall tx, txn (session s) = Some tx -> same_schema c (txn_catalog tx) /\ pending_triggers tx = [];
  eo_cache : cache_ok c s;
  eo_stored : exists ts, view_ok c (docs (storage (db s))) [] ts;
  eo_session : forall tx, txn (session s) = Some tx -> aborted tx = false ->
    exists ts, view_ok c (session_docs s) (pending_deferred tx) ts
}.

(** ** Steps without effect *)

(** Only locks and cache changed. *)
Definition calm s s' : Prop := (exists lo ca, s' = with_cache (with_locks s lo) ca) /\ cache_ok c s'.

Lemma calm_refl s : cache_ok c s -> calm s s.
Proof. intros Hc. split; [|done]. exists (locks (db s)), (table_cache (db s)). by destruct s as [[] ?]. Qed.

Lemma calm_trans s s1 s2 : calm s s1 -> calm s1 s2 -> calm s s2.
Proof. intros [(lo & ca & ->) _] [(lo' & ca' & ->) Hok]. split; [|done]. by exists lo', ca'. Qed.

Lemma calm_cached s s' : cached_only c s s' -> calm s s'.
Proof.
  intros [[ca ->] Hok]. split; [|done]. exists (locks (db s)), ca. by destruct s as [[] ?].
Qed.

Lemma calm_locks s lo : cache_ok c s -> calm s (with_locks s lo).
Proof. intros Hok. split; [|done]. exists lo, (table_cache (db s)). by destruct s as [[] ?]. Qed.

Lemma engine_ok_calm s s' : engine_ok s -> calm s s' -> engine_ok s'.
Proof. intros [] [(lo & ca & ->) Hc]. by split. Qed.

Lemma keeps_calm s0 o m scope wait : keeps (calm s0) (acquire o m scope wait).
Proof.
  intros s Hs. unfold acquire. destruct (LockManager.acquire_check _ _ _ _ _ _) as [l r]. cbn [fst].
  eapply calm_trans; [exact Hs|]. apply calm_locks, Hs.
Qed.

Lemma calm_load s0 cat q : storage_ok (storage (db s0)) -> same_schema c cat -> keeps (calm s0) (load_table cat q).
Proof.
  intros Hst Hcat s Hs. eapply calm_trans; [exact Hs|]. apply calm_cached.
  destruct Hs as [(lo & ca & ->) Hok]. by apply load_table_calm; [apply schema|..].
Qed.

(** ** The catalog *)

Lemma reload_schema cat : same_schema c cat -> same_schema c (catalog_reload cat).
Proof.
  intros Hcat. pose proof (do_reload _ schema) as Hr. destruct c, cat. unfold same_schema in *. cbn in *.
  injection Hcat as -> -> -> -> -> -> -> -> -> -> -> ->. unfold catalog_reload, catalog_load in *. cbn in *.
  injection Hr as Ht Hi. by rewrite Ht, Hi.
Qed.

Lemma current_catalog_spec s s' cat :
  engine_ok s -> current_catalog s = (s', Some (Ok cat)) -> s' = s /\ same_schema c cat.
Proof.
  intros Hs. unfold current_catalog. rewrite gets_step. destruct (txn (session s)) as [tx|] eqn:Etx.
  { intros [= <- <-]. split; [done|]. by apply (eo_txn _ Hs). }
  intros (d & s1 & Hr & Hk)%bind_ok. unfold reading in Hr. injection Hr as <- Hr.
  apply load_catalog_docs in Hr as ->; [|apply Hs]. destruct (eo_catalog _ Hs) as (j & cat' & Hj & Hc & Hsame).
  rewrite Hj in Hk. unfold lift in Hk. rewrite Hc in Hk. injection Hk as <- <-. done.
Qed.

(** ** Running a statement *)

Lemma init_rls_only x target x' : init_rls x target = Ok x' -> exists r, x' = with_rls x r.
Proof.
  assert (Hfold : forall (f : Exec -> QualifiedName -> res Exec) l x x', (forall x q x', f x q = Ok x' -> exists r, x' = with_rls x r) ->
    try_fold f x l = Ok x' -> exists r, x' = with_rls x r).
  { clear. intros f l x x' Hf. revert x. induction l as [|q l IH]; intros x; cbn [try_fold].
    - intros [= <-]. exists (rls x). by destruct x.
    - destruct (f x q) as [x1|] eqn:E; [|done]. apply Hf in E as [r ->]. intros [r' ->]%IH. by exists r'. }
  unfold init_rls. case_bool_decide; [intros [= <-]; exists (rls x); by destruct x|].
  destruct (try_fold compile_table x (enforced x)) as [x1|] eqn:E; [|done].
  apply Hfold in E as [r ->]; [|clear; intros x q x'; unfold compile_table; destruct (loaded x !! q); [|done];
    destruct (compile_policies _ _); [|done]; intros [= <-]; eauto].
  intros [r' ->]%Hfold; [by exists r'|]. clear. intros x q x'. unfold hide_table. destruct (loaded x !! q); [|done].
  destruct (hide_rows _ _ _ _ _ _ _); [|done]. intros [= <-]. eauto.
Qed.

Lemma locked_calm s stmt : engine_ok s -> calm s (locked_statement stmt s).1.
Proof.
  intros Hs. pose proof (eo_cache _ Hs) as Hc. unfold locked_statement.
  destruct (current_catalog s) as [s1 [[cat|e]|]] eqn:E.
  - destruct (current_catalog_spec s s1 cat Hs E) as [-> Hcat]. rewrite (bind_step _ _ _ _ _ E).
    assert (Hk : keeps (calm s) (for_each (table_lock_plan cat stmt) (fun om => acquire (Lock.Table om.1) om.2 Lock.Transaction Wait)
      ≫= fun _ => run_statement cat stmt)).
    { apply keeps_bind; [apply keeps_for_each; intros; apply keeps_calm|]. intros _.
      apply keeps_bind; [apply keeps_load_all; intros; apply calm_load; [apply Hs|done]|]. intros tables.
      apply keeps_bind; [by intros s' Hs'|]. intros ses. apply keeps_bind; [apply keeps_lift|]. intros x. apply keeps_lift. }
    by apply Hk, calm_refl.
  - pose proof (keeps_current_catalog (eq s) s eq_refl) as Hk. rewrite E in Hk. cbn [fst] in Hk. subst s1.
    rewrite (bind_fails _ _ _ _ _ E). by apply calm_refl.
  - pose proof (keeps_current_catalog (eq s) s eq_refl) as Hk. rewrite E in Hk. cbn [fst] in Hk. subst s1.
    unfold mbind, handler_bind. rewrite E. by apply calm_refl.
Qed.

Lemma for_each_calm {A} s (l : list A) f : cache_ok c s -> (forall a, keeps (calm s) (f a)) -> calm s (for_each l f s).1.
Proof. intros Hc Hf. by apply keeps_for_each, calm_refl. Qed.

(** The context in which the statement runs. *)
Lemma locked_spec s stmt s' xr ts :
  engine_ok s -> view_ok c (session_docs s) (pending s) ts -> locked_statement stmt s = (s', Some (Ok xr)) ->
  exists x, started c ts x /\ preloaded c stmt x /\ constraint_modes x = (txn_modes <$> txn (session s)) /\
    dispatch x (command stmt) = Ok xr.
Proof.
  intros Hs Hv (cat & s1 & Hcat & (u & s2 & Hlocks & Hrun)%bind_ok)%bind_ok.
  apply current_catalog_spec in Hcat as [-> Hcat]; [|done].
  pose proof (for_each_calm s (table_lock_plan cat stmt) (fun om => acquire (Lock.Table om.1) om.2 Lock.Transaction Wait)
    (eo_cache _ Hs) (fun _ => keeps_calm _ _ _ _ _)) as Hcalm. rewrite Hlocks in Hcalm. cbn [fst] in Hcalm.
  destruct Hcalm as [(lo & ca & ->) Hcache]. set (s1 := with_cache (with_locks s lo) ca) in *.
  apply bind_ok in Hrun as (tables & s3 & Hload & Hrun).
  destruct (load_tables_spec c (do_distinct _ schema) cat (preload_names cat stmt) s1 s3 tables Hcat (eo_storage _ Hs) Hcache Hload)
    as ([[ca' ->] _] & Hshown & Hall).
  rewrite gets_step in Hrun. apply bind_ok in Hrun as (x & s4 & Hinit & Hdisp). unfold lift in Hinit, Hdisp.
  injection Hinit as <- Hinit. injection Hdisp as <- Hdisp.
  destruct (init_rls_only _ _ _ Hinit) as [r ->]. eexists. split; [|split; [|split; [|exact Hdisp]]]; [..|done].
  - split; try done. cbn [loaded with_rls with_modes exec_new]. apply map_subseteq_spec. intros q l Hl.
    destruct (Hshown q l Hl) as (t & Ht & Hb). pose proof (vw_tables _ _ _ _ Hv q) as Hq. rewrite Ht in Hq.
    destruct (ts !! q) as [l'|]; inversion Hq as [? ? Hsh Heq|]; subst. f_equal. symmetry. by apply (shows_unique c _ _ _ _ _ Hsh).
  - assert (Hn : preload_names cat stmt = preload_names c stmt) by (rewrite Hcat; apply preload_sequences). rewrite Hn in Hall. split; [exact Hall|].
    intros q l Hl. destruct (Hshown q l Hl) as (t & Ht & Hb). destruct (build_ok _ _ _ _ Hb) as [_ ->]. done.
Qed.

(** The statements of the theorem: changes of tables and queries.  The identifiers
    of new rows are new, and what was written can be read back. *)
Definition allowed s (cmd : Command) : Prop :=
  match cmd with
  | Insert _ _ _ uuids on =>
      is_do_update on = false /\ (forall i j, uuids i = uuids j -> i = j) /\
      forall q t i, get_table c q = Some t ->
        BTreeMap.get (session_docs s (table_storage_collection t)) (uuids i) = None
  | Other _ run => query run
  | _ => True
  end.

Record plain_statement s (stmt : Statement) : Prop := {
  plain_allowed : allowed s (command stmt);
  plain_readable : forall s' xr q l, locked_statement stmt s = (s', Some (Ok xr)) -> loaded xr.1 !! q = Some l ->
    readable (meta l) (rows l)
}.

Lemma no_view x q : same_schema c (catalog x) -> get_view (catalog x) q = None.
Proof. intros ->. unfold get_view. cbn [views with_sequences]. by rewrite (do_views _ schema). Qed.

Lemma on_table x cmd target run xr :
  same_schema c (catalog x) -> on_target_table x cmd target run = Ok xr ->
  exists q, resolve c target = Some q /\ run q = Ok xr.
Proof.
  intros Hc. unfold on_target_table.
  assert (Hres : resolve (catalog x) target = resolve c target) by by rewrite Hc. rewrite Hres.
  destruct (resolve c target) as [q|]; [|done]. cbn [ok_or]. rewrite no_view by done. eauto.
Qed.

Lemma dispatch_leaves s D ds ts stmt x xr :
  view_ok c D ds ts -> started c ts x -> preloaded c stmt x -> (forall coll, D coll = session_docs s coll) ->
  allowed s (command stmt) -> (forall q l, loaded xr.1 !! q = Some l -> readable (meta l) (rows l)) ->
  dispatch x (command stmt) = Ok xr -> leaves c D ds x xr.1.
Proof.
  intros Hv Hst Hpre HD Ha Hrd. destruct xr as [x' out]. cbn [fst] in *.
  assert (Hnop : (Ok (x, []) : res (Exec * list RowValues)) = Ok (x', out) -> leaves c D ds x x').
  { intros Heq. eapply (query_leaves c D ds ts x x' Hv Hst (fun x => Ok (x, [])) out); [|done].
    intros y y' o [= <- <-]. split_and!; try done. apply same_schema_refl. }
  destruct (command stmt) as [| | |target cols src uuids on|target alias asg sel|target alias sel|targets mode nowait|plan run]
    eqn:Ecmd; cbn [dispatch]; try exact Hnop.
  - intros (q & Hq & He)%on_table; [|apply Hst]. destruct Ha as (Hon & Hinj & Hfresh).
    eapply (insert_leaves c schema D ds ts stmt x x' Hv Hst Hpre Hrd target q); [|done..| |exact He].
    + rewrite Ecmd. cbn [fk_dml_target]. by rewrite Hon.
    + split; [done|]. intros l i Hl. pose proof (lookup_weaken _ _ _ _ Hl (go_loaded _ _ _ Hst)) as Hts.
      destruct (view_table c D ds ts Hv q l Hts) as (t & Ht & Hsh). pose proof (sh_encoded _ _ _ _ _ Hsh (uuids i)) as Henc.
      rewrite HD, (Hfresh q t i Ht) in Henc. by destruct (BTreeMap.get (rows l) (uuids i)).
  - intros (q & Hq & He)%on_table; [|apply Hst].
    eapply (update_leaves c schema D ds ts stmt x x' Hv Hst Hpre Hrd target q); [|done|exact He]. by rewrite Ecmd.
  - intros (q & Hq & He)%on_table; [|apply Hst].
    eapply (delete_leaves c schema D ds ts stmt x x' Hv Hst Hpre Hrd target q); [|done|exact He]. by rewrite Ecmd.
  - intros He. by eapply (query_leaves c D ds ts x x' Hv Hst run out).
Qed.

(** ** Finishing a statement *)

(** The session sees the rows that the statement left in its tables. *)
Definition visible s (x : Exec) : Prop :=
  forall q t l, get_table c q = Some t -> loaded x !! q = Some l ->
    exists b, shown c s q t b /\ rows b = rows l.

Lemma view_visible s ds ts x :
  view_ok c (session_docs s) ds ts ->
  (forall q l, loaded x !! q = Some l -> exists b, ts !! q = Some b /\ rows b = rows l) -> visible s x.
Proof.
  intros Hv Hrows q t l Ht Hl. destruct (Hrows q l Hl) as (b & Hb & Heq).
  destruct (view_table c _ ds ts Hv q b Hb) as (t' & Ht' & Hsh). rewrite Ht in Ht'. injection Ht' as <-.
  exists b. split; [apply Hsh|done].
Qed.

Lemma finish_staged s x x' tx s' r :
  engine_ok s -> txn (session s) = Some tx -> deferred_triggers x = [] -> leaves c (session_docs s) (pending s) x x' ->
  finish x' s = (s', r) -> r = Some (Ok tt) /\ engine_ok s' /\ visible s' x'.
Proof.
  intros Hs Htx Htr (Hcat & Hu & ts & Hv & Hrows). unfold finish. rewrite gets_step, Htx. intros [= <- <-]. split; [done|].
  assert (Hview : view_ok c (session_docs (with_txn s (Some (mk_transaction (catalog x') (txn_catalog_dirty tx || catalog_dirty x')
      (stage_mutations (overlay tx) (truncated tx) (mutations x')).1 (stage_mutations (overlay tx) (truncated tx) (mutations x')).2
      (aborted tx) (txn_modes tx) (pending_deferred tx ++ deferred_checks x')%list
      (pending_triggers tx ++ deferred_triggers x')%list)))) (pending_deferred tx ++ deferred_checks x') ts).
  { unfold pending in Hv. rewrite Htx in Hv. eapply view_ok_ext; [|exact Hv]. intros coll. unfold session_docs.
    cbn [with_txn session txn db overlay truncated]. rewrite Htx, stage_docs; [done|]. apply docs_sorted, Hs. }
  split; [|by eapply view_visible]. split; try apply Hs; cbn [with_txn session txn].
  - intros tx' [= <-]. split; [done|]. cbn [pending_triggers]. rewrite (un_triggers _ _ Hu), Htr, app_nil_r.
    by apply (eo_txn _ Hs).
  - intros tx' [= <-] _. by exists ts.
Qed.

Lemma saved_catalog s s' cat u :
  engine_ok s -> same_schema c cat -> save_catalog cat s = (s', Some (Ok u)) ->
  exists j st', s' = with_storage s st' /\ storage_ok st' /\ docs st' = docs (storage (db s)) /\
    catalog_doc st' = Some j /\ catalog_of_json j = Ok (catalog_reload cat) /\ counted (storage (db s)) st'.
Proof.
  intros Hs Hcat Hsave. destruct (save_catalog_wrote cat s s' u (eo_storage _ Hs) Hsave) as (j & st' & Hj & -> & ? & ? & ? & ?).
  exists j, st'. split_and!; try done. by apply catalog_round_trip.
Qed.

(** A state that differs from [s] in storage, events, locks and cache. *)
Lemma engine_ok_stored s s' :
  engine_ok s -> txn (session s) = None -> session s' = session s ->
  storage_ok (storage (db s')) ->
  (exists j cat, catalog_doc (storage (db s')) = Some j /\ catalog_of_json j = Ok cat /\ same_schema c cat) ->
  cache_ok c s' -> (exists ts, view_ok c (docs (storage (db s'))) [] ts) -> engine_ok s'.
Proof. intros Hs Htx Hses Hst Hcat Hcache Hv. split; try done; intros tx; rewrite Hses, Htx; done. Qed.

Lemma finish_applied s x x' s' r :
  engine_ok s -> txn (session s) = None -> constraint_modes x = None -> deferred_checks x = [] ->
  leaves c (session_docs s) (pending s) x x' -> finish x' s = (s', r) ->
  r = Some (Ok tt) /\ engine_ok s' /\ visible s' x'.
Proof.
  intros Hs Htx Hmodes Hdef (Hcat & Hu & ts & Hv & Hrows). unfold finish. rewrite gets_step, Htx.
  unfold pending in Hv. rewrite Htx, (un_checks _ _ Hu Hmodes), Hdef in Hv. cbn [app] in Hv.
  destruct (apply_mutations_total (mutations x') s (eo_storage _ Hs)) as [s1 E1].
  destruct (apply_mutations_wrote _ _ _ _ (eo_storage _ Hs) E1) as (st1 & es & -> & Hst1 & Hd1 & Hc1 & Hg1).
  rewrite (bind_step _ _ _ _ _ E1). set (s1 := with_delivered (with_storage s st1) es) in *.
  assert (Hv1 : view_ok c (docs st1) [] ts).
  { eapply view_ok_ext; [|exact Hv]. intros coll. cbn beta. rewrite Hd1. unfold session_docs. by rewrite Htx. }
  assert (Hs1 : engine_ok s1).
  { apply (engine_ok_stored s); try done; [|by eapply cache_ok_counted; [apply Hs|..]|by exists ts].
    cbn. rewrite Hc1. apply (eo_catalog _ Hs). }
  assert (Hvis : forall s2, session s2 = session s -> docs (storage (db s2)) = docs st1 -> visible s2 x').
  { intros s2 Hses Hd2. apply (view_visible s2 [] ts); [|done]. eapply view_ok_ext; [|exact Hv1].
    intros coll. unfold session_docs. by rewrite Hses, Htx, Hd2. }
  destruct (catalog_dirty x').
  - destruct (save_catalog_total (catalog x') s1 (encodable _ Hcat)) as [s2 E2].
    destruct (saved_catalog s1 s2 _ _ Hs1 Hcat E2) as (j & st2 & -> & Hst2 & Hd2 & Hj & Hcj & Hg2).
    erewrite bind_step by (erewrite bind_step by exact E2; reflexivity). intros [= <- <-]. split; [done|].
    split; [|by apply Hvis]. apply (engine_ok_stored s); try done.
    + exists j, (catalog_reload (catalog x')). split_and!; try done. by apply reload_schema.
    + exists ts. cbn. by rewrite Hd2.
  - rewrite ret_step. intros [= <- <-]. split; [done|]. split; [|by apply Hvis].
    by apply (engine_ok_calm s1), calm_locks, Hs1.
Qed.

(** ** Statements *)

(** The view of the session, unless its transaction has failed. *)
Definition sees s : Prop := exists ts, view_ok c (session_docs s) (pending s) ts.

(** No transaction that has failed is open. *)
Definition alive s : Prop := match txn (session s) with Some tx => aborted tx = false | None => True end.

Lemma live_sees s : engine_ok s -> alive s -> sees s.
Proof.
  unfold alive. intros Hs Ha. unfold sees, pending. destruct (txn (session s)) as [tx|] eqn:Etx.
  - by apply (eo_session _ Hs tx).
  - destruct (eo_stored _ Hs) as [ts Hv]. exists ts. eapply view_ok_ext; [|exact Hv].
    intros coll. unfold session_docs. by rewrite Etx.
Qed.

Lemma execute_inner_outcome s stmt s' r :
  engine_ok s -> sees s -> plain_statement s stmt -> execute_inner stmt s = (s', r) ->
  match r with
  | Some (Ok _) => engine_ok s' /\ forall s1 xr, locked_statement stmt s = (s1, Some (Ok xr)) ->
      (forall ts mode nowait, command stmt <> LockTable ts mode nowait) -> visible s' xr.1
  | _ => calm s s'
  end.
Proof.
  intros Hs [ts Hv] [Ha Hrd]. pose proof (eo_cache _ Hs) as Hcache. unfold execute_inner.
  assert (Hrun : (xr ← locked_statement stmt;
      for_each (pending_locks xr.1) (fun oms => acquire oms.1.1 oms.1.2 oms.2 Wait) ≫= fun _ =>
      finish xr.1 ≫= fun _ => mret (Affected xr.2)) s = (s', r) ->
    match r with
    | Some (Ok _) => engine_ok s' /\ forall s1 xr, locked_statement stmt s = (s1, Some (Ok xr)) ->
        (forall ts mode nowait, command stmt <> LockTable ts mode nowait) -> visible s' xr.1
    | _ => calm s s'
    end).
  { pose proof (locked_calm s stmt Hs) as Hc1. unfold mbind at 1, handler_bind at 1.
    destruct (locked_statement stmt s) as [s1 [[xr|e]|]] eqn:E1; cbn [fst] in Hc1; [|by intros [= <- <-]..].
    destruct (locked_spec s stmt s1 xr ts Hs Hv E1) as (x & Hst & Hpre & Hmodes & Hdisp).
    pose proof (engine_ok_calm _ _ Hs Hc1) as Hs1.
    pose proof (for_each_calm s1 (pending_locks xr.1) (fun oms => acquire oms.1.1 oms.1.2 oms.2 Wait) (eo_cache _ Hs1)
      (fun _ => keeps_calm _ _ _ _ _)) as Hc2.
    unfold mbind at 1, handler_bind at 1. destruct (for_each _ _ s1) as [s2 [[u|e]|]] eqn:E2; cbn [fst] in Hc2;
      [|intros [= <- <-]; by eapply calm_trans..].
    pose proof (calm_trans _ _ _ Hc1 Hc2) as Hc. pose proof (engine_ok_calm _ _ Hs Hc) as Hs2.
    assert (Hleaves : leaves c (session_docs s2) (pending s2) x xr.1).
    { destruct Hc as [(lo & ca & ->) _].
      apply (dispatch_leaves s _ _ ts stmt); try done. intros q l Hl. by eapply Hrd. }
    assert (Htxn : txn (session s2) = txn (session s)) by (by destruct Hc as [(lo & ca & ->) _]).
    unfold mbind, handler_bind. destruct (finish xr.1 s2) as [s3 r3] eqn:E3. rewrite <- Htxn in Hmodes.
    assert (Hfin : r3 = Some (Ok tt) /\ engine_ok s3 /\ visible s3 xr.1).
    { destruct (txn (session s2)) as [tx|] eqn:Etx.
      - eapply (finish_staged s2 x xr.1 tx); [done..|apply Hst|done|exact E3].
      - eapply (finish_applied s2 x xr.1); [done..|apply Hst|done|exact E3]. }
    destruct Hfin as (-> & Hs3 & Hvis). intros [= <- <-]. split; [done|]. by intros s4 xr' [= _ <-] _. }
  destruct (command stmt) as [| | | | | |targets mode nowait|] eqn:Ecmd; try exact Hrun.
  destruct (current_catalog s) as [s1 [[cat|e]|]] eqn:E.
  2,3: pose proof (keeps_current_catalog (eq s) s eq_refl) as Hk; rewrite E in Hk; cbn [fst] in Hk; subst s1;
    unfold mbind, handler_bind; rewrite E; intros [= <- <-]; by apply calm_refl.
  destruct (current_catalog_spec s s1 cat Hs E) as [-> Hcat]. rewrite (bind_step _ _ _ _ _ E). intros Hl.
  assert (Hk : keeps (calm s) (exec_lock_table cat targets mode nowait)).
  { apply keeps_bind; [|intros _; apply keeps_ret]. apply keeps_for_each. intros target.
    apply keeps_bind; [apply keeps_lift|]. intros q. apply keeps_bind; [apply keeps_lift|]. intros t. apply keeps_calm. }
  specialize (Hk s (calm_refl _ Hcache)). rewrite Hl in Hk. cbn [fst] in Hk.
  destruct r as [[?|?]|]; [|done..]. split; [by eapply engine_ok_calm|]. intros s1 xr _ Hn. by destruct (Hn targets mode nowait).
Qed.

(** ** Transactions *)

Lemma engine_ok_aborted s tx :
  engine_ok s -> same_schema c (txn_catalog tx) -> pending_triggers tx = [] -> aborted tx = true ->
  engine_ok (with_txn s (Some tx)).
Proof. intros [] Hcat Htr Ha. split; try done; intros tx' [= <-]; [done|]. by rewrite Ha. Qed.

Lemma fail_ok s : engine_ok s -> engine_ok (fail_statement s).
Proof.
  intros Hs. unfold fail_statement. destruct (txn (session s)) as [tx|] eqn:Etx.
  - destruct (eo_txn _ Hs tx Etx). by apply engine_ok_aborted.
  - by apply (engine_ok_calm s), calm_locks, Hs.
Qed.

(** A handler of a statement: it succeeds with a good state, or it fails with one
    that may be aborted. *)
Lemma guarded_ok {A} (m : handler A) s s' r :
  engine_ok s ->
  (alive s -> forall s' r, m s = (s', r) ->
     match r with Some (Ok _) => engine_ok s' | Some (Err _) => engine_ok (fail_statement s') | None => engine_ok s' end) ->
  guarded m s = (s', r) -> engine_ok s'.
Proof.
  intros Hs Hm. unfold guarded. rewrite gets_step.
  destruct (match txn (session s) with Some tx => aborted tx | None => false end) eqn:Ea; [by intros [= <- <-]|].
  assert (Ha : alive s) by (unfold alive; by destruct (txn (session s))).
  unfold on_error. destruct (m s) as [s1 [[a|e]|]] eqn:E; specialize (Hm Ha _ _ eq_refl); by intros [= <- <-].
Qed.

Lemma execute_ok s stmt s' r :
  engine_ok s -> plain_statement s stmt -> guarded (execute_inner stmt) s = (s', r) -> engine_ok s'.
Proof.
  intros Hs Hp. apply guarded_ok; [done|]. intros Hsees%live_sees s1 r1 E; [|done].
  pose proof (execute_inner_outcome s stmt s1 r1 Hs Hsees Hp E) as Ho.
  destruct r1 as [[?|?]|]; [by destruct Ho| |]; [apply fail_ok|]; by eapply engine_ok_calm.
Qed.

Lemma begin_ok s s' r : engine_ok s -> begin s = (s', r) -> engine_ok s'.
Proof.
  intros Hs. unfold begin. rewrite gets_step. destruct (txn (session s)) as [tx|] eqn:Etx.
  { rewrite ret_step. by intros [= <- <-]. }
  destruct (load_catalog s) as [s1 [[cat|e]|]] eqn:E.
  2,3: pose proof (keeps_load_catalog (eq s) s eq_refl) as Hk; rewrite E in Hk; cbn [fst] in Hk; subst s1;
    unfold mbind, handler_bind; rewrite E; by intros [= <- <-].
  assert (Hc : current_catalog s = (s1, Some (Ok cat))) by (unfold current_catalog; by rewrite gets_step, Etx).
  destruct (current_catalog_spec s s1 cat Hs Hc) as [-> Hcat].
  erewrite bind_step by (erewrite bind_step by exact E; reflexivity). intros [= <- <-].
  split; try apply Hs; intros tx [= <-]; [done|]. intros _. destruct (eo_stored _ Hs) as [ts Hv]. exists ts.
  by eapply view_ok_ext; [|exact Hv].
Qed.

Lemma without_txn s : engine_ok s -> engine_ok (with_txn s None).
Proof. intros []. by split. Qed.

Lemma rollback_ok s s' r : engine_ok s -> rollback s = (s', r) -> engine_ok s'.
Proof.
  intros Hs [= <- <-]. apply (engine_ok_calm (with_txn s None)); [by apply without_txn|]. apply calm_locks.
  apply (eo_cache _ (without_txn _ Hs)).
Qed.

(** The deferred checks passed: nothing is owed any more. *)
Lemma check_deferred_view s cat tx ts checks rest s' u :
  storage_ok (storage (db s)) -> same_schema c cat ->
  view_ok c (fun coll => staged_docs (overlay tx) (truncated tx) coll (docs (storage (db s)) coll)) (pending_deferred tx) ts ->
  (forall d, d ∈ pending_deferred tx -> d ∈ checks \/ d ∈ rest) ->
  check_deferred cat (overlay tx) (truncated tx) checks s = (s', Some (Ok u)) ->
  view_ok c (fun coll => staged_docs (overlay tx) (truncated tx) coll (docs (storage (db s)) coll)) rest ts.
Proof.
  intros Hst Hcat Hv Hsplit. unfold check_deferred. destruct checks as [|d checks].
  { intros _. destruct Hv as [Hs Ht [Hd Hi]]. split; [done..|]. split; [done|]. eapply integrity_mono; [exact Hi|].
    intros q l fk r row need _ _ _ _ (d & Hd' & Hf). right. exists d. split; [|done]. rewrite app_nil_r in Hd' |- *.
    destruct (Hsplit d Hd') as [[]%not_elem_of_nil|?]; done. }
  intros (tables & s1 & Hl & Hrest)%bind_ok.
  destruct (load_overlay_spec c cat _ _ _ s s1 tables Hcat Hst Hl) as (-> & Hshown & Hall).
  rewrite gets_step in Hrest. unfold lift in Hrest. injection Hrest as <- Hdrain.
  eapply (drained_view c _ (pending_deferred tx) (d :: checks) rest ts (exec_new cat tables (session_user (session s))));
    [exact Hv| |exact Hsplit|exact Hall|exact Hdrain].
  split; try done. cbn [loaded exec_new]. apply map_subseteq_spec. intros q l Hq.
  destruct (Hshown q l Hq) as (t & Ht & Hb). pose proof (vw_tables _ _ _ _ Hv q) as Hqv. rewrite Ht in Hqv.
  destruct (ts !! q) as [l'|]; inversion Hqv as [? ? Hsh Heq|]; subst. f_equal. symmetry. by apply (shows_unique c _ _ _ _ _ Hsh).
Qed.

Lemma session_view s tx ts ds :
  txn (session s) = Some tx -> view_ok c (session_docs s) ds ts ->
  view_ok c (fun coll => staged_docs (overlay tx) (truncated tx) coll (docs (storage (db s)) coll)) ds ts.
Proof. intros Htx. apply view_ok_ext. intros coll. unfold session_docs. by rewrite Htx. Qed.

Lemma commit_ok s s' r : engine_ok s -> commit s = (s', r) -> engine_ok s'.
Proof.
  intros Hs Hc. destruct (txn (session s)) as [tx|] eqn:Etx.
  2: { unfold commit in Hc. rewrite gets_step, modify_step, Etx in Hc. injection Hc as <- <-.
       apply (engine_ok_calm (with_txn s None)); [by apply without_txn|]. apply calm_locks, (without_txn _ Hs). }
  destruct (eo_txn _ Hs tx Etx) as [Hcat Htr].
  assert (Hsafe : engine_ok (release (with_txn s None))).
  { apply (engine_ok_calm (with_txn s None)); [by apply without_txn|]. apply calm_locks, (without_txn _ Hs). }
  destruct (commit_outcome s tx s' r (eo_storage _ Hs) Etx (encodable _ Hcat) Hc) as (Hses & _ & Hr).
  destruct r as [[out|e]|]; [|by destruct Hr as [_ ->]|done].
  destruct (aborted tx) eqn:Ea; [by destruct Hr as [_ ->]|]. destruct Hr as (_ & ms & Hms & Hst & Hd & Hcd & Hg & Hca).
  rewrite (Hms Htr) in Hd. cbn [foldl] in Hd.
  assert (Hchecked : exists s1 u, check_deferred (txn_catalog tx) (overlay tx) (truncated tx) (pending_deferred tx) (with_txn s None) =
    (s1, Some (Ok u))).
  { unfold commit in Hc. rewrite gets_step, modify_step, Etx, Ea in Hc. apply bind_ok in Hc as (u & s1 & Hc & _).
    unfold on_error in Hc. destruct (check_deferred _ _ _ _ _) as [s2 [[u'|e]|]]; [eauto|done..]. }
  destruct Hchecked as (s1 & u & Hchecked). destruct (eo_session _ Hs tx Etx Ea) as [ts Hv].
  pose proof (check_deferred_view (with_txn s None) _ tx ts _ [] _ _ (eo_storage _ Hs) Hcat (session_view _ _ _ _ Etx Hv)
    (fun d Hin => or_introl Hin) Hchecked) as Hv'.
  apply (engine_ok_stored (with_txn s None)); try done.
  - by apply without_txn.
  - destruct (txn_catalog_dirty tx); [|rewrite Hcd; apply (eo_catalog _ Hs)]. destruct Hcd as (j & Hj & Hcd).
    exists j, (catalog_reload (txn_catalog tx)). split_and!; [done|by apply catalog_round_trip|by apply reload_schema].
  - destruct (txn_catalog_dirty tx); [by apply cache_ok_empty|]. by eapply (cache_ok_counted c s); [apply Hs|..].
  - exists ts. eapply view_ok_ext; [|exact Hv']. intros coll. by rewrite Hd.
Qed.

(** ** SET CONSTRAINTS *)

(** The transaction with other modes, and with the checks that are still owed. *)
Lemma with_checks_ok s tx m rest ts :
  engine_ok s -> txn (session s) = Some tx -> aborted tx = false -> view_ok c (session_docs s) rest ts ->
  engine_ok (with_txn s (Some (with_checks tx m rest))).
Proof.
  intros Hs Htx Ha Hv. destruct (eo_txn _ Hs tx Htx) as [Hcat Htr]. split; try apply Hs; intros tx' [= <-]; [done|].
  intros _. exists ts. eapply view_ok_ext; [|exact Hv]. intros coll. unfold session_docs. by rewrite Htx.
Qed.

(** IMMEDIATE: the covered checks run; when one fails the transaction is lost. *)
Lemma immediate_ok s tx cat m (covered : DeferredFkCheck -> bool) s' r :
  engine_ok s -> txn (session s) = Some tx -> aborted tx = false -> same_schema c cat ->
  (check_deferred cat (overlay tx) (truncated tx) (filter (fun d => covered d = true) (pending_deferred tx)) ≫= fun _ =>
     mret (Tag "SET CONSTRAINTS"))
    (with_txn s (Some (with_checks tx m (filter (fun d => covered d = false) (pending_deferred tx))))) = (s', r) ->
  match r with Some (Ok _) => engine_ok s' | Some (Err _) => engine_ok (fail_statement s') | None => engine_ok s' end.
Proof.
  intros Hs Htx Ha Hcat. set (s1 := with_txn s _). destruct (eo_txn _ Hs tx Htx) as [Htc Htr].
  set (checks := filter (fun d => covered d = true) (pending_deferred tx)).
  destruct (check_deferred cat (overlay tx) (truncated tx) checks s1) as [s2 r2] eqn:E. destruct (check_deferred_quiet _ _ _ _ _ _ _ E) as [-> Hn].
  unfold mbind, handler_bind. rewrite E. destruct r2 as [[u|e]|]; [| |done]; intros [= <- <-].
  - destruct (eo_session _ Hs tx Htx Ha) as [ts Hv]. apply (with_checks_ok s tx m _ ts); try done.
    eapply view_ok_ext; [|eapply (check_deferred_view s1 cat tx ts); [apply Hs|done|by apply (session_view s)| |exact E]].
    + intros coll. unfold session_docs. by rewrite Htx.
    + intros d Hd. destruct (covered d) eqn:Ec; [left|right]; by apply list_elem_of_filter.
  - unfold fail_statement. cbn [with_txn session txn s1]. by apply (engine_ok_aborted s).
Qed.

Lemma set_constraints_ok s names deferred s' r :
  engine_ok s -> execute_set_constraints names deferred s = (s', r) -> engine_ok s'.
Proof.
  intros Hs. apply guarded_ok; [done|]. intros Ha s1 r1. unfold set_constraints_inner.
  destruct (current_catalog s) as [s0 [[cat|e]|]] eqn:E.
  2,3: pose proof (keeps_current_catalog (eq s) s eq_refl) as Hk; rewrite E in Hk; cbn [fst] in Hk; subst s0;
    unfold mbind, handler_bind; rewrite E; intros [= <- <-]; by try apply fail_ok.
  destruct (current_catalog_spec s s0 cat Hs E) as [-> Hcat]. rewrite (bind_step _ _ _ _ _ E). unfold lift.
  unfold mbind at 1, handler_bind at 1. destruct (constraint_identities _ _ _) as [ids|e]; [|intros [= <- <-]; by apply fail_ok].
  rewrite gets_step. unfold alive in Ha. destruct (txn (session s)) as [tx|] eqn:Etx; [|by intros [= <- <-]].
  destruct deferred; rewrite modify_step.
  - intros [= <- <-]. destruct (eo_session _ Hs tx Etx Ha) as [ts Hv]. by apply (with_checks_ok s tx _ _ ts).
  - by apply (immediate_ok s tx cat).
Qed.

(** ** Runs *)

(** One statement of a session, with its outcome; a session without a transaction
    may hand over to another. *)
Inductive engine_step s : Engine -> Prop :=
| step_statement stmt s' r : plain_statement s stmt -> execute_one stmt s = (s', Some r) -> engine_step s s'
| step_set_constraints names deferred s' r :
    execute_set_constraints names deferred s = (s', Some r) -> engine_step s s'
| step_switch user id : txn (session s) = None -> engine_step s (mk_engine (db s) (mk_session user None id)).

Lemma step_ok s s' : engine_ok s -> engine_step s s' -> engine_ok s'.
Proof.
  intros Hs [stmt s1 r Hp He|names deferred s1 r He|user id Htx].
  - unfold execute_one in He. destruct (command stmt) eqn:Ec; try (by eapply execute_ok).
    + by eapply begin_ok.
    + by eapply commit_ok.
    + by eapply rollback_ok.
  - by eapply set_constraints_ok.
  - destruct Hs. by split.
Qed.

Lemma run_ok s s' : engine_ok s -> rtc engine_step s s' -> engine_ok s'.
Proof. intros Hs. induction 1 as [|s s1 s2 Hst _ IH]; [done|]. apply IH. by eapply step_ok. Qed.

(** ** A fresh database *)

(** Every primary key has a unique index that is kept in memory. *)
Definition keys_indexed : Prop :=
  forall q t, get_table c q = Some t -> pk_columns t <> [] ->
    exists i, i ∈ index_defs c q /\ index_method i <> "hnsw"%string /\ index_unique i = true /\ index_columns i = pk_columns t.

(** No documents, an empty cache and no transaction. *)
Record fresh s : Prop := {
  fresh_storage : storage_ok (storage (db s));
  fresh_docs : forall coll, docs (storage (db s)) coll = [];
  fresh_catalog : exists j, catalog_doc (storage (db s)) = Some j /\ catalog_of_json j = Ok c;
  fresh_cache : table_cache (db s) = ∅;
  fresh_txn : txn (session s) = None
}.

Definition empty_loaded (q : QualifiedName) (t : Table) : LoadedTable :=
  rebuild_indexes (mk_loaded t [] []
    ((fun m => mk_loaded_index m (index_new (index_unique m)))
     <$> filter (fun m => index_method m <> "hnsw"%string) (index_defs c q))).

Definition empty_tables : gmap QualifiedName LoadedTable :=
  list_to_map ((fun qt => (qt.1, empty_loaded qt.1 qt.2)) <$> tables c).

Lemma empty_build q t : build t [] (index_defs c q) = Ok (empty_loaded q t).
Proof. done. Qed.

Lemma empty_lookup q : empty_tables !! q = empty_loaded q <$> get_table c q.
Proof.
  assert (Hnd : NoDup ((fun qt => (qt.1, empty_loaded qt.1 qt.2)) <$> tables c).*1).
  { rewrite <- list_fmap_compose. apply (OrdMap.ord_keys_NoDup (tables c)), (do_schema _ schema). }
  unfold empty_tables. destruct (get_table c q) as [t|] eqn:Et.
  - apply elem_of_list_to_map_1; [done|]. apply list_elem_of_fmap. exists (q, t). split; [done|].
    by apply OrdMap.ord_get_Some_elem.
  - apply not_elem_of_list_to_map_1. rewrite <- list_fmap_compose. intros ([q' t] & -> & Hin)%list_elem_of_fmap.
    cbn in Et. apply OrdMap.ord_elem_get in Hin; [|apply (do_schema _ schema)]. unfold get_table in Et. congruence.
Qed.

Lemma empty_state q t : keys_indexed -> get_table c q = Some t -> state_ok c q (empty_loaded q t).
Proof.
  intros Hk Ht. destruct (build_ok t [] (index_defs c q) _ (empty_build q t)) as [Hok Hm].
  split; [by rewrite Hm|done|done| |done|done]. intros Hpk. split; [|done].
  destruct (Hk q t Ht Hpk) as (i & Hi & Hn & Hu & Hc). exists i. split_and!; [|done..].
  unfold empty_loaded, rebuild_indexes. cbn [lindexes rows foldl]. rewrite map_data_metas, <- list_fmap_compose.
  apply list_elem_of_fmap. exists i. split; [done|]. by apply list_elem_of_filter.
Qed.

Lemma fresh_ok s : keys_indexed -> fresh s -> engine_ok s.
Proof.
  intros Hk [Hst Hd (j & Hj & Hc) Hca Htx]. split; [done| | |by apply cache_ok_empty| |]; try (intros tx; by rewrite Htx).
  - exists j, c. split_and!; [done..|apply same_schema_refl].
  - exists empty_tables. split.
    + intros coll. rewrite Hd. constructor.
    + intros q. rewrite empty_lookup. destruct (get_table c q) as [t|] eqn:Et; constructor.
      split; rewrite ?Hd; [done|by intros r|constructor|by intros r].
    + split; [split; [apply schema|]|].
      * intros q l Hl. change (empty_tables !! q = Some l) in Hl. rewrite empty_lookup in Hl.
        destruct (get_table c q) as [t|] eqn:Et; [|done]. injection Hl as <-. by apply empty_state.
      * intros q l fk rid row need Hl _ _ Hr. change (empty_tables !! q = Some l) in Hl. rewrite empty_lookup in Hl.
        destruct (get_table c q) as [t|]; [|done]. injection Hl as <-. done.
Qed.
End consistency.
