(* ===== verification/SqlInstance.v ===== *)
(** * A concrete instance of the third-party types

    Used to evaluate the definitions: decimals are their texts, UUIDs their
    hexadecimal texts, dates and times single points, base64 the bits of the
    bytes.  It satisfies the laws that the theorems name.  Expressions are values
    and column names. *)

From S2P Require Import Prelude BTree Json Utf8 RustString RustFloat SqlTypes Fts SqlValue SqlTyping SqlStorage OrdMap Lock SqlCatalog TableStore TableStoreInv SqlExec SqlTrigger ForeignKeysInv.

Local Open Scope string_scope.

(** Texts over a set of ASCII characters. *)
Definition over (allowed s : string) : bool :=
  forallb (fun a => bool_decide (a ∈ String.list_ascii_of_string allowed)) (String.list_ascii_of_string s).

Lemma over_spec allowed s a :
  over allowed s = true -> a ∈ String.list_ascii_of_string s -> a ∈ String.list_ascii_of_string allowed.
Proof. unfold over. rewrite forallb_forall. intros Ho Ha%list_elem_of_In%Ho. by apply bool_decide_eq_true in Ha. Qed.

Lemma over_plain allowed s : over allowed s = true -> plain allowed -> plain s.
Proof. intros Ho Hp Hin. by apply Hp, (over_spec allowed s). Qed.

Lemma over_utf8 allowed s : over allowed s = true -> ascii_string allowed -> utf8 s.
Proof.
  intros Ho Ha. apply ascii_utf8. unfold ascii_string in *. rewrite Forall_forall in Ha |- *.
  intros a Hin. by apply Ha, (over_spec allowed s).
Qed.

Definition decimal_chars : string := "0123456789-.".
Definition uuid_chars : string := "0123456789abcdef-".

Definition decimal_clean (s : string) : string := if over decimal_chars s then s else "0".

Definition uuid_sig : Type := { s : string | over uuid_chars s = true }.
Definition uuid_read (s : string) : option uuid_sig :=
  match decide (over uuid_chars s = true) with left H => Some (exist _ s H) | right _ => None end.

(** A byte as eight digits. *)
Definition bit_text (b : bool) : Ascii.ascii := if b then "1"%char else "0"%char.
Definition byte_bits (a : Ascii.ascii) : list Ascii.ascii :=
  match a with Ascii.Ascii b0 b1 b2 b3 b4 b5 b6 b7 => bit_text <$> [b0; b1; b2; b3; b4; b5; b6; b7] end.
Definition is_one (a : Ascii.ascii) : bool := bool_decide (a = "1"%char).

Fixpoint bits_bytes (l : list Ascii.ascii) (fuel : nat) : option (list Ascii.ascii) :=
  match l, fuel with
  | [], _ => Some []
  | a0 :: a1 :: a2 :: a3 :: a4 :: a5 :: a6 :: a7 :: l, S fuel =>
      cons (Ascii.Ascii (is_one a0) (is_one a1) (is_one a2) (is_one a3)
              (is_one a4) (is_one a5) (is_one a6) (is_one a7)) <$> bits_bytes l fuel
  | _, _ => None
  end.

Definition bits_encode (s : string) : string :=
  String.string_of_list_ascii (mjoin (byte_bits <$> String.list_ascii_of_string s)).
Definition bits_decode (s : string) : option string :=
  let l := String.list_ascii_of_string s in String.string_of_list_ascii <$> bits_bytes l (length l).

#[global] Instance example_unicode : Unicode := { alphanumeric_above _ := false; lowercase_above c := [c] }.

Definition example_json_text : JsonText := {| to_json := fun _ => "{}" |}.

#[global] Instance example_foreign : Foreign := {
  foreign_unicode := example_unicode;
  foreign_json_text := example_json_text;
  json_from_str _ := None;
  Decimal := string;
  decimal_of_int z := pretty z;
  decimal_of_f32 _ := None;
  decimal_of_f64 _ := None;
  decimal_to_f64 _ := None;
  decimal_to_i64 _ := None;
  decimal_normalize := decimal_clean;
  decimal_text := decimal_clean;
  decimal_from_str s := if over decimal_chars s then Some s else None;
  decimal_from_scientific _ := None;
  decimal_cmp := String.compare;
  Uuid := uuid_sig;
  uuid_text := proj1_sig;
  uuid_parse_str := uuid_read;
  uuid_cmp a b := String.compare (proj1_sig a) (proj1_sig b);
  NaiveDate := unit;
  date_format _ _ := "2024-01-01";
  date_parse _ _ := Some tt;
  date_cmp _ _ := Eq;
  NaiveTime := unit;
  time_format _ _ := "00:00:00";
  time_parse _ _ := Some tt;
  time_cmp _ _ := Eq;
  NaiveDateTime := unit;
  datetime_format _ _ := "2024-01-01T00:00:00";
  datetime_parse f _ := if bool_decide (f = "%Y-%m-%dT%H:%M:%S%.f") then Some tt else None;
  datetime_cmp _ _ := Eq;
  datetime_date _ := tt;
  date_midnight _ := tt;
  DateTimeUtc := unit;
  utc_format _ _ := "2024-01-01 00:00:00+00:00";
  utc_to_rfc3339 _ := "2024-01-01T00:00:00+00:00";
  utc_parse _ _ := Some tt;
  utc_parse_rfc3339 _ := Some tt;
  utc_cmp _ _ := Eq;
  and_utc _ := tt;
  naive_utc _ := tt;
  base64_encode := bits_encode;
  base64_decode := bits_decode
}.

Lemma decimal_clean_over s : over decimal_chars (decimal_clean s) = true.
Proof. unfold decimal_clean. by destruct (over decimal_chars s) eqn:E. Qed.

Lemma bits_encode_ascii s : ascii_string (bits_encode s).
Proof.
  unfold ascii_string, bits_encode. rewrite String.list_ascii_of_string_of_list_ascii.
  induction (String.list_ascii_of_string s) as [|[b0 b1 b2 b3 b4 b5 b6 b7] l IH]; [constructor|].
  rewrite fmap_cons. cbn [mjoin list_join]. apply Forall_app. split; [|done].
  unfold byte_bits. apply Forall_fmap, Forall_true. by intros [].
Qed.

Lemma bits_read_back l n :
  (length (mjoin (byte_bits <$> l)) <= n)%nat -> bits_bytes (mjoin (byte_bits <$> l)) n = Some l.
Proof.
  revert n. induction l as [|a l IH]; intros n Hn; [by destruct n|].
  assert (Ha : mjoin (byte_bits <$> a :: l) = (byte_bits a ++ mjoin (byte_bits <$> l))%list) by done.
  rewrite Ha in *. rewrite length_app in Hn. set (m := mjoin (byte_bits <$> l)) in *.
  destruct a as [b0 b1 b2 b3 b4 b5 b6 b7]. change (8 + length m <= n)%nat in Hn.
  destruct n as [|n]; [lia|]. cbn [byte_bits fmap list_fmap app bits_bytes]. rewrite IH by lia.
  by destruct b0, b1, b2, b3, b4, b5, b6, b7.
Qed.

Ltac concrete_utf8 := apply ascii_utf8; unfold ascii_string; repeat constructor.

#[global] Instance example_foreign_text : ForeignText.
Proof.
  split.
  - intros v. change (utf8 "{}"). concrete_utf8.
  - intros s v Hv. discriminate Hv.
  - intros d. apply (over_utf8 decimal_chars); [apply decimal_clean_over|]. unfold ascii_string. repeat constructor.
  - intros [u Hu]. apply (over_utf8 uuid_chars); [exact Hu|]. unfold ascii_string. repeat constructor.
  - intros f d. change (utf8 "2024-01-01"). concrete_utf8.
  - intros f d. change (utf8 "00:00:00"). concrete_utf8.
  - intros f d. change (utf8 "2024-01-01T00:00:00"). concrete_utf8.
  - intros f d. change (utf8 "2024-01-01 00:00:00+00:00"). concrete_utf8.
  - intros d. change (utf8 "2024-01-01T00:00:00+00:00"). concrete_utf8.
  - intros s. apply ascii_utf8, bits_encode_ascii.
Qed.

#[global] Instance example_foreign_storage : ForeignStorage.
Proof.
  split.
  - intros d. simpl. assert (Hc : decimal_clean (decimal_clean d) = decimal_clean d).
    { unfold decimal_clean at 1. by rewrite decimal_clean_over. }
    by rewrite Hc, decimal_clean_over.
  - intros [u Hu]. simpl. unfold uuid_read. destruct (decide (over uuid_chars u = true)) as [H|H]; [|done].
    f_equal. f_equal. apply eq_pi. solve_decision.
  - intros s. simpl. unfold bits_decode, bits_encode. rewrite String.list_ascii_of_string_of_list_ascii.
    rewrite bits_read_back by lia. simpl. by rewrite String.string_of_list_ascii_of_string.
Qed.

#[global] Instance example_key_text : ForeignKeyText.
Proof.
  split.
  - intros d. eapply over_plain; [apply decimal_clean_over|]. by apply (bool_decide_unpack _); vm_compute.
  - intros [u Hu]. eapply over_plain; [exact Hu|]. by apply (bool_decide_unpack _); vm_compute.
Qed.

(** ** Expressions *)

Inductive ExampleExpr := Lit (v : SqlValue) | Col (c : string) | Equal (a b : ExampleExpr).

Definition example_column (frames : list Frame) (c : string) : res SqlValue :=
  match frames with
  | f :: _ =>
      match list_find (fun r => field_name r = c) (frame_schema f) with
      | Some (i, _) => Ok (default VNull (frame_row f !! i))
      | None => raise (UndefinedColumn c)
      end
  | [] => raise (UndefinedColumn c)
  end.

Fixpoint example_eval (e : ExampleExpr) (frames : list Frame) : res SqlValue :=
  match e with
  | Lit v => Ok v
  | Col c => example_column frames c
  | Equal a b =>
      let? v := example_eval a frames in
      let? w := example_eval b frames in
      Ok (VBool (bool_decide (index_key v = index_key w)))
  end.

(** A stored expression is the name of a column. *)
#[global] Instance example_syntax : SqlSyntax := {
  Expr := ExampleExpr;
  parse_expr s := Ok (Col s);
  parse_select s := Ok (Some (Col s))
}.

#[global] Instance example_evaluator : Evaluator := {
  eval _ e frames := example_eval e frames;
  call_trigger_function x _ i := Ok (x, inv_new i)
}.

(** ** A database

    Customers and their orders; the reference is checked at commit and follows
    changes of the customer's key. *)

Definition customers : QualifiedName := mk_qualified "public" "customers".
Definition orders : QualifiedName := mk_qualified "public" "orders".

Definition int_column (name : string) (nullable : bool) (i : nat) : Column :=
  mk_column name TInteger nullable None None i.

Definition example_table (oid : N) (name : string) (columns : list Column) (fks : list ForeignKey) : Table :=
  rebuild_column_map
    (mk_table oid "public" name columns (Some (mk_primary_key (name ++ "_pkey") ["id"])) [] fks [] name
       false false [] [] ∅).

Definition example_index (oid : N) (table : string) : Index :=
  mk_index oid (table ++ "_pkey") "public" table ["id"] true true "btree" [] [].

Definition order_reference : ForeignKey :=
  mk_foreign_key "orders_customer" ["customer"] "public" "customers" ["id"] Cascade Cascade MatchSimple
    DeferrableDeferred.

Definition customers_table : Table := example_table 1 "customers" [int_column "id" false 0] [].
Definition orders_table : Table :=
  example_table 2 "orders" [int_column "id" false 0; int_column "customer" true 1] [order_reference].

Definition example_indexes : list (QualifiedName * Index) :=
  [(mk_qualified "public" "customers_pkey", example_index 4 "customers");
   (mk_qualified "public" "orders_pkey", example_index 5 "orders")].

Definition example_catalog : Catalog :=
  mk_catalog "db" [("public", mk_schema "public" 3 "postgres")]
    [(customers, customers_table); (orders, orders_table)] example_indexes [] [] 16384 ["public"] [] [] [] []
    (reverse_indexes example_indexes).

Definition empty_table (t : Table) (i : Index) : LoadedTable :=
  mk_loaded t [] [] [mk_loaded_index i (index_new true)].

Definition example_db : Exec :=
  mk_exec example_catalog
    {[ customers := empty_table customers_table (example_index 4 "customers");
       orders := empty_table orders_table (example_index 5 "orders") ]}
    [] false ∅ "postgres" [] (mk_rls ∅ ∅ ∅) (Some (mk_modes None ∅)) [] [].
