(* ===== verification/EngineInstance.v ===== *)
(** * A concrete engine

    An engine with the storage in memory and the database of [SqlInstance], for
    the examples: a codec of its catalogs, and syntax without functions and views. *)

From S2P Require Import Prelude BTree Json Utf8 RustString RustFloat FloatExact SqlTypes Fts FtsInv SqlValue SqlTyping SqlConvert SqlStorage OrdMap Lock SqlCatalog TableStore TableStoreInv RelStorage SqlExec SqlTrigger.
From S2P Require Import ForeignKeys Dml ForeignKeysInv ForeignKeyActions ForeignKeyLoop DmlInv WriteLog SqlEngine SqlEngineInv StoredTables FkRipple EngineTables EngineViews EngineStatements EngineConsistency SqlInstance.

#[local] Ltac eq_dec := solve_decision.

#[global] Instance schema_eq_dec : EqDecision Schema.
Proof. eq_dec. Defined.
#[global] Instance column_eq_dec : EqDecision Column.
Proof. eq_dec. Defined.
#[global] Instance primary_key_eq_dec : EqDecision PrimaryKey.
Proof. eq_dec. Defined.
#[global] Instance unique_eq_dec : EqDecision UniqueConstraint.
Proof. eq_dec. Defined.
#[global] Instance action_eq_dec : EqDecision ReferentialAction.
Proof. eq_dec. Defined.
#[global] Instance match_type_eq_dec : EqDecision MatchType.
Proof. eq_dec. Defined.
#[global] Instance deferrable_eq_dec : EqDecision Deferrable.
Proof. eq_dec. Defined.
#[global] Instance foreign_key_eq_dec : EqDecision ForeignKey.
Proof. eq_dec. Defined.
#[global] Instance check_eq_dec : EqDecision CheckConstraint.
Proof. eq_dec. Defined.
#[global] Instance policy_eq_dec : EqDecision Policy.
Proof. eq_dec. Defined.
#[global] Instance timing_eq_dec : EqDecision TriggerTiming.
Proof. eq_dec. Defined.
#[global] Instance level_eq_dec : EqDecision TriggerLevel.
Proof. eq_dec. Defined.
#[global] Instance event_eq_dec : EqDecision TriggerEventDef.
Proof. eq_dec. Defined.
#[global] Instance trigger_eq_dec : EqDecision TriggerDef.
Proof. eq_dec. Defined.
#[global] Instance table_eq_dec : EqDecision Table.
Proof. eq_dec. Defined.
#[global] Instance index_eq_dec : EqDecision Index.
Proof. eq_dec. Defined.
#[global] Instance sequence_eq_dec : EqDecision Sequence.
Proof. eq_dec. Defined.
#[global] Instance rule_eq_dec : EqDecision EmbeddingRuleDef.
Proof. eq_dec. Defined.
#[global] Instance view_eq_dec : EqDecision View.
Proof. eq_dec. Defined.
#[global] Instance language_eq_dec : EqDecision FunctionLanguage.
Proof. eq_dec. Defined.
#[global] Instance volatility_eq_dec : EqDecision FunctionVolatility.
Proof. eq_dec. Defined.
#[global] Instance arg_eq_dec : EqDecision FunctionArgDef.
Proof. eq_dec. Defined.
#[global] Instance function_eq_dec : EqDecision FunctionDef.
Proof. eq_dec. Defined.
#[global] Instance dictionary_eq_dec : EqDecision TsDictionaryDef.
Proof. eq_dec. Defined.
#[global] Instance catalog_eq_dec : EqDecision Catalog.
Proof. eq_dec. Defined.

#[global] Instance sequence_countable : Countable Sequence.
Proof.
  refine (inj_countable' (fun s => (seq_schema s, seq_name s, seq_current s, seq_increment s, seq_start s))
    (fun '(a, b, x, y, z) => mk_sequence a b x y z) _). by intros [].
Defined.

(** ** The codec *)

(** The catalogs of the example differ in their sequences: these are stored. *)
#[global] Instance example_codec : CatalogCodec := {
  catalog_to_json c :=
    if decide (c = with_sequences example_catalog (sequences c))
    then Ok (Num (PosInt (Npos (encode (sequences c))))) else Err "not a catalog of the example"%string;
  catalog_of_json j :=
    match j with
    | Num (PosInt (Npos p)) =>
        match decode p with
        | Some l => Ok (catalog_reload (with_sequences example_catalog l))
        | None => Err "no sequences"%string
        end
    | _ => Err "no number"%string
    end
}.

#[global] Instance example_codec_law : CatalogCodecLaw.
Proof.
  split. intros c j. cbn [catalog_to_json catalog_of_json example_codec]. case_decide as Hc; [|done]. intros [= <-].
  rewrite countable.decode_encode. by rewrite <- Hc.
Qed.

Lemma example_encodable cat : same_schema example_catalog cat -> is_ok (catalog_to_json cat) = true.
Proof. intros Hcat. cbn [catalog_to_json example_codec]. by rewrite decide_True. Qed.

#[global] Instance example_engine_syntax : EngineSyntax := {
  expr_names _ := [];
  body_statements _ := [];
  exec_on_view _ q _ := raise (UndefinedTable (q_name q))
}.

#[global] Instance memory_reliable : Reliable (S := MemoryStorage.t).
Proof. split; intros; by eexists. Qed.

(** ** The schema *)

Lemma column_at t c col : column t c = Ok (Some col) -> col ∈ table_columns t.
Proof.
  unfold column. destruct (table_column_map t !! c) as [i|]; [|done].
  destruct (table_columns t !! i) as [col'|] eqn:E; [|done]. intros [= ->]. by eapply list_elem_of_lookup_2.
Qed.

Lemma table_of q t : get_table example_catalog q = Some t ->
  (q, t) = (customers, customers_table) \/ (q, t) = (orders, orders_table).
Proof.
  intros Ht%OrdMap.ord_get_Some_elem. unfold example_catalog in Ht. cbn [tables] in Ht.
  apply elem_of_cons in Ht as [?|Ht]; [by left|]. apply list_elem_of_singleton in Ht. by right.
Qed.

Lemma example_schema_ok : schema_ok example_catalog.
Proof.
  split; [apply (bool_decide_unpack _); vm_compute; exact I|].
  intros q t [[= -> ->]|[= -> ->]]%table_of; split; try done;
    try (apply (bool_decide_unpack _); vm_compute; exact I).
  - intros col Hc%list_elem_of_singleton. by subst.
  - intros k Hk%list_elem_of_singleton. subst. exists (int_column "id" false 0). by repeat split; left.
  - intros col Hc. apply elem_of_cons in Hc as [->|Hc%list_elem_of_singleton]; by subst.
  - intros k Hk%list_elem_of_singleton. subst. exists (int_column "id" false 0). by repeat split; left.
  - constructor; [|constructor]. split; try done; try (apply (bool_decide_unpack _); vm_compute; exact I).
    + intros a Ha%list_elem_of_singleton. subst. by right; left.
    + by left.
    + intros pt [[= ->]|[= ]]%table_of. by left.
    + intros pt [[= ->]|[= ]]%table_of _. constructor; [|constructor].
      by exists (int_column "customer" true 1), (int_column "id" false 0).
Qed.

Lemma empty_state_ok q t i :
  get_table example_catalog q = Some t -> index_unique i = true -> index_columns i = pk_columns t ->
  state_ok example_catalog q (empty_table t i).
Proof.
  intros Ht Hu Hc. split; try done.
  - split; [constructor|..]; (constructor; [|constructor]).
    + split; [constructor|constructor].
    + intros key rid. split; [by intros ?%not_elem_of_nil|by intros (row & ? & _)].
  - intros _. split; [|done]. exists i. split; [left|done].
Qed.

Lemma example_consistent : consistent (H4 := []) example_db.
Proof.
  split; [split; [exact example_schema_ok|]|].
  - intros q l Hl. unfold example_db in Hl. cbn [loaded] in Hl.
    apply lookup_insert_Some in Hl as [[<- <-]|[_ [<- <-]%lookup_singleton_Some]]; by apply empty_state_ok.
  - intros q l fk rid row need Hl _ _ Hrow. exfalso. unfold example_db in Hl. cbn [loaded] in Hl.
    by apply lookup_insert_Some in Hl as [[<- <-]|[_ [<- <-]%lookup_singleton_Some]].
Qed.

Lemma example_reload : catalog_reload example_catalog = example_catalog.
Proof. vm_compute. reflexivity. Qed.

Lemma example_indexes_of q t :
  get_table example_catalog q = Some t ->
  index_defs example_catalog q = [example_index (table_oid t + 3) (table_name t)].
Proof. intros [[= -> ->]|[= -> ->]]%table_of; vm_compute; reflexivity. Qed.

Lemma example_database_ok : database_ok example_catalog.
Proof.
  split; [exact example_schema_ok|..|exact example_reload].
  - intros q q' t t' [[= -> ->]|[= -> ->]]%table_of [[= -> ->]|[= -> ->]]%table_of; done.
  - intros q t [[= -> ->]|[= -> ->]]%table_of; (split; [apply (bool_decide_unpack _); vm_compute; exact I|]);
      intros a Ha; apply (bool_decide_unpack _); revert a Ha; apply Forall_forall;
      apply (bool_decide_unpack _); vm_compute; exact I.
  - done.
Qed.
