(* ===== verification/EngineProperties.v ===== *)
(** * Properties of the SQL engine

    The theorems about src/sql/engine.rs and the parts it brings together:
    storage, table cache, transactions, foreign keys and the statements. *)

From S2P Require Import Prelude BTree Json Utf8 RustString RustFloat FloatExact SqlTypes Fts FtsInv SqlValue SqlTyping SqlConvert SqlStorage OrdMap Lock SqlCatalog TableStore TableStoreInv RelStorage SqlExec SqlTrigger.
From S2P Require Import ForeignKeys Dml ForeignKeysInv ForeignKeyActions ForeignKeyLoop DmlInv WriteLog SqlEngine SqlEngineInv StoredTables FkRipple EngineTables EngineViews EngineStatements EngineConsistency SqlInstance EngineInstance.

(** ** Consistency *)

Section consistent.
Context {S : Type} `{!RelationalStorage S, !StorageContract S, !Reliable}.
Context `{!Foreign, !ForeignText, !ForeignStorage, !ForeignKeyText, !SqlSyntax, !Evaluator, !EngineSyntax}.
Context `{!CatalogCodec, !CatalogCodecLaw}.
Implicit Types (s : Engine (S := S)).




End consistent.

(** ** Transactions *)

Section transactions.
Context {S : Type} `{!RelationalStorage S, !StorageContract S}.
Context `{!Foreign, !SqlSyntax, !Evaluator, !EngineSyntax, !CatalogCodec}.
Local Open Scope string_scope.
Implicit Types (s : Engine (S := S)).




End transactions.

(** ** A concrete run

    An order in a transaction before its customer, committed; then an order for a
    customer that is not there, which fails at COMMIT. *)

Module EngineScenario.
Local Open Scope string_scope.
Abbreviation MemoryEngine := (Engine (S := MemoryStorage.t)).







(** *** Rows of integers can be read back *)
















End EngineScenario.
Import EngineScenario.






