(* ===== verification/SqlProperties.v ===== *)
(** * Properties of the SQL layer

    The theorems about src/relational and src/sql: constraints and references
    hold after any statements, values keep their types and survive storage,
    indexes show the rows of their table. *)

From S2P Require Import Prelude BTree Json Utf8 RustString RustFloat FloatExact SqlTypes Fts FtsInv SqlValue SqlTyping SqlConvert SqlStorage.
From S2P Require Import OrdMap Lock SqlCatalog TableStore TableStoreInv SqlExec SqlTrigger ForeignKeys Dml ForeignKeysInv ForeignKeyActions ForeignKeyLoop DmlInv SqlInstance EngineInstance.

(** One transaction, from its start. *)
#[local] Instance none_earlier `{!Foreign} : Earlier := [].

(** ** A concrete transaction

    An order for a customer that is added after it, and a new key for the
    customer, which the order follows. *)

Module SqlScenario.
Local Open Scope string_scope.

Definition lit (n : Z) : option ExampleExpr := Some (Lit (VInt4 n)).
Definition uuids (n : nat) : string := "uuid " ++ pretty n.

Definition run (r : res (Exec * list RowValues)) : Exec := match r with Ok (x, _) => x | Err _ => example_db end.
Definition db1 : Exec := run (exec_insert example_db orders [] (Values [[lit 10; lit 1]]) uuids None).
Definition db2 : Exec := run (exec_insert db1 customers [] (Values [[lit 1]]) uuids None).
Definition db3 : Exec := run (exec_update db2 customers "customers" [("id", Lit (VInt4 2))] None).

Definition loaded_at (x : Exec) (q : QualifiedName) : LoadedTable :=
  default (empty_table customers_table (example_index 4 "customers")) (loaded x !! q).

Lemma loaded_at_eq x q : bool_decide (is_Some (loaded x !! q)) = true -> loaded x !! q = Some (loaded_at x q).
Proof. intros [l Hl]%bool_decide_eq_true. unfold loaded_at. by rewrite Hl. Qed.

Definition row_at (x : Exec) (q : QualifiedName) (rid : string) : RowValues :=
  default [] (BTreeMap.get (rows (loaded_at x q)) rid).

Lemma row_at_eq x q rid :
  bool_decide (is_Some (BTreeMap.get (rows (loaded_at x q)) rid)) = true ->
  BTreeMap.get (rows (loaded_at x q)) rid = Some (row_at x q rid).
Proof. intros [row Hr]%bool_decide_eq_true. unfold row_at. by rewrite Hr. Qed.

Lemma run_eq r : is_ok r = true -> exists out, r = Ok (run r, out).
Proof. destruct r as [[x out]|]; [|done]. intros _. by exists out. Qed.

Lemma fresh_uuids x q :
  forallb (fun kv => negb (String.prefix "uuid " kv.1)) (rows (loaded_at x q)) = true -> fresh_ids x q uuids.
Proof.
  intros Hrows. split.
  - intros i j Heq. unfold uuids in Heq. apply (inj (String.app "uuid ")) in Heq. by apply (inj pretty).
  - intros l i Hl. unfold loaded_at in Hrows. rewrite Hl in Hrows. cbn [default] in Hrows.
    destruct (BTreeMap.get (rows l) (uuids i)) as [row|] eqn:E; [|done]. exfalso.
    apply BTreeMap.get_Some_elem in E. rewrite forallb_forall in Hrows. apply list_elem_of_In, Hrows in E.
    unfold uuids in E. cbn -[pretty] in E. by destruct (pretty i).
Qed.

Lemma insert_step x q values :
  is_ok (exec_insert x q [] (Values values) uuids None) = true ->
  forallb (fun kv => negb (String.prefix "uuid " kv.1)) (rows (loaded_at x q)) = true ->
  txn_step x (run (exec_insert x q [] (Values values) uuids None)).
Proof.
  intros [out Hr]%run_eq Hrows. by apply (step_insert x q [] (Values values) uuids None _ out), Hr; [|apply fresh_uuids].
Qed.

Lemma update_step x q alias assignments selection :
  is_ok (exec_update x q alias assignments selection) = true ->
  txn_step x (run (exec_update x q alias assignments selection)).
Proof. intros [out Hr]%run_eq. by apply (step_update x q alias assignments selection _ out). Qed.

Lemma example_run : rtc txn_step example_db db3.
Proof.
  apply (rtc_l _ _ db1); [apply insert_step; vm_compute; reflexivity|].
  apply (rtc_l _ _ db2); [apply insert_step; vm_compute; reflexivity|].
  apply rtc_once, update_step. vm_compute. reflexivity.
Qed.
End SqlScenario.

Import SqlScenario.

(** ** Constraints *)

Section constraints.
Context `{!Foreign, !ForeignText, !ForeignKeyText, !SqlSyntax, !Evaluator}.


(** Between statements, and whatever was deferred, no row has NULL in a
    column that forbids it, a row is stored under its primary key, and two rows
    never agree on the columns of a unique index unless one of them has NULL
    there. *)
Theorem constraints_hold x0 x q l rid row :
  consistent x0 -> rtc txn_step x0 x -> loaded x !! q = Some l -> BTreeMap.get (rows l) rid = Some row ->
  (forall col, col ∈ table_columns (meta l) -> column_nullable col = false ->
     value_is_null (row_value row (column_name col)) = false) /\
  (pk_columns (meta l) <> [] -> derive_row_id (meta l) row = Some rid) /\
  (forall m rid' row', m ∈ lindex_meta <$> lindexes l -> index_unique m = true ->
     BTreeMap.get (rows l) rid' = Some row' -> rid' <> rid ->
     composite_key (index_values m row) <> None -> composite_key (index_values m row') <> None ->
     composite_key (index_values m row') <> composite_key (index_values m row)).
Proof.
  intros Hx0 Hrun Hl Hrow. destruct (txn_consistent x0 x Hx0 Hrun) as [Hdb _].
  pose proof (db_tables _ Hdb _ _ Hl) as [_ _ _ Hids Hu Hnn]. split; [|split].
  - intros col Hcol Hn. specialize (Hnn rid row Hrow). apply check_not_null_spec in Hnn.
    rewrite Forall_forall in Hnn. by apply Hnn.
  - intros Hpk. by apply (Hids Hpk).
  - intros m rid' row' Hm Hum Hrow' Hne Hk Hk' Heq. apply Hne. symmetry. eapply (Hu m); [done..|].
    destruct (composite_key (index_values m row)) as [k|] eqn:E; [|done].
    by rewrite (composite_ordered _ k E), (composite_ordered _ k Heq).
Qed.
End constraints.


Lemma constraints_hold_witness :
  derive_row_id (meta (loaded_at db3 orders)) (row_at db3 orders "n:10") = Some "n:10"%string.
Proof.
  apply (constraints_hold example_db db3 orders (loaded_at db3 orders) "n:10"
    (row_at db3 orders "n:10")).
  - exact example_consistent.
  - exact example_run.
  - apply loaded_at_eq. vm_compute. reflexivity.
  - apply row_at_eq. vm_compute. reflexivity.
  - vm_compute. discriminate.
Defined.

(** ** Values *)

Section values.
Context `{!Foreign, !ForeignText, !ForeignStorage}.

(** C23. Casting a value, reading a text and decoding a stored document give a
    value of the type that was asked for, with its invariants (integers in
    range, UTF-8 texts, sorted hstores, normalised tsvectors), or an error; only
    [bytea] texts can make a conversion panic, and decoding never panics. *)
Theorem conversions_typed ty v text j :
  value_ok v -> utf8 text -> json_ok j ->
  well_typed ty (cast ty v) /\ well_typed ty (from_text ty text) /\
  sound False (has_type ty) (decode_json ty j).
Proof. intros Hv Ht Hj. split; [by apply cast_sound|]. split; [by apply from_text_sound|by apply decode_json_sound]. Qed.


(** C34. An integer below [2 ^ 53] is cast to the same integer where the target
    type can hold it, and is otherwise refused with an out of range error. *)
Theorem integer_cast_exact v n ty :
  holds_integer v n -> is_integer ty = true -> safe_integer n ->
  cast ty v = if decide (in_int_range ty n) then Ok (int_value ty n)
              else raise (NumericValueOutOfRange (name ty)).
Proof. apply cast_safe_integer. Qed.
End values.

Lemma conversions_typed_witness :
  well_typed (TArray TSmallInt) (cast (TArray TSmallInt) (VText "{1,70000}")).
Proof.
  apply (conversions_typed (TArray TSmallInt) (VText "{1,70000}") "{}" (Num (PosInt 5))).
  - concrete_utf8.
  - concrete_utf8.
  - done.
Defined.


Lemma integer_cast_exact_witness :
  cast TSmallInt (VInt4 40000) = raise (NumericValueOutOfRange (name TSmallInt)).
Proof.
  rewrite (integer_cast_exact (VInt4 40000) 40000 TSmallInt); [|by right; left|done|unfold safe_integer; lia].
  rewrite decide_False; [done|]. unfold in_int_range. simpl. unfold i16_max. lia.
Defined.

(** ** Tables *)

Section tables.
Context `{!Foreign, !ForeignText, !ForeignStorage}.

(** The changes that statements make to a loaded table. *)
Inductive table_step (t : LoadedTable) : LoadedTable -> Prop :=
| table_insert rid row : BTreeMap.get (rows t) rid = None -> table_step t (apply_insert t rid row)
| table_update rid row : table_step t (apply_update t rid row)
| table_delete rid : table_step t (apply_delete t rid).

(** C29. A table that was loaded from its documents and then changed row by row
    has the indexes that building them anew from its rows would give. *)
Theorem indexes_follow_rows t docs defs lt lt' :
  build t docs defs = Ok lt -> rtc table_step lt lt' -> rebuild_indexes lt' = lt'.
Proof.
  intros [Hok _]%build_ok Hrun. apply maintained_is_rebuilt. induction Hrun as [|a b c Hstep _ IH]; [done|].
  apply IH. destruct Hstep; [by apply apply_insert_ok|by apply apply_update_ok|by apply apply_delete_ok].
Qed.


End tables.

Module TableScenario.
Local Open Scope string_scope.

Definition stored : list (string * Value) :=
  [("n:1", encode_row customers_table "n:1" [("id", VInt4 1)] 1)].
Definition loaded_customers : LoadedTable :=
  match build customers_table stored [example_index 4 "customers"] with
  | Ok l => l
  | Err _ => empty_table customers_table (example_index 4 "customers")
  end.

Lemma loaded_eq : build customers_table stored [example_index 4 "customers"] = Ok loaded_customers.
Proof.
  assert (Hok : is_ok (build customers_table stored [example_index 4 "customers"]) = true) by (vm_compute; reflexivity).
  unfold loaded_customers. by destruct (build _ _ _).
Qed.

(** The customer is renumbered; its row stays under the old id. *)
Definition renumbered : LoadedTable := apply_update loaded_customers "n:1" [("id", VInt4 2)].

Lemma renumbered_step : rtc table_step loaded_customers renumbered.
Proof. apply rtc_once. apply table_update. Qed.

End TableScenario.
Import TableScenario.

Lemma indexes_follow_rows_witness : rebuild_indexes renumbered = renumbered.
Proof. exact (indexes_follow_rows _ _ _ _ _ loaded_eq renumbered_step). Defined.



(** ** Text search *)

(** C32. Every [tsvector] and [tsquery] that the parser can produce is read back
    from its text: the vector unchanged, the query with its chains of [&] and
    [|] nested to the left, which matches the same documents.  The parsers
    terminate without a panic on every UTF-8 text. *)
Theorem text_search_read_back s :
  utf8 s ->
  match parse_tsvector s with
  | Ok l => parse_tsvector (format_tsvector l) = Ok l
  | Err e => e <> Panic
  end /\
  match parse_tsquery s with
  | Ok (Some q) => parse_tsquery (format_tsquery (Some q)) = Ok (Some (nest q)) /\
      forall l, eval_match l (nest q) = eval_match l q
  | Ok None => True
  | Err e => e <> Panic
  end.
Proof.
  intros Hs. pose proof (parse_tsvector_ok s Hs) as Hv. pose proof (parse_tsquery_ok s Hs) as Hq. split.
  - destruct (parse_tsvector s); [by apply tsvector_read_back|done].
  - destruct (parse_tsquery s) as [[q|]|]; [|done..]. split; [by apply tsquery_read_back|]. intros l. apply eval_nest.
Qed.

Lemma text_search_read_back_witness :
  match parse_tsvector "cat:3,1 'a b'" with
  | Ok l => parse_tsvector (format_tsvector l) = Ok l
  | Err e => e <> Panic
  end.
Proof. refine (proj1 (text_search_read_back "cat:3,1 'a b'" _)). concrete_utf8. Defined.

(** ** Upserts *)

Module UpsertScenario.
Local Open Scope string_scope.

Definition both : Exec := run (exec_insert example_db customers [] (Values [[lit 1]; [lit 2]]) uuids None).
(** [INSERT INTO customers VALUES (1) ON CONFLICT (id) DO UPDATE SET id = 2] *)
Definition upsert : res (Exec * list RowValues) :=
  exec_insert both customers [] (Values [[lit 1]]) uuids
    (Some (mk_on_conflict (Some ["id"]) (DoUpdate [("id", Lit (VInt4 2))] None))).
End UpsertScenario.

(** ON CONFLICT DO UPDATE does not check the unique indexes for the rewritten
    row: moving customer 1 to the key of customer 2 succeeds and destroys
    customer 2. *)
Lemma upsert_destroys_row :
  (rows (loaded_at UpsertScenario.both customers)).*1 = ["n:1"; "n:2"]%string /\
  is_ok UpsertScenario.upsert = true /\
  (rows (loaded_at (run UpsertScenario.upsert) customers)).*1 = ["n:2"]%string.
Proof. split; [|split]; vm_compute; reflexivity. Qed.
