(* ===== verification/Ledger.v ===== *)
(** * The task ledger

    [compute/ledger.rs] with the types of [compute/mod.rs] and [compute/protocol.rs]
    that it stores: the record of a task and its states, the store it is kept in,
    the memory store, and the typed operations.

    Every call of the store is atomic; an operation that makes several calls is
    split between them, so that other tasks can run in between.  Node ids, hashes
    and byte vectors are byte strings; the binary form of a record is postcard's, a
    parameter with its round trip. *)

From S2P Require Import Prelude.

(** ** Data *)

Abbreviation NodeId := string.
Abbreviation Hash := string.
Abbreviation TaskKey := string.

Inductive TaskClass := General | Media | Analytics | Inference.

#[global] Instance task_class_eq_dec : EqDecision TaskClass.
Proof. solve_decision. Defined.

Record ResourceLimits := mk_limits {
  max_memory_bytes : N;
  limit_fuel : N;
  timeout_ms : N
}.

#[global] Instance limits_eq_dec : EqDecision ResourceLimits.
Proof. solve_decision. Defined.

Record ExecMetrics := mk_metrics {
  fuel_consumed : N;
  duration_ms : N;
  peak_memory_bytes : N
}.

Record CompletedTask := mk_completed { output : string; metrics : ExecMetrics }.

#[global] Instance metrics_eq_dec : EqDecision ExecMetrics.
Proof. solve_decision. Defined.
#[global] Instance completed_eq_dec : EqDecision CompletedTask.
Proof. solve_decision. Defined.

Inductive TaskState :=
| Pending
| Running (deadline_unix : N)
| Done (executor : NodeId)
| Failed (error : string).

#[global] Instance task_state_eq_dec : EqDecision TaskState.
Proof. solve_decision. Defined.

Record TaskRecord := mk_record {
  task_key : TaskKey;
  wasm_hash : Hash;
  entrypoint : string;
  class : TaskClass;
  limits : ResourceLimits;
  input : string;
  required_model : option string;
  state : TaskState;
  attempts : N;
  created_at_unix : N;
  updated_at_unix : N;
  result_of : option CompletedTask
}.

#[global] Instance task_record_eq_dec : EqDecision TaskRecord.
Proof. solve_decision. Defined.

(** [TaskRecord::pending] *)
Definition pending (now : N) (key : TaskKey) (wasm : Hash) (entry : string) (c : TaskClass) (l : ResourceLimits)
    (inp : string) (model : option string) : TaskRecord :=
  mk_record key wasm entry c l inp model Pending 0 now now None.

Definition needs_dispatch (r : TaskRecord) (now_unix : N) : bool :=
  match state r with
  | Pending => true
  | Running deadline_unix => (deadline_unix <? now_unix)%N
  | Done _ | Failed _ => false
  end.

(** [attempts: u32] *)
Definition wrap_u32 (n : N) : N := (n `mod` 2 ^ 32)%N.

(** The record that a dispatcher claims. *)
Definition running (r : TaskRecord) (deadline_unix now : N) : TaskRecord :=
  mk_record (task_key r) (wasm_hash r) (entrypoint r) (class r) (limits r) (input r) (required_model r)
    (Running deadline_unix) (wrap_u32 (attempts r + 1)) (created_at_unix r) now (result_of r).

(** [r.state = ...; r.input = ...; r.result = ...] in the closure of an update. *)
Definition set_state (r : TaskRecord) (s : TaskState) (inp : string) (res : option CompletedTask) : TaskRecord :=
  mk_record (task_key r) (wasm_hash r) (entrypoint r) (class r) (limits r) inp (required_model r)
    s (attempts r) (created_at_unix r) (updated_at_unix r) res.

Definition set_updated (r : TaskRecord) (now : N) : TaskRecord :=
  mk_record (task_key r) (wasm_hash r) (entrypoint r) (class r) (limits r) (input r) (required_model r)
    (state r) (attempts r) (created_at_unix r) now (result_of r).

(** ** The store *)

Class LedgerStore (S : Type) := {
  store_get : S -> string -> result string (option string);
  store_put : S -> string -> string -> S * result string unit;
  store_create_if_absent : S -> string -> string -> S * result string bool;
  store_compare_and_swap : S -> string -> option string -> string -> S * result string bool;
  store_list : S -> result string (list string)
}.

(** A store with exact conditional writes, as the documentation of the trait
    asks for.  A call that fails has no effect. *)
Class ExactLedger (S : Type) `{!LedgerStore S} := {
  entries : S -> gmap string string;
  get_exact s k v : store_get s k = Ok v -> v = entries s !! k;
  put_exact s k b :
    let '(s', r) := store_put s k b in
    entries s' = if is_ok r then <[k := b]> (entries s) else entries s;
  create_exact s k b :
    let '(s', r) := store_create_if_absent s k b in
    match r with
    | Ok true => entries s !! k = None /\ entries s' = <[k := b]> (entries s)
    | Ok false => is_Some (entries s !! k) /\ entries s' = entries s
    | Err _ => entries s' = entries s
    end;
  swap_exact s k e b :
    let '(s', r) := store_compare_and_swap s k e b in
    match r with
    | Ok true => entries s !! k = e /\ entries s' = <[k := b]> (entries s)
    | Ok false => entries s !! k <> e /\ entries s' = entries s
    | Err _ => entries s' = entries s
    end;
  list_exact s l : store_list s = Ok l -> l ≡ₚ (map_to_list (entries s)).*2
}.

Module MemoryLedger.
Abbreviation t := (gmap string string).

Definition get (s : t) (key : string) : result string (option string) := Ok (s !! key).
Definition put (s : t) (key value : string) : t * result string unit := (<[key := value]> s, Ok tt).
Definition create_if_absent (s : t) (key value : string) : t * result string bool :=
  if decide (is_Some (s !! key)) then (s, Ok false) else (<[key := value]> s, Ok true).
Definition compare_and_swap (s : t) (key : string) (expected : option string) (value : string) :
    t * result string bool :=
  if decide (s !! key = expected) then (<[key := value]> s, Ok true) else (s, Ok false).
Definition list_values (s : t) : result string (list string) := Ok (map_to_list s).*2.

#[global] Instance memory_store : LedgerStore t := {
  store_get := get;
  store_put := put;
  store_create_if_absent := create_if_absent;
  store_compare_and_swap := compare_and_swap;
  store_list := list_values
}.

#[global] Program Instance memory_exact : ExactLedger t := { entries := id }.
Next Obligation. intros s k v [= <-]. done. Qed.
Next Obligation. intros s k b. done. Qed.
Next Obligation.
  intros s k b. simpl. unfold create_if_absent. case_decide as H; [done|]. split; [|done]. by apply eq_None_not_Some.
Qed.
Next Obligation. intros s k e b. simpl. unfold compare_and_swap. by case_decide. Qed.
Next Obligation. intros s l [= <-]. done. Qed.
End MemoryLedger.

(** ** Typed operations *)

Class TaskCodec := {
  to_stdvec : TaskRecord -> result string string;
  from_bytes : string -> result string TaskRecord
}.

Class TaskCodecLaw `{!TaskCodec} := {
  record_round_trip r b : to_stdvec r = Ok b -> from_bytes b = Ok r
}.

Section ledger.
Context {S : Type} `{!LedgerStore S, !TaskCodec}.

Definition claim (s : S) (r : TaskRecord) : S * result string bool :=
  match to_stdvec r with
  | Ok bytes => store_create_if_absent s (task_key r) bytes
  | Err e => (s, Err e)
  end.

Definition ledger_get (s : S) (key : string) : result string (option TaskRecord) :=
  let? found := store_get s key in
  match found with
  | Some bytes => let? r := from_bytes bytes in Ok (Some r)
  | None => Ok None
  end.

(** A pass of the loop of [claim_for_dispatch], up to the swap: the bytes that were
    read, the record to claim and its bytes. *)
Definition claim_read (s : S) (key : string) (deadline_unix now : N) :
    result string (option (string * TaskRecord * string)) :=
  let? found := store_get s key in
  match found with
  | None => Ok None
  | Some bytes =>
      let? r := from_bytes bytes in
      if needs_dispatch r now then
        let? new_bytes := to_stdvec (running r deadline_unix now) in
        Ok (Some (bytes, running r deadline_unix now, new_bytes))
      else Ok None
  end.

Definition claim_swap (s : S) (key bytes new_bytes : string) : S * result string bool :=
  store_compare_and_swap s key (Some bytes) new_bytes.

(** [update], up to the write. *)
Definition update_read (s : S) (key : string) (mutate : TaskRecord -> TaskRecord) (now : N) :
    result string (option string) :=
  let? found := ledger_get s key in
  match found with
  | Some r => let? bytes := to_stdvec (set_updated (mutate r) now) in Ok (Some bytes)
  | None => Ok None
  end.

Fixpoint decode_all (l : list string) : result string (list TaskRecord) :=
  match l with
  | [] => Ok []
  | b :: l => let? r := from_bytes b in let? rs := decode_all l in Ok (r :: rs)
  end.

Definition all (s : S) : result string (list TaskRecord) :=
  let? l := store_list s in decode_all l.

Definition needing_dispatch (s : S) (now : N) : result string (list TaskRecord) :=
  let? rs := all s in Ok (filter (fun r => needs_dispatch r now = true) rs).
End ledger.
