(* ===== verification/TaskEngine.v ===== *)
(** * Reactive triggers

    [compute/triggers.rs]: rules that turn replication events into tasks, the workers
    that run the tasks, and the requeue pass.

    The asynchronous functions run concurrently over one ledger.  Each is a process
    whose steps lie between two calls of the store or of the dispatcher; a step of
    the system runs one process, starts a new one, or lets time pass.  The
    dispatcher may answer anything. *)

From S2P Require Import Prelude Ledger.

(** ** Data *)

Inductive Placement := BestAvailable | OnNode (node : NodeId) | Local.

Record TaskSpec := mk_spec {
  spec_wasm_hash : Hash;
  spec_entrypoint : string;
  spec_class : TaskClass;
  spec_limits : ResourceLimits;
  spec_placement : Placement;
  spec_required_model : option string
}.

Record TriggerRule := mk_rule {
  rule_id : string;
  store_address : string;
  spec : TaskSpec
}.

Record Delegated := mk_delegated { executor : NodeId; completed : CompletedTask }.

Record DispatchError := mk_dispatch_error { permanent : bool; message : string }.

Record TriggerConfig := mk_config { max_attempts : N; task_deadline_secs : N }.

(** What the dispatcher is asked to run, without the fresh id of the request. *)
Record ExecuteRequest := mk_request {
  request_wasm_hash : Hash;
  request_entrypoint : string;
  request_class : TaskClass;
  request_limits : ResourceLimits;
  request_input : string;
  request_required_model : option string
}.

#[global] Instance request_eq_dec : EqDecision ExecuteRequest.
Proof. solve_decision. Defined.

Definition request_of (r : TaskRecord) : ExecuteRequest :=
  mk_request (wasm_hash r) (entrypoint r) (class r) (limits r) (input r) (required_model r).

Section engine.
Context {S : Type} `{!LedgerStore S, !TaskCodec}.
Context (config : TriggerConfig).
(** [hex::encode(blake3(bytes))] *)
Context (digest : string -> string).
Local Open Scope string_scope.

Definition unit_separator : string := String.String (Ascii.ascii_of_nat 31) String.EmptyString.

Definition dedup_key (rule event_id : string) : TaskKey := digest (rule ++ unit_separator ++ event_id).

(** ** Rules *)

Definition add_rule (rules : list TriggerRule) (rule : TriggerRule) : list TriggerRule := (rules ++ [rule])%list.

(** [on_replicated] with the generated part of the id. *)
Definition on_replicated (rules : list TriggerRule) (uuid address : string) (sp : TaskSpec) : list TriggerRule :=
  add_rule rules (mk_rule ("rule-" ++ uuid) address sp).

Definition remove_rule (rules : list TriggerRule) (id : string) : list TriggerRule :=
  filter (fun r => rule_id r <> id) rules.

Definition matching (rules : list TriggerRule) (address : string) : list TriggerRule :=
  filter (fun r => String.prefix (store_address r) address = true) rules.

Definition rule_record (rule : TriggerRule) (event_id payload : string) (now : N) : TaskRecord :=
  pending now (dedup_key (rule_id rule) event_id) (spec_wasm_hash (spec rule)) (spec_entrypoint (spec rule))
    (spec_class (spec rule)) (spec_limits (spec rule)) payload (spec_required_model (spec rule)).

(** ** The end of a dispatch *)

Inductive Verdict :=
| Finished (d : Delegated)
| GivenUp (error : string)
| Retry.

Definition verdict_of (r : TaskRecord) (reply : result DispatchError Delegated) : Verdict :=
  match reply with
  | Ok d => Finished d
  | Err e => if permanent e || (max_attempts config <=? attempts r)%N then GivenUp (message e) else Retry
  end.

Definition apply_verdict (v : Verdict) (r : TaskRecord) : TaskRecord :=
  match v with
  | Finished d => set_state r (Done (executor d)) "" (Some (completed d))
  | GivenUp e => set_state r (Failed e) "" (result_of r)
  | Retry => set_state r Pending (input r) (result_of r)
  end.

Definition exhausted (r : TaskRecord) : TaskRecord :=
  set_state r (Failed "retry budget exhausted") "" (result_of r).

(** ** Processes *)

Inductive Process :=
(** [run_task]: at its start, at the head of the claiming loop, before the swap,
    waiting for the dispatcher, before the read and before the write of its
    update. *)
| Spawned (key : TaskKey)
| Claiming (key : TaskKey) (deadline : N)
| Swapping (key : TaskKey) (deadline : N) (bytes : string) (claimed : TaskRecord) (new_bytes : string)
| Dispatching (key : TaskKey) (claimed : TaskRecord)
| Finishing (key : TaskKey) (claimed : TaskRecord) (v : Verdict)
| Writing (key : TaskKey) (claimed : TaskRecord) (bytes : string)
(** [notify_replicated] with the rules that are left, and [requeue_due] with the
    due records that are left. *)
| Notifying (event_id payload : string) (rules : list TriggerRule)
| Requeueing (due : list TaskRecord)
| Expiring (key : TaskKey) (bytes : string) (due : list TaskRecord).

(** What a step shows: a task was claimed for a rule and an event, or the
    dispatcher was called. *)
Inductive Event :=
| Claimed (rule event_id : string) (record : TaskRecord)
| Dispatched (key : TaskKey) (request : ExecuteRequest).

(** One step of a process: the store, the processes that continue, and what shows. *)
Definition process_step (s : S) (now : N) (p : Process) (reply : result DispatchError Delegated) :
    S * list Process * list Event :=
  match p with
  | Spawned key => (s, [Claiming key (wrap_u64 (now + task_deadline_secs config))], [])
  | Claiming key deadline =>
      match claim_read s key deadline now with
      | Ok (Some (bytes, r, new_bytes)) => (s, [Swapping key deadline bytes r new_bytes], [])
      | Ok None | Err _ => (s, [], [])
      end
  | Swapping key deadline bytes r new_bytes =>
      match claim_swap s key bytes new_bytes with
      | (s, Ok true) => (s, [Dispatching key r], [Dispatched key (request_of r)])
      | (s, Ok false) => (s, [Claiming key deadline], [])
      | (s, Err _) => (s, [], [])
      end
  | Dispatching key r => (s, [Finishing key r (verdict_of r reply)], [])
  | Finishing key r v =>
      match update_read s key (apply_verdict v) now with
      | Ok (Some bytes) => (s, [Writing key r bytes], [])
      | Ok None | Err _ => (s, [], [])
      end
  | Writing key r bytes => ((store_put s key bytes).1, [], [])
  | Notifying event_id payload [] => (s, [], [])
  | Notifying event_id payload (rule :: rules) =>
      let r := rule_record rule event_id payload now in
      match claim s r with
      | (s, Ok true) =>
          (s, [Spawned (task_key r); Notifying event_id payload rules], [Claimed (rule_id rule) event_id r])
      | (s, _) => (s, [Notifying event_id payload rules], [])
      end
  | Requeueing [] => (s, [], [])
  | Requeueing (r :: due) =>
      if (max_attempts config <=? attempts r)%N then
        match update_read s (task_key r) exhausted now with
        | Ok (Some bytes) => (s, [Expiring (task_key r) bytes due], [])
        | Ok None | Err _ => (s, [Requeueing due], [])
        end
      else (s, [Spawned (task_key r); Requeueing due], [])
  | Expiring key bytes due => ((store_put s key bytes).1, [Requeueing due], [])
  end.

(** ** The system *)

Record System := mk_system {
  store : S;
  clock : N;
  rules : list TriggerRule;
  processes : list Process;
  history : list Event
}.

Definition run_process (sys : System) (before : list Process) (p : Process) (after : list Process)
    (reply : result DispatchError Delegated) : System :=
  let '(s, ps, es) := process_step (store sys) (clock sys) p reply in
  mk_system s (clock sys) (rules sys) (before ++ ps ++ after)%list (history sys ++ es)%list.

Definition spawn (sys : System) (p : Process) : System :=
  mk_system (store sys) (clock sys) (rules sys) (processes sys ++ [p])%list (history sys).

Inductive system_step (sys : System) : System -> Prop :=
| step_process before p after reply :
    processes sys = (before ++ p :: after)%list -> system_step sys (run_process sys before p after reply)
| step_notify address event_id payload :
    system_step sys (spawn sys (Notifying event_id payload (matching (rules sys) address)))
| step_requeue due :
    needing_dispatch (store sys) (clock sys) = Ok due -> system_step sys (spawn sys (Requeueing due))
| step_add_rule rule :
    system_step sys (mk_system (store sys) (clock sys) (add_rule (rules sys) rule) (processes sys) (history sys))
| step_remove_rule id :
    system_step sys (mk_system (store sys) (clock sys) (remove_rule (rules sys) id) (processes sys) (history sys))
| step_time now :
    (clock sys <= now)%N ->
    system_step sys (mk_system (store sys) now (rules sys) (processes sys) (history sys)).
End engine.
