(* ===== verification/TaskEngineInv.v ===== *)
(** * Correctness of the trigger engine

    Over a ledger with exact conditional writes that does not fail.  The ledger is
    seen as a map from keys to records; the invariant ties the state of a record to
    the one worker that has it in flight. *)

From S2P Require Import Prelude Ledger TaskEngine.

(** The store answers, and every record has a binary form. *)
Class ReliableLedger (S : Type) `{!LedgerStore S, !TaskCodec} := {
  get_answers (s : S) k : is_ok (store_get s k) = true;
  put_answers (s : S) k b : is_ok (store_put s k b).2 = true;
  create_answers (s : S) k b : is_ok (store_create_if_absent s k b).2 = true;
  swap_answers (s : S) k e b : is_ok (store_compare_and_swap s k e b).2 = true;
  record_encodes r : is_ok (to_stdvec r) = true
}.

(** ** The ledger as a map *)

Section view.
Context {S : Type} `{!LedgerStore S, !ExactLedger S, !TaskCodec, !TaskCodecLaw, !ReliableLedger S}.
Implicit Types (s : S) (m : gmap TaskKey TaskRecord) (r : TaskRecord).

Definition bytes_of r : string := match to_stdvec r with Ok b => b | Err _ => ""%string end.

Lemma to_stdvec_bytes r : to_stdvec r = Ok (bytes_of r).
Proof. unfold bytes_of. pose proof (record_encodes (S := S) r). by destruct (to_stdvec r). Qed.

Lemma from_bytes_of r : from_bytes (bytes_of r) = Ok r.
Proof. apply record_round_trip, to_stdvec_bytes. Qed.

#[global] Instance bytes_of_inj : Inj (=) (=) bytes_of.
Proof. intros r r' Heq. pose proof (from_bytes_of r) as Hr. rewrite Heq, from_bytes_of in Hr. by injection Hr. Qed.

Definition shows s m : Prop := entries s = bytes_of <$> m.

Lemma get_shown s m k : shows s m -> store_get s k = Ok (bytes_of <$> m !! k).
Proof.
  intros Hs. pose proof (get_answers s k). destruct (store_get s k) as [v|] eqn:E; [|done].
  apply get_exact in E as ->. by rewrite Hs, lookup_fmap.
Qed.

Lemma put_shown s m k r : shows s m -> shows (store_put s k (bytes_of r)).1 (<[k := r]> m).
Proof.
  intros Hs. pose proof (put_answers s k (bytes_of r)) as Ha. pose proof (put_exact s k (bytes_of r)) as He.
  destruct (store_put s k (bytes_of r)) as [s' w]. simpl in *. unfold shows. rewrite He, Ha, Hs. by rewrite fmap_insert.
Qed.

Lemma claim_shown s m r :
  shows s m ->
  exists s', claim s r = (s', Ok (bool_decide (m !! task_key r = None))) /\
    shows s' (if decide (m !! task_key r = None) then <[task_key r := r]> m else m).
Proof.
  intros Hs. unfold claim. rewrite to_stdvec_bytes. pose proof (create_answers s (task_key r) (bytes_of r)) as Ha.
  pose proof (create_exact s (task_key r) (bytes_of r)) as He.
  destruct (store_create_if_absent s (task_key r) (bytes_of r)) as [s' [b|]]; [|done]. exists s'.
  rewrite Hs, lookup_fmap in He. unfold shows.
  destruct (m !! task_key r) as [r0|] eqn:E; destruct b; destruct He as [Hk He]; [done|..].
  - rewrite bool_decide_false, decide_False by done. split; [done|exact He].
  - rewrite bool_decide_true, decide_True by done. split; [done|]. by rewrite He, fmap_insert.
  - by destruct Hk.
Qed.

Lemma claim_read_shown s m k d now :
  shows s m ->
  claim_read s k d now =
  Ok (match m !! k with
      | Some r => if needs_dispatch r now then Some (bytes_of r, running r d now, bytes_of (running r d now)) else None
      | None => None
      end).
Proof.
  intros Hs. unfold claim_read. rewrite (get_shown s m k Hs). destruct (m !! k) as [r|]; [|done]. simpl.
  rewrite from_bytes_of. destruct (needs_dispatch r now); [|done]. by rewrite to_stdvec_bytes.
Qed.

Lemma claim_swap_shown s m k r0 r :
  shows s m ->
  exists s', claim_swap s k (bytes_of r0) (bytes_of r) = (s', Ok (bool_decide (m !! k = Some r0))) /\
    shows s' (if decide (m !! k = Some r0) then <[k := r]> m else m).
Proof.
  intros Hs. unfold claim_swap. pose proof (swap_answers s k (Some (bytes_of r0)) (bytes_of r)) as Ha.
  pose proof (swap_exact s k (Some (bytes_of r0)) (bytes_of r)) as He.
  destruct (store_compare_and_swap s k (Some (bytes_of r0)) (bytes_of r)) as [s' [[]|]]; [| |done]; exists s';
    rewrite Hs, lookup_fmap in He; destruct He as [Hk He].
  - assert (Hm : m !! k = Some r0).
    { destruct (m !! k) as [r1|]; [|done]. simpl in Hk. injection Hk as Hk. apply (inj bytes_of) in Hk. by subst. }
    rewrite bool_decide_true, decide_True by done. split; [done|]. unfold shows. by rewrite He, fmap_insert.
  - assert (Hm : m !! k <> Some r0) by (intros Hm; by rewrite Hm in Hk).
    rewrite bool_decide_false, decide_False by done. split; [done|]. unfold shows. by rewrite He.
Qed.

Lemma update_read_shown s m k f now :
  shows s m -> update_read s k f now = Ok ((fun r => bytes_of (set_updated (f r) now)) <$> m !! k).
Proof.
  intros Hs. unfold update_read, ledger_get. rewrite (get_shown s m k Hs). destruct (m !! k) as [r|]; [|done]. simpl.
  by rewrite from_bytes_of, to_stdvec_bytes.
Qed.

Lemma decode_all_elem l rs r : decode_all l = Ok rs -> r ∈ rs -> exists b, b ∈ l /\ from_bytes b = Ok r.
Proof.
  revert rs. induction l as [|b l IH]; intros rs; simpl; [intros [= <-]; set_solver|].
  destruct (from_bytes b) as [r0|] eqn:Eb; [|done]. destruct (decode_all l) as [rs0|]; [|done].
  intros [= <-] [->|Hr]%elem_of_cons; [exists b; set_solver|].
  destruct (IH rs0 eq_refl Hr) as (b' & ? & ?). exists b'. set_solver.
Qed.

Lemma needing_dispatch_shown s m now due r :
  shows s m -> needing_dispatch s now = Ok due -> r ∈ due ->
  needs_dispatch r now = true /\ exists k, m !! k = Some r.
Proof.
  intros Hs Hd Hr. unfold needing_dispatch, all in Hd. destruct (store_list s) as [l|] eqn:El; [|done].
  apply list_exact in El. destruct (decode_all l) as [rs|] eqn:Er; [|done]. injection Hd as <-.
  apply list_elem_of_filter in Hr as [Hn Hr]. split; [done|].
  destruct (decode_all_elem l rs r Er Hr) as (b & Hb & Hfb). rewrite El in Hb.
  apply list_elem_of_fmap in Hb as ([k b'] & -> & Hk%elem_of_map_to_list). simpl in *.
  rewrite Hs, lookup_fmap in Hk. destruct (m !! k) as [r'|] eqn:Em; [|done]. injection Hk as <-.
  rewrite from_bytes_of in Hfb. injection Hfb as <-. by exists k.
Qed.
End view.

(** ** The invariant *)

(** The task that a process has in flight, with the record it claimed. *)
Definition holding (p : Process) : option (TaskKey * TaskRecord) :=
  match p with
  | Dispatching k r | Finishing k r _ | Writing k r _ => Some (k, r)
  | _ => None
  end.

Definition in_flight (ps : list Process) : list (TaskKey * TaskRecord) := omap holding ps.

Definition is_dispatch (k : TaskKey) (e : Event) : bool :=
  match e with Dispatched k' _ => bool_decide (k' = k) | _ => false end.

(** How often the dispatcher was called for a task. *)
Definition dispatches (k : TaskKey) (es : list Event) : nat := length (filter (fun e => is_dispatch k e = true) es).

Definition active (r : TaskRecord) : Prop := match state r with Pending | Running _ => True | _ => False end.

(** The task was claimed by a rule, with this request. *)
Definition requested (es : list Event) (k : TaskKey) (req : ExecuteRequest) : Prop :=
  exists rule event_id r, Claimed rule event_id r ∈ es /\ task_key r = k /\ request_of r = req.

Section invariant.
Context {S : Type} `{!LedgerStore S, !ExactLedger S, !TaskCodec, !TaskCodecLaw, !ReliableLedger S}.
Context (config : TriggerConfig) (digest : string -> string).
Context (Hmax : (0 < max_attempts config < 2 ^ 32)%N).
Implicit Types (s : S) (m : gmap TaskKey TaskRecord) (r : TaskRecord) (sys : System (S := S)).

(** No worker is overtaken by the deadline of the task it has in flight. *)
Definition timely sys : Prop :=
  forall k r d, (k, r) ∈ in_flight (processes sys) -> state r = Running d -> (clock sys <= d)%N.

Definition process_ok (now : N) (p : Process) : Prop :=
  match p with
  | Swapping k d b r nb => exists r0 now0, (now0 <= now)%N /\ b = bytes_of r0 /\ needs_dispatch r0 now0 = true /\
      r = running r0 d now0 /\ nb = bytes_of r
  | Finishing k r v => v = Retry -> (attempts r < max_attempts config)%N
  | Writing k r b => exists v now0, b = bytes_of (set_updated (apply_verdict v r) now0) /\
      (v = Retry -> (attempts r < max_attempts config)%N)
  | Requeueing due => Forall (fun r => (attempts r < max_attempts config)%N) due
  | Expiring _ _ _ => False
  | _ => True
  end.

(** Pending tasks have attempts left; running ones are in flight. *)
Definition record_ok (flight : list (TaskKey * TaskRecord)) (k : TaskKey) r : Prop :=
  task_key r = k /\ (attempts r <= max_attempts config)%N /\
  match state r with
  | Pending => (attempts r < max_attempts config)%N
  | Running _ => k ∈ flight.*1
  | _ => True
  end.

Record system_inv sys m : Prop := {
  si_store : shows (store sys) m;
  si_record : forall k r, m !! k = Some r -> record_ok (in_flight (processes sys)) k r;
  si_flight : forall k r, (k, r) ∈ in_flight (processes sys) -> m !! k = Some r /\ exists d, state r = Running d;
  si_single : NoDup (in_flight (processes sys)).*1;
  si_process : Forall (process_ok (clock sys)) (processes sys);
  si_count : forall k, N.of_nat (dispatches k (history sys)) = match m !! k with Some r => attempts r | None => 0%N end;
  si_request : forall k r, m !! k = Some r -> active r -> requested (history sys) k (request_of r);
  si_dispatched : forall k req, Dispatched k req ∈ history sys -> requested (history sys) k req
}.

Lemma in_flight_app ps ps' : in_flight (ps ++ ps') = in_flight ps ++ in_flight ps'.
Proof. apply omap_app. Qed.

Lemma requested_app es es' k req : requested es k req -> requested (es ++ es') k req.
Proof. intros (ru & ev & r & Hin & Hr). exists ru, ev, r. split; [|done]. apply elem_of_app. by left. Qed.

Lemma dispatches_app k es es' : dispatches k (es ++ es') = (dispatches k es + dispatches k es')%nat.
Proof. unfold dispatches. by rewrite filter_app, length_app. Qed.

(** A process goes on without changing what it has in flight. *)
Lemma quiet_inv sys m before p after ps s now rs :
  system_inv sys m -> processes sys = before ++ p :: after -> in_flight ps = in_flight [p] ->
  (clock sys <= now)%N -> Forall (process_ok now) ps -> shows s m ->
  system_inv (mk_system s now rs (before ++ ps ++ after) (history sys ++ [])) m.
Proof.
  intros [Hst Hrec Hfl Hsi Hpr Hco Hrq Hdi] Hps Hflight Hnow Hok Hs.
  assert (Heq : in_flight (before ++ ps ++ after) = in_flight (processes sys)).
  { rewrite Hps. change (p :: after) with ([p] ++ after). rewrite !in_flight_app. by rewrite Hflight. }
  rewrite app_nil_r. split; simpl; rewrite ?Heq; try done.
  rewrite Hps in Hpr. apply Forall_app in Hpr as [Hb [_ Ha]%Forall_cons]. rewrite !Forall_app.
  assert (Hmono : forall q, process_ok (clock sys) q -> process_ok now q).
  { intros q. destruct q; try done. intros (r0 & now0 & Hle & Hrest). exists r0, now0. split; [lia|done]. }
  split_and!; [by eapply Forall_impl|done|by eapply Forall_impl].
Qed.

Lemma requested_insert es es' m k0 r0 :
  (forall k r, m !! k = Some r -> active r -> requested es k (request_of r)) ->
  (active r0 -> requested (es ++ es') k0 (request_of r0)) ->
  forall k r, <[k0 := r0]> m !! k = Some r -> active r -> requested (es ++ es') k (request_of r).
Proof.
  intros Hold Hnew k r [[<- <-]|[_ Hk]]%lookup_insert_Some Ha; [by apply Hnew|]. by apply requested_app, Hold.
Qed.

(** A worker claims a task. *)
Lemma swap_inv sys m before k d b r nb after s :
  system_inv sys m -> timely sys -> processes sys = before ++ Swapping k d b r nb :: after ->
  process_ok (clock sys) (Swapping k d b r nb) ->
  (exists r0, b = bytes_of r0 /\ m !! k = Some r0) -> shows s (<[k := r]> m) ->
  system_inv (mk_system s (clock sys) (rules sys) (before ++ [Dispatching k r] ++ after)
    (history sys ++ [Dispatched k (request_of r)])) (<[k := r]> m).
Proof.
  intros [Hst Hrec Hfl Hsi Hpr Hco Hrq Hdi] Htime Hps (r0 & now0 & Hnow & Hb & Hneed & Hr & _) (r1 & Hb1 & Hk) Hs.
  rewrite Hb in Hb1. apply (inj bytes_of) in Hb1 as <-.
  assert (Hflight : in_flight (processes sys) = in_flight before ++ in_flight after)
    by (by rewrite Hps, in_flight_app).
  destruct (Hrec k r0 Hk) as (Hkey & Hatt & Hstate).
  assert (Hpend : state r0 = Pending).
  { unfold needs_dispatch in Hneed. destruct (state r0) as [|d0| |] eqn:E; [done| |done|done]. exfalso.
    apply list_elem_of_fmap in Hstate as ([k' r'] & [= <-] & Hin). destruct (Hfl k r' Hin) as [Hk' _].
    rewrite Hk in Hk'. injection Hk' as <-. specialize (Htime k r0 d0 Hin E). apply N.ltb_lt in Hneed. lia. }
  rewrite Hpend in Hstate.
  assert (Hfree : k ∉ (in_flight (processes sys)).*1).
  { intros ([k' r'] & [= <-] & Hin)%list_elem_of_fmap. destruct (Hfl k r' Hin) as (Hk' & d' & Hd').
    rewrite Hk in Hk'. injection Hk' as <-. by rewrite Hd' in Hpend. }
  assert (Hr' : attempts r = (attempts r0 + 1)%N).
  { rewrite Hr. simpl. unfold wrap_u32. apply N.mod_small. lia. }
  assert (Hreq : request_of r = request_of r0) by by rewrite Hr.
  assert (Hrun : state r = Running d) by by rewrite Hr.
  assert (Hperm : in_flight (before ++ Dispatching k r :: after) ≡ₚ (k, r) :: in_flight (processes sys)).
  { rewrite Hflight, in_flight_app. simpl. by rewrite <- Permutation_middle. }
  assert (Hnew : requested (history sys) k (request_of r)).
  { rewrite Hreq. apply Hrq; [done|]. unfold active. by rewrite Hpend. }
  split; simpl.
  - done.
  - intros k' r' [[<- <-]|[Hne Hk']]%lookup_insert_Some.
    + split_and!; [by rewrite Hr|lia|]. rewrite Hrun, Hperm. by left.
    + destruct (Hrec k' r' Hk') as (? & ? & Hst'). split_and!; [done..|]. destruct (state r'); [done| |done|done].
      rewrite Hperm. by right.
  - intros k' r'. rewrite Hperm. intros [[= -> ->]|Hin]%elem_of_cons.
    + rewrite lookup_insert_eq. split; [done|]. by exists d.
    + rewrite lookup_insert_ne; [by apply Hfl|]. intros <-. apply Hfree, list_elem_of_fmap. by exists (k, r').
  - rewrite Hperm. by apply NoDup_cons.
  - rewrite Hps in Hpr. apply Forall_app in Hpr as [? [_ ?]%Forall_cons]. rewrite Forall_app. split; [done|].
    by apply Forall_cons_2.
  - intros k'. rewrite dispatches_app, Nat2N.inj_add, Hco. unfold dispatches. simpl. rewrite filter_cons, filter_nil.
    simpl. destruct (decide (k = k')) as [<-|Hne].
    + rewrite bool_decide_true, decide_True, lookup_insert_eq, Hk by done. simpl. lia.
    + rewrite bool_decide_false, decide_False, lookup_insert_ne by done. simpl. lia.
  - apply requested_insert; [done|]. intros _. by apply requested_app.
  - intros k' req [Hin|[= -> ->]%list_elem_of_singleton]%elem_of_app; [by apply requested_app, Hdi|by apply requested_app].
Qed.

(** A worker writes the end of its task. *)
Lemma write_inv sys m before k r b after :
  system_inv sys m -> processes sys = before ++ Writing k r b :: after ->
  system_inv (mk_system (store_put (store sys) k b).1 (clock sys) (rules sys) (before ++ [] ++ after) (history sys ++ []))
    (<[k := default r (match from_bytes b with Ok r' => Some r' | Err _ => None end)]> m).
Proof.
  intros [Hst Hrec Hfl Hsi Hpr Hco Hrq Hdi] Hps.
  pose proof Hpr as Hpr'. rewrite Hps in Hpr'. apply Forall_app in Hpr' as [Hb [(v & now0 & -> & Hv) Ha]%Forall_cons].
  rewrite from_bytes_of. simpl. set (r' := set_updated (apply_verdict v r) now0).
  assert (Hperm : in_flight (processes sys) ≡ₚ (k, r) :: in_flight (before ++ after)).
  { rewrite Hps, !in_flight_app. change (Writing k r _ :: after) with ([Writing k r (bytes_of r')] ++ after).
    rewrite in_flight_app. simpl. by rewrite <- Permutation_middle. }
  rewrite Hperm in Hsi. simpl in Hsi. apply NoDup_cons in Hsi as [Hfree Hsi].
  destruct (Hfl k r) as (Hk & d & Hd); [rewrite Hperm; by left|].
  destruct (Hrec k r Hk) as (Hkey & Hatt & _).
  assert (Hact : active r' -> v = Retry) by (unfold r'; by destruct v).
  assert (Hatt' : attempts r' = attempts r) by (unfold r'; by destruct v).
  rewrite app_nil_r. split; simpl.
  - by apply put_shown.
  - intros k' r1 [[<- <-]|[Hne Hk']]%lookup_insert_Some.
    + split_and!; [by unfold r'; destruct v|by rewrite Hatt'|]. destruct v; [done..|]. by apply Hv.
    + destruct (Hrec k' r1 Hk') as (? & ? & Hst'). split_and!; [done..|]. destruct (state r1); [done| |done|done].
      rewrite Hperm in Hst'. simpl in Hst'. apply elem_of_cons in Hst' as [->|?]; done.
  - intros k' r1 Hin. rewrite lookup_insert_ne; [apply Hfl; rewrite Hperm; by right|]. intros <-. apply Hfree, list_elem_of_fmap.
    by exists (k, r1).
  - done.
  - by apply Forall_app.
  - intros k'. rewrite Hco. destruct (decide (k = k')) as [<-|Hne]; [by rewrite lookup_insert_eq, Hk|by rewrite lookup_insert_ne].
  - intros k' r1 Hk' Ha1. apply lookup_insert_Some in Hk' as [[<- <-]|[_ Hk']]; [|by apply Hrq].
    specialize (Hact Ha1). subst v. apply (Hrq k r Hk). unfold active. by rewrite Hd.
  - done.
Qed.

(** A rule claims a task for an event. *)
Lemma notify_inv sys m before ev payload rule rest after s :
  let r := rule_record digest rule ev payload (clock sys) in
  system_inv sys m -> processes sys = before ++ Notifying ev payload (rule :: rest) :: after ->
  m !! task_key r = None -> shows s (<[task_key r := r]> m) ->
  system_inv (mk_system s (clock sys) (rules sys) (before ++ [Spawned (task_key r); Notifying ev payload rest] ++ after)
    (history sys ++ [Claimed (rule_id rule) ev r])) (<[task_key r := r]> m).
Proof.
  intros r [Hst Hrec Hfl Hsi Hpr Hco Hrq Hdi] Hps Hnone Hs.
  assert (Heq : in_flight (before ++ Spawned (task_key r) :: Notifying ev payload rest :: after) = in_flight (processes sys))
    by (by rewrite Hps, !in_flight_app).
  split; simpl; change (dedup_key digest (rule_id rule) ev) with (task_key r); rewrite ?Heq.
  - done.
  - intros k' r1 [[<- <-]|[Hne Hk']]%lookup_insert_Some; [|by apply Hrec]. split_and!; [done|simpl; lia|simpl; lia].
  - intros k' r1 Hin. destruct (Hfl k' r1 Hin) as [Hk' Hd]. rewrite lookup_insert_ne; [done|]. intros <-. by rewrite Hk' in Hnone.
  - done.
  - rewrite Hps in Hpr. apply Forall_app in Hpr as [? [_ ?]%Forall_cons]. rewrite Forall_app. split; [done|].
    by repeat apply Forall_cons_2.
  - intros k'. rewrite dispatches_app, Nat2N.inj_add, Hco.
    assert (Hzero : dispatches k' [Claimed (rule_id rule) ev r] = 0) by done. rewrite Hzero, N.add_0_r.
    destruct (decide (task_key r = k')) as [<-|Hne]; [by rewrite lookup_insert_eq, Hnone|by rewrite lookup_insert_ne].
  - apply requested_insert; [done|]. intros _. exists (rule_id rule), ev, r. split; [|done]. apply elem_of_app. right. by left.
  - intros k' req [Hin|Heq'%list_elem_of_singleton]%elem_of_app; [by apply requested_app, Hdi|done].
Qed.

(** Tasks that are done or failed. *)
Definition final_kept m m' : Prop := forall k r, m !! k = Some r -> ~ active r -> m' !! k = Some r.

Lemma final_kept_refl m : final_kept m m.
Proof. by intros k r Hk _. Qed.
Local Hint Resolve final_kept_refl : core.

Lemma final_kept_insert m k r :
  (forall r0, m !! k = Some r0 -> active r0) -> final_kept m (<[k := r]> m).
Proof. intros Ha k' r' Hk' Hn. rewrite lookup_insert_ne; [done|]. intros <-. by apply Hn, (Ha r'). Qed.

Lemma process_inv sys m before p after reply :
  system_inv sys m -> timely sys -> processes sys = before ++ p :: after ->
  exists m', system_inv (run_process config digest sys before p after reply) m' /\ final_kept m m'.
Proof.
  intros Hi Htime Hps. pose proof (si_store _ _ Hi) as Hs. pose proof (si_process _ _ Hi) as Hpr.
  rewrite Hps in Hpr. apply Forall_app in Hpr as [_ [Hp _]%Forall_cons].
  assert (Hquiet : forall ps, in_flight ps = in_flight [p] -> Forall (process_ok (clock sys)) ps ->
    exists m', system_inv (mk_system (store sys) (clock sys) (rules sys) (before ++ ps ++ after) (history sys ++ [])) m' /\
      final_kept m m').
  { intros ps Hf Hok. exists m. split; [by apply (quiet_inv sys m before p after)|done]. }
  unfold run_process. destruct p as [k|k d|k d b r nb|k r|k r v|k r b|ev pl rs|due|k b due]; cbn [process_step].
  - by apply Hquiet; [|apply Forall_singleton].
  - rewrite (claim_read_shown _ m k d _ Hs). destruct (m !! k) as [r|]; [|by apply Hquiet].
    destruct (needs_dispatch r (clock sys)) eqn:En; [|by apply Hquiet]. apply Hquiet; [done|]. apply Forall_singleton.
    exists r, (clock sys). by split_and!.
  - pose proof Hp as (r0 & now0 & _ & -> & Hneed & _ & ->). destruct (claim_swap_shown _ m k r0 r Hs) as (s' & -> & Hs').
    destruct (decide (m !! k = Some r0)) as [Hk|Hk].
    + rewrite bool_decide_true by done. exists (<[k := r]> m). split.
      * apply (swap_inv sys m before k d (bytes_of r0) r (bytes_of r)); [done..| |done]. by exists r0.
      * apply final_kept_insert. rewrite Hk. intros r1 [= <-]. unfold needs_dispatch in Hneed. unfold active. by destruct (state r0).
    + rewrite bool_decide_false by done. exists m. split; [|done]. by apply (quiet_inv sys m before _ after _ _ _ _ Hi Hps); [..|apply Forall_singleton|].
  - apply Hquiet; [done|]. apply Forall_singleton. simpl. unfold verdict_of. destruct reply as [d|e]; [done|].
    destruct (permanent e || _)%bool eqn:E; [done|]. intros _. apply orb_false_iff in E as [_ E%N.leb_gt]. done.
  - destruct (si_flight _ _ Hi k r) as [Hk _].
    { rewrite Hps, in_flight_app. apply elem_of_app. right. by left. }
    rewrite (update_read_shown _ m k _ _ Hs), Hk. cbn [fmap option_fmap option_map]. apply Hquiet; [done|]. apply Forall_singleton.
    exists v, (clock sys). by split.
  - eexists. split; [by apply (write_inv sys m before k r b after)|]. apply final_kept_insert.
    destruct (si_flight _ _ Hi k r) as (Hk & d & Hd).
    { rewrite Hps, in_flight_app. apply elem_of_app. right. by left. }
    rewrite Hk. intros r1 [= <-]. unfold active. by rewrite Hd.
  - destruct rs as [|rule rs]; [by apply Hquiet|].
    set (r := rule_record digest rule ev pl (clock sys)).
    destruct (claim_shown _ m r Hs) as (s' & Hc & Hs'). fold r. rewrite Hc.
    destruct (decide (m !! task_key r = None)) as [Hk|Hk].
    + rewrite bool_decide_true by done. exists (<[task_key r := r]> m). split; [by apply (notify_inv sys m before ev pl rule rs after)|].
      apply final_kept_insert. by rewrite Hk.
    + rewrite bool_decide_false by done. exists m. split; [|done]. by apply (quiet_inv sys m before _ after _ _ _ _ Hi Hps); [..|apply Forall_singleton|].
  - destruct due as [|r due]; [by apply Hquiet|]. simpl in Hp. apply Forall_cons in Hp as [Hr Hdue].
    destruct (max_attempts config <=? attempts r)%N eqn:E; [apply N.leb_le in E; lia|].
    apply Hquiet; [done|]. by repeat apply Forall_cons_2.
  - done.
Qed.

Lemma system_step_inv sys m sys' :
  system_inv sys m -> timely sys -> system_step config digest sys sys' ->
  exists m', system_inv sys' m' /\ final_kept m m'.
Proof.
  intros Hi Htime Hstep.
  assert (Hspawn : forall p, holding p = None -> process_ok (clock sys) p -> system_inv (spawn sys p) m).
  { intros p Hh Hp. destruct Hi as [Hst Hrec Hfl Hsi Hpr Hco Hrq Hdi].
    assert (Heq : in_flight (processes sys ++ [p]) = in_flight (processes sys)).
    { rewrite in_flight_app. simpl. rewrite Hh. apply app_nil_r. }
    split; simpl; rewrite ?Heq; try done. apply Forall_app. split; [done|by apply Forall_singleton]. }
  destruct Hstep as [before p after reply Hps|address ev payload|due Hdue|rule|id|now Hnow].
  - by apply (process_inv sys m).
  - exists m. split; [by apply Hspawn|done].
  - exists m. split; [|done]. apply Hspawn; [done|]. apply Forall_forall. intros r Hr.
    destruct (needing_dispatch_shown _ m _ _ r (si_store _ _ Hi) Hdue Hr) as [Hn [k Hk]].
    destruct (si_record _ _ Hi k r Hk) as (_ & _ & Hst). unfold needs_dispatch in Hn.
    destruct (state r) as [|d| |] eqn:E; [done| |done|done]. exfalso.
    apply list_elem_of_fmap in Hst as ([k' r'] & [= <-] & Hin). destruct (si_flight _ _ Hi k r' Hin) as [Hk' _].
    rewrite Hk in Hk'. injection Hk' as <-. specialize (Htime k r d Hin E). apply N.ltb_lt in Hn. lia.
  - exists m. split; [by destruct Hi|done].
  - exists m. split; [by destruct Hi|done].
  - exists m. split; [|done]. destruct Hi as [Hst Hrec Hfl Hsi Hpr Hco Hrq Hdi]. split; simpl; try done.
    eapply Forall_impl; [exact Hpr|]. intros p. destruct p; try done.
    intros (r0 & now0 & Hle & Hrest). exists r0, now0. split; [lia|done].
Qed.

(** A run in which no worker is overtaken. *)
Definition timely_step sys sys' : Prop := timely sys /\ system_step config digest sys sys'.

Definition start (s : S) (now : N) : System := mk_system s now [] [] [].

Lemma start_inv s now : entries s = ∅ -> system_inv (start s now) ∅.
Proof.
  intros Hs. split; simpl; try done.
  - intros k r Hin. by apply elem_of_nil in Hin.
  - constructor.
  - intros k req Hin. by apply elem_of_nil in Hin.
Qed.

Lemma timely_run_inv sys m sys' :
  system_inv sys m -> rtc timely_step sys sys' -> exists m', system_inv sys' m' /\ final_kept m m'.
Proof.
  intros Hi Hrun. revert m Hi. induction Hrun as [|sys sys1 sys' [Ht Hstep] _ IH]; intros m Hi; [by exists m|].
  destruct (system_step_inv sys m sys1 Hi Ht Hstep) as (m1 & Hi1 & Hf1). destruct (IH m1 Hi1) as (m' & Hi' & Hf').
  exists m'. split; [done|]. intros k r Hk Hn. by apply Hf', Hn; apply Hf1.
Qed.
End invariant.

(** ** Claims

    These hold in every run, whatever the workers do. *)

Definition claim_of (e : Event) : option (string * string) :=
  match e with Claimed rule event_id _ => Some (rule, event_id) | _ => None end.

(** The rules and events for which a task was claimed. *)
Definition claims (es : list Event) : list (string * string) := omap claim_of es.

(** The key that a process is about to write over. *)
Definition writes_to (p : Process) : option TaskKey :=
  match p with Writing k _ _ | Expiring k _ _ => Some k | _ => None end.

Section claims.
Context {S : Type} `{!LedgerStore S, !ExactLedger S, !TaskCodec}.
Context (config : TriggerConfig) (digest : string -> string).
Implicit Types (s : S) (sys : System (S := S)).

Definition claim_keys (es : list Event) : list TaskKey := (fun re => dedup_key digest re.1 re.2) <$> claims es.

Record claims_inv sys : Prop := {
  ci_keys : forall k, is_Some (entries (store sys) !! k) <-> k ∈ claim_keys (history sys);
  ci_once : NoDup (claim_keys (history sys));
  ci_writes : forall p k, p ∈ processes sys -> writes_to p = Some k -> is_Some (entries (store sys) !! k)
}.

Lemma claim_keys_app es es' : claim_keys (es ++ es') = claim_keys es ++ claim_keys es'.
Proof. unfold claim_keys, claims. by rewrite omap_app, fmap_app. Qed.

Definition same_keys s s' : Prop := forall k, is_Some (entries s !! k) <-> is_Some (entries s' !! k).

Lemma overwrite_same_keys s k b : is_Some (entries s !! k) -> same_keys s (store_put s k b).1.
Proof.
  intros Hk k'. pose proof (put_exact s k b) as He. destruct (store_put s k b) as [s' r]. simpl. rewrite He.
  destruct (is_ok r); [|done]. destruct (decide (k = k')) as [<-|Hne]; [|by rewrite lookup_insert_ne].
  by rewrite lookup_insert_eq.
Qed.

Lemma swap_same_keys s k b nb : same_keys s (claim_swap s k b nb).1.
Proof.
  intros k'. unfold claim_swap. pose proof (swap_exact s k (Some b) nb) as He.
  destruct (store_compare_and_swap s k (Some b) nb) as [s' [[]|]]; simpl; [|by destruct He as [_ ->]|by rewrite He].
  destruct He as [Hk ->]. destruct (decide (k = k')) as [<-|Hne]; [|by rewrite lookup_insert_ne].
  by rewrite lookup_insert_eq, Hk.
Qed.

Lemma update_read_found s k f now b : update_read s k f now = Ok (Some b) -> is_Some (entries s !! k).
Proof.
  unfold update_read, ledger_get. destruct (store_get s k) as [v|] eqn:E; [|done]. apply get_exact in E as ->.
  by destruct (entries s !! k).
Qed.

(** A step that claims nothing and keeps the keys. *)
Lemma claims_keep sys s now rs ps es :
  claims_inv sys -> same_keys (store sys) s -> claim_keys es = [] ->
  (forall p k, p ∈ ps -> writes_to p = Some k -> p ∈ processes sys \/ is_Some (entries (store sys) !! k)) ->
  claims_inv (mk_system s now rs ps (history sys ++ es)).
Proof.
  intros [Hk Ho Hw] Hs He Hps. split; simpl; rewrite ?claim_keys_app, ?He, ?app_nil_r.
  - intros k. by rewrite <- (Hs k).
  - done.
  - intros p k Hp Hpk. rewrite <- (Hs k). destruct (Hps p k Hp Hpk) as [Hin|?]; [by apply (Hw p)|done].
Qed.

Definition writes_known s (ps : list Process) : Prop :=
  forall p k, p ∈ ps -> writes_to p = Some k -> is_Some (entries s !! k).

Lemma writes_none s ps : Forall (fun p => writes_to p = None) ps -> writes_known s ps.
Proof. intros Hall p k Hp Hk. rewrite Forall_forall in Hall. by rewrite (Hall p Hp) in Hk. Qed.

(** A step keeps the keys of the ledger, or a rule claims a new one. *)
Lemma process_step_claims s now p reply s' ps es :
  process_step config digest s now p reply = (s', ps, es) -> writes_known s [p] ->
  (same_keys s s' /\ claim_keys es = [] /\ writes_known s ps) \/
  (exists ev payload rule rest b, p = Notifying ev payload (rule :: rest) /\
     ps = [Spawned (dedup_key digest (rule_id rule) ev); Notifying ev payload rest] /\
     es = [Claimed (rule_id rule) ev (rule_record digest rule ev payload now)] /\
     entries s !! dedup_key digest (rule_id rule) ev = None /\
     entries s' = <[dedup_key digest (rule_id rule) ev := b]> (entries s)).
Proof.
  intros E Hp. assert (Hrefl : same_keys s s) by done.
  assert (Hquiet : forall ps es, claim_keys es = [] -> Forall (fun p => writes_to p = None) ps ->
    same_keys s s /\ claim_keys es = [] /\ writes_known s ps) by (intros; split_and!; [done..|by apply writes_none]).
  destruct p as [k|k d|k d b r nb|k r|k r v|k r b|ev pl rs|due|k b due]; cbn [process_step] in E.
  - injection E as <- <- <-. left. apply Hquiet; [done|by repeat constructor].
  - left. destruct (claim_read s k d now) as [[[[b r] nb]|]|]; injection E as <- <- <-; (apply Hquiet; [done|by repeat constructor]).
  - left. pose proof (swap_same_keys s k b nb) as Hs. destruct (claim_swap s k b nb) as [s1 [[]|]]; injection E as <- <- <-;
      (split_and!; [exact Hs|done|apply writes_none; by repeat constructor]).
  - injection E as <- <- <-. left. apply Hquiet; [done|by repeat constructor].
  - left. destruct (update_read s k (apply_verdict v) now) as [[b|]|] eqn:Eu; injection E as <- <- <-;
      [|apply Hquiet; [done|by repeat constructor]..].
    split_and!; [done..|]. intros q k' ->%list_elem_of_singleton [= <-]. by eapply update_read_found.
  - injection E as <- <- <-. left. split_and!; [apply overwrite_same_keys, (Hp (Writing k r b)); [by left|done]|done|by apply writes_none].
  - destruct rs as [|rule rs]; [injection E as <- <- <-; left; by apply Hquiet|].
    unfold claim in E. destruct (to_stdvec _) as [b|]; [|injection E as <- <- <-; left; apply Hquiet; [done|by repeat constructor]].
    pose proof (create_exact s (dedup_key digest (rule_id rule) ev) b) as He. cbn [task_key rule_record pending] in E.
    destruct (store_create_if_absent s (dedup_key digest (rule_id rule) ev) b) as [s1 [[]|]]; injection E as <- <- <-.
    + right. destruct He as [Hn He]. by exists ev, pl, rule, rs, b.
    + left. destruct He as [_ He]. split_and!; [intros k; by rewrite He|done|apply writes_none; by repeat constructor].
    + left. split_and!; [intros k; by rewrite He|done|apply writes_none; by repeat constructor].
  - left. destruct due as [|r due]; [injection E as <- <- <-; by apply Hquiet|].
    destruct (max_attempts config <=? attempts r)%N; [|injection E as <- <- <-; apply Hquiet; [done|by repeat constructor]].
    destruct (update_read s (task_key r) exhausted now) as [[b|]|] eqn:Eu; injection E as <- <- <-;
      [|apply Hquiet; [done|by repeat constructor]..].
    split_and!; [done..|]. intros q k' ->%list_elem_of_singleton [= <-]. by eapply update_read_found.
  - injection E as <- <- <-. left.
    split_and!; [apply overwrite_same_keys, (Hp (Expiring k b due)); [by left|done]|done|apply writes_none; by repeat constructor].
Qed.

Lemma claims_process sys before p after reply :
  claims_inv sys -> processes sys = before ++ p :: after ->
  claims_inv (run_process config digest sys before p after reply).
Proof.
  intros Hi Hps. unfold run_process.
  destruct (process_step config digest (store sys) (clock sys) p reply) as [[s ps] es] eqn:E.
  assert (Hp : writes_known (store sys) [p]).
  { intros q k ->%list_elem_of_singleton Hk. apply (ci_writes _ Hi p); [|done]. rewrite Hps. set_solver. }
  destruct (process_step_claims _ _ _ _ _ _ _ E Hp) as [(Hs & He & Hw)|(ev & pl & rule & rest & b & -> & -> & -> & Hn & He)].
  - apply claims_keep; [done..|]. intros q k [Hin|[Hin|Hin]%elem_of_app]%elem_of_app Hqk;
      [left|right; by apply (Hw q)|left]; rewrite Hps; set_solver.
  - destruct Hi as [Hk Ho Hw]. set (key := dedup_key digest (rule_id rule) ev) in *.
    assert (Hnew : key ∉ claim_keys (history sys)).
    { intros Hin. apply Hk in Hin as [? Hin]. by rewrite Hin in Hn. }
    assert (Hkeys : claim_keys (history sys ++ [Claimed (rule_id rule) ev (rule_record digest rule ev pl (clock sys))]) =
      claim_keys (history sys) ++ [key]) by by rewrite claim_keys_app.
    split; cbn [store processes history]; rewrite ?Hkeys.
    + intros k. rewrite elem_of_app, list_elem_of_singleton, <- Hk, He.
      destruct (decide (key = k)) as [<-|Hne]; [rewrite lookup_insert_eq|rewrite lookup_insert_ne by done]; naive_solver.
    + apply NoDup_app. split_and!; [done| |apply NoDup_singleton]. intros k Hin ->%list_elem_of_singleton. done.
    + intros q k Hq Hqk. assert (Hin : q ∈ processes sys).
      { rewrite Hps. apply elem_of_app in Hq as [?|Hq]; [set_solver|]. apply elem_of_cons in Hq as [->|Hq]; [done|].
        apply elem_of_cons in Hq as [->|Hq]; [done|]. set_solver. }
      specialize (Hw q k Hin Hqk). rewrite He. destruct (decide (key = k)) as [<-|Hne]; [by rewrite lookup_insert_eq|by rewrite lookup_insert_ne].
Qed.

Lemma claims_step sys sys' : claims_inv sys -> system_step config digest sys sys' -> claims_inv sys'.
Proof.
  intros Hi Hstep.
  assert (Hsame : forall s now rs ps, s = store sys -> (forall p k, p ∈ ps -> writes_to p = Some k -> p ∈ processes sys) ->
    claims_inv (mk_system s now rs ps (history sys))).
  { intros s now rs ps -> Hps. rewrite <- (app_nil_r (history sys)). apply claims_keep; [done..|]. intros p k Hp Hk. left. by apply (Hps p k). }
  destruct Hstep as [before p after reply Hps|address ev payload|due Hdue|rule|id|now Hnow].
  - by apply claims_process.
  - apply Hsame; [done|]. intros p k [Hp| ->%list_elem_of_singleton]%elem_of_app Hk; done.
  - apply Hsame; [done|]. intros p k [Hp| ->%list_elem_of_singleton]%elem_of_app Hk; done.
  - by apply Hsame.
  - by apply Hsame.
  - by apply Hsame.
Qed.

Lemma claims_run s now sys :
  entries s = ∅ -> rtc (system_step config digest) (start s now) sys -> claims_inv sys.
Proof.
  intros Hs Hrun. assert (Hi : claims_inv (start s now)).
  { split; simpl; [|constructor|].
    - intros k. rewrite Hs, lookup_empty. split; [by intros []|intros Hin; by apply elem_of_nil in Hin].
    - intros p k Hp. by apply elem_of_nil in Hp. }
  clear Hs. induction Hrun; eauto using claims_step.
Qed.

Lemma claims_once sys : claims_inv sys -> NoDup (claims (history sys)).
Proof. intros Hi. apply (NoDup_fmap_1 (fun re => dedup_key digest re.1 re.2)), (ci_once _ Hi). Qed.
End claims.
