(* ===== verification/Scheduler.v ===== *)
(** * The compute scheduler

    [compute/scheduler.rs] with the capability vectors of [compute/mod.rs] and the
    errors of [compute/runtime.rs] and [compute/protocol.rs]: the directory of
    vectors, scores and ranking, delegation with failover, the auction, fan-out,
    and redundant execution with reputation.

    The replies of other nodes come from a class; a function that waits for several
    replies at once gets them in the order of its requests.  Times are in one unit,
    the code's monotonic clock; the order of a hash map is that of [gmap]. *)

From S2P Require Import Prelude Json RustFloat Ledger TaskEngine.

(** ** Data *)

Inductive CpuArch := X86_64 | Aarch64 | OtherArch.
Inductive Accel := Gpu | Npu.

Record CapabilityVector := mk_vector {
  node_id : NodeId;
  cpu_cores : N;
  cpu_arch : CpuArch;
  ram_total_mb : N;
  accelerators : list Accel;
  cpu_load_pct : N;
  ram_free_mb : N;
  on_battery : bool;
  battery_pct : option N;
  tasks_running : N;
  max_concurrent : N;
  accepts : list TaskClass;
  nn_models : list string;
  llm_models : list string;
  embed_models : list string;
  issued_at : N
}.

Definition is_candidate_for (v : CapabilityVector) (c : TaskClass) : bool :=
  (0 <? max_concurrent v)%N && (tasks_running v <? max_concurrent v)%N && bool_decide (c ∈ accepts v).

Definition offers_model (v : CapabilityVector) (name : string) : bool := bool_decide (name ∈ nn_models v).

Inductive TaskError :=
| InvalidModule (e : string)
| WasmUnavailable (e : string)
| MissingExport (e : string)
| FuelExhausted
| DeadlineExceeded
| MemoryLimitExceeded
| AbiViolation (e : string)
| HostCapabilityDenied (e : string)
| Trapped (e : string)
| RuntimeError (e : string).

Definition is_transient (e : TaskError) : bool :=
  match e with
  | WasmUnavailable _ | HostCapabilityDenied _ | RuntimeError _ | MissingExport _ => true
  | _ => false
  end.

Inductive RejectReason :=
| ClassNotAccepted
| Busy
| ModelNotAvailable (model : string)
| Malformed (e : string).

Inductive ComputeCallError :=
| Unreachable (e : string)
| Rejected (r : RejectReason)
| TaskFailure (e : TaskError)
| ProtocolError (e : string)
| Timeout.

Record ProbeReply := mk_probe {
  accepts_class : bool;
  free_slots : N;
  bid_cpu_load_pct : N;
  bid_ram_free_mb : N
}.

Inductive ScheduleError :=
| NoCandidates
| TaskFailed (executor : NodeId) (e : TaskError)
| AllAttemptsFailed (attempts : list (NodeId * ComputeCallError))
| Divergent.

Record RedundantOutcome := mk_outcome {
  delegated : Delegated;
  agreements : nat;
  responded : nat;
  divergent : list NodeId
}.

(** ** Floats *)

Definition f64_sub (a b : float) : float := SFsub 53 1024 a b.
Definition f64_mul (a b : float) : float := SFmul 53 1024 a b.
Definition f64_div (a b : float) : float := SFdiv 53 1024 a b.
Definition f64_of_N (n : N) : float := f64_of_Z (Z.of_N n).

(** A literal [m * 10^x] of the source. *)
Definition f64_lit (m x : Z) : float := decimal_to_float 53 1024 false m x.

(** ** The directory *)

Record SeenVector := mk_seen { vector : CapabilityVector; received_at : N }.

Module CapabilityDirectory.
Abbreviation t := (gmap NodeId SeenVector).

Definition upsert (self : t) (now : N) (v : CapabilityVector) : t := <[node_id v := mk_seen v now]> self.
Definition remove (self : t) (node : NodeId) : t := delete node self.

Definition fresh (now max_age : N) (seen : SeenVector) : bool := (now - received_at seen <=? max_age)%N.

Definition get (self : t) (now : N) (node : NodeId) (max_age : N) : option CapabilityVector :=
  match self !! node with
  | Some seen => if fresh now max_age seen then Some (vector seen) else None
  | None => None
  end.

Definition snapshot (self : t) (now max_age : N) : list CapabilityVector :=
  vector <$> filter (fun seen => fresh now max_age seen = true) (map_to_list self).*2.
End CapabilityDirectory.

(** ** Scores *)

Record ScoreWeights := mk_weights {
  free_cores_weight : float;
  ram_free_gib_weight : float;
  load_penalty : float;
  battery_penalty : float;
  accelerator_bonus : float;
  reputation_penalty : float
}.

Definition default_weights : ScoreWeights :=
  mk_weights (f64_lit 10 0) (f64_lit 1 0) (f64_lit 2 (-1)) (f64_lit 1000 0) (f64_lit 50 0) (f64_lit 500 0).

Definition score (v : CapabilityVector) (c : TaskClass) (w : ScoreWeights) : option float :=
  if negb (is_candidate_for v c) then None
  else
    let load := f64_of_N (N.min (cpu_load_pct v) 100) in
    let free_cores := f64_div (f64_mul (f64_of_N (cpu_cores v)) (f64_sub (f64_lit 100 0) load)) (f64_lit 100 0) in
    let ram_gib := f64_div (f64_of_N (ram_free_mb v)) (f64_lit 1024 0) in
    let battery := if on_battery v then battery_penalty w else f64_lit 0 0 in
    let accel := if bool_decide (c = Inference) && negb (bool_decide (accelerators v = []))
                 then accelerator_bonus w else f64_lit 0 0 in
    Some (f64_sub (f64_sub (f64_add (f64_add (f64_mul (free_cores_weight w) free_cores)
                                             (f64_mul (ram_free_gib_weight w) ram_gib)) accel)
                           (f64_mul (load_penalty w) load)) battery).

(** ** Reputation *)

Module ReputationBook.
Abbreviation t := (gmap NodeId float).

Definition factor (self : t) (node : NodeId) : float := default (f64_lit 1 0) (self !! node).
Definition penalize (self : t) (node : NodeId) : t :=
  <[node := f64_max (f64_mul (factor self node) (f64_lit 5 (-1))) (f64_lit 5 (-2))]> self.
Definition reward (self : t) (node : NodeId) : t :=
  <[node := f64_min (f64_add (factor self node) (f64_lit 5 (-2))) (f64_lit 1 0)]> self.
End ReputationBook.

(** ** The scheduler *)

Record SchedulerConfig := mk_scheduler_config {
  max_vector_age : N;
  config_max_attempts : nat;
  auction_probe_count : nat;
  weights : ScoreWeights
}.

Record Scheduler := mk_scheduler {
  directory : CapabilityDirectory.t;
  reputation : ReputationBook.t;
  local : NodeId;
  scheduler_config : SchedulerConfig
}.

Definition with_directory (s : Scheduler) (d : CapabilityDirectory.t) : Scheduler :=
  mk_scheduler d (reputation s) (local s) (scheduler_config s).
Definition with_reputation (s : Scheduler) (r : ReputationBook.t) : Scheduler :=
  mk_scheduler (directory s) r (local s) (scheduler_config s).

(** What the other nodes answer. *)
Class ComputeNetwork := {
  execute_on : NodeId -> ExecuteRequest -> result ComputeCallError CompletedTask;
  probe : NodeId -> TaskClass -> result ComputeCallError ProbeReply
}.

Section scheduler.
Context `{!ComputeNetwork}.
(** [blake3::hash] *)
Context (digest : string -> string).

(** [b.1.partial_cmp(&a.1).unwrap_or(Equal)] *)
Definition by_score (a b : NodeId * float) : comparison := default Eq (SFcompare b.2 a.2).

Definition standing_score (s : Scheduler) (node : NodeId) (base : float) : float :=
  f64_sub base (f64_mul (f64_sub (f64_lit 1 0) (ReputationBook.factor (reputation s) node))
                        (reputation_penalty (weights (scheduler_config s)))).

Definition rank_entry (s : Scheduler) (c : TaskClass) (v : CapabilityVector) : option (NodeId * float) :=
  (fun base => (node_id v, standing_score s (node_id v) base)) <$> score v c (weights (scheduler_config s)).

Definition rank_for (s : Scheduler) (now : N) (c : TaskClass) (model : option string) : list (NodeId * float) :=
  sort_by by_score
    (omap (rank_entry s c)
      (filter (fun v => match model with Some m => offers_model v m | None => true end = true)
        (filter (fun v => node_id v <> local s)
          (CapabilityDirectory.snapshot (directory s) now (max_vector_age (scheduler_config s)))))).

(** A node that does not answer is forgotten. *)
Definition forget (s : Scheduler) (node : NodeId) (e : ComputeCallError) : Scheduler :=
  match e with
  | Unreachable _ | Timeout => with_directory s (CapabilityDirectory.remove (directory s) node)
  | _ => s
  end.

Fixpoint attempt_loop (s : Scheduler) (req : ExecuteRequest) (nodes : list NodeId)
    (attempts : list (NodeId * ComputeCallError)) : Scheduler * result ScheduleError Delegated :=
  match nodes with
  | [] => (s, Err (AllAttemptsFailed attempts))
  | node :: nodes =>
      match execute_on node req with
      | Ok c => (s, Ok (mk_delegated node c))
      | Err e =>
          match e with
          | TaskFailure err => if is_transient err then attempt_loop s req nodes (attempts ++ [(node, e)])
                               else (s, Err (TaskFailed node err))
          | _ => attempt_loop (forget s node e) req nodes (attempts ++ [(node, e)])
          end
      end
  end.

Definition attempt_in_order (s : Scheduler) (req : ExecuteRequest) (order : list NodeId) :
    Scheduler * result ScheduleError Delegated :=
  match order with
  | [] => (s, Err NoCandidates)
  | _ => attempt_loop s req (take (Nat.max (config_max_attempts (scheduler_config s)) 1) order) []
  end.

Definition candidates (s : Scheduler) (now : N) (req : ExecuteRequest) : list NodeId :=
  (rank_for s now (request_class req) (request_required_model req)).*1.

Definition execute (s : Scheduler) (now : N) (req : ExecuteRequest) : Scheduler * result ScheduleError Delegated :=
  attempt_in_order s req (candidates s now req).

(** [ComputeScheduler] as the dispatcher of the trigger engine, with the text of an
    error. *)
Definition dispatch (show : ScheduleError -> string) (s : Scheduler) (now : N) (req : ExecuteRequest) :
    Scheduler * result DispatchError Delegated :=
  let '(s, r) := execute s now req in
  (s, match r with
      | Ok d => Ok d
      | Err e => Err (mk_dispatch_error (match e with TaskFailed _ _ => true | _ => false end) (show e))
      end).

(** ** The auction *)

Definition with_bid (v : CapabilityVector) (bid : ProbeReply) : CapabilityVector :=
  mk_vector (node_id v) (cpu_cores v) (cpu_arch v) (ram_total_mb v) (accelerators v) (bid_cpu_load_pct bid)
    (bid_ram_free_mb bid) (on_battery v) (battery_pct v) (max_concurrent v - N.min (free_slots bid) 255)%N
    (max_concurrent v) (accepts v) (nn_models v) (llm_models v) (embed_models v) (issued_at v).

Definition fresh_bid (s : Scheduler) (now : N) (c : TaskClass) (ranked : list (NodeId * float)) (node : NodeId) :
    option (NodeId * float) :=
  match probe node c with
  | Ok bid =>
      if accepts_class bid then
        let rescored := CapabilityDirectory.get (directory s) now node (max_vector_age (scheduler_config s)) ≫= fun v =>
                        score (with_bid v bid) c (weights (scheduler_config s)) in
        let base := match rescored with
                    | Some b => Some b
                    | None => (list_to_map (reverse ranked) : gmap NodeId float) !! node
                    end in
        (fun b => (node, standing_score s node b)) <$> base
      else None
  | Err _ => None
  end.

Definition execute_with_auction (s : Scheduler) (now : N) (req : ExecuteRequest) :
    Scheduler * result ScheduleError Delegated :=
  let c := request_class req in
  let ranked := rank_for s now c (request_required_model req) in
  match ranked with
  | [] => (s, Err NoCandidates)
  | _ =>
      let probe_count := Nat.min (Nat.max (auction_probe_count (scheduler_config s)) 1) (length ranked) in
      let bids := sort_by by_score (omap (fresh_bid s now c ranked) (take probe_count ranked).*1) in
      attempt_in_order s req (match bids with [] => ranked.*1 | _ => bids.*1 end)
  end.

(** ** Fan-out *)

Definition rotate_left {A} (k : nat) (l : list A) : list A := drop k l ++ take k l.

(** All rankings are taken before the first request is sent. *)
Definition map_order (s : Scheduler) (now : N) (i : nat) (req : ExecuteRequest) : list NodeId :=
  let order := candidates s now req in
  match order with [] => [] | _ => rotate_left (i mod length order) order end.

Fixpoint run_all_requests (s : Scheduler) (work : list (ExecuteRequest * list NodeId)) :
    Scheduler * list (result ScheduleError Delegated) :=
  match work with
  | [] => (s, [])
  | (req, order) :: work =>
      let '(s, r) := attempt_in_order s req order in
      let '(s, rs) := run_all_requests s work in
      (s, r :: rs)
  end.

Definition map_requests (s : Scheduler) (now : N) (reqs : list ExecuteRequest) :
    Scheduler * list (result ScheduleError Delegated) :=
  run_all_requests s (imap (fun i req => (req, map_order s now i req)) reqs).

(** ** Redundant execution *)

(** The nodes by the hash of their output. *)
Definition output_groups (successes : list (NodeId * CompletedTask)) : gmap string (list NodeId) :=
  foldl (fun groups nc =>
    let h := digest (output nc.2) in <[h := default [] (groups !! h) ++ [nc.1]]> groups) ∅ successes.

Definition majority_by_output (successes : list (NodeId * CompletedTask)) : option (list NodeId * list NodeId) :=
  let groups := (map_to_list (output_groups successes)).*2 in
  match groups with
  | [] => None
  | _ =>
      let best_size := max_list (length <$> groups) in
      match filter (fun g => length g = best_size) groups with
      | [winners] => Some (winners, mjoin (filter (fun g => length g <> best_size) groups))
      | _ => None
      end
  end.

(** The replies of all candidates: the scheduler without the silent ones, the
    failures and the successes. *)
Fixpoint collect_runs (s : Scheduler) (req : ExecuteRequest) (nodes : list NodeId) :
    Scheduler * list (NodeId * ComputeCallError) * list (NodeId * CompletedTask) :=
  match nodes with
  | [] => (s, [], [])
  | node :: nodes =>
      match execute_on node req with
      | Ok c => let '(s, fs, ss) := collect_runs s req nodes in (s, fs, (node, c) :: ss)
      | Err e => let '(s, fs, ss) := collect_runs (forget s node e) req nodes in (s, (node, e) :: fs, ss)
      end
  end.

(** [winners[0]] and [expect] do not panic: a group is never empty and its nodes
    come from the successes. *)
Definition execute_redundant (s : Scheduler) (now : N) (req : ExecuteRequest) (k : nat) :
    Scheduler * option (result ScheduleError RedundantOutcome) :=
  match take (Nat.max k 1) (candidates s now req) with
  | [] => (s, Some (Err NoCandidates))
  | nodes =>
      let '(s, fs, ss) := collect_runs s req nodes in
      match ss with
      | [] => (s, Some (Err (AllAttemptsFailed fs)))
      | _ =>
          match majority_by_output ss with
          | None => (s, Some (Err Divergent))
          | Some (winners, others) =>
              let rep := foldl ReputationBook.penalize (foldl ReputationBook.reward (reputation s) winners) others in
              let s := with_reputation s rep in
              match winners with
              | [] => (s, None)
              | winner :: _ =>
                  match List.find (fun nc => bool_decide (nc.1 = winner)) ss with
                  | Some (_, c) =>
                      (s, Some (Ok (mk_outcome (mk_delegated winner c) (length winners) (length ss) others)))
                  | None => (s, None)
                  end
              end
          end
      end
  end.
End scheduler.
