(* ===== verification/SchedulerInv.v ===== *)
(** * Correctness of the compute scheduler

    Who is ranked, what failover returns, and when redundant execution finds the
    majority. *)

From S2P Require Import Prelude Json RustFloat Ledger TaskEngine Scheduler.

(** ** The directory *)

(** Vectors are stored under the node that sent them. *)
Definition directory_ok (d : CapabilityDirectory.t) : Prop :=
  forall n seen, d !! n = Some seen -> node_id (vector seen) = n.

Lemma upsert_ok d now v : directory_ok d -> directory_ok (CapabilityDirectory.upsert d now v).
Proof. unfold CapabilityDirectory.upsert. intros Hd n seen [[<- <-]|[_ Hn]]%lookup_insert_Some; [done|by apply Hd]. Qed.

Lemma remove_ok d n : directory_ok d -> directory_ok (CapabilityDirectory.remove d n).
Proof. unfold CapabilityDirectory.remove. intros Hd n' seen [_ Hn]%lookup_delete_Some. by apply Hd. Qed.

Lemma map_to_list_snd_elem {A} (m : gmap string A) x : x ∈ (map_to_list m).*2 <-> exists k, m !! k = Some x.
Proof.
  rewrite list_elem_of_fmap. split.
  - intros ([k y] & -> & Hk%elem_of_map_to_list). by exists k.
  - intros [k Hk%elem_of_map_to_list]. by exists (k, x).
Qed.

Lemma snapshot_nodes d now age :
  directory_ok d -> NoDup (node_id <$> CapabilityDirectory.snapshot d now age).
Proof.
  intros Hd. unfold CapabilityDirectory.snapshot. rewrite <- list_fmap_compose.
  assert (Hall : Forall (fun kv => node_id (vector kv.2) = kv.1) (map_to_list d)).
  { apply Forall_forall. intros [k seen] Hk%elem_of_map_to_list. by apply Hd. }
  pose proof (NoDup_fst_map_to_list d) as Hnd. induction (map_to_list d) as [|[k seen] l IH]; [constructor|].
  csimpl in *. apply Forall_cons in Hall as [Hk Hall]. apply NoDup_cons in Hnd as [Hnk Hnd]. simpl in Hk.
  rewrite filter_cons. case_decide; [|by apply IH]. csimpl. apply NoDup_cons. split; [|by apply IH].
  rewrite Hk. intros (seen' & Heq & [_ Hin]%list_elem_of_filter)%list_elem_of_fmap. apply Hnk.
  apply list_elem_of_fmap in Hin as ([k' seen0] & -> & Hin). rewrite Forall_forall in Hall. specialize (Hall _ Hin).
  simpl in *. apply list_elem_of_fmap. exists (k', seen0). split; [|done]. unfold compose in *. simpl in *. congruence.
Qed.

(** ** Ranking *)

Lemma sorted_snoc {A} (R : A -> A -> Prop) l x :
  Sorted R l -> (forall y, last l = Some y -> R y x) -> Sorted R (l ++ [x]).
Proof.
  induction 1 as [|y l Hl IH Hy]; intros Hx; simpl; [by repeat constructor|].
  constructor; [apply IH; intros z Hz; apply Hx; by destruct l|].
  destruct Hy; simpl; constructor; [by apply Hx|done].
Qed.

Lemma sorted_reverse {A} (R : A -> A -> Prop) l : Sorted R l -> Sorted (flip R) (reverse l).
Proof.
  induction 1 as [|y l Hl IH Hy]; [constructor|]. rewrite reverse_cons. apply sorted_snoc; [done|].
  intros z Hz. rewrite last_reverse in Hz. destruct Hy; [done|]. by injection Hz as <-.
Qed.

Lemma sorted_weaken {A} (R R' : A -> A -> Prop) l : (forall x y, R x y -> R' x y) -> Sorted R l -> Sorted R' l.
Proof. intros HR. induction 1 as [|x l Hl IH Hx]; constructor; [done|]. destruct Hx; constructor; auto. Qed.

(** Each element is in order with the next, also when ties are not equalities. *)
Lemma sort_by_adjacent {A} (cmp : A -> A -> comparison) l :
  (forall x y, cmp x y = Lt -> cmp y x <> Lt) -> Sorted (fun x y => cmp y x <> Lt) (sort_by cmp l).
Proof.
  intros Hasym. apply (sorted_reverse (desc cmp)). unfold sort_rev.
  assert (Hins : forall x l, Sorted (desc cmp) l -> Sorted (desc cmp) (insert_tail cmp x l)).
  { intros x l0. induction 1 as [|y l0 Hl IH Hy]; simpl; [by repeat constructor|]. unfold is_less.
    destruct (cmp x y) eqn:E; [by repeat (constructor; try done); unfold desc; rewrite E| |
      by repeat (constructor; try done); unfold desc; rewrite E].
    constructor; [done|]. destruct Hy as [|z l0 Hz]; simpl; [constructor; by apply Hasym|].
    unfold is_less. destruct (cmp x z); constructor; try done; by apply Hasym. }
  assert (Hnil : Sorted (desc cmp) ([] : list A)) by constructor. revert Hnil. generalize ([] : list A) as acc.
  induction l as [|x l IH]; intros acc Hacc; simpl; [done|]. by apply IH, Hins.
Qed.

Lemma sf_compare_opp (x y : float) : SFcompare y x = CompOpp <$> SFcompare x y.
Proof.
  destruct x as [[]|[]| |[] m e], y as [[]|[]| |[] m' e']; try done; simpl; f_equal; rewrite (Z.compare_antisym e e');
    destruct (Z.compare e e') eqn:E; try done; by rewrite (Pos.compare_cont_antisym m m').
Qed.

Section ranking.
Context `{!ComputeNetwork}.
Implicit Types (s : Scheduler).

(** A node may get a task: it is known, not stale, not this node, has room for the
    class and serves the model. *)
Definition eligible s (now : N) (c : TaskClass) (model : option string) (n : NodeId) : Prop :=
  exists seen, directory s !! n = Some seen /\ (now - received_at seen <= max_vector_age (scheduler_config s))%N /\
    n <> local s /\ is_candidate_for (vector seen) c = true /\
    match model with Some m => m ∈ nn_models (vector seen) | None => True end.

Lemma rank_eligible s now c model n :
  directory_ok (directory s) -> n ∈ (rank_for s now c model).*1 <-> eligible s now c model n.
Proof.
  intros Hd. unfold rank_for. rewrite list_elem_of_fmap. setoid_rewrite (sort_by_perm by_score _).
  setoid_rewrite list_elem_of_omap. setoid_rewrite list_elem_of_filter. setoid_rewrite list_elem_of_filter.
  unfold CapabilityDirectory.snapshot. setoid_rewrite list_elem_of_fmap. setoid_rewrite list_elem_of_filter.
  setoid_rewrite map_to_list_snd_elem. unfold rank_entry, score, eligible, CapabilityDirectory.fresh. split.
  - intros ([n' f] & -> & v & (Hm & Hl & seen & -> & Hf%N.leb_le & k & Hk) & Hsc). pose proof (Hd k seen Hk) as Hn.
    destruct (is_candidate_for (vector seen) c) eqn:Ec; [|done]. simpl in Hsc. injection Hsc as <- _.
    exists seen. rewrite Hn in *. split_and!; [done..|]. destruct model; [|done]. by apply bool_decide_eq_true in Hm.
  - intros (seen & Hn & Hf & Hl & Ec & Hm). pose proof (Hd n seen Hn) as Hid.
    eexists (n, _). split; [done|]. exists (vector seen). split; [|rewrite Ec, Hid; done]. split_and!.
    + destruct model; [by apply bool_decide_eq_true|done].
    + by rewrite Hid.
    + exists seen. split; [done|]. split; [by apply N.leb_le|by exists n].
Qed.

(** No candidate scores less than the next one. *)
Lemma rank_sorted s now c model : Sorted (fun a b => SFcompare a.2 b.2 <> Some Lt) (rank_for s now c model).
Proof.
  eapply sorted_weaken, sort_by_adjacent.
  - intros a b Hab Hlt. apply Hab. unfold by_score. by rewrite Hlt.
  - intros [n x] [n' y]. unfold by_score. simpl. rewrite (sf_compare_opp x y). by destruct (SFcompare x y) as [[]|].
Qed.

Lemma rank_nodup s now c model : directory_ok (directory s) -> NoDup (rank_for s now c model).*1.
Proof.
  intros Hd. unfold rank_for. rewrite (sort_by_perm by_score _). set (l := filter _ (filter _ _)).
  assert (Hl : NoDup (node_id <$> l)).
  { unfold l. clear l. pose proof (snapshot_nodes (directory s) now (max_vector_age (scheduler_config s)) Hd) as Hnd.
    revert Hnd. generalize (CapabilityDirectory.snapshot (directory s) now (max_vector_age (scheduler_config s))).
    intros l Hnd. eapply sublist_NoDup; [exact Hnd|]. apply fmap_sublist. etransitivity; apply sublist_filter. }
  induction l as [|v l IH]; [constructor|]. csimpl in *. apply NoDup_cons in Hl as [Hv Hl].
  destruct (rank_entry s c v) as [[n f]|] eqn:E; [|by apply IH]. csimpl. apply NoDup_cons. split; [|by apply IH].
  assert (Hent : forall v n f, rank_entry s c v = Some (n, f) -> n = node_id v).
  { intros v' n' f' (b & _ & [= -> _])%fmap_Some. done. }
  apply Hent in E as ->. intros ([n' f'] & Heq & (v' & Hv' & E')%list_elem_of_omap)%list_elem_of_fmap.
  apply Hent in E'. simpl in *. apply Hv, list_elem_of_fmap. exists v'. split; [congruence|done].
Qed.
End ranking.

(** ** Failover *)

Section failover.
Context `{!ComputeNetwork}.
Implicit Types (s : Scheduler).

(** An error that another node might not have. *)
Definition node_specific (e : ComputeCallError) : bool :=
  match e with TaskFailure err => is_transient err | _ => true end.

(** The node was tried and failed in a way of its own. *)
Definition passed_over (req : ExecuteRequest) (n : NodeId) : Prop :=
  exists e, execute_on n req = Err e /\ node_specific e = true.

(** The errors of the nodes that were tried. *)
Definition failures (req : ExecuteRequest) (nodes : list NodeId) : list (NodeId * ComputeCallError) :=
  omap (fun n => match execute_on n req with Ok _ => None | Err e => Some (n, e) end) nodes.

(** The scheduler without the nodes that did not answer. *)
Definition forget_failed s (req : ExecuteRequest) (nodes : list NodeId) : Scheduler :=
  foldl (fun s ne => forget s ne.1 ne.2) s (failures req nodes).

Lemma failures_app req l l' : failures req (l ++ l') = failures req l ++ failures req l'.
Proof. apply omap_app. Qed.

Lemma forget_failed_app s req l l' : forget_failed s req (l ++ l') = forget_failed (forget_failed s req l) req l'.
Proof. unfold forget_failed. by rewrite failures_app, foldl_app. Qed.

Lemma attempt_loop_pass s req n nodes attempts e :
  execute_on n req = Err e -> node_specific e = true ->
  attempt_loop s req (n :: nodes) attempts = attempt_loop (forget s n e) req nodes (attempts ++ [(n, e)]).
Proof. intros En He. simpl. rewrite En. destruct e; try done. simpl in He. by rewrite He. Qed.

Lemma attempt_loop_spec s req nodes attempts s' r :
  attempt_loop s req nodes attempts = (s', r) ->
  match r with
  | Ok d => exists before after, nodes = before ++ executor d :: after /\ Forall (passed_over req) before /\
      execute_on (executor d) req = Ok (completed d) /\ s' = forget_failed s req before
  | Err (TaskFailed n e) => exists before after, nodes = before ++ n :: after /\ Forall (passed_over req) before /\
      execute_on n req = Err (TaskFailure e) /\ is_transient e = false /\ s' = forget_failed s req before
  | Err (AllAttemptsFailed l) => Forall (passed_over req) nodes /\ l = attempts ++ failures req nodes /\
      s' = forget_failed s req nodes
  | Err _ => False
  end.
Proof.
  revert s attempts. induction nodes as [|n nodes IH]; intros s attempts.
  { intros [= <- <-]. split_and!; [constructor|by rewrite app_nil_r|done]. }
  destruct (execute_on n req) as [c|e] eqn:En.
  { simpl. rewrite En. intros [= <- <-]. exists [], nodes. by split_and!. }
  destruct (node_specific e) eqn:He.
  - rewrite (attempt_loop_pass _ _ _ _ _ e En He). intros Hl. apply IH in Hl.
    assert (Hpass : passed_over req n) by by exists e.
    assert (Hfail : failures req [n] = [(n, e)]) by (unfold failures; simpl; by rewrite En).
    assert (Hs : forall l, forget_failed (forget s n e) req l = forget_failed s req (n :: l)).
    { intros l. change (n :: l) with ([n] ++ l). rewrite forget_failed_app. unfold forget_failed at 3. by rewrite Hfail. }
    destruct r as [d|[|n' e'|l|]]; [..|done].
    + destruct Hl as (before & after & -> & Hb & Hd & ->). exists (n :: before), after. split_and!; [done|by constructor|done|done].
    + done.
    + destruct Hl as (before & after & -> & Hb & Hd & Ht & ->). exists (n :: before), after. split_and!; [done|by constructor|done..].
    + destruct Hl as (Hall & -> & ->). split_and!; [by constructor| |done]. rewrite <- app_assoc. f_equal.
      change (n :: nodes) with ([n] ++ nodes). by rewrite failures_app, Hfail.
  - simpl. rewrite En. destruct e as [| |err| |]; try done. simpl in He. rewrite He. intros [= <- <-].
    exists [], nodes. by split_and!.
Qed.

(** What delegation along an order of nodes returns: the first node that is not
    passed over decides; silent nodes are forgotten. *)
Definition delegation s (req : ExecuteRequest) (order : list NodeId) (sr : Scheduler * result ScheduleError Delegated) :
    Prop :=
  let tried := take (Nat.max (config_max_attempts (scheduler_config s)) 1) order in
  match sr.2 with
  | Ok d => exists before after, tried = before ++ executor d :: after /\ Forall (passed_over req) before /\
      execute_on (executor d) req = Ok (completed d) /\ sr.1 = forget_failed s req before
  | Err NoCandidates => order = [] /\ sr.1 = s
  | Err (TaskFailed n e) => exists before after, tried = before ++ n :: after /\ Forall (passed_over req) before /\
      execute_on n req = Err (TaskFailure e) /\ is_transient e = false /\ sr.1 = forget_failed s req before
  | Err (AllAttemptsFailed l) => order <> [] /\ Forall (passed_over req) tried /\ l = failures req tried /\
      sr.1 = forget_failed s req tried
  | Err Divergent => False
  end.

Lemma attempt_in_order_delegation s req order : delegation s req order (attempt_in_order s req order).
Proof.
  unfold attempt_in_order, delegation. destruct order as [|n order]; [done|].
  destruct (attempt_loop s req _ []) as [s' r] eqn:E. apply attempt_loop_spec in E.
  destruct r as [d|[| | |]]; simpl in *; naive_solver.
Qed.

(** ** The auction *)

Lemma fresh_bid_node s now c ranked n n' f : fresh_bid s now c ranked n = Some (n', f) -> n' = n.
Proof.
  unfold fresh_bid. destruct (probe n c) as [bid|]; [|done]. destruct (accepts_class bid); [|done].
  by intros (b & _ & [= -> _])%fmap_Some.
Qed.

Lemma bids_sublist s now c ranked nodes : (omap (fresh_bid s now c ranked) nodes).*1 `sublist_of` nodes.
Proof.
  induction nodes as [|n nodes IH]; [constructor|]. csimpl. destruct (fresh_bid s now c ranked n) as [[n' f]|] eqn:E.
  - apply fresh_bid_node in E as ->. by constructor.
  - by constructor.
Qed.

(** A bid without a free slot falls back to the ranked score, from which the
    reputation is then subtracted a second time. *)
Lemma full_bid_discounted_twice s now c ranked n bid v f :
  probe n c = Ok bid -> accepts_class bid = true -> free_slots bid = 0%N ->
  CapabilityDirectory.get (directory s) now n (max_vector_age (scheduler_config s)) = Some v ->
  (list_to_map (reverse ranked) : gmap NodeId float) !! n = Some (standing_score s n f) ->
  fresh_bid s now c ranked n = Some (n, standing_score s n (standing_score s n f)).
Proof.
  intros Hp Ha Hf Hg Hr. unfold fresh_bid. rewrite Hp, Ha, Hg. cbn [mbind option_bind].
  unfold score, is_candidate_for. simpl. rewrite Hf, N.min_0_l, N.sub_0_r, N.ltb_irrefl, andb_false_r. simpl.
  by rewrite Hr.
Qed.

(** The auction delegates along some of the candidates, each once, and along none
    only when there is none. *)
Lemma auction_delegation s now req (cands := candidates s now req) :
  directory_ok (directory s) ->
  exists order, NoDup order /\ order ⊆ cands /\ (order = [] <-> cands = []) /\
    delegation s req order (execute_with_auction s now req).
Proof.
  intros Hd. pose proof (rank_nodup s now (request_class req) (request_required_model req) Hd) as Hnd.
  unfold execute_with_auction, cands, candidates.
  set (ranked := rank_for s now (request_class req) (request_required_model req)) in *.
  destruct ranked as [|x ranked'] eqn:Er.
  { exists []. split_and!; [constructor|done|done|done]. }
  rewrite <- Er in *. set (probed := (take _ ranked).*1).
  assert (Hp : probed `sublist_of` ranked.*1) by apply fmap_sublist, sublist_take.
  set (raw := omap (fresh_bid s now (request_class req) ranked) probed).
  assert (Hraw : raw.*1 `sublist_of` ranked.*1) by (etransitivity; [apply bids_sublist|done]).
  assert (Hperm : (sort_by by_score raw).*1 ≡ₚ raw.*1) by (f_equiv; apply sort_by_perm).
  eexists. split_and!; [..|apply attempt_in_order_delegation].
  - destruct (sort_by by_score raw); [done|]. rewrite Hperm. by eapply sublist_NoDup.
  - destruct (sort_by by_score raw); [done|]. rewrite Hperm. intros n Hn. by eapply sublist_subseteq.
  - rewrite Er. by destruct (sort_by by_score raw).
Qed.

(** ** Fan-out *)

(** The result of a delegation does not depend on the directory. *)
Lemma attempt_loop_result s1 s2 req nodes attempts :
  (attempt_loop s1 req nodes attempts).2 = (attempt_loop s2 req nodes attempts).2.
Proof.
  revert s1 s2 attempts. induction nodes as [|n nodes IH]; intros s1 s2 attempts; [done|]. simpl.
  destruct (execute_on n req) as [c|[]]; try done; try apply IH. destruct (is_transient _); [apply IH|done].
Qed.

Lemma attempt_in_order_config s req order : scheduler_config (attempt_in_order s req order).1 = scheduler_config s.
Proof.
  assert (Hloop : forall nodes s attempts, scheduler_config (attempt_loop s req nodes attempts).1 = scheduler_config s).
  { intros nodes. induction nodes as [|n nodes IH]; intros s0 attempts; [done|]. simpl.
    destruct (execute_on n req) as [c|[]]; try done; try by rewrite IH. destruct (is_transient _); [apply IH|done]. }
  destruct order; [done|apply Hloop].
Qed.

Lemma run_all_results s1 s2 work :
  scheduler_config s1 = scheduler_config s2 ->
  (run_all_requests s1 work).2 = (fun ro => (attempt_in_order s2 ro.1 ro.2).2) <$> work.
Proof.
  revert s1. induction work as [|[req order] work IH]; intros s1 Hc; [done|]. csimpl.
  pose proof (attempt_in_order_config s1 req order) as Hc1.
  destruct (attempt_in_order s1 req order) as [s1' r] eqn:E1. simpl in Hc1.
  rewrite <- (IH s1') by congruence. destruct (run_all_requests s1' work) as [s1'' rs]. simpl. f_equal.
  apply (f_equal snd) in E1. simpl in E1. rewrite <- E1. unfold attempt_in_order. destruct order; [done|].
  rewrite Hc. apply attempt_loop_result.
Qed.

(** Every request is delegated on its own, along a rotation of its candidates. *)
Lemma map_results s now reqs :
  (map_requests s now reqs).2 = imap (fun i req => (attempt_in_order s req (map_order s now i req)).2) reqs.
Proof. unfold map_requests. rewrite (run_all_results s s) by done. by rewrite fmap_imap. Qed.

Lemma map_order_perm s now i req : map_order s now i req ≡ₚ candidates s now req.
Proof.
  unfold map_order, rotate_left. destruct (candidates s now req) as [|n l]; [done|].
  set (k := i mod _). by rewrite Permutation_app_comm, take_drop.
Qed.

Lemma map_order_head s now i req (order := map_order s now i req) :
  head order = candidates s now req !! (i mod length order).
Proof.
  unfold order. rewrite (Permutation_length (map_order_perm s now i req)). unfold map_order, rotate_left.
  destruct (candidates s now req) as [|n l] eqn:E; [done|]. rewrite <- E.
  assert (Hlt : i mod length (candidates s now req) < length (candidates s now req)).
  { apply Nat.mod_upper_bound. by rewrite E. }
  set (k := i mod _) in *. destruct (lookup_lt_is_Some_2 _ _ Hlt) as [x Hx]. rewrite Hx.
  by rewrite (drop_S _ x k Hx).
Qed.
End failover.

(** ** The majority *)

Section majority.
Context (digest : string -> string).
Implicit Types (ss : list (NodeId * CompletedTask)).

(** The nodes with this hash of the output, in their order. *)
Definition group_of ss (h : string) : list NodeId := (filter (fun nc => digest (output nc.2) = h) ss).*1.

Lemma group_of_app ss ss' h : group_of (ss ++ ss') h = group_of ss h ++ group_of ss' h.
Proof. unfold group_of. by rewrite filter_app, fmap_app. Qed.

Lemma output_groups_lookup ss h :
  output_groups digest ss !! h = match group_of ss h with [] => None | g => Some g end.
Proof.
  unfold output_groups. induction ss as [|[n c] ss IH] using rev_ind; [simpl; by rewrite lookup_empty|].
  rewrite foldl_snoc. set (m := foldl _ ∅ ss) in *. simpl. rewrite group_of_app.
  destruct (decide (digest (output c) = h)) as [<-|Hne].
  - rewrite lookup_insert_eq, IH. unfold group_of at 3. rewrite filter_cons_True, filter_nil by done. simpl.
    destruct (group_of ss (digest (output c))); done.
  - rewrite lookup_insert_ne, IH by done. unfold group_of at 3. rewrite filter_cons_False, filter_nil by done.
    by rewrite app_nil_r.
Qed.

(** [h] leads: more nodes have it than any other hash. *)
Definition leads ss (h : string) : Prop :=
  group_of ss h <> [] /\ forall h', h' <> h -> length (group_of ss h') < length (group_of ss h).

Lemma filter_none {A} (P : A -> Prop) `{!forall x, Decision (P x)} (l : list A) : (forall x, x ∈ l -> ~ P x) -> filter P l = [].
Proof.
  intros Hn. induction l as [|x l IH]; [done|]. rewrite filter_cons_False by (apply Hn; by left).
  apply IH. intros y Hy. apply Hn. by right.
Qed.

Lemma filter_every {A} (P : A -> Prop) `{!forall x, Decision (P x)} (l : list A) : (forall x, x ∈ l -> P x) -> filter P l = l.
Proof.
  intros Hn. induction l as [|x l IH]; [done|]. rewrite filter_cons_True by (apply Hn; by left).
  f_equal. apply IH. intros y Hy. apply Hn. by right.
Qed.

Lemma filter_ext_elem {A} (P Q : A -> Prop) `{!forall x, Decision (P x), !forall x, Decision (Q x)} (l : list A) :
  (forall x, x ∈ l -> P x <-> Q x) -> filter P l = filter Q l.
Proof.
  intros Hpq. induction l as [|x l IH]; [done|]. rewrite !filter_cons.
  rewrite IH by (intros y Hy; apply Hpq; by right).
  destruct (decide (P x)) as [Hp|Hp], (decide (Q x)) as [Hq|Hq]; try done; exfalso; apply Hp || apply Hq; by apply Hpq; [left|].
Qed.

(** The others keep their groups. *)
Lemma group_of_others ss h h' :
  group_of (filter (fun nc => digest (output nc.2) <> h) ss) h' = if decide (h' = h) then [] else group_of ss h'.
Proof.
  unfold group_of. rewrite list_filter_filter. case_decide as Hh.
  - rewrite filter_none; [done|]. intros nc _. naive_solver.
  - f_equal. apply list_filter_iff. intros nc. naive_solver.
Qed.

Lemma groups_split ss h g :
  output_groups digest ss !! h = Some g ->
  (map_to_list (output_groups digest ss)).*2 ≡ₚ g :: (map_to_list (delete h (output_groups digest ss))).*2.
Proof. intros Hh. by rewrite <- (map_to_list_delete _ h g Hh). Qed.

Lemma groups_join ss : mjoin (map_to_list (output_groups digest ss)).*2 ≡ₚ ss.*1.
Proof.
  induction ss as [|[n c] ss IH] using rev_ind; [done|]. rewrite fmap_app. simpl. rewrite <- IH. clear IH.
  unfold output_groups. rewrite foldl_snoc. fold (output_groups digest ss). set (m := output_groups digest ss). simpl.
  set (h := digest (output c)). rewrite <- insert_delete_eq, map_to_list_insert by apply lookup_delete_eq. csimpl.
  destruct (m !! h) as [g|] eqn:E; simpl.
  - pose proof (groups_split ss h g E) as Hp. fold m in Hp. rewrite Hp. csimpl.
    by rewrite <- !(assoc (++)), (comm (++) [n]).
  - rewrite delete_id by done. by rewrite (comm (++)).
Qed.

Lemma groups_delete ss h :
  delete h (output_groups digest ss) = output_groups digest (filter (fun nc => digest (output nc.2) <> h) ss).
Proof.
  apply map_eq. intros h'. rewrite output_groups_lookup, group_of_others. case_decide as Hh.
  - subst h'. by rewrite lookup_delete_eq.
  - by rewrite lookup_delete_ne, output_groups_lookup.
Qed.

Lemma groups_elem ss g : g ∈ (map_to_list (output_groups digest ss)).*2 <-> exists h, g = group_of ss h /\ g <> [].
Proof.
  rewrite map_to_list_snd_elem. setoid_rewrite output_groups_lookup. split; intros [h Hh]; exists h.
  - destruct (group_of ss h); [done|]. by injection Hh as <-.
  - destruct Hh as [-> Hne]. by destruct (group_of ss h).
Qed.

Lemma max_list_spec l n : n ∈ l -> (forall m, m ∈ l -> m <= n) -> max_list l = n.
Proof.
  intros Hn Hall. apply Nat.le_antisymm.
  - clear Hn. induction l as [|m l IH]; simpl; [lia|]. apply Nat.max_lub; [apply Hall; by left|].
    apply IH. intros m' Hm'. apply Hall. by right.
  - clear Hall. induction Hn; simpl; lia.
Qed.

Lemma majority_leads ss h :
  leads ss h ->
  exists others, majority_by_output digest ss = Some (group_of ss h, others) /\
    others ≡ₚ (filter (fun nc => digest (output nc.2) <> h) ss).*1.
Proof.
  intros [Hne Hlead]. set (g := group_of ss h) in *.
  assert (Hh : output_groups digest ss !! h = Some g).
  { rewrite output_groups_lookup. fold g. by destruct g. }
  pose proof (groups_split ss h g Hh) as Hperm. rewrite groups_delete in Hperm.
  set (rest := (map_to_list (output_groups digest (filter (fun nc => digest (output nc.2) <> h) ss))).*2) in *.
  assert (Hrest : forall g', g' ∈ rest -> length g' < length g).
  { intros g' (h' & -> & Hg')%groups_elem. rewrite group_of_others in *. case_decide; [done|]. by apply Hlead. }
  unfold majority_by_output. set (groups := (map_to_list (output_groups digest ss)).*2) in *.
  assert (Hmax : max_list (length <$> groups) = length g).
  { apply max_list_spec.
    - rewrite Hperm. by left.
    - intros m. rewrite Hperm. csimpl. intros [->|(g' & -> & Hg')%list_elem_of_fmap]%elem_of_cons; [done|].
      specialize (Hrest g' Hg'). lia. }
  rewrite Hmax.
  assert (Hw : filter (fun g' => length g' = length g) groups = [g]).
  { apply Permutation_singleton_r. rewrite Hperm, filter_cons_True by done. rewrite filter_none; [done|].
    intros g' Hg'%Hrest. lia. }
  assert (Ho : filter (fun g' => length g' <> length g) groups ≡ₚ rest).
  { rewrite Hperm, filter_cons_False by (intros Hn; by apply Hn). rewrite filter_every; [done|]. intros g' Hg'%Hrest. lia. }
  rewrite Hw. destruct groups as [|g0 gs] eqn:Eg; [by apply Permutation_nil_l in Hperm|].
  eexists. split; [reflexivity|]. rewrite Ho. apply groups_join.
Qed.

(** No output leads when there is no majority. *)
Lemma majority_none ss h : majority_by_output digest ss = None -> ~ leads ss h.
Proof. intros Hn Hl. destruct (majority_leads ss h Hl) as (o & Hs & _). by rewrite Hn in Hs. Qed.

Lemma majority_some ss w o : majority_by_output digest ss = Some (w, o) -> exists h, leads ss h /\ w = group_of ss h.
Proof.
  unfold majority_by_output. set (groups := (map_to_list (output_groups digest ss)).*2).
  destruct groups as [|g0 gs] eqn:Eg; [done|]. rewrite <- Eg. set (best := max_list (length <$> groups)).
  destruct (filter (fun g => length g = best) groups) as [|w' [|]] eqn:Ef; [done| |done]. intros [= -> _].
  assert (Hw : w ∈ groups /\ length w = best).
  { assert (Hin : w ∈ filter (fun g => length g = best) groups) by (rewrite Ef; by left).
    by apply list_elem_of_filter in Hin as [? ?]. }
  destruct Hw as [Hw Hbest]. apply map_to_list_snd_elem in Hw as [h Hh]. exists h.
  assert (Hg : w = group_of ss h /\ w <> []).
  { rewrite output_groups_lookup in Hh. destruct (group_of ss h); [done|]. by injection Hh as <-. }
  destruct Hg as [Hg Hne]. split; [|done]. split; [by rewrite <- Hg|]. intros h' Hn. rewrite <- Hg.
  destruct (decide (group_of ss h' = [])) as [->|Hne']; [simpl; destruct w; [done|simpl; lia]|].
  pose proof (groups_split ss h w Hh) as Hperm. fold groups in Hperm.
  assert (Hin : group_of ss h' ∈ (map_to_list (delete h (output_groups digest ss))).*2).
  { apply map_to_list_snd_elem. exists h'. rewrite lookup_delete_ne, output_groups_lookup by done.
    by destruct (group_of ss h'). }
  assert (Hle : length (group_of ss h') <= best).
  { apply max_list_elem_of_le, list_elem_of_fmap. exists (group_of ss h'). split; [done|]. rewrite Hperm. by right. }
  destruct (decide (length (group_of ss h') = best)) as [Heq|?]; [|lia]. exfalso.
  assert (Hp : filter (fun g => length g = best) groups ≡ₚ
    w :: filter (fun g => length g = best) (map_to_list (delete h (output_groups digest ss))).*2)
    by (by rewrite Hperm at 1; rewrite filter_cons_True).
  rewrite Ef in Hp. apply Permutation_length in Hp. simpl in Hp. injection Hp as Hp.
  symmetry in Hp. apply nil_length_inv in Hp.
  assert (Hm : group_of ss h' ∈ filter (fun g => length g = best) (map_to_list (delete h (output_groups digest ss))).*2)
    by by apply list_elem_of_filter.
  rewrite Hp in Hm. by apply elem_of_nil in Hm.
Qed.

(** More than half of the answers lead. *)
Lemma half_leads ss h : length ss < 2 * length (group_of ss h) -> leads ss h.
Proof.
  intros Hl. split; [intros E; rewrite E in Hl; simpl in Hl; lia|]. intros h' Hne.
  assert (Hsum : length (group_of ss h) + length (group_of ss h') <= length ss); [|lia].
  clear Hl. unfold group_of. rewrite !length_fmap. induction ss as [|nc ss IH]; [done|]. rewrite !filter_cons.
  destruct (decide (digest (output nc.2) = h)), (decide (digest (output nc.2) = h')); simpl; try lia. congruence.
Qed.
End majority.

(** ** Redundant execution *)

Section redundant.
Context `{!ComputeNetwork} (digest : string -> string).
Implicit Types (s : Scheduler).

(** The nodes that answer, with what they return. *)
Definition successes (req : ExecuteRequest) (nodes : list NodeId) : list (NodeId * CompletedTask) :=
  omap (fun n => match execute_on n req with Ok c => Some (n, c) | Err _ => None end) nodes.

Lemma collect_runs_spec s req nodes :
  collect_runs s req nodes = (forget_failed s req nodes, failures req nodes, successes req nodes).
Proof.
  revert s. induction nodes as [|n nodes IH]; intros s; [done|]. simpl.
  unfold forget_failed, failures, successes in *. simpl. destruct (execute_on n req) as [c|e]; by rewrite IH.
Qed.

Lemma forget_failed_reputation s req nodes : reputation (forget_failed s req nodes) = reputation s.
Proof.
  unfold forget_failed. generalize (failures req nodes) as l. intros l. revert s.
  induction l as [|[n e] l IH]; intros s; [done|]. simpl. rewrite IH. by destruct e.
Qed.

Lemma successes_elem req nodes n c : (n, c) ∈ successes req nodes <-> n ∈ nodes /\ execute_on n req = Ok c.
Proof.
  unfold successes. rewrite list_elem_of_omap. split.
  - intros (n' & Hn & Heq). destruct (execute_on n' req) eqn:E; [|done]. by injection Heq as -> ->.
  - intros [Hn E]. exists n. by rewrite E.
Qed.

Lemma successes_nodup req nodes : NoDup nodes -> NoDup (successes req nodes).*1.
Proof.
  induction 1 as [|n nodes Hn Hnd IH]; [constructor|]. unfold successes in *. simpl.
  destruct (execute_on n req) as [c|]; [|done]. csimpl. apply NoDup_cons. split; [|done].
  intros ([n' c'] & Heq & Hin)%list_elem_of_fmap. simpl in Heq. subst n'. by apply successes_elem in Hin as [? _].
Qed.

(** The first success of a node is its only one. *)
Lemma find_success req nodes n c :
  (n, c) ∈ successes req nodes -> List.find (fun nc => bool_decide (nc.1 = n)) (successes req nodes) = Some (n, c).
Proof.
  intros Hin. destruct (List.find _ (successes req nodes)) as [[n' c']|] eqn:E.
  - apply List.find_some in E as [E Hn%bool_decide_eq_true]. simpl in Hn. subst n'.
    apply list_elem_of_In, successes_elem in E as [_ E]. apply successes_elem in Hin as [_ Hin]. congruence.
  - apply list_elem_of_In in Hin. apply (List.find_none _ _ E) in Hin. simpl in Hin.
    by rewrite bool_decide_true in Hin.
Qed.

(** Every node of a list gets its new standing once. *)
Lemma foldl_standing (f : float -> float) (l : list NodeId) (book : ReputationBook.t) n :
  NoDup l ->
  ReputationBook.factor (foldl (fun b m => <[m := f (ReputationBook.factor b m)]> b) book l) n =
  if decide (n ∈ l) then f (ReputationBook.factor book n) else ReputationBook.factor book n.
Proof.
  intros Hl. revert book. induction Hl as [|m l Hm Hl IH]; intros book; [done|]. simpl. rewrite IH.
  unfold ReputationBook.factor. destruct (decide (n = m)) as [->|Hne].
  - rewrite decide_False, decide_True by (done || by left). by rewrite lookup_insert_eq.
  - rewrite lookup_insert_ne by done. destruct (decide (n ∈ l)); destruct (decide (n ∈ m :: l)); set_solver.
Qed.

Definition rewarded (f : float) : float := f64_min (f64_add f (f64_lit 5 (-2))) (f64_lit 1 0).
Definition penalized (f : float) : float := f64_max (f64_mul f (f64_lit 5 (-1))) (f64_lit 5 (-2)).

(** The execution once some node has answered. *)
Lemma redundant_answered s now req k (nodes := take (Nat.max k 1) (candidates s now req)) (ss := successes req nodes) :
  ss <> [] ->
  execute_redundant digest s now req k =
  let s := forget_failed s req nodes in
  match majority_by_output digest ss with
  | None => (s, Some (Err Divergent))
  | Some (winners, others) =>
      let s := with_reputation s
        (foldl ReputationBook.penalize (foldl ReputationBook.reward (reputation s) winners) others) in
      match winners with
      | [] => (s, None)
      | winner :: _ =>
          match List.find (fun nc => bool_decide (nc.1 = winner)) ss with
          | Some (_, c) => (s, Some (Ok (mk_outcome (mk_delegated winner c) (length winners) (length ss) others)))
          | None => (s, None)
          end
      end
  end.
Proof.
  unfold execute_redundant, ss. fold nodes. clearbody nodes. destruct nodes as [|n ns]; [done|].
  rewrite collect_runs_spec. by destruct (successes req (n :: ns)).
Qed.

(** What the redundant execution returns when an output leads. *)
Lemma redundant_leads s now req k h (nodes := take (Nat.max k 1) (candidates s now req)) (ss := successes req nodes) :
  directory_ok (directory s) -> leads digest ss h ->
  exists s' out, execute_redundant digest s now req k = (s', Some (Ok out)) /\
    (executor (delegated out), completed (delegated out)) ∈ ss /\
    digest (output (completed (delegated out))) = h /\
    agreements out = length (group_of digest ss h) /\ responded out = length ss /\
    divergent out ≡ₚ (filter (fun nc => digest (output nc.2) <> h) ss).*1 /\
    forall n, ReputationBook.factor (reputation s') n =
      let f := ReputationBook.factor (reputation s) n in
      if decide (n ∈ group_of digest ss h) then rewarded f
      else if decide (n ∈ (filter (fun nc => digest (output nc.2) <> h) ss).*1) then penalized f else f.
Proof.
  intros Hd Hl. destruct (majority_leads digest ss h Hl) as (others & Hmaj & Ho).
  assert (Hnd : NoDup ss.*1).
  { apply successes_nodup. eapply sublist_NoDup; [|apply sublist_take]. by apply rank_nodup. }
  assert (Hsplit : ss.*1 ≡ₚ group_of digest ss h ++ others).
  { rewrite Ho. unfold group_of. rewrite <- fmap_app. f_equiv. symmetry. apply filter_app_complement. }
  rewrite Hsplit in Hnd. apply NoDup_app in Hnd as (Hw & Hdisj & Hoth).
  destruct (group_of digest ss h) as [|w ws] eqn:Eg; [by destruct Hl|].
  assert (Hwin : exists c, (w, c) ∈ ss /\ digest (output c) = h).
  { assert (Hin : w ∈ group_of digest ss h) by (rewrite Eg; by left).
    apply list_elem_of_fmap in Hin as ([w' c] & Heq & [Hc Hin]%list_elem_of_filter). simpl in Heq. subst w'. by exists c. }
  destruct Hwin as (c & Hwc & Hc).
  assert (Hne : ss <> []) by (intros E; rewrite E in Hwc; by apply elem_of_nil in Hwc).
  rewrite (redundant_answered s now req k Hne). fold nodes. fold ss. cbn zeta. rewrite Hmaj.
  pose proof (find_success req nodes w c Hwc) as Hf. fold ss in Hf. rewrite Hf.
  eexists _, _. split; [reflexivity|]. cbn [delegated executor completed agreements responded divergent].
  split_and!; [done|done|done|done|done|]. intros n. cbn [reputation with_reputation].
  rewrite (foldl_standing penalized) by done. rewrite (foldl_standing rewarded) by done.
  rewrite forget_failed_reputation. cbn zeta.
  destruct (decide (n ∈ w :: ws)) as [Hin|Hin].
  - rewrite decide_False; [done|]. by apply Hdisj.
  - destruct (decide (n ∈ others)) as [Hin'|Hin']; [rewrite decide_True|rewrite decide_False]; [done|by rewrite <- Ho|done|by rewrite <- Ho].
Qed.

(** It always returns. *)
Lemma redundant_returns s now req k : directory_ok (directory s) -> (execute_redundant digest s now req k).2 <> None.
Proof.
  intros Hd. set (ss := successes req (take (Nat.max k 1) (candidates s now req))).
  destruct (decide (ss = [])) as [Hss|Hss].
  - unfold execute_redundant. unfold ss in Hss. destruct (take _ _) as [|n ns]; [done|].
    by rewrite collect_runs_spec, Hss.
  - destruct (majority_by_output digest ss) as [[w o]|] eqn:Em.
    + destruct (majority_some digest _ _ _ Em) as (h & Hl & _).
      destruct (redundant_leads s now req k h Hd Hl) as (s' & out & -> & _). done.
    + rewrite (redundant_answered s now req k Hss). fold ss. by rewrite Em.
Qed.
End redundant.
