(* ===== verification/ComputeProperties.v ===== *)
(** * Properties of the compute layer

    The trigger engine over its ledger, and the scheduler over the network. *)

From S2P Require Import Prelude Json RustFloat Ledger TaskEngine TaskEngineInv Scheduler SchedulerInv.

(** ** A codec

    Records are countable, so they have a binary form that reads back. *)

#[local] Instance class_countable : Countable TaskClass.
Proof.
  refine (inj_countable' (fun c => match c with General => 0%N | Media => 1%N | Analytics => 2%N | Inference => 3%N end)
    (fun n => match n with 0%N => General | 1%N => Media | 2%N => Analytics | _ => Inference end) _).
  by intros [].
Defined.

#[local] Instance limits_countable : Countable ResourceLimits.
Proof.
  refine (inj_countable' (fun l => (max_memory_bytes l, limit_fuel l, timeout_ms l))
    (fun '(a, b, c) => mk_limits a b c) _). by intros [].
Defined.

#[local] Instance completed_countable : Countable CompletedTask.
Proof.
  refine (inj_countable' (fun c => (output c, fuel_consumed (metrics c), duration_ms (metrics c), peak_memory_bytes (metrics c)))
    (fun '(o, a, b, c) => mk_completed o (mk_metrics a b c)) _). by intros [? []].
Defined.

#[local] Instance state_countable : Countable TaskState.
Proof.
  refine (inj_countable'
    (fun s => match s with
              | Pending => inl None | Running d => inl (Some d) | Done n => inr (false, n) | Failed e => inr (true, e) end)
    (fun x => match x with
              | inl None => Pending | inl (Some d) => Running d | inr (false, n) => Done n | inr (true, e) => Failed e end) _).
  by intros [].
Defined.

Definition record_fields (r : TaskRecord) : list positive :=
  [encode (task_key r); encode (wasm_hash r); encode (entrypoint r); encode (class r); encode (limits r);
   encode (input r); encode (required_model r); encode (state r); encode (attempts r); encode (created_at_unix r);
   encode (updated_at_unix r); encode (result_of r)].

Definition record_of_fields (l : list positive) : option TaskRecord :=
  match l with
  | [k; w; e; c; l; i; q; st; a; cr; up; res] =>
      k ← decode k; w ← decode w; e ← decode e; c ← decode c; l ← decode l; i ← decode i; q ← decode q;
      st ← decode st; a ← decode a; cr ← decode cr; up ← decode up; res ← decode res;
      Some (mk_record k w e c l i q st a cr up res)
  | _ => None
  end.

#[local] Instance record_countable : Countable TaskRecord.
Proof.
  refine (inj_countable record_fields record_of_fields _). intros []. unfold record_fields, record_of_fields.
  repeat (rewrite decode_encode; cbn [mbind option_bind]). done.
Defined.

Fixpoint bits_of (p : positive) : string :=
  match p with
  | xH => ""
  | xO p => String.String "0" (bits_of p)
  | xI p => String.String "1" (bits_of p)
  end.

Fixpoint of_bits (s : string) : positive :=
  match s with
  | String.EmptyString => xH
  | String.String c s => if decide (c = "0"%char) then xO (of_bits s) else xI (of_bits s)
  end.

Lemma of_bits_of p : of_bits (bits_of p) = p.
Proof. induction p as [p IH|p IH|]; simpl; [by rewrite IH..|done]. Qed.

#[local] Instance bit_codec : TaskCodec := {
  to_stdvec r := Ok (bits_of (encode r));
  from_bytes b := match decode (of_bits b) with Some r => Ok r | None => Err "postcard"%string end
}.

#[local] Instance bit_codec_law : TaskCodecLaw.
Proof. split. intros r b [= <-]. simpl. by rewrite of_bits_of, decode_encode. Qed.

#[local] Instance memory_reliable : ReliableLedger MemoryLedger.t.
Proof.
  split; try done.
  - intros s k b. simpl. unfold MemoryLedger.create_if_absent. by case_decide.
  - intros s k e b. simpl. unfold MemoryLedger.compare_and_swap. by case_decide.
Qed.

(** ** Runs from a list of moves *)

Inductive Move :=
| Advance (i : nat) (reply : result DispatchError Delegated)
| Notify (address event_id payload : string)
| Requeue
| AddRule (rule : TriggerRule)
| Wait (secs : N).

Section moves.
Context {S : Type} `{!LedgerStore S, !TaskCodec}.
Context (config : TriggerConfig) (digest : string -> string).
Implicit Types (sys : System (S := S)).

Definition move sys (m : Move) : System :=
  match m with
  | Advance i reply =>
      match processes sys !! i with
      | Some p => run_process config digest sys (take i (processes sys)) p (drop (Datatypes.S i) (processes sys)) reply
      | None => sys
      end
  | Notify address event_id payload => spawn sys (Notifying event_id payload (matching (rules sys) address))
  | Requeue =>
      match needing_dispatch (store sys) (clock sys) with
      | Ok due => spawn sys (Requeueing due)
      | Err _ => sys
      end
  | AddRule rule => mk_system (store sys) (clock sys) (add_rule (rules sys) rule) (processes sys) (history sys)
  | Wait secs => mk_system (store sys) (clock sys + secs)%N (rules sys) (processes sys) (history sys)
  end.

Lemma move_step sys m : move sys m = sys \/ system_step config digest sys (move sys m).
Proof.
  destruct m as [i reply|address ev payload| |rule|secs]; simpl.
  - destruct (processes sys !! i) as [p|] eqn:E; [|by left]. right. apply step_process.
    by rewrite take_drop_middle.
  - right. apply step_notify.
  - destruct (needing_dispatch _ _) eqn:E; [right; by apply step_requeue|by left].
  - right. apply step_add_rule.
  - right. apply step_time. lia.
Qed.

Lemma moves_run sys ms : rtc (system_step config digest) sys (foldl move sys ms).
Proof.
  revert sys. induction ms as [|m ms IH]; intros sys; [done|]. simpl.
  destruct (move_step sys m) as [->|Hs]; [done|]. by eapply rtc_l.
Qed.

#[global] Instance timely_dec sys : Decision (timely sys).
Proof.
  destruct (decide (Forall (fun kr => match state kr.2 with Running d => (clock sys <=? d)%N | _ => true end = true)
    (in_flight (processes sys)))) as [Hf|Hf]; [left|right].
  - rewrite Forall_forall in Hf. intros k r d Hin Hr. specialize (Hf (k, r) Hin). simpl in Hf. rewrite Hr in Hf. by apply N.leb_le.
  - intros Ht. apply Hf, Forall_forall. intros [k r] Hin. simpl. destruct (state r) eqn:E; try done. apply N.leb_le. by eapply Ht.
Defined.

Fixpoint all_timely sys (ms : list Move) : bool :=
  match ms with
  | [] => true
  | m :: ms => bool_decide (timely sys) && all_timely (move sys m) ms
  end.

Lemma timely_moves_run sys ms : all_timely sys ms = true -> rtc (timely_step config digest) sys (foldl move sys ms).
Proof.
  revert sys. induction ms as [|m ms IH]; intros sys; [done|]. simpl.
  intros [Ht%bool_decide_eq_true Hms]%andb_true_iff. specialize (IH _ Hms).
  destruct (move_step sys m) as [Heq|Hs]; [by rewrite Heq in *|]. eapply rtc_l; [by split|done].
Qed.
End moves.

(** ** The trigger engine *)

(** C14. Over a reliable ledger with exact conditional writes, as long as no worker is
    overtaken by the deadline of its task: at most one worker has a task in flight;
    a task is dispatched at most [max_attempts] times; every dispatch carries the
    request that was claimed for the task; and a finished record never changes. *)
Theorem tasks_run_exclusively {S : Type} `{!LedgerStore S, !ExactLedger S, !TaskCodec, !TaskCodecLaw, !ReliableLedger S}
    (config : TriggerConfig) (digest : string -> string) (s : S) (now : N) (sys : System) :
  (0 < max_attempts config < 2 ^ 32)%N -> entries s = ∅ ->
  rtc (timely_step config digest) (start s now) sys ->
  NoDup (in_flight (processes sys)).*1 /\
  (forall k, (N.of_nat (dispatches k (history sys)) <= max_attempts config)%N) /\
  (forall k req, Dispatched k req ∈ history sys -> requested (history sys) k req) /\
  forall sys' k b r, rtc (timely_step config digest) sys sys' ->
    entries (store sys) !! k = Some b -> from_bytes b = Ok r -> ~ active r -> entries (store sys') !! k = Some b.
Proof.
  intros Hmax Hs Hrun. destruct (timely_run_inv config digest Hmax _ ∅ _ (start_inv config s now Hs) Hrun) as (m & Hi & _).
  split_and!.
  - apply (si_single _ _ _ Hi).
  - intros k. rewrite (si_count _ _ _ Hi). destruct (m !! k) as [r|] eqn:E; [|lia]. by destruct (si_record _ _ _ Hi k r E) as (_ & ? & _).
  - apply (si_dispatched _ _ _ Hi).
  - intros sys' k b r Hrun' Hb Hr Hn. destruct (timely_run_inv config digest Hmax _ m _ Hi Hrun') as (m' & Hi' & Hf).
    rewrite (si_store _ _ _ Hi), lookup_fmap in Hb. destruct (m !! k) as [r0|] eqn:E; [|done]. injection Hb as <-.
    rewrite from_bytes_of in Hr. injection Hr as ->. rewrite (si_store _ _ _ Hi'), lookup_fmap. by rewrite (Hf k r E Hn).
Qed.

Section example.
Local Open Scope string_scope.

Definition example_config : TriggerConfig := mk_config 3 60.
Definition example_spec : TaskSpec := mk_spec "wasm" "run" General (mk_limits 1024 1000 100) BestAvailable None.
Definition example_rule : TriggerRule := mk_rule "rule-1" "/store" example_spec.
Definition example_done : result DispatchError Delegated := Ok (mk_delegated "node" (mk_completed "out" (mk_metrics 1 1 1))).
Definition example_error : result DispatchError Delegated := Err (mk_dispatch_error false "busy").

(** A rule fires, its worker is refused once, and the requeued task succeeds. *)
Definition example_moves : list Move :=
  [AddRule example_rule; Notify "/store/a" "event" "payload"; Advance 0 example_done] ++
  replicate 6 (Advance 0 example_error) ++ [Requeue; Advance 1 example_done] ++ replicate 6 (Advance 1 example_done).
End example.

Lemma tasks_run_exclusively_witness :
  let sys := foldl (move example_config id) (start (∅ : MemoryLedger.t) 10) example_moves in
  NoDup (in_flight (processes sys)).*1 /\
  (N.of_nat (dispatches (dedup_key id "rule-1" "event") (history sys)) <= 3)%N /\
  length (history sys) = 3.
Proof.
  intros sys. destruct (tasks_run_exclusively example_config id (∅ : MemoryLedger.t) 10 sys) as (H1 & H2 & _).
  - by split.
  - done.
  - apply timely_moves_run. by vm_compute.
  - split_and!; [done|apply H2|by vm_compute].
Defined.

(** The bound on time is needed: [update] does not check that the task is still the
    worker's.  A worker that is refused after its deadline, when another has finished
    the task, puts the finished record back to pending; its input is already gone,
    and the next pass dispatches the task again with the empty input. *)
Section late_worker.
Local Open Scope string_scope.

Definition late_key : TaskKey := dedup_key id "rule-1" "event".

Definition finished_by_second : list Move :=
  [AddRule example_rule; Notify "/store/a" "event" "payload"; Advance 0 example_done; Advance 1 example_done] ++
  replicate 3 (Advance 0 example_done) ++ [Wait 100; Requeue; Advance 1 example_done; Advance 2 example_done] ++
  replicate 6 (Advance 1 example_done).

Definition refused_late : list Move :=
  replicate 3 (Advance 0 example_error) ++ [Requeue; Advance 0 example_done] ++ replicate 3 (Advance 0 example_done).

Definition state_at (sys : System (S := MemoryLedger.t)) (key : TaskKey) : option TaskState :=
  match ledger_get (store sys) key with Ok (Some r) => Some (state r) | _ => None end.

Lemma late_worker_revives :
  exists sys sys', rtc (system_step example_config id) (start (∅ : MemoryLedger.t) 10) sys /\
    rtc (system_step example_config id) sys sys' /\
    state_at sys late_key = Some (Done "node") /\ state_at sys' late_key = Some (Running 170) /\
    exists req, Dispatched late_key req ∈ history sys' /\ request_input req = "" /\
      ~ requested (history sys') late_key req.
Proof.
  set (sys := foldl (move example_config id) (start (∅ : MemoryLedger.t) 10) finished_by_second).
  set (sys' := foldl (move example_config id) sys refused_late).
  exists sys, sys'. split; [apply moves_run|]. split; [apply moves_run|]. split; [|split].
  - by vm_compute.
  - by vm_compute.
  - assert (Hd : match history sys' !! 3 with Some (Dispatched k q) => (k, request_input q) | _ => ("", "late") end =
                 (late_key, "")) by by vm_compute.
    assert (Hc : forallb (fun e => match e with Claimed _ _ r => negb (String.eqb (input r) "") | _ => true end)
                   (history sys') = true) by by vm_compute.
    clearbody sys'. destruct (history sys' !! 3) as [[|k req]|] eqn:E; try done. injection Hd as -> Hr.
    exists req. split; [by eapply list_elem_of_lookup_2|]. split; [done|].
    intros (rule & ev & r & Hin%list_elem_of_In & _ & <-). simpl in Hr.
    apply (proj1 (forallb_forall _ _) Hc) in Hin. by rewrite Hr in Hin.
Qed.
End late_worker.

Lemma string_length_app (s t : string) : String.length (s ++ t) = String.length s + String.length t.
Proof. induction s; simpl; [done|by f_equal]. Qed.

(** Rule ids and event ids of the same length are told apart by the separator. *)
Lemma separated_inj (s s' e e' : string) :
  String.length e = String.length e' ->
  (s ++ unit_separator ++ e)%string = (s' ++ unit_separator ++ e')%string -> s = s' /\ e = e'.
Proof.
  revert s'. induction s as [|c s IH]; intros [|c' s'] Hlen Heq.
  - split; [done|]. by injection Heq.
  - apply (f_equal String.length) in Heq. rewrite !string_length_app in Heq. simpl in Heq. lia.
  - apply (f_equal String.length) in Heq. rewrite !string_length_app in Heq. simpl in Heq. lia.
  - injection Heq as -> Heq. by destruct (IH s' Hlen Heq) as [-> ->].
Qed.

Lemma notify_step_claims {S : Type} `{!LedgerStore S, !ExactLedger S, !TaskCodec, !ReliableLedger S}
    config digest (s : S) now ev payload rule rest reply s' ps es :
  process_step config digest s now (Notifying ev payload (rule :: rest)) reply = (s', ps, es) ->
  (es = [Claimed (rule_id rule) ev (rule_record digest rule ev payload now)] \/
   es = [] /\ is_Some (entries s !! dedup_key digest (rule_id rule) ev)).
Proof.
  cbn [process_step]. unfold claim. set (r := rule_record digest rule ev payload now).
  pose proof (record_encodes (S := S) r) as Hr. destruct (to_stdvec r) as [b|]; [|done].
  pose proof (create_answers s (task_key r) b) as Ha. pose proof (create_exact s (task_key r) b) as He.
  destruct (store_create_if_absent s (task_key r) b) as [s1 [[]|]]; [..|done]; intros [= <- <- <-]; [by left|].
  right. split; [done|apply He].
Qed.

(** C27. A rule fires once per event: in every run, whatever the workers and the clock
    do, no rule is claimed twice for an event; and after its step over a reliable
    ledger, the rule is claimed for the event, if the digest has no collision with
    an earlier claim and event ids have one length. *)
Theorem trigger_fires_once {S : Type} `{!LedgerStore S, !ExactLedger S, !TaskCodec, !ReliableLedger S}
    (config : TriggerConfig) (digest : string -> string) (s : S) (now : N) (sys : System) :
  entries s = ∅ -> rtc (system_step config digest) (start s now) sys ->
  NoDup (claims (history sys)) /\
  forall before ev payload rule rest after reply,
    processes sys = before ++ Notifying ev payload (rule :: rest) :: after ->
    (forall re, re ∈ claims (history sys) -> String.length re.2 = String.length ev /\
      (dedup_key digest re.1 re.2 = dedup_key digest (rule_id rule) ev ->
       (re.1 ++ unit_separator ++ re.2)%string = (rule_id rule ++ unit_separator ++ ev)%string)) ->
    let sys' := run_process config digest sys before (Notifying ev payload (rule :: rest)) after reply in
    NoDup (claims (history sys')) /\ (rule_id rule, ev) ∈ claims (history sys').
Proof.
  intros Hs Hrun. pose proof (claims_run config digest s now sys Hs Hrun) as Hi.
  split; [by apply (claims_once digest)|]. intros before ev payload rule rest after reply Hp Hkeys sys'. split.
  - apply (claims_once digest). by eapply claims_step; [|apply step_process].
  - unfold sys', run_process. destruct (process_step _ _ _ _ _ _) as [[s' ps] es] eqn:E. simpl.
    unfold claims. rewrite omap_app. apply elem_of_app.
    destruct (notify_step_claims _ _ _ _ _ _ _ _ _ _ _ _ E) as [->|[-> Hk]]; [right; by left|left].
    apply (ci_keys _ _ Hi) in Hk. apply list_elem_of_fmap in Hk as (re & Hkey & Hre).
    destruct (Hkeys re Hre) as [Hlen Hcol]. destruct (separated_inj _ _ _ _ Hlen (Hcol (eq_sym Hkey))) as [<- <-].
    by destruct re.
Qed.

Lemma trigger_fires_once_witness :
  let sys := foldl (move example_config id) (start (∅ : MemoryLedger.t) 10)
               (finished_by_second ++ [Notify "/store/a" "event" "again"])%list in
  let p := Notifying "event" "again" [example_rule] in
  let sys' := run_process example_config id sys (take 1 (processes sys)) p [] example_done in
  claims (history sys) = [("rule-1", "event")]%string /\ processes sys = (take 1 (processes sys) ++ [p])%list /\
  NoDup (claims (history sys')) /\ ("rule-1", "event")%string ∈ claims (history sys').
Proof.
  intros sys p sys'. assert (Hc : claims (history sys) = [("rule-1", "event")]%string) by by vm_compute.
  assert (Hp : processes sys = (take 1 (processes sys) ++ [p])%list) by by vm_compute.
  split; [exact Hc|]. split; [exact Hp|].
  destruct (trigger_fires_once example_config id (∅ : MemoryLedger.t) 10 sys) as [_ H]; [done|apply moves_run|].
  refine (H _ _ _ _ _ _ example_done Hp _).
  rewrite Hc. intros re ->%list_elem_of_singleton. split; [reflexivity|]. intros _. reflexivity.
Defined.

(** ** The scheduler *)


Section example_network.
Local Open Scope string_scope.

Definition example_vector (n : NodeId) (load : N) : CapabilityVector :=
  mk_vector n 4 X86_64 8192 [] load 4096 false None 0 2 [General] [] [] [] 0.

(** The node that looks best is gone; one of the other three answers wrongly. *)
Definition example_network : ComputeNetwork := {|
  execute_on n _ := if decide (n = "a") then Err Timeout
                    else Ok (mk_completed (if decide (n = "c") then "bad" else "good") (mk_metrics 1 1 1));
  probe n _ := Ok (mk_probe true 1 50 4096)
|}.

Definition example_scheduler : Scheduler :=
  mk_scheduler (foldl (fun d v => CapabilityDirectory.upsert d 5 v) ∅
      [example_vector "a" 10; example_vector "b" 40; example_vector "c" 20; example_vector "d" 30; example_vector "me" 0])
    ∅ "me" (mk_scheduler_config 30 3 2 default_weights).

Definition example_request : ExecuteRequest := mk_request "wasm" "run" General (mk_limits 1024 1000 100) "payload" None.

Lemma example_directory_ok : directory_ok (directory example_scheduler).
Proof. simpl. repeat apply upsert_ok. done. Qed.
End example_network.

#[local] Existing Instance example_network.


(** C28. The trigger engine over the scheduler: a claimed task is finished with the output
    that an eligible node returned for its request; it is given up when an eligible
    node reports a deterministic error, or its attempts are used up; otherwise it is
    tried again, and then every node that was tried failed in a way of its own. *)
Theorem worker_verdict `{!ComputeNetwork} (config : TriggerConfig) (show : ScheduleError -> string) (s : Scheduler)
    (now : N) (r : TaskRecord) (req := request_of r)
    (tried := take (Nat.max (config_max_attempts (scheduler_config s)) 1) (candidates s now req)) :
  directory_ok (directory s) ->
  match verdict_of config r (dispatch show s now req).2 with
  | Finished d => eligible s now (class r) (required_model r) (executor d) /\
      execute_on (executor d) req = Ok (completed d)
  | GivenUp _ => (max_attempts config <= attempts r)%N \/
      exists n e, eligible s now (class r) (required_model r) n /\
        execute_on n req = Err (TaskFailure e) /\ is_transient e = false
  | Retry => (attempts r < max_attempts config)%N /\ Forall (passed_over req) tried
  end.
Proof.
  intros Hd. assert (Hel : forall before n after, tried = before ++ n :: after ->
    eligible s now (class r) (required_model r) n).
  { intros before n after Ht. apply (rank_eligible s now (class r) (required_model r) n Hd).
    assert (Hn : n ∈ tried) by (rewrite Ht; set_solver). unfold tried in Hn. eapply sublist_subseteq; [apply sublist_take|exact Hn]. }
  pose proof (attempt_in_order_delegation s req (candidates s now req)) as Hdel. unfold dispatch, execute.
  destruct (attempt_in_order s req (candidates s now req)) as [s' [d|e]]; unfold delegation in Hdel; fold tried in Hdel; simpl in Hdel |- *.
  - destruct Hdel as (before & after & Ht & _ & Hrun & _). eauto.
  - destruct e as [|n e|l|]; simpl.
    + destruct Hdel as [Hnil _]. destruct (N.leb_spec (max_attempts config) (attempts r)); [by left|].
      split; [done|]. unfold tried. by rewrite Hnil, take_nil.
    + destruct Hdel as (before & after & Ht & _ & Hrun & Htr & _). right. eauto 6.
    + destruct Hdel as (_ & Hall & _). by destruct (N.leb_spec (max_attempts config) (attempts r)); [left|split].
    + done.
Qed.

Lemma worker_verdict_witness :
  let r := running (pending 1 "key" "wasm" "run" General (mk_limits 1024 1000 100) "payload" None) 60 2 in
  verdict_of example_config r (dispatch (fun _ => "error"%string) example_scheduler 6 (request_of r)).2 =
    Finished (mk_delegated "c" (mk_completed "bad" (mk_metrics 1 1 1))) /\
  eligible example_scheduler 6 General None "c".
Proof.
  intros r.
  assert (Hv : verdict_of example_config r (dispatch (fun _ => "error"%string) example_scheduler 6 (request_of r)).2 =
    Finished (mk_delegated "c" (mk_completed "bad" (mk_metrics 1 1 1)))) by by vm_compute.
  split; [exact Hv|].
  pose proof (worker_verdict example_config (fun _ => "error"%string) example_scheduler 6 r example_directory_ok) as H.
  rewrite Hv in H. exact (proj1 H).
Defined.

(** C25. Redundant execution never panics.  When more than half of the nodes that answer
    return an output, and the digest tells it from the other answers, that output is
    the result, with the exact counts of answers and agreements; exactly the nodes
    that disagree are reported and lose standing, and exactly those that agree gain
    it. *)
Theorem redundant_majority `{!ComputeNetwork} (digest : string -> string) (s : Scheduler) (now : N)
    (req : ExecuteRequest) (k : nat) (good : string)
    (answers := successes req (take (Nat.max k 1) (candidates s now req)))
    (agree := filter (fun nc => output nc.2 = good) answers)
    (differ := filter (fun nc => output nc.2 <> good) answers) :
  directory_ok (directory s) ->
  (execute_redundant digest s now req k).2 <> None /\
  (length answers < 2 * length agree ->
   (forall nc, nc ∈ answers -> digest (output nc.2) = digest good -> output nc.2 = good) ->
   exists s' out, execute_redundant digest s now req k = (s', Some (Ok out)) /\
     output (completed (delegated out)) = good /\
     (executor (delegated out), completed (delegated out)) ∈ answers /\
     agreements out = length agree /\ responded out = length answers /\ divergent out ≡ₚ differ.*1 /\
     forall n, ReputationBook.factor (reputation s') n =
       let f := ReputationBook.factor (reputation s) n in
       if decide (n ∈ agree.*1) then rewarded f else if decide (n ∈ differ.*1) then penalized f else f).
Proof.
  intros Hd. split; [by apply redundant_returns|]. intros Hmaj Hcol.
  assert (Hiff : forall nc, nc ∈ answers -> digest (output nc.2) = digest good <-> output nc.2 = good).
  { intros nc Hnc. split; [by apply Hcol|by intros ->]. }
  assert (Hagree : filter (fun nc => digest (output nc.2) = digest good) answers = agree).
  { apply filter_ext_elem. done. }
  assert (Hdiffer : filter (fun nc => digest (output nc.2) <> digest good) answers = differ).
  { apply filter_ext_elem. intros nc Hnc. by rewrite Hiff. }
  assert (Hg : group_of digest answers (digest good) = agree.*1) by (unfold group_of; by rewrite Hagree).
  assert (Hl : leads digest answers (digest good)) by (apply half_leads; rewrite Hg, length_fmap; lia).
  destruct (redundant_leads digest s now req k (digest good) Hd Hl) as (s' & out & Hrun & Hin & Hout & Hag & Hres & Hdiv & Hrep).
  fold answers in Hin, Hout, Hag, Hres, Hdiv, Hrep. rewrite Hdiffer in Hdiv. rewrite Hg in Hag.
  exists s', out. split_and!; [done|by apply (Hcol _ Hin)|done|by rewrite Hag, length_fmap|done|done|].
  intros n. rewrite Hrep. by rewrite Hg, Hdiffer.
Qed.

Lemma redundant_majority_witness :
  exists s' out, execute_redundant id example_scheduler 6 example_request 4 = (s', Some (Ok out)) /\
    output (completed (delegated out)) = "good"%string /\ agreements out = 2 /\ responded out = 3 /\
    divergent out ≡ₚ ["c"%string].
Proof.
  destruct (redundant_majority id example_scheduler 6 example_request 4 "good" example_directory_ok) as [_ H].
  destruct H as (s' & out & H1 & H2 & _ & H4 & H5 & H6 & _).
  - vm_compute. lia.
  - done.
  - exists s', out. split; [exact H1|]. split; [exact H2|].
    split; [rewrite H4; by vm_compute|]. split; [rewrite H5; by vm_compute|]. rewrite H6. by vm_compute.
Defined.
