(* ===== verification/AccessControl.v ===== *)
(** * Access control

    [access_control/]: the options of a controller, the three controllers with the
    trait they implement, and the helpers of [mod.rs].  The simple controller keeps
    its lists in memory, the iroh controller has one list of writers, and the
    controller of the database keeps its lists in a key-value store, which the
    adapter of [mod.rs] lays over an operation log.

    A permission map is a map from capabilities to lists of keys.  The options of a
    controller hold it behind a shared reference, so an operation that changes the
    options returns them.  The check of a signature, the binary codec, the blobs of
    the network and the hash of an entry are parameters. *)

From S2P Require Import Prelude LamportClock Entry Log StoreIndex Utf8 RustString.

Local Open Scope string_scope.

Abbreviation Permissions := (gmap string (list string)).

(** [keys.contains(k)] *)
Definition contains (keys : list string) (k : string) : bool := bool_decide (k ∈ keys).

(** [if !keys.contains(k) { keys.push(k) }] *)
Definition push_new (keys : list string) (k : string) : list string :=
  if contains keys k then keys else (keys ++ [k])%list.

(** [keys.retain(|x| x != k)] *)
Definition retain_others (k : string) (keys : list string) : list string := filter (fun x => x <> k) keys.

(** ** Options *)

Module Options.
Record t := mk {
  skip_manifest : bool;
  address : Hash;
  get_type : string;
  name : string;
  access : Permissions
}.

Definition default : t := mk false zero_hash "" "" ∅.
Definition new (addr : Hash) (skip : bool) (manifest_type : string) : t := mk skip addr manifest_type "" ∅.
Definition new_simple (manifest_type : string) (acc : Permissions) : t := mk true zero_hash manifest_type "" acc.
Definition set_type (self : t) (ty : string) : t :=
  mk (skip_manifest self) (address self) ty (name self) (access self).
Definition set_access (self : t) (role : string) (allowed : list string) : t :=
  mk (skip_manifest self) (address self) (get_type self) (name self) (<[role := allowed]> (access self)).
Definition get_access (self : t) (role : string) : option (list string) := access self !! role.

Definition read_only_replication (writers : list string) : t :=
  new_simple "simple" (<["read" := ["*"]]> (<["write" := writers]> ∅)).
End Options.

(** ** The trait *)

(** What a store asks of a controller.  [verify] is the identity provider's check of
    the signatures of an identity. *)
Class AccessController (C : Type) := {
  get_authorized_by_role : C -> string -> result string (list string);
  ac_grant : C -> string -> string -> C * result string unit;
  ac_revoke : C -> string -> string -> C * result string unit;
  can_append : (Identity.t -> result string unit) -> C -> Entry.t -> result string unit
}.

(** ** The simple controller *)

Module SimpleAccessController.
Abbreviation t := Permissions.

Definition ensure (capability : string) (self : t) : t :=
  match self !! capability with Some _ => self | None => <[capability := []]> self end.

Definition new (initial_keys : option t) : t :=
  ensure "admin" (ensure "write" (ensure "read" (default ∅ initial_keys))).

Definition from_options (params : Options.t) : t := Options.access params.

Definition list_keys (self : t) (capability : string) : list string := default [] (self !! capability).

Definition has_capability (self : t) (capability key_id : string) : bool :=
  match self !! capability with
  | Some keys => contains keys "*" || contains keys key_id
  | None => false
  end.

Definition empty_capability : string := "Capability cannot be empty".

Definition clear_capability (self : t) (capability : string) : t * result string unit :=
  if decide (capability = "") then (self, Err empty_capability)
  else match self !! capability with
       | Some _ => (<[capability := []]> self, Ok tt)
       | None => (self, Ok tt)
       end.

Definition get_stats (self : t) : gmap string nat := length <$> self.

Definition is_capability_empty (self : t) (capability : string) : bool :=
  match self !! capability with Some keys => bool_decide (keys = []) | None => true end.

Definition total_permissions (self : t) : nat := sum_list (length <$> (map_to_list self).*2).

Definition import_permissions (self permissions : t) : t * result string unit := (permissions, Ok tt).

Definition grant_multiple (self : t) (capability : string) (key_ids : list string) : t * result string unit :=
  if decide (capability = "") then (self, Err empty_capability)
  else
    let keys := default [] (self !! capability) in
    (<[capability := foldl (fun keys k => if decide (k = "") then keys else push_new keys k) keys key_ids]> self, Ok tt).

Definition revoke_multiple (self : t) (capability : string) (key_ids : list string) : t * result string unit :=
  if decide (capability = "") then (self, Err empty_capability)
  else match self !! capability with
       | Some keys =>
           let keys := foldl (fun keys k => retain_others k keys) keys key_ids in
           (if decide (keys = []) then delete capability self else <[capability := keys]> self, Ok tt)
       | None => (self, Ok tt)
       end.

Definition clone_capability (self : t) (source target : string) : t * result string unit :=
  if decide (source = "" \/ target = "") then (self, Err "Source and target capabilities cannot be empty")
  else match self !! source with
       | Some keys => (<[target := keys]> self, Ok tt)
       | None => (self, Err ("Source capability '" ++ source ++ "' not found"))
       end.

Definition authorized_by_role (self : t) (role : string) : result string (list string) :=
  if decide (role = "") then Err "Role cannot be empty" else Ok (default [] (self !! role)).

Definition grant (self : t) (capability key_id : string) : t * result string unit :=
  if decide (capability = "") then (self, Err empty_capability)
  else if decide (key_id = "") then (self, Err "Key ID cannot be empty")
  else (<[capability := push_new (default [] (self !! capability)) key_id]> self, Ok tt).

Definition revoke (self : t) (capability key_id : string) : t * result string unit :=
  if decide (capability = "") then (self, Err empty_capability)
  else if decide (key_id = "") then (self, Err "Key ID cannot be empty")
  else match self !! capability with
       | Some keys =>
           let rest := retain_others key_id keys in
           (if decide (length rest < length keys /\ rest = []) then delete capability self
            else <[capability := rest]> self, Ok tt)
       | None => (self, Ok tt)
       end.

Definition load (self : t) (address : string) : result string unit :=
  if decide (address = "") then Err "Address cannot be empty" else Ok tt.

Definition save (self : t) : Options.t :=
  foldl (fun o ck => Options.set_access o ck.1 ck.2) (Options.set_type Options.default "simple") (map_to_list self).

(** The three checks of a signature differ in their message. *)
Definition verified (verify : Identity.t -> result string unit) (who : Identity.t) (label : string) : result string unit :=
  match verify who with
  | Ok _ => Ok tt
  | Err e => Err ("Invalid identity signature" ++ label ++ ": " ++ e)
  end.

Definition can_append (verify : Identity.t -> result string unit) (self : t) (entry : Entry.t) : result string unit :=
  let who := Entry.get_identity entry in
  let id := Identity.id who in
  let write_keys := default [] (self !! "write") in
  let admin_keys := default [] (self !! "admin") in
  if contains write_keys "*" then verified verify who ""
  else if contains write_keys id then verified verify who (" for authorized key " ++ id)
  else if contains admin_keys "*" || contains admin_keys id then verified verify who (" for admin key " ++ id)
  else Err ("Access denied: identity " ++ id ++ " not authorized for write operations").

#[global] Instance simple_controller : AccessController t := {
  get_authorized_by_role := authorized_by_role;
  ac_grant := grant;
  ac_revoke := revoke;
  can_append := can_append
}.
End SimpleAccessController.

(** ** The iroh controller *)

(** The blobs of the network and the CBOR codec. *)
Class AccessBlobs := {
  cat_bytes : string -> result string string;
  add_bytes : string -> result string string;
  hex_decode_hash : string -> result string Hash;
  hex_of_hash : Hash -> string;
  hash_to_string : Hash -> string;
  manifest_of_cbor : string -> result string (string * Options.t);
  access_of_cbor : string -> result string (list string);
  access_to_cbor : list string -> result string string
}.

Module IrohAccessController.
(** [write_access] *)
Record t := mk { write_access : list string }.

(** The options are shared with the caller, who sees the default list. *)
Definition new (identity_id : string) (params : Options.t) : Options.t * t :=
  let params := match Options.get_access params "write" with
                | None => Options.set_access params "write" [identity_id]
                | Some _ => params
                end in
  (params, mk (default [] (Options.get_access params "write"))).

Definition authorized_by_role (self : t) (role : string) : result string (list string) :=
  if decide (role = "admin" \/ role = "write") then Ok (write_access self) else Ok [].

Definition unsupported (capability : string) : string :=
  "IrohAccessController only supports 'write' capability, got '" ++ capability ++ "'".

Definition grant (self : t) (capability key_id : string) : t * result string unit :=
  if decide (capability = "write") then (mk (push_new (write_access self) key_id), Ok tt)
  else (self, Err (unsupported capability)).

Definition revoke (self : t) (capability key_id : string) : t * result string unit :=
  if decide (capability = "write") then (mk (retain_others key_id (write_access self)), Ok tt)
  else (self, Err (unsupported capability)).

Fixpoint append_loop (verify : Identity.t -> result string unit) (who : Identity.t) (allowed : list string) :
    result string unit :=
  match allowed with
  | [] => Err "Key does not have write permission"
  | k :: allowed =>
      if decide (k = Identity.id who \/ k = "*") then verify who else append_loop verify who allowed
  end.

Definition can_append (verify : Identity.t -> result string unit) (self : t) (entry : Entry.t) : result string unit :=
  append_loop verify (Entry.get_identity entry) (write_access self).

Definition load `{!AccessBlobs} (self : t) (address : string) : t * result string unit :=
  match (let? hash := hex_decode_hash address in
         let? manifest_data := cat_bytes (hex_of_hash hash) in
         let? manifest := manifest_of_cbor manifest_data in
         let? access_data := cat_bytes (hash_to_string (Options.address manifest.2)) in
         access_of_cbor access_data) with
  | Ok keys => (mk keys, Ok tt)
  | Err e => (self, Err e)
  end.

Definition save `{!AccessBlobs} (self : t) : result string Options.t :=
  let? bytes := access_to_cbor (write_access self) in
  let? hash := add_bytes bytes in
  let? hash := hex_decode_hash hash in
  Ok (Options.new hash false "iroh").

(** The methods of the trait, which a store calls: readers are the writers, and the
    signature is not checked. *)
Definition trait_authorized_by_role (self : t) (role : string) : result string (list string) :=
  if decide (role = "write" \/ role = "read" \/ role = "admin") then Ok (write_access self) else Ok [].

Definition trait_can_append (verify : Identity.t -> result string unit) (self : t) (entry : Entry.t) :
    result string unit :=
  let id := Identity.id (Entry.get_identity entry) in
  if contains (write_access self) "*" || contains (write_access self) id then Ok tt
  else Err ("Access denied: identity " ++ id ++ " not authorized for write operations").

#[global] Instance iroh_controller : AccessController t := {
  get_authorized_by_role := trait_authorized_by_role;
  ac_grant := grant;
  ac_revoke := revoke;
  can_append := trait_can_append
}.
End IrohAccessController.

(** ** The controller of the database *)

(** [KeyValueStore], as far as the controller uses it. *)
Class KvStore (K : Type) := {
  kv_all : K -> gmap string string;
  kv_put : K -> string -> string -> K * result string unit;
  kv_delete : K -> string -> K * result string unit
}.

(** [guardian::serializer] on lists of keys. *)
Class KeysCodec := {
  serialize_keys : list string -> result string string;
  deserialize_keys : string -> result string (list string)
}.

Module GuardianDBAccessController.
Section controller.
Context {K : Type} `{!KvStore K, !KeysCodec}.

Record t := mk { kv_store : option K; options : Options.t }.

Definition with_store (self : t) (kv : K) : t := mk (Some kv) (options self).

(** The loop over the stored lists. *)
Fixpoint decode_roles (l : list (string * string)) (acc : gmap string (gset string)) :
    result string (gmap string (gset string)) :=
  match l with
  | [] => Ok acc
  | (role, bytes) :: l =>
      let? keys := deserialize_keys bytes in
      decode_roles l (<[role := default ∅ (acc !! role) ∪ list_to_set keys]> acc)
  end.

(** Writers are also administrators. *)
Definition writers_to_admins (auth : gmap string (gset string)) : gmap string (gset string) :=
  match auth !! "write" with
  | Some write_keys => <["admin" := default ∅ (auth !! "admin") ∪ write_keys]> auth
  | None => auth
  end.

Definition get_authorizations (self : t) : result string (gmap string (list string)) :=
  match kv_store self with
  | None => Ok ∅
  | Some kv =>
      let? auth := decode_roles (map_to_list (kv_all kv)) ∅ in
      Ok (elements <$> writers_to_admins auth)
  end.

Definition authorized_by_role (self : t) (role : string) : result string (list string) :=
  let? auth := get_authorizations self in Ok (default [] (auth !! role)).

Definition can_append (verify : Identity.t -> result string unit) (self : t) (entry : Entry.t) : result string unit :=
  let? write_access := authorized_by_role self "write" in
  let? admin_access := authorized_by_role self "admin" in
  let access := (list_to_set (write_access ++ admin_access)%list : gset string) in
  let who := Entry.get_identity entry in
  if decide (Identity.id who ∈ access \/ "*" ∈ access) then let? _ := verify who in Ok tt
  else Err "Not authorized".

Definition not_initialized : string := "kv_store not initialized".

Definition stored (self : t) (r : K * result string unit) (label : string) : t * result string unit :=
  (with_store self r.1, match r.2 with Ok _ => Ok tt | Err e => Err (label ++ e) end).

Definition grant (self : t) (capability key_id : string) : t * result string unit :=
  match kv_store self with
  | None => (self, Err not_initialized)
  | Some kv =>
      match authorized_by_role self capability with
      | Err e => (self, Err e)
      | Ok keys =>
          let capabilities := elements ({[key_id]} ∪ list_to_set keys : gset string) in
          match serialize_keys capabilities with
          | Err e => (self, Err e)
          | Ok bytes => stored self (kv_put kv capability bytes) "Error saving to store: "
          end
      end
  end.

Definition revoke (self : t) (capability key_id : string) : t * result string unit :=
  match kv_store self with
  | None => (self, Err not_initialized)
  | Some kv =>
      match authorized_by_role self capability with
      | Err e => (self, Err e)
      | Ok keys =>
          match retain_others key_id keys with
          | [] => stored self (kv_delete kv capability) "Error removing permissions: "
          | capabilities =>
              match serialize_keys capabilities with
              | Err e => (self, Err e)
              | Ok bytes => stored self (kv_put kv capability bytes) "Error persisting permissions: "
              end
          end
      end
  end.

(** [new], with the store that was opened. *)
Fixpoint grant_all (self : t) (keys : list string) : t * result string unit :=
  match keys with
  | [] => (self, Ok tt)
  | k :: keys =>
      match grant self "write" k with
      | (self, Ok _) => grant_all self keys
      | (self, Err e) => (self, Err e)
      end
  end.

Definition new (kv : K) (params : Options.t) : result string t :=
  match grant_all (mk (Some kv) params) (default [] (Options.get_access params "write")) with
  | (self, Ok _) => Ok self
  | (_, Err e) => Err e
  end.

(** The list of writers that [load] gives to the store it opens, and [close]. *)
Definition load_write_access (self : t) : list string :=
  match Options.get_access (options self) "admin" with
  | Some (k :: keys) => k :: keys
  | _ => ["*"]
  end.

Definition close (self : t) : t := mk None (options self).

#[global] Instance guardian_controller : AccessController t := {
  get_authorized_by_role := authorized_by_role;
  ac_grant := grant;
  ac_revoke := revoke;
  can_append := can_append
}.
End controller.
Arguments t : clear implicits.
End GuardianDBAccessController.

(** ** The key-value store over a log *)

(** [String::from_utf8_lossy]: every maximal part of an invalid sequence becomes one
    replacement character. *)
Section lossy.
Local Open Scope N_scope.

(** How many of the bytes after an invalid lead byte belong to its sequence. *)
Definition escaped (lo hi : N) (c : N) : bool := in_range (escape_base + lo) (escape_base + hi) c.

Definition invalid_rest (lead : N) (l : list N) : nat :=
  let second lo hi :=
    match l with c :: _ => escaped lo hi c | [] => false end in
  let third := match l with _ :: c :: _ => escaped 128 191 c | _ => false end in
  let x := lead - escape_base in
  if in_range 224 239 x then
    if second (if x =? 224 then 160 else 128) (if x =? 237 then 159 else 191) then 1%nat else 0%nat
  else if in_range 240 244 x then
    if second (if x =? 240 then 144 else 128) (if x =? 244 then 143 else 191) then (if third then 2 else 1)%nat else 0%nat
  else 0%nat.

Fixpoint lossy_chars (skip : nat) (l : list N) : list N :=
  match l with
  | [] => []
  | c :: l =>
      match skip with
      | S skip => lossy_chars skip l
      | O => if c <? escape_base then c :: lossy_chars 0 l else 65533 :: lossy_chars (invalid_rest c l) l
      end
  end.
End lossy.

Definition from_utf8_lossy (bytes : string) : string := of_chars (lossy_chars 0 (chars bytes)).

Module KeyValueStoreAdapter.
Section adapter.
Context `{!PayloadFormat} (hash_entry : Entry.t -> option Hash).

Definition apply_operation (m : gmap string string) (op : Operation.t) : gmap string string :=
  match Operation.key op with
  | Some key =>
      if decide (Operation.op op = "PUT") then <[key := Operation.value op]> m
      else if decide (Operation.op op = "DELETE") then delete key m
      else m
  | None => m
  end.

(** The payload is decoded as it is, without base64. *)
Definition all (log : Log.t) : gmap string string :=
  foldl (fun m e => match unmarshal (Entry.payload e) with Some op => apply_operation m op | None => m end)
    ∅ (Log.values log).

Fixpoint find_latest (key : string) (es : list Entry.t) : option string :=
  match es with
  | [] => None
  | e :: es =>
      match unmarshal (Entry.payload e) with
      | Some op =>
          if decide (Operation.key op = Some key) then
            if decide (Operation.op op = "PUT") then Some (Operation.value op)
            else if decide (Operation.op op = "DELETE") then None
            else find_latest key es
          else find_latest key es
      | None => find_latest key es
      end
  end.

Definition get (log : Log.t) (key : string) : option string := find_latest key (reverse (Log.values log)).

(** [None] is the panic of [append] when the client cannot hash the entry. *)
Definition write (log : Log.t) (op : Operation.t) : option (Log.t * result string unit) :=
  match marshal op with
  | None => Some (log, Err "Failed to serialize operation")
  | Some bytes =>
      match Log.append hash_entry log (from_utf8_lossy bytes) None with
      | Some (log, _) => Some (log, Ok tt)
      | None => None
      end
  end.

Definition put (log : Log.t) (key value : string) : option (Log.t * result string unit) :=
  write log (Operation.new (Some key) "PUT" (Some value)).
Definition delete (log : Log.t) (key : string) : option (Log.t * result string unit) :=
  write log (Operation.new (Some key) "DELETE" None).
End adapter.
End KeyValueStoreAdapter.

(** ** Helpers of [mod.rs] *)

Definition ensure_address (addr : string) : string :=
  let addr := trim addr in
  if decide (addr = "") then "_access"
  else if decide (last (split (code "/") addr) = Some "_access") then addr
  else match strip_suffix "/" addr with
       | Some _ => addr ++ "_access"
       | None => addr ++ "/" ++ "_access"
       end.

Fixpoint contains_str (s p : string) : bool :=
  String.prefix p s || match s with String.EmptyString => false | String.String _ s => contains_str s p end.

Definition validate_address (addr : string) : result string unit :=
  if decide (trim addr = "") then Err "Address cannot be empty"
  else if contains_str addr ".." || contains_str addr "//" then Err "Address contains invalid path components"
  else if decide (1000 < String.length addr) then Err "Address is too long (max 1000 characters)"
  else Ok tt.

Definition infer_controller_type (addr : string) (params : Options.t) : string :=
  if decide (Options.get_type params <> "") then Options.get_type params
  else if contains_str addr "/guardian/" || contains_str addr "guardian_" then "guardian"
  else if contains_str addr "/iroh/" || contains_str addr "iroh_" then "iroh"
  else "simple".

Definition list_available_types : list string := ["simple"; "guardian"; "iroh"].
Definition is_supported_type `{!Unicode} (controller_type : string) : bool :=
  contains list_available_types (to_lowercase controller_type).

(** [create_controller]; the store of the database's controller was opened. *)
Inductive Controller (K : Type) :=
| Simple (c : SimpleAccessController.t)
| Iroh (c : IrohAccessController.t)
| Guardian (c : GuardianDBAccessController.t K).
Arguments Simple {K} c.
Arguments Iroh {K} c.
Arguments Guardian {K} c.

Definition create_controller {K} `{!KvStore K, !KeysCodec} (controller_type : string) (params : Options.t) (has_client : bool)
    (guardian_db : option K) : Options.t * result string (Controller K) :=
  if decide (controller_type = "simple") then
    let initial_keys := if decide (Options.access params = ∅) then <["write" := ["*"]]> ∅ else Options.access params in
    (params, Ok (Simple (SimpleAccessController.new (Some initial_keys))))
  else if decide (controller_type = "iroh") then
    if has_client then
      let identity_id := match Options.get_access params "write" with Some (k :: _) => k | _ => "*" end in
      let '(params, c) := IrohAccessController.new identity_id params in (params, Ok (Iroh c))
    else (params, Err "Iroh client is required for IrohAccessController")
  else if decide (controller_type = "guardian") then
    match guardian_db with
    | Some kv =>
        (params, match GuardianDBAccessController.new kv params with
                 | Ok c => Ok (Guardian c)
                 | Err e => Err ("Failed to create GuardianDBAccessController: " ++ e)
                 end)
    | None => (params, Err "GuardianDB instance is required for GuardianDBAccessController")
    end
  else (params, Err ("Unsupported access controller type: " ++ controller_type)).
