(* ===== verification/AccessControlInv.v ===== *)
(** * Correctness of access control

    What every controller promises a store, for the three controllers; the
    permissions of the simple controller as a set of pairs; and the key-value store
    over a log. *)

From S2P Require Import Prelude LamportClock Entry Log LogTraverse LogCrdt LogWrite LogJoin LogProperties StoreIndex Utf8 RustString AccessControl.

Local Open Scope string_scope.

(** ** The interface *)

(** The identity is in the set, or everyone is. *)
Definition covered (ws : gset string) (id : string) : Prop := id ∈ ws \/ "*" ∈ ws.

#[global] Instance covered_dec ws id : Decision (covered ws id).
Proof. unfold covered. apply _. Defined.

Lemma covered_mono ws ws' id : ws ⊆ ws' -> covered ws id -> covered ws' id.
Proof. unfold covered. set_solver. Qed.

(** The writers of a controller: they are who may append, with a valid signature if
    the controller checks it; a grant adds at most its key, a grant of [write] adds
    it, and a revocation adds nobody. *)
Class AccessLaws (C : Type) `{!AccessController C} := {
  ac_ok : C -> Prop;
  writers : C -> gset string;
  signature_checked : bool;
  append_exact verify c e :
    ac_ok c ->
    is_ok (can_append verify c e) = true <->
    covered (writers c) (Identity.id (Entry.get_identity e)) /\
    (signature_checked = true -> is_ok (verify (Entry.get_identity e)) = true);
  grant_writers c cap k :
    ac_ok c -> ac_ok (ac_grant c cap k).1 /\ writers (ac_grant c cap k).1 ⊆ {[k]} ∪ writers c;
  grant_write c k :
    ac_ok c -> (ac_grant c "write" k).2 = Ok tt -> writers (ac_grant c "write" k).1 = {[k]} ∪ writers c;
  revoke_writers c cap k :
    ac_ok c -> ac_ok (ac_revoke c cap k).1 /\ writers (ac_revoke c cap k).1 ⊆ writers c
}.

(** ** Lists of keys *)

Lemma contains_spec keys k : contains keys k = true <-> k ∈ keys.
Proof. apply bool_decide_eq_true. Qed.

Lemma push_new_elem keys k x : x ∈ push_new keys k <-> x = k \/ x ∈ keys.
Proof.
  unfold push_new. destruct (contains keys k) eqn:E; [apply contains_spec in E|]; [set_solver|].
  rewrite elem_of_app, list_elem_of_singleton. tauto.
Qed.

Lemma retain_others_elem keys k x : x ∈ retain_others k keys <-> x <> k /\ x ∈ keys.
Proof. unfold retain_others. by rewrite list_elem_of_filter. Qed.

Lemma push_new_nodup keys k : NoDup keys -> NoDup (push_new keys k).
Proof.
  intros Hn. unfold push_new. destruct (contains keys k) eqn:E; [done|].
  apply NoDup_app. split_and!; [done| |apply NoDup_singleton]. intros x Hx ->%list_elem_of_singleton.
  by apply contains_spec in Hx; rewrite Hx in E.
Qed.

(** ** The simple controller *)

Section simple.
Import SimpleAccessController.
Implicit Types (self : SimpleAccessController.t).

(** The pairs of a capability and a key. *)
Definition permitted self (cap k : string) : Prop := k ∈ default [] (self !! cap).

#[global] Instance permitted_dec self cap k : Decision (permitted self cap k).
Proof. unfold permitted. apply _. Defined.

Lemma permitted_insert self cap keys c k :
  permitted (<[cap := keys]> self) c k <-> if decide (c = cap) then k ∈ keys else permitted self c k.
Proof. unfold permitted. rewrite lookup_insert. case_decide as H; destruct (decide (c = cap)); congruence || done. Qed.

Lemma permitted_delete self cap c k : permitted (delete cap self) c k <-> c <> cap /\ permitted self c k.
Proof.
  unfold permitted. rewrite lookup_delete. case_decide as H; [|naive_solver].
  split; [intros Hin; by apply elem_of_nil in Hin|]. intros [Hne _]. congruence.
Qed.

Lemma simple_grant self cap k c x :
  (grant self cap k).2 = Ok tt ->
  permitted (grant self cap k).1 c x <-> permitted self c x \/ (c = cap /\ x = k).
Proof.
  unfold grant. case_decide; [done|]. case_decide; [done|]. intros _. simpl. rewrite permitted_insert.
  case_decide as Hc; [|naive_solver]. subst. rewrite push_new_elem. unfold permitted. naive_solver.
Qed.

Lemma simple_revoke self cap k c x :
  (revoke self cap k).2 = Ok tt ->
  permitted (revoke self cap k).1 c x <-> permitted self c x /\ ~ (c = cap /\ x = k).
Proof.
  unfold revoke. case_decide; [done|]. case_decide; [done|].
  destruct (self !! cap) as [keys|] eqn:E; intros _; simpl.
  - assert (Hp : forall y, permitted self cap y <-> y ∈ keys) by (intros y; unfold permitted; by rewrite E).
    case_decide as Hd.
    + rewrite permitted_delete. split; [naive_solver|]. intros [Hx Hn]. split; [|done]. intros ->.
      apply Hp in Hx. assert (Hr : x ∈ retain_others k keys) by (apply retain_others_elem; naive_solver).
      rewrite (proj2 Hd) in Hr. by apply elem_of_nil in Hr.
    + rewrite permitted_insert. case_decide as Hc; [|naive_solver]. subst. rewrite retain_others_elem, Hp. naive_solver.
  - unfold permitted. split; [|tauto]. intros Hx. split; [done|]. intros [-> ->]. rewrite E in Hx. by apply elem_of_nil in Hx.
Qed.

(** Errors change nothing. *)
Lemma simple_grant_err self cap k e : (grant self cap k).2 = Err e -> (grant self cap k).1 = self.
Proof. unfold grant. case_decide; [done|]. by case_decide. Qed.

Lemma simple_revoke_err self cap k e : (revoke self cap k).2 = Err e -> (revoke self cap k).1 = self.
Proof. unfold revoke. case_decide; [done|]. case_decide; [done|]. by destruct (self !! cap). Qed.

Lemma verified_ok verify who label : is_ok (verified verify who label) = is_ok (verify who).
Proof. unfold verified. by destruct (verify who). Qed.

Definition simple_writers self : gset string :=
  list_to_set (default [] (self !! "write")) ∪ list_to_set (default [] (self !! "admin")).

Lemma simple_writers_elem self k : k ∈ simple_writers self <-> permitted self "write" k \/ permitted self "admin" k.
Proof. unfold simple_writers, permitted. set_solver. Qed.

Lemma simple_append verify self e :
  is_ok (SimpleAccessController.can_append verify self e) = true <->
  covered (simple_writers self) (Identity.id (Entry.get_identity e)) /\ is_ok (verify (Entry.get_identity e)) = true.
Proof.
  unfold SimpleAccessController.can_append, covered. rewrite !simple_writers_elem. unfold permitted.
  set (who := Entry.get_identity e). rewrite <- !contains_spec.
  destruct (contains (default [] (self !! "write")) "*"); [rewrite verified_ok; naive_solver|].
  destruct (contains (default [] (self !! "write")) (Identity.id who)); [rewrite verified_ok; naive_solver|].
  destruct (contains (default [] (self !! "admin")) "*"), (contains (default [] (self !! "admin")) (Identity.id who));
    simpl; rewrite ?verified_ok; naive_solver.
Qed.
End simple.

#[global] Program Instance simple_laws : AccessLaws SimpleAccessController.t := {
  ac_ok _ := True;
  writers := simple_writers;
  signature_checked := true
}.
Next Obligation. intros verify c e _. simpl. rewrite simple_append. naive_solver. Qed.
Next Obligation.
  intros c cap k _. split; [done|]. intros x. rewrite elem_of_union, elem_of_singleton, !simple_writers_elem. simpl.
  destruct ((SimpleAccessController.grant c cap k).2) as [[]|e] eqn:E.
  - rewrite !(simple_grant _ _ _ _ _ E). naive_solver.
  - rewrite (simple_grant_err _ _ _ _ E). tauto.
Qed.
Next Obligation.
  intros c k _ E. simpl in *. apply set_eq. intros x.
  rewrite elem_of_union, elem_of_singleton, !simple_writers_elem, !(simple_grant _ _ _ _ _ E). naive_solver.
Qed.
Next Obligation.
  intros c cap k _. split; [done|]. intros x. rewrite !simple_writers_elem. simpl.
  destruct ((SimpleAccessController.revoke c cap k).2) as [[]|e] eqn:E.
  - rewrite !(simple_revoke _ _ _ _ _ E). naive_solver.
  - by rewrite (simple_revoke_err _ _ _ _ E).
Qed.

(** ** The iroh controller *)

(** The method of the controller checks the signature. *)
Lemma iroh_append_loop verify who allowed :
  is_ok (IrohAccessController.append_loop verify who allowed) = true <->
  covered (list_to_set allowed) (Identity.id who) /\ is_ok (verify who) = true.
Proof.
  unfold covered. induction allowed as [|k allowed IH]; simpl; [set_solver|].
  case_decide as Hk; [set_solver|]. rewrite IH. set_solver.
Qed.

#[global] Program Instance iroh_laws : AccessLaws IrohAccessController.t := {
  ac_ok _ := True;
  writers c := list_to_set (IrohAccessController.write_access c);
  signature_checked := false
}.
Next Obligation.
  intros verify c e _. simpl. unfold IrohAccessController.trait_can_append, covered. rewrite !elem_of_list_to_set.
  rewrite <- !contains_spec. set (keys := IrohAccessController.write_access c).
  destruct (contains keys "*"), (contains keys (Identity.id (Entry.get_identity e))); naive_solver.
Qed.
Next Obligation.
  intros c cap k _. split; [done|]. simpl. unfold IrohAccessController.grant. case_decide; simpl; [|set_solver].
  intros x. rewrite elem_of_list_to_set, push_new_elem. set_solver.
Qed.
Next Obligation.
  intros c k _ _. simpl. apply set_eq. intros x. rewrite elem_of_list_to_set, push_new_elem. set_solver.
Qed.
Next Obligation.
  intros c cap k _. split; [done|]. simpl. unfold IrohAccessController.revoke. case_decide; simpl; [|done].
  intros x. rewrite !elem_of_list_to_set, retain_others_elem. tauto.
Qed.

(** ** The controller of the database *)

(** A store that keeps what it accepts. *)
Class KvLaws (K : Type) `{!KvStore K} := {
  put_all (kv : K) k v :
    kv_all (kv_put kv k v).1 = if is_ok (kv_put kv k v).2 then <[k := v]> (kv_all kv) else kv_all kv;
  delete_all (kv : K) k :
    kv_all (kv_delete kv k).1 = if is_ok (kv_delete kv k).2 then delete k (kv_all kv) else kv_all kv
}.

Class KeysCodecLaw `{!KeysCodec} := {
  keys_round_trip keys bytes : serialize_keys keys = Ok bytes -> deserialize_keys bytes = Ok keys
}.

Section guardian.
Import GuardianDBAccessController.
Context {K : Type} `{!KvStore K, !KvLaws K, !KeysCodec, !KeysCodecLaw}.
Implicit Types (self : GuardianDBAccessController.t K).

Definition contents self : gmap string string := match kv_store self with Some kv => kv_all kv | None => ∅ end.

(** Every stored list can be read. *)
Definition readable_lists (m : gmap string string) : Prop := map_Forall (fun _ bytes => is_ok (deserialize_keys bytes) = true) m.

(** The keys stored under a capability. *)
Definition keys_of (bytes : string) : gset string :=
  match deserialize_keys bytes with Ok keys => list_to_set keys | Err _ => ∅ end.
Definition stored_keys (m : gmap string string) (role : string) : gset string :=
  match m !! role with Some bytes => keys_of bytes | None => ∅ end.

(** Who is authorised for a role: administrators are also the writers. *)
Definition role_keys (m : gmap string string) (role : string) : gset string :=
  if decide (role = "admin") then stored_keys m "admin" ∪ stored_keys m "write" else stored_keys m role.

Lemma decode_roles_spec (l : list (string * string)) (acc : gmap string (gset string)) :
  NoDup l.*1 -> (forall role, role ∈ l.*1 -> acc !! role = None) ->
  Forall (fun rb => is_ok (deserialize_keys rb.2) = true) l ->
  exists m, decode_roles l acc = Ok m /\
    forall role, m !! role = match (list_to_map l : gmap string string) !! role with
                             | Some bytes => Some (keys_of bytes)
                             | None => acc !! role
                             end.
Proof.
  revert acc. induction l as [|[role bytes] l IH]; intros acc Hnd Hacc Hall; [by exists acc|].
  csimpl in *. apply NoDup_cons in Hnd as [Hr Hnd]. apply Forall_cons in Hall as [Hb Hall]. simpl in *.
  destruct (deserialize_keys bytes) as [keys|] eqn:E; [|done]. rewrite (Hacc role) by (by left). simpl.
  destruct (IH (<[role := ∅ ∪ list_to_set keys]> acc)) as (m & Hm & Hl); [done| |done|].
  { intros role' Hr'. rewrite lookup_insert_ne by set_solver. apply Hacc. by right. }
  exists m. split; [done|]. intros role'. rewrite Hl. destruct (decide (role = role')) as [<-|Hne].
  - rewrite not_elem_of_list_to_map_1 by done. rewrite !lookup_insert_eq. unfold keys_of. rewrite E. f_equal. set_solver.
  - rewrite !lookup_insert_ne by done. done.
Qed.

Lemma authorizations_spec self :
  readable_lists (contents self) ->
  exists m, get_authorizations self = Ok m /\
    forall role, list_to_set (default [] (m !! role)) = role_keys (contents self) role.
Proof.
  intros Hread. unfold get_authorizations, contents in *. destruct (kv_store self) as [kv|].
  2:{ exists ∅. split; [done|]. intros role. rewrite lookup_empty. unfold role_keys, stored_keys. rewrite !lookup_empty.
      case_decide; set_solver. }
  destruct (decode_roles_spec (map_to_list (kv_all kv)) ∅) as (m & -> & Hm).
  { apply NoDup_fst_map_to_list. } { intros. apply lookup_empty. }
  { apply Forall_forall. intros [role bytes] Hin%elem_of_map_to_list. by apply (Hread role). }
  setoid_rewrite list_to_map_to_list in Hm. eexists. split; [done|]. intros role. rewrite lookup_fmap.
  assert (Hst : forall r, default ∅ (m !! r) = stored_keys (kv_all kv) r).
  { intros r. rewrite Hm. unfold stored_keys. destruct (kv_all kv !! r); [done|]. by rewrite lookup_empty. }
  assert (Hgoal : default ∅ (writers_to_admins m !! role) = role_keys (kv_all kv) role).
  { unfold writers_to_admins, role_keys. rewrite <- !Hst. destruct (m !! "write") as [w|] eqn:Ew.
    - rewrite lookup_insert. destruct (decide (role = "admin")) as [->|Hne].
      + rewrite decide_True by done. done.
      + rewrite decide_False by done. done.
    - case_decide as Hr; [|done]. subst. simpl. set_solver. }
  rewrite <- Hgoal. destruct (writers_to_admins m !! role); simpl; [apply list_to_set_elements_L|done].
Qed.

Lemma authorized_spec self role :
  readable_lists (contents self) ->
  exists keys, authorized_by_role self role = Ok keys /\ list_to_set keys = role_keys (contents self) role.
Proof.
  intros Hread. destruct (authorizations_spec self Hread) as (m & Hm & Hk). unfold authorized_by_role. rewrite Hm. eauto.
Qed.

Definition guardian_writers self : gset string := role_keys (contents self) "admin".

Lemma guardian_append verify self e :
  readable_lists (contents self) ->
  is_ok (GuardianDBAccessController.can_append verify self e) = true <->
  covered (guardian_writers self) (Identity.id (Entry.get_identity e)) /\ is_ok (verify (Entry.get_identity e)) = true.
Proof.
  intros Hread. unfold GuardianDBAccessController.can_append, guardian_writers, covered.
  destruct (authorized_spec self "write" Hread) as (ws & -> & Hw).
  destruct (authorized_spec self "admin" Hread) as (ads & -> & Ha). rewrite list_to_set_app_L, Hw, Ha.
  assert (Heq : role_keys (contents self) "write" ∪ role_keys (contents self) "admin" = role_keys (contents self) "admin").
  { unfold role_keys. rewrite decide_False, decide_True by done. set_solver. }
  rewrite Heq. case_decide as Hc; [|naive_solver]. destruct (verify (Entry.get_identity e)); naive_solver.
Qed.

(** The stored keys after a change. *)
Lemma stored_keys_insert m cap bytes keys role :
  deserialize_keys bytes = Ok keys ->
  stored_keys (<[cap := bytes]> m) role = if decide (role = cap) then list_to_set keys else stored_keys m role.
Proof.
  intros E. unfold stored_keys. rewrite lookup_insert. unfold keys_of.
  destruct (decide (cap = role)), (decide (role = cap)); try congruence. by rewrite E.
Qed.

Lemma stored_keys_delete m cap role :
  stored_keys (delete cap m) role = if decide (role = cap) then ∅ else stored_keys m role.
Proof. unfold stored_keys. rewrite lookup_delete. destruct (decide (cap = role)), (decide (role = cap)); congruence. Qed.

(** A grant stores the authorised keys and the new one; an error changes nothing. *)
Lemma guardian_grant self cap k :
  readable_lists (contents self) ->
  readable_lists (contents (grant self cap k).1) /\
  match (grant self cap k).2 with
  | Ok _ => forall role, stored_keys (contents (grant self cap k).1) role =
      if decide (role = cap) then {[k]} ∪ role_keys (contents self) cap else stored_keys (contents self) role
  | Err _ => contents (grant self cap k).1 = contents self
  end.
Proof.
  intros Hread. unfold grant. destruct (kv_store self) as [kv|] eqn:Ek; [|done].
  destruct (authorized_spec self cap Hread) as (keys & -> & Hk).
  destruct (serialize_keys _) as [bytes|] eqn:Es; [|done]. apply keys_round_trip in Es as Hd.
  pose proof (put_all kv cap bytes) as Hp. unfold contents in *. rewrite Ek in *. unfold stored. simpl.
  destruct (kv_put kv cap bytes) as [kv' [[]|]]; simpl in *; rewrite Hp.
  - split; [apply map_Forall_insert_2; [by rewrite Hd|done]|]. intros role.
    rewrite (stored_keys_insert _ _ _ _ _ Hd), list_to_set_elements_L, Hk. done.
  - done.
Qed.

Lemma retain_others_set k keys : (list_to_set (retain_others k keys) : gset string) = list_to_set keys ∖ {[k]}.
Proof. apply set_eq. intros x. rewrite elem_of_list_to_set, retain_others_elem. set_solver. Qed.

(** A revocation stores the authorised keys without the key. *)
Lemma guardian_revoke self cap k :
  readable_lists (contents self) ->
  readable_lists (contents (revoke self cap k).1) /\
  match (revoke self cap k).2 with
  | Ok _ => forall role, stored_keys (contents (revoke self cap k).1) role =
      if decide (role = cap) then role_keys (contents self) cap ∖ {[k]} else stored_keys (contents self) role
  | Err _ => contents (revoke self cap k).1 = contents self
  end.
Proof.
  intros Hread. unfold revoke. destruct (kv_store self) as [kv|] eqn:Ek; [|done].
  destruct (authorized_spec self cap Hread) as (keys & -> & Hk). rewrite <- Hk, <- retain_others_set.
  unfold contents in *. rewrite Ek in *. destruct (retain_others k keys) as [|x rest] eqn:Er.
  - pose proof (delete_all kv cap) as Hp. unfold stored. simpl.
    destruct (kv_delete kv cap) as [kv' [[]|]]; simpl in *; rewrite Hp; [|done].
    split; [by apply map_Forall_delete|]. intros role. rewrite stored_keys_delete. by case_decide.
  - destruct (serialize_keys _) as [bytes|] eqn:Es; [|simpl; by rewrite Ek]. apply keys_round_trip in Es as Hd.
    pose proof (put_all kv cap bytes) as Hp. unfold stored. simpl.
    destruct (kv_put kv cap bytes) as [kv' [[]|]]; simpl in *; rewrite Hp; [|done].
    split; [apply map_Forall_insert_2; [by rewrite Hd|done]|]. intros role. by rewrite (stored_keys_insert _ _ _ _ _ Hd).
Qed.

#[global] Program Instance guardian_laws : AccessLaws (GuardianDBAccessController.t K) := {
  ac_ok self := readable_lists (contents self);
  writers := guardian_writers;
  signature_checked := true
}.
Next Obligation. intros verify c e Hr. simpl. rewrite (guardian_append verify c e Hr). naive_solver. Qed.
Next Obligation.
  intros c cap k Hr. destruct (guardian_grant c cap k Hr) as [Hr' Hg]. split; [done|]. simpl. unfold guardian_writers.
  destruct ((grant c cap k).2); [|rewrite Hg; set_solver]. unfold role_keys in *. rewrite decide_True in * by done.
  rewrite !Hg. repeat case_decide; subst; try done; set_solver.
Qed.
Next Obligation.
  intros c k Hr E. destruct (guardian_grant c "write" k Hr) as [Hr' Hg]. simpl in *. rewrite E in Hg.
  unfold guardian_writers, role_keys in *. rewrite decide_True in * by done. rewrite !Hg. simpl. set_solver.
Qed.
Next Obligation.
  intros c cap k Hr. destruct (guardian_revoke c cap k Hr) as [Hr' Hg]. split; [done|]. simpl. unfold guardian_writers.
  destruct ((revoke c cap k).2); [|rewrite Hg; set_solver]. unfold role_keys in *. rewrite decide_True in * by done.
  rewrite !Hg. repeat case_decide; subst; try done; set_solver.
Qed.

(** Revoking [write] does not take it from a key that was a writer when an
    administrator was added: the writers were stored with the administrators. *)
Lemma guardian_revoke_kept self a b :
  readable_lists (contents self) ->
  let self1 := grant self "write" a in
  let self2 := grant self1.1 "admin" b in
  let self3 := revoke self2.1 "write" a in
  self1.2 = Ok tt -> self2.2 = Ok tt -> self3.2 = Ok tt -> a ∈ guardian_writers self3.1.
Proof.
  intros Hr self1 self2 self3 E1 E2 E3.
  destruct (guardian_grant self "write" a Hr) as [Hr1 H1]. fold self1 in Hr1, H1. rewrite E1 in H1.
  destruct (guardian_grant self1.1 "admin" b Hr1) as [Hr2 H2]. fold self2 in Hr2, H2. rewrite E2 in H2.
  destruct (guardian_revoke self2.1 "write" a Hr2) as [_ H3]. fold self3 in H3. rewrite E3 in H3.
  unfold guardian_writers, role_keys. rewrite decide_True by done. rewrite H3, decide_False by done.
  rewrite H2, decide_True by done. unfold role_keys. rewrite decide_True by done. rewrite !H1. simpl. set_solver.
Qed.
End guardian.

(** ** The key-value store over a log *)

Lemma lossy_scalar l : Forall (fun c => scalar c = true) l -> lossy_chars 0 l = l.
Proof.
  induction 1 as [|c l Hc _ IH]; [done|]. simpl.
  assert (Hlt : (c <? escape_base)%N = true).
  { unfold scalar, in_range in Hc. unfold escape_base. apply orb_true_iff in Hc as [Hc|Hc].
    - apply N.ltb_lt in Hc. apply N.ltb_lt. lia.
    - apply andb_true_iff in Hc as [_ Hc%N.leb_le]. apply N.ltb_lt. lia. }
  by rewrite Hlt, IH.
Qed.

Lemma lossy_utf8 s : utf8 s -> from_utf8_lossy s = s.
Proof. intros Hs. unfold from_utf8_lossy. by rewrite (lossy_scalar _ Hs), of_chars_chars. Qed.

Section adapter.
Import KeyValueStoreAdapter.
Context `{!PayloadFormat} {Hlaws : PayloadLaws}.

Definition replay (es : list Entry.t) : gmap string string :=
  foldl (fun m e => match unmarshal (Entry.payload e) with Some op => apply_operation m op | None => m end) ∅ es.

Lemma replay_lookup es key : replay es !! key = find_latest key (reverse es).
Proof.
  unfold replay. induction es as [|e es IH] using rev_ind; [apply lookup_empty|].
  rewrite foldl_snoc, reverse_snoc. simpl. destruct (unmarshal (Entry.payload e)) as [op|]; [|done].
  unfold apply_operation. destruct (Operation.key op) as [k|]; [|by rewrite (decide_False (P := None = Some key)) by done].
  destruct (decide (k = key)) as [->|Hne].
  - rewrite (decide_True (P := Some key = Some key)) by done.
    case_decide; [apply lookup_insert_eq|]. case_decide; [apply lookup_delete_eq|done].
  - rewrite (decide_False (P := Some k = Some key)) by congruence.
    case_decide; [by rewrite lookup_insert_ne|]. case_decide; [by rewrite lookup_delete_ne|done].
Qed.

(** The hash of the appended entry is new to the log, and its clock fits. *)
Definition fresh_append (hash_entry : Entry.t -> option Hash) (log : Log.t) (data : string) : Prop :=
  match Log.append hash_entry log data None with
  | Some (_, entry) => Log.entries log !! Entry.hash entry = None /\ Entry.hash entry ∉ Log.nexts log
  | None => True
  end /\ in_u64 (Log.max_time (LamportClock.time (Log.clock log)) (Log.heads log) + 1).

#[global] Instance fresh_append_dec hash_entry log data : Decision (fresh_append hash_entry log data).
Proof. unfold fresh_append, in_u64. destruct (Log.append hash_entry log data None) as [[]|]; apply _. Defined.

Lemma adapter_write hash_entry log op bytes log' :
  replica log -> Log.sort_fn log = store_order -> fresh_append hash_entry log bytes ->
  marshal op = Some bytes -> utf8 bytes -> write hash_entry log op = Some (log', Ok tt) ->
  replica log' /\ Log.sort_fn log' = store_order /\ all log' = apply_operation (all log) op.
Proof using Hlaws.
  intros HR Hs [Hfresh Hb] Hm Hu Hw. unfold write in Hw. rewrite Hm, (lossy_utf8 _ Hu) in Hw.
  destruct (Log.append hash_entry log bytes None) as [[log1 entry]|] eqn:Ha; [|done]. injection Hw as <-.
  destruct Hfresh as [Hf Hfn].
  pose proof (append_replica _ _ _ _ _ _ HR Ha Hf Hfn Hb) as HR'.
  pose proof (append_fields _ _ _ _ _ _ Ha) as (_&_&_&_&_&_&_&_&_&Hp&Hsf). split; [done|]. split; [congruence|].
  assert (Hv : Log.values log1 = (Log.values log ++ [entry])%list).
  { eapply append_values; try done; [apply HR|apply HR|by apply replica_ordered|]. apply replica_ordered; [done|congruence]. }
  unfold all. rewrite Hv, foldl_snoc, Hp, (marshal_round_trip _ _ Hm). unfold apply_operation. simpl. done.
Qed.
End adapter.
