(* ===== verification/AccessProperties.v ===== *)
(** * Properties of access control

    What a store takes from its peers under a controller, the permissions of the
    simple controller, and the key-value store over a log. *)

From S2P Require Import Prelude LamportClock Entry Log LogTraverse LogCrdt LogWrite LogJoin LogProperties.
From S2P Require Import StoreIndex EventLogStore BaseStore BaseStoreInv Codec Scenario StoreProperties.
From S2P Require Import Utf8 RustString AccessControl AccessControlInv.

Local Open Scope string_scope.

(** ** A store behind a controller *)

Section guarded.
Context {I D : Type} `{StoreIndex I} `{Datastore D} `{PayloadFormat} `{EntryFormat}.
Context {C : Type} `{!AccessController C, !AccessLaws C} (verify : Identity.t -> result string unit).

(** The store, its controller, and who was ever granted something. *)
Record Guarded := mk_guarded {
  guarded_store : BaseStore.t I D;
  controller : C;
  granted : gset string
}.

Definition may_append (c : C) (e : Entry.t) : bool := is_ok (can_append verify c e).

Inductive guarded_step (g : Guarded) : Guarded -> Prop :=
| guarded_sync heads :
    guarded_step g (mk_guarded (BaseStore.sync (may_append (controller g)) (guarded_store g) heads)
                      (controller g) (granted g))
| guarded_grant cap k :
    guarded_step g (mk_guarded (guarded_store g) (ac_grant (controller g) cap k).1 ({[k]} ∪ granted g))
| guarded_revoke cap k :
    guarded_step g (mk_guarded (guarded_store g) (ac_revoke (controller g) cap k).1 (granted g)).

(** The author is covered, and the signature holds if the controller checks it. *)
Definition authorised (ws : gset string) (e : Entry.t) : Prop :=
  covered ws (Identity.id (Entry.get_identity e)) /\
  (signature_checked (C := C) = true -> is_ok (verify (Entry.get_identity e)) = true).

Record guarded_inv (log0 : Log.t) (g : Guarded) : Prop := {
  gi_ok : ac_ok (controller g);
  gi_writers : writers (controller g) ⊆ granted g;
  gi_entries : forall e, stored (BaseStore.oplog (guarded_store g)) e -> stored log0 e \/ authorised (granted g) e
}.

Lemma sync_authorised c (s : BaseStore.t I D) heads e :
  ac_ok c -> stored (BaseStore.oplog (BaseStore.sync (may_append c) s heads)) e ->
  stored (BaseStore.oplog s) e \/ authorised (writers c) e.
Proof.
  intros Hok. rewrite sync_oplog. intros [He|He]%add_entries_origin; [by left|right].
  apply list_elem_of_In, filter_In in He as [_ Hv]. unfold BaseStore.verify_head in Hv.
  rewrite !andb_true_iff in Hv. destruct Hv as [[_ Ha] _]. by apply (append_exact verify c e Hok).
Qed.

Lemma guarded_step_inv log0 g g' : guarded_inv log0 g -> guarded_step g g' -> guarded_inv log0 g'.
Proof.
  intros [Hok Hw He] Hstep. destruct Hstep as [heads|cap k|cap k]; simpl.
  - split; simpl; [done|done|]. intros e Hs. destruct (sync_authorised _ _ _ _ Hok Hs) as [Hs'|[Hc Hv]]; [by apply He|].
    right. split; [by eapply covered_mono|done].
  - destruct (grant_writers (controller g) cap k Hok) as [Hok' Hw']. split; simpl; [done|set_solver|].
    intros e [Hs|[Hc Hv]]%He; [by left|right]. split; [|done]. eapply covered_mono; [|done]. set_solver.
  - destruct (revoke_writers (controller g) cap k Hok) as [Hok' Hw']. split; simpl; [done|set_solver|done].
Qed.

Lemma guarded_run_inv log0 g g' : guarded_inv log0 g -> rtc guarded_step g g' -> guarded_inv log0 g'.
Proof. intros Hi Hrun. induction Hrun; eauto using guarded_step_inv. Qed.
End guarded.
Arguments Guarded : clear implicits.

(** C9. A store takes from its peers only what its controller allows, with any of the
    controllers and in any order of synchronisations, grants and revocations: an
    entry of the log was there before, or its author was granted a permission at
    some time and, unless the controller is the iroh one, its signature holds; and
    what one synchronisation adds is by authors that the controller covers at that
    time. *)
Theorem entries_authorised {I D : Type} `{StoreIndex I} `{Datastore D} `{PayloadFormat} `{EntryFormat}
    {C : Type} `{!AccessController C, !AccessLaws C} (verify : Identity.t -> result string unit)
    (s : BaseStore.t I D) (c : C) (g : Guarded I D C) :
  ac_ok c -> rtc (guarded_step verify) (mk_guarded s c (writers c)) g ->
  (forall e, stored (BaseStore.oplog (guarded_store g)) e ->
     stored (BaseStore.oplog s) e \/ authorised (C := C) verify (granted g) e) /\
  (forall heads e, stored (BaseStore.oplog (BaseStore.sync (may_append verify (controller g)) (guarded_store g) heads)) e ->
     stored (BaseStore.oplog (guarded_store g)) e \/ authorised (C := C) verify (writers (controller g)) e).
Proof.
  intros Hok Hrun. assert (Hi : guarded_inv verify (BaseStore.oplog s) g).
  { eapply guarded_run_inv; [|done]. split; simpl; [done|done|by left]. }
  split; [apply (gi_entries _ _ _ Hi)|]. intros heads e. apply sync_authorised, (gi_ok _ _ _ Hi).
Qed.

(** With the iroh controller an entry that names a writer is taken whatever the check
    of its signature says. *)
Lemma iroh_takes_forged {I D : Type} `{StoreIndex I} `{Datastore D} `{PayloadFormat} `{EntryFormat}
    (verify : Identity.t -> result string unit) (s : BaseStore.t I D) (c : IrohAccessController.t) e :
  Identity.id (Entry.get_identity e) ∈ IrohAccessController.write_access c ->
  Entry.hash e <> zero_hash -> Entry.payload e <> "" ->
  Log.has (BaseStore.oplog (BaseStore.sync (may_append verify c) s [e])) (Entry.hash e) = true.
Proof.
  intros Hin Hh Hp. rewrite sync_oplog, add_entries_has.
  destruct (Log.has (BaseStore.oplog s) (Entry.hash e)) eqn:E; [by left|right]. simpl.
  assert (Hv : BaseStore.verify_head (may_append verify c) s e = true).
  { unfold BaseStore.verify_head. rewrite !bool_decide_false, E by done. unfold may_append. simpl.
    unfold IrohAccessController.trait_can_append. apply contains_spec in Hin. by rewrite Hin, orb_true_r. }
  rewrite Hv. by left.
Qed.

(** Alice may write; Bob's entry is refused until he is granted the permission. *)
Module AccessScenario.
Definition verify (who : Identity.t) : result string unit := Ok tt.
Definition by_bob : Entry.t := (Scenario.write (Scenario.start Scenario.bob) "uno").2.
Definition controller0 : SimpleAccessController.t := SimpleAccessController.new (Some (<["write" := ["alice"]]> ∅)).
Definition guarded0 : Guarded EventIndex.t (gmap string string) SimpleAccessController.t :=
  mk_guarded StoreScenario.events0 controller0 (writers controller0).
Definition refused := mk_guarded (BaseStore.sync (may_append verify controller0) StoreScenario.events0 [by_bob])
  controller0 (writers controller0).
Definition allowed := mk_guarded (guarded_store refused) (ac_grant controller0 "write" "bob").1
  ({["bob"]} ∪ writers controller0).
Definition taken := mk_guarded (BaseStore.sync (may_append verify (controller allowed)) (guarded_store allowed) [by_bob])
  (controller allowed) (granted allowed).

Lemma run : rtc (guarded_step verify) guarded0 taken.
Proof.
  eapply rtc_l; [apply (guarded_sync verify guarded0 [by_bob])|].
  eapply rtc_l; [apply (guarded_grant verify refused "write" "bob")|].
  eapply rtc_l; [apply (guarded_sync verify allowed [by_bob])|]. done.
Qed.
End AccessScenario.

Lemma entries_authorised_witness :
  Log.length (BaseStore.oplog (guarded_store AccessScenario.refused)) = 0 /\
  Log.length (BaseStore.oplog (guarded_store AccessScenario.taken)) = 1 /\
  forall e, stored (BaseStore.oplog (guarded_store AccessScenario.taken)) e ->
    stored (BaseStore.oplog StoreScenario.events0) e \/
    authorised (C := SimpleAccessController.t) AccessScenario.verify (granted AccessScenario.taken) e.
Proof.
  split; [vm_compute; reflexivity|]. split; [vm_compute; reflexivity|].
  apply (entries_authorised AccessScenario.verify StoreScenario.events0 AccessScenario.controller0 AccessScenario.taken);
    [exact I|apply AccessScenario.run].
Defined.

(** ** The permissions of the simple controller *)

Inductive PermissionOp :=
| Grant (capability key_id : string)
| Revoke (capability key_id : string)
| GrantMultiple (capability : string) (key_ids : list string)
| RevokeMultiple (capability : string) (key_ids : list string)
| Clear (capability : string)
| Clone (source target : string)
| Import (permissions : Permissions).

Definition run_permission (self : SimpleAccessController.t) (op : PermissionOp) : SimpleAccessController.t * result string unit :=
  match op with
  | Grant c k => SimpleAccessController.grant self c k
  | Revoke c k => SimpleAccessController.revoke self c k
  | GrantMultiple c ks => SimpleAccessController.grant_multiple self c ks
  | RevokeMultiple c ks => SimpleAccessController.revoke_multiple self c ks
  | Clear c => SimpleAccessController.clear_capability self c
  | Clone s t => SimpleAccessController.clone_capability self s t
  | Import m => SimpleAccessController.import_permissions self m
  end.

(** What an operation that succeeds does to the pairs of a capability and a key. *)
Definition permission_effect (P : string -> string -> Prop) (op : PermissionOp) (c k : string) : Prop :=
  match op with
  | Grant c0 k0 => P c k \/ (c = c0 /\ k = k0)
  | Revoke c0 k0 => P c k /\ ~ (c = c0 /\ k = k0)
  | GrantMultiple c0 ks => P c k \/ (c = c0 /\ k ∈ ks /\ k <> "")
  | RevokeMultiple c0 ks => P c k /\ ~ (c = c0 /\ k ∈ ks)
  | Clear c0 => P c k /\ c <> c0
  | Clone s t => if decide (c = t) then P s k else P c k
  | Import m => permitted m c k
  end.

Lemma push_all_elem ks keys x :
  x ∈ foldl (fun keys k => if decide (k = "") then keys else push_new keys k) keys ks <->
  x ∈ keys \/ (x ∈ ks /\ x <> "").
Proof.
  revert keys. induction ks as [|k ks IH]; intros keys; simpl; [set_solver|]. rewrite IH.
  case_decide; [set_solver|]. rewrite push_new_elem, elem_of_cons. naive_solver.
Qed.

Lemma retain_all_elem ks keys x : x ∈ foldl (fun keys k => retain_others k keys) keys ks <-> x ∈ keys /\ x ∉ ks.
Proof.
  revert keys. induction ks as [|k ks IH]; intros keys; simpl; [set_solver|].
  rewrite IH, retain_others_elem, elem_of_cons. naive_solver.
Qed.

Lemma run_permission_ok self op c k :
  (run_permission self op).2 = Ok tt ->
  permitted (run_permission self op).1 c k <-> permission_effect (permitted self) op c k.
Proof.
  destruct op as [c0 k0|c0 k0|c0 ks|c0 ks|c0|s t|m]; simpl.
  - apply simple_grant.
  - apply simple_revoke.
  - unfold SimpleAccessController.grant_multiple. case_decide; [done|]. intros _. simpl. rewrite permitted_insert.
    case_decide as Hc; [|naive_solver]. subst. rewrite push_all_elem. unfold permitted. naive_solver.
  - unfold SimpleAccessController.revoke_multiple. case_decide; [done|].
    assert (Hp : forall keys, self !! c0 = Some keys -> forall y, permitted self c0 y <-> y ∈ keys).
    { intros keys E y. unfold permitted. by rewrite E. }
    destruct (self !! c0) as [keys|] eqn:E; intros _; simpl.
    + specialize (Hp keys eq_refl). set (rest := foldl _ _ ks).
      assert (Hr : forall x, x ∈ rest <-> x ∈ keys /\ x ∉ ks) by (intros x; apply retain_all_elem).
      clearbody rest. case_decide as Hd.
      * subst rest. rewrite permitted_delete. split; [naive_solver|]. intros [Hx Hn]. split; [|done]. intros ->.
        apply Hp in Hx. destruct (decide (k ∈ ks)) as [Hk|Hk]; [naive_solver|].
        assert (Hin : k ∈ ([] : list string)) by (apply Hr; done). by apply elem_of_nil in Hin.
      * rewrite permitted_insert. case_decide as Hc; [|naive_solver]. subst. rewrite Hr, Hp. naive_solver.
    + split; [|tauto]. intros Hx. split; [done|]. intros [-> _]. unfold permitted in Hx. rewrite E in Hx. by apply elem_of_nil in Hx.
  - unfold SimpleAccessController.clear_capability. case_decide; [done|]. destruct (self !! c0) eqn:E; intros _; simpl.
    + rewrite permitted_insert. case_decide as Hc; [|naive_solver]. split; [intros Hin; by apply elem_of_nil in Hin|naive_solver].
    + split; [|tauto]. intros Hx. split; [done|]. intros ->. unfold permitted in Hx. rewrite E in Hx. by apply elem_of_nil in Hx.
  - unfold SimpleAccessController.clone_capability. case_decide; [done|]. destruct (self !! s) as [keys|] eqn:E; [|done].
    intros _. simpl. rewrite permitted_insert. case_decide; [|done]. unfold permitted. by rewrite E.
  - done.
Qed.

Lemma run_permission_err self op e : (run_permission self op).2 = Err e -> (run_permission self op).1 = self.
Proof.
  destruct op as [c0 k0|c0 k0|c0 ks|c0 ks|c0|s t|m]; simpl;
    [apply simple_grant_err|apply simple_revoke_err|..];
    unfold SimpleAccessController.grant_multiple, SimpleAccessController.revoke_multiple,
      SimpleAccessController.clear_capability, SimpleAccessController.clone_capability; repeat case_match; done.
Qed.

(** The permissions after a sequence of operations, some of which may fail. *)
Fixpoint permissions_after (self : SimpleAccessController.t) (ops : list PermissionOp) (P : string -> string -> Prop) :
    string -> string -> Prop :=
  match ops with
  | [] => P
  | op :: ops =>
      permissions_after (run_permission self op).1 ops
        (if is_ok (run_permission self op).2 then permission_effect P op else P)
  end.

Lemma permission_effect_ext P Q op c k :
  (forall c k, P c k <-> Q c k) -> permission_effect P op c k <-> permission_effect Q op c k.
Proof. intros HPQ. destruct op; simpl; rewrite ?HPQ; try done. case_decide; by rewrite HPQ. Qed.

Lemma permissions_after_spec self ops P c k :
  (forall c k, permitted self c k <-> P c k) ->
  permitted (foldl (fun s op => (run_permission s op).1) self ops) c k <-> permissions_after self ops P c k.
Proof.
  revert self P. induction ops as [|op ops IH]; intros self P HP; simpl; [apply HP|]. apply IH. intros c' k'.
  destruct ((run_permission self op).2) as [[]|e] eqn:E; simpl.
  - rewrite (run_permission_ok _ _ _ _ E). by apply permission_effect_ext.
  - by rewrite (run_permission_err _ _ _ E).
Qed.

(** C20. The simple controller implements a set of pairs of a capability and a key:
    after any sequence of operations, an entry may be appended exactly when its
    author, or everyone, has the permission to write or to administer in that set
    and the signature holds; a capability is shown for exactly the keys of the set;
    and the saved options give the same controller back. *)
Theorem permissions_exact (self : SimpleAccessController.t) (ops : list PermissionOp)
    (verify : Identity.t -> result string unit) (self' := foldl (fun s op => (run_permission s op).1) self ops)
    (P := permissions_after self ops (permitted self)) :
  (forall e, let id := Identity.id (Entry.get_identity e) in
     SimpleAccessController.can_append verify self' e = Ok tt <->
     (exists c k, (c = "write" \/ c = "admin") /\ (k = id \/ k = "*") /\ P c k) /\
     verify (Entry.get_identity e) = Ok tt) /\
  (forall c k, SimpleAccessController.has_capability self' c k = true <-> P c k \/ P c "*") /\
  SimpleAccessController.from_options (SimpleAccessController.save self') = self'.
Proof.
  assert (HP : forall c k, permitted self' c k <-> P c k) by (intros c k; by apply permissions_after_spec).
  clearbody self' P. split_and!.
  - intros e. cbn zeta. pose proof (simple_append verify self' e) as Hs. unfold covered in Hs. rewrite !simple_writers_elem, !HP in Hs.
    assert (Hok : forall r : result string unit, r = Ok tt <-> is_ok r = true) by (intros [[]|]; done).
    rewrite !Hok, Hs. split; (intros [Hc Hv]; split; [|done]).
    + destruct Hc as [[Hc|Hc]|[Hc|Hc]]; eexists _, _; (split; [|split; [|exact Hc]]); auto.
    + destruct Hc as (c & k & [-> | ->] & [-> | ->] & Hc); auto.
  - intros c k. rewrite <- !HP. unfold SimpleAccessController.has_capability, permitted.
    destruct (self' !! c) as [keys|]; simpl; [|split; [done|intros [Hin|Hin]; by apply elem_of_nil in Hin]].
    rewrite orb_true_iff, !contains_spec. tauto.
  - unfold SimpleAccessController.from_options, SimpleAccessController.save.
    assert (Hfold : forall l o, Options.access (foldl (fun o ck => Options.set_access o ck.1 ck.2) o l) =
      foldl (fun m ck => <[ck.1 := ck.2]> m) (Options.access o) l).
    { intros l. induction l as [|[c ks] l IH]; intros o; [done|]. simpl. by rewrite IH. }
    rewrite Hfold. simpl. apply map_eq. intros c.
    assert (Hl : forall (l : list (string * list string)) (m : Permissions), NoDup l.*1 ->
      foldl (fun m ck => <[ck.1 := ck.2]> m) m l !! c =
      match (list_to_map l : Permissions) !! c with Some ks => Some ks | None => m !! c end).
    { intros l. induction l as [|[c0 ks] l IH]; intros m Hnd; [done|]. csimpl in *. apply NoDup_cons in Hnd as [Hn Hnd].
      rewrite IH by done. destruct (decide (c0 = c)) as [->|Hne].
      - rewrite lookup_insert_eq, not_elem_of_list_to_map_1 by done. by rewrite lookup_insert_eq.
      - by rewrite !lookup_insert_ne. }
    rewrite Hl by apply NoDup_fst_map_to_list. rewrite list_to_map_to_list. destruct (self' !! c); [done|apply lookup_empty].
Qed.

(** ** The key-value store over a log *)

(** C21. The adapter that keeps a key-value store in a log is a map: a key reads as the
    map of all keys shows it; after an accepted [put] the map has the new value, and
    after an accepted [delete] it lacks the key, and nothing else changes; and the
    log stays a replica.  The encoded operation has to be UTF-8, which the code
    assumes when it writes the bytes as a string. *)
Theorem log_store_exact `{!PayloadFormat} `{!PayloadLaws} (hash_entry : Entry.t -> option Hash) (log : Log.t)
    (op : Operation.t) (bytes : string) (log' : Log.t) :
  replica log -> Log.sort_fn log = store_order -> fresh_append hash_entry log bytes ->
  marshal op = Some bytes -> utf8 bytes -> KeyValueStoreAdapter.write hash_entry log op = Some (log', Ok tt) ->
  replica log' /\ Log.sort_fn log' = store_order /\
  (forall key, KeyValueStoreAdapter.get log' key = KeyValueStoreAdapter.all log' !! key) /\
  (forall key value, op = Operation.new (Some key) "PUT" (Some value) ->
     KeyValueStoreAdapter.put hash_entry log key value = Some (log', Ok tt) /\
     KeyValueStoreAdapter.all log' = <[key := value]> (KeyValueStoreAdapter.all log) /\
     KeyValueStoreAdapter.get log' key = Some value) /\
  (forall key, op = Operation.new (Some key) "DELETE" None ->
     KeyValueStoreAdapter.delete hash_entry log key = Some (log', Ok tt) /\
     KeyValueStoreAdapter.all log' = delete key (KeyValueStoreAdapter.all log) /\
     KeyValueStoreAdapter.get log' key = None).
Proof.
  intros HR Hs Hf Hm Hu Hw. destruct (adapter_write hash_entry log op bytes log' HR Hs Hf Hm Hu Hw) as (HR' & Hs' & Ha).
  assert (Hget : forall key, KeyValueStoreAdapter.get log' key = KeyValueStoreAdapter.all log' !! key).
  { intros key. symmetry. apply replay_lookup. }
  split_and!; [done|done|done|..].
  - intros key value ->. split; [done|]. rewrite Hget, Ha. unfold KeyValueStoreAdapter.apply_operation. simpl.
    split; [done|apply lookup_insert_eq].
  - intros key ->. split; [done|]. rewrite Hget, Ha. unfold KeyValueStoreAdapter.apply_operation. simpl.
    split; [done|apply lookup_delete_eq].
Qed.

Lemma log_store_exact_witness :
  let log := Scenario.start Scenario.alice in
  let log1 := default log (fst <$> KeyValueStoreAdapter.put Scenario.hash_entry log "write" "alice") in
  KeyValueStoreAdapter.get log1 "write" = Some "alice".
Proof.
  intros log log1. set (op := Operation.new (Some "write") "PUT" (Some "alice")).
  set (bytes := default "" (marshal op)).
  assert (Hok : match KeyValueStoreAdapter.write Scenario.hash_entry log op with Some (_, Ok _) => true | _ => false end = true)
    by (vm_compute; reflexivity).
  assert (Hw : KeyValueStoreAdapter.write Scenario.hash_entry log op = Some (log1, Ok tt)).
  { unfold log1, KeyValueStoreAdapter.put. fold op.
    destruct (KeyValueStoreAdapter.write Scenario.hash_entry log op) as [[l [[]|]]|]; [reflexivity|discriminate Hok..]. }
  assert (Hm : marshal op = Some bytes) by (vm_compute; reflexivity).
  assert (Hf : bool_decide (fresh_append Scenario.hash_entry log bytes) = true) by (vm_compute; reflexivity).
  assert (Hu : forallb scalar (chars bytes) = true) by (vm_compute; reflexivity).
  apply bool_decide_eq_true in Hf.
  assert (Hutf : utf8 bytes) by (apply Forall_forall; intros c Hc; apply (proj1 (forallb_forall _ _) Hu), list_elem_of_In, Hc).
  destruct (log_store_exact Scenario.hash_entry log op bytes log1 (Scenario.start_replica _) eq_refl Hf Hm Hutf Hw)
    as (_ & _ & _ & Hput & _).
  destruct (Hput "write" "alice" eq_refl) as (_ & _ & H). exact H.
Defined.
