(* ===== verification/SqlExt.v ===== *)
(** * Extension functions

    [sql/ext]: the helpers for arguments of [mod.rs], the paths and path patterns of
    [ltree.rs], and the string distances of [fuzzystrmatch.rs] except metaphone.

    Arguments of the SQL functions are [i64]; where the code adds them, the sum
    wraps.  The costs of a distance are numbers of any size: the sums stay in the
    range of [i64] for costs below 2^50. *)

From S2P Require Import Prelude BTree Json Utf8 RustString RustFloat SqlTypes Fts SqlValue.

Local Open Scope string_scope.

Section ext.
Context `{!Foreign}.

(** ** Arguments *)

Definition any_null (args : list SqlValue) : bool := existsb value_is_null args.

(** [idx + 1] in a message. *)
Definition position (idx : nat) : string := pretty (N.of_nat (idx + 1)).

Definition bad_arg (func : string) (idx : nat) (want : string) (got : SqlValue) : RelError :=
  CannotCoerce (name (type_of got)) (want ++ " (argument " ++ position idx ++ " of " ++ func ++ ")").
Definition missing_arg (func : string) (idx : nat) : RelError :=
  UndefinedFunction (func ++ ": missing argument " ++ position idx).
Definition no_such (func : string) : RelError := Internal ("extension function " ++ func ++ " not routed").

Definition arg_text (args : list SqlValue) (idx : nat) (func : string) : res string :=
  match args !! idx with
  | Some (VText s) | Some (VCitext s) => Ok s
  | Some other => ok_or (to_text other) (bad_arg func idx "text" other)
  | None => raise (missing_arg func idx)
  end.

Definition arg_i64 (args : list SqlValue) (idx : nat) (func : string) : res Z :=
  match args !! idx with
  | Some v => ok_or (value_as_i64 v) (bad_arg func idx "integer" v)
  | None => raise (missing_arg func idx)
  end.

(** Addition of [i64] values. *)
Definition i64_add (a b : Z) : Z := wrap_signed 64 (a + b).

(** ** ltree *)

Definition arg_ltree (args : list SqlValue) (idx : nat) (func : string) : res string :=
  match args !! idx with
  | Some (VLtree p) => Ok p
  | Some (VText s) | Some (VCitext s) =>
      match from_text TLtree s with
      | Ok (VLtree p) => Ok p
      | Ok _ => Err Panic
      | Err e => Err e
      end
  | Some other => raise (bad_arg func idx "ltree" other)
  | None => raise (missing_arg func idx)
  end.

Definition inner_subltree (labels : list string) (start stop : Z) : res string :=
  let n := Z.of_nat (length labels) in
  if decide (start < 0 \/ stop < 0 \/ n <= start \/ stop < start)%Z then raise (InvalidParameter "invalid positions")
  else
    let stop := Z.min stop n in
    Ok (join "." (take (Z.to_nat (stop - start)) (drop (Z.to_nat start) labels))).

Definition subpath (labels : list string) (offset : Z) (len : option Z) : res string :=
  let n := Z.of_nat (length labels) in
  let start := if decide (offset < 0)%Z then (offset + n)%Z else offset in
  let start := if decide (start < 0)%Z then (start + n)%Z else start in
  let stop := match len with
              | Some l => if decide (l < 0)%Z then (n + l)%Z
                          else if decide (l = 0)%Z then start
                          else i64_add start l
              | None => n
              end in
  inner_subltree labels start stop.

(** The first of the positions [i, i + 1, ...] of the haystack at which the needle
    is found. *)
Fixpoint find_at (needle : list string) (i : nat) (hay : list string) : option nat :=
  if decide (length hay < length needle) then None
  else if decide (take (length needle) hay = needle) then Some i
  else match hay with
       | [] => None
       | _ :: hay => find_at needle (S i) hay
       end.

Definition ltree_index (hay needle : list string) (offset : Z) : Z :=
  let n := Z.of_nat (length hay) in
  let start := Z.to_nat (if decide (offset < 0)%Z then Z.max (n + offset) 0 else offset) in
  let found := if decide (needle = [] \/ length hay < length needle) then None
               else find_at needle start (drop start hay) in
  match found with Some i => Z.of_nat i | None => -1 end.

(** [zip(..).take_while(..).count()] *)
Fixpoint shared_prefix (a b : list string) : nat :=
  match a, b with
  | x :: a, y :: b => if decide (x = y) then S (shared_prefix a b) else 0
  | _, _ => 0
  end.

Definition lca (la lb : list string) : string :=
  let levels := Nat.min (shared_prefix la lb) (Nat.min (length la) (length lb) - 1) in
  join "." (take levels la).

Definition ltree_call (func : string) (args : list SqlValue) : res SqlValue :=
  if any_null args then Ok VNull
  else if decide (func = "nlevel") then
    let? path := arg_ltree args 0 func in Ok (VInt4 (wrap_signed 32 (Z.of_nat (length (ltree_labels path)))))
  else if decide (func = "subltree") then
    let? path := arg_ltree args 0 func in
    let? start := arg_i64 args 1 func in
    let? stop := arg_i64 args 2 func in
    let? p := inner_subltree (ltree_labels path) start stop in Ok (VLtree p)
  else if decide (func = "subpath") then
    let? path := arg_ltree args 0 func in
    let? offset := arg_i64 args 1 func in
    let? len := match args !! 2 with Some _ => let? l := arg_i64 args 2 func in Ok (Some l) | None => Ok None end in
    let? p := subpath (ltree_labels path) offset len in Ok (VLtree p)
  else if decide (func = "index") then
    let? a := arg_ltree args 0 func in
    let? b := arg_ltree args 1 func in
    let? offset := match args !! 2 with Some _ => arg_i64 args 2 func | None => Ok 0%Z end in
    Ok (VInt4 (wrap_signed 32 (ltree_index (ltree_labels a) (ltree_labels b) offset)))
  else if decide (func = "text2ltree") then
    let? t := arg_text args 0 func in from_text TLtree t
  else if decide (func = "ltree2text") then
    let? path := arg_ltree args 0 func in Ok (VText path)
  else if decide (func = "lca") then
    let? a := arg_ltree args 0 func in
    let? b := arg_ltree args 1 func in
    Ok (VLtree (lca (ltree_labels a) (ltree_labels b)))
  else raise (no_such func).

Definition is_prefix (a b : string) : bool :=
  let la := ltree_labels a in
  let lb := ltree_labels b in
  bool_decide (length la <= length lb) && bool_decide (la = take (length la) lb).

(** ** Patterns of paths *)

Record Variant := mk_variant { label : string; ci : bool; prefix : bool; word : bool }.
Record Level := mk_level { negated : bool; star : bool; level_min : N; level_max : N; variants : list Variant }.

Definition usize_max : Z := 2 ^ 64 - 1.

Definition lquery_error (query : string) : Fault :=
  Raise (Syntax ("lquery syntax error in " ++ dquote ++ query ++ dquote)).

(** [rest.rfind('{')]: the part before the last brace and the part from it. *)
Definition split_last (c : N) (l : list N) : option (list N * list N) :=
  match split_once_list c (reverse l) with
  | Some (after, before) => Some (reverse before, c :: reverse after)
  | None => None
  end.

Definition parse_bound (query : string) (s : string) (dflt : N) : res N :=
  if decide (s = "") then Ok dflt
  else match parse_int 0 usize_max s with Some n => Ok (Z.to_N n) | None => Err (lquery_error query) end.

Definition parse_quantifier (query : string) (inner : string) : res (N * N) :=
  let? bounds :=
    match split_once (code ",") inner with
    | None => let? n := parse_bound query inner 0 in Ok (n, n)
    | Some (lo, hi) =>
        let? lo := parse_bound query lo 0 in
        let? hi := parse_bound query hi (Z.to_N usize_max) in Ok (lo, hi)
    end in
  if (bounds.2 <? bounds.1)%N then Err (lquery_error query) else Ok bounds.

(** The modifiers at the end of a branch, from its last character on. *)
Fixpoint strip_modifiers (rev : list N) (v : Variant) : list N * Variant :=
  match rev with
  | [] => ([], v)
  | c :: rest =>
      if (c =? code "@")%N then strip_modifiers rest (mk_variant "" true (prefix v) (word v))
      else if (c =? code "*")%N then strip_modifiers rest (mk_variant "" (ci v) true (word v))
      else if (c =? code "%")%N then strip_modifiers rest (mk_variant "" (ci v) (prefix v) true)
      else (rev, v)
  end.

Definition parse_variant (query : string) (branch : string) : res Variant :=
  let '(rev, v) := strip_modifiers (reverse (chars branch)) (mk_variant "" false false false) in
  let l := reverse rev in
  if bool_decide (l <> []) && forallb (fun c => is_alphanumeric c || (c =? code "_")%N || (c =? code "-")%N) l
  then Ok (mk_variant (of_chars l) (ci v) (prefix v) (word v))
  else Err (lquery_error query).

Definition parse_level (query : string) (item : string) : res Level :=
  let '(neg, rest) := match strip_prefix "!" item with Some rest => (true, rest) | None => (false, item) end in
  let? q :=
    match split_last (code "{") (chars rest) with
    | Some (before, from) =>
        match strip_suffix "}" (of_chars (tail from)) with
        | Some inner => let? b := parse_quantifier query inner in Ok (Some b, of_chars before)
        | None => Err (lquery_error query)
        end
    | None => Ok (None, rest)
    end in
  let '(quant, rest) := (q : option (N * N) * string) in
  if decide (rest = "*") then
    let '(lo, hi) := default (0%N, Z.to_N usize_max) quant in Ok (mk_level neg true lo hi [])
  else if decide (rest = "") then Err (lquery_error query)
  else
    let? vs := traverse (parse_variant query) (split (code "|") rest) in
    let '(lo, hi) := default (1%N, 1%N) quant in Ok (mk_level neg false lo hi vs).

Definition parse_lquery (query : string) : res (list Level) :=
  let q := trim query in
  if decide (q = "") then Err (lquery_error query)
  else traverse (parse_level query) (split (code ".") q).

(** [word_match]: the start positions are tried in order. *)
Fixpoint words_at (pre : bool) (pwords lwords : list string) : bool :=
  match pwords, lwords with
  | [], _ => true
  | p :: pwords, l :: lwords => (if pre then String.prefix p l else bool_decide (l = p)) && words_at pre pwords lwords
  | _ :: _, [] => true
  end.

Definition word_match (pattern lab : string) (pre : bool) : bool :=
  let pwords := split (code "_") pattern in
  let lwords := split (code "_") lab in
  if decide (length lwords < length pwords) then false
  else existsb (fun start => words_at pre pwords (drop start lwords)) (seq 0 (length lwords - length pwords + 1)).

Definition variant_matches (v : Variant) (lab : string) : bool :=
  let '(pat, lab) := if ci v then (to_lowercase (label v), to_lowercase lab) else (label v, lab) in
  if word v then word_match pat lab (prefix v)
  else if prefix v then String.prefix pat lab
  else bool_decide (lab = pat).

Definition level_matches (level : Level) (lab : string) : bool :=
  if star level then true else xorb (existsb (fun v => variant_matches v lab) (variants level)) (negated level).

(** The labels from [li] on are the argument; the loop has counted [count] of them. *)
Fixpoint lquery_match (levels : list Level) (labels : list string) : bool :=
  match levels with
  | [] => bool_decide (labels = [])
  | level :: levels =>
      let remaining := N.of_nat (length labels) in
      if (remaining <? level_min level)%N then false
      else
        let cap := N.min (level_max level) remaining in
        (fix loop (count : N) (rest : list string) : bool :=
           if (level_min level <=? count)%N && lquery_match levels rest then true
           else if (count =? cap)%N then false
           else match rest with
                | [] => false
                | l :: rest => if level_matches level l then loop (count + 1)%N rest else false
                end) 0%N labels
  end.

Definition ltree_operator (op : string) (left right : SqlValue) : res SqlValue :=
  if value_is_null left || value_is_null right then Ok VNull
  else if decide (op = "@>") then
    let? a := arg_ltree [left; right] 0 op in
    let? b := arg_ltree [left; right] 1 op in Ok (VBool (is_prefix a b))
  else if decide (op = "<@") then
    let? a := arg_ltree [left; right] 0 op in
    let? b := arg_ltree [left; right] 1 op in Ok (VBool (is_prefix b a))
  else if decide (op = "~") then
    let? pq := match left, right with
               | VLtree p, q => Ok (p, q)
               | q, VLtree p => Ok (p, q)
               | _, _ => raise (bad_arg op 0 "ltree" left)
               end in
    let? q := ok_or (to_text pq.2) (bad_arg op 1 "lquery" pq.2) in
    let? levels := parse_lquery q in
    Ok (VBool (lquery_match levels (ltree_labels pq.1)))
  else raise (no_such op).

(** ** Levenshtein distance *)

Definition MAX_LEVENSHTEIN_STRLEN : nat := 255.

(** [v[i]] for an index in range. *)
Definition at_index (v : list Z) (i : nat) : Z := default 0%Z (v !! i).

(** The two rows and the columns that are computed. *)
Record Band := mk_band { prev : list Z; curr : list Z; start_column : nat; stop_column : nat }.

Section levenshtein.
Context (s : list N) (ins_c del_c sub_c : Z).
Local Open Scope Z_scope.

(** The inner loop: [fuel] cells of the current row from column [i] on. *)
Fixpoint row_loop (y : N) (prev : list Z) (fuel i : nat) (curr : list Z) : list Z :=
  match fuel with
  | O => curr
  | S fuel =>
      let ins := at_index prev i + ins_c in
      let del := at_index curr (i - 1) + del_c in
      let sub := at_index prev (i - 1) + (if bool_decide (s !! (i - 1)%nat = Some y) then 0 else sub_c) in
      row_loop y prev fuel (S i) (<[i := Z.min (Z.min ins del) sub]> curr)
  end.

Definition residual (zp : Z) (col : nat) : Z :=
  let net_inserts := Z.of_nat col - zp in
  if decide (0 < net_inserts) then net_inserts * ins_c else - net_inserts * del_c.

Fixpoint shrink_stop (prev : list Z) (zp d : Z) (stop : nat) : nat :=
  match stop with
  | O => O
  | S ii => if decide (at_index prev ii + residual zp ii <= d) then S ii else shrink_stop prev zp d ii
  end.

(** [fuel] is [stop_column - start_column]. *)
Fixpoint advance_start (zp d : Z) (fuel : nat) (b : Band) : Band :=
  match fuel with
  | O => b
  | S fuel =>
      let i := start_column b in
      if decide (at_index (prev b) i + residual zp i <= d) then b
      else advance_start zp d fuel (mk_band (<[i := d + 1]> (prev b)) (<[i := d + 1]> (curr b)) (S i) (stop_column b))
  end.

(** One row, [m1] columns and the bound: the row, or the value returned early. *)
Definition row_step (m1 nc : nat) (max_d : option Z) (j : nat) (y : N) (b : Band) : Z + Band :=
  let over := match max_d with Some d => d + 1 | None => 0 end in
  let '(prev, stop) :=
    if decide (stop_column b < m1)%nat then (<[stop_column b := over]> (prev b), S (stop_column b))
    else (prev b, stop_column b) in
  let '(curr, i) :=
    if decide (start_column b = 0%nat) then (<[0%nat := Z.of_nat j * ins_c]> (curr b), 1%nat)
    else (curr b, start_column b) in
  let row := row_loop y prev (stop - i) i curr in
  match max_d with
  | None => inr (mk_band row prev (start_column b) stop)
  | Some d =>
      let zp := Z.of_nat j - (Z.of_nat nc - (Z.of_nat m1 - 1)) in
      let stop := shrink_stop row zp d stop in
      let b := advance_start zp d (stop - start_column b) (mk_band row prev (start_column b) stop) in
      if decide (stop_column b <= start_column b)%nat then inl (d + 1) else inr b
  end.

Fixpoint rows (m1 nc : nat) (max_d : option Z) (j : nat) (t : list N) (b : Band) : Z + Band :=
  match t with
  | [] => inr b
  | y :: t =>
      match row_step m1 nc max_d j y b with
      | inl r => inl r
      | inr b => rows m1 nc max_d (S j) t b
      end
  end.

Fixpoint first_row (stop i : nat) (v : list Z) : list Z :=
  match stop with
  | O => v
  | S stop => first_row stop (S i) (<[i := Z.of_nat i * del_c]> v)
  end.

Definition distance_rows (t : list N) (max_d : option Z) (stop : nat) : Z :=
  let m1 := S (length s) in
  let fill := match max_d with Some d => d + 1 | None => 0 end in
  match rows m1 (length t) max_d 1 t (mk_band (first_row stop 0 (replicate m1 fill)) (replicate m1 fill) 0 stop) with
  | inl r => r
  | inr b => at_index (prev b) (m1 - 1)
  end.
End levenshtein.

(** [levenshtein_internal] on characters, both lists not empty. *)
Definition distance (s t : list N) (ins_c del_c sub_c : Z) (max_d : option Z) : Z :=
  let mc := length s in
  let nc := length t in
  match (match max_d with Some d => if decide (0 <= d)%Z then Some d else None | None => None end) with
  | None => distance_rows s ins_c del_c sub_c t None (S mc)
  | Some d =>
      let net_inserts := (Z.of_nat nc - Z.of_nat mc)%Z in
      let min_theo_d := (if decide (net_inserts < 0) then - net_inserts * del_c else net_inserts * ins_c)%Z in
      if decide (d < min_theo_d)%Z then (d + 1)%Z
      else
        let sub_c := (if decide (ins_c + del_c < sub_c) then ins_c + del_c else sub_c)%Z in
        let max_theo_d := (min_theo_d + sub_c * Z.of_nat (Nat.min mc nc))%Z in
        if decide (max_theo_d <= d)%Z then distance_rows s ins_c del_c sub_c t None (S mc)
        else if decide (0 < ins_c + del_c)%Z then
          let slack_d := (d - min_theo_d)%Z in
          let best_column := Z.to_nat (if decide (net_inserts < 0)%Z then - net_inserts else 0)%Z in
          let stop := (best_column + Z.to_nat (Z.quot slack_d (ins_c + del_c)) + 1)%nat in
          distance_rows s ins_c del_c sub_c t (Some d) (if decide (mc < stop)%nat then S mc else stop)
        else distance_rows s ins_c del_c sub_c t (Some d) (S mc)
  end.

Definition levenshtein_internal (source target : string) (ins_c del_c sub_c : Z) (max_d : option Z) : res Z :=
  let s := chars source in
  let t := chars target in
  if decide (s = []) then Ok (Z.of_nat (length t) * ins_c)%Z
  else if decide (t = []) then Ok (Z.of_nat (length s) * del_c)%Z
  else if decide (MAX_LEVENSHTEIN_STRLEN < length s \/ MAX_LEVENSHTEIN_STRLEN < length t)
  then raise (InvalidParameter "argument exceeds the maximum length of 255 characters")
  else Ok (distance s t ins_c del_c sub_c max_d).

(** ** Soundex *)

Definition SOUNDEX_TABLE : string := "01230120022455012623010202".

Definition to_upper (b : N) : N := if is_ascii_lower b then (b - 32)%N else b.
Definition is_alphabetic (b : N) : bool := is_ascii_upper b || is_ascii_lower b.

Definition soundex_code (b : N) : N :=
  let up := to_upper b in
  if is_ascii_upper up then
    match String.get (N.to_nat (up - 65)) SOUNDEX_TABLE with Some a => byte_code a | None => 0%N end
  else up.

(** The loop after the first letter, with the byte before. *)
Fixpoint soundex_loop (before : N) (bytes : list N) (out : list N) : list N :=
  match bytes with
  | [] => out
  | b :: bytes =>
      if decide (length out < 4) then
        let out :=
          if is_alphabetic b && negb (soundex_code b =? soundex_code before)%N && negb (soundex_code b =? 48)%N
          then (out ++ [soundex_code b])%list else out in
        soundex_loop b bytes out
      else out
  end.

Definition soundex4 (input : string) : list N :=
  match skip_while (fun b => negb (is_alphabetic b)) (byte_code <$> String.list_ascii_of_string input) with
  | [] => [0; 0; 0; 0]%N
  | b :: bytes =>
      let code := soundex_loop b bytes [to_upper b] in
      (code ++ replicate (4 - length code) 48%N)%list
  end.

Definition soundex (input : string) : string :=
  match soundex4 input with
  | 0%N :: _ => ""
  | code => String.string_of_list_ascii (byte_of <$> code)
  end.

Definition difference (a b : string) : Z :=
  Z.of_nat (length (filter (fun xy => xy.1 = xy.2) (zip (soundex4 a) (soundex4 b)))).

(** ** The entry point, without metaphone *)

Definition bad_arity (func : string) (got : nat) (want : string) : RelError :=
  UndefinedFunction (func ++ " takes " ++ want ++ " arguments; " ++ pretty (N.of_nat got) ++ " given").

Definition check_arity (func : string) (args : list SqlValue) (want : nat) : res unit :=
  if decide (length args = want) then Ok tt else raise (bad_arity func (length args) (pretty (N.of_nat want))).

Definition int4 (v : Z) : SqlValue := VInt4 (Z.min (Z.max v i32_min) i32_max).

Definition costs (args : list SqlValue) (func : string) : res (Z * Z * Z) :=
  let? i := arg_i64 args 2 func in
  let? d := arg_i64 args 3 func in
  let? s := arg_i64 args 4 func in Ok (i, d, s).

(** The arms of [call], behind its test for a null argument. *)
Definition strict (args : list SqlValue) (r : res SqlValue) : res SqlValue :=
  if any_null args then Ok VNull else r.

Definition call_levenshtein (args : list SqlValue) : res SqlValue :=
  strict args (
    let func := "levenshtein" in
    let? s := arg_text args 0 func in
    let? t := arg_text args 1 func in
    let? c := match length args with
              | 2 => Ok (1, 1, 1)%Z
              | 5 => costs args func
              | n => raise (bad_arity func n "2 or 5")
              end in
    let? r := levenshtein_internal s t c.1.1 c.1.2 c.2 None in Ok (int4 r)).

Definition call_levenshtein_less_equal (args : list SqlValue) : res SqlValue :=
  strict args (
    let func := "levenshtein_less_equal" in
    let? s := arg_text args 0 func in
    let? t := arg_text args 1 func in
    let? cd := match length args with
               | 3 => let? d := arg_i64 args 2 func in Ok ((1, 1, 1)%Z, d)
               | 6 => let? c := costs args func in let? d := arg_i64 args 5 func in Ok (c, d)
               | n => raise (bad_arity func n "3 or 6")
               end in
    let? r := levenshtein_internal s t cd.1.1.1 cd.1.1.2 cd.1.2 (Some cd.2) in Ok (int4 r)).

Definition call_soundex (args : list SqlValue) : res SqlValue :=
  strict args (
    let? _ := check_arity "soundex" args 1 in
    let? s := arg_text args 0 "soundex" in Ok (VText (soundex s))).

Definition call_difference (args : list SqlValue) : res SqlValue :=
  strict args (
    let? _ := check_arity "difference" args 2 in
    let? a := arg_text args 0 "difference" in
    let? b := arg_text args 1 "difference" in Ok (int4 (difference a b))).
End ext.
