(* ===== verification/SqlExtInv.v ===== *)
(** * Correctness of the extension functions

    What a path pattern matches, and that the banded computation of the Levenshtein
    distance finds the cheapest edit script. *)

From S2P Require Import Prelude BTree Json Utf8 RustString RustFloat SqlTypes Fts SqlValue SqlExt.

(** ** Patterns of paths *)

Section patterns.
Context `{!Foreign}.

(** A pattern matches a path when the path can be cut into one segment per level, of
    a length that the level allows, all of whose labels match it. *)
Inductive path_match : list Level -> list string -> Prop :=
| match_nil : path_match [] []
| match_level level levels seg rest :
    (level_min level <= N.of_nat (length seg) <= level_max level)%N ->
    Forall (fun l => level_matches level l = true) seg -> path_match levels rest ->
    path_match (level :: levels) (seg ++ rest).

Definition level_loop (level : Level) (levels : list Level) (cap : N) :=
  fix loop (count : N) (rest : list string) : bool :=
    if (level_min level <=? count)%N && lquery_match levels rest then true
    else if (count =? cap)%N then false
    else match rest with
         | [] => false
         | l :: rest => if level_matches level l then loop (count + 1)%N rest else false
         end.

Lemma level_loop_spec level levels cap count rest :
  (count <= cap)%N ->
  level_loop level levels cap count rest = true <->
  exists seg rest', rest = seg ++ rest' /\ Forall (fun l => level_matches level l = true) seg /\
    (level_min level <= count + N.of_nat (length seg) <= cap)%N /\ lquery_match levels rest' = true.
Proof.
  revert count. induction rest as [|l rest IH]; intros count Hc; simpl.
  - destruct (N.leb_spec (level_min level) count) as [Hm|Hm], (lquery_match levels []) eqn:E; simpl;
      try (split; [intros _; exists [], []; split_and!; [done|constructor|simpl; lia|simpl; lia|done]|done]);
      destruct (count =? cap)%N; (split; [done|]); intros (seg & rest' & Heq & _ & Hb & Hr);
      symmetry in Heq; apply app_nil in Heq as [-> ->]; simpl in *; try congruence; lia.
  - destruct ((level_min level <=? count)%N && lquery_match levels (l :: rest)) eqn:E.
    { apply andb_true_iff in E as [Hm%N.leb_le Hr]. split; [|done]. intros _. exists [], (l :: rest).
      split_and!; [done|constructor|simpl; lia|simpl; lia|done]. }
    assert (Hne : forall rest', (level_min level <= count + 0)%N -> l :: rest = rest' -> lquery_match levels rest' = true -> False).
    { intros rest' Hm <- Hr. rewrite Hr, andb_true_r in E. apply N.leb_gt in E. lia. }
    destruct (N.eqb_spec count cap) as [->|Hcap].
    + split; [done|]. intros ([|x seg] & rest' & Heq & _ & Hb & Hr); simpl in *; [exfalso; apply (Hne rest'); [lia|done..]|lia].
    + destruct (level_matches level l) eqn:El.
      * rewrite IH by lia. split.
        -- intros (seg & rest' & -> & Hs & Hb & Hr). exists (l :: seg), rest'. split_and!; [done|by constructor|simpl; lia|simpl; lia|done].
        -- intros ([|x seg] & rest' & Heq & Hs & Hb & Hr); simpl in *; [exfalso; apply (Hne rest'); [lia|done..]|].
           injection Heq as -> ->. apply Forall_cons in Hs as [_ Hs]. exists seg, rest'. split_and!; [done|done|lia|lia|done].
      * split; [done|]. intros ([|x seg] & rest' & Heq & Hs & Hb & Hr); simpl in *; [exfalso; apply (Hne rest'); [lia|done..]|].
        injection Heq as -> ->. apply Forall_cons in Hs as [Hs _]. congruence.
Qed.

Lemma lquery_match_spec levels labels : lquery_match levels labels = true <-> path_match levels labels.
Proof.
  revert labels. induction levels as [|level levels IH]; intros labels; simpl.
  { rewrite bool_decide_eq_true. split; [intros ->; constructor|by inversion 1]. }
  fold (level_loop level levels (N.min (level_max level) (N.of_nat (length labels)))).
  assert (Hloop := level_loop_spec level levels (N.min (level_max level) (N.of_nat (length labels))) 0 labels).
  destruct (N.ltb_spec (N.of_nat (length labels)) (level_min level)) as [Hlt|Hge].
  - split; [done|]. inversion 1; subst. rewrite length_app in Hlt. lia.
  - rewrite Hloop by lia. split.
    + intros (seg & rest & -> & Hs & Hb & Hr). constructor; [lia|done|by apply IH].
    + inversion 1 as [|? ? seg rest Hb Hs Hr]; subst. exists seg, rest. rewrite length_app.
      split_and!; [done|done|lia|lia|by apply IH].
Qed.
End patterns.

(** ** Edit scripts *)

Inductive Edit := Keep (c : N) | Insert (c : N) | Delete (c : N) | Replace (c c' : N).

Definition edit_source (e : Edit) : option N :=
  match e with Keep c | Delete c | Replace c _ => Some c | Insert _ => None end.
Definition edit_target (e : Edit) : option N :=
  match e with Keep c | Insert c | Replace _ c => Some c | Delete _ => None end.

Definition transforms (script : list Edit) (s t : list N) : Prop :=
  omap edit_source script = s /\ omap edit_target script = t.

Section scripts.
Context (ins_c del_c sub_c : Z).
Local Open Scope Z_scope.

Definition edit_cost (e : Edit) : Z :=
  match e with Keep _ => 0 | Insert _ => ins_c | Delete _ => del_c | Replace _ _ => sub_c end.

Definition script_cost (script : list Edit) : Z := foldr (fun e z => edit_cost e + z) 0 script.

Lemma script_cost_app a b : script_cost (a ++ b) = script_cost a + script_cost b.
Proof. unfold script_cost. induction a as [|e a IH]; simpl; lia. Qed.

Lemma script_cost_reverse a : script_cost (reverse a) = script_cost a.
Proof. induction a as [|e a IH]; [done|]. rewrite reverse_cons, script_cost_app, IH. simpl. lia. Qed.

Lemma omap_reverse {A B} (f : A -> option B) l : omap f (reverse l) = reverse (omap f l).
Proof.
  induction l as [|x l IH]; [done|]. rewrite reverse_cons, omap_app, IH. csimpl.
  destruct (f x); [by rewrite reverse_cons|by rewrite app_nil_r].
Qed.

Lemma transforms_reverse script s t : transforms script s t -> transforms (reverse script) (reverse s) (reverse t).
Proof. intros [<- <-]. unfold transforms. by rewrite !omap_reverse. Qed.

(** The cost of the cheapest script, by its last edit; the lists are reversed. *)
Definition step_cost (x y : N) : Z := if bool_decide (x = y) then 0 else sub_c.

Fixpoint dist (rs : list N) : list N -> Z :=
  match rs with
  | [] => fun rt => Z.of_nat (length rt) * ins_c
  | x :: rs' => fix go (rt : list N) : Z :=
      match rt with
      | [] => Z.of_nat (length rs) * del_c
      | y :: rt' => Z.min (Z.min (go rt' + ins_c) (dist rs' rt + del_c)) (dist rs' rt' + step_cost x y)
      end
  end.

Lemma dist_nil_l rt : dist [] rt = Z.of_nat (length rt) * ins_c.
Proof. done. Qed.
Lemma dist_nil_r rs : dist rs [] = Z.of_nat (length rs) * del_c.
Proof. destruct rs; simpl; lia. Qed.
Lemma dist_cons x rs y rt :
  dist (x :: rs) (y :: rt) =
  Z.min (Z.min (dist (x :: rs) rt + ins_c) (dist rs (y :: rt) + del_c)) (dist rs rt + step_cost x y).
Proof. done. Qed.

Context (Hins : 0 <= ins_c) (Hdel : 0 <= del_c) (Hsub : 0 <= sub_c).

Lemma step_cost_bounds x y : 0 <= step_cost x y <= sub_c.
Proof using Hsub. unfold step_cost. case_bool_decide; lia. Qed.

Lemma dist_insert rs y rt : dist rs (y :: rt) <= dist rs rt + ins_c.
Proof. destruct rs as [|x rs]; [rewrite !dist_nil_l; cbn [length]; lia|rewrite dist_cons; lia]. Qed.

Lemma dist_delete x rs rt : dist (x :: rs) rt <= dist rs rt + del_c.
Proof. destruct rt as [|y rt]; [rewrite !dist_nil_r; cbn [length]; lia|rewrite dist_cons; lia]. Qed.

Lemma dist_step x rs y rt : dist (x :: rs) (y :: rt) <= dist rs rt + step_cost x y.
Proof. rewrite dist_cons. lia. Qed.

Lemma dist_lower script rs rt : transforms script rs rt -> dist rs rt <= script_cost script.
Proof using Hsub.
  revert rs rt. induction script as [|e script IH]; intros rs rt [Hs Ht]; [simpl in *; subst; done|].
  assert (Hc : script_cost (e :: script) = edit_cost e + script_cost script) by done. rewrite Hc.
  destruct e as [c|c|c|c c']; csimpl in Hs; csimpl in Ht; subst rs rt; cbn [edit_cost].
  - pose proof (dist_step c (omap edit_source script) c (omap edit_target script)) as Hd.
    unfold step_cost in Hd. rewrite bool_decide_true in Hd by done. specialize (IH _ _ (conj eq_refl eq_refl)). lia.
  - pose proof (dist_insert (omap edit_source script) c (omap edit_target script)).
    specialize (IH _ _ (conj eq_refl eq_refl)). lia.
  - pose proof (dist_delete c (omap edit_source script) (omap edit_target script)).
    specialize (IH _ _ (conj eq_refl eq_refl)). lia.
  - pose proof (dist_step c (omap edit_source script) c' (omap edit_target script)) as Hd.
    pose proof (step_cost_bounds c c'). specialize (IH _ _ (conj eq_refl eq_refl)). lia.
Qed.

Lemma insert_all rt : transforms (Insert <$> rt) [] rt /\ script_cost (Insert <$> rt) = Z.of_nat (length rt) * ins_c.
Proof.
  induction rt as [|y rt [[H1 H2] H3]]; [done|]. unfold transforms in *. csimpl. rewrite H1, H2. split; [done|].
  change (ins_c + script_cost (Insert <$> rt) = Z.of_nat (S (length rt)) * ins_c). lia.
Qed.

Lemma delete_all rs : transforms (Delete <$> rs) rs [] /\ script_cost (Delete <$> rs) = Z.of_nat (length rs) * del_c.
Proof.
  induction rs as [|y rs [[H1 H2] H3]]; [done|]. unfold transforms in *. csimpl. rewrite H1, H2. split; [done|].
  change (del_c + script_cost (Delete <$> rs) = Z.of_nat (S (length rs)) * del_c). lia.
Qed.

Lemma dist_attained rs rt : exists script, transforms script rs rt /\ script_cost script = dist rs rt.
Proof.
  revert rt. induction rs as [|x rs IH]; intros rt.
  { exists (Insert <$> rt). rewrite dist_nil_l. apply insert_all. }
  induction rt as [|y rt IHt].
  { exists (Delete <$> (x :: rs)). rewrite dist_nil_r. apply delete_all. }
  rewrite dist_cons. destruct IHt as (a & [Ha1 Ha2] & Ha), (IH (y :: rt)) as (b & [Hb1 Hb2] & Hb), (IH rt) as (c & [Hc1 Hc2] & Hc).
  destruct (Z.min_spec (Z.min (dist (x :: rs) rt + ins_c) (dist rs (y :: rt) + del_c)) (dist rs rt + step_cost x y)) as [[_ ->]|[_ ->]].
  - destruct (Z.min_spec (dist (x :: rs) rt + ins_c) (dist rs (y :: rt) + del_c)) as [[_ ->]|[_ ->]].
    + exists (Insert y :: a). split; [split; csimpl; congruence|].
      change (script_cost (Insert y :: a)) with (ins_c + script_cost a). lia.
    + exists (Delete x :: b). split; [split; csimpl; congruence|].
      change (script_cost (Delete x :: b)) with (del_c + script_cost b). lia.
  - unfold step_cost. case_bool_decide as Hxy.
    + subst. exists (Keep y :: c). split; [split; csimpl; congruence|].
      change (script_cost (Keep y :: c)) with (0 + script_cost c). lia.
    + exists (Replace x y :: c). split; [split; csimpl; congruence|].
      change (script_cost (Replace x y :: c)) with (sub_c + script_cost c). lia.
Qed.

(** Dropping a character costs at most an edit. *)
Lemma dist_drop_target rs y rt : dist rs rt <= dist rs (y :: rt) + del_c.
Proof using Hins Hdel Hsub.
  revert y rt. induction rs as [|x rs IH]; intros y rt; [rewrite !dist_nil_l; cbn [length]; lia|].
  rewrite dist_cons. pose proof (dist_delete x rs rt). pose proof (IH y rt). pose proof (step_cost_bounds x y). lia.
Qed.

Lemma dist_drop_source x rs rt : dist rs rt <= dist (x :: rs) rt + ins_c.
Proof using Hins Hdel Hsub.
  revert x rs. induction rt as [|y rt IH]; intros x rs; [rewrite !dist_nil_r; cbn [length]; lia|].
  rewrite dist_cons. pose proof (dist_insert rs y rt). pose proof (IH x rs). pose proof (step_cost_bounds x y). lia.
Qed.

Lemma dist_diagonal x rs y rt : dist rs rt <= dist (x :: rs) (y :: rt).
Proof using Hins Hdel Hsub.
  rewrite dist_cons. pose proof (dist_drop_source x rs rt). pose proof (dist_drop_target rs y rt).
  pose proof (step_cost_bounds x y). lia.
Qed.

(** The difference in length has to be paid. *)
Lemma dist_length rs rt :
  Z.max ((Z.of_nat (length rt) - Z.of_nat (length rs)) * ins_c) ((Z.of_nat (length rs) - Z.of_nat (length rt)) * del_c) <=
  dist rs rt.
Proof using Hins Hdel Hsub.
  revert rt. induction rs as [|x rs IH]; intros rt; [rewrite dist_nil_l; cbn [length]; nia|].
  induction rt as [|y rt IHt]; [rewrite dist_nil_r; cbn [length]; nia|].
  rewrite dist_cons. pose proof (IH (y :: rt)). pose proof (IH rt). pose proof (step_cost_bounds x y).
  cbn [length] in *. nia.
Qed.
End scripts.

(** A substitution that costs more than a deletion and an insertion is not used. *)
Lemma dist_clamp ins_c del_c sub_c rs rt :
  dist ins_c del_c (Z.min sub_c (ins_c + del_c)) rs rt = dist ins_c del_c sub_c rs rt.
Proof.
  revert rt. induction rs as [|x rs IH]; intros rt; [done|]. induction rt as [|y rt IHt]; [done|].
  rewrite !dist_cons, IHt, !IH. pose proof (dist_delete ins_c del_c sub_c x rs rt).
  unfold step_cost. case_bool_decide; lia.
Qed.

(** ** The rows of the matrix *)

Lemma at_insert_eq l i x : (i < length l)%nat -> at_index (<[i := x]> l) i = x.
Proof. intros. unfold at_index. by rewrite list_lookup_insert_eq. Qed.
Lemma at_insert_ne l i k x : i <> k -> at_index (<[i := x]> l) k = at_index l k.
Proof. intros. unfold at_index. by rewrite list_lookup_insert_ne. Qed.

Lemma reverse_take_S {A} (l : list A) i x : l !! i = Some x -> reverse (take (S i) l) = x :: reverse (take i l).
Proof. intros H. by rewrite (take_S_r _ _ x H), reverse_snoc. Qed.

Section cells.
Context (s t : list N) (ins_c del_c sub_c : Z).
Local Open Scope Z_scope.

(** The distance of the first [i] characters of [s] to the first [j] of [t]. *)
Definition cell (i j : nat) : Z := dist ins_c del_c sub_c (reverse (take i s)) (reverse (take j t)).

Lemma cell_top i : (i <= length s)%nat -> cell i 0 = Z.of_nat i * del_c.
Proof. intros. unfold cell. rewrite take_0, dist_nil_r, length_reverse, length_take, Nat.min_l by done. done. Qed.

Lemma cell_left j : (j <= length t)%nat -> cell 0 j = Z.of_nat j * ins_c.
Proof. intros. unfold cell. rewrite take_0, dist_nil_l, length_reverse, length_take, Nat.min_l by done. done. Qed.

Lemma cell_step i j x y :
  s !! i = Some x -> t !! j = Some y ->
  cell (S i) (S j) =
  Z.min (Z.min (cell (S i) j + ins_c) (cell i (S j) + del_c)) (cell i j + step_cost sub_c x y).
Proof. intros Hx Hy. unfold cell. rewrite (reverse_take_S _ _ _ Hx), (reverse_take_S _ _ _ Hy). apply dist_cons. Qed.

Lemma cell_end : cell (length s) (length t) = dist ins_c del_c sub_c (reverse s) (reverse t).
Proof. unfold cell. by rewrite !take_ge by lia. Qed.

(** A row is computed from the one above when its cells satisfy a relation that the
    step keeps. *)
Section row.
Context (good : Z -> nat -> nat -> Prop).
Hypothesis good_step : forall i j x y a b c,
  s !! i = Some x -> t !! j = Some y -> good a (S i) j -> good b i (S j) -> good c i j ->
  good (Z.min (Z.min (a + ins_c) (b + del_c)) (c + step_cost sub_c x y)) (S i) (S j).

Lemma row_loop_good y prev fuel i curr j :
  t !! j = Some y -> length curr = S (length s) -> (S i + fuel <= S (length s))%nat ->
  good (at_index curr i) i (S j) ->
  (forall k, (i <= k < S i + fuel)%nat -> good (at_index prev k) k j) ->
  let row := row_loop s ins_c del_c sub_c y prev fuel (S i) curr in
  length row = S (length s) /\
  (forall k, (i <= k < S i + fuel)%nat -> good (at_index row k) k (S j)) /\
  (forall k, (k <= i)%nat -> at_index row k = at_index curr k).
Proof using good_step.
  intros Hy. revert i curr. induction fuel as [|fuel IH]; intros i curr Hl Hf Hc Hp; simpl.
  { split_and!; [done| |done]. intros k Hk. by replace k with i by lia. }
  destruct (lookup_lt_is_Some_2 s i) as [x Hx]; [lia|].
  rewrite Nat.sub_0_r. set (v := Z.min _ _).
  assert (Hv : good v (S i) (S j)).
  { subst v. rewrite Hx. pose proof (good_step i j x y _ _ _ Hx Hy (Hp (S i) ltac:(lia)) Hc (Hp i ltac:(lia))) as Hg.
    unfold step_cost in Hg. replace (bool_decide (Some x = Some y)) with (bool_decide (x = y)); [done|].
    apply bool_decide_ext. naive_solver. }
  destruct (IH (S i) (<[S i := v]> curr)) as (H1 & H2 & H3); [by rewrite length_insert|lia|by rewrite at_insert_eq by lia| |].
  { intros k Hk. apply Hp. lia. }
  split_and!; [done| |].
  - intros k Hk. destruct (decide (k = i)) as [->|]; [|apply H2; lia]. rewrite H3, at_insert_ne by lia. done.
  - intros k Hk. rewrite H3, at_insert_ne by lia. done.
Qed.
End row.

(** ** Without a bound *)

Lemma first_row_spec stop i v :
  (i + stop <= length v)%nat ->
  length (first_row del_c stop i v) = length v /\
  forall k, at_index (first_row del_c stop i v) k =
    if decide (i <= k < i + stop)%nat then Z.of_nat k * del_c else at_index v k.
Proof.
  revert i v. induction stop as [|stop IH]; intros i v Hl; simpl; [split; [done|]; intros k; case_decide; [lia|done]|].
  destruct (IH (S i) (<[i := Z.of_nat i * del_c]> v)) as [H1 H2]; [rewrite length_insert; lia|].
  split; [by rewrite H1, length_insert|]. intros k. rewrite H2.
  destruct (decide (i = k)) as [<-|Hne]; [rewrite at_insert_eq by lia|rewrite at_insert_ne by done];
    repeat case_decide; try lia; done.
Qed.

Definition whole_row (j : nat) (b : Band) : Prop :=
  length (prev b) = S (length s) /\ length (curr b) = S (length s) /\
  start_column b = 0%nat /\ stop_column b = S (length s) /\
  forall k, (k <= length s)%nat -> at_index (prev b) k = cell k j.

Lemma whole_row_step n j y b :
  t !! j = Some y -> whole_row j b ->
  exists b', row_step s ins_c del_c sub_c (S (length s)) n None (S j) y b = inr b' /\ whole_row (S j) b'.
Proof.
  intros Hy (H1 & H2 & H3 & H4 & H5). unfold row_step. rewrite H3, H4.
  rewrite decide_False, decide_True by lia. eexists; split; [done|].
  pose proof (lookup_lt_Some _ _ _ Hy).
  destruct (row_loop_good (fun a i j => a = cell i j)) with (y := y) (prev := prev b) (fuel := length s) (i := 0%nat) (j := j)
    (curr := <[0%nat := Z.of_nat (S j) * ins_c]> (curr b)) as (R1 & R2 & R3).
  - intros i j' x y' a b' c Hx Hy' -> -> ->. by rewrite (cell_step _ _ _ _ Hx Hy').
  - done.
  - by rewrite length_insert.
  - lia.
  - rewrite at_insert_eq, cell_left by lia. done.
  - intros k Hk. apply H5. lia.
  - unfold whole_row. cbn [prev curr start_column stop_column]. rewrite Nat.sub_1_r. cbn [Nat.pred].
    split_and!; [done|done|done|done|]. intros k Hk. apply R2. lia.
Qed.

Lemma whole_rows n j b :
  (j <= length t)%nat -> whole_row j b ->
  exists b', rows s ins_c del_c sub_c (S (length s)) n None (S j) (drop j t) b = inr b' /\ whole_row (length t) b'.
Proof.
  intros Hj Hb. remember (length t - j)%nat as k eqn:Hk. revert j b Hj Hb Hk.
  induction k as [|k IH]; intros j b Hj Hb Hk.
  { rewrite drop_ge by lia. exists b. split; [done|]. by replace (length t) with j by lia. }
  destruct (lookup_lt_is_Some_2 t j) as [y Hy]; [lia|]. rewrite (drop_S _ _ _ Hy). simpl.
  destruct (whole_row_step n j y b Hy Hb) as (b' & -> & Hb'). apply IH; [lia|done|lia].
Qed.

Lemma distance_rows_unbounded :
  distance_rows s ins_c del_c sub_c t None (S (length s)) = dist ins_c del_c sub_c (reverse s) (reverse t).
Proof.
  unfold distance_rows. set (b0 := mk_band _ _ _ _).
  destruct (whole_rows (length t) 0 b0) as (b' & Hr & Hb'); [lia| |].
  - subst b0. unfold whole_row. cbn [prev curr start_column stop_column].
    destruct (first_row_spec (S (length s)) 0 (replicate (S (length s)) 0)) as [F1 F2]; [rewrite length_replicate; lia|].
    rewrite F1, !length_replicate. split_and!; [done..|]. intros k Hk. rewrite F2, decide_True, cell_top by lia. done.
  - rewrite drop_0 in Hr. rewrite Hr. destruct Hb' as (_ & _ & _ & _ & H5). rewrite Nat.sub_1_r. cbn [Nat.pred].
    rewrite H5, cell_end by lia. done.
Qed.
End cells.

(** ** With a bound *)

Section banded.
Context (s t : list N) (ins_c del_c sub_c d : Z).
Context (Hins : (0 <= ins_c)%Z) (Hdel : (0 <= del_c)%Z) (Hsub : (0 <= sub_c)%Z).
Local Open Scope Z_scope.
Local Abbreviation cell := (cell s t ins_c del_c sub_c).
Local Abbreviation mc := (length s).
Local Abbreviation nc := (length t).

Definition zero_point (j : nat) : Z := Z.of_nat j - (Z.of_nat nc - (Z.of_nat (S mc) - 1)).

(** What the rest of the strings costs at least. *)
Definition rest_cost (i j : nat) : Z := residual ins_c del_c (zero_point j) i.

Definition key (i j : nat) : Z := cell i j + rest_cost i j.

Lemma rest_insert i j : rest_cost i j <= ins_c + rest_cost i (S j).
Proof using Hins Hdel. unfold rest_cost, residual, zero_point. repeat case_decide; nia. Qed.
Lemma rest_delete i j : rest_cost i j <= del_c + rest_cost (S i) j.
Proof using Hins Hdel. unfold rest_cost, residual, zero_point. repeat case_decide; nia. Qed.
Lemma rest_diagonal i j : rest_cost (S i) (S j) = rest_cost i j.
Proof. unfold rest_cost, residual, zero_point. repeat case_decide; try lia; f_equal; lia. Qed.
Lemma rest_end : rest_cost mc nc = 0.
Proof. unfold rest_cost, residual, zero_point. case_decide; nia. Qed.

Lemma key_diagonal i j : (i < mc)%nat -> (j < nc)%nat -> key i j <= key (S i) (S j).
Proof using Hins Hdel Hsub.
  intros Hi Hj. unfold key. rewrite rest_diagonal. unfold SqlExtInv.cell.
  destruct (lookup_lt_is_Some_2 s i Hi) as [x Hx], (lookup_lt_is_Some_2 t j Hj) as [y Hy].
  rewrite (reverse_take_S _ _ _ Hx), (reverse_take_S _ _ _ Hy).
  pose proof (dist_diagonal ins_c del_c sub_c Hins Hdel Hsub x (reverse (take i s)) y (reverse (take j t))). lia.
Qed.

Lemma key_left j : (j < nc)%nat -> key 0 j <= key 0 (S j).
Proof using Hins Hdel. intros Hj. unfold key. rewrite !cell_left by lia. pose proof (rest_insert 0 j). lia. Qed.

(** A key is at least the least one of the cells it comes from. *)
Lemma key_step i j :
  (i < mc)%nat -> (j < nc)%nat -> Z.min (Z.min (key (S i) j) (key i (S j))) (key i j) <= key (S i) (S j).
Proof using Hins Hdel Hsub.
  intros Hi Hj. unfold key. destruct (lookup_lt_is_Some_2 s i Hi) as [x Hx], (lookup_lt_is_Some_2 t j Hj) as [y Hy].
  rewrite (cell_step _ _ _ _ _ _ _ _ _ Hx Hy). pose proof (rest_insert (S i) j). pose proof (rest_delete i (S j)).
  pose proof (rest_diagonal i j). pose proof (step_cost_bounds sub_c Hsub x y). lia.
Qed.

(** A cell is exact when a script through it can stay within the bound, and shows
    that none can otherwise. *)
Definition good (a : Z) (i j : nat) : Prop :=
  (key i j <= d -> a = cell i j) /\ (d < key i j -> d < a + rest_cost i j).

Lemma good_exact i j : good (cell i j) i j.
Proof. split; [done|]. unfold key. lia. Qed.

Lemma good_over i j : d < key i j -> good (d + 1) i j.
Proof using Hins Hdel.
  intros H. split; [lia|]. intros _. assert (0 <= rest_cost i j); [|lia].
  unfold rest_cost, residual. case_decide; nia.
Qed.

Lemma good_within a i j : good a i j -> a + rest_cost i j <= d <-> key i j <= d.
Proof. intros [H1 H2]. unfold key in *. destruct (Z.le_gt_cases (cell i j + rest_cost i j) d); split; lia. Qed.

Lemma good_step i j x y a b c :
  s !! i = Some x -> t !! j = Some y -> good a (S i) j -> good b i (S j) -> good c i j ->
  good (Z.min (Z.min (a + ins_c) (b + del_c)) (c + step_cost sub_c x y)) (S i) (S j).
Proof using Hins Hdel Hsub.
  intros Hx Hy Ha Hb Hc. pose proof (cell_step s t ins_c del_c sub_c _ _ _ _ Hx Hy).
  pose proof (rest_insert (S i) j). pose proof (rest_delete i (S j)).
  pose proof (rest_diagonal i j). pose proof (step_cost_bounds sub_c Hsub x y).
  unfold good, key in *. lia.
Qed.

Record banded (j : nat) (b : Band) : Prop := {
  banded_prev : length (prev b) = S mc;
  banded_curr : length (curr b) = S mc;
  banded_columns : (start_column b < stop_column b <= S mc)%nat;
  banded_left : forall k, (k < start_column b)%nat -> d < key k j;
  banded_right : forall k, (stop_column b <= k <= mc)%nat -> d < key k j;
  banded_good : forall k, (start_column b <= k < stop_column b)%nat -> good (at_index (prev b) k) k j;
  banded_edge : (0 < start_column b)%nat ->
    at_index (prev b) (start_column b - 1) = d + 1 /\ at_index (curr b) (start_column b - 1) = d + 1
}.

Lemma key_left_of start j :
  (j < nc)%nat -> (start <= S mc)%nat -> (forall k, (k < start)%nat -> d < key k j) ->
  forall k, (k < start)%nat -> d < key k (S j).
Proof using Hins Hdel Hsub.
  intros Hj Hs Hk k. induction k as [|k IH]; intros Hlt.
  - pose proof (key_left j Hj). specialize (Hk 0%nat Hlt). lia.
  - pose proof (key_step k j ltac:(lia) Hj). pose proof (Hk (S k) Hlt). pose proof (Hk k ltac:(lia)).
    specialize (IH ltac:(lia)). lia.
Qed.

Lemma key_later j i :
  (forall k, (k <= mc)%nat -> d < key k j) -> (j + i <= nc)%nat -> forall k, (k <= mc)%nat -> d < key k (j + i).
Proof using Hins Hdel Hsub.
  intros H0. induction i as [|i IH]; intros Hi k Hk; [rewrite Nat.add_0_r; auto|].
  rewrite Nat.add_succ_r. specialize (IH ltac:(lia)). destruct k as [|k].
  - pose proof (key_left (j + i) ltac:(lia)). specialize (IH 0%nat ltac:(lia)). lia.
  - pose proof (key_diagonal k (j + i) ltac:(lia) ltac:(lia)). specialize (IH k ltac:(lia)). lia.
Qed.

Lemma shrink_stop_spec row zp stop :
  let stop' := shrink_stop ins_c del_c row zp d stop in
  (stop' <= stop)%nat /\
  (forall k, (stop' <= k < stop)%nat -> d < at_index row k + residual ins_c del_c zp k) /\
  ((0 < stop')%nat -> at_index row (stop' - 1) + residual ins_c del_c zp (stop' - 1) <= d).
Proof.
  induction stop as [|ii IH]; simpl; [split_and!; [done|lia|lia]|]. case_decide as Hd.
  - split_and!; [done|lia|]. intros _. by replace (S ii - 1)%nat with ii by lia.
  - destruct IH as (H1 & H2 & H3). split_and!; [lia| |done]. intros k Hk. destruct (decide (k = ii)) as [->|]; [lia|].
    apply H2. lia.
Qed.

Lemma advance_start_spec zp fuel b :
  (start_column b + fuel <= S mc)%nat -> length (prev b) = S mc -> length (curr b) = S mc ->
  let b' := advance_start ins_c del_c zp d fuel b in
  length (prev b') = S mc /\ length (curr b') = S mc /\ stop_column b' = stop_column b /\
  (start_column b <= start_column b' <= start_column b + fuel)%nat /\
  (forall k, (start_column b <= k < start_column b')%nat -> d < at_index (prev b) k + residual ins_c del_c zp k) /\
  (forall k, (start_column b' <= k)%nat -> at_index (prev b') k = at_index (prev b) k) /\
  (start_column b = start_column b' /\ b' = b \/
   at_index (prev b') (start_column b' - 1) = d + 1 /\ at_index (curr b') (start_column b' - 1) = d + 1).
Proof.
  revert b. induction fuel as [|fuel IH]; intros b Hs Hp Hc; simpl.
  { split_and!; try done; try lia. by left. }
  case_decide as Hd; [split_and!; try done; try lia; by left|].
  set (b1 := mk_band _ _ _ _).
  destruct (IH b1) as (A1 & A2 & A3 & A4 & A5 & A6 & A7); subst b1; cbn [prev curr start_column stop_column] in *;
    rewrite ?length_insert; [lia|done|done|].
  split_and!; [done|done|done|lia|lia| | |].
  - intros k Hk. destruct (decide (k = start_column b)) as [->|Hne]; [lia|].
    specialize (A5 k ltac:(lia)). rewrite at_insert_ne in A5 by done. done.
  - intros k Hk. rewrite A6, at_insert_ne by lia. done.
  - right. destruct A7 as [[E1 E2]|A7]; [|done]. rewrite E2. cbn [prev curr start_column].
    rewrite Nat.sub_1_r. cbn [Nat.pred]. rewrite !at_insert_eq by lia. done.
Qed.

(** The row above with its band widened by one column. *)
Lemma banded_widen j b :
  (j < nc)%nat -> banded j b ->
  let '(prev1, stop1) :=
    if decide (stop_column b < S mc)%nat then (<[stop_column b := d + 1]> (prev b), S (stop_column b))
    else (prev b, stop_column b) in
  length prev1 = S mc /\ (start_column b < stop1 <= S mc)%nat /\
  (forall k, (start_column b - 1 <= k < stop1)%nat -> good (at_index prev1 k) k j) /\
  (forall k, (stop1 <= k <= mc)%nat -> d < key k (S j)) /\
  ((0 < start_column b)%nat -> at_index prev1 (start_column b - 1) = d + 1).
Proof using Hins Hdel Hsub.
  intros Hj [B1 B2 B3 B4 B5 B6 B7].
  assert (Hin : forall k, (start_column b - 1 <= k < stop_column b)%nat -> good (at_index (prev b) k) k j).
  { intros k Hk. destruct (decide (start_column b <= k)%nat); [apply B6; lia|].
    replace k with (start_column b - 1)%nat by lia. destruct B7 as [-> _]; [lia|]. apply good_over, B4. lia. }
  case_decide as Hs.
  - rewrite length_insert. split_and!; [done|lia|lia| | |].
    + intros k Hk. destruct (decide (k = stop_column b)) as [->|].
      * rewrite at_insert_eq by lia. apply good_over, B5. lia.
      * rewrite at_insert_ne by done. apply Hin. lia.
    + intros [|k] Hk; [lia|]. pose proof (key_diagonal k j ltac:(lia) Hj). specialize (B5 k ltac:(lia)). lia.
    + intros H0. rewrite at_insert_ne by lia. apply B7. done.
  - split_and!; [done|lia|lia|done|lia|]. intros H0. apply B7. done.
Qed.

Lemma banded_row j y b prev1 stop1 :
  t !! j = Some y -> banded j b -> (start_column b < stop1 <= S mc)%nat ->
  (forall k, (start_column b - 1 <= k < stop1)%nat -> good (at_index prev1 k) k j) ->
  let '(curr1, i) :=
    if decide (start_column b = 0%nat) then (<[0%nat := Z.of_nat (S j) * ins_c]> (curr b), 1%nat)
    else (curr b, start_column b) in
  let row := row_loop s ins_c del_c sub_c y prev1 (stop1 - i) i curr1 in
  length row = S mc /\
  (forall k, (start_column b <= k < stop1)%nat -> good (at_index row k) k (S j)) /\
  ((0 < start_column b)%nat -> at_index row (start_column b - 1) = d + 1).
Proof using Hins Hdel Hsub.
  intros Hy [B1 B2 B3 B4 B5 B6 B7] Hs Hp. pose proof (lookup_lt_Some _ _ _ Hy) as Hj. case_decide as H0.
  - destruct (row_loop_good s t ins_c del_c sub_c good good_step y prev1 (stop1 - 1) 0
      (<[0%nat := Z.of_nat (S j) * ins_c]> (curr b)) j) as (R1 & R2 & R3); [done|by rewrite length_insert|lia| | |].
    + rewrite at_insert_eq by lia. rewrite <- (cell_left s t ins_c del_c sub_c) by lia. apply good_exact.
    + intros k Hk. apply Hp. lia.
    + split_and!; [done| |lia]. intros k Hk. apply R2. lia.
  - destruct (start_column b) as [|i] eqn:Hi; [done|]. destruct B7 as [B7 B7']; [lia|].
    replace (S i - 1)%nat with i in * by lia.
    destruct (row_loop_good s t ins_c del_c sub_c good good_step y prev1 (stop1 - S i) i (curr b) j)
      as (R1 & R2 & R3); [done|done|lia| | |].
    + rewrite B7'. apply good_over. apply (key_left_of (S i) j Hj); [lia|done|lia].
    + intros k Hk. apply Hp. lia.
    + split_and!; [done| |]; [intros k Hk; apply R2; lia|]. intros _. rewrite R3 by lia. done.
Qed.

Lemma banded_step j y b :
  t !! j = Some y -> banded j b ->
  match row_step s ins_c del_c sub_c (S mc) nc (Some d) (S j) y b with
  | inl r => r = d + 1 /\ forall k, (k <= mc)%nat -> d < key k (S j)
  | inr b' => banded (S j) b' /\ key (stop_column b' - 1) (S j) <= d
  end.
Proof using Hins Hdel Hsub.
  intros Hy Hb. pose proof (lookup_lt_Some _ _ _ Hy) as Hj. unfold row_step.
  pose proof (banded_widen j b Hj Hb) as Hw. destruct (if decide (stop_column b < S mc)%nat then _ else _) as [prev1 stop1].
  destruct Hw as (W1 & W2 & W3 & W4 & W5).
  pose proof (banded_row j y b prev1 stop1 Hy Hb W2 W3) as Hr.
  destruct (if decide (start_column b = 0%nat) then _ else _) as [curr1 i].
  set (row := row_loop s ins_c del_c sub_c y prev1 (stop1 - i) i curr1) in *. destruct Hr as (R1 & R2 & R3).
  destruct (shrink_stop_spec row (zero_point (S j)) stop1) as (S1 & S2 & S3).
  change (Z.of_nat (S j) - (Z.of_nat nc - (Z.of_nat (S mc) - 1))) with (zero_point (S j)).
  set (stop2 := shrink_stop ins_c del_c row (zero_point (S j)) d stop1) in *.
  destruct (advance_start_spec (zero_point (S j)) (stop2 - start_column b) (mk_band row prev1 (start_column b) stop2))
    as (A1 & A2 & A3 & A4 & A5 & A6 & A7); cbn [prev curr start_column stop_column] in *;
    [pose proof (banded_columns _ _ Hb); lia|done|done|].
  set (b' := advance_start _ _ _ _ _ _) in *.
  assert (Hout : forall k, (start_column b <= k < stop1)%nat -> d < at_index row k + residual ins_c del_c (zero_point (S j)) k -> d < key k (S j)).
  { intros k Hk Hd. pose proof (good_within _ _ _ (R2 k Hk)) as Hg. unfold rest_cost in Hg. lia. }
  assert (Hleft : forall k, (k < start_column b)%nat -> d < key k (S j)).
  { apply (key_left_of (start_column b) j Hj); [pose proof (banded_columns _ _ Hb); lia|apply (banded_left _ _ Hb)]. }
  assert (Hleft' : forall k, (k < start_column b')%nat -> (k < stop1)%nat -> d < key k (S j)).
  { intros k Hk Hk'. destruct (decide (k < start_column b)%nat); [by apply Hleft|]. apply Hout; [lia|]. apply A5. lia. }
  assert (Hright : forall k, (stop2 <= k <= mc)%nat -> d < key k (S j)).
  { intros k Hk. destruct (decide (k < start_column b)%nat); [by apply Hleft|].
    destruct (decide (k < stop1)%nat); [|apply W4; lia]. apply Hout; [lia|]. apply S2. lia. }
  rewrite A3. case_decide as He.
  - split; [done|]. intros k Hk. destruct (decide (k < stop2)%nat); [apply Hleft'; lia|apply Hright; lia].
  - split; [split|].
    + done.
    + done.
    + lia.
    + intros k Hk. apply Hleft'; lia.
    + intros k Hk. apply Hright. lia.
    + intros k Hk. rewrite A6 by lia. apply R2. lia.
    + intros H0. destruct A7 as [[E1 E2]|A7]; [|done]. rewrite E2. cbn [prev curr start_column].
      split; [apply R3|apply W5]; lia.
    + rewrite A3. apply (good_within (at_index row (stop2 - 1))); [apply R2; lia|]. apply S3. lia.
Qed.

Lemma key_last k : (k <= mc)%nat -> cell mc nc <= key k nc.
Proof.
  intros Hk. remember (mc - k)%nat as n eqn:Hn. revert k Hk Hn. induction n as [|n IH]; intros k Hk Hn.
  { replace k with mc by lia. unfold key. rewrite rest_end. lia. }
  specialize (IH (S k) ltac:(lia) ltac:(lia)). destruct (lookup_lt_is_Some_2 s k) as [x Hx]; [lia|].
  pose proof (dist_delete ins_c del_c sub_c x (reverse (take k s)) (reverse (take nc t))) as Hd.
  rewrite <- (reverse_take_S _ _ _ Hx) in Hd.
  assert (rest_cost k nc = del_c + rest_cost (S k) nc).
  { unfold rest_cost, residual, zero_point. repeat case_decide; lia. }
  unfold key, SqlExtInv.cell in *. lia.
Qed.

Lemma banded_rows j b :
  (j <= nc)%nat -> banded j b -> (j = nc -> key (stop_column b - 1) nc <= d) ->
  match rows s ins_c del_c sub_c (S mc) nc (Some d) (S j) (drop j t) b with
  | inl r => r = d + 1 /\ d < cell mc nc
  | inr b' => at_index (prev b') mc = cell mc nc /\ cell mc nc <= d
  end.
Proof using Hins Hdel Hsub.
  intros Hj Hb Hlast. remember (nc - j)%nat as n eqn:Hn. revert j b Hj Hb Hlast Hn.
  induction n as [|n IH]; intros j b Hj Hb Hlast Hn.
  - rewrite drop_ge by lia. simpl. assert (j = nc) as -> by lia. specialize (Hlast eq_refl).
    pose proof (banded_columns _ _ Hb). pose proof (key_last (stop_column b - 1) ltac:(lia)).
    assert (Hk : key mc nc = cell mc nc) by (unfold key; rewrite rest_end; lia).
    assert (start_column b <= mc < stop_column b)%nat.
    { pose proof (banded_left _ _ Hb mc). pose proof (banded_right _ _ Hb mc). lia. }
    split; [|lia]. apply (banded_good _ _ Hb); [done|lia].
  - destruct (lookup_lt_is_Some_2 t j) as [y Hy]; [lia|]. rewrite (drop_S _ _ _ Hy). simpl.
    pose proof (banded_step j y b Hy Hb) as Hst. destruct (row_step _ _ _ _ _ _ _ _ _ _) as [r|b'].
    + destruct Hst as [-> Hk]. split; [done|]. pose proof (key_later (S j) (nc - S j) Hk ltac:(lia) mc ltac:(lia)) as Hm.
      replace (S j + (nc - S j))%nat with nc in Hm by lia. unfold key in Hm. rewrite rest_end in Hm. lia.
    + destruct Hst as [Hb' Hk]. apply IH; [lia|done| |lia]. by intros <-.
Qed.

Lemma distance_rows_bounded stop :
  (0 < nc)%nat -> (0 < stop <= S mc)%nat -> (forall k, (stop <= k <= mc)%nat -> d < key k 0) ->
  distance_rows s ins_c del_c sub_c t (Some d) stop =
  if decide (cell mc nc <= d) then cell mc nc else d + 1.
Proof using Hins Hdel Hsub.
  intros Hn Hs Hk. unfold distance_rows. set (b0 := mk_band _ _ _ _).
  assert (Hb0 : banded 0 b0).
  { destruct (first_row_spec del_c stop 0 (replicate (S mc) (d + 1))) as [F1 F2]; [rewrite length_replicate; lia|].
    split; subst b0; cbn [prev curr start_column stop_column]; rewrite ?F1, ?length_replicate; try done; try lia.
    intros k Hk'. rewrite F2, decide_True by lia. rewrite <- (cell_top s t ins_c del_c sub_c) by lia. apply good_exact. }
  pose proof (banded_rows 0 b0 ltac:(lia) Hb0 ltac:(lia)) as Hr. rewrite drop_0 in Hr.
  rewrite Nat.sub_1_r. cbn [Nat.pred].
  destruct (rows _ _ _ _ _ _ _ _ _ _) as [r|b]; case_decide; lia.
Qed.
End banded.

(** ** The distance *)

Section distance.
Context (ins_c del_c sub_c : Z).
Context (Hins : (0 <= ins_c)%Z) (Hdel : (0 <= del_c)%Z) (Hsub : (0 <= sub_c)%Z).
Local Open Scope Z_scope.

(** The least cost of a script from [s] to [t]. *)
Definition edit_distance (s t : list N) : Z := dist ins_c del_c sub_c (reverse s) (reverse t).

Lemma edit_distance_least s t :
  (exists script, transforms script s t /\ script_cost ins_c del_c sub_c script = edit_distance s t) /\
  (forall script, transforms script s t -> edit_distance s t <= script_cost ins_c del_c sub_c script).
Proof using Hsub.
  unfold edit_distance. split.
  - destruct (dist_attained ins_c del_c sub_c (reverse s) (reverse t)) as (script & Ht & <-).
    exists (reverse script). split; [|apply script_cost_reverse].
    apply transforms_reverse in Ht. by rewrite !reverse_involutive in Ht.
  - intros script Ht. rewrite <- script_cost_reverse. by apply dist_lower, transforms_reverse.
Qed.

(** What [levenshtein_less_equal] answers. *)
Definition within_bound (max_d : option Z) (D : Z) : Z :=
  match max_d with
  | Some d => if decide (0 <= d < D) then d + 1 else D
  | None => D
  end.

Lemma distance_upper s t :
  edit_distance s t <=
  (if decide (Z.of_nat (length t) - Z.of_nat (length s) < 0) then - (Z.of_nat (length t) - Z.of_nat (length s)) * del_c
   else (Z.of_nat (length t) - Z.of_nat (length s)) * ins_c) + sub_c * Z.of_nat (Nat.min (length s) (length t)).
Proof using Hsub.
  unfold edit_distance. rewrite <- (length_reverse s), <- (length_reverse t). generalize (reverse s) (reverse t).
  intros rs. induction rs as [|x rs IH]; intros [|y rt].
  - rewrite dist_nil_l. simpl. lia.
  - rewrite dist_nil_l. cbn [length Nat.min]. case_decide; lia.
  - rewrite dist_nil_r. cbn [length Nat.min]. case_decide; lia.
  - pose proof (dist_step ins_c del_c sub_c x rs y rt). pose proof (step_cost_bounds sub_c Hsub x y).
    specialize (IH rt). cbn [length Nat.min]. repeat case_decide; lia.
Qed.
End distance.

(** Each column right of the best one costs an insertion and a deletion more. *)
Lemma initial_columns s t ins_c del_c sub_c d k :
  let net := (Z.of_nat (length t) - Z.of_nat (length s))%Z in
  let least := (if decide (net < 0) then - net * del_c else net * ins_c)%Z in
  (least <= d)%Z ->
  (0 <= ins_c)%Z -> (0 <= del_c)%Z -> (0 < ins_c + del_c)%Z ->
  (Z.to_nat (if decide (net < 0)%Z then - net else 0)%Z + Z.to_nat (Z.quot (d - least) (ins_c + del_c)) + 1 <= k <= length s)%nat ->
  (d < key s t ins_c del_c sub_c k 0)%Z.
Proof.
  intros net least Hd Hins Hdel Hpos Hk.
  unfold key. rewrite cell_top by lia. unfold rest_cost, residual, zero_point.
  rewrite Z.quot_div_nonneg in Hk by lia.
  assert (Hq : (d - least < (ins_c + del_c) * ((d - least) / (ins_c + del_c) + 1))%Z).
  { pose proof (Z.mul_succ_div_gt (d - least) (ins_c + del_c) Hpos). lia. }
  pose proof (Z.div_pos (d - least) (ins_c + del_c) ltac:(lia) Hpos) as Hq0.
  set (q := ((d - least) / (ins_c + del_c))%Z) in *. subst least net. repeat case_decide; nia.
Qed.

Lemma distance_spec s t ins_c del_c sub_c max_d :
  (0 <= ins_c)%Z -> (0 <= del_c)%Z -> (0 <= sub_c)%Z -> t <> [] ->
  distance s t ins_c del_c sub_c max_d = within_bound max_d (edit_distance ins_c del_c sub_c s t).
Proof.
  intros Hins Hdel Hsub Ht. unfold distance, within_bound.
  destruct max_d as [d|]; [|by rewrite distance_rows_unbounded].
  destruct (decide (0 <= d)%Z) as [Hd|Hd]; [|rewrite distance_rows_unbounded, decide_False by lia; done].
  pose proof (dist_length ins_c del_c sub_c Hins Hdel Hsub (reverse s) (reverse t)) as Hlow.
  rewrite !length_reverse in Hlow. fold (edit_distance ins_c del_c sub_c s t) in Hlow.
  assert (Hle : ((if decide (Z.of_nat (length t) - Z.of_nat (length s) < 0) then - (Z.of_nat (length t) - Z.of_nat (length s)) * del_c
     else (Z.of_nat (length t) - Z.of_nat (length s)) * ins_c) <= edit_distance ins_c del_c sub_c s t)%Z).
  { case_decide; lia. }
  destruct (decide (d < _)%Z) as [Hmin|Hmin]; [rewrite decide_True by lia; done|].
  replace (if decide (ins_c + del_c < sub_c)%Z then (ins_c + del_c)%Z else sub_c) with (Z.min sub_c (ins_c + del_c))
    by (destruct (decide (ins_c + del_c < sub_c)%Z); lia).
  assert (Hsub' : (0 <= Z.min sub_c (ins_c + del_c))%Z) by lia.
  assert (Hclamp : edit_distance ins_c del_c (Z.min sub_c (ins_c + del_c)) s t = edit_distance ins_c del_c sub_c s t)
    by apply dist_clamp.
  set (sub' := Z.min sub_c (ins_c + del_c)) in *. clearbody sub'. rewrite <- Hclamp in *.
  assert (Hnc : (0 < length t)%nat) by (destruct t; simpl; [done|lia]).
  assert (Hb : forall stop, (0 < stop <= S (length s))%nat ->
    (forall k, (stop <= k <= length s)%nat -> (d < key s t ins_c del_c sub' k 0)%Z) ->
    distance_rows s ins_c del_c sub' t (Some d) stop =
    if decide (0 <= d < edit_distance ins_c del_c sub' s t)%Z then (d + 1)%Z else edit_distance ins_c del_c sub' s t).
  { intros stop Hs Hk. rewrite (distance_rows_bounded s t ins_c del_c sub' d Hins Hdel Hsub') by done.
    rewrite cell_end. fold (edit_distance ins_c del_c sub' s t). repeat case_decide; lia. }
  destruct (decide (_ <= d)%Z) as [Hmax|Hmax].
  { rewrite distance_rows_unbounded. fold (edit_distance ins_c del_c sub' s t).
    pose proof (distance_upper ins_c del_c sub' Hsub' s t). rewrite decide_False by lia. done. }
  destruct (decide (0 < ins_c + del_c)%Z) as [Hpos|Hpos]; [|apply Hb; lia].
  destruct (decide (length s < _)%nat) as [Hst|Hst]; [apply Hb; lia|].
  apply Hb; [lia|]. intros k Hk. apply initial_columns; [lia|done|done|done|done].
Qed.
