(* ===== verification/ExtProperties.v ===== *)
(** * Properties of the extension functions

    The distance of two strings is the cost of the cheapest edit script, and the
    pattern operator of paths decides a declarative match. *)

From S2P Require Import Prelude BTree Json Utf8 RustString RustFloat SqlTypes Fts SqlValue SqlExt SqlExtInv SqlInstance.

Local Open Scope string_scope.

Section properties.
Context `{!Foreign}.


(** C33. The operator [~] of a path and a pattern, in either order of the operands:
    it fails when the pattern is malformed, and otherwise tells whether the labels of
    the path can be cut into one segment per level of the pattern, each of a length
    that the quantifier of the level allows and with labels that all match it. *)
Theorem lquery_exact p q :
  match parse_lquery q with
  | Ok levels =>
      exists b, ltree_operator "~" (VLtree p) (VText q) = Ok (VBool b) /\
        ltree_operator "~" (VText q) (VLtree p) = Ok (VBool b) /\
        (b = true <-> path_match levels (ltree_labels p))
  | Err e => ltree_operator "~" (VLtree p) (VText q) = Err e /\ ltree_operator "~" (VText q) (VLtree p) = Err e
  end.
Proof.
  unfold ltree_operator. simpl. destruct (parse_lquery q) as [levels|e]; simpl; [|done].
  eexists. split_and!; [done|done|]. apply lquery_match_spec.
Qed.
End properties.

